(* ===== verification/_CoqProject ===== *)
-Q . S2P
Prelude.v
Words.v
Permutations.v
Bits.v
BitVect.v
Transpose.v
BitMatrix.v
BitVectAmd64.v
Hash.v
HashShared.v
Cuckoo.v
IO.v
Framing.v
Dhpsi.v
DhpsiParallel.v
Fill.v
DhpsiPool.v
DhpsiProtocol.v
DhpsiLoop.v
DhpsiHostile.v
Proc.v
Bufio.v
Wp.v
Crypto.v
OT.v
Oprf.v
Kkrt.v
KkrtHostile.v
KkrtStage3.v
HashEngine.v
Npsi.v
NpsiHostile.v
Bpsi.v
Pair.v
Select.v
Psi.v
Programs.v
Stages.v
