(* ===== verification/Prelude.v ===== *)
(** * A verification development for the [match] private set intersection library

    The library computes which identifiers two parties share.  A sender and a
    receiver, each with a list of identifiers, run one of four protocols over a
    connection; the receiver learns the intersection.  A fifth package, [pair],
    encrypts identifiers for a matching done elsewhere.

    ** The parts of the program and their files

    Shared helpers
    - [Prelude] (this file): results of Go calls ([res]: value, error or panic),
      slices, loops with and without early exit, lists.
    - [Words]: integers of fixed width and byte order, as [Z] with the wrap-around
      written out.
    - [IO]: [io.Writer], [io.Reader], [io.ReadFull], [encoding/binary].  A [source]
      delivers its bytes in chunks of any size, then an error; a [sink] may fail at
      any call.
    - [Proc]: parties that read and write in turn.  A [proc] runs against a
      connection that may fail ([run]) or against its peer ([step], [exchange],
      [inevitable]); the steps of two parties are confluent and terminate.
    - [Bufio]: [bufio.Writer] and one [Read] of a [bufio.Reader].
    - [Wp]: what a party guarantees against any peer, [wp], with its rules and its
      adequacy [wp_run].

    internal/
    - [Permutations]: kensler.go, naive.go, nil.go, types.go.
    - [Bits], [BitVect], [Transpose], [BitMatrix], [BitVectAmd64]: internal/util
      bits*.go and bitvect*.go, the byte-wise operations in both builds, the
      goroutines that share them, and the transposition of bit matrices, portable
      and amd64.
    - [Framing]: internal/util framing.go and count.go.
    - [Select]: internal/util select.go, goroutines against a context.
    - [Hash], [HashShared]: hash.go, and the array that concurrent calls of one murmur3
      hasher share.  [Cuckoo]: cuckoo.go.
    - [Crypto]: internal/crypto.  [OT]: internal/ot.  [Oprf]: internal/oprf.

    pkg/
    - [Dhpsi] (encoders and readers), [DhpsiParallel] (the parallel encoder),
      [Fill] (the goroutines of the parallel reader), [DhpsiPool] (the workers that
      encoders and readers share), [DhpsiProtocol] (both parties), [DhpsiLoop] (the
      select loop of the receiver), [DhpsiHostile] (a peer that sends anything):
      pkg/dhpsi.
    - [Kkrt]: pkg/kkrtpsi, over [Oprf], [OT] and [Cuckoo]; [KkrtHostile];
      [KkrtStage3], the goroutines of the sender's third stage.
    - [HashEngine] (npsi_parallel.go) and [Npsi]: pkg/npsi; [NpsiHostile].
    - [Bpsi]: pkg/bpsi.  [Pair]: pkg/pair.  [Psi]: pkg/psi, the choice of a
      protocol.
    - [Programs]: the programs under examples/, from a file of lines to a party and from
      the intersection to a file.
    - [Stages]: the calls of [util.Sel] of a party, one per stage, when the context
      may be cancelled and the stages do not look at it.

    ** How state and operations correspond

    A Go struct is a record with the same fields; a method that changes its
    receiver, or a function that writes a slice it was given, returns the new
    value.  A closure run as a stage ([stage1], [stage2], ...) is one definition
    with the name of the package in front, and [Send] and [Intersect] compose them
    ([kkrt_Send], [npsi_Intersect], ...).  Identifiers on a channel are a list.
    Goroutines that share state are a step relation ([hash_step], [fill_step],
    [pool_step], [engine_step], [sel_step], [sels_step], [loop_step], [stage_step],
    [stage3_step]);
    goroutines that only share out independent work are a list of steps taken in an
    order that is a parameter.

    Code that is not in the repository is a class of functions, with a class of
    laws that states its documented behaviour where a theorem needs it:
    [MetroHash], [Murmur3], [AES], [Blake3], [Curve], [R255Lib], [GRLib], [Bloom],
    [PairLib], [ErrGroup]; so is what the language leaves to the implementation,
    [FloatConv]; random bytes are an argument ([draw], [picks]), as are the order of
    a [range] over a map and the number of cores.  Every class of laws has an
    instance that computes, on which the examples run.

    ** What the theorems show

    - The protocols: KKRT, DH and the naive protocol implement one specification,
      [intersection_of] (exactly the common identifiers, each once), when no two
      identifiers collide; the Bloom filter protocol misses none.  KKRT and the Bloom
      filter protocol are stated for every order of the steps of both parties
      ([inevitable]).  With the programs around
      the DH parties, the file that the receiver writes lists the lines both files have.
      The theorems on DH are about connections that cut the points only between points
      ([delivers]), and the naive protocol's about a salt that comes in one piece: the
      code reads both with a single [Read].
    - The layers of KKRT: Naor-Pinkas transfers the chosen messages ([OTLaws]), the
      OPRF encodes ([oprf_encodes]), the cuckoo table keeps its items through
      evictions (invariant [valid]) and loses exactly one when it gives up.
    - Concurrency: the parallel reader of DH, the hashing engine of the naive
      protocol, the third stage of KKRT's sender and the concurrent bit operations
      neither crash nor block nor lose or repeat an item, in any interleaving, when no
      call fails and nothing is cancelled; the parallel encoder writes what the
      sequential one does.  All readers and encoders of a process share one pool of
      workers of any positive size: when every connection delivers all its points and
      every caller goes on reading, each of them finishes ([pool_shared]); a reader that
      its caller stops reading can keep the whole pool for good ([pool_abandoned]), and
      a read error can crash the process ([fill_read_error_crashes]).  Concurrent calls
      of a murmur3 hasher are right as long as [append] has room for one identifier at
      most.
    - Equivalences: the portable and the amd64 code compute the same; the bit
      tricks of [transpose] are the transposition; the kensler shuffler is a
      permutation up to 2^31 items and the cycle walk ends.
    - Round trips: the cipher, the framing of identifiers, the points on a
      connection, the double encryption of PAIR.
    - Any peer: the parties of the naive protocol and of KKRT write only bytes, do not
      panic and report only identifiers of their own, each once, whatever is sent to
      them; for KKRT this supposes that the announced sizes, the receiver's own and the
      one the sender reads, are between 0 and 2^49, and that each party feeds what it
      announces ([kkrt_hostile_peer]).  A negative size crashes the sender
      ([kkrt_announced_size_crashes]).  The receiver of DH ends and reports its own
      identifiers, each once, up to what an answer that comes too early does
      ([dhpsi_hostile_sender]).  A sender of DH that sends bytes that are no point has
      an identifier reported that it does not know.
    - Cancellation: four of the parties have stages that do not look at the context, the
      receivers of KKRT and of the naive protocol and both parties of the Bloom filter
      protocol.  Cancelled, such a party returns the error of the context with a part of
      its bytes written, and the goroutine of its stage goes on; otherwise it does what
      its stages do in sequence ([stages_under_context]).  The third stage of KKRT's
      sender looks at the context: cancelled, its workers may leave while its writer
      waits for them for good; otherwise it does what the sequential [writer] does
      ([stage3_under_context]).
    - Errors and bounds: what each party does with a failed or short read, a failed
      write or flush, a wrong count, a full table, sizes above 2^31; several of
      these theorems exhibit a defect of the code.

    ** Bounds and fuel

    The kensler loop runs with a binary fuel of 2^32 steps: its variable has 2^32
    values, so a longer run repeats itself, and the theorems show that it ends for
    every constructed shuffler.  The rounds of an eviction are bounded by the code
    itself.  Every other recursion is structural.

    ** Not modelled

    Of the programs under examples/ the flags, the sockets and the loop over several
    connections are left out, as is the generator under test/.  Logging and memory statistics are left
    out.  [context] is modelled in [Select], [DhpsiLoop], [KkrtStage3] and [Stages]; the
    DH sender, the naive sender, whose first stage reads once, and the sequence of the
    three stages of KKRT's sender are not put under a context.  A goroutine that a stage
    starts (the thread of KKRT's first stage, the code words of the OPRF) is run where
    its result is received, so that its panic, which ends the process whenever it comes,
    appears there.  A cancelled [Intersect] returns,
    beside the error, the part of the intersection found so far, which the model
    leaves out.  Timing, memory and the secrecy of the protocols are out of scope. *)
From Stdlib Require Export ZArith Lia ZifyNat.
From stdpp Require Export base gmap strings numbers list.
#[global] Set Default Goal Selector "!".

Declare Scope go_scope.
Delimit Scope go_scope with go.
#[global] Open Scope Z_scope.

(** Linear arithmetic with quotients and remainders by constants. *)
Ltac dlia := zify; Z.to_euclidean_division_equations; lia.

(** ** Results of Go calls

    A call returns a value, returns an [error], or panics. *)

(** The error values the modelled code returns or compares. *)
Inductive error :=
| EOF
| ErrUnexpectedEOF
| ErrUnexpectedPoint
| ErrByteLengthMissMatch
| ErrSaltLengthMismatch
| ErrBaseCountMissMatch
| ErrInvalidPAIRMode
| ErrInvalidSaltSize
| ErrUnsupportedPSIProtocol
| ErrMsg (s : string)
| Wrapped (s : string) (e : error).

#[export] Instance error_eq_dec : EqDecision error.
Proof. solve_decision. Defined.

Inductive res (A : Type) :=
| Ok (a : A)
| Err (e : error)
| Panic (p : string).
Arguments Ok {A} _.
Arguments Err {A} _.
Arguments Panic {A} _.

Definition res_bind {A B} (r : res A) (k : A → res B) : res B :=
  match r with
  | Ok a => k a
  | Err e => Err e
  | Panic p => Panic p
  end.

Definition res_map {A B} (f : A → B) (r : res A) : res B :=
  res_bind r (λ a, Ok (f a)).

Notation "'let!' x ':=' r 'in' k" := (res_bind r (λ x, k))
  (at level 10, x name, r at level 100, k at level 200) : go_scope.
Notation "'let!' ' p ':=' r 'in' k" := (res_bind r (λ x, match x with p => k end))
  (at level 10, p pattern, r at level 100, k at level 200) : go_scope.
#[global] Open Scope go_scope.

(** [l[i]] for a slice: panics out of range. *)
Definition index {A} (l : list A) (i : Z) : res A :=
  if bool_decide (0 ≤ i) then
    match l !! Z.to_nat i with
    | Some a => Ok a
    | None => Panic "index out of range"
    end
  else Panic "index out of range".

(** [l[i] = a]. *)
Definition store {A} (l : list A) (i : Z) (a : A) : res (list A) :=
  if bool_decide (0 ≤ i < Z.of_nat (length l)) then Ok (<[Z.to_nat i := a]> l)
  else Panic "index out of range".

(** Running [f] over [0 .. n-1] while threading a state that may fail. *)
Fixpoint for_res {T} (f : nat → T → res T) (i n : nat) (s : T) : res T :=
  match n with
  | O => Ok s
  | S n' => let! s' := f i s in for_res f (S i) n' s'
  end.

(** A pure loop [for i := i0; i < i0 + n; i++ { s = f(i, s) }]. *)
Fixpoint for_loop {T} (f : nat → T → T) (i n : nat) (s : T) : T :=
  match n with
  | O => s
  | S n' => for_loop f (S i) n' (f i s)
  end.

(** ** Loops with a binary fuel

    [for { body }] with an early exit.  The fuel is a [positive], so a bound of
    [2^32] iterations is a term of 33 constructors: the definition evaluates. *)
Section BinaryLoop.
Context {A B : Type} (body : A → A + B).

Fixpoint loop_pos (p : positive) (a : A) : A + B :=
  match p with
  | xH => body a
  | xO q => match loop_pos q a with inl a' => loop_pos q a' | inr b => inr b end
  | xI q =>
      match body a with
      | inl a1 => match loop_pos q a1 with inl a2 => loop_pos q a2 | inr b => inr b end
      | inr b => inr b
      end
  end.

Fixpoint loop_nat (n : nat) (a : A) : A + B :=
  match n with
  | O => inl a
  | S n' => match body a with inl a' => loop_nat n' a' | inr b => inr b end
  end.

Lemma loop_nat_add n m a :
  loop_nat (n + m) a = match loop_nat n a with inl a' => loop_nat m a' | inr b => inr b end.
Proof. revert a; induction n as [|n IH]; intros a; simpl; [done|]. by destruct (body a). Qed.

Lemma loop_pos_nat p a : loop_pos p a = loop_nat (Pos.to_nat p) a.
Proof.
  revert a; induction p as [q IH|q IH|]; intros a; cbn [loop_pos].
  - rewrite Pos2Nat.inj_xI. cbn [loop_nat]. destruct (body a) as [a'|b]; [|done].
    replace (2 * Pos.to_nat q)%nat with (Pos.to_nat q + Pos.to_nat q)%nat by lia.
    rewrite loop_nat_add, <-IH. destruct (loop_pos q a'); [by rewrite IH|done].
  - rewrite Pos2Nat.inj_xO.
    replace (2 * Pos.to_nat q)%nat with (Pos.to_nat q + Pos.to_nat q)%nat by lia.
    rewrite loop_nat_add, <-IH. destruct (loop_pos q a); [by rewrite IH|done].
  - rewrite Pos2Nat.inj_1. cbn [loop_nat]. by destruct (body a).
Qed.

(** A state that the body gives back as it is never leaves the loop. *)
Lemma loop_pos_stuck p a : body a = inl a → loop_pos p a = inl a.
Proof.
  intros Ha. rewrite loop_pos_nat. induction (Pos.to_nat p) as [|n IH]; [done|].
  cbn [loop_nat]. by rewrite Ha.
Qed.

Lemma loop_nat_mono n m a b : (n ≤ m)%nat → loop_nat n a = inr b → loop_nat m a = inr b.
Proof.
  intros Hle Hn. replace m with (n + (m - n))%nat by lia.
  by rewrite loop_nat_add, Hn.
Qed.
End BinaryLoop.

(** ** Orbits of an injection on a finite range *)
Section FiniteOrbit.
Context (N : Z) (f : Z → Z).
Hypothesis f_range : ∀ x, 0 ≤ x < N → 0 ≤ f x < N.
Hypothesis f_inj : ∀ x y, 0 ≤ x < N → 0 ≤ y < N → f x = f y → x = y.

Lemma iter_range n x : 0 ≤ x < N → 0 ≤ Nat.iter n f x < N.
Proof. induction n as [|n IH]; simpl; auto. Qed.

Lemma iter_inj n x y :
  0 ≤ x < N → 0 ≤ y < N → Nat.iter n f x = Nat.iter n f y → x = y.
Proof.
  induction n as [|n IH]; simpl; intros Hx Hy Heq; [done|].
  apply IH; [done..|]. apply f_inj; auto using iter_range.
Qed.

Lemma iter_add n m x : Nat.iter (n + m) f x = Nat.iter n f (Nat.iter m f x).
Proof. induction n as [|n IH]; simpl; [done|]. by rewrite IH. Qed.

(** Every point comes back to itself within [N] applications. *)
Lemma orbit_returns x :
  0 ≤ x < N → ∃ n, (1 ≤ n ≤ Z.to_nat N)%nat ∧ Nat.iter n f x = x.
Proof.
  intros Hx.
  set (orbit := (λ n, Nat.iter n f x) <$> seq 0 (S (Z.to_nat N))).
  assert (¬ NoDup orbit) as Hdup.
  { intros Hnd. assert (length orbit ≤ length (seqZ 0 N))%nat as Hlen.
    { apply submseteq_length, NoDup_submseteq; [done|].
      intros y (n & -> & _)%list_elem_of_fmap. apply elem_of_seqZ.
      pose proof (iter_range n x Hx). lia. }
    unfold orbit in Hlen. rewrite length_fmap, length_seq, length_seqZ in Hlen. lia. }
  destruct (decide (Exists (λ ij, (ij.1 < ij.2)%nat ∧ Nat.iter ij.1 f x = Nat.iter ij.2 f x)
      (list_prod (seq 0 (S (Z.to_nat N))) (seq 0 (S (Z.to_nat N)))))) as [Hex|Hno].
  - apply Exists_exists in Hex as ([i j] & Hin & Hlt & Heq).
    simpl in Hlt, Heq. apply list_elem_of_In, in_prod_iff in Hin as [Hi Hj].
    apply in_seq in Hi, Hj. exists (j - i)%nat. split; [lia|].
    apply (iter_inj i); [by apply iter_range|done|].
    rewrite <-iter_add. replace (i + (j - i))%nat with j by lia. done.
  - destruct Hdup. apply NoDup_alt. intros i j y Hi Hj. unfold orbit in Hi, Hj.
    apply list_lookup_fmap_Some in Hi as (a & -> & Ha), Hj as (b & Hy & Hb).
    apply lookup_seq in Ha as [-> Hi], Hb as [-> Hj]. destruct (decide (i = j)) as [|Hne]; [done|]. exfalso.
    apply Hno, Exists_exists.
    destruct (decide (i < j)%nat).
    + exists (i, j). split; [apply list_elem_of_In, in_prod; apply in_seq; lia|]. split; [done|exact Hy].
    + exists (j, i). split; [apply list_elem_of_In, in_prod; apply in_seq; lia|].
      split; [cbn; lia|]. symmetry. exact Hy.
Qed.
End FiniteOrbit.

(** An injection of a finite range into itself lists it in another order. *)
Lemma injective_range_permutation (N : Z) (f : Z → Z) :
  (∀ x, 0 ≤ x < N → 0 ≤ f x < N) →
  (∀ x y, 0 ≤ x < N → 0 ≤ y < N → f x = f y → x = y) →
  f <$> seqZ 0 N ≡ₚ seqZ 0 N.
Proof.
  intros Hr Hi. apply submseteq_length_Permutation; [|by rewrite length_fmap].
  apply NoDup_submseteq.
  - apply NoDup_alt. intros i j y Hix Hjx.
    apply list_lookup_fmap_Some in Hix as (a & -> & Ha), Hjx as (b & Hy & Hb).
    apply lookup_seqZ in Ha as [-> Ha], Hb as [-> Hb].
    apply Hi in Hy; lia.
  - intros y (x & -> & Hx)%list_elem_of_fmap. apply elem_of_seqZ in Hx.
    apply elem_of_seqZ. specialize (Hr x). lia.
Qed.

(** ** Cycle walking

    Restricting an injection of [[0, N)] to [[0, L)] by applying it until the
    value falls below [L]. *)
Section CycleWalk.
Context (N L : Z) (f : Z → Z).
Hypothesis L_le_N : L ≤ N.
Hypothesis f_range : ∀ x, 0 ≤ x < N → 0 ≤ f x < N.
Hypothesis f_inj : ∀ x y, 0 ≤ x < N → 0 ≤ y < N → f x = f y → x = y.

Definition walk_body (x : Z) : Z + Z := if f x <? L then inr (f x) else inl (f x).

Lemma walk_exit n x y :
  loop_nat walk_body n x = inr y →
  ∃ m, (1 ≤ m)%nat ∧ y = Nat.iter m f x ∧ y < L ∧
    ∀ j, (1 ≤ j < m)%nat → L ≤ Nat.iter j f x.
Proof.
  revert x. induction n as [|n IH]; intros x; cbn [loop_nat]; [done|].
  unfold walk_body at 1. destruct (Z.ltb_spec (f x) L) as [Hlt|Hge].
  - intros [= <-]. exists 1%nat. repeat split; [lia|done|]. intros j Hj. lia.
  - intros (m & Hm & -> & HL & Hbefore)%IH. exists (S m).
    rewrite Nat.iter_succ_r. repeat split; [lia|done|].
    intros [|[|j]] Hj; [lia|done|]. rewrite Nat.iter_succ_r. apply Hbefore. lia.
Qed.

Lemma walk_continue n x y :
  loop_nat walk_body n x = inl y → ∀ j, (1 ≤ j ≤ n)%nat → L ≤ Nat.iter j f x.
Proof.
  revert x. induction n as [|n IH]; intros x; cbn [loop_nat]; [intros _ j Hj; lia|].
  unfold walk_body at 1. destruct (Z.ltb_spec (f x) L) as [Hlt|Hge]; [done|].
  intros Hn [|[|j]] Hj; [lia|done|]. rewrite Nat.iter_succ_r. apply (IH (f x)); [done|lia].
Qed.

(** [N] applications are enough. *)
Lemma walk_total x :
  0 ≤ x < L → ∃ y, loop_nat walk_body (Z.to_nat N) x = inr y ∧ 0 ≤ y < L.
Proof.
  intros Hx. destruct (loop_nat walk_body (Z.to_nat N) x) as [y|y] eqn:E.
  - destruct (orbit_returns N f f_range f_inj x) as (n & Hn & Hret); [lia|].
    pose proof (walk_continue _ _ _ E n Hn). lia.
  - exists y. split; [done|]. apply walk_exit in E as (m & _ & -> & HL & _).
    pose proof (iter_range N f f_range m x). lia.
Qed.

Lemma walk_inj n x y z :
  0 ≤ x < L → 0 ≤ y < L →
  loop_nat walk_body n x = inr z → loop_nat walk_body n y = inr z → x = y.
Proof.
  intros Hx Hy (m1 & Hm1 & Ez1 & _ & Hb1)%walk_exit (m2 & Hm2 & Ez2 & _ & Hb2)%walk_exit.
  assert (∀ a b m d, 0 ≤ a < L → 0 ≤ b < L → (1 ≤ m)%nat → (1 ≤ d)%nat →
    Nat.iter m f a = Nat.iter (m + d) f b →
    (∀ j, (1 ≤ j < m + d)%nat → L ≤ Nat.iter j f b) → False) as Hlonger.
  { intros a b m d Ha Hb Hm Hd Heq Hbef. rewrite iter_add in Heq.
    apply (iter_inj N f f_range f_inj) in Heq; [|lia|apply (iter_range N f f_range); lia].
    specialize (Hbef d). lia. }
  destruct (decide (m1 = m2)) as [->|Hne].
  - apply (iter_inj N f f_range f_inj m2); [lia|lia|congruence].
  - exfalso. destruct (decide (m1 < m2)%nat).
    + apply (Hlonger x y m1 (m2 - m1)%nat); [done|done|done|lia| |];
        replace (m1 + (m2 - m1))%nat with m2 by lia; [congruence|done].
    + apply (Hlonger y x m2 (m1 - m2)%nat); [done|done|done|lia| |];
        replace (m2 + (m1 - m2))%nat with m1 by lia; [congruence|done].
Qed.
End CycleWalk.

(** ** Swapping two elements of a slice *)
Lemma swap_Permutation {A} (l : list A) (i j : nat) (x y : A) :
  l !! i = Some x → l !! j = Some y → <[i := y]> (<[j := x]> l) ≡ₚ l.
Proof.
  intros Hi Hj. apply Permutation_inj. split; [by rewrite !length_insert|].
  pose proof (lookup_lt_Some _ _ _ Hi). pose proof (lookup_lt_Some _ _ _ Hj).
  exists (λ n, if decide (n = i) then j else if decide (n = j) then i else n). split.
  - intros a b. repeat case_decide; congruence.
  - intros n. repeat case_decide; subst.
    + by rewrite list_lookup_insert_eq by (rewrite length_insert; done).
    + rewrite list_lookup_insert_ne, list_lookup_insert_eq; [|done|done]. done.
    + by rewrite !list_lookup_insert_ne by done.
Qed.

Lemma index_Ok {A} (l : list A) (i : Z) (a : A) :
  index l i = Ok a ↔ 0 ≤ i ∧ l !! Z.to_nat i = Some a.
Proof.
  unfold index. case_bool_decide; [|split; [done|intros [? _]; done]].
  destruct (l !! Z.to_nat i); naive_solver.
Qed.

Lemma Ok_index_nat {A} (l : list A) i a : l !! i = Some a → index l (Z.of_nat i) = Ok a.
Proof. intros. apply index_Ok. rewrite Nat2Z.id. split; [lia|done]. Qed.

Lemma index_total {A} (l : list A) (i : Z) :
  0 ≤ i < Z.of_nat (length l) → ∃ a, index l i = Ok a.
Proof.
  intros Hi. destruct (lookup_lt_is_Some_2 l (Z.to_nat i)) as [a Ha]; [lia|].
  exists a. apply index_Ok. split; [lia|done].
Qed.

Lemma store_Ok {A} (l : list A) (i : Z) (a : A) :
  0 ≤ i < Z.of_nat (length l) → store l i a = Ok (<[Z.to_nat i := a]> l).
Proof. intros Hi. unfold store. by rewrite bool_decide_true by lia. Qed.

(** Rule for [for_res]: an invariant every iteration keeps, without failing. *)
Lemma for_res_invariant {T} (I : nat → T → Prop) (f : nat → T → res T) (i n : nat) (s : T) :
  I i s →
  (∀ j s, (i ≤ j < i + n)%nat → I j s → ∃ s', f j s = Ok s' ∧ I (S j) s') →
  ∃ s', for_res f i n s = Ok s' ∧ I (i + n)%nat s'.
Proof.
  revert i s. induction n as [|n IH]; intros i s Hi Hstep; cbn [for_res].
  - exists s. by rewrite Nat.add_0_r.
  - destruct (Hstep i s) as (s1 & -> & Hs1); [lia|done|]. cbn.
    rewrite <-Nat.add_succ_comm. apply IH; [done|].
    intros j s' Hj. apply Hstep. lia.
Qed.

Lemma for_loop_invariant {T} (I : nat → T → Prop) (f : nat → T → T) (i n : nat) (s : T) :
  I i s →
  (∀ j s, (i ≤ j < i + n)%nat → I j s → I (S j) (f j s)) →
  I (i + n)%nat (for_loop f i n s).
Proof.
  revert i s. induction n as [|n IH]; intros i s Hi Hstep; cbn [for_loop].
  - by rewrite Nat.add_0_r.
  - rewrite <-Nat.add_succ_comm. apply IH; [apply Hstep; [lia|done]|].
    intros j s' Hj. apply Hstep. lia.
Qed.

Lemma Ok_pair_inj {A B} (a a' : A) (b b' : B) : Ok (a, b) = Ok (a', b') → a = a' ∧ b = b'.
Proof. intros E. by injection E. Qed.

(** An array that a loop fills from the left. *)
Lemma fill_next {A} (full init : list A) i x :
  full !! i = Some x → length init = length full →
  <[i := x]> (take i full ++ drop i init) = take (i + 1) full ++ drop (i + 1) init.
Proof.
  intros Hx Hl. pose proof (lookup_lt_Some _ _ _ Hx).
  assert (length (take i full) = i) as Hi by (rewrite length_take; lia).
  rewrite insert_app_r_alt, Hi, Nat.sub_diag by lia.
  destruct (lookup_lt_is_Some_2 init i) as [y Hy]; [lia|].
  by rewrite Nat.add_1_r, (drop_S _ _ _ Hy), (take_S_r _ _ _ Hx), <-app_assoc.
Qed.

(** ** [make] of a slice of a length computed at run time

    The language's bound: the length must be an [int].  The smaller limit of a runtime
    depends on the size of the elements and the memory, which are not modelled. *)
Definition make_len (n : Z) : res nat :=
  if (n <? 0) || (2 ^ 63 <=? n) then Panic "makeslice: len out of range" else Ok (Z.to_nat n).

Lemma make_len_Ok n : 0 ≤ n < 2 ^ 63 → make_len n = Ok (Z.to_nat n).
Proof. intros Hn. unfold make_len. rewrite (proj2 (Z.ltb_ge n 0)), (proj2 (Z.leb_gt _ n)) by lia. done. Qed.

(** ** Lists with one entry replaced *)
Lemma sum_insert {A} (f : A → nat) (xs : list A) k a a' :
  xs !! k = Some a →
  (f a + sum_list_with f (<[k := a']> xs) = f a' + sum_list_with f xs)%nat.
Proof.
  intros Hk. rewrite <-(take_drop_middle xs k a Hk) at 2.
  rewrite insert_take_drop by by eapply lookup_lt_Some.
  rewrite !sum_list_with_app. cbn [sum_list_with]. lia.
Qed.

Lemma sum_ge {A} (f : A → nat) (xs : list A) k a : xs !! k = Some a → (f a ≤ sum_list_with f xs)%nat.
Proof.
  intros Hk. rewrite <-(take_drop_middle xs k a Hk), sum_list_with_app. cbn [sum_list_with]. lia.
Qed.

Lemma sum_pos {A} (f : A → nat) (xs : list A) :
  (0 < sum_list_with f xs)%nat → ∃ k a, xs !! k = Some a ∧ (0 < f a)%nat.
Proof.
  induction xs as [|x xs IH]; cbn [sum_list_with]; intros Hs; [lia|].
  destruct (decide (0 < f x)%nat); [by exists 0%nat, x|].
  destruct IH as (k & a & Hk & Ha); [lia|]. by exists (S k), a.
Qed.

Lemma Forall2_update {A B} (R : A → B → Prop) xs ys k x y :
  Forall2 R xs ys → xs !! k = Some x → R x y → Forall2 R xs (<[k := y]> ys).
Proof. intros HR Hk Hxy. rewrite <-(list_insert_id xs k x) by done. by apply Forall2_insert. Qed.

(** ** What a protocol promises

    The specification the protocols share: the receiver's result holds exactly the
    identifiers of both parties, each once.  It fixes the result up to its order. *)
Definition intersection_of {A} (sids rids inter : list A) : Prop :=
  NoDup inter ∧ ∀ x, x ∈ inter ↔ x ∈ rids ∧ x ∈ sids.

#[export] Instance intersection_of_proper {A} :
  Proper ((≡ₚ) ==> (≡ₚ) ==> (≡ₚ) ==> iff) (@intersection_of A).
Proof.
  intros s s' Es r r' Er i i' Ei. unfold intersection_of. rewrite Ei.
  split; intros [Hn E]; (split; [done|]; intros x); specialize (E x);
    [rewrite <-Es, <-Er, <-Ei|rewrite Es, Er, Ei]; done.
Qed.

Lemma intersection_of_unique {A} (sids rids i1 i2 : list A) :
  intersection_of sids rids i1 → intersection_of sids rids i2 → i1 ≡ₚ i2.
Proof. intros [H1 E1] [H2 E2]. apply NoDup_Permutation; [done..|]. intros x. by rewrite E1, E2. Qed.

Lemma intersection_of_sym {A} (sids rids inter : list A) :
  intersection_of sids rids inter → intersection_of rids sids inter.
Proof. intros [Hn E]. split; [done|]. intros x. rewrite E. tauto. Qed.

Lemma intersection_of_filter {A} (P : A → Prop) `{!∀ x, Decision (P x)} (sids rids out : list A) :
  NoDup rids → (∀ x, x ∈ rids → P x ↔ x ∈ sids) → out ≡ₚ filter P rids →
  intersection_of sids rids out.
Proof.
  intros Hnd HP ->. split; [by apply NoDup_filter|].
  intros x. rewrite list_elem_of_filter. split; [|intros [Hx Hs]; split; [by apply HP|done]].
  intros [Hp Hx]. split; [done|by apply HP].
Qed.
