(* ===== verification/Words.v ===== *)
(** * Machine words and byte order

    Go's [uint8], [uint32], [uint64] and [int64] as [Z] with the wrap-around
    written out, and the [encoding/binary] conversions between 64-bit words and
    bytes that [internal/util], [internal/hash] and the protocols use. *)
From Stdlib Require Import Zdivisibility.
From S2P Require Import Prelude.

(** Reduction of an unsigned [w]-bit result. *)
Definition wrap (w x : Z) : Z := x mod 2 ^ w.
Abbreviation u32 := (wrap 32).
Abbreviation u64 := (wrap 64).

(** [int64(v)] of a [uint64]. *)
Definition to_int64 (v : Z) : Z := if v <? 2 ^ 63 then v else v - 2 ^ 64.

Definition byte_ok (b : Z) : Prop := 0 ≤ b < 256.
Abbreviation bytes_ok := (Forall byte_ok).

(** [binary.LittleEndian.Uint64] and [PutUint64], for any number of bytes. *)
Fixpoint le_get (bs : list Z) : Z :=
  match bs with
  | [] => 0
  | b :: bs' => b + 256 * le_get bs'
  end.

Fixpoint le_put (n : nat) (v : Z) : list Z :=
  match n with
  | O => []
  | S n' => v mod 256 :: le_put n' (v / 256)
  end.

(** [binary.BigEndian]. *)
Definition be_get (bs : list Z) : Z := le_get (reverse bs).
Definition be_put (n : nat) (v : Z) : list Z := reverse (le_put n v).

(** [bytes_ok] of a literal. *)
Ltac solve_bytes := refine (bool_decide_unpack _ _); vm_compute; exact I.

#[export] Instance byte_ok_dec b : Decision (byte_ok b).
Proof. unfold byte_ok. apply _. Defined.

(** ** Bits of bounded words *)
Lemma testbit_mod_pow2 x k i :
  0 ≤ k → 0 ≤ i → Z.testbit (x mod 2 ^ k) i = bool_decide (i < k) && Z.testbit x i.
Proof.
  intros Hk Hi. case_bool_decide; simpl.
  - apply Z.mod_pow2_bits_low. lia.
  - apply Z.mod_pow2_bits_high. lia.
Qed.

Lemma testbit_high x k i : 0 ≤ x < 2 ^ k → k ≤ i → Z.testbit x i = false.
Proof.
  intros Hx Hi. destruct (decide (0 ≤ k)).
  - rewrite <-(Z.mod_small x (2 ^ k)) by lia. apply Z.mod_pow2_bits_high. lia.
  - rewrite Z.pow_neg_r in Hx by lia. lia.
Qed.

(** Two numbers agree modulo [2^k] when their low [k] bits agree. *)
Lemma mod_pow2_eq_iff x y k :
  0 ≤ k →
  x mod 2 ^ k = y mod 2 ^ k ↔ ∀ i, 0 ≤ i < k → Z.testbit x i = Z.testbit y i.
Proof.
  intros Hk. split.
  - intros Heq i Hi. apply (f_equal (λ z, Z.testbit z i)) in Heq.
    rewrite !testbit_mod_pow2, bool_decide_true in Heq by lia. done.
  - intros Hbits. apply Z.bits_inj'. intros i Hi.
    rewrite !testbit_mod_pow2 by lia. case_bool_decide; simpl; [|done].
    apply Hbits. lia.
Qed.

Lemma bounded_bits x k :
  0 ≤ k → (∀ i, k ≤ i → Z.testbit x i = false) → 0 ≤ x < 2 ^ k.
Proof.
  intros Hk Hx. enough (x = x mod 2 ^ k) as ->.
  { apply Z.mod_pos_bound. lia. }
  apply Z.bits_inj'. intros i Hi. rewrite testbit_mod_pow2 by lia.
  case_bool_decide; simpl; [done|]. apply Hx. lia.
Qed.

Lemma lxor_bounded x y k :
  0 ≤ k → 0 ≤ x < 2 ^ k → 0 ≤ y < 2 ^ k → 0 ≤ Z.lxor x y < 2 ^ k.
Proof.
  intros Hk Hx Hy. apply bounded_bits; [done|]. intros i Hi.
  by rewrite Z.lxor_spec, !(testbit_high _ k i).
Qed.

Lemma land_bounded_l x y k : 0 ≤ k → 0 ≤ x < 2 ^ k → 0 ≤ Z.land x y < 2 ^ k.
Proof.
  intros Hk Hx. apply bounded_bits; [done|]. intros i Hi.
  by rewrite Z.land_spec, (testbit_high x k i).
Qed.

Lemma land_bounded_r x y k : 0 ≤ k → 0 ≤ y < 2 ^ k → 0 ≤ Z.land x y < 2 ^ k.
Proof. rewrite Z.land_comm. apply land_bounded_l. Qed.

Lemma wrap_range w x : 0 ≤ w → 0 ≤ wrap w x < 2 ^ w.
Proof. intros. apply Z.mod_pos_bound. lia. Qed.

Lemma wrap_small w x : 0 ≤ x < 2 ^ w → wrap w x = x.
Proof. apply Z.mod_small. Qed.

(** ** Bit operations

    A binary operation on words that acts bit by bit. *)
Class BitOp (op : Z → Z → Z) := {
  bit_fun : bool → bool → bool;
  bit_fun_false : bit_fun false false = false;
  bit_op_spec x y i : 0 ≤ i → Z.testbit (op x y) i = bit_fun (Z.testbit x i) (Z.testbit y i)
}.

#[export] Instance lxor_bitop : BitOp Z.lxor.
Proof. refine {| bit_fun := xorb |}; [done|]. intros. apply Z.lxor_spec. Defined.
#[export] Instance land_bitop : BitOp Z.land.
Proof. refine {| bit_fun := andb |}; [done|]. intros. apply Z.land_spec. Defined.

Section BitOps.
Context (op : Z → Z → Z) `{!BitOp op}.

Lemma bit_op_bounded x y k :
  0 ≤ k → 0 ≤ x < 2 ^ k → 0 ≤ y < 2 ^ k → 0 ≤ op x y < 2 ^ k.
Proof.
  intros Hk Hx Hy. apply bounded_bits; [done|]. intros i Hi.
  rewrite bit_op_spec, !(testbit_high _ k i) by lia. apply bit_fun_false.
Qed.

Lemma bit_op_byte_ok x y : byte_ok x → byte_ok y → byte_ok (op x y).
Proof. unfold byte_ok. change 256 with (2 ^ 8). apply bit_op_bounded. lia. Qed.

Lemma bit_op_digits x y r s :
  byte_ok x → byte_ok y → op (x + 256 * r) (y + 256 * s) = op x y + 256 * op r s.
Proof.
  intros Hx Hy.
  assert (∀ a b i, byte_ok a → 0 ≤ i →
    Z.testbit (a + 256 * b) i = if decide (i < 8) then Z.testbit a i else Z.testbit b (i - 8)) as Hbit.
  { intros a b i Ha Hi. unfold byte_ok in Ha. case_decide.
    - rewrite <-(Z.mod_pow2_bits_low (a + 256 * b) 8 i) by lia.
      change (2 ^ 8) with 256. rewrite (Z.mul_comm 256), Z.mod_add by lia.
      by rewrite Z.mod_small.
    - replace i with (i - 8 + 8) at 1 by lia. rewrite <-Z.div_pow2_bits by lia.
      change (2 ^ 8) with 256. rewrite (Z.mul_comm 256), Z.div_add by lia.
      by rewrite Z.div_small. }
  pose proof (bit_op_byte_ok x y Hx Hy).
  apply Z.bits_inj'. intros i Hi. rewrite bit_op_spec, !Hbit by done.
  case_decide; rewrite bit_op_spec by lia; done.
Qed.

Lemma bit_op_zero : op 0 0 = 0.
Proof.
  apply Z.bits_inj'. intros i Hi. rewrite bit_op_spec, Z.bits_0 by done.
  apply bit_fun_false.
Qed.

Lemma le_get_bit_op a b :
  length a = length b → bytes_ok a → bytes_ok b →
  op (le_get a) (le_get b) = le_get (zip_with op a b).
Proof.
  intros Hlen Ha Hb. revert b Hlen Hb.
  induction Ha as [|x a Hx Ha IH]; intros [|y b] Hlen Hb; simplify_eq/=.
  - apply bit_op_zero.
  - apply Forall_cons in Hb as [Hy Hb]. by rewrite bit_op_digits, IH.
Qed.

Lemma zip_with_bytes_ok a b : bytes_ok a → bytes_ok b → bytes_ok (zip_with op a b).
Proof.
  intros Ha. revert b. induction Ha as [|x a Hx Ha IH]; intros b Hb; [constructor|].
  destruct Hb as [|y b Hy Hb]; simpl; [constructor|].
  constructor; [by apply bit_op_byte_ok|auto].
Qed.
End BitOps.

(** ** Round trips *)
Lemma length_le_put n v : length (le_put n v) = n.
Proof. revert v. induction n as [|n IH]; intros v; simpl; [done|]. by rewrite IH. Qed.

Lemma le_put_bytes_ok n v : bytes_ok (le_put n v).
Proof.
  revert v. induction n as [|n IH]; intros v; simpl; constructor; [|done].
  apply Z.mod_pos_bound. lia.
Qed.

Lemma le_get_put n v : le_get (le_put n v) = v mod 2 ^ (8 * Z.of_nat n).
Proof.
  revert v. induction n as [|n IH]; intros v; cbn [le_put le_get].
  - by rewrite Z.mul_0_r, Z.mod_1_r.
  - rewrite IH. replace (8 * Z.of_nat (S n)) with (8 + 8 * Z.of_nat n) by lia.
    rewrite Z.pow_add_r by lia. change (2 ^ 8) with 256.
    rewrite Z.rem_mul_r by lia. done.
Qed.

Lemma le_put_get bs : bytes_ok bs → le_put (length bs) (le_get bs) = bs.
Proof.
  induction 1 as [|b bs Hb _ IH]; cbn [length le_put le_get]; [done|].
  unfold byte_ok in Hb. rewrite (Z.mul_comm 256). f_equal.
  - by rewrite Z.mod_add, Z.mod_small by lia.
  - by rewrite Z.div_add, Z.div_small, Z.add_0_l by lia.
Qed.

Lemma le_get_range bs : bytes_ok bs → 0 ≤ le_get bs < 2 ^ (8 * Z.of_nat (length bs)).
Proof.
  intros Hbs. rewrite <-(le_put_get bs Hbs) at 1 2. rewrite le_get_put.
  apply Z.mod_pos_bound. lia.
Qed.

Lemma length_be_put n v : length (be_put n v) = n.
Proof. unfold be_put. by rewrite length_reverse, length_le_put. Qed.

Lemma be_put_bytes_ok n v : bytes_ok (be_put n v).
Proof. apply Forall_reverse, le_put_bytes_ok. Qed.

Lemma be_get_put n v : be_get (be_put n v) = v mod 2 ^ (8 * Z.of_nat n).
Proof. unfold be_get, be_put. by rewrite reverse_involutive, le_get_put. Qed.

(** An [int64] written as eight bytes reads back as itself. *)
Lemma be_word_roundtrip v : 0 ≤ v < 2 ^ 64 → be_get (be_put 8 v) = v.
Proof. intros. rewrite be_get_put. by apply Z.mod_small. Qed.

Lemma int64_be_roundtrip v :
  - 2 ^ 63 ≤ v < 2 ^ 63 → to_int64 (be_get (be_put 8 v)) = v.
Proof.
  intros Hv. rewrite be_get_put. unfold to_int64. change (8 * Z.of_nat 8) with 64.
  destruct (decide (0 ≤ v)).
  - rewrite Z.mod_small by lia. by destruct (Z.ltb_spec v (2 ^ 63)); [|lia].
  - assert (v mod 2 ^ 64 = v + 2 ^ 64) as ->.
    { symmetry. apply (Z.mod_unique v (2 ^ 64) (-1)); lia. }
    destruct (Z.ltb_spec (v + 2 ^ 64) (2 ^ 63)); lia.
Qed.

(** ** Congruences that keep the low bits apart

    [keeps k f]: the low [k] bits of [f x] determine, and are determined by,
    the low [k] bits of [x]. *)
Definition keeps (k : Z) (f : Z → Z) : Prop :=
  ∀ x y, f x mod 2 ^ k = f y mod 2 ^ k ↔ x mod 2 ^ k = y mod 2 ^ k.

Lemma keeps_compose k f g : keeps k f → keeps k g → keeps k (λ x, f (g x)).
Proof. intros Hf Hg x y. rewrite (Hf (g x) (g y)). apply Hg. Qed.

Lemma keeps_xor_const k c : 0 ≤ k → keeps k (λ x, Z.lxor x c).
Proof.
  intros Hk x y. rewrite !mod_pow2_eq_iff by done.
  split; intros Hb i Hi; specialize (Hb i Hi); rewrite ?Z.lxor_spec in *.
  - by destruct (Z.testbit x i), (Z.testbit y i), (Z.testbit c i).
  - by rewrite Hb.
Qed.

Lemma keeps_wrap k w : 0 ≤ k ≤ w → keeps k (wrap w).
Proof.
  intros Hk x y. rewrite !mod_pow2_eq_iff by lia. unfold wrap.
  split; intros Hb i Hi; specialize (Hb i Hi);
    rewrite !testbit_mod_pow2, bool_decide_true in * by lia; done.
Qed.

(** Multiplication by an odd constant. *)
Lemma keeps_mul_odd k c : 0 ≤ k → Z.odd c = true → keeps k (λ x, x * c).
Proof.
  intros Hk Hc x y. assert (0 < 2 ^ k) by lia.
  assert (∀ a b, a mod 2 ^ k = b mod 2 ^ k ↔ (2 ^ k | a - b)) as Hdiv.
  { intros a b. split.
    - intros Heq. exists (a / 2 ^ k - b / 2 ^ k).
      pose proof (Z.div_mod a (2 ^ k)). pose proof (Z.div_mod b (2 ^ k)). nia.
    - intros [q Hq]. replace a with (b + q * 2 ^ k) by lia. by rewrite Z.mod_add by lia. }
  rewrite !Hdiv, <-Z.mul_sub_distr_r. split.
  - rewrite Z.mul_comm. intros Hd. apply (Z.gauss _ _ _ Hd).
    apply Z.odd_spec in Hc as [m ->].
    rewrite Z.gcd_comm. apply Z.coprime_pow_r; [done|].
    apply Z.coprime_Bezout. exists 1, (- m). lia.
  - apply Z.divide_mul_l.
Qed.

(** [x ^= (x & w) >> s] with [w] the mask of the low [k] bits and [s >= 1]. *)
Lemma keeps_xorshift k s :
  0 ≤ k → 1 ≤ s → keeps k (λ x, Z.lxor x (Z.shiftr (Z.land x (Z.ones k)) s)).
Proof.
  intros Hk Hs x y. rewrite !mod_pow2_eq_iff by done.
  assert (∀ z i, 0 ≤ i < k →
    Z.testbit (Z.lxor z (Z.shiftr (Z.land z (Z.ones k)) s)) i =
    xorb (Z.testbit z i) (Z.testbit z (i + s) && bool_decide (i + s < k))) as Hz.
  { intros z i Hi. rewrite Z.lxor_spec, Z.shiftr_spec, Z.land_spec, Z.testbit_ones by lia.
    do 2 f_equal. destruct (Z.leb_spec 0 (i + s)), (Z.ltb_spec (i + s) k);
      (case_bool_decide; [try done|try done]); lia. }
  split; intros Hb.
  - enough (∀ n, ∀ i, 0 ≤ i < k → k - i ≤ Z.of_nat n → Z.testbit x i = Z.testbit y i) as Hn.
    { intros i Hi. apply (Hn (Z.to_nat (k - i))); lia. }
    induction n as [|n IH]; intros i Hi Hle; [lia|].
    specialize (Hb i Hi). rewrite !Hz in Hb by done. case_bool_decide.
    + rewrite (IH (i + s)), !andb_true_r in Hb by lia.
      by destruct (Z.testbit x i), (Z.testbit y i), (Z.testbit y (i + s)).
    + by rewrite !andb_false_r, !xorb_false_r in Hb.
  - intros i Hi. rewrite !Hz, (Hb i) by done. case_bool_decide; [|by rewrite !andb_false_r].
    by rewrite (Hb (i + s)) by lia.
Qed.

(** ** Signed 64-bit [int] *)

(** Go's [int] on the 64-bit targets of the code wraps around. *)
Definition wrap_int (x : Z) : Z := (x + 2 ^ 63) mod 2 ^ 64 - 2 ^ 63.

Lemma wrap_int_small x : - 2 ^ 63 ≤ x < 2 ^ 63 → wrap_int x = x.
Proof. intros Hx. unfold wrap_int. rewrite Z.mod_small; lia. Qed.

(** ** Slices of bytes *)

(** [l[lo:hi]], for bounds that are in range. *)
Definition slice {A} (l : list A) (lo hi : nat) : list A := take (hi - lo) (drop lo l).

(** [l[lo:hi]] with Go's check (a slice whose capacity is its length). *)
Definition go_slice {A} (l : list A) (lo hi : nat) : res (list A) :=
  if bool_decide (lo ≤ hi ∧ hi ≤ length l)%nat then Ok (slice l lo hi)
  else Panic "slice bounds out of range".

(** [l[:n]] for an [int]. *)
Definition go_prefix {A} (l : list A) (n : Z) : res (list A) :=
  if n <? 0 then Panic "slice bounds out of range" else go_slice l 0 (Z.to_nat n).

(** [copy(l[lo:], bs)] for [lo + len(bs) <= len(l)]. *)
Definition put_at {A} (l : list A) (lo : nat) (bs : list A) : list A :=
  take lo l ++ bs ++ drop (lo + length bs) l.

Lemma length_slice {A} (l : list A) lo hi :
  (lo ≤ hi ≤ length l)%nat → length (slice l lo hi) = (hi - lo)%nat.
Proof. intros. unfold slice. rewrite length_take, length_drop. lia. Qed.

Lemma lookup_slice {A} (l : list A) lo hi i :
  (i < hi - lo)%nat → slice l lo hi !! i = l !! (lo + i)%nat.
Proof. intros Hi. unfold slice. by rewrite lookup_take_lt, lookup_drop. Qed.

Lemma slice_full {A} (l : list A) n : (length l ≤ n)%nat → slice l 0 n = l.
Proof. intros. unfold slice. by rewrite drop_0, Nat.sub_0_r, take_ge. Qed.

Lemma go_prefix_Ok {A} (l : list A) n :
  0 ≤ n ≤ Z.of_nat (length l) → go_prefix l n = Ok (take (Z.to_nat n) l).
Proof.
  intros Hn. unfold go_prefix, go_slice, slice. destruct (Z.ltb_spec n 0); [lia|].
  by rewrite bool_decide_true, Nat.sub_0_r by lia.
Qed.

Lemma length_put_at {A} (l : list A) lo bs :
  (lo + length bs ≤ length l)%nat → length (put_at l lo bs) = length l.
Proof. intros. unfold put_at. rewrite !length_app, length_take, length_drop. lia. Qed.

Lemma lookup_put_at {A} (l : list A) lo bs i :
  (lo + length bs ≤ length l)%nat →
  put_at l lo bs !! i =
    if decide (lo ≤ i < lo + length bs)%nat then bs !! (i - lo)%nat else l !! i.
Proof.
  intros Hle. unfold put_at. destruct (decide (i < lo)%nat).
  - rewrite lookup_app_l by (rewrite length_take; lia).
    rewrite lookup_take_lt by lia. case_decide; [lia|done].
  - rewrite lookup_app_r by (rewrite length_take; lia).
    rewrite length_take, Nat.min_l by lia. case_decide.
    + by rewrite lookup_app_l by lia.
    + rewrite lookup_app_r, lookup_drop by lia. f_equal. lia.
Qed.

Lemma slice_zip_with {A B C} (f : A → B → C) (k : list A) (l : list B) lo hi :
  slice (zip_with f k l) lo hi = zip_with f (slice k lo hi) (slice l lo hi).
Proof. unfold slice. by rewrite zip_with_drop, zip_with_take. Qed.

Lemma slice_bytes_ok l lo hi : bytes_ok l → bytes_ok (slice l lo hi).
Proof. intros. by apply Forall_take, Forall_drop. Qed.
