(* ===== verification/Permutations.v ===== *)
(** * [internal/permutations]

    The shufflers that decide in which order a party writes its points:
    [null] (nil.go), [naive] (naive.go) and [kensler] (kensler.go), behind the
    [Permutations] interface of types.go. *)
From S2P Require Import Prelude Words.

(** [types.go]: the interface.  [None] is a call that yields no value, because
    it panics or does not return. *)
Record Permutations := { Shuffle : Z → option Z }.

Definition max (a b : Z) : Z := if b <? a then a else b.

(** [crypto/rand.Int(rand.Reader, max)]: the [n]-th draw of the process, a
    value of [[0, max)], the error of the reader, or a panic when [max <= 0]. *)
Definition rand_Int (draw : nat → option Z) (n : nat) (max : Z) : res Z :=
  if max <=? 0 then Panic "crypto/rand: argument to Int is <= 0"
  else match draw n with
       | Some v => Ok (v mod max)
       | None => Err (ErrMsg "rand")
       end.

(** ** nil.go *)
Definition null_Shuffle (n : Z) : option Z := Some n.
Definition null_permutations : Permutations := {| Shuffle := null_Shuffle |}.

(** ** naive.go *)
Record naive := Naive { n_p : list Z }.

(** [if j != i { p[j], p[i] = p[i], p[j] }], after the draw of [j]. *)
Definition naive_swap (draw : nat → option Z) (n : Z) (i : nat) (p : list Z) : res (list Z) :=
  let! j := rand_Int draw i (n - 1) in
  if j =? Z.of_nat i then Ok p
  else
    let! pi := index p (Z.of_nat i) in
    let! pj := index p j in
    let! p1 := store p j pi in
    store p1 (Z.of_nat i) pj.

Definition NewNaive (draw : nat → option Z) (n : Z) : res naive :=
  if n <? 0 then Panic "makeslice: len out of range"
  else
    let p := seqZ 0 n in
    let! p' := for_res (naive_swap draw n) 0 (Z.to_nat n) p in
    Ok (Naive p').

Definition naive_Shuffle (k : naive) (n : Z) : option Z :=
  match index (n_p k) n with
  | Ok v => Some v
  | _ => None
  end.
Definition naive_permutations (k : naive) : Permutations := {| Shuffle := naive_Shuffle k |}.

(** ** kensler.go *)
Record kensler := Kensler { k_l : Z; k_p : Z }.

(** The zero value [kensler{}], returned together with every error. *)
Definition kensler_zero : kensler := Kensler 0 0.

Definition NewKensler (draw : nat → option Z) (l : Z) : res (kensler * option error) :=
  if 2 ^ 32 - 1 <? l then
    Ok (kensler_zero, Some (ErrMsg "value is larger than the maximal value allowable for kensler"))
  else
    let l := max l 2 in
    match rand_Int draw 0 (l - 1) with
    | Ok i => Ok (Kensler (u32 l) (u32 i), None)
    | Err e => Ok (kensler_zero, Some e)
    | Panic m => Panic m
    end.

(** [w := l - 1; w |= w >> 1; ...; w |= w >> 16]. *)
Definition kensler_mask (l : Z) : Z :=
  let w := u32 (l - 1) in
  let w := Z.lor w (Z.shiftr w 1) in
  let w := Z.lor w (Z.shiftr w 2) in
  let w := Z.lor w (Z.shiftr w 4) in
  let w := Z.lor w (Z.shiftr w 8) in
  Z.lor w (Z.shiftr w 16).

(** One run of the loop body on [i], up to its exit test. *)
Definition kensler_round (p w i : Z) : Z :=
  let i := Z.lxor i p in
  let i := u32 (i * 0xe170893d) in
  let i := Z.lxor i (Z.shiftr p 16) in
  let i := Z.lxor i (Z.shiftr (Z.land i w) 4) in
  let i := Z.lxor i (Z.shiftr p 8) in
  let i := u32 (i * 0x0929eb3f) in
  let i := Z.lxor i (Z.shiftr p 23) in
  let i := Z.lxor i (Z.shiftr (Z.land i w) 1) in
  let i := u32 (i * Z.lor 1 (Z.shiftr p 27)) in
  let i := u32 (i * 0x6935fa69) in
  let i := Z.lxor i (Z.shiftr (Z.land i w) 11) in
  let i := u32 (i * 0x74dcb303) in
  let i := Z.lxor i (Z.shiftr (Z.land i w) 2) in
  let i := u32 (i * 0x9e501cc3) in
  let i := Z.lxor i (Z.shiftr (Z.land i w) 2) in
  let i := u32 (i * 0xc860a3df) in
  let i := Z.land i w in
  Z.lxor i (Z.shiftr i 5).

Definition kensler_body (k : kensler) (i : Z) : Z + Z :=
  let i' := kensler_round (k_p k) (kensler_mask (k_l k)) i in
  if i' <? k_l k then inr i' else inl i'.

(** The loop variable has [2^32] values, so a run of [2^32] rounds that has not
    left the loop never leaves it. *)
Definition kensler_fuel : positive := 4294967296.

Definition kensler_Shuffle (k : kensler) (n : Z) : option Z :=
  match loop_pos (kensler_body k) kensler_fuel (u32 n) with
  | inr i => Some (u32 (i + k_p k) mod k_l k)
  | inl _ => None
  end.
Definition kensler_permutations (k : kensler) : Permutations := {| Shuffle := kensler_Shuffle k |}.

Example kensler_10_3 :
  mapM (kensler_Shuffle (Kensler 10 3)) (seqZ 0 10) = Some [7; 5; 2; 3; 1; 4; 6; 9; 0; 8].
Proof. vm_compute. reflexivity. Qed.

(** ** What the users of [Permutations] rely on *)
Class Permutes (p : Permutations) (n : Z) : Prop := {
  shuffle_total i : 0 ≤ i < n → ∃ j, Shuffle p i = Some j ∧ 0 ≤ j < n;
  shuffle_inj i j r :
    0 ≤ i < n → 0 ≤ j < n → Shuffle p i = Some r → Shuffle p j = Some r → i = j
}.

(** Asking a shuffler for all positions lists [0 .. n-1] in some order. *)
Lemma permutes_list (p : Permutations) (n : Z) `{!Permutes p n} :
  ∃ js, mapM (Shuffle p) (seqZ 0 n) = Some js ∧ js ≡ₚ seqZ 0 n.
Proof.
  pose (f := λ i, default 0 (Shuffle p i)).
  assert (∀ i, 0 ≤ i < n → Shuffle p i = Some (f i) ∧ 0 ≤ f i < n) as Hf.
  { intros i Hi. destruct (shuffle_total i Hi) as (j & Hj & Hr). unfold f. by rewrite Hj. }
  exists (f <$> seqZ 0 n). split.
  - apply mapM_Some_2, Forall2_fmap_r, Forall_Forall2_diag, Forall_forall.
    intros i Hi%elem_of_seqZ. apply Hf. lia.
  - apply injective_range_permutation.
    + intros i Hi. by apply Hf.
    + intros i j Hi Hj Hij. apply (shuffle_inj i j (f i)); [done..| |].
      * by apply Hf.
      * rewrite Hij. by apply Hf.
Qed.

#[export] Instance null_permutes n : Permutes null_permutations n.
Proof.
  split; unfold Shuffle; simpl; unfold null_Shuffle.
  - intros i Hi. by exists i.
  - intros i j r _ _ Hi Hj. by simplify_eq.
Qed.

(** ** The mask of the kensler shuffle *)
Lemma smear_step (x y d : Z) :
  0 ≤ d →
  (∀ i, 0 ≤ i → Z.testbit y i = true ↔ ∃ e, 0 ≤ e < d ∧ Z.testbit x (i + e) = true) →
  ∀ i, 0 ≤ i →
  Z.testbit (Z.lor y (Z.shiftr y d)) i = true ↔ ∃ e, 0 ≤ e < d + d ∧ Z.testbit x (i + e) = true.
Proof.
  intros Hd Hy i Hi. rewrite Z.lor_spec, Z.shiftr_spec, orb_true_iff, !Hy by lia. split.
  - intros [(e & He & Hx)|(e & He & Hx)].
    + exists e. split; [lia|done].
    + exists (d + e). split; [lia|]. by rewrite Z.add_assoc.
  - intros (e & He & Hx). destruct (decide (e < d)).
    + left. exists e. split; [lia|done].
    + right. exists (e - d). split; [lia|]. by replace (i + d + (e - d)) with (i + e) by lia.
Qed.

(** The mask is [2^k - 1] for the least [k] with [l - 1 < 2^k]. *)
Lemma kensler_mask_ones l :
  1 ≤ l < 2 ^ 32 → ∃ k, 0 ≤ k ≤ 32 ∧ kensler_mask l = Z.ones k ∧ l - 1 < 2 ^ k.
Proof.
  intros Hl. set (x := l - 1).
  assert (∀ i, 0 ≤ i → Z.testbit (kensler_mask l) i = true ↔
    ∃ e, 0 ≤ e < 32 ∧ Z.testbit x (i + e) = true) as Hmask.
  { unfold kensler_mask. rewrite wrap_small by lia. fold x.
    apply (smear_step _ _ 16), (smear_step _ _ 8), (smear_step _ _ 4),
      (smear_step _ _ 2), (smear_step _ _ 1); try lia.
    intros i Hi. split; [intros Hx; exists 0; rewrite Z.add_0_r; split; [lia|done]|].
    intros (e & He & Hx). by replace e with 0 in Hx by lia; rewrite Z.add_0_r in Hx. }
  destruct (decide (x = 0)) as [Hx0|Hx0].
  - exists 0. split; [lia|]. split; [|fold x; lia]. apply Z.bits_inj'. intros i Hi.
    rewrite Z.bits_0. apply not_true_iff_false. rewrite Hmask by done.
    intros (e & _ & He). by rewrite Hx0, Z.bits_0 in He.
  - assert (0 < x) by lia. pose proof (Z.log2_spec x ltac:(done)). pose proof (Z.log2_nonneg x).
    assert (Z.log2 x < 32) by (apply Z.log2_lt_pow2; lia).
    exists (Z.log2 x + 1). split; [lia|]. split; [|fold x; rewrite Z.add_1_r; lia].
    apply Z.bits_inj'. intros i Hi. rewrite Z.testbit_ones by lia.
    apply eq_true_iff_eq. rewrite Hmask, andb_true_iff, Z.leb_le, Z.ltb_lt by done. split.
    + intros (e & He & Hx). split; [done|].
      destruct (decide (i ≤ Z.log2 x)); [lia|].
      by rewrite Z.bits_above_log2 in Hx by lia.
    + intros [_ Hlt]. exists (Z.log2 x - i). split; [lia|].
      replace (i + (Z.log2 x - i)) with (Z.log2 x) by lia. apply Z.bit_log2. lia.
Qed.

(** ** The rounds of the kensler shuffle *)
Lemma keeps_mul32 k c : 0 ≤ k ≤ 32 → Z.odd c = true → keeps k (λ x, u32 (x * c)).
Proof.
  intros Hk Hc. apply (keeps_compose k u32 (λ x, x * c)).
  - by apply keeps_wrap.
  - apply keeps_mul_odd; [lia|done].
Qed.

Create HintDb kensler.
#[export] Hint Resolve keeps_mul32 keeps_xor_const keeps_xorshift : kensler.

Lemma keeps_pipeline k (fs : list (Z → Z)) :
  Forall (keeps k) fs → keeps k (λ i, fold_left (λ x f, f x) fs i).
Proof.
  induction 1 as [|f fs Hf _ IH]; intros x y; simpl; [done|].
  by rewrite (IH (f x) (f y)).
Qed.

(** Everything before the final [i &= w] keeps the low [k] bits apart. *)
Lemma kensler_round_masked p k :
  0 ≤ k ≤ 32 →
  ∃ g, keeps k g ∧ ∀ i,
    kensler_round p (Z.ones k) i =
    Z.lxor (g i mod 2 ^ k) (Z.shiftr (g i mod 2 ^ k) 5).
Proof.
  intros Hk.
  assert (Z.odd (Z.lor 1 (Z.shiftr p 27)) = true) as Hodd.
  { by rewrite <-Z.bit0_odd, Z.lor_spec. }
  pose (mul := λ c i, u32 (i * c)).
  pose (xor := λ c i, Z.lxor i c).
  pose (shr := λ s i, Z.lxor i (Z.shiftr (Z.land i (Z.ones k)) s)).
  pose (fs := [xor p; mul 0xe170893d; xor (Z.shiftr p 16); shr 4; xor (Z.shiftr p 8);
    mul 0x0929eb3f; xor (Z.shiftr p 23); shr 1; mul (Z.lor 1 (Z.shiftr p 27));
    mul 0x6935fa69; shr 11; mul 0x74dcb303; shr 2; mul 0x9e501cc3; shr 2; mul 0xc860a3df]).
  exists (λ i, fold_left (λ x f, f x) fs i). split.
  - apply keeps_pipeline.
    repeat constructor; (apply keeps_mul32 || apply keeps_xorshift || apply keeps_xor_const);
      (done || lia).
  - intros i. rewrite <-Z.land_ones by lia.
    cbv beta zeta iota delta [fold_left fs mul xor shr kensler_round]. reflexivity.
Qed.

(** A round is a bijection of the masked words. *)
Lemma kensler_round_bijective p k :
  0 ≤ k ≤ 32 →
  (∀ i, 0 ≤ kensler_round p (Z.ones k) i < 2 ^ k) ∧
  (∀ i j, 0 ≤ i < 2 ^ k → 0 ≤ j < 2 ^ k →
    kensler_round p (Z.ones k) i = kensler_round p (Z.ones k) j → i = j).
Proof.
  intros Hk. destruct (kensler_round_masked p k Hk) as (g & Hg & Hround).
  assert (∀ i, 0 ≤ g i mod 2 ^ k < 2 ^ k) as Hm by (intros; apply Z.mod_pos_bound; lia).
  split.
  - intros i. rewrite Hround. specialize (Hm i). apply lxor_bounded; [lia|done|].
    rewrite Z.shiftr_div_pow2 by lia.
    split; [apply Z.div_pos; lia|]. apply Z.div_lt_upper_bound; lia.
  - intros i j Hi Hj. rewrite !Hround. intros Heq.
    apply (f_equal (λ z, z mod 2 ^ k)) in Heq.
    pose proof (keeps_xorshift k 5 ltac:(lia) ltac:(lia)) as Hshift.
    specialize (Hshift (g i mod 2 ^ k) (g j mod 2 ^ k)). cbv beta in Hshift.
    rewrite !Z.land_ones, !Z.mod_mod in Hshift by lia.
    apply Hshift in Heq. apply (Hg i j) in Heq. rewrite !Z.mod_small in Heq by done. done.
Qed.

Lemma kensler_fuel_enough k :
  0 ≤ k ≤ 32 → (Z.to_nat (2 ^ k) ≤ Pos.to_nat kensler_fuel)%nat.
Proof.
  intros Hk.
  assert (2 ^ k ≤ Z.pos kensler_fuel) as Hle.
  { change (Z.pos kensler_fuel) with (2 ^ 32). apply Z.pow_le_mono_r; lia. }
  rewrite <-(Z2Nat.inj_pos kensler_fuel).
  exact (proj1 (Z2Nat.inj_le _ _ (Z.pow_nonneg 2 k ltac:(lia)) (Pos2Z.is_nonneg _)) Hle).
Qed.

(** The cycle walk of [kensler_Shuffle], before [(i + p) % l]. *)
Lemma kensler_walk l p :
  1 ≤ l < 2 ^ 32 →
  ∃ walk : Z → Z,
    (∀ n, 0 ≤ n < l →
      loop_pos (kensler_body (Kensler l p)) kensler_fuel (u32 n) = inr (walk n) ∧
      0 ≤ walk n < l) ∧
    (∀ n m, 0 ≤ n < l → 0 ≤ m < l → walk n = walk m → n = m).
Proof.
  intros Hl. destruct (kensler_mask_ones l Hl) as (k & Hk & Hmask & Hkl).
  set (f := kensler_round p (Z.ones k)).
  destruct (kensler_round_bijective p k Hk) as [Hr Hi]. fold f in Hr, Hi.
  assert (l ≤ 2 ^ k) as HlN by lia.
  assert (∀ n, loop_nat (kensler_body (Kensler l p)) n = loop_nat (walk_body l f) n) as Hbody.
  { intros n. unfold kensler_body, walk_body, f. cbn [k_l k_p]. rewrite Hmask. reflexivity. }
  assert (Z.to_nat (2 ^ k) ≤ Pos.to_nat kensler_fuel)%nat as Hfuel.
  { by apply kensler_fuel_enough. }
  assert (∀ n, 0 ≤ n < l → ∃ y,
    loop_nat (walk_body l f) (Pos.to_nat kensler_fuel) n = inr y ∧ 0 ≤ y < l) as Htot.
  { intros n Hn. destruct (walk_total (2 ^ k) l f HlN (λ x _, Hr x) Hi n Hn) as (y & Hy & Hyr).
    exists y. split; [|done]. by apply (loop_nat_mono _ _ _ _ _ Hfuel). }
  exists (λ n, match loop_nat (walk_body l f) (Pos.to_nat kensler_fuel) n with
               | inr y => y | inl y => y end).
  split.
  - intros n Hn. rewrite wrap_small, loop_pos_nat, Hbody by lia.
    destruct (Htot n Hn) as (y & -> & Hy). done.
  - intros n m Hn Hm. destruct (Htot n Hn) as (y & Hy & _), (Htot m Hm) as (z & Hz & _).
    rewrite Hy, Hz. intros ->.
    exact (walk_inj (2 ^ k) l f HlN (λ x _, Hr x) Hi _ n m z Hn Hm Hy Hz).
Qed.

Lemma kensler_Shuffle_eq l p walk n :
  loop_pos (kensler_body (Kensler l p)) kensler_fuel (u32 n) = inr (walk n) →
  kensler_Shuffle (Kensler l p) n = Some (u32 (walk n + p) mod l).
Proof. unfold kensler_Shuffle. by intros ->. Qed.

(** While [i + p] fits in 32 bits the whole shuffle is a permutation. *)
#[export] Instance kensler_permutes l p :
  TCEq (bool_decide (1 ≤ l ∧ 0 ≤ p ∧ p + l ≤ 2 ^ 32 ∧ l < 2 ^ 32)) true →
  Permutes (kensler_permutations (Kensler l p)) l.
Proof.
  intros (Hl & Hp & Hpl & Hl')%TCEq_eq%bool_decide_eq_true.
  destruct (kensler_walk l p) as (walk & Hwalk & Hinj); [lia|].
  assert (∀ n, 0 ≤ n < l →
    kensler_Shuffle (Kensler l p) n = Some ((walk n + p) mod l)) as Heq.
  { intros n Hn. destruct (Hwalk n Hn) as [Hw Hr].
    rewrite (kensler_Shuffle_eq _ _ _ _ Hw), wrap_small by lia. done. }
  split; cbn [Shuffle kensler_permutations].
  - intros i Hi. rewrite Heq by done. eexists. split; [done|]. apply Z.mod_pos_bound. lia.
  - intros i j r Hi Hj. rewrite !Heq by done. intros [= <-] [= Hm].
    destruct (Hwalk i Hi) as [_ Hri], (Hwalk j Hj) as [_ Hrj].
    apply Hinj; [done..|].
    pose proof (Z.div_mod (walk i + p) l). pose proof (Z.div_mod (walk j + p) l).
    assert ((walk i + p) / l = (walk j + p) / l ∨
            1 ≤ (walk i + p) / l - (walk j + p) / l ∨
            1 ≤ (walk j + p) / l - (walk i + p) / l) as [|[|]] by lia; nia.
Qed.

Lemma NewKensler_Some draw n k :
  n < 2 ^ 32 → NewKensler draw n = Ok (k, None) →
  k_l k = Z.max n 2 ∧ 0 ≤ k_p k < Z.max n 2 - 1.
Proof.
  intros Hn. unfold NewKensler. destruct (Z.ltb_spec (2 ^ 32 - 1) n) as [|_]; [done|].
  assert (max n 2 = Z.max n 2) as -> by (unfold max; destruct (Z.ltb_spec 2 n); lia).
  unfold rand_Int. destruct (Z.leb_spec (Z.max n 2 - 1) 0); [lia|].
  destruct (draw 0%nat) as [v|]; [|done]. intros [= <-]. cbn [k_l k_p].
  pose proof (Z.mod_pos_bound v (Z.max n 2 - 1)).
  rewrite !wrap_small by lia. lia.
Qed.

Lemma Permutes_le p n m : n ≤ m → (∀ i, 0 ≤ i < n → ∃ j, Shuffle p i = Some j ∧ 0 ≤ j < n) →
  Permutes p m → Permutes p n.
Proof. intros Hle Ht Hp. split; [done|]. intros i j r Hi Hj. apply shuffle_inj; lia. Qed.

(** A constructed kensler shuffler permutes the positions it was built for,
    for all sizes up to [2^31]. *)
Lemma NewKensler_permutes draw n k :
  n ≤ 2 ^ 31 → NewKensler draw n = Ok (k, None) → Permutes (kensler_permutations k) n.
Proof.
  intros Hn Hk. apply NewKensler_Some in Hk as [Hl Hp]; [|lia].
  destruct k as [l p]; cbn [k_l k_p] in *. subst l.
  destruct (decide (2 ≤ n)) as [H2|H2].
  - rewrite Z.max_l in * by lia. apply kensler_permutes.
    apply TCEq_eq, bool_decide_true. lia.
  - rewrite Z.max_r in * by lia. replace p with 0 by lia.
    apply (Permutes_le _ _ 2); [lia| |by apply kensler_permutes, TCEq_eq, bool_decide_true].
    intros i Hi. exists 0. replace i with 0 by lia. replace n with 1 by lia.
    split; [by vm_compute|lia].
Qed.

(** Above [2^31 + 1] positions the shuffler is not a permutation for every
    seed: the final [i + p] wraps around in 32 bits, and there are a seed and
    two positions that are sent to the same place. *)
Lemma kensler_collides_above_2_31 n :
  2 ^ 31 + 2 ≤ n ≤ 2 ^ 32 - 1 →
  ∃ draw k i j r, NewKensler draw n = Ok (k, None) ∧
    0 ≤ i < n ∧ 0 ≤ j < n ∧ i ≠ j ∧
    Shuffle (kensler_permutations k) i = Some r ∧
    Shuffle (kensler_permutations k) j = Some r.
Proof.
  intros Hn. set (p := 2 ^ 32 - n + 1).
  destruct (kensler_walk n p) as (walk & Hwalk & Hinj); [lia|].
  assert (∀ y, 0 ≤ y < n → ∃ x, 0 ≤ x < n ∧ walk x = y) as Hsurj.
  { intros y Hy. pose proof (injective_range_permutation n walk (λ x Hx, proj2 (Hwalk x Hx)) Hinj) as HP.
    assert (y ∈ walk <$> seqZ 0 n) as (x & -> & Hx)%list_elem_of_fmap.
    { rewrite HP. apply elem_of_seqZ. lia. }
    apply elem_of_seqZ in Hx. exists x. split; [lia|done]. }
  destruct (Hsurj (n - p)) as (i & Hi & Hwi); [lia|].
  destruct (Hsurj (n - 1)) as (j & Hj & Hwj); [lia|].
  exists (λ _, Some p), (Kensler n p), i, j, 0. split.
  { unfold NewKensler. destruct (Z.ltb_spec (2 ^ 32 - 1) n); [lia|].
    assert (max n 2 = n) as -> by (unfold max; destruct (Z.ltb_spec 2 n); lia).
    unfold rand_Int. destruct (Z.leb_spec (n - 1) 0); [lia|].
    rewrite Z.mod_small, !wrap_small by lia. done. }
  split; [done|]. split; [done|]. split; [intros ->; lia|].
  cbn [Shuffle kensler_permutations].
  destruct (Hwalk i Hi) as [Ei _], (Hwalk j Hj) as [Ej _].
  rewrite (kensler_Shuffle_eq _ _ _ _ Ei), (kensler_Shuffle_eq _ _ _ _ Ej), Hwi, Hwj.
  replace (n - p + p) with n by lia. replace (n - 1 + p) with (2 ^ 32) by lia.
  rewrite (wrap_small 32 n), Z.mod_same by lia. done.
Qed.

(** C24: For every size up to [2^31] and every random seed, the kensler shuffler
    that [NewKensler] returns yields a value for each of the positions
    [0 .. n-1] (its cycle walk ends), and those values are exactly the
    positions, each once.  Above [2^31 + 1] positions there are a seed and two
    positions that are sent to the same place: the final [i + p] wraps around in
    32 bits. *)
Theorem kensler_is_permutation n :
  (n ≤ 2 ^ 31 → ∀ draw k, NewKensler draw n = Ok (k, None) →
     ∃ js, mapM (Shuffle (kensler_permutations k)) (seqZ 0 n) = Some js ∧ js ≡ₚ seqZ 0 n) ∧
  (2 ^ 31 + 2 ≤ n ≤ 2 ^ 32 - 1 → ∃ draw k i j r, NewKensler draw n = Ok (k, None) ∧
     0 ≤ i < n ∧ 0 ≤ j < n ∧ i ≠ j ∧
     Shuffle (kensler_permutations k) i = Some r ∧ Shuffle (kensler_permutations k) j = Some r).
Proof.
  split; [|apply kensler_collides_above_2_31].
  intros Hn draw k Hk. apply permutes_list. by eapply NewKensler_permutes.
Qed.

Lemma kensler_is_permutation_witness :
  (∃ k js, NewKensler (λ _, Some 3) 10 = Ok (k, None) ∧
     mapM (Shuffle (kensler_permutations k)) (seqZ 0 10) = Some js ∧ js ≡ₚ seqZ 0 10) ∧
  ∃ draw k i j r, NewKensler draw 3000000000 = Ok (k, None) ∧
    0 ≤ i < 3000000000 ∧ 0 ≤ j < 3000000000 ∧ i ≠ j ∧
    Shuffle (kensler_permutations k) i = Some r ∧ Shuffle (kensler_permutations k) j = Some r.
Proof.
  split.
  - eexists. destruct (proj1 (kensler_is_permutation 10) ltac:(lia) (λ _, Some 3) (Kensler 10 3) eq_refl)
      as (js & Hjs & Hp).
    exists js. split; [reflexivity|]. split; [exact Hjs|exact Hp].
  - apply (proj2 (kensler_is_permutation 3000000000)). lia.
Defined.

(** Whenever [NewKensler] returns an error (more than [2^32 - 1] items, or
    no randomness), the shuffler returned with it never answers: no number of
    rounds leaves the loop of [Shuffle]. *)
Theorem kensler_error_value_diverges draw n k e :
  NewKensler draw n = Ok (k, Some e) →
  ∀ rounds i, ∃ i', loop_nat (kensler_body k) rounds i = inl i'.
Proof.
  intros Hk. assert (k = kensler_zero) as ->.
  { unfold NewKensler in Hk. destruct (2 ^ 32 - 1 <? n); [by simplify_eq|].
    destruct (rand_Int draw 0 (max n 2 - 1)); by simplify_eq. }
  destruct (kensler_round_bijective 0 32) as [Hr _]; [lia|].
  assert (∀ i, kensler_body kensler_zero i = inl (kensler_round 0 (Z.ones 32) i)) as Hbody.
  { intros i. unfold kensler_body, kensler_zero. cbn [k_l k_p].
    replace (kensler_mask 0) with (Z.ones 32) by (vm_compute; reflexivity).
    destruct (Z.ltb_spec (kensler_round 0 (Z.ones 32) i) 0); [|done].
    specialize (Hr i). lia. }
  induction rounds as [|r IH]; intros i; cbn [loop_nat]; [by exists i|].
  rewrite Hbody. apply IH.
Qed.

Lemma kensler_error_value_diverges_witness :
  ∃ k e, NewKensler (λ _, Some 0) (2 ^ 32) = Ok (k, Some e) ∧
    ∃ i', loop_nat (kensler_body k) 1000 7 = inl i'.
Proof.
  eexists _, _. split; [reflexivity|].
  apply (kensler_error_value_diverges (λ _, Some 0) (2 ^ 32) _
    (ErrMsg "value is larger than the maximal value allowable for kensler")).
  reflexivity.
Defined.

(** ** The naive shuffler *)
Lemma naive_swap_permutes draw n i p :
  2 ≤ n → (∃ v, draw i = Some v) → (Z.of_nat i < n) →
  p ≡ₚ seqZ 0 n → ∃ p', naive_swap draw n i p = Ok p' ∧ p' ≡ₚ seqZ 0 n.
Proof.
  intros Hn [v Hv] Hi Hp. unfold naive_swap, rand_Int. rewrite Hv.
  destruct (Z.leb_spec (n - 1) 0); [lia|]. cbn [res_bind].
  pose proof (Z.mod_pos_bound v (n - 1)). set (j := v mod (n - 1)) in *.
  assert (Z.of_nat (length p) = n) as Hlen.
  { apply Permutation_length in Hp. rewrite length_seqZ in Hp. lia. }
  destruct (Z.eqb_spec j (Z.of_nat i)) as [|Hne]; [by exists p|].
  destruct (index_total p (Z.of_nat i)) as [pi Epi]; [lia|].
  destruct (index_total p j) as [pj Epj]; [lia|].
  rewrite Epi, Epj. cbn [res_bind]. rewrite store_Ok by lia. cbn [res_bind].
  rewrite store_Ok by (rewrite length_insert; lia). eexists. split; [done|].
  apply index_Ok in Epi as [_ Epi], Epj as [_ Epj].
  rewrite <-Hp. by apply swap_Permutation.
Qed.

(** For two items or more, and with a working random source, [NewNaive]
    returns a table that lists each position exactly once, whatever is drawn. *)
Theorem naive_is_permutation draw n :
  2 ≤ n → (∀ i, ∃ v, draw i = Some v) →
  ∃ k js, NewNaive draw n = Ok k ∧
    mapM (Shuffle (naive_permutations k)) (seqZ 0 n) = Some js ∧ js ≡ₚ seqZ 0 n.
Proof.
  intros Hn Hd. unfold NewNaive. destruct (Z.ltb_spec n 0); [lia|].
  destruct (for_res_invariant (λ _ p, p ≡ₚ seqZ 0 n) (naive_swap draw n) 0 (Z.to_nat n) (seqZ 0 n))
    as (p & -> & Hp); [done| |].
  { intros i p Hi Hp. apply naive_swap_permutes; [lia|apply Hd|lia|done]. }
  exists (Naive p), p. split; [done|]. split; [|done].
  assert (Z.of_nat (length p) = n) as Hlen.
  { apply Permutation_length in Hp. rewrite length_seqZ in Hp. lia. }
  apply mapM_Some_2, Forall2_same_length_lookup_2; [rewrite length_seqZ; lia|].
  intros i x y Hx Hy. apply lookup_seqZ in Hx as [-> Hi].
  cbn [Shuffle naive_permutations]. unfold naive_Shuffle. cbn [n_p].
  assert (index p (0 + Z.of_nat i) = Ok y) as ->; [|done].
  apply index_Ok. split; [lia|]. by rewrite Z.add_0_l, Nat2Z.id.
Qed.

Lemma naive_is_permutation_witness :
  ∃ k js, NewNaive (λ i, Some (Z.of_nat (7 * i + 3))) 5 = Ok k ∧
    mapM (Shuffle (naive_permutations k)) (seqZ 0 5) = Some js ∧ js ≡ₚ seqZ 0 5.
Proof.
  apply (naive_is_permutation (λ i, Some (Z.of_nat (7 * i + 3))) 5); [lia|].
  intros i. by eexists.
Defined.

(** One item: the table cannot be built. *)
Lemma naive_one_panics draw :
  NewNaive draw 1 = Panic "crypto/rand: argument to Int is <= 0".
Proof. reflexivity. Qed.
