(* ===== verification/Bits.v ===== *)
(** * [internal/util]: bits.go, bits_generic.go, bits_amd64.go

    In-place bit operations on byte slices, in the portable build
    ([Module Generic]) and in the amd64 build ([Module Amd64]), the goroutine
    wrappers [ConcurrentBitOp] and [ConcurrentDoubleBitOp], and the bit and
    padding helpers.  A call [f(dst, a)] that writes [dst] in place is a
    function that returns the new contents of [dst]. *)
From S2P Require Import Prelude Words.

Definition ErrByteLengthMissMatch_panic : string :=
  "provided bytes do not have the same length for bit operations".

(** The loop over the 64-bit words of [dst]: [g i] updates word [i]. *)
Definition word_loop (g : nat → Z → Z) (dst : list Z) : list Z :=
  for_loop (λ i d, put_at d (i * 8) (le_put 8 (g i (le_get (slice d (i * 8) ((i + 1) * 8))))))
    0 (length dst / 8) dst.

(** The loop over the excess bytes: [dst[len(dst)-j-1]] for [j < len(dst)%8]. *)
Definition tail_loop (h : nat → Z → Z) (dst : list Z) : list Z :=
  for_loop (λ j d, let k := (length d - j - 1)%nat in <[k := h k (d !!! k)]> d)
    0 (length dst mod 8) dst.

(** ** bits_generic.go *)
Module Generic.

(** [binary.LittleEndian.Uint64(a[i*8 : (i+1)*8])]. *)
Definition word (a : list Z) (i : nat) : Z := le_get (slice a (i * 8) ((i + 1) * 8)).

Definition Xor (dst a : list Z) : res (list Z) :=
  if decide (length dst = length a) then
    let dst := word_loop (λ i uDst, Z.lxor uDst (word a i)) dst in
    Ok (tail_loop (λ k x, Z.lxor x (a !!! k)) dst)
  else Panic ErrByteLengthMissMatch_panic.

Definition And (dst a : list Z) : res (list Z) :=
  if decide (length dst = length a) then
    let dst := word_loop (λ i uDst, Z.land uDst (word a i)) dst in
    Ok (tail_loop (λ k x, Z.land x (a !!! k)) dst)
  else Panic ErrByteLengthMissMatch_panic.

Definition DoubleXor (dst a b : list Z) : res (list Z) :=
  if decide (length dst = length a ∧ length dst = length b) then
    let dst := word_loop (λ i uDst, Z.lxor (Z.lxor uDst (word a i)) (word b i)) dst in
    Ok (tail_loop (λ k x, Z.lxor (Z.lxor x (a !!! k)) (b !!! k)) dst)
  else Panic ErrByteLengthMissMatch_panic.

Definition AndXor (dst a b : list Z) : res (list Z) :=
  if decide (length dst = length a ∧ length dst = length b) then
    let dst := word_loop (λ i uDst, Z.lxor (Z.land uDst (word a i)) (word b i)) dst in
    Ok (tail_loop (λ k x, Z.lxor (Z.land x (a !!! k)) (b !!! k)) dst)
  else Panic ErrByteLengthMissMatch_panic.

End Generic.

(** ** bits_amd64.go

    The casts of [github.com/alecthomas/unsafeslice] are not in the repository:
    [u64_view] is [Uint64SliceFromByteSlice] and [byte_view] is
    [ByteSliceFromUint64Slice].  A cast slice shares the memory of the slice it
    was made from, so what is written to the words is read back as bytes. *)
Class UnsafeSlice := {
  u64_view : list Z → list Z;
  byte_view : list Z → list Z
}.

(** The documented behaviour of the casts on a little-endian machine. *)
Class UnsafeSliceLaws `{UnsafeSlice} : Prop := {
  length_u64_view bs : length (u64_view bs) = (length bs / 8)%nat;
  lookup_u64_view bs i :
    (i < length bs / 8)%nat →
    u64_view bs !! i = Some (le_get (slice bs (i * 8) ((i + 1) * 8)));
  length_byte_view ws : length (byte_view ws) = (8 * length ws)%nat;
  slice_byte_view ws i w :
    ws !! i = Some w → slice (byte_view ws) (i * 8) ((i + 1) * 8) = le_put 8 w
}.

Module Amd64.
Section Amd64.
Context `{UnsafeSlice}.

(** [for i := range castDst { castDst[i] = g(i, castDst[i]) }], seen through the
    bytes of [dst]: the words first, then the bytes no word covers. *)
Definition cast_loop (g : nat → Z → Z) (dst : list Z) : list Z :=
  let castDst := u64_view dst in
  let castDst := for_loop (λ i ws, <[i := g i (ws !!! i)]> ws) 0 (length castDst) castDst in
  byte_view castDst ++ drop (8 * length castDst) dst.

Definition Xor (dst a : list Z) : res (list Z) :=
  if decide (length dst = length a) then
    let castA := u64_view a in
    let dst := cast_loop (λ i x, Z.lxor x (castA !!! i)) dst in
    Ok (tail_loop (λ k x, Z.lxor x (a !!! k)) dst)
  else Panic ErrByteLengthMissMatch_panic.

Definition And (dst a : list Z) : res (list Z) :=
  if decide (length dst = length a) then
    let castA := u64_view a in
    let dst := cast_loop (λ i x, Z.land x (castA !!! i)) dst in
    Ok (tail_loop (λ k x, Z.land x (a !!! k)) dst)
  else Panic ErrByteLengthMissMatch_panic.

Definition DoubleXor (dst a b : list Z) : res (list Z) :=
  if decide (length dst = length a ∧ length dst = length b) then
    let castA := u64_view a in
    let castB := u64_view b in
    let dst := cast_loop (λ i x, Z.lxor (Z.lxor x (castA !!! i)) (castB !!! i)) dst in
    Ok (tail_loop (λ k x, Z.lxor (Z.lxor x (a !!! k)) (b !!! k)) dst)
  else Panic ErrByteLengthMissMatch_panic.

Definition AndXor (dst a b : list Z) : res (list Z) :=
  if decide (length dst = length a ∧ length dst = length b) then
    let castA := u64_view a in
    let castB := u64_view b in
    let dst := cast_loop (λ i x, Z.lxor (Z.land x (castA !!! i)) (castB !!! i)) dst in
    Ok (tail_loop (λ k x, Z.lxor (Z.land x (a !!! k)) (b !!! k)) dst)
  else Panic ErrByteLengthMissMatch_panic.

End Amd64.
End Amd64.

(** ** bits.go *)

(** The part of a slice of length [len] that worker [w] of [nworkers] handles. *)
Definition worker_range (nworkers len w : nat) : nat * nat :=
  let blockSize := (len / nworkers)%nat in
  let step := (blockSize * w)%nat in
  if decide (w = nworkers - 1)%nat then (step, len) else (step, step + blockSize)%nat.

(** The body of the goroutine of worker [w]. *)
Definition bitop_worker (f : list Z → list Z → res (list Z)) (nworkers : nat) (a : list Z)
    (w : nat) (dst : list Z) : res (list Z) :=
  let '(lo, hi) := worker_range nworkers (length dst) w in
  let! d := go_slice dst lo hi in
  let! a' := go_slice a lo (if decide (w = nworkers - 1)%nat then length a else hi) in
  let! d' := f d a' in
  Ok (put_at dst lo d').

Fixpoint run_workers (body : nat → list Z → res (list Z)) (ws : list nat) (dst : list Z)
    : res (list Z) :=
  match ws with
  | [] => Ok dst
  | w :: ws => let! dst := body w dst in run_workers body ws dst
  end.

(** [nworkers] is [runtime.GOMAXPROCS(0)]; [order] is the order in which the
    goroutines' writes take effect, any ordering of the workers. *)
Definition ConcurrentBitOp (f : list Z → list Z → res (list Z))
    (nworkers : nat) (order : list nat) (dst a : list Z) : res (list Z) :=
  if Z.of_nat (length dst) <? Z.of_nat nworkers * 16384 then f dst a
  else run_workers (bitop_worker f nworkers a) order dst.

Definition double_bitop_worker (f : list Z → list Z → list Z → res (list Z)) (nworkers : nat)
    (a b : list Z) (w : nat) (dst : list Z) : res (list Z) :=
  let '(lo, hi) := worker_range nworkers (length dst) w in
  let! d := go_slice dst lo hi in
  let! a' := go_slice a lo (if decide (w = nworkers - 1)%nat then length a else hi) in
  let! b' := go_slice b lo (if decide (w = nworkers - 1)%nat then length b else hi) in
  let! d' := f d a' b' in
  Ok (put_at dst lo d').

Definition ConcurrentDoubleBitOp (f : list Z → list Z → list Z → res (list Z))
    (nworkers : nat) (order : list nat) (dst a b : list Z) : res (list Z) :=
  if Z.of_nat (length dst) <? Z.of_nat nworkers * 16384 then f dst a b
  else run_workers (double_bitop_worker f nworkers a b) order dst.

(** [b[i/8]&(1<<(i%8)) > 0]; Go's [/] and [%] truncate towards zero. *)
Definition IsBitSet (b : list Z) (i : Z) : res bool :=
  let! x := index b (Z.quot i 8) in
  if Z.rem i 8 <? 0 then Panic "negative shift amount"
  else Ok (0 <? Z.land x (Z.shiftl 1 (Z.rem i 8))).

Definition BitExtract (b : list Z) (i : Z) : res Z :=
  let! s := IsBitSet b i in
  if s then Ok 1 else Ok 0.

Definition Pad (n multiple : Z) : res Z :=
  if multiple =? 0 then Panic "integer divide by zero"
  else
    let p := Z.rem n multiple in
    if p =? 0 then Ok n else Ok (wrap_int (n + wrap_int (multiple - p))).

Definition PadBitMap (n multiple : Z) : res Z :=
  let! p := Pad n multiple in Ok (Z.quot p 8).

Definition bitVectWidth : Z := 512.

(** [rand.Read(buf)] of [crypto/rand]: the [k]-th call fills the slice. *)
Definition rand_Read (draw : nat → option (nat → Z)) (k len : nat) : res (list Z) :=
  match draw k with
  | Some f => Ok ((λ i, f i mod 256) <$> seq 0 len)
  | None => Err (ErrMsg "rand")
  end.

Definition SampleRandomBitMatrix (draw : nat → option (nat → Z)) (row col : Z)
    : res (list (list Z)) :=
  if row <? 0 then Panic "makeslice: len out of range"
  else
    let! p := Pad col bitVectWidth in
    let width := Z.quot (wrap_int (col + p)) 8 in
    if (0 <? row) && (width <? 0) then Panic "makeslice: len out of range"
    else
      for_res (λ r matrix,
        let! bytes := rand_Read draw r (Z.to_nat width) in
        Ok (matrix ++ [bytes])) 0 (Z.to_nat row) [].

(** * Lemmas *)

(** ** The byte loops compute a byte-wise function

    [mix dst F n] is [dst] after its first [n] bytes have become those of [F]. *)
Section ByteLoops.
Context (dst F : list Z).
Hypothesis F_length : length F = length dst.

Definition mix (n : nat) : list Z := take n F ++ drop n dst.

Lemma length_mix n : length (mix n) = length dst.
Proof. unfold mix. rewrite length_app, length_take, length_drop. lia. Qed.

Lemma lookup_mix n i : mix n !! i = if decide (i < n)%nat then F !! i else dst !! i.
Proof.
  unfold mix. destruct (decide (i < length F ∧ i < n)%nat).
  - rewrite lookup_app_l by (rewrite length_take; lia).
    rewrite lookup_take_lt by lia. by rewrite decide_True by lia.
  - destruct (decide (length F ≤ i)%nat).
    + rewrite (lookup_ge_None_2 _ i) by (rewrite length_app, length_take, length_drop; lia).
      case_decide; symmetry; apply lookup_ge_None_2; lia.
    + rewrite lookup_app_r by (rewrite length_take; lia).
      rewrite lookup_drop, length_take, decide_False by lia. f_equal. lia.
Qed.

Lemma mix_eq n l :
  length l = length dst →
  (∀ i, (i < length dst)%nat → l !! i = if decide (i < n)%nat then F !! i else dst !! i) →
  l = mix n.
Proof.
  intros Hlen Hl. apply list_eq. intros i. rewrite lookup_mix.
  destruct (decide (i < length dst)%nat) as [|Hge]; [auto|].
  rewrite (lookup_ge_None_2 l i) by lia.
  case_decide; symmetry; apply lookup_ge_None_2; lia.
Qed.

Context (g : nat → Z → Z).
Hypothesis g_word : ∀ i, (i < length dst / 8)%nat →
  le_put 8 (g i (le_get (slice dst (i * 8) ((i + 1) * 8)))) = slice F (i * 8) ((i + 1) * 8).

Lemma word_loop_mix : word_loop g dst = mix (8 * (length dst / 8)).
Proof.
  unfold word_loop. pose proof (Nat.div_mod_eq (length dst) 8) as Hdiv.
  apply (for_loop_invariant (λ i d, d = mix (8 * i)%nat) _ 0 (length dst / 8)).
  { unfold mix. by rewrite take_0, drop_0. }
  intros i d Hi ->. rewrite Nat.add_0_l in Hi.
  assert (slice (mix (8 * i)) (i * 8) ((i + 1) * 8) = slice dst (i * 8) ((i + 1) * 8)) as ->.
  { apply list_eq. intros k. destruct (decide (k < 8)%nat).
    - rewrite !lookup_slice, lookup_mix, decide_False by lia. done.
    - rewrite !lookup_ge_None_2; [done| |]; rewrite length_slice; rewrite ?length_mix; lia. }
  rewrite g_word by lia.
  assert (length (slice F (i * 8) ((i + 1) * 8)) = 8%nat) as Hs by (rewrite length_slice; lia).
  apply mix_eq; [rewrite length_put_at, length_mix; rewrite ?length_mix; lia|].
  intros k Hk. rewrite lookup_put_at, Hs by (rewrite length_mix; lia).
  rewrite lookup_mix. destruct (decide (i * 8 ≤ k < i * 8 + 8)%nat).
  - rewrite lookup_slice, decide_True by lia. f_equal. lia.
  - repeat case_decide; try done; lia.
Qed.

Lemma cast_loop_mix `{UnsafeSliceLaws} :
  Amd64.cast_loop g dst = mix (8 * (length dst / 8)).
Proof.
  unfold Amd64.cast_loop.
  pose proof (Nat.div_mod_eq (length dst) 8) as Hdiv.
  set (q := (length dst / 8)%nat) in *.
  set (ws0 := u64_view dst). assert (length ws0 = q) as Hw0 by apply length_u64_view.
  set (ws := for_loop _ _ _ _).
  assert (length ws = q ∧ ∀ k, (k < q)%nat →
    ws !! k = Some (g k (le_get (slice dst (k * 8) ((k + 1) * 8))))) as [Hlen Hws].
  { pose proof (for_loop_invariant (λ i l, length l = q ∧ ∀ k, (k < q)%nat →
      l !! k = if decide (k < i)%nat then Some (g k (le_get (slice dst (k * 8) ((k + 1) * 8))))
               else ws0 !! k) (λ i ws, <[i := g i (ws !!! i)]> ws) 0 (length ws0) ws0) as [Hl Hk].
    - split; [done|]. intros k Hk. by rewrite decide_False by lia.
    - intros j l Hj [Hl Hk]. rewrite length_insert. split; [done|]. intros k Hkq.
      destruct (decide (k = j)) as [->|Hne].
      + rewrite list_lookup_insert_eq, decide_True by lia. do 2 f_equal.
        apply list_lookup_total_correct. rewrite Hk, decide_False by lia.
        by apply lookup_u64_view.
      + rewrite list_lookup_insert_ne, Hk by done. repeat case_decide; try done; lia.
    - split; [done|]. intros k Hkq. unfold ws. rewrite Hk, decide_True by lia. done. }
  assert (length (byte_view ws) = 8 * q)%nat as Hbv by (rewrite length_byte_view; lia).
  rewrite Hlen.
  apply mix_eq; [rewrite length_app, length_drop; lia|]. intros k Hk. case_decide.
  - rewrite lookup_app_l by lia. set (i := (k / 8)%nat).
    pose proof (Nat.div_mod_eq k 8). pose proof (Nat.mod_upper_bound k 8).
    assert (i < q)%nat as Hi by (apply Nat.Div0.div_lt_upper_bound; lia).
    pose proof (slice_byte_view ws i _ (Hws i Hi)) as Hs. rewrite g_word in Hs by done.
    apply (f_equal (λ l, l !! (k mod 8)%nat)) in Hs. rewrite !lookup_slice in Hs by lia.
    by replace (i * 8 + k mod 8)%nat with k in Hs by lia.
  - rewrite lookup_app_r, lookup_drop by lia. f_equal. lia.
Qed.

Context (h : nat → Z → Z).
Hypothesis h_byte : ∀ k, (k < length dst)%nat → Some (h k (dst !!! k)) = F !! k.

Lemma tail_loop_mix : tail_loop h (mix (8 * (length dst / 8))) = F.
Proof.
  unfold tail_loop. rewrite length_mix.
  pose proof (Nat.div_mod_eq (length dst) 8) as Hdiv.
  pose proof (Nat.mod_upper_bound (length dst) 8).
  set (q := (length dst / 8)%nat) in *. set (r := (length dst mod 8)%nat) in *.
  match goal with |- for_loop ?f _ _ _ = _ => set (step := f) end.
  destruct (for_loop_invariant (λ j d, length d = length dst ∧ ∀ k, (k < length dst)%nat →
    d !! k = if decide (k < 8 * q ∨ length dst - j ≤ k)%nat then F !! k else dst !! k)
    step 0 r (mix (8 * q)%nat)) as [Hl Hk].
  - split; [apply length_mix|]. intros k Hk. rewrite lookup_mix.
    repeat case_decide; try done; lia.
  - intros j d Hj [Hl Hk]. unfold step. rewrite length_insert. split; [done|]. intros k Hkl.
    rewrite Hl. set (m := (length dst - j - 1)%nat). destruct (decide (k = m)) as [->|Hne].
    + rewrite list_lookup_insert_eq by lia. rewrite decide_True by lia.
      rewrite <-h_byte by lia. do 2 f_equal. rewrite !list_lookup_total_alt.
      by rewrite Hk, decide_False by lia.
    + rewrite list_lookup_insert_ne by done. rewrite Hk by done.
      repeat case_decide; try done; lia.
  - apply list_eq. intros k. destruct (decide (k < length dst)%nat).
    + rewrite Hk by done. rewrite decide_True by lia. done.
    + rewrite (lookup_ge_None_2 F) by lia. apply lookup_ge_None_2. rewrite Hl. lia.
Qed.
End ByteLoops.

(** ** Words against bytes *)
Lemma word_op2 (op : Z → Z → Z) `{!BitOp op} (s t : list Z) :
  length s = 8%nat → length t = 8%nat → bytes_ok s → bytes_ok t →
  le_put 8 (op (le_get s) (le_get t)) = zip_with op s t.
Proof.
  intros Hs Ht Bs Bt. rewrite le_get_bit_op by (done || congruence).
  rewrite <-(le_put_get (zip_with op s t)) at 2 by by apply zip_with_bytes_ok.
  by rewrite length_zip_with, Hs, Ht.
Qed.

Lemma word_op3 (o1 o2 : Z → Z → Z) `{!BitOp o1, !BitOp o2} (s t u : list Z) :
  length s = 8%nat → length t = 8%nat → length u = 8%nat →
  bytes_ok s → bytes_ok t → bytes_ok u →
  le_put 8 (o2 (o1 (le_get s) (le_get t)) (le_get u)) = zip_with o2 (zip_with o1 s t) u.
Proof.
  intros Hs Ht Hu Bs Bt Bu. rewrite (le_get_bit_op o1) by (done || congruence).
  apply word_op2; [done|by rewrite length_zip_with, Hs, Ht|done| |done].
  by apply zip_with_bytes_ok.
Qed.

Lemma lookup_zip_total (f : Z → Z → Z) (k l : list Z) i :
  (i < length k)%nat → length k = length l →
  Some (f (k !!! i) (l !!! i)) = zip_with f k l !! i.
Proof.
  intros Hi Hlen. rewrite lookup_zip_with.
  destruct (lookup_lt_is_Some_2 k i) as [x Hx]; [done|].
  destruct (lookup_lt_is_Some_2 l i) as [y Hy]; [lia|].
  by rewrite !list_lookup_total_alt, Hx, Hy.
Qed.

Lemma length_zip_same {A B C} (f : A → B → C) (k : list A) (l : list B) :
  length k = length l → length (zip_with f k l) = length k.
Proof. intros. rewrite length_zip_with. lia. Qed.

(** The slice of word [i], for [i] below the number of whole words. *)
Lemma length_word_slice (l : list Z) n i :
  n = length l → (i < n / 8)%nat → length (slice l (i * 8) ((i + 1) * 8)) = 8%nat.
Proof. intros -> Hi. pose proof (Nat.div_mod_eq (length l) 8). rewrite length_slice; lia. Qed.

Create HintDb bits.
#[export] Hint Resolve slice_bytes_ok length_word_slice length_zip_same zip_with_bytes_ok : bits.

(** ** The interface of the bit operations

    What [internal/crypto], [internal/hash] and [internal/oprf] use of the
    build-dependent functions, and the contract both builds satisfy. *)
Class ByteOps := {
  Xor : list Z → list Z → res (list Z);
  And : list Z → list Z → res (list Z);
  DoubleXor : list Z → list Z → list Z → res (list Z);
  AndXor : list Z → list Z → list Z → res (list Z)
}.

Class ByteOpsLaws `{ByteOps} : Prop := {
  Xor_Ok dst a : bytes_ok dst → bytes_ok a → length dst = length a →
    Xor dst a = Ok (zip_with Z.lxor dst a);
  And_Ok dst a : bytes_ok dst → bytes_ok a → length dst = length a →
    And dst a = Ok (zip_with Z.land dst a);
  DoubleXor_Ok dst a b : bytes_ok dst → bytes_ok a → bytes_ok b →
    length dst = length a → length dst = length b →
    DoubleXor dst a b = Ok (zip_with Z.lxor (zip_with Z.lxor dst a) b);
  AndXor_Ok dst a b : bytes_ok dst → bytes_ok a → bytes_ok b →
    length dst = length a → length dst = length b →
    AndXor dst a b = Ok (zip_with Z.lxor (zip_with Z.land dst a) b);
  Xor_mismatch dst a : length dst ≠ length a → Xor dst a = Panic ErrByteLengthMissMatch_panic;
  And_mismatch dst a : length dst ≠ length a → And dst a = Panic ErrByteLengthMissMatch_panic;
  DoubleXor_mismatch dst a b : ¬ (length dst = length a ∧ length dst = length b) →
    DoubleXor dst a b = Panic ErrByteLengthMissMatch_panic;
  AndXor_mismatch dst a b : ¬ (length dst = length a ∧ length dst = length b) →
    AndXor dst a b = Panic ErrByteLengthMissMatch_panic
}.

Definition generic_ops : ByteOps :=
  {| Xor := Generic.Xor; And := Generic.And;
     DoubleXor := Generic.DoubleXor; AndXor := Generic.AndXor |}.
Definition amd64_ops `{UnsafeSlice} : ByteOps :=
  {| Xor := Amd64.Xor; And := Amd64.And;
     DoubleXor := Amd64.DoubleXor; AndXor := Amd64.AndXor |}.

(** One binary operation of the portable build. *)
Lemma generic_op2 (op : Z → Z → Z) `{!BitOp op} dst a :
  bytes_ok dst → bytes_ok a → length dst = length a →
  tail_loop (λ k x, op x (a !!! k)) (word_loop (λ i u, op u (Generic.word a i)) dst) =
  zip_with op dst a.
Proof.
  intros Bd Ba Hlen. rewrite (word_loop_mix dst (zip_with op dst a)).
  - apply tail_loop_mix; [auto with bits|]. intros k Hk. by apply lookup_zip_total.
  - auto with bits.
  - intros i Hi. rewrite slice_zip_with. apply word_op2; eauto with bits.
Qed.

Lemma generic_op3 (o1 o2 : Z → Z → Z) `{!BitOp o1, !BitOp o2} dst a b :
  bytes_ok dst → bytes_ok a → bytes_ok b → length dst = length a → length dst = length b →
  tail_loop (λ k x, o2 (o1 x (a !!! k)) (b !!! k))
    (word_loop (λ i u, o2 (o1 u (Generic.word a i)) (Generic.word b i)) dst) =
  zip_with o2 (zip_with o1 dst a) b.
Proof.
  intros Bd Ba Bb Ha Hb.
  assert (length (zip_with o2 (zip_with o1 dst a) b) = length dst) as Hl.
  { rewrite !length_zip_with. lia. }
  rewrite (word_loop_mix dst (zip_with o2 (zip_with o1 dst a) b)); [|done|].
  - apply tail_loop_mix; [done|]. intros k Hk.
    rewrite <-lookup_zip_total by (rewrite length_zip_with; lia). do 2 f_equal.
    symmetry. apply list_lookup_total_correct. by rewrite <-lookup_zip_total by lia.
  - intros i Hi. rewrite !slice_zip_with. apply word_op3; eauto with bits.
Qed.

Section Amd64Lemmas.
Context `{UnsafeSliceLaws}.

Lemma u64_view_total a n i :
  n = length a → (i < n / 8)%nat → u64_view a !!! i = Generic.word a i.
Proof.
  intros -> Hi. apply list_lookup_total_correct. by apply lookup_u64_view.
Qed.

(** A cast loop does what the portable word loop does. *)
Lemma cast_loop_word_loop g g' dst F :
  length F = length dst →
  (∀ i, (i < length dst / 8)%nat →
    le_put 8 (g' i (le_get (slice dst (i * 8) ((i + 1) * 8)))) = slice F (i * 8) ((i + 1) * 8)) →
  (∀ i u, (i < length dst / 8)%nat → g i u = g' i u) →
  Amd64.cast_loop g dst = word_loop g' dst.
Proof.
  intros HF Hg' Heq. rewrite (word_loop_mix dst F) by done.
  refine (cast_loop_mix dst F HF g _). intros i Hi. by rewrite Heq, Hg'.
Qed.

Lemma amd64_op2 (op : Z → Z → Z) `{!BitOp op} dst a :
  bytes_ok dst → bytes_ok a → length dst = length a →
  Amd64.cast_loop (λ i x, op x (u64_view a !!! i)) dst =
  word_loop (λ i u, op u (Generic.word a i)) dst.
Proof.
  intros Bd Ba Hlen. apply cast_loop_word_loop with (F := zip_with op dst a).
  - auto with bits.
  - intros i Hi. rewrite slice_zip_with. apply word_op2; eauto with bits.
  - intros i u Hi. by rewrite (u64_view_total a (length dst)).
Qed.

Lemma amd64_op3 (o1 o2 : Z → Z → Z) `{!BitOp o1, !BitOp o2} dst a b :
  bytes_ok dst → bytes_ok a → bytes_ok b → length dst = length a → length dst = length b →
  Amd64.cast_loop (λ i x, o2 (o1 x (u64_view a !!! i)) (u64_view b !!! i)) dst =
  word_loop (λ i u, o2 (o1 u (Generic.word a i)) (Generic.word b i)) dst.
Proof.
  intros Bd Ba Bb Ha Hb.
  apply cast_loop_word_loop with (F := zip_with o2 (zip_with o1 dst a) b).
  - rewrite !length_zip_with. lia.
  - intros i Hi. rewrite !slice_zip_with. apply word_op3; eauto with bits.
  - intros i u Hi. by rewrite (u64_view_total a (length dst)), (u64_view_total b (length dst)).
Qed.
End Amd64Lemmas.

#[export] Instance generic_ops_laws : @ByteOpsLaws generic_ops.
Proof.
  split; cbn [Xor And DoubleXor AndXor generic_ops];
    unfold Generic.Xor, Generic.And, Generic.DoubleXor, Generic.AndXor; intros;
    first [rewrite decide_True by auto | rewrite decide_False by auto; done];
    f_equal; solve [apply (generic_op2 _); done | apply (generic_op3 _ _); done].
Qed.

#[export] Instance amd64_ops_laws `{UnsafeSliceLaws} : @ByteOpsLaws amd64_ops.
Proof.
  split; cbn [Xor And DoubleXor AndXor amd64_ops];
    unfold Amd64.Xor, Amd64.And, Amd64.DoubleXor, Amd64.AndXor; intros;
    first [rewrite decide_True by auto | rewrite decide_False by auto; done]; f_equal.
  - rewrite (amd64_op2 Z.lxor) by done. by apply (generic_op2 Z.lxor).
  - rewrite (amd64_op2 Z.land) by done. by apply (generic_op2 Z.land).
  - rewrite (amd64_op3 Z.lxor Z.lxor) by done. by apply (generic_op3 Z.lxor Z.lxor).
  - rewrite (amd64_op3 Z.land Z.lxor) by done. by apply (generic_op3 Z.land Z.lxor).
Qed.

(** ** The goroutine wrappers *)
Lemma worker_range_cover n len k :
  (1 ≤ n)%nat → (k < len)%nat →
  ∃ w, (w < n)%nat ∧ let '(lo, hi) := worker_range n len w in (lo ≤ k < hi)%nat.
Proof.
  intros Hn Hk. unfold worker_range. set (bs := (len / n)%nat).
  destruct (decide (bs = 0)%nat) as [E|E].
  - exists (n - 1)%nat. split; [lia|]. rewrite decide_True by done. rewrite E. lia.
  - pose proof (Nat.div_mod_eq k bs). pose proof (Nat.mod_upper_bound k bs).
    destruct (decide (k / bs < n - 1)%nat).
    + exists (k / bs)%nat. split; [lia|]. rewrite decide_False by lia. lia.
    + exists (n - 1)%nat. split; [lia|]. rewrite decide_True by done. nia.
Qed.

Lemma worker_range_disjoint n len k w w' :
  (w < n)%nat → (w' < n)%nat →
  (let '(lo, hi) := worker_range n len w in lo ≤ k < hi)%nat →
  (let '(lo, hi) := worker_range n len w' in lo ≤ k < hi)%nat → w = w'.
Proof. intros Hw Hw'. unfold worker_range. repeat case_decide; nia. Qed.

Lemma worker_range_bounds n len w :
  (w < n)%nat → let '(lo, hi) := worker_range n len w in (lo ≤ hi ≤ len)%nat.
Proof.
  intros Hw. unfold worker_range. pose proof (Nat.div_mod_eq len n).
  case_decide; nia.
Qed.

Section Workers.
Context (n : nat) (dst F : list Z) (body : nat → list Z → res (list Z)).
Hypothesis n_pos : (1 ≤ n)%nat.
Hypothesis F_len : length F = length dst.
Hypothesis body_spec : ∀ w d lo hi, (w < n)%nat → length d = length dst →
  worker_range n (length dst) w = (lo, hi) → slice d lo hi = slice dst lo hi →
  body w d = Ok (put_at d lo (slice F lo hi)).

(** Whatever the order of the workers, the blocks they own cover the slice
    without overlap. *)
Lemma run_workers_spec order :
  order ≡ₚ seq 0 n → run_workers body order dst = Ok F.
Proof.
  intros Horder.
  enough (∀ todo done d, done ++ todo ≡ₚ seq 0 n → length d = length dst →
    (∀ w lo hi k, worker_range n (length dst) w = (lo, hi) → (w < n)%nat → (lo ≤ k < hi)%nat →
      d !! k = if decide (w ∈ done) then F !! k else dst !! k) →
    run_workers body todo d = Ok F) as Hrun.
  { apply (Hrun order [] dst Horder); [done|]. intros. by rewrite decide_False by set_solver. }
  induction todo as [|w todo IH]; intros dn d Hperm Hlen Hinv; cbn [run_workers].
  - f_equal. apply list_eq. intros k. destruct (decide (k < length dst)%nat) as [Hk|Hk].
    + destruct (worker_range_cover n (length dst) k n_pos Hk) as (w & Hw & Hr).
      destruct (worker_range n (length dst) w) as [lo hi] eqn:E.
      rewrite (Hinv w lo hi k E Hw Hr), decide_True; [done|].
      rewrite app_nil_r in Hperm. rewrite Hperm. apply elem_of_seq. lia.
    + rewrite !lookup_ge_None_2; [done|lia|lia].
  - assert (w ∈ seq 0 n) as Hw by (rewrite <-Hperm; set_solver). apply elem_of_seq in Hw.
    assert (NoDup (dn ++ w :: todo)) as Hnd by (rewrite Hperm; apply NoDup_seq).
    assert (w ∉ dn) as Hnew by (apply NoDup_app in Hnd as (_ & Hd & _); set_solver).
    pose proof (worker_range_bounds n (length dst) w ltac:(lia)) as Hb.
    destruct (worker_range n (length dst) w) as [lo hi] eqn:E.
    assert (length (slice F lo hi) = hi - lo)%nat as Hs by (rewrite length_slice; lia).
    rewrite (body_spec w d lo hi); [|lia|done|done|].
    2:{ apply list_eq. intros k. destruct (decide (k < hi - lo)%nat).
        - rewrite !lookup_slice by done.
          rewrite (Hinv w lo hi (lo + k)%nat E) by lia. by rewrite decide_False by done.
        - rewrite !lookup_ge_None_2; [done| |]; rewrite length_slice; lia. }
    cbn [res_bind]. apply (IH (dn ++ [w])).
    + by rewrite <-app_assoc.
    + rewrite length_put_at; lia.
    + intros w' lo' hi' k E' Hw' Hk. rewrite lookup_put_at by lia. rewrite Hs.
      destruct (decide (w' = w)) as [->|Hne].
      * rewrite E in E'. simplify_eq. rewrite decide_True by lia.
        rewrite decide_True by set_solver. rewrite lookup_slice by lia. f_equal. lia.
      * rewrite decide_False.
        -- rewrite (Hinv w' lo' hi' k) by done.
           repeat case_decide; try done; set_solver.
        -- intros Hk'. apply Hne. apply (worker_range_disjoint n (length dst) k); [done|lia| |].
           ++ by rewrite E'.
           ++ rewrite E. lia.
Qed.
End Workers.

Lemma go_slice_Ok {A} (l : list A) lo hi :
  (lo ≤ hi ≤ length l)%nat → go_slice l lo hi = Ok (slice l lo hi).
Proof. intros. unfold go_slice. by rewrite bool_decide_true by lia. Qed.

Lemma worker_hi_last n len w lo hi :
  worker_range n len w = (lo, hi) → (if decide (w = n - 1)%nat then len else hi) = hi.
Proof. unfold worker_range. case_decide; naive_solver. Qed.

(** Splitting the slices among workers does not change the result. *)
Lemma ConcurrentBitOp_spec (op : Z → Z → Z) f nworkers order dst a :
  (∀ d x, bytes_ok d → bytes_ok x → length d = length x → f d x = Ok (zip_with op d x)) →
  (1 ≤ nworkers)%nat → order ≡ₚ seq 0 nworkers →
  bytes_ok dst → bytes_ok a → length dst = length a →
  ConcurrentBitOp f nworkers order dst a = Ok (zip_with op dst a).
Proof.
  intros Hf Hn Ho Bd Ba Hlen. unfold ConcurrentBitOp.
  destruct (Z.of_nat (length dst) <? Z.of_nat nworkers * 16384); [by apply Hf|].
  apply (run_workers_spec nworkers); [done|auto with bits| |done].
  intros w d lo hi Hw Hd E Hs. unfold bitop_worker. rewrite Hd, E.
  pose proof (worker_range_bounds nworkers (length dst) w Hw) as Hb. rewrite E in Hb.
  rewrite <-Hlen, (worker_hi_last _ _ _ _ _ E).
  rewrite !go_slice_Ok by lia. cbn [res_bind].
  rewrite Hs, Hf; [by rewrite slice_zip_with|auto with bits..|].
  rewrite !length_slice; lia.
Qed.

Lemma ConcurrentDoubleBitOp_spec (o1 o2 : Z → Z → Z) f nworkers order dst a b :
  (∀ d x y, bytes_ok d → bytes_ok x → bytes_ok y → length d = length x → length d = length y →
    f d x y = Ok (zip_with o2 (zip_with o1 d x) y)) →
  (1 ≤ nworkers)%nat → order ≡ₚ seq 0 nworkers →
  bytes_ok dst → bytes_ok a → bytes_ok b → length dst = length a → length dst = length b →
  ConcurrentDoubleBitOp f nworkers order dst a b = Ok (zip_with o2 (zip_with o1 dst a) b).
Proof.
  intros Hf Hn Ho Bd Ba Bb Ha Hb. unfold ConcurrentDoubleBitOp.
  destruct (Z.of_nat (length dst) <? Z.of_nat nworkers * 16384); [by apply Hf|].
  apply (run_workers_spec nworkers); [done|rewrite !length_zip_with; lia| |done].
  intros w d lo hi Hw Hd E Hs. unfold double_bitop_worker. rewrite Hd, E.
  pose proof (worker_range_bounds nworkers (length dst) w Hw) as Hbd. rewrite E in Hbd.
  rewrite <-Ha, <-Hb, (worker_hi_last _ _ _ _ _ E).
  rewrite !go_slice_Ok by lia. cbn [res_bind].
  rewrite Hs, Hf; [by rewrite !slice_zip_with|auto with bits..| |]; rewrite !length_slice; lia.
Qed.

(** ** Bits and padding *)
Lemma IsBitSet_Ok b i :
  bytes_ok b → 0 ≤ i < 8 * Z.of_nat (length b) →
  IsBitSet b i = Ok (Z.testbit (le_get b) i).
Proof.
  intros Bb Hi. unfold IsBitSet. rewrite Z.quot_div_nonneg, Z.rem_mod_nonneg by lia.
  pose proof (Z.mod_pos_bound i 8). pose proof (Z.div_mod i 8).
  destruct (index_total b (i / 8)) as [x Hx]; [lia|]. rewrite Hx. cbn [res_bind].
  destruct (Z.ltb_spec (i mod 8) 0); [lia|]. f_equal.
  apply index_Ok in Hx as [_ Hx].
  enough (∀ l k, bytes_ok l → l !! k = Some x →
    Z.testbit (le_get l) (8 * Z.of_nat k + i mod 8) = Z.testbit x (i mod 8)) as Hbit.
  { replace i with (8 * Z.of_nat (Z.to_nat (i / 8)) + i mod 8) at 2 by lia.
    rewrite (Hbit b) by done.
    apply eq_true_iff_eq. rewrite Z.ltb_lt. split.
    - intros Hpos. apply not_false_iff_true. intros Hf.
      enough (Z.land x (Z.shiftl 1 (i mod 8)) = 0) by lia.
      apply Z.bits_inj'. intros j Hj.
      rewrite Z.land_spec, Z.bits_0, Z.shiftl_spec, <-(Z.pow_0_r 2), Z.pow2_bits_eqb by lia.
      destruct (Z.eqb_spec 0 (j - i mod 8)) as [Ej|]; [|apply andb_false_r].
      replace j with (i mod 8) by lia. by rewrite Hf.
    - intros Ht. apply Z.le_neq. split.
      { apply Z.land_nonneg. right. apply Z.shiftl_nonneg. lia. }
      intros E. apply (f_equal (λ z, Z.testbit z (i mod 8))) in E.
      rewrite Z.bits_0, Z.land_spec, Ht, Z.shiftl_spec, Z.sub_diag in E by lia. done. }
  clear b Bb Hi Hx. intros l. induction l as [|y l IH]; intros k Bl Hk; [done|].
  apply Forall_cons in Bl as [By Bl]. unfold byte_ok in By. cbn [le_get].
  destruct k as [|k]; simpl in Hk; simplify_eq.
  - rewrite Z.mul_0_r, Z.add_0_l, <-(Z.mod_pow2_bits_low _ 8) by lia.
    change (2 ^ 8) with 256. rewrite (Z.mul_comm 256), Z.mod_add by lia.
    by rewrite Z.mod_small by lia.
  - rewrite <-(IH k Bl Hk).
    replace (8 * Z.of_nat (S k) + i mod 8) with ((8 * Z.of_nat k + i mod 8) + 8) by lia.
    rewrite <-Z.div_pow2_bits by lia. change (2 ^ 8) with 256.
    rewrite (Z.mul_comm 256), Z.div_add, Z.div_small by lia. done.
Qed.

(** [Pad] and [PadBitMap] in closed form. *)
Lemma Pad_ceil n multiple :
  0 ≤ n → 0 < multiple → n + multiple < 2 ^ 63 →
  Pad n multiple = Ok (multiple * ((n + multiple - 1) / multiple)).
Proof.
  intros Hn Hm Hover. unfold Pad. destruct (Z.eqb_spec multiple 0); [lia|].
  rewrite Z.rem_mod_nonneg by lia.
  pose proof (Z.mod_pos_bound n multiple). pose proof (Z.div_mod n multiple).
  destruct (Z.eqb_spec (n mod multiple) 0) as [E|E].
  - f_equal. rewrite <-(Z.div_unique (n + multiple - 1) multiple (n / multiple) (multiple - 1)); lia.
  - rewrite !wrap_int_small by (try rewrite wrap_int_small; lia). f_equal.
    rewrite <-(Z.div_unique (n + multiple - 1) multiple (n / multiple + 1) (n mod multiple - 1)); lia.
Qed.

(** A concrete little-endian implementation of the casts. *)
Definition le_unsafeslice : UnsafeSlice :=
  {| u64_view bs := Generic.word bs <$> seq 0 (length bs / 8);
     byte_view ws := mjoin (le_put 8 <$> ws) |}.

Lemma mjoin_words_cons w ws : mjoin (le_put 8 <$> w :: ws) = le_put 8 w ++ mjoin (le_put 8 <$> ws).
Proof. done. Qed.

Lemma drop_mjoin_words (ws : list Z) i :
  drop (i * 8) (mjoin (le_put 8 <$> ws)) = mjoin (le_put 8 <$> drop i ws).
Proof.
  revert i. induction ws as [|w ws IH]; intros [|i]; [done..|].
  replace (S i * 8)%nat with (length (le_put 8 w) + i * 8)%nat by (rewrite length_le_put; lia).
  by rewrite mjoin_words_cons, <-drop_drop, drop_app_length, IH.
Qed.

#[export] Instance le_unsafeslice_laws : @UnsafeSliceLaws le_unsafeslice.
Proof.
  split; cbn [u64_view byte_view le_unsafeslice].
  - intros bs. by rewrite length_fmap, length_seq.
  - intros bs i Hi. rewrite list_lookup_fmap, lookup_seq_lt by done. done.
  - intros ws. induction ws as [|w ws IH]; [done|].
    rewrite mjoin_words_cons, length_app, length_le_put, IH. cbn [length]. lia.
  - intros ws i w Hw. unfold slice. replace ((i + 1) * 8 - i * 8)%nat with 8%nat by lia.
    rewrite drop_mjoin_words. rewrite (drop_S _ _ _ Hw).
    rewrite mjoin_words_cons. by rewrite take_app_length' by by rewrite length_le_put.
Qed.

(** The contract leaves no freedom on byte slices. *)
Lemma laws_agree (o1 o2 : ByteOps) (L1 : @ByteOpsLaws o1) (L2 : @ByteOpsLaws o2) dst a b :
  bytes_ok dst → bytes_ok a → bytes_ok b →
  @Xor o1 dst a = @Xor o2 dst a ∧ @And o1 dst a = @And o2 dst a ∧
  @DoubleXor o1 dst a b = @DoubleXor o2 dst a b ∧ @AndXor o1 dst a b = @AndXor o2 dst a b.
Proof.
  intros Bd Ba Bb. split_and!.
  - destruct (decide (length dst = length a)).
    + by rewrite (@Xor_Ok o1 L1), (@Xor_Ok o2 L2).
    + by rewrite (@Xor_mismatch o1 L1), (@Xor_mismatch o2 L2).
  - destruct (decide (length dst = length a)).
    + by rewrite (@And_Ok o1 L1), (@And_Ok o2 L2).
    + by rewrite (@And_mismatch o1 L1), (@And_mismatch o2 L2).
  - destruct (decide (length dst = length a ∧ length dst = length b)) as [[]|].
    + by rewrite (@DoubleXor_Ok o1 L1), (@DoubleXor_Ok o2 L2).
    + by rewrite (@DoubleXor_mismatch o1 L1), (@DoubleXor_mismatch o2 L2).
  - destruct (decide (length dst = length a ∧ length dst = length b)) as [[]|].
    + by rewrite (@AndXor_Ok o1 L1), (@AndXor_Ok o2 L2).
    + by rewrite (@AndXor_mismatch o1 L1), (@AndXor_mismatch o2 L2).
Qed.

(** ** Random bytes *)
Lemma rand_Read_Ok draw k len f :
  draw k = Some f → rand_Read draw k len = Ok ((λ i, f i mod 256) <$> seq 0 len).
Proof. unfold rand_Read. by intros ->. Qed.

Definition random_bytes (f : nat → Z) (len : nat) : list Z := (λ i, f i mod 256) <$> seq 0 len.

Lemma length_random_bytes f len : length (random_bytes f len) = len.
Proof. unfold random_bytes. by rewrite length_fmap, length_seq. Qed.

Lemma random_bytes_ok f len : bytes_ok (random_bytes f len).
Proof.
  apply Forall_fmap, Forall_true. intros i. unfold byte_ok. cbn. apply Z.mod_pos_bound. lia.
Qed.

Lemma rand_Read_random draw k len f : draw k = Some f → rand_Read draw k len = Ok (random_bytes f len).
Proof. apply rand_Read_Ok. Qed.

(** * Properties *)

(** C28: The portable build and the amd64 build of [Xor], [And], [DoubleXor] and
    [AndXor] agree on all byte slices, including on the calls that panic, for
    any casts that behave as documented. *)
Theorem builds_agree `{UnsafeSliceLaws} dst a b :
  bytes_ok dst → bytes_ok a → bytes_ok b →
  Generic.Xor dst a = Amd64.Xor dst a ∧
  Generic.And dst a = Amd64.And dst a ∧
  Generic.DoubleXor dst a b = Amd64.DoubleXor dst a b ∧
  Generic.AndXor dst a b = Amd64.AndXor dst a b.
Proof.
  intros Bd Ba Bb. apply (laws_agree generic_ops amd64_ops); done || apply _.
Qed.

Lemma builds_agree_witness :
  Generic.Xor [1; 2; 3; 4; 5; 6; 7; 8; 9] [9; 8; 7; 6; 5; 4; 3; 2; 1] =
  @Amd64.Xor le_unsafeslice [1; 2; 3; 4; 5; 6; 7; 8; 9] [9; 8; 7; 6; 5; 4; 3; 2; 1].
Proof.
  apply (@builds_agree le_unsafeslice le_unsafeslice_laws
    [1; 2; 3; 4; 5; 6; 7; 8; 9] [9; 8; 7; 6; 5; 4; 3; 2; 1] []);
    repeat constructor; unfold byte_ok; lia.
Defined.

(** C29: For any number of workers and any order in which their writes take
    effect, the concurrent wrappers compute the byte-wise operation: [Xor]
    through [ConcurrentBitOp], [DoubleXor] and [AndXor] through
    [ConcurrentDoubleBitOp]. *)
Theorem concurrent_bitops_exact `{ByteOpsLaws} nworkers order dst a b :
  (1 ≤ nworkers)%nat → order ≡ₚ seq 0 nworkers →
  bytes_ok dst → bytes_ok a → bytes_ok b → length dst = length a → length dst = length b →
  ConcurrentBitOp Xor nworkers order dst a = Ok (zip_with Z.lxor dst a) ∧
  ConcurrentDoubleBitOp DoubleXor nworkers order dst a b =
    Ok (zip_with Z.lxor (zip_with Z.lxor dst a) b) ∧
  ConcurrentDoubleBitOp AndXor nworkers order dst a b =
    Ok (zip_with Z.lxor (zip_with Z.land dst a) b).
Proof.
  intros Hn Ho Bd Ba Bb Ha Hb. split; [|split].
  - apply (ConcurrentBitOp_spec Z.lxor); try done. apply Xor_Ok.
  - apply (ConcurrentDoubleBitOp_spec Z.lxor Z.lxor); try done. apply DoubleXor_Ok.
  - apply (ConcurrentDoubleBitOp_spec Z.land Z.lxor); try done. apply AndXor_Ok.
Qed.

Lemma concurrent_bitops_exact_witness :
  @ConcurrentDoubleBitOp (@AndXor generic_ops) 2 [1; 0]%nat
    (replicate 32769 5) (replicate 32769 3) (replicate 32769 6) =
    Ok (zip_with Z.lxor (zip_with Z.land (replicate 32769 5) (replicate 32769 3))
      (replicate 32769 6)).
Proof.
  apply (@concurrent_bitops_exact generic_ops generic_ops_laws 2 [1; 0]%nat);
    try (apply Forall_replicate; unfold byte_ok; lia); try (by rewrite !length_replicate).
  - lia.
  - apply Permutation_swap.
Defined.

(** [Pad] returns the least multiple of [multiple] that is at least [n], and
    [PadBitMap] that many bits in bytes, as long as the sum fits an [int]. *)
Theorem Pad_least_multiple n multiple :
  0 ≤ n → 0 < multiple → n + multiple < 2 ^ 63 →
  ∃ p, Pad n multiple = Ok p ∧ n ≤ p ∧ (multiple | p) ∧
    (∀ q, n ≤ q → (multiple | q) → p ≤ q) ∧
    PadBitMap n multiple = Ok (p / 8).
Proof.
  intros Hn Hm Hover. unfold PadBitMap, Pad. destruct (Z.eqb_spec multiple 0); [lia|].
  rewrite Z.rem_mod_nonneg by lia.
  pose proof (Z.mod_pos_bound n multiple). pose proof (Z.div_mod n multiple).
  destruct (Z.eqb_spec (n mod multiple) 0) as [E|E].
  - exists n. split; [done|]. split; [done|]. split; [exists (n / multiple); lia|].
    split; [done|]. cbn [res_bind]. by rewrite Z.quot_div_nonneg by lia.
  - rewrite !wrap_int_small by (try rewrite wrap_int_small; lia).
    exists (n + (multiple - n mod multiple)). split; [done|]. split; [lia|].
    split; [exists (n / multiple + 1); lia|]. split.
    + intros q Hq [c ->]. assert (n / multiple < c) by nia. nia.
    + cbn [res_bind]. by rewrite Z.quot_div_nonneg by lia.
Qed.

Lemma Pad_least_multiple_witness :
  ∃ p, Pad 1000 512 = Ok p ∧ 1000 ≤ p ∧ (512 | p) ∧
    (∀ q, 1000 ≤ q → (512 | q) → p ≤ q) ∧ PadBitMap 1000 512 = Ok (p / 8).
Proof. apply (Pad_least_multiple 1000 512); lia. Defined.
