(* ===== verification/BitVect.v ===== *)
(** * [internal/util]: bitvect.go, bitvect_generic.go

    The 512 by 512 bit matrix [BitVect], its in-place transpose, and the
    transposition of tall and wide byte matrices by blocks shared among
    goroutines ([ConcurrentTransposeTall], [ConcurrentTransposeWide]). *)
From S2P Require Import Prelude Words.

(** [BitVect.set]: 512 rows of eight 64-bit words. *)
Definition set_len : nat := 512 * 8.
Definition zero_set : list Z := replicate set_len 0.

(** ** The word-level stages of [transpose]

    [copy(tmp, set[a:a+n]); copy(set[a:a+n], set[b:b+n]); copy(set[b:b+n], tmp[:n])]
    on the state made of the scratch slice [tmp] and the words. *)
Definition swap_blocks (n a b : nat) (st : list Z * list Z) : list Z * list Z :=
  let '(tmp, set) := st in
  let tmp := put_at tmp 0 (slice set a (a + n)) in
  let set := put_at set a (slice set b (b + n)) in
  let set := put_at set b (slice tmp 0 n) in
  (tmp, set).

(** The block pairs that iteration [i] of each loop swaps, [jmp = i * 8]. *)
Definition pairs_256 (jmp : nat) : list (nat * nat) :=
  [(jmp + 4, 256 * 8 + jmp)]%nat.

Definition pairs_128 (jmp : nat) : list (nat * nat) :=
  [(jmp + 2, 128 * 8 + jmp); (jmp + 6, 128 * 8 + jmp + 4);
   (256 * 8 + jmp + 2, 384 * 8 + jmp); (256 * 8 + jmp + 6, 384 * 8 + jmp + 4)]%nat.

Definition pairs_64 (jmp : nat) : list (nat * nat) :=
  [(jmp + 1, 64 * 8 + jmp); (jmp + 3, 64 * 8 + jmp + 2);
   (jmp + 5, 64 * 8 + jmp + 4); (jmp + 7, 64 * 8 + jmp + 6);
   (128 * 8 + jmp + 1, 192 * 8 + jmp); (128 * 8 + jmp + 3, 192 * 8 + jmp + 2);
   (128 * 8 + jmp + 5, 192 * 8 + jmp + 4); (128 * 8 + jmp + 7, 192 * 8 + jmp + 6);
   (256 * 8 + jmp + 1, 320 * 8 + jmp); (256 * 8 + jmp + 3, 320 * 8 + jmp + 2);
   (256 * 8 + jmp + 5, 320 * 8 + jmp + 4); (256 * 8 + jmp + 7, 320 * 8 + jmp + 6);
   (384 * 8 + jmp + 1, 448 * 8 + jmp); (384 * 8 + jmp + 3, 448 * 8 + jmp + 2);
   (384 * 8 + jmp + 5, 448 * 8 + jmp + 4); (384 * 8 + jmp + 7, 448 * 8 + jmp + 6)]%nat.

Definition swap_all (n : nat) (ps : list (nat * nat)) (st : list Z * list Z) : list Z * list Z :=
  fold_left (λ st '(a, b), swap_blocks n a b st) ps st.

(** "Transpose 4 x 256 blocks", "2 x 128 blocks" and "1 x 64 blocks". *)
Definition stage_256 (st : list Z * list Z) : list Z * list Z :=
  for_loop (λ i, swap_all 4 (pairs_256 (i * 8))) 0 256 st.
Definition stage_128 (st : list Z * list Z) : list Z * list Z :=
  for_loop (λ j, swap_all 2 (pairs_128 (j * 8))) 0 128 st.
Definition stage_64 (st : list Z * list Z) : list Z * list Z :=
  for_loop (λ k, swap_all 1 (pairs_64 (k * 8))) 0 64 st.

(** ** The bit-level stages *)

(** [swap]: exchanges masked bits of two words. *)
Definition swap (a b : nat) (set : list Z) (mask : Z) (width : nat) : list Z :=
  let t := Z.land (Z.lxor (set !!! a) (u64 (Z.shiftl (set !!! b) (Z.of_nat width)))) mask in
  let set := <[a := Z.lxor (set !!! a) t]> set in
  <[b := Z.lxor (set !!! b) (Z.shiftr t (Z.of_nat width))]> set.

(** A run of calls [swap(jmp+(8*x), jmp+(8*y), vect, mask, width)]. *)
Definition swaps (jmp : nat) (mask : Z) (width : nat) (ps : list (nat * nat))
    (vect : list Z) : list Z :=
  fold_left (λ v '(x, y), swap (jmp + 8 * x) (jmp + 8 * y) v mask width) ps vect.

(** The 32x32 swaps of [transpose64]. *)
Definition pairs_32 : list (nat * nat) :=
  [(0, 32); (1, 33); (2, 34); (3, 35); (4, 36); (5, 37); (6, 38); (7, 39);
   (8, 40); (9, 41); (10, 42); (11, 43); (12, 44); (13, 45); (14, 46); (15, 47);
   (16, 48); (17, 49); (18, 50); (19, 51); (20, 52); (21, 53); (22, 54); (23, 55);
   (24, 56); (25, 57); (26, 58); (27, 59); (28, 60); (29, 61); (30, 62); (31, 63)]%nat.
Definition swap_stage_32 (jmp : nat) (vect : list Z) : list Z :=
  swaps jmp 0xFFFFFFFF00000000 32 pairs_32 vect.

(** The 16x16 swaps of [transpose64]. *)
Definition pairs_16 : list (nat * nat) :=
  [(0, 16); (1, 17); (2, 18); (3, 19); (4, 20); (5, 21); (6, 22); (7, 23);
   (8, 24); (9, 25); (10, 26); (11, 27); (12, 28); (13, 29); (14, 30); (15, 31);
   (32, 48); (33, 49); (34, 50); (35, 51); (36, 52); (37, 53); (38, 54); (39, 55);
   (40, 56); (41, 57); (42, 58); (43, 59); (44, 60); (45, 61); (46, 62); (47, 63)]%nat.
Definition swap_stage_16 (jmp : nat) (vect : list Z) : list Z :=
  swaps jmp 0xFFFF0000FFFF0000 16 pairs_16 vect.

(** The 8x8 swaps of [transpose64]. *)
Definition pairs_8 : list (nat * nat) :=
  [(0, 8); (1, 9); (2, 10); (3, 11); (4, 12); (5, 13); (6, 14); (7, 15);
   (16, 24); (17, 25); (18, 26); (19, 27); (20, 28); (21, 29); (22, 30); (23, 31);
   (32, 40); (33, 41); (34, 42); (35, 43); (36, 44); (37, 45); (38, 46); (39, 47);
   (48, 56); (49, 57); (50, 58); (51, 59); (52, 60); (53, 61); (54, 62); (55, 63)]%nat.
Definition swap_stage_8 (jmp : nat) (vect : list Z) : list Z :=
  swaps jmp 0xFF00FF00FF00FF00 8 pairs_8 vect.

(** The 4x4 swaps of [transpose64]. *)
Definition pairs_4 : list (nat * nat) :=
  [(0, 4); (1, 5); (2, 6); (3, 7); (8, 12); (9, 13); (10, 14); (11, 15);
   (16, 20); (17, 21); (18, 22); (19, 23); (24, 28); (25, 29); (26, 30); (27, 31);
   (32, 36); (33, 37); (34, 38); (35, 39); (40, 44); (41, 45); (42, 46); (43, 47);
   (48, 52); (49, 53); (50, 54); (51, 55); (56, 60); (57, 61); (58, 62); (59, 63)]%nat.
Definition swap_stage_4 (jmp : nat) (vect : list Z) : list Z :=
  swaps jmp 0xF0F0F0F0F0F0F0F0 4 pairs_4 vect.

(** The 2x2 swaps of [transpose64]. *)
Definition pairs_2 : list (nat * nat) :=
  [(0, 2); (1, 3); (4, 6); (5, 7); (8, 10); (9, 11); (12, 14); (13, 15);
   (16, 18); (17, 19); (20, 22); (21, 23); (24, 26); (25, 27); (28, 30); (29, 31);
   (32, 34); (33, 35); (36, 38); (37, 39); (40, 42); (41, 43); (44, 46); (45, 47);
   (48, 50); (49, 51); (52, 54); (53, 55); (56, 58); (57, 59); (60, 62); (61, 63)]%nat.
Definition swap_stage_2 (jmp : nat) (vect : list Z) : list Z :=
  swaps jmp 0xcccccccccccccccc 2 pairs_2 vect.

(** The 1x1 swaps of [transpose64]. *)
Definition pairs_1 : list (nat * nat) :=
  [(0, 1); (2, 3); (4, 5); (6, 7); (8, 9); (10, 11); (12, 13); (14, 15);
   (16, 17); (18, 19); (20, 21); (22, 23); (24, 25); (26, 27); (28, 29); (30, 31);
   (32, 33); (34, 35); (36, 37); (38, 39); (40, 41); (42, 43); (44, 45); (46, 47);
   (48, 49); (50, 51); (52, 53); (54, 55); (56, 57); (58, 59); (60, 61); (62, 63)]%nat.
Definition swap_stage_1 (jmp : nat) (vect : list Z) : list Z :=
  swaps jmp 0xaaaaaaaaaaaaaaaa 1 pairs_1 vect.

Definition transpose64 (vect : list Z) (vblock col : nat) : list Z :=
  let jmp := (vblock * (64 * 8) + col)%nat in
  let vect := swap_stage_32 jmp vect in
  let vect := swap_stage_16 jmp vect in
  let vect := swap_stage_8 jmp vect in
  let vect := swap_stage_4 jmp vect in
  let vect := swap_stage_2 jmp vect in
  swap_stage_1 jmp vect.

(** [(b *BitVect) transpose()]. *)
Definition transpose (set : list Z) : list Z :=
  let tmp := replicate 4 0 in
  let '(_, set) := stage_64 (stage_128 (stage_256 (tmp, set))) in
  for_loop (λ blk set, for_loop (λ col set, transpose64 set blk col) 0 8 set) 0 8 set.

(** ** bitvect_generic.go *)

(** [for i < 512 { for j < 8 { ... } }]. *)
Definition for_words {T} (f : nat → nat → T → res T) (s : T) : res T :=
  for_res (λ i s, for_res (λ j s, f i j s) 0 8 s) 0 512 s.

Definition unravelTall (matrix : list (list Z)) (idx : nat) (set : list Z) : res (list Z) :=
  for_words (λ i j set,
    let! row := index matrix (Z.of_nat (512 * idx + i)) in
    let! bytes := go_slice row (j * 8) ((j + 1) * 8) in
    store set (Z.of_nat (i * 8 + j)) (le_get bytes)) set.

Definition unravelWide (matrix : list (list Z)) (idx : nat) (set : list Z) : res (list Z) :=
  for_words (λ i j set,
    let! row := index matrix (Z.of_nat i) in
    let! bytes := go_slice row (idx * 64 + j * 8) (idx * 64 + (j + 1) * 8) in
    store set (Z.of_nat (i * 8 + j)) (le_get bytes)) set.

(** [PutUint64(matrix[r][lo:lo+8], v)]. *)
Definition put_word (matrix : list (list Z)) (r lo : nat) (v : Z) : res (list (list Z)) :=
  let! row := index matrix (Z.of_nat r) in
  let! _ := go_slice row lo (lo + 8) in
  store matrix (Z.of_nat r) (put_at row lo (le_put 8 v)).

Definition ravelToTall (set : list Z) (idx : nat) (matrix : list (list Z)) : res (list (list Z)) :=
  for_words (λ i j matrix,
    let! v := index set (Z.of_nat (i * 8 + j)) in
    put_word matrix (idx * 512 + i) (j * 8) v) matrix.

Definition ravelToWide (set : list Z) (idx : nat) (matrix : list (list Z)) : res (list (list Z)) :=
  for_words (λ i j matrix,
    let! v := index set (Z.of_nat (i * 8 + j)) in
    put_word matrix i (idx * 64 + j * 8) v) matrix.

(** ** The goroutines of bitvect.go *)

(** The blocks of worker [w], in the order it processes them. *)
Definition worker_blocks (nworkers nblks w : nat) : list nat :=
  let workerResp := (nblks / nworkers)%nat in
  let step := (workerResp * w)%nat in
  if decide (w = nworkers - 1)%nat then seq step (nblks - step) else seq step workerResp.

(** All the block steps of the pool: (worker, block). *)
Definition pool_jobs (nworkers nblks : nat) : list (nat * nat) :=
  seq 0 nworkers ≫= λ w, pair w <$> worker_blocks nworkers nblks w.

(** The state of the pool: the [BitVect] of each worker, declared before its
    loop, and the shared output matrix. *)
Definition pool := (list (list Z) * list (list Z))%type.

Definition block_step (unravel : nat → list Z → res (list Z))
    (ravel : list Z → nat → list (list Z) → res (list (list Z)))
    (job : nat * nat) (st : pool) : res pool :=
  let '(w, i) := job in
  let '(vects, trans) := st in
  let! b := unravel i (vects !!! w) in
  let b := transpose b in
  let! trans := ravel b i trans in
  Ok (<[w := b]> vects, trans).

Fixpoint run_jobs (step : nat * nat → pool → res pool) (jobs : list (nat * nat)) (st : pool)
    : res pool :=
  match jobs with
  | [] => Ok st
  | job :: jobs => let! st := step job st in run_jobs step jobs st
  end.

(** [nworkers] is [runtime.GOMAXPROCS(0)]; [order] is the interleaving of the
    block steps of the workers. *)
Definition ConcurrentTransposeTall (nworkers : nat) (order : list (nat * nat))
    (matrix : list (list Z)) : res (list (list Z)) :=
  if negb (length matrix mod 512 =? 0)%nat
  then Panic "rows of input matrix not a multiple of 512"
  else
    let trans := replicate 512 (replicate (length matrix / 8) 0) in
    let! st := run_jobs (block_step (unravelTall matrix) ravelToWide) order
                 (replicate nworkers zero_set, trans) in
    Ok st.2.

Definition ConcurrentTransposeWide (nworkers : nat) (order : list (nat * nat))
    (matrix : list (list Z)) : res (list (list Z)) :=
  let! row0 := index matrix 0 in
  if negb (length row0 mod 64 =? 0)%nat
  then Panic "columns of input matrix not a multiple of 64"
  else
    let trans := replicate (length row0 * 8) (replicate 64 0) in
    let! st := run_jobs (block_step (unravelWide matrix) ravelToTall) order
                 (replicate nworkers zero_set, trans) in
    Ok st.2.

(** * Lemmas *)

(** ** Exchanging one binary digit of a row and a column index

    Stage [k] of the transpose moves the bit at row [r] and column [c] to where
    digit [k] of [r] and of [c] are exchanged. *)
Definition digit (k n : nat) : nat := (n / 2 ^ k) mod 2.

Definition sw (k : nat) (rc : nat * nat) : nat * nat :=
  let '(r, c) := rc in
  match digit k r, digit k c with
  | O, S _ => (r + 2 ^ k, c - 2 ^ k)%nat
  | S _, O => (r - 2 ^ k, c + 2 ^ k)%nat
  | _, _ => (r, c)
  end.

Definition sws (ks : list nat) (rc : nat * nat) : nat * nat := foldr sw rc ks.

Lemma digit_testbit k n : digit k n = Nat.b2n (Nat.testbit n k).
Proof. unfold digit. by rewrite Nat.testbit_spec'. Qed.

Lemma testbit_add_pow2 k n i :
  Nat.testbit n k = false →
  Nat.testbit (n + 2 ^ k) i = if decide (i = k) then true else Nat.testbit n i.
Proof.
  intros Hk. rewrite Nat.add_nocarry_lxor.
  - rewrite Nat.lxor_spec, Nat.pow2_bits_eqb. case_decide; subst.
    + by rewrite Nat.eqb_refl, Hk.
    + by rewrite (proj2 (Nat.eqb_neq k i)), xorb_false_r by done.
  - apply Nat.bits_inj. intros j. rewrite Nat.land_spec, Nat.bits_0, Nat.pow2_bits_eqb.
    destruct (Nat.eqb_spec k j); subst; [by rewrite Hk|by rewrite andb_false_r].
Qed.

Lemma testbit_sub_pow2 k n i :
  Nat.testbit n k = true →
  Nat.testbit (n - 2 ^ k) i = if decide (i = k) then false else Nat.testbit n i.
Proof.
  intros Hk. rewrite Nat.sub_nocarry_ldiff.
  - rewrite Nat.ldiff_spec, Nat.pow2_bits_eqb. case_decide; subst.
    + by rewrite Nat.eqb_refl, andb_false_r.
    + by rewrite (proj2 (Nat.eqb_neq k i)), andb_true_r by done.
  - apply Nat.bits_inj. intros j. rewrite Nat.ldiff_spec, Nat.bits_0, Nat.pow2_bits_eqb.
    destruct (Nat.eqb_spec k j); subst; [by rewrite Hk|done].
Qed.

Lemma sw_bits k rc i :
  (Nat.testbit (sw k rc).1 i = if decide (i = k) then Nat.testbit rc.2 i else Nat.testbit rc.1 i) ∧
  (Nat.testbit (sw k rc).2 i = if decide (i = k) then Nat.testbit rc.1 i else Nat.testbit rc.2 i).
Proof.
  destruct rc as [r c]. unfold sw. rewrite !digit_testbit.
  destruct (Nat.testbit r k) eqn:Hr, (Nat.testbit c k) eqn:Hc; cbn [Nat.b2n fst snd].
  - case_decide; subst; split; congruence.
  - rewrite testbit_add_pow2, testbit_sub_pow2 by done. case_decide; subst; split; congruence.
  - rewrite testbit_add_pow2, testbit_sub_pow2 by done. case_decide; subst; split; congruence.
  - case_decide; subst; split; congruence.
Qed.

Lemma sws_bits ks rc i :
  NoDup ks →
  (Nat.testbit (sws ks rc).1 i = if decide (i ∈ ks) then Nat.testbit rc.2 i else Nat.testbit rc.1 i) ∧
  (Nat.testbit (sws ks rc).2 i = if decide (i ∈ ks) then Nat.testbit rc.1 i else Nat.testbit rc.2 i).
Proof.
  induction 1 as [|k ks Hk _ [IH1 IH2]]; cbn [sws foldr].
  - by rewrite !decide_False by set_solver.
  - destruct (sw_bits k (sws ks rc) i) as [H1 H2]. unfold sws in *. rewrite H1, H2, IH1, IH2.
    destruct (decide (i = k)) as [->|].
    + by rewrite !(decide_False _ _ Hk), !decide_True by set_solver.
    + destruct (decide (i ∈ ks)).
      * by rewrite !decide_True by set_solver.
      * by rewrite !decide_False by set_solver.
Qed.

Lemma testbit_high_nat n k i : (n < 2 ^ k)%nat → (k ≤ i)%nat → Nat.testbit n i = false.
Proof.
  intros Hn Hi. rewrite <-(Nat.mod_small n (2 ^ k)) by done.
  by apply Nat.mod_pow2_bits_high.
Qed.

Lemma bits_lt_pow2 n k : (∀ i, (k ≤ i)%nat → Nat.testbit n i = false) → (n < 2 ^ k)%nat.
Proof.
  intros Hn. enough (n = n mod 2 ^ k)%nat as ->.
  { apply Nat.mod_upper_bound. apply Nat.pow_nonzero. lia. }
  apply Nat.bits_inj. intros i. destruct (decide (i < k)%nat).
  - by rewrite Nat.mod_pow2_bits_low.
  - rewrite Nat.mod_pow2_bits_high by lia. apply Hn. lia.
Qed.

Lemma sw_bound k n r c r' c' :
  (k < n)%nat → (r < 2 ^ n)%nat → (c < 2 ^ n)%nat → sw k (r, c) = (r', c') →
  (r' < 2 ^ n)%nat ∧ (c' < 2 ^ n)%nat.
Proof.
  intros Hk Hr Hc E. pose proof (sw_bits k (r, c)) as Hb. rewrite E in Hb. cbn [fst snd] in Hb.
  split; apply bits_lt_pow2; intros i Hi; specialize (Hb i) as [H1 H2];
    [rewrite H1|rewrite H2]; case_decide; eauto using testbit_high_nat.
Qed.

(** Exchanging all the digits exchanges the indices. *)
Lemma sws_transpose n ks r c :
  (r < 2 ^ n)%nat → (c < 2 ^ n)%nat → NoDup ks → (∀ i, (i < n)%nat → i ∈ ks) →
  sws ks (r, c) = (c, r).
Proof.
  intros Hr Hc Hnd Hall. pose proof (λ i, sws_bits ks (r, c) i Hnd) as Hb.
  destruct (sws ks (r, c)) as [r' c']. cbn [fst snd] in Hb.
  f_equal; apply Nat.bits_inj; intros i; destruct (Hb i) as [H1 H2];
    [rewrite H1|rewrite H2]; case_decide as Hi; try done;
    assert (n ≤ i)%nat by (apply Nat.nlt_ge; auto);
    by rewrite !(testbit_high_nat _ n i).
Qed.

(** ** The block swaps as a map of indices *)
Definition flat (n : nat) (ps : list (nat * nat)) : list nat :=
  ps ≫= λ p, seq p.1 n ++ seq p.2 n.

Fixpoint sigma (n : nat) (ps : list (nat * nat)) (x : nat) : nat :=
  match ps with
  | [] => x
  | (a, b) :: ps =>
      if decide (a ≤ x < a + n)%nat then (b + (x - a))%nat
      else if decide (b ≤ x < b + n)%nat then (a + (x - b))%nat
      else sigma n ps x
  end.

Lemma sigma_out n ps x : x ∉ flat n ps → sigma n ps x = x.
Proof.
  induction ps as [|[a b] ps IH]; cbn [sigma]; [done|]. intros Hx.
  unfold flat in Hx. rewrite bind_cons in Hx. cbn [fst snd] in Hx.
  rewrite !not_elem_of_app, !elem_of_seq in Hx. destruct Hx as [[Ha Hb] Hps].
  rewrite !decide_False by lia. by apply IH.
Qed.

Lemma sigma_in n ps x : x ∈ flat n ps → sigma n ps x ∈ flat n ps.
Proof.
  induction ps as [|[a b] ps IH]; cbn [sigma]; [set_solver|]. intros Hx.
  unfold flat in *. rewrite bind_cons in *. cbn [fst snd] in *.
  rewrite !elem_of_app, !elem_of_seq in *. repeat case_decide.
  - left; right; lia.
  - left; left; lia.
  - right. apply IH. destruct Hx as [[|]|]; [lia|lia|done].
Qed.

Lemma sigma_pair n ps a b x y o :
  NoDup (flat n ps) → (a, b) ∈ ps → (o < n)%nat →
  (x = a + o ∧ y = b + o ∨ x = b + o ∧ y = a + o)%nat → sigma n ps x = y.
Proof.
  induction ps as [|[a' b'] ps IH]; intros Hnd Hin Ho Hxy; [set_solver|].
  unfold flat in Hnd. rewrite bind_cons in Hnd. cbn [fst snd] in Hnd.
  apply NoDup_app in Hnd as (Hnd1 & Hdisj & Hnd2).
  apply NoDup_app in Hnd1 as (_ & Hab & _). cbn [sigma].
  apply elem_of_cons in Hin as [[= <- <-]|Hin].
  - destruct Hxy as [[-> ->]|[-> ->]].
    + rewrite decide_True by lia. lia.
    + rewrite decide_False, decide_True by (try lia; intros ?; apply (Hab (b + o)%nat); apply elem_of_seq; lia).
      lia.
  - assert (x ∈ flat n ps) as Hx.
    { apply list_elem_of_bind. exists (a, b). split; [|done]. cbn [fst snd].
      apply elem_of_app. rewrite !elem_of_seq. lia. }
    assert (∀ z, (a' ≤ z < a' + n ∨ b' ≤ z < b' + n)%nat → z ≠ x) as Hne.
    { intros z Hz ->. apply (Hdisj x); [|done]. rewrite elem_of_app, !elem_of_seq. lia. }
    rewrite !decide_False by (intros ?; apply (Hne x); [lia|done]). by apply IH.
Qed.

Lemma swap_blocks_spec n a b tmp set :
  (n ≤ 4)%nat → length tmp = 4%nat → (a + n ≤ length set)%nat → (b + n ≤ length set)%nat →
  NoDup (flat n [(a, b)]) →
  ∃ tmp' set', swap_blocks n a b (tmp, set) = (tmp', set') ∧ length tmp' = 4%nat ∧
    length set' = length set ∧ ∀ x, set' !! x = set !! sigma n [(a, b)] x.
Proof.
  intros Hn Ht Ha Hb Hnd. unfold flat in Hnd. rewrite bind_cons in Hnd. cbn [fst snd] in Hnd.
  apply NoDup_app in Hnd as (Hnd & _ & _). apply NoDup_app in Hnd as (_ & Hab & _).
  assert (∀ x, (a ≤ x < a + n)%nat → (b ≤ x < b + n)%nat → False) as Hdis.
  { intros x Hx1 Hx2. apply (Hab x); apply elem_of_seq; lia. }
  eexists _, _. split; [done|].
  assert (∀ (l : list Z) k, (k + n ≤ length l)%nat → length (slice l k (k + n)) = n) as Hsl.
  { intros l k Hk. rewrite length_slice; lia. }
  assert (length (put_at tmp 0 (slice set a (a + n))) = 4%nat) as Ht'.
  { rewrite length_put_at; rewrite ?Hsl; lia. }
  assert (length (put_at set a (slice set b (b + n))) = length set) as Hs1.
  { rewrite length_put_at; rewrite ?Hsl; lia. }
  assert (length (slice (put_at tmp 0 (slice set a (a + n))) 0 n) = n) as Hsl'.
  { rewrite length_slice; lia. }
  split; [done|]. split; [rewrite length_put_at; lia|]. intros x. cbn [sigma].
  rewrite lookup_put_at by lia. rewrite Hsl'. destruct (decide (b ≤ x < b + n)%nat).
  - rewrite decide_False by (intros ?; eapply Hdis; eauto).
    rewrite lookup_slice by lia. rewrite lookup_put_at by (rewrite Hsl; lia).
    rewrite Hsl, decide_True by lia. rewrite lookup_slice by lia. f_equal. lia.
  - rewrite lookup_put_at by (rewrite Hsl; lia). rewrite Hsl by lia. case_decide; [|done].
    rewrite lookup_slice by lia. f_equal. 
Qed.

Lemma flat_sub n ps N :
  Forall (λ p, p.1 + n ≤ N ∧ p.2 + n ≤ N)%nat ps → ∀ x, x ∈ flat n ps → (x < N)%nat.
Proof.
  intros Hps x Hx. apply list_elem_of_bind in Hx as ([a b] & Hx & Hin).
  rewrite Forall_forall in Hps. specialize (Hps _ Hin). cbn [fst snd] in *.
  rewrite elem_of_app, !elem_of_seq in Hx. lia.
Qed.

Lemma swap_all_spec n ps tmp set :
  (n ≤ 4)%nat → length tmp = 4%nat → NoDup (flat n ps) →
  Forall (λ p, p.1 + n ≤ length set ∧ p.2 + n ≤ length set)%nat ps →
  ∃ tmp' set', swap_all n ps (tmp, set) = (tmp', set') ∧ length tmp' = 4%nat ∧
    length set' = length set ∧ ∀ x, set' !! x = set !! sigma n ps x.
Proof.
  intros Hn. revert tmp set. induction ps as [|[a b] ps IH]; intros tmp set Ht Hnd Hps.
  - exists tmp, set. done.
  - apply Forall_cons in Hps as [[Ha Hb] Hps]. cbn [fst snd] in *.
    change (flat n ((a, b) :: ps)) with ((seq a n ++ seq b n) ++ flat n ps) in Hnd.
    apply NoDup_app in Hnd as (Hnd1 & Hdisj & Hnd2).
    destruct (swap_blocks_spec n a b tmp set) as (tmp1 & set1 & E1 & Ht1 & Hs1 & Hx1); try done.
    { unfold flat. rewrite bind_cons, app_nil_r. done. }
    destruct (IH tmp1 set1) as (tmp2 & set2 & E2 & Ht2 & Hs2 & Hx2); [done|done|by rewrite Hs1|].
    exists tmp2, set2. cbn [swap_all fold_left]. rewrite E1. split; [done|].
    split; [done|]. split; [congruence|]. intros x. rewrite Hx2, Hx1. f_equal. cbn [sigma].
    destruct (decide (x ∈ flat n ps)) as [Hin|Hout].
    + pose proof (sigma_in n ps x Hin) as Hin'.
      assert (∀ z, z ∈ flat n ps → ¬ (a ≤ z < a + n)%nat ∧ ¬ (b ≤ z < b + n)%nat) as Hno.
      { intros z Hz. split; intros ?; apply (Hdisj z); try done;
          rewrite elem_of_app, !elem_of_seq; lia. }
      destruct (Hno _ Hin), (Hno _ Hin'). by rewrite !decide_False.
    + by rewrite (sigma_out n ps x Hout).
Qed.

(** Stage with row stride [R] words and column stride [h] words. *)
Definition word_digit (R h x : nat) : nat :=
  match (x / R) mod 2, (x / h) mod 2 with
  | O, S _ => (x + R - h)%nat
  | S _, O => (x - R + h)%nat
  | _, _ => x
  end.

Lemma flat_shift n jmp ps :
  flat n ((λ p, (jmp + p.1, jmp + p.2)%nat) <$> ps) = Nat.add jmp <$> flat n ps.
Proof.
  induction ps as [|[a b] ps IH]; [done|].
  change (flat n ((a, b) :: ps)) with ((seq a n ++ seq b n) ++ flat n ps).
  rewrite fmap_cons, !fmap_app, <-IH. cbn [fst snd].
  by rewrite !fmap_add_seq.
Qed.

Lemma flat_NoDup n jmp (pairs : nat → list (nat * nat)) :
  pairs jmp = (λ p, (jmp + p.1, jmp + p.2)%nat) <$> pairs 0%nat →
  bool_decide (NoDup (flat n (pairs 0%nat))) = true → NoDup (flat n (pairs jmp)).
Proof.
  intros -> Hnd%bool_decide_eq_true. rewrite flat_shift.
  apply NoDup_fmap; [|done]. intros a b. lia.
Qed.

Section WordStage.
Context (R h rows : nat) (pairs : nat → list (nat * nat)).
Hypothesis R_eq : (R = rows * 8)%nat.
Hypothesis R_mult : (rows ≠ 0)%nat.
Hypothesis h_le : (1 ≤ h ≤ 4)%nat.
Hypothesis pairs_nodup : ∀ i, NoDup (flat h (pairs (i * 8))).
Hypothesis pairs_range : ∀ i, (i < rows)%nat →
  Forall (λ p, p.1 + h ≤ set_len ∧ p.2 + h ≤ set_len)%nat (pairs (i * 8)%nat).
Hypothesis pairs_rows : ∀ i, (i < rows)%nat →
  Forall (λ p, ∀ o, (o < h)%nat →
    ((p.1 + o) mod R / 8 = i ∧ (p.2 + o) mod R / 8 = i ∧
     word_digit R h (p.1 + o) = p.2 + o ∧ word_digit R h (p.2 + o) = p.1 + o ∧
     p.1 ≠ p.2)%nat) (pairs (i * 8)%nat).
Hypothesis pairs_all : ∀ i x, (i < rows)%nat → (x < set_len)%nat → (x mod R / 8 = i)%nat →
  word_digit R h x ≠ x → x ∈ flat h (pairs (i * 8)%nat).

Lemma sigma_stage i x :
  (i < rows)%nat → (x < set_len)%nat →
  sigma h (pairs (i * 8)%nat) x =
    if decide (x mod R / 8 = i)%nat then word_digit R h x else x.
Proof.
  intros Hi Hx. pose proof (pairs_rows i Hi) as Hrows. rewrite Forall_forall in Hrows.
  destruct (decide (x ∈ flat h (pairs (i * 8)%nat))) as [Hin|Hout].
  - apply list_elem_of_bind in Hin as ([a b] & Hs & Hp). cbn [fst snd] in Hs.
    specialize (Hrows _ Hp). cbn [fst snd] in Hrows.
    apply elem_of_app in Hs as [Hs|Hs]; apply elem_of_seq in Hs.
    + destruct (Hrows (x - a)%nat) as (E1 & _ & E3 & _); [lia|].
      replace (a + (x - a))%nat with x in * by lia. rewrite decide_True, E3 by done.
      apply (sigma_pair h _ a b x _ (x - a)); [apply pairs_nodup|done|lia|lia].
    + destruct (Hrows (x - b)%nat) as (_ & E2 & _ & E4 & _); [lia|].
      replace (b + (x - b))%nat with x in * by lia. rewrite decide_True, E4 by done.
      apply (sigma_pair h _ a b x _ (x - b)); [apply pairs_nodup|done|lia|lia].
  - rewrite (sigma_out _ _ _ Hout). case_decide as E; [|done].
    destruct (decide (word_digit R h x = x)) as [->|Hne]; [done|].
    destruct Hout. by apply pairs_all.
Qed.

(** A move stays within the words of its own iteration. *)
Lemma word_digit_row i x :
  (i < rows)%nat → (x < set_len)%nat → (x mod R / 8 = i)%nat →
  (word_digit R h x < set_len)%nat ∧ (word_digit R h x mod R / 8 = i)%nat.
Proof.
  intros Hi Hx E. destruct (decide (word_digit R h x = x)) as [->|Hne]; [done|].
  pose proof (pairs_all i x Hi Hx E Hne) as Hin.
  apply list_elem_of_bind in Hin as ([a b] & Hs & Hp). cbn [fst snd] in Hs.
  pose proof (pairs_rows i Hi) as Hrows. rewrite Forall_forall in Hrows. specialize (Hrows _ Hp).
  pose proof (pairs_range i Hi) as Hrng. rewrite Forall_forall in Hrng. specialize (Hrng _ Hp).
  cbn [fst snd] in *. apply elem_of_app in Hs as [Hs|Hs]; apply elem_of_seq in Hs.
  - destruct (Hrows (x - a)%nat) as (_ & E2 & E3 & _); [lia|].
    replace (a + (x - a))%nat with x in * by lia. rewrite E3. split; [lia|done].
  - destruct (Hrows (x - b)%nat) as (E1 & _ & _ & E4 & _); [lia|].
    replace (b + (x - b))%nat with x in * by lia. rewrite E4. split; [lia|done].
Qed.

Lemma word_stage_spec tmp set :
  length tmp = 4%nat → length set = set_len →
  ∃ tmp' set', for_loop (λ i, swap_all h (pairs (i * 8)%nat)) 0 rows (tmp, set) = (tmp', set') ∧
    length tmp' = 4%nat ∧ length set' = set_len ∧
    ∀ x, (x < set_len)%nat → set' !! x = set !! word_digit R h x.
Proof.
  intros Ht Hs.
  pose proof (for_loop_invariant (λ i st, length st.1 = 4%nat ∧ length st.2 = set_len ∧
    ∀ x, (x < set_len)%nat →
      st.2 !! x = set !! (if decide (x mod R / 8 < i)%nat then word_digit R h x else x))
    (λ i, swap_all h (pairs (i * 8)%nat)) 0 rows (tmp, set)) as (H1 & H2 & H3).
  - cbn [fst snd]. split; [done|]. split; [done|]. intros x Hx. by rewrite decide_False by lia.
  - intros i [t s] Hi (Ht1 & Hs1 & Hx1). cbn [fst snd] in *.
    destruct (swap_all_spec h (pairs (i * 8)%nat) t s) as (t' & s' & E & Ht' & Hs' & Hx').
    { lia. } { done. } { apply pairs_nodup. } { rewrite Hs1. apply pairs_range. lia. }
    rewrite E. cbn [fst snd]. split; [done|]. split; [congruence|]. intros x Hx.
    rewrite Hx', sigma_stage by lia. destruct (decide (x mod R / 8 = i)%nat) as [Ei|Ei].
    + destruct (word_digit_row i x) as [Hlt Hrow]; [lia|done|done|].
      rewrite Hx1 by done. rewrite decide_False by lia. by rewrite decide_True by lia.
    + rewrite Hx1 by done. repeat case_decide; try done; lia.
  - destruct (for_loop _ _ _ _) as [t' s']. cbn [fst snd] in *.
    exists t', s'. split; [done|]. split; [done|]. split; [done|]. intros x Hx.
    rewrite H3 by done. rewrite decide_True; [done|].
    pose proof (Nat.mod_upper_bound x R). apply Nat.Div0.div_lt_upper_bound. lia.
Qed.
End WordStage.

(** Closing the side conditions of a concrete stage. *)
Ltac shift_pairs := cbn [fmap list_fmap fst snd]; repeat (apply (f_equal2 cons); [apply (f_equal2 pair); lia|]); reflexivity.
Ltac each_pair := repeat (apply Forall_cons; split); [..|apply Forall_nil; exact I];
  cbn [fst snd].
Lemma word_digit_cases R h x :
  (x / R mod 2 = 0 ∧ x / h mod 2 = 1 ∧ word_digit R h x = x + R - h ∨
   x / R mod 2 = 1 ∧ x / h mod 2 = 0 ∧ word_digit R h x = x - R + h ∨
   x / R mod 2 = x / h mod 2 ∧ word_digit R h x = x)%nat.
Proof.
  unfold word_digit. pose proof (Nat.mod_upper_bound (x / R)%nat 2).
  pose proof (Nat.mod_upper_bound (x / h)%nat 2).
  destruct ((x / R) mod 2)%nat as [|[|]] eqn:E1, ((x / h) mod 2)%nat as [|[|]] eqn:E2; lia.
Qed.

Lemma word_digit_01 R h x :
  (x / R mod 2 = 0 → x / h mod 2 = 1 → word_digit R h x = x + R - h)%nat.
Proof. unfold word_digit. by intros -> ->. Qed.

Lemma word_digit_10 R h x :
  (x / R mod 2 = 1 → x / h mod 2 = 0 → word_digit R h x = x - R + h)%nat.
Proof. unfold word_digit. by intros -> ->. Qed.

Ltac check_rows := each_pair; (intros ? ?; split_and!;
  [dlia|dlia|rewrite word_digit_01 by dlia; lia|rewrite word_digit_10 by dlia; lia|lia]).

Lemma elem_of_flat n ps k x :
  (∃ p, ps !! k = Some p ∧ (p.1 ≤ x < p.1 + n ∨ p.2 ≤ x < p.2 + n)%nat) → x ∈ flat n ps.
Proof.
  intros (p & Hk & Hx). apply list_elem_of_bind. exists p.
  split; [|by eapply list_elem_of_lookup_2]. rewrite elem_of_app, !elem_of_seq. lia.
Qed.

(** The pair of word [x], from its position [u] among the row blocks and [v]
    among the column blocks, both below [n]: pair number [n * u + v]. *)
Ltac move_pair n u v Ex :=
  let Hu := fresh in let Hv := fresh in
  assert (u < n)%nat as Hu by dlia; assert (v < n)%nat as Hv by dlia;
  revert Ex Hu Hv; generalize u v; clear;
  let u' := fresh in let v' := fresh in
  intros u' v' Ex Hu Hv; apply (elem_of_flat _ _ (n * u' + v')%nat);
  destruct u' as [|[|[|[|]]]]; [..|exfalso; clear - Hu; lia];
  destruct v' as [|[|[|[|]]]];
  first [exfalso; clear - Hu Hv; lia|eexists; split; [reflexivity|cbn [fst snd]; lia]].

Lemma stage_256_spec tmp set :
  length tmp = 4%nat → length set = set_len →
  ∃ tmp' set', stage_256 (tmp, set) = (tmp', set') ∧
    length tmp' = 4%nat ∧ length set' = set_len ∧
    ∀ x, (x < set_len)%nat → set' !! x = set !! word_digit 2048 4 x.
Proof.
  apply (word_stage_spec 2048 4 256 pairs_256); try lia; unfold set_len.
  - intros i. apply flat_NoDup; [|by vm_compute]. unfold pairs_256. shift_pairs.
  - intros i Hi. unfold pairs_256. each_pair. lia.
  - intros i Hi. unfold pairs_256. check_rows.
  - intros i x Hi Hx E Hne. unfold pairs_256.
    destruct (word_digit_cases 2048 4 x) as [(E1 & E2 & _)|[(E1 & E2 & _)|(_ & E1)]]; [..|done].
    + assert (i * 8 + 4 ≤ x < i * 8 + 8)%nat by dlia. apply (elem_of_flat _ _ 0%nat).
      eexists; split; [reflexivity|cbn [fst snd]; lia].
    + assert (2048 + i * 8 ≤ x < 2048 + i * 8 + 4)%nat by dlia. apply (elem_of_flat _ _ 0%nat).
      eexists; split; [reflexivity|cbn [fst snd]; lia].
Qed.

Lemma stage_128_spec tmp set :
  length tmp = 4%nat → length set = set_len →
  ∃ tmp' set', stage_128 (tmp, set) = (tmp', set') ∧
    length tmp' = 4%nat ∧ length set' = set_len ∧
    ∀ x, (x < set_len)%nat → set' !! x = set !! word_digit 1024 2 x.
Proof.
  apply (word_stage_spec 1024 2 128 pairs_128); try lia; unfold set_len.
  - intros i. apply flat_NoDup; [|by vm_compute]. unfold pairs_128. shift_pairs.
  - intros i Hi. unfold pairs_128. each_pair; lia.
  - intros i Hi. unfold pairs_128. check_rows.
  - intros i x Hi Hx E Hne. unfold pairs_128.
    destruct (word_digit_cases 1024 2 x) as [(E1 & E2 & _)|[(E1 & E2 & _)|(_ & E1)]]; [..|done].
    + assert (2048 * (x / 2048) + i * 8 + 4 * (x mod 8 / 4) + 2 ≤ x <
              2048 * (x / 2048) + i * 8 + 4 * (x mod 8 / 4) + 4)%nat as Ex by dlia.
      move_pair 2%nat (x / 2048)%nat (x mod 8 / 4)%nat Ex.
    + assert (2048 * (x / 2048) + 1024 + i * 8 + 4 * (x mod 8 / 4) ≤ x <
              2048 * (x / 2048) + 1024 + i * 8 + 4 * (x mod 8 / 4) + 2)%nat as Ex by dlia.
      move_pair 2%nat (x / 2048)%nat (x mod 8 / 4)%nat Ex.
Qed.

Lemma stage_64_spec tmp set :
  length tmp = 4%nat → length set = set_len →
  ∃ tmp' set', stage_64 (tmp, set) = (tmp', set') ∧
    length tmp' = 4%nat ∧ length set' = set_len ∧
    ∀ x, (x < set_len)%nat → set' !! x = set !! word_digit 512 1 x.
Proof.
  apply (word_stage_spec 512 1 64 pairs_64); try lia; unfold set_len.
  - intros i. apply flat_NoDup; [|by vm_compute]. unfold pairs_64. shift_pairs.
  - intros i Hi. unfold pairs_64. each_pair; lia.
  - intros i Hi. unfold pairs_64. check_rows.
  - intros i x Hi Hx E Hne. unfold pairs_64.
    destruct (word_digit_cases 512 1 x) as [(E1 & E2 & _)|[(E1 & E2 & _)|(_ & E1)]]; [..|done].
    + assert (x = 1024 * (x / 1024) + i * 8 + 2 * (x mod 8 / 2) + 1)%nat as Ex by dlia.
      move_pair 4%nat (x / 1024)%nat (x mod 8 / 2)%nat Ex.
    + assert (x = 1024 * (x / 1024) + 512 + i * 8 + 2 * (x mod 8 / 2))%nat as Ex by dlia.
      move_pair 4%nat (x / 1024)%nat (x mod 8 / 2)%nat Ex.
Qed.
