(* ===== verification/Transpose.v ===== *)
(** * The transposition of bit matrices is a transposition

    Proofs about the definitions of [BitVect]: [transpose] moves the bit at row
    [r], column [c] to row [c], column [r], and so do the concurrent
    transpositions of tall and wide byte matrices. *)
From S2P Require Import Prelude Words BitVect.

(** The bit at row [r] and column [c] of a [BitVect]. *)
Definition bit (v : list Z) (rc : nat * nat) : bool :=
  Z.testbit (v !!! (8 * rc.1 + rc.2 / 64)%nat) (Z.of_nat (rc.2 mod 64)).

Definition within (n : nat) (rc : nat * nat) : Prop := (rc.1 < n ∧ rc.2 < n)%nat.

Abbreviation words_ok := (Forall (λ w, 0 ≤ w < 2 ^ 64)).

Lemma sw_within k n rc : (k < n)%nat → within (2 ^ n) rc → within (2 ^ n) (sw k rc).
Proof.
  destruct rc as [r c]. intros Hk [Hr Hc]. destruct (sw k (r, c)) as [r' c'] eqn:E.
  exact (sw_bound k n r c r' c' Hk Hr Hc E).
Qed.

Lemma lookup_total_eq (v v' : list Z) x y : v' !! x = v !! y → v' !!! x = v !!! y.
Proof. intros E. by rewrite !list_lookup_total_alt, E. Qed.

(** ** The word-level stages *)
Ltac pow_consts :=
  change (2 ^ 6)%nat with 64%nat in *; change (2 ^ 7)%nat with 128%nat in *;
  change (2 ^ 8)%nat with 256%nat in *; change (2 ^ (6 - 6))%nat with 1%nat in *;
  change (2 ^ (7 - 6))%nat with 2%nat in *; change (2 ^ (8 - 6))%nat with 4%nat in *.

Lemma sw_spec k r c :
  (digit k r = 0 ∧ digit k c = 1 ∧ sw k (r, c) = (r + 2 ^ k, c - 2 ^ k) ∨
   digit k r = 1 ∧ digit k c = 0 ∧ sw k (r, c) = (r - 2 ^ k, c + 2 ^ k) ∨
   digit k r = digit k c ∧ sw k (r, c) = (r, c))%nat.
Proof.
  unfold sw. rewrite !digit_testbit.
  destruct (Nat.testbit r k), (Nat.testbit c k); cbn [Nat.b2n]; tauto.
Qed.

Lemma word_stage_bit k v v' :
  (k = 6 ∨ k = 7 ∨ k = 8)%nat →
  (∀ x, (x < set_len)%nat → v' !! x = v !! word_digit (8 * 2 ^ k) (2 ^ (k - 6)) x) →
  ∀ rc, within 512 rc → bit v' rc = bit v (sw k rc).
Proof.
  intros Hk Hv [r c] [Hr Hc]. cbn [fst snd] in Hr, Hc. unfold bit. cbn [fst snd].
  set (x := (8 * r + c / 64)%nat).
  assert (x < set_len)%nat as Hx by (unfold x, set_len; dlia).
  rewrite (lookup_total_eq _ _ _ _ (Hv x Hx)).
  assert ((sw k (r, c)).2 mod 64 = c mod 64 ∧
          8 * (sw k (r, c)).1 + (sw k (r, c)).2 / 64 = word_digit (8 * 2 ^ k) (2 ^ (k - 6)) x)%nat
    as [E1 E2]; [|by rewrite E1, E2].
  assert ((x / (8 * 2 ^ k)) mod 2 = digit k r ∧ (x / (2 ^ (k - 6))) mod 2 = digit k c)%nat
    as [Dr Dc].
  { unfold x, digit. destruct Hk as [->|[->| ->]]; pow_consts; split; dlia. }
  unfold word_digit. rewrite Dr, Dc.
  destruct (sw_spec k r c) as [(E1 & E2 & ->)|[(E1 & E2 & ->)|(E & ->)]]; cbn [fst snd].
  - rewrite E1, E2. unfold digit, x in *. clear Dr Dc Hx Hv.
    destruct Hk as [->|[->| ->]]; pow_consts; split; dlia.
  - rewrite E1, E2. unfold digit, x in *. clear Dr Dc Hx Hv.
    destruct Hk as [->|[->| ->]]; pow_consts; split; dlia.
  - rewrite E. split; [done|]. by destruct (digit k c).
Qed.

(** ** The masked swaps *)
Definition swap_mask (p q mask : Z) (w : nat) : Z :=
  Z.land (Z.lxor p (u64 (Z.shiftl q (Z.of_nat w)))) mask.
Definition swap_fst (p q mask : Z) (w : nat) : Z := Z.lxor p (swap_mask p q mask w).
Definition swap_snd (p q mask : Z) (w : nat) : Z :=
  Z.lxor q (Z.shiftr (swap_mask p q mask w) (Z.of_nat w)).

Lemma swaps_spec jmp mask w ps v :
  NoDup (flat 1 ps) →
  Forall (λ p, jmp + 8 * p.1 < length v ∧ jmp + 8 * p.2 < length v)%nat ps →
  length (swaps jmp mask w ps v) = length v ∧
  (∀ x y, (x, y) ∈ ps →
    let p := v !!! (jmp + 8 * x)%nat in let q := v !!! (jmp + 8 * y)%nat in
    swaps jmp mask w ps v !!! (jmp + 8 * x)%nat = swap_fst p q mask w ∧
    swaps jmp mask w ps v !!! (jmp + 8 * y)%nat = swap_snd p q mask w) ∧
  (∀ z, (∀ r, r ∈ flat 1 ps → z ≠ jmp + 8 * r)%nat → swaps jmp mask w ps v !! z = v !! z).
Proof.
  revert v. induction ps as [|[a b] ps IH]; intros v Hnd Hps.
  { split; [done|]. split; [|done]. intros x y Hin. by apply elem_of_nil in Hin. }
  apply Forall_cons in Hps as [[Ha Hb] Hps]. cbn [fst snd] in Ha, Hb.
  change (flat 1 ((a, b) :: ps)) with ([a; b] ++ flat 1 ps) in *.
  apply NoDup_app in Hnd as (Hab & Hdisj & Hnd).
  assert (a ≠ b) as Hne by (apply NoDup_cons in Hab as [Hab _]; set_solver).
  cbn [swaps fold_left]. set (v1 := swap (jmp + 8 * a) (jmp + 8 * b) v mask w).
  assert (length v1 = length v) as Hl1 by (unfold v1, swap; by rewrite !length_insert).
  assert (v1 !!! (jmp + 8 * a)%nat =
          swap_fst (v !!! (jmp + 8 * a)%nat) (v !!! (jmp + 8 * b)%nat) mask w) as Va.
  { unfold v1, swap. rewrite list_lookup_total_insert_ne by lia.
    by rewrite list_lookup_total_insert_eq by lia. }
  assert (v1 !!! (jmp + 8 * b)%nat =
          swap_snd (v !!! (jmp + 8 * a)%nat) (v !!! (jmp + 8 * b)%nat) mask w) as Vb.
  { unfold v1, swap. rewrite list_lookup_total_insert_eq by (rewrite length_insert; lia).
    by rewrite list_lookup_total_insert_ne by lia. }
  assert (∀ z, z ≠ (jmp + 8 * a)%nat → z ≠ (jmp + 8 * b)%nat → v1 !! z = v !! z) as Vz.
  { intros z Hza Hzb. unfold v1, swap. by rewrite !list_lookup_insert_ne by done. }
  destruct (IH v1) as (IH1 & IH2 & IH3); [done|by rewrite Hl1|].
  fold (swaps jmp mask w ps v1). split; [congruence|]. split.
  - intros x y [[= -> ->]|Hin]%elem_of_cons; cbv zeta.
    + rewrite <-Va, <-Vb. split; apply lookup_total_eq, IH3; intros r Hr;
        assert (r ≠ a ∧ r ≠ b) by (split; intros ->; revert Hr; apply Hdisj; set_solver); lia.
    + assert (x ∈ flat 1 ps ∧ y ∈ flat 1 ps) as [Hx Hy].
      { split; apply list_elem_of_bind; exists (x, y); (split; [set_solver|done]). }
      assert (x ≠ a ∧ x ≠ b ∧ y ≠ a ∧ y ≠ b) as (?&?&?&?).
      { assert (∀ r, r ∈ flat 1 ps → r ≠ a ∧ r ≠ b) as Hr; [|by destruct (Hr x Hx), (Hr y Hy)].
        intros r Hr. split; intros ->; revert Hr; apply Hdisj; set_solver. }
      destruct (IH2 x y Hin) as [E1 E2]. rewrite E1, E2.
      rewrite (lookup_total_eq v v1 _ _ (Vz (jmp + 8 * x)%nat ltac:(lia) ltac:(lia))).
      by rewrite (lookup_total_eq v v1 _ _ (Vz (jmp + 8 * y)%nat ltac:(lia) ltac:(lia))).
  - intros z Hz. rewrite IH3 by (intros; apply Hz; set_solver). apply Vz; apply Hz; set_solver.
Qed.

(** What a list of pairs and a mask must satisfy for digit [k]. *)
Definition stage_ok (k : nat) (mask : Z) (ps : list (nat * nat)) : bool :=
  forallb (λ r, if decide (digit k r = 0)%nat then bool_decide ((r, r + 2 ^ k)%nat ∈ ps)
                else bool_decide ((r - 2 ^ k, r)%nat ∈ ps)) (seq 0 64) &&
  forallb (λ j, Bool.eqb (Z.testbit mask (Z.of_nat j)) (bool_decide (digit k j = 1)%nat)) (seq 0 64) &&
  bool_decide (NoDup (flat 1 ps)) &&
  forallb (λ p, (p.1 <? 64)%nat && (p.2 <? 64)%nat) ps &&
  ((0 <=? mask) && (mask <? 2 ^ 64)).

Lemma stage_ok_spec k mask ps :
  stage_ok k mask ps = true →
  (∀ r, (r < 64)%nat → if decide (digit k r = 0)%nat then (r, r + 2 ^ k)%nat ∈ ps
                       else (r - 2 ^ k, r)%nat ∈ ps) ∧
  (∀ j, (j < 64)%nat → Z.testbit mask (Z.of_nat j) = bool_decide (digit k j = 1)%nat) ∧
  NoDup (flat 1 ps) ∧ Forall (λ p, p.1 < 64 ∧ p.2 < 64)%nat ps ∧ 0 ≤ mask < 2 ^ 64.
Proof.
  unfold stage_ok. rewrite !andb_true_iff, !forallb_forall, bool_decide_eq_true.
  intros ((((H1 & H2) & H3) & H4) & H5). split_and!.
  - intros r Hr. specialize (H1 r). rewrite in_seq in H1. specialize (H1 ltac:(lia)).
    case_decide; by apply bool_decide_eq_true in H1.
  - intros j Hj. specialize (H2 j). rewrite in_seq in H2. by apply Bool.eqb_prop, H2; lia.
  - done.
  - apply Forall_forall. intros p Hp. specialize (H4 p ltac:(by apply list_elem_of_In)).
    apply andb_true_iff in H4 as [Ha%Nat.ltb_lt Hb%Nat.ltb_lt]. done.
  - apply Z.leb_le, H5.
  - apply Z.ltb_lt, H5.
Qed.

Lemma digit_cases k c : (digit k c = 0 ∨ digit k c = 1)%nat.
Proof. unfold digit. dlia. Qed.

Lemma digit_1_le k c : digit k c = 1%nat → (2 ^ k ≤ c)%nat.
Proof.
  unfold digit. intros H. destruct (decide (c < 2 ^ k)%nat); [|lia].
  rewrite Nat.div_small in H by done. done.
Qed.

Lemma digit_sub k c : digit k c = 1%nat → digit k (c - 2 ^ k) = 0%nat.
Proof.
  rewrite !digit_testbit. destruct (Nat.testbit c k) eqn:E; [|done]. intros _.
  by rewrite testbit_sub_pow2, decide_True.
Qed.

Lemma digit_add k c : digit k c = 0%nat → digit k (c + 2 ^ k) = 1%nat.
Proof.
  rewrite !digit_testbit. destruct (Nat.testbit c k) eqn:E; [done|]. intros _.
  by rewrite testbit_add_pow2, decide_True.
Qed.

Lemma digit_0_add_lt k c : (k < 6)%nat → (c < 64)%nat → digit k c = 0%nat → (c + 2 ^ k < 64)%nat.
Proof.
  intros k_lt Hc Hd. pose proof (sw_bound k 6 (2 ^ k) c 0 (c + 2 ^ k)) as Hb.
  change (2 ^ 6)%nat with 64%nat in Hb. apply Hb; try done.
  - change 64%nat with (2 ^ 6)%nat. by apply Nat.pow_lt_mono_r; [lia|].
  - unfold sw. rewrite Hd. unfold digit at 1. rewrite Nat.div_same by (apply Nat.pow_nonzero; lia).
    cbn. by rewrite Nat.sub_diag.
Qed.

Section MaskedSwap.
Context (k : nat) (mask p q : Z).
Hypothesis k_lt : (k < 6)%nat.
Hypothesis mask_digit :
  ∀ j, (j < 64)%nat → Z.testbit mask (Z.of_nat j) = bool_decide (digit k j = 1)%nat.
Hypothesis mask_range : 0 ≤ mask < 2 ^ 64.

Lemma swap_mask_bit i :
  (i < 64)%nat →
  Z.testbit (swap_mask p q mask (2 ^ k)) (Z.of_nat i) =
    bool_decide (digit k i = 1)%nat &&
    xorb (Z.testbit p (Z.of_nat i)) (Z.testbit q (Z.of_nat (i - 2 ^ k))).
Proof.
  intros Hi. unfold swap_mask. rewrite Z.land_spec, mask_digit, andb_comm by done.
  case_bool_decide as Hd; [|done]. cbn [andb]. rewrite Z.lxor_spec. f_equal.
  unfold u64, wrap. pose proof (digit_1_le _ _ Hd).
  rewrite testbit_mod_pow2, bool_decide_true, Z.shiftl_spec by lia.
  cbn [andb]. f_equal. lia.
Qed.

Lemma swap_mask_high i :
  64 ≤ i → Z.testbit (swap_mask p q mask (2 ^ k)) i = false.
Proof.
  intros Hi. apply (testbit_high _ 64); [|done].
  unfold swap_mask. by apply land_bounded_r.
Qed.

Lemma swap_fst_bit c :
  (c < 64)%nat →
  Z.testbit (swap_fst p q mask (2 ^ k)) (Z.of_nat c) =
    if decide (digit k c = 1)%nat then Z.testbit q (Z.of_nat (c - 2 ^ k))
    else Z.testbit p (Z.of_nat c).
Proof.
  intros Hc. unfold swap_fst. rewrite Z.lxor_spec, swap_mask_bit by done.
  case_decide as Hd; [rewrite bool_decide_true by done|rewrite bool_decide_false by done].
  - by destruct (Z.testbit p _), (Z.testbit q _).
  - by rewrite andb_false_l, xorb_false_r.
Qed.

Lemma swap_snd_bit c :
  (c < 64)%nat →
  Z.testbit (swap_snd p q mask (2 ^ k)) (Z.of_nat c) =
    if decide (digit k c = 1)%nat then Z.testbit q (Z.of_nat c)
    else Z.testbit p (Z.of_nat (c + 2 ^ k)).
Proof.
  intros Hc. unfold swap_snd. rewrite Z.lxor_spec, Z.shiftr_spec, <-Nat2Z.inj_add by lia.
  destruct (digit_cases k c) as [Hd|Hd].
  - rewrite decide_False by lia. rewrite swap_mask_bit by (by apply digit_0_add_lt).
    rewrite bool_decide_true by (by apply digit_add).
    replace (c + 2 ^ k - 2 ^ k)%nat with c by lia.
    by destruct (Z.testbit p _), (Z.testbit q _).
  - rewrite decide_True by done. destruct (decide (c + 2 ^ k < 64)%nat).
    + rewrite swap_mask_bit by done. rewrite bool_decide_false.
      { by rewrite andb_false_l, xorb_false_r. }
      intros Hd'. apply digit_sub in Hd'. replace (c + 2 ^ k - 2 ^ k)%nat with c in Hd' by lia. lia.
    + rewrite swap_mask_high by lia. apply xorb_false_r.
Qed.
End MaskedSwap.

(** Every word of the matrix stays a 64-bit word. *)
Lemma swap_words_ok a b v mask w :
  0 ≤ mask < 2 ^ 64 → (a < length v)%nat → (b < length v)%nat →
  words_ok v → words_ok (swap a b v mask w).
Proof.
  intros Hm Ha Hb Hv. unfold swap.
  assert (∀ x, (x < length v)%nat → 0 ≤ v !!! x < 2 ^ 64) as Hx.
  { intros x Hx. destruct (lookup_lt_is_Some_2 v x Hx) as [y Hy].
    rewrite (list_lookup_total_correct _ _ _ Hy).
    rewrite Forall_forall in Hv. eapply Hv, list_elem_of_lookup_2, Hy. }
  set (t := Z.land _ mask). assert (0 ≤ t < 2 ^ 64) as Ht by (by apply land_bounded_r).
  assert (0 ≤ Z.shiftr t (Z.of_nat w) < 2 ^ 64) as Hs.
  { rewrite Z.shiftr_div_pow2 by lia. split; [apply Z.div_pos; lia|].
    apply Z.le_lt_trans with t; [|lia]. apply Z.div_le_upper_bound; nia. }
  assert (words_ok (<[a:=Z.lxor (v !!! a) t]> v)) as Hv1.
  { apply Forall_insert; [done|]. apply lxor_bounded; [done|auto|done]. }
  apply Forall_insert; [done|]. apply lxor_bounded; [done| |done].
  destruct (decide (a = b)) as [->|].
  - rewrite list_lookup_total_insert_eq by done. apply lxor_bounded; [done|auto|done].
  - rewrite list_lookup_total_insert_ne by done. auto.
Qed.

Lemma swaps_words_ok jmp mask w ps v :
  0 ≤ mask < 2 ^ 64 →
  Forall (λ p, jmp + 8 * p.1 < length v ∧ jmp + 8 * p.2 < length v)%nat ps →
  words_ok v → words_ok (swaps jmp mask w ps v).
Proof.
  intros Hm. revert v. induction ps as [|[a b] ps IH]; intros v Hps Hv; [done|].
  apply Forall_cons in Hps as [[Ha Hb] Hps]. cbn [fst snd] in Ha, Hb.
  apply (IH (swap (jmp + 8 * a) (jmp + 8 * b) v mask w)); [|by apply swap_words_ok].
  unfold swap. by rewrite !length_insert.
Qed.

(** ** A bit-level stage exchanges one digit inside its 64 by 64 block *)
Definition in_block (blk col : nat) (rc : nat * nat) : Prop :=
  (rc.1 / 64 = blk ∧ rc.2 / 64 = col)%nat.

#[export] Instance in_block_dec blk col rc : Decision (in_block blk col rc).
Proof. unfold in_block. apply _. Defined.

Definition is_stage (k : nat) (stage : nat → list Z → list Z) : Prop :=
  ∃ mask ps, stage_ok k mask ps = true ∧ stage = λ jmp v, swaps jmp mask (2 ^ k) ps v.

Definition matrix_ok (v : list Z) : Prop := length v = set_len ∧ words_ok v.

Lemma sw_block k blk col rc :
  (k < 6)%nat → in_block blk col rc → in_block blk col (sw k rc).
Proof.
  intros Hk [H1 H2]. destruct rc as [r c]. cbn [fst snd] in H1, H2.
  destruct (sw_spec k r c) as [(Dr & Dc & ->)|[(Dr & Dc & ->)|(_ & ->)]]; [..|done];
    unfold in_block; cbn [fst snd];
    pose proof (λ n, digit_0_add_lt k n Hk) as Hadd; pose proof (digit_1_le k) as Hle;
    assert (∀ n, digit k (n mod 64) = digit k n) as Hmod by
      (intros n; rewrite !digit_testbit; change 64%nat with (2 ^ 6)%nat;
       by rewrite Nat.mod_pow2_bits_low by lia).
  - specialize (Hadd (r mod 64)%nat ltac:(dlia) ltac:(by rewrite Hmod)).
    specialize (Hle (c mod 64)%nat ltac:(by rewrite Hmod)).
    generalize dependent (2 ^ k)%nat. intros w. intros. split; dlia.
  - specialize (Hadd (c mod 64)%nat ltac:(dlia) ltac:(by rewrite Hmod)).
    specialize (Hle (r mod 64)%nat ltac:(by rewrite Hmod)).
    generalize dependent (2 ^ k)%nat. intros w. intros. split; dlia.
Qed.

Lemma in_block_index blk col r c :
  in_block blk col (r, c) →
  ∃ r' c', (r' < 64 ∧ c' < 64 ∧ r = 64 * blk + r' ∧ c = 64 * col + c' ∧
            8 * r + c / 64 = blk * (64 * 8) + col + 8 * r' ∧ c mod 64 = c')%nat.
Proof.
  intros [H1 H2]. cbn [fst snd] in *. exists (r mod 64)%nat, (c mod 64)%nat.
  split_and!; dlia.
Qed.

Lemma digit_block k n a : (k < 6)%nat → digit k (64 * a + n) = digit k n.
Proof.
  intros Hk. unfold digit. replace 64%nat with (2 ^ (5 - k) * 2 * 2 ^ k)%nat.
  - replace (2 ^ (5 - k) * 2 * 2 ^ k * a + n)%nat with (n + (2 ^ (5 - k) * a * 2) * 2 ^ k)%nat by lia.
    rewrite Nat.div_add by (apply Nat.pow_nonzero; lia). by rewrite Nat.Div0.mod_add.
  - destruct k as [|[|[|[|[|[|]]]]]]; [reflexivity..|lia].
Qed.

Lemma bit_at v blk col r c :
  (c < 64)%nat →
  bit v (64 * blk + r, 64 * col + c)%nat =
    Z.testbit (v !!! (blk * (64 * 8) + col + 8 * r)%nat) (Z.of_nat c).
Proof.
  intros Hc. unfold bit. cbn [fst snd].
  replace ((64 * col + c) / 64)%nat with col by dlia.
  replace ((64 * col + c) mod 64)%nat with c by dlia.
  by replace (8 * (64 * blk + r) + col)%nat with (blk * (64 * 8) + col + 8 * r)%nat by lia.
Qed.

Section BitStage.
Context (k : nat) (stage : nat → list Z → list Z).
Hypothesis k_lt : (k < 6)%nat.
Hypothesis stage_is : is_stage k stage.
Context (blk col : nat) (v : list Z).
Hypothesis blk_lt : (blk < 8)%nat.
Hypothesis col_lt : (col < 8)%nat.
Hypothesis v_ok : matrix_ok v.

Lemma stage_inside rc :
  in_block blk col rc → bit (stage (blk * (64 * 8) + col)%nat v) rc = bit v (sw k rc).
Proof.
  destruct stage_is as (mask & ps & Hok & ->), v_ok as [Hl _].
  apply stage_ok_spec in Hok as (Hps & Hmask & Hnd & Hrange & Hm).
  destruct rc as [R C]. intros (r & c & Hr & Hc & -> & -> & _)%in_block_index.
  destruct (swaps_spec (blk * (64 * 8) + col)%nat mask (2 ^ k) ps v) as (_ & Hin & _); [done|..].
  { eapply Forall_impl; [exact Hrange|]. intros [a b] Hp. cbn in Hp |- *. unfold set_len in Hl. lia. }
  specialize (Hps r Hr). rewrite bit_at by done. destruct (decide (digit k r = 0)%nat) as [Dr|Dr].
  - destruct (Hin _ _ Hps) as [-> _]. rewrite (swap_fst_bit k) by done.
    destruct (sw_spec k (64 * blk + r) (64 * col + c)) as [(_ & Dc & ->)|[(Dr' & _ & _)|(Dc & ->)]];
      rewrite digit_block in *; try done.
    + pose proof (digit_1_le k c Dc). rewrite decide_True by done.
      replace (64 * col + c - 2 ^ k)%nat with (64 * col + (c - 2 ^ k))%nat by lia.
      by rewrite <-(Nat.add_assoc (64 * blk)), bit_at by lia.
    + congruence.
    + rewrite digit_block in Dc by done. rewrite decide_False by lia. by rewrite bit_at.
  - assert (digit k r = 1)%nat as Dr1 by (destruct (digit_cases k r); done).
    pose proof (digit_1_le k r Dr1).
    destruct (Hin _ _ Hps) as [_ E]. replace (r - 2 ^ k + 2 ^ k)%nat with r in E by lia.
    rewrite E, (swap_snd_bit k) by done.
    destruct (sw_spec k (64 * blk + r) (64 * col + c)) as [(Dr' & _ & _)|[(_ & Dc & ->)|(Dc & ->)]];
      rewrite digit_block in *; try done.
    + rewrite decide_False by lia. pose proof (digit_0_add_lt k c k_lt Hc Dc).
      replace (64 * blk + r - 2 ^ k)%nat with (64 * blk + (r - 2 ^ k))%nat by lia.
      by rewrite <-(Nat.add_assoc (64 * col)), bit_at by done.
    + rewrite digit_block in Dc by done. rewrite decide_True by lia. by rewrite bit_at.
Qed.

Lemma stage_outside rc :
  within 512 rc → ¬ in_block blk col rc →
  bit (stage (blk * (64 * 8) + col)%nat v) rc = bit v rc.
Proof.
  destruct stage_is as (mask & ps & Hok & ->), v_ok as [Hl _].
  apply stage_ok_spec in Hok as (_ & _ & Hnd & Hrange & _).
  destruct (swaps_spec (blk * (64 * 8) + col)%nat mask (2 ^ k) ps v) as (_ & _ & Hout); [done|..].
  { eapply Forall_impl; [exact Hrange|]. intros [a b] Hp. cbn in Hp |- *. unfold set_len in Hl. lia. }
  destruct rc as [R C]. intros [_ HC] Hno. cbn [fst snd] in HC. unfold bit. cbn [fst snd].
  rewrite (lookup_total_eq v _ _ (8 * R + C / 64)); [done|]. apply Hout.
  intros r Hr ?. apply Hno. apply (flat_sub 1 ps 64) in Hr.
  - split; cbn [fst snd]; dlia.
  - eapply Forall_impl; [exact Hrange|]. intros [a b] Hp. cbn in Hp |- *. lia.
Qed.

Lemma stage_matrix_ok : matrix_ok (stage (blk * (64 * 8) + col)%nat v).
Proof.
  destruct stage_is as (mask & ps & Hok & ->), v_ok as [Hl Hw].
  apply stage_ok_spec in Hok as (_ & _ & Hnd & Hrange & Hm).
  assert (Forall (λ p, blk * (64 * 8) + col + 8 * p.1 < length v ∧
                       blk * (64 * 8) + col + 8 * p.2 < length v)%nat ps) as Hps.
  { eapply Forall_impl; [exact Hrange|]. intros [a b] Hp. cbn in Hp |- *. unfold set_len in Hl. lia. }
  split; [|by apply swaps_words_ok].
  destruct (swaps_spec (blk * (64 * 8) + col)%nat mask (2 ^ k) ps v) as (-> & _); done.
Qed.
End BitStage.

(** The six runs of swaps of [transpose64] are the stages of digits 5 to 0. *)
Lemma stage_ok_is k mask ps :
  stage_ok k mask ps = true → is_stage k (λ jmp, swaps jmp mask (2 ^ k) ps).
Proof. intros H. by exists mask, ps. Qed.

Lemma stages_ok :
  is_stage 5 swap_stage_32 ∧ is_stage 4 swap_stage_16 ∧ is_stage 3 swap_stage_8 ∧
  is_stage 2 swap_stage_4 ∧ is_stage 1 swap_stage_2 ∧ is_stage 0 swap_stage_1.
Proof. split_and!; apply stage_ok_is; by vm_compute. Qed.

(** Running stages one after the other. *)
Definition run_stages (stages : list (nat → list Z → list Z)) (jmp : nat) (v : list Z) : list Z :=
  fold_left (λ v stage, stage jmp v) stages v.

Lemma run_stages_bit blk col ks stages v :
  (blk < 8)%nat → (col < 8)%nat → Forall (λ k, k < 6)%nat ks → Forall2 is_stage ks stages →
  matrix_ok v →
  let v' := run_stages stages (blk * (64 * 8) + col)%nat v in
  matrix_ok v' ∧
  (∀ rc, in_block blk col rc → bit v' rc = bit v (sws ks rc)) ∧
  (∀ rc, within 512 rc → ¬ in_block blk col rc → bit v' rc = bit v rc).
Proof.
  intros Hblk Hcol Hks Hst. revert v.
  induction Hst as [|k stage ks stages Hk _ IH]; intros v Hv; cbn [run_stages fold_left]; [done|].
  apply Forall_cons in Hks as [Hk6 Hks].
  pose proof (stage_matrix_ok k stage Hk6 Hk blk col v Hblk Hcol Hv) as Hv'.
  destruct (IH Hks _ Hv') as (H1 & H2 & H3). unfold run_stages in *. split; [done|]. split.
  - intros rc Hrc. rewrite H2 by done. apply (stage_inside k stage); try done.
    clear - Hrc Hks. induction Hks; [done|]. by apply sw_block.
    - intros rc Hw Hrc. rewrite H3 by done. by apply (stage_outside k stage).
Qed.

Lemma transpose64_run blk col v :
  transpose64 v blk col =
  run_stages [swap_stage_32; swap_stage_16; swap_stage_8; swap_stage_4; swap_stage_2; swap_stage_1]
    (blk * (64 * 8) + col)%nat v.
Proof. unfold transpose64, run_stages. cbn [fold_left]. reflexivity. Qed.

Lemma transpose64_bit blk col v :
  (blk < 8)%nat → (col < 8)%nat → matrix_ok v →
  matrix_ok (transpose64 v blk col) ∧
  ∀ rc, within 512 rc →
    bit (transpose64 v blk col) rc =
      if decide (in_block blk col rc) then bit v (sws [5; 4; 3; 2; 1; 0]%nat rc) else bit v rc.
Proof.
  intros Hblk Hcol Hv. rewrite transpose64_run.
  destruct (run_stages_bit blk col [5; 4; 3; 2; 1; 0]%nat
    [swap_stage_32; swap_stage_16; swap_stage_8; swap_stage_4; swap_stage_2; swap_stage_1] v)
    as (H1 & H2 & H3); [done|done|repeat constructor|..].
  - destruct stages_ok as (?&?&?&?&?&?). by repeat constructor.
  - done.
  - split; [done|]. intros rc Hrc. case_decide; auto.
Qed.

(** The 64 calls of [transpose64]. *)
Lemma blocks_bit v :
  matrix_ok v →
  let v' := for_loop (λ blk v, for_loop (λ col v, transpose64 v blk col) 0 8 v) 0 8 v in
  matrix_ok v' ∧
  ∀ rc, within 512 rc → bit v' rc = bit v (sws [5; 4; 3; 2; 1; 0]%nat rc).
Proof.
  intros Hv. set (I := λ (done_ : nat * nat → Prop) v', matrix_ok v' ∧ ∀ rc, within 512 rc →
    (done_ rc → bit v' rc = bit v (sws [5; 4; 3; 2; 1; 0]%nat rc)) ∧
    (¬ done_ rc → bit v' rc = bit v rc)).
  enough (I (λ rc, (rc.1 / 64 < 0 + 8)%nat)
    (for_loop (λ blk v, for_loop (λ col v, transpose64 v blk col) 0 8 v) 0 8 v)) as [H1 H2].
  { split; [done|]. intros rc Hrc. apply H2; [done|]. destruct rc, Hrc; cbn [fst snd] in *. dlia. }
  apply (for_loop_invariant (λ blk, I (λ rc, (rc.1 / 64 < blk)%nat))).
  { split; [done|]. intros rc _. split; [lia|done]. }
  intros blk v1 Hblk Hv1.
  pose proof (for_loop_invariant
    (λ col, I (λ rc, (rc.1 / 64 < blk ∨ rc.1 / 64 = blk ∧ rc.2 / 64 < col)%nat))
    (λ col v, transpose64 v blk col) 0 8 v1) as [H1 H2].
  - destruct Hv1 as [H1 H2]. split; [done|]. intros rc Hrc. destruct (H2 rc Hrc) as [H3 H4].
    split; intros Hd; [apply H3|apply H4]; lia.
  - intros col v2 Hcol [H1 H2].
    destruct (transpose64_bit blk col v2) as [H3 H4]; [lia|lia|done|].
    split; [done|]. intros rc Hrc. rewrite H4 by done. case_decide as Hb.
    + split; [|intros Hno; exfalso; apply Hno; destruct Hb; lia]. intros _.
      assert (in_block blk col (sws [5; 4; 3; 2; 1; 0]%nat rc)) as [Hb1 Hb2].
      { cbn [sws foldr]. repeat (apply sw_block; [lia|]). done. }
      apply H2; [|lia]. cbn [sws foldr].
      change 512%nat with (2 ^ 9)%nat in *. repeat (apply sw_within; [lia|]). done.
    + destruct (H2 rc Hrc) as [H5 H6]. unfold in_block in Hb.
      split; intros Hd; [apply H5|apply H6]; lia.
  - split; [done|]. intros rc Hrc. destruct (H2 rc Hrc) as [H3 H4].
    destruct Hrc as [Hr Hc].
    split; intros Hd; [apply H3|apply H4]; [|lia].
    destruct (decide (rc.1 / 64 < blk)%nat); [by left|right]. split; [lia|]. dlia.
Qed.

Lemma Forall_words v : matrix_ok v ↔ length v = set_len ∧
  ∀ x w, (x < set_len)%nat → v !! x = Some w → 0 ≤ w < 2 ^ 64.
Proof.
  unfold matrix_ok. rewrite Forall_lookup. split; intros [H1 H2]; (split; [done|]).
  - eauto.
  - intros x w Hx. eapply H2; [|done]. rewrite <-H1. by eapply lookup_lt_Some.
Qed.

Lemma word_stage_ok k v v' :
  (k = 6 ∨ k = 7 ∨ k = 8)%nat → matrix_ok v → length v' = set_len →
  (∀ x, (x < set_len)%nat → v' !! x = v !! word_digit (8 * 2 ^ k) (2 ^ (k - 6)) x) →
  matrix_ok v'.
Proof.
  rewrite !Forall_words. intros Hk [Hl Hw] Hl' Hv. split; [done|].
  intros x w Hx. rewrite Hv by done. intros Hw'. eapply Hw; [|done].
  rewrite <-Hl. by eapply lookup_lt_Some.
Qed.

Lemma sws_cons k ks rc : sw k (sws ks rc) = sws (k :: ks) rc.
Proof. reflexivity. Qed.

Lemma sws_within ks rc : Forall (λ k, k < 9)%nat ks → within 512 rc → within 512 (sws ks rc).
Proof.
  change 512%nat with (2 ^ 9)%nat. induction 1 as [|k ks Hk _ IH]; intros Hrc; [done|].
  rewrite <-sws_cons. apply sw_within; auto.
Qed.

(** The three word-level stages together. *)
Lemma word_stages_spec v :
  matrix_ok v →
  ∃ tmp v', stage_64 (stage_128 (stage_256 (replicate 4 0, v))) = (tmp, v') ∧ matrix_ok v' ∧
    ∀ rc, within 512 rc → bit v' rc = bit v (sws [8; 7; 6]%nat rc).
Proof.
  intros Hv.
  destruct (stage_256_spec (replicate 4 0) v) as (t1 & v1 & -> & Ht1 & Hl1 & Hv1); [done|apply Hv|].
  destruct (stage_128_spec t1 v1) as (t2 & v2 & -> & Ht2 & Hl2 & Hv2); [done|done|].
  destruct (stage_64_spec t2 v2) as (t3 & v3 & -> & Ht3 & Hl3 & Hv3); [done|done|].
  pose proof (word_stage_ok 8 v v1 ltac:(tauto) Hv Hl1 Hv1) as Ok1.
  pose proof (word_stage_ok 7 v1 v2 ltac:(tauto) Ok1 Hl2 Hv2) as Ok2.
  pose proof (word_stage_ok 6 v2 v3 ltac:(tauto) Ok2 Hl3 Hv3) as Ok3.
  exists t3, v3. split; [done|]. split; [done|]. intros rc Hrc.
  rewrite (word_stage_bit 6 v2 v3 ltac:(tauto) Hv3 rc Hrc).
  rewrite (word_stage_bit 7 v1 v2 ltac:(tauto) Hv2).
  - rewrite (word_stage_bit 8 v v1 ltac:(tauto) Hv1); [done|].
    change 512%nat with (2 ^ 9)%nat in *. do 2 (apply sw_within; [lia|]). done.
  - change 512%nat with (2 ^ 9)%nat in *. apply sw_within; [lia|done].
Qed.

Lemma sws_app ks ls rc : sws ks (sws ls rc) = sws (ks ++ ls) rc.
Proof. unfold sws. by rewrite foldr_app. Qed.

Lemma all_digits_transpose r c :
  within 512 (r, c) → sws [8; 7; 6; 5; 4; 3; 2; 1; 0]%nat (r, c) = (c, r).
Proof.
  intros [Hr Hc]. change 512%nat with (2 ^ 9)%nat in *. apply (sws_transpose 9); [done|done|..].
  - repeat (apply NoDup_cons; split; [rewrite ?not_elem_of_cons; split_and?; try lia; apply not_elem_of_nil|]).
    apply NoDup_nil_2.
  - intros i Hi. rewrite !elem_of_cons. lia.
Qed.

(** [transpose] keeps a matrix of 64-bit words and transposes its bits. *)
Lemma transpose_spec v :
  matrix_ok v → matrix_ok (transpose v) ∧ ∀ r c, within 512 (r, c) →
    bit (transpose v) (r, c) = bit v (c, r).
Proof.
  intros Hv. unfold transpose.
  destruct (word_stages_spec v Hv) as (tmp & v1 & -> & Ok1 & H1).
  destruct (blocks_bit v1 Ok1) as [Ok2 H2]. split; [exact Ok2|]. intros r c Hrc.
  rewrite (H2 (r, c) Hrc), H1.
  - by rewrite sws_app, all_digits_transpose.
  - apply sws_within; [repeat constructor; lia|done].
Qed.
