(* ===== verification/BitMatrix.v ===== *)
(** * Transposition of tall and wide byte matrices

    What [transpose], [ConcurrentTransposeTall] and [ConcurrentTransposeWide] of
    [BitVect] compute, bit by bit, for every number of workers and every
    interleaving of their block steps. *)
From S2P Require Import Prelude Words BitVect Transpose.

(** A matrix of [rows] rows of [cols] bytes, and its bit at a row and a column. *)
Definition byte_matrix (rows cols : nat) (m : list (list Z)) : Prop :=
  length m = rows ∧ Forall (λ row, length row = cols ∧ bytes_ok row) m.

Definition mbit (m : list (list Z)) (r c : nat) : bool :=
  Z.testbit ((m !!! r) !!! (c / 8)%nat) (Z.of_nat (c mod 8)).

Lemma byte_matrix_row rows cols m r :
  byte_matrix rows cols m → (r < rows)%nat →
  m !! r = Some (m !!! r) ∧ length (m !!! r) = cols ∧ bytes_ok (m !!! r).
Proof.
  intros [Hl Hm] Hr. assert (m !! r = Some (m !!! r)) as E.
  { apply list_lookup_lookup_total_lt. lia. }
  split; [done|]. rewrite Forall_forall in Hm. eapply Hm, list_elem_of_lookup_2, E.
Qed.

Lemma index_row rows cols m r :
  byte_matrix rows cols m → (r < rows)%nat → index m (Z.of_nat r) = Ok (m !!! r).
Proof.
  intros Hm Hr. apply index_Ok. split; [lia|]. rewrite Nat2Z.id.
  by eapply byte_matrix_row.
Qed.

(** ** Bits of words and of their bytes *)
Lemma testbit_byte_add b v i :
  byte_ok b →
  Z.testbit (b + 256 * v) (Z.of_nat i) =
    if decide (i < 8)%nat then Z.testbit b (Z.of_nat i) else Z.testbit v (Z.of_nat (i - 8)).
Proof.
  intros Hb. unfold byte_ok in Hb. change 256 with (2 ^ 8) in *. case_decide.
  - rewrite <-(Z.mod_pow2_bits_low (b + 2 ^ 8 * v) 8) by lia.
    rewrite (Z.mul_comm (2 ^ 8)), Z.mod_add by lia. by rewrite Z.mod_small.
  - replace (Z.of_nat i) with (Z.of_nat (i - 8) + 8) by lia. rewrite <-Z.div_pow2_bits by lia.
    rewrite (Z.mul_comm (2 ^ 8)), Z.div_add by lia. by rewrite Z.div_small.
Qed.

Lemma le_get_bit bs i :
  bytes_ok bs → (i < 8 * length bs)%nat →
  Z.testbit (le_get bs) (Z.of_nat i) = Z.testbit (bs !!! (i / 8)%nat) (Z.of_nat (i mod 8)).
Proof.
  intros Hbs. revert i. induction Hbs as [|b bs Hb _ IH]; intros i; cbn [le_get length]; intros Hi.
  { lia. }
  rewrite testbit_byte_add by done. case_decide.
  - by rewrite Nat.div_small, Nat.mod_small by done.
  - rewrite IH by lia. replace (i / 8)%nat with (S ((i - 8) / 8)) by dlia.
    by replace (i mod 8)%nat with ((i - 8) mod 8)%nat by dlia.
Qed.

Lemma le_put_bit n v i :
  (i < 8 * n)%nat →
  Z.testbit (le_put n v !!! (i / 8)%nat) (Z.of_nat (i mod 8)) = Z.testbit v (Z.of_nat i).
Proof.
  revert v i. induction n as [|n IH]; intros v i Hi; [lia|]. cbn [le_put].
  destruct (decide (i < 8)%nat).
  - rewrite Nat.div_small, Nat.mod_small by done.
    change 256 with (2 ^ 8). apply Z.mod_pow2_bits_low. lia.
  - replace (i / 8)%nat with (S ((i - 8) / 8)) by dlia.
    replace (i mod 8)%nat with ((i - 8) mod 8)%nat by dlia. cbn [lookup_total list_lookup_total].
    fold (@lookup_total nat Z (list Z) _ ((i - 8) / 8)%nat (le_put n (v / 256))).
    rewrite IH by lia. change 256 with (2 ^ 8). rewrite Z.div_pow2_bits by lia. f_equal. lia.
Qed.

Lemma list_eq_bits (l k : list Z) :
  length l = length k → bytes_ok l → bytes_ok k →
  (∀ i, (i < 8 * length l)%nat →
    Z.testbit (l !!! (i / 8)%nat) (Z.of_nat (i mod 8)) =
    Z.testbit (k !!! (i / 8)%nat) (Z.of_nat (i mod 8))) → l = k.
Proof.
  intros Hlen Hl Hk Hbits. rewrite <-(le_put_get l), <-(le_put_get k), Hlen by done. f_equal.
  pose proof (le_get_range l Hl) as Rl. pose proof (le_get_range k Hk) as Rk.
  apply Z.bits_inj'. intros n Hn. destruct (decide (n < 8 * Z.of_nat (length l))).
  - rewrite <-(Z2Nat.id n), !le_get_bit by (try done; lia). apply Hbits. lia.
  - rewrite (testbit_high _ _ _ Rl), (testbit_high _ _ _ Rk) by lia. done.
Qed.

(** Two byte matrices with the same bits are equal. *)
Lemma byte_matrix_eq rows cols m m' :
  byte_matrix rows cols m → byte_matrix rows cols m' →
  (∀ r c, (r < rows)%nat → (c < 8 * cols)%nat → mbit m r c = mbit m' r c) → m = m'.
Proof.
  intros Hm Hm' Hbits. apply list_eq. intros r. destruct (decide (r < rows)%nat).
  - destruct (byte_matrix_row _ _ _ _ Hm l) as (-> & Hl & Hb).
    destruct (byte_matrix_row _ _ _ _ Hm' l) as (-> & Hl' & Hb').
    f_equal. apply list_eq_bits; [congruence|done|done|]. intros i Hi. apply Hbits; [done|lia].
  - destruct Hm as [Hm _], Hm' as [Hm' _]. rewrite !lookup_ge_None_2 by lia. done.
Qed.

(** ** The nested loops over the words *)
Lemma for_words_invariant {T} (I : nat → nat → T → Prop) (f : nat → nat → T → res T) s :
  I 0%nat 0%nat s →
  (∀ i j s, (i < 512)%nat → (j < 8)%nat → I i j s → ∃ s', f i j s = Ok s' ∧ I i (S j) s') →
  (∀ i s, I i 8%nat s → I (S i) 0%nat s) →
  ∃ s', for_words f s = Ok s' ∧ I 512%nat 0%nat s'.
Proof.
  intros H0 Hstep Hrow. unfold for_words.
  destruct (for_res_invariant (λ i, I i 0%nat) (λ i s, for_res (λ j s, f i j s) 0 8 s) 0 512 s)
    as (s' & E & Hs'); [done| |by exists s'].
  intros i s1 Hi Hs1.
  destruct (for_res_invariant (I i) (λ j s, f i j s) 0 8 s1) as (s2 & E & Hs2); [done| |].
  - intros j s2 Hj. apply Hstep; lia.
  - exists s2. split; [done|]. by apply Hrow.
Qed.

Lemma for_res_ext {T} (f g : nat → T → res T) i n s :
  (∀ j s, (i ≤ j < i + n)%nat → f j s = g j s) → for_res f i n s = for_res g i n s.
Proof.
  revert i s. induction n as [|n IH]; intros i s Hfg; cbn [for_res]; [done|].
  rewrite Hfg by lia. destruct (g i s); cbn; [|done|done]. apply IH. intros. apply Hfg. lia.
Qed.

Lemma for_words_ext {T} (f g : nat → nat → T → res T) s :
  (∀ i j s, (i < 512)%nat → (j < 8)%nat → f i j s = g i j s) → for_words f s = for_words g s.
Proof. intros Hfg. apply for_res_ext. intros i s1 Hi. apply for_res_ext. intros. apply Hfg; lia. Qed.

(** Loading: each iteration stores one word. *)
Lemma for_words_load (w : nat → nat → Z) (f : nat → nat → list Z → res (list Z)) s :
  length s = set_len →
  (∀ i j, (i < 512)%nat → (j < 8)%nat → 0 ≤ w i j < 2 ^ 64) →
  (∀ i j s, (i < 512)%nat → (j < 8)%nat → f i j s = store s (Z.of_nat (i * 8 + j)) (w i j)) →
  ∃ s', for_words f s = Ok s' ∧ matrix_ok s' ∧
    ∀ i c, within 512 (i, c) → bit s' (i, c) = Z.testbit (w i (c / 64)%nat) (Z.of_nat (c mod 64)).
Proof.
  intros Hl Hw Hf.
  destruct (for_words_invariant (λ i j s', length s' = set_len ∧
    ∀ i' j', (j' < 8)%nat → (i' < i ∨ i' = i ∧ j' < j)%nat → s' !! (i' * 8 + j')%nat = Some (w i' j'))
    f s) as (s' & E & Hs' & Hx).
  - split; [done|]. lia.
  - intros i j s1 Hi Hj [Hs1 Hx1]. rewrite Hf by done.
    rewrite store_Ok by (rewrite Hs1; unfold set_len; lia). eexists; split; [done|].
    split; [by rewrite length_insert|]. intros i' j' Hj' Hdone. rewrite Nat2Z.id.
    destruct (decide (i' * 8 + j' = i * 8 + j)%nat) as [e|e].
    + assert (i' = i ∧ j' = j) as [-> ->] by lia.
      rewrite list_lookup_insert_eq; [done|]. rewrite Hs1. unfold set_len. lia.
    + rewrite list_lookup_insert_ne by done. apply Hx1; [done|].
      destruct Hdone as [|[-> ?]]; [by left|right]. split; [done|]. lia.
  - intros i s1 [Hs1 Hx1]. split; [done|]. intros i' j' Hj' Hdone. apply Hx1; [done|]. lia.
  - exists s'. split; [done|]. split.
    + apply Forall_words. split; [done|]. intros x z Hxl Hz.
      specialize (Hx (x / 8) (x mod 8))%nat. replace (x / 8 * 8 + x mod 8)%nat with x in Hx by dlia.
      assert (x / 8 < 512 ∧ x mod 8 < 8)%nat as [? ?] by (clear - Hxl; unfold set_len in Hxl; dlia).
      rewrite Hx in Hz by lia. injection Hz as <-. by apply Hw.
    + intros i c [Hi Hc]. cbn [fst snd] in Hi, Hc. unfold bit. cbn [fst snd].
      specialize (Hx i (c / 64)%nat ltac:(dlia) ltac:(lia)). rewrite Nat.mul_comm.
      by rewrite (list_lookup_total_correct _ _ _ Hx).
Qed.

(** Storing: iteration [(i, j)] puts word [j] of row [i] at row [ro + i],
    bytes [lo + 8 * j ..]. *)
Lemma put_word_spec rows cols m r lo v :
  byte_matrix rows cols m → (r < rows)%nat → (lo + 8 ≤ cols)%nat →
  ∃ m', put_word m r lo v = Ok m' ∧ byte_matrix rows cols m' ∧
    ∀ r' c, (r' < rows)%nat → (c < 8 * cols)%nat →
      mbit m' r' c =
        if decide (r' = r ∧ 8 * lo ≤ c < 8 * lo + 64)%nat
        then Z.testbit v (Z.of_nat (c - 8 * lo)) else mbit m r' c.
Proof.
  intros Hm Hr Hlo. unfold put_word. destruct (byte_matrix_row _ _ _ _ Hm Hr) as (Er & Hl & Hb).
  rewrite (index_row _ _ _ _ Hm Hr). cbn [res_bind]. unfold go_slice.
  rewrite bool_decide_true by lia. cbn [res_bind].
  rewrite store_Ok by (destruct Hm; lia). rewrite Nat2Z.id. eexists; split; [done|].
  set (row := put_at (m !!! r) lo (le_put 8 v)).
  assert (length row = cols) as Hrow by (unfold row; rewrite length_put_at; rewrite ?length_le_put; lia).
  split.
  - destruct Hm as [Hml Hmf]. split; [by rewrite length_insert|]. apply Forall_insert; [done|].
    split; [done|]. unfold row, put_at. rewrite !Forall_app.
    split_and!; [by apply Forall_take|apply (le_put_bytes_ok 8)|by apply Forall_drop].
  - intros r' c Hr' Hc. unfold mbit. destruct (decide (r' = r)) as [->|Hne].
    + rewrite list_lookup_total_insert_eq by (destruct Hm; lia).
      assert (row !! (c / 8)%nat = _) as Erow by (apply lookup_put_at; rewrite length_le_put; lia).
      rewrite length_le_put in Erow. destruct (decide (r = r ∧ _)) as [Hd|Hd].
      * rewrite decide_True in Erow by dlia.
        rewrite (lookup_total_eq _ _ _ _ Erow). rewrite <-(le_put_bit 8 v (c - 8 * lo)) by lia.
        replace ((c - 8 * lo) / 8)%nat with (c / 8 - lo)%nat by dlia.
        by replace ((c - 8 * lo) mod 8)%nat with (c mod 8)%nat by dlia.
      * rewrite decide_False in Erow by dlia. by rewrite (lookup_total_eq _ _ _ _ Erow).
    + rewrite list_lookup_total_insert_ne by done. by rewrite decide_False by tauto.
Qed.

Lemma for_words_put rows cols ro lo (w : nat → nat → Z) m :
  byte_matrix rows cols m → (ro + 512 ≤ rows)%nat → (lo + 64 ≤ cols)%nat →
  ∃ m', for_words (λ i j m, put_word m (ro + i) (lo + j * 8) (w i j)) m = Ok m' ∧
    byte_matrix rows cols m' ∧
    ∀ r c, (r < rows)%nat → (c < 8 * cols)%nat →
      mbit m' r c =
        if decide (ro ≤ r < ro + 512 ∧ 8 * lo ≤ c < 8 * lo + 512)%nat
        then Z.testbit (w (r - ro) ((c - 8 * lo) / 64))%nat (Z.of_nat ((c - 8 * lo) mod 64))
        else mbit m r c.
Proof.
  intros Hm Hro Hlo.
  set (done_ i j r c := (ro ≤ r < ro + 512 ∧ 8 * lo ≤ c < 8 * lo + 512 ∧
    (r - ro < i ∨ r - ro = i ∧ (c - 8 * lo) / 64 < j))%nat).
  assert (∀ i j r c, Decision (done_ i j r c)) by (unfold done_; apply _).
  set (val r c := Z.testbit (w (r - ro) ((c - 8 * lo) / 64))%nat (Z.of_nat ((c - 8 * lo) mod 64))).
  destruct (for_words_invariant (λ i j m', byte_matrix rows cols m' ∧
    ∀ r c, (r < rows)%nat → (c < 8 * cols)%nat →
      (done_ i j r c → mbit m' r c = val r c) ∧ (¬ done_ i j r c → mbit m' r c = mbit m r c))
    (λ i j m, put_word m (ro + i) (lo + j * 8) (w i j)) m) as (m' & E & Hm' & Hb).
  - split; [done|]. intros r c _ _. split; [|done]. unfold done_. lia.
  - intros i j m1 Hi Hj [Hm1 Hb1].
    destruct (put_word_spec rows cols m1 (ro + i) (lo + j * 8) (w i j)) as (m2 & E2 & Hm2 & Hb2);
      [done|lia|lia|].
    exists m2. split; [done|]. split; [done|]. intros r c Hr Hc.
    rewrite Hb2 by done. destruct (Hb1 r c Hr Hc) as [H1 H2]. unfold done_ in *.
    destruct (decide (r = (ro + i)%nat ∧ _)) as [[-> Hc']|Hno].
    + assert (c - 8 * lo = 64 * j + (c - 8 * (lo + j * 8)))%nat as Ec by lia.
      split; [|intros Hn; exfalso; apply Hn; dlia]. intros _. unfold val.
      replace (ro + i - ro)%nat with i by lia.
      replace ((c - 8 * lo) / 64)%nat with j by dlia.
      by replace ((c - 8 * lo) mod 64)%nat with (c - 8 * (lo + j * 8))%nat by dlia.
    + split; intros Hd; [apply H1|apply H2]; dlia.
  - intros i m1 [Hm1 Hb1]. split; [done|]. intros r c Hr Hc.
    destruct (Hb1 r c Hr Hc) as [H1 H2]. unfold done_ in *.
    split; intros Hd; [apply H1|apply H2]; dlia.
  - exists m'. split; [done|]. split; [done|]. intros r c Hr Hc.
    destruct (Hb r c Hr Hc) as [H1 H2]. unfold done_ in *.
    case_decide; [apply H1|apply H2]; lia.
Qed.

(** ** Loading and storing one block *)
Lemma unravel_row rows cols m r lo :
  byte_matrix rows cols m → (r < rows)%nat → (lo + 8 ≤ cols)%nat →
  ∃ bs, go_slice (m !!! r) lo (lo + 8) = Ok bs ∧ 0 ≤ le_get bs < 2 ^ 64 ∧
    ∀ c, (c < 64)%nat → Z.testbit (le_get bs) (Z.of_nat c) = mbit m r (8 * lo + c).
Proof.
  intros Hm Hr Hlo. destruct (byte_matrix_row _ _ _ _ Hm Hr) as (_ & Hl & Hb).
  unfold go_slice. rewrite bool_decide_true by lia. eexists; split; [done|].
  set (bs := slice _ _ _). assert (length bs = 8)%nat as Hbs by (unfold bs; rewrite length_slice; lia).
  assert (bytes_ok bs) as Hok by (by apply slice_bytes_ok). split.
  - pose proof (le_get_range bs Hok) as Hrange. by rewrite Hbs in Hrange.
  - intros c Hc. rewrite le_get_bit by (try done; lia). unfold mbit.
    replace ((8 * lo + c) mod 8)%nat with (c mod 8)%nat by dlia. f_equal.
    unfold bs. rewrite (lookup_total_eq (m !!! r) _ _ (lo + c / 8)) by (apply lookup_slice; dlia).
    f_equal. dlia.
Qed.

(** The words read by [unravel]: row [ro + i], bytes [co + 8 * j ..]. *)
Lemma for_words_unravel rows cols m ro co s :
  byte_matrix rows cols m → (ro + 512 ≤ rows)%nat → (co + 64 ≤ cols)%nat → length s = set_len →
  ∃ s', for_words (λ i j set,
      let! row := index m (Z.of_nat (ro + i)) in
      let! bytes := go_slice row (co + j * 8) (co + (j + 1) * 8) in
      store set (Z.of_nat (i * 8 + j)) (le_get bytes)) s = Ok s' ∧ matrix_ok s' ∧
    ∀ r c, within 512 (r, c) → bit s' (r, c) = mbit m (ro + r) (8 * co + c).
Proof.
  intros Hm Hro Hco Hs.
  set (w i j := le_get (slice (m !!! (ro + i)%nat) (co + j * 8) (co + (j + 1) * 8))).
  assert (∀ i j, (i < 512)%nat → (j < 8)%nat →
    go_slice (m !!! (ro + i)%nat) (co + j * 8) (co + (j + 1) * 8) =
      Ok (slice (m !!! (ro + i)%nat) (co + j * 8) (co + (j + 1) * 8)) ∧
    0 ≤ w i j < 2 ^ 64 ∧ ∀ c, (c < 64)%nat →
      Z.testbit (w i j) (Z.of_nat c) = mbit m (ro + i) (8 * (co + j * 8) + c)) as Hw.
  { intros i j Hi Hj. unfold w. replace (co + (j + 1) * 8)%nat with (co + j * 8 + 8)%nat by lia.
    destruct (unravel_row rows cols m (ro + i) (co + j * 8)) as (bs & E & H); [done|lia|lia|].
    rewrite E. unfold go_slice in E. case_bool_decide; [|done]. injection E as ->. done. }
  match goal with |- ∃ _, for_words ?f _ = _ ∧ _ =>
    destruct (for_words_load w f s) as (s' & E & Hok & Hb) end; [done|..].
  - intros i j Hi Hj. by apply Hw.
  - intros i j s1 Hi Hj. destruct (Hw i j Hi Hj) as (E & _).
    rewrite (index_row _ _ _ _ Hm) by lia. cbn [res_bind]. rewrite E. done.
  - exists s'. split; [done|]. split; [done|]. intros r c [Hr Hc]. cbn [fst snd] in Hr, Hc.
    rewrite Hb by done. destruct (Hw r (c / 64)%nat Hr ltac:(dlia)) as (_ & _ & ->); [|dlia].
    f_equal. dlia.
Qed.

Lemma unravelTall_spec rows cols m idx s :
  byte_matrix rows cols m → (512 * idx + 512 ≤ rows)%nat → (64 ≤ cols)%nat → length s = set_len →
  ∃ s', unravelTall m idx s = Ok s' ∧ matrix_ok s' ∧
    ∀ r c, within 512 (r, c) → bit s' (r, c) = mbit m (512 * idx + r) c.
Proof.
  intros Hm Hr Hc Hs. exact (for_words_unravel rows cols m (512 * idx) 0 s Hm Hr Hc Hs).
Qed.

Lemma unravelWide_spec rows cols m idx s :
  byte_matrix rows cols m → (512 ≤ rows)%nat → (idx * 64 + 64 ≤ cols)%nat → length s = set_len →
  ∃ s', unravelWide m idx s = Ok s' ∧ matrix_ok s' ∧
    ∀ r c, within 512 (r, c) → bit s' (r, c) = mbit m r (512 * idx + c).
Proof.
  intros Hm Hr Hc Hs.
  destruct (for_words_unravel rows cols m 0 (idx * 64) s Hm Hr Hc Hs) as (s' & E & Hok & Hb).
  exists s'. split; [exact E|]. split; [done|]. intros r c Hrc. rewrite Hb by done. f_equal. lia.
Qed.

Lemma ravel_bit (s : list Z) w i c :
  (∀ i j, (i < 512)%nat → (j < 8)%nat → w i j = s !!! (i * 8 + j)%nat) →
  within 512 (i, c) → Z.testbit (w i (c / 64)%nat) (Z.of_nat (c mod 64)) = bit s (i, c).
Proof.
  intros Hw [Hi Hc]. cbn [fst snd] in *. unfold bit. cbn [fst snd].
  rewrite Hw by dlia. by rewrite (Nat.mul_comm 8).
Qed.

Lemma index_word (s : list Z) i j : length s = set_len → (i < 512)%nat → (j < 8)%nat →
  index s (Z.of_nat (i * 8 + j)) = Ok (s !!! (i * 8 + j)%nat).
Proof.
  intros Hl Hi Hj. apply index_Ok. split; [lia|]. rewrite Nat2Z.id.
  apply list_lookup_lookup_total_lt. rewrite Hl. unfold set_len. lia.
Qed.

Lemma ravelToTall_spec rows cols m idx s :
  byte_matrix rows cols m → (512 * idx + 512 ≤ rows)%nat → (64 ≤ cols)%nat → matrix_ok s →
  ∃ m', ravelToTall s idx m = Ok m' ∧ byte_matrix rows cols m' ∧
    ∀ r c, (r < rows)%nat → (c < 512)%nat →
      mbit m' r c = if decide (r / 512 = idx)%nat then bit s (r mod 512, c)%nat else mbit m r c.
Proof.
  intros Hm Hr Hc [Hl _]. set (w i j := s !!! (i * 8 + j)%nat).
  destruct (for_words_put rows cols (512 * idx) 0 w m) as (m' & E & Hm' & Hb); [done|lia|lia|].
  exists m'. split.
  { rewrite <-E. apply for_words_ext. intros i j m1 Hi Hj. rewrite index_word by done. cbn [res_bind].
    f_equal; lia. }
  split; [done|]. intros r c Hr' Hc'. rewrite Hb by lia. repeat case_decide; try dlia; [|done].
  replace (c - 8 * 0)%nat with c by lia. replace (r - 512 * idx)%nat with (r mod 512)%nat by dlia.
  apply ravel_bit; [done|]. split; cbn; dlia.
Qed.

Lemma ravelToWide_spec rows cols m idx s :
  byte_matrix rows cols m → (512 ≤ rows)%nat → (idx * 64 + 64 ≤ cols)%nat → matrix_ok s →
  ∃ m', ravelToWide s idx m = Ok m' ∧ byte_matrix rows cols m' ∧
    ∀ r c, (r < 512)%nat → (c < 8 * cols)%nat →
      mbit m' r c = if decide (c / 512 = idx)%nat then bit s (r, c mod 512)%nat else mbit m r c.
Proof.
  intros Hm Hr Hc [Hl _]. set (w i j := s !!! (i * 8 + j)%nat).
  destruct (for_words_put rows cols 0 (idx * 64) w m) as (m' & E & Hm' & Hb); [done|lia|lia|].
  exists m'. split.
  { rewrite <-E. apply for_words_ext. intros i j m1 Hi Hj. rewrite index_word by done. done. }
  split; [done|]. intros r c Hr' Hc'. rewrite Hb by lia. repeat case_decide; try dlia; [|done].
  replace (r - 0)%nat with r by lia.
  replace (c - 8 * (idx * 64))%nat with (c mod 512)%nat by dlia.
  apply ravel_bit; [done|]. split; cbn; dlia.
Qed.

(** ** The pool of goroutines *)

(** Every worker's blocks are blocks of the matrix, and every block has a worker. *)
Lemma worker_blocks_lt nworkers nblks w blk :
  (w < nworkers)%nat → blk ∈ worker_blocks nworkers nblks w → (blk < nblks)%nat.
Proof.
  intros Hw. unfold worker_blocks. set (k := (nblks / nworkers)%nat).
  assert (k * nworkers ≤ nblks)%nat by (unfold k; rewrite Nat.mul_comm; apply Nat.Div0.mul_div_le).
  case_decide; rewrite elem_of_seq; [lia|]. nia.
Qed.

Lemma worker_blocks_cover nworkers nblks blk :
  (0 < nworkers)%nat → (blk < nblks)%nat →
  ∃ w, (w < nworkers)%nat ∧ blk ∈ worker_blocks nworkers nblks w.
Proof.
  intros Hn Hblk. unfold worker_blocks. set (k := (nblks / nworkers)%nat).
  destruct (decide (k * (nworkers - 1) ≤ blk)%nat).
  - exists (nworkers - 1)%nat. split; [lia|]. rewrite decide_True by done. apply elem_of_seq. lia.
  - assert (k ≠ 0)%nat by lia. exists (blk / k)%nat.
    assert (blk / k < nworkers - 1)%nat by (apply Nat.Div0.div_lt_upper_bound; lia).
    split; [lia|]. rewrite decide_False by lia. apply elem_of_seq.
    pose proof (Nat.div_mod blk k). pose proof (Nat.mod_upper_bound blk k). lia.
Qed.

Lemma pool_jobs_lt nworkers nblks w blk :
  (w, blk) ∈ pool_jobs nworkers nblks → (w < nworkers)%nat ∧ (blk < nblks)%nat.
Proof.
  intros (w' & Hin & Hw')%list_elem_of_bind. apply list_elem_of_fmap in Hin as (b & [= -> ->] & Hb).
  apply elem_of_seq in Hw'. split; [lia|]. eapply worker_blocks_lt; [|done]. lia.
Qed.

Lemma pool_jobs_cover nworkers nblks blk :
  (0 < nworkers)%nat → (blk < nblks)%nat → ∃ w, (w, blk) ∈ pool_jobs nworkers nblks.
Proof.
  intros Hn Hblk. destruct (worker_blocks_cover nworkers nblks blk Hn Hblk) as (w & Hw & Hin).
  exists w. apply list_elem_of_bind. exists w. split; [|apply elem_of_seq; lia].
  by apply list_elem_of_fmap_2.
Qed.

Section Pool.
Context (nworkers nblks rows cols : nat).
Context (unravel : nat → list Z → res (list Z)).
Context (ravel : list Z → nat → list (list Z) → res (list (list Z))).
Context (src : nat → nat → nat → bool) (out : list (list Z) → nat → nat → nat → bool).
Hypothesis unravel_ok : ∀ idx v, (idx < nblks)%nat → length v = set_len →
  ∃ s, unravel idx v = Ok s ∧ matrix_ok s ∧
    ∀ r c, within 512 (r, c) → bit s (r, c) = src idx r c.
Hypothesis ravel_ok : ∀ idx s m, (idx < nblks)%nat → matrix_ok s → byte_matrix rows cols m →
  ∃ m', ravel s idx m = Ok m' ∧ byte_matrix rows cols m' ∧
    ∀ idx' r c, (idx' < nblks)%nat → within 512 (r, c) →
      out m' idx' r c = if decide (idx' = idx) then bit s (r, c) else out m idx' r c.

Lemma run_jobs_spec jobs vects m :
  Forall (λ job, job.1 < nworkers ∧ job.2 < nblks)%nat jobs →
  length vects = nworkers → Forall (λ v, length v = set_len) vects → byte_matrix rows cols m →
  ∃ vects' m', run_jobs (block_step unravel ravel) jobs (vects, m) = Ok (vects', m') ∧
    byte_matrix rows cols m' ∧
    ∀ idx r c, (idx < nblks)%nat → within 512 (r, c) →
      out m' idx r c = if decide (idx ∈ jobs.*2) then src idx c r else out m idx r c.
Proof.
  intros Hjobs. revert vects m. induction Hjobs as [|[w i] jobs [Hw Hi] _ IH];
    intros vects m Hlen Hv Hm; cbn [run_jobs fst snd] in *.
  { exists vects, m. split; [done|]. split; [done|]. intros. by rewrite decide_False by set_solver. }
  destruct (unravel_ok i (vects !!! w) Hi) as (s & Es & Hs & Hbit).
  { rewrite Forall_forall in Hv. apply Hv, list_elem_of_lookup_total_2. lia. }
  destruct (transpose_spec s Hs) as [Ht Htbit].
  destruct (ravel_ok i (transpose s) m Hi Ht Hm) as (m1 & Em & Hm1 & Hout1).
  destruct (IH (<[w := transpose s]> vects) m1) as (vects' & m' & E & Hm' & Hout).
  { by rewrite length_insert. } { apply Forall_insert; [done|apply Ht]. } { done. }
  exists vects', m'. unfold block_step at 1. rewrite Es. cbn [res_bind]. rewrite Em.
  cbn [res_bind]. split; [done|]. split; [done|]. intros idx r c Hidx Hrc.
  rewrite Hout by done. cbn [fmap list_fmap]. cbn [snd].
  destruct (decide (idx ∈ jobs.*2)).
  - by rewrite decide_True by set_solver.
  - rewrite Hout1 by done. destruct (decide (idx = i)) as [->|].
    + rewrite decide_True by set_solver. rewrite Htbit by done. apply Hbit. by destruct Hrc.
    + by rewrite decide_False by set_solver.
Qed.

(** Any interleaving of the pool's block steps moves every block. *)
Lemma pool_spec order m :
  (0 < nworkers)%nat → order ≡ₚ pool_jobs nworkers nblks → byte_matrix rows cols m →
  ∃ vects' m', run_jobs (block_step unravel ravel) order (replicate nworkers zero_set, m)
      = Ok (vects', m') ∧ byte_matrix rows cols m' ∧
    ∀ idx r c, (idx < nblks)%nat → within 512 (r, c) → out m' idx r c = src idx c r.
Proof.
  intros Hn Horder Hm.
  destruct (run_jobs_spec order (replicate nworkers zero_set) m) as (vects' & m' & E & Hm' & Hout).
  - rewrite Horder. apply Forall_forall. intros [w i] Hin. by apply pool_jobs_lt.
  - apply length_replicate.
  - apply Forall_replicate. apply length_replicate.
  - done.
  - exists vects', m'. split; [done|]. split; [done|]. intros idx r c Hidx Hrc.
    rewrite Hout by done. rewrite decide_True; [done|]. rewrite Horder.
    destruct (pool_jobs_cover nworkers nblks idx Hn Hidx) as [w Hw].
    apply list_elem_of_fmap. by exists (w, idx).
Qed.
End Pool.

Lemma zero_byte_matrix rows cols : byte_matrix rows cols (replicate rows (replicate cols 0)).
Proof.
  split; [apply length_replicate|]. apply Forall_replicate. split; [apply length_replicate|].
  by apply Forall_replicate.
Qed.

Lemma tall_spec nworkers n order m :
  (0 < nworkers)%nat → byte_matrix (512 * n) 64 m → order ≡ₚ pool_jobs nworkers n →
  ∃ m', ConcurrentTransposeTall nworkers order m = Ok m' ∧ byte_matrix 512 (64 * n) m' ∧
    ∀ r c, (r < 512)%nat → (c < 512 * n)%nat → mbit m' r c = mbit m c r.
Proof.
  intros Hn Hm Horder. unfold ConcurrentTransposeTall. pose proof Hm as [Hl _]. rewrite Hl.
  replace ((512 * n) mod 512)%nat with 0%nat by dlia. cbn [Nat.eqb negb].
  replace (512 * n / 8)%nat with (64 * n)%nat by dlia.
  destruct (pool_spec nworkers n 512 (64 * n) (unravelTall m) ravelToWide
    (λ idx r c, mbit m (512 * idx + r) c) (λ m' idx r c, mbit m' r (512 * idx + c)))
    with (order := order) (m := replicate 512 (replicate (64 * n) 0))
    as (vects' & m' & E & Hm' & Hout); [..|by apply zero_byte_matrix|].
  - intros idx v Hidx Hv. apply (unravelTall_spec (512 * n) 64); [done|lia|done|done].
  - intros idx s m1 Hidx Hs Hm1.
    destruct (ravelToWide_spec 512 (64 * n) m1 idx s) as (m2 & E2 & Hm2 & Hb2); [done|done|lia|done|].
    exists m2. split; [done|]. split; [done|]. intros idx' r c Hidx' [Hr Hc]. cbn [fst snd] in *.
    rewrite Hb2 by lia. replace ((512 * idx' + c) / 512)%nat with idx' by dlia.
    by replace ((512 * idx' + c) mod 512)%nat with c by dlia.
  - done.
  - done.
  - exists m'. rewrite E. split; [done|]. split; [done|]. intros r c Hr Hc.
    assert (c = 512 * (c / 512) + c mod 512 ∧ c / 512 < n ∧ c mod 512 < 512)%nat
      as (Ec & Hd & Hmod) by (split_and!; dlia).
    rewrite Ec. by apply Hout.
Qed.

Lemma wide_spec nworkers n order m :
  (0 < nworkers)%nat → byte_matrix 512 (64 * n) m → order ≡ₚ pool_jobs nworkers n →
  ∃ m', ConcurrentTransposeWide nworkers order m = Ok m' ∧ byte_matrix (512 * n) 64 m' ∧
    ∀ r c, (r < 512 * n)%nat → (c < 512)%nat → mbit m' r c = mbit m c r.
Proof.
  intros Hn Hm Horder. unfold ConcurrentTransposeWide.
  change 0 with (Z.of_nat 0) at 1. rewrite (index_row _ _ _ _ Hm) by lia. cbn [res_bind].
  destruct (byte_matrix_row _ _ _ 0%nat Hm) as (_ & Hl & _); [lia|]. rewrite Hl.
  replace ((64 * n) mod 64)%nat with 0%nat by dlia. cbn [Nat.eqb negb].
  replace (64 * n * 8)%nat with (512 * n)%nat by lia.
  destruct (pool_spec nworkers n (512 * n) 64 (unravelWide m) ravelToTall
    (λ idx r c, mbit m r (512 * idx + c)) (λ m' idx r c, mbit m' (512 * idx + r) c))
    with (order := order) (m := replicate (512 * n) (replicate 64 0))
    as (vects' & m' & E & Hm' & Hout); [..|by apply zero_byte_matrix|].
  - intros idx v Hidx Hv. apply (unravelWide_spec 512 (64 * n)); [done|lia|lia|done].
  - intros idx s m1 Hidx Hs Hm1.
    destruct (ravelToTall_spec (512 * n) 64 m1 idx s) as (m2 & E2 & Hm2 & Hb2); [done|lia|lia|done|].
    exists m2. split; [done|]. split; [done|]. intros idx' r c Hidx' [Hr Hc]. cbn [fst snd] in *.
    rewrite Hb2 by lia. replace ((512 * idx' + r) / 512)%nat with idx' by dlia.
    by replace ((512 * idx' + r) mod 512)%nat with r by dlia.
  - done.
  - done.
  - exists m'. rewrite E. split; [done|]. split; [done|]. intros r c Hr Hc.
    assert (r = 512 * (r / 512) + r mod 512 ∧ r / 512 < n ∧ r mod 512 < 512)%nat
      as (Er & Hd & Hmod) by (split_and!; dlia).
    rewrite Er. by apply Hout.
Qed.

Lemma matrix_eq v v' :
  matrix_ok v → matrix_ok v' → (∀ rc, within 512 rc → bit v rc = bit v' rc) → v = v'.
Proof.
  intros Hv Hv' Hbits. pose proof (proj1 (Forall_words v) Hv) as [Hl Hw].
  pose proof (proj1 (Forall_words v') Hv') as [Hl' Hw'].
  apply list_eq. intros x. destruct (decide (x < set_len)%nat) as [Hx|Hx].
  - destruct (lookup_lt_is_Some_2 v x) as [w Ew]; [lia|].
    destruct (lookup_lt_is_Some_2 v' x) as [w' Ew']; [lia|]. rewrite Ew, Ew'. f_equal.
    specialize (Hw x w Hx Ew). specialize (Hw' x w' Hx Ew').
    apply Z.bits_inj'. intros i Hi. destruct (decide (i < 64)).
    + specialize (Hbits (x / 8, 64 * (x mod 8) + Z.to_nat i)%nat). unfold bit in Hbits.
      cbn [fst snd] in Hbits.
      assert (8 * (x / 8) + (64 * (x mod 8) + Z.to_nat i) / 64 = x)%nat as Ex by (clear Hbits; dlia).
      assert ((64 * (x mod 8) + Z.to_nat i) mod 64 = Z.to_nat i)%nat as Ei by (clear Hbits Ex; dlia).
      rewrite Ex, Ei, Z2Nat.id in Hbits by done.
      rewrite (list_lookup_total_correct _ _ _ Ew), (list_lookup_total_correct _ _ _ Ew') in Hbits.
      apply Hbits. clear - l Hi Hx. unfold set_len in Hx. split; cbn [fst snd]; dlia.
    + by rewrite !(testbit_high _ 64 i) by lia.
  - rewrite !lookup_ge_None_2 by lia. done.
Qed.

(** ** Properties *)

(** C26: [BitVect.transpose] moves the bit at row [r] and column [c] of every
    512 by 512 matrix of 64-bit words to row [c] and column [r], keeps the words
    at 64 bits, and undoes itself. *)
Theorem transpose_transposes v :
  matrix_ok v →
  matrix_ok (transpose v) ∧
  (∀ r c, (r < 512)%nat → (c < 512)%nat → bit (transpose v) (r, c) = bit v (c, r)) ∧
  transpose (transpose v) = v.
Proof.
  intros Hv. destruct (transpose_spec v Hv) as [Ht Hb].
  destruct (transpose_spec _ Ht) as [Ht' Hb'].
  split; [exact Ht|]. split; [intros r c Hr Hc; apply Hb; by split|].
  apply matrix_eq; [exact Ht'|exact Hv|]. intros [r c] [Hr Hc].
  rewrite Hb' by (by split). apply Hb. by split.
Qed.

(** The matrix whose word [x] is [3 * x + 1]. *)
Definition sample_matrix : list Z := (λ x, 3 * Z.of_nat x + 1) <$> seq 0 set_len.

Lemma sample_matrix_ok : matrix_ok sample_matrix.
Proof.
  apply Forall_words. unfold sample_matrix. split; [by rewrite length_fmap, length_seq|].
  intros x w Hx Hw. apply list_lookup_fmap_Some in Hw as (y & -> & Hy).
  apply lookup_seq in Hy as [-> _]. unfold set_len in Hx. lia.
Qed.

Lemma transpose_transposes_witness :
  matrix_ok sample_matrix ∧ bit (transpose sample_matrix) (3, 70)%nat = bit sample_matrix (70, 3)%nat.
Proof.
  split; [exact sample_matrix_ok|].
  destruct (transpose_transposes sample_matrix sample_matrix_ok) as (_ & Hb & _). apply Hb; lia.
Defined.

(** C25: for every number of workers and every interleaving of their block steps,
    [ConcurrentTransposeTall] turns [512 * n] rows of 64 bytes into 512 rows of
    [64 * n] bytes, bit [(r, c)] of the result being bit [(c, r)] of the input. *)
Theorem ConcurrentTransposeTall_transposes nworkers n order m :
  (0 < nworkers)%nat → byte_matrix (512 * n) 64 m → order ≡ₚ pool_jobs nworkers n →
  ∃ m', ConcurrentTransposeTall nworkers order m = Ok m' ∧ byte_matrix 512 (64 * n) m' ∧
    ∀ r c, (r < 512)%nat → (c < 512 * n)%nat → mbit m' r c = mbit m c r.
Proof. apply tall_spec. Qed.

(** 1024 rows, three workers, the last worker first. *)
Lemma ConcurrentTransposeTall_transposes_witness :
  byte_matrix (512 * 2) 64 (replicate (512 * 2) (replicate 64 5)) ∧
  ∃ m', ConcurrentTransposeTall 3 (reverse (pool_jobs 3 2))
    (replicate (512 * 2) (replicate 64 5)) = Ok m' ∧ mbit m' 2 700 = true.
Proof.
  assert (byte_matrix (512 * 2) 64 (replicate (512 * 2) (replicate 64 5))) as Hm.
  { split; [apply length_replicate|]. apply Forall_replicate.
    split; [apply length_replicate|]. by apply Forall_replicate. }
  split; [exact Hm|].
  destruct (ConcurrentTransposeTall_transposes 3 2 (reverse (pool_jobs 3 2)) _
    ltac:(lia) Hm (reverse_Permutation _)) as (m' & E & _ & Hb).
  exists m'. split; [exact E|]. rewrite Hb by lia. by vm_compute.
Defined.

(** C27: the two concurrent transpositions undo each other, whatever the
    numbers of workers and the interleavings on the two sides: transposing a tall
    matrix and then the wide result, or a wide one and then the tall result,
    gives the matrix back. *)
Theorem ConcurrentTranspose_roundtrip nw1 nw2 n order1 order2 :
  (0 < nw1)%nat → (0 < nw2)%nat → order1 ≡ₚ pool_jobs nw1 n → order2 ≡ₚ pool_jobs nw2 n →
  (∀ m, byte_matrix (512 * n) 64 m →
    (let! t := ConcurrentTransposeTall nw1 order1 m in ConcurrentTransposeWide nw2 order2 t) = Ok m) ∧
  (∀ m, byte_matrix 512 (64 * n) m →
    (let! t := ConcurrentTransposeWide nw2 order2 m in ConcurrentTransposeTall nw1 order1 t) = Ok m).
Proof.
  intros H1 H2 Ho1 Ho2. split; intros m Hm.
  - destruct (tall_spec nw1 n order1 m H1 Hm Ho1) as (t & -> & Ht & Hbt).
    destruct (wide_spec nw2 n order2 t H2 Ht Ho2) as (m' & E & Hm' & Hb). cbn [res_bind].
    rewrite E. f_equal. apply (byte_matrix_eq _ _ _ _ Hm' Hm). intros r c Hr Hc.
    rewrite Hb, Hbt by lia. done.
  - destruct (wide_spec nw2 n order2 m H2 Hm Ho2) as (t & -> & Ht & Hbt).
    destruct (tall_spec nw1 n order1 t H1 Ht Ho1) as (m' & E & Hm' & Hb). cbn [res_bind].
    rewrite E. f_equal. apply (byte_matrix_eq _ _ _ _ Hm' Hm). intros r c Hr Hc.
    rewrite Hb, Hbt by lia. done.
Qed.

Lemma ConcurrentTranspose_roundtrip_witness :
  byte_matrix 512 (64 * 1) (replicate 512 (replicate (64 * 1) 9)) ∧
  (let! t := ConcurrentTransposeWide 4 (pool_jobs 4 1) (replicate 512 (replicate (64 * 1) 9)) in
   ConcurrentTransposeTall 2 (pool_jobs 2 1) t) = Ok (replicate 512 (replicate (64 * 1) 9)).
Proof.
  assert (byte_matrix 512 (64 * 1) (replicate 512 (replicate (64 * 1) 9))) as Hm.
  { split; [apply length_replicate|]. apply Forall_replicate.
    split; [apply length_replicate|]. by apply Forall_replicate. }
  split; [exact Hm|].
  by apply (ConcurrentTranspose_roundtrip 2 4 1 _ _ ltac:(lia) ltac:(lia) (reflexivity _) (reflexivity _)).
Defined.
