(* ===== verification/BitVectAmd64.v ===== *)
(** * [internal/util]: bitvect_amd64.go

    The loading and storing of a [BitVect] in the amd64 build, which copies whole
    rows through the casts of [unsafeslice], and its agreement with the portable
    build of [BitVect]. *)
From S2P Require Import Prelude Words Bits BitVect Transpose BitMatrix.

Module Amd64.
Section Amd64.
Context `{UnsafeSlice}.

(** [for i := 0; i < 512; i++ { copy(b.set[i*8:(i+1)*8], ...) }]: [copy] stops at
    the shorter slice. *)
Definition unravelTall (matrix : list (list Z)) (idx : nat) (set : list Z) : res (list Z) :=
  for_res (λ i set,
    let! _ := go_slice set (i * 8) ((i + 1) * 8) in
    let! row := index matrix (Z.of_nat (512 * idx + i)) in
    Ok (put_at set (i * 8) (take 8 (u64_view row)))) 0 512 set.

Definition unravelWide (matrix : list (list Z)) (idx : nat) (set : list Z) : res (list Z) :=
  for_res (λ i set,
    let! _ := go_slice set (i * 8) ((i + 1) * 8) in
    let! row := index matrix (Z.of_nat i) in
    let! bytes := go_slice row (idx * 64) (64 * idx + 64) in
    Ok (put_at set (i * 8) (take 8 (u64_view bytes)))) 0 512 set.

Definition ravelToTall (set : list Z) (idx : nat) (matrix : list (list Z)) : res (list (list Z)) :=
  for_res (λ i matrix,
    let! row := index matrix (Z.of_nat (idx * 512 + i)) in
    let! words := go_slice set (i * 8) ((i + 1) * 8) in
    store matrix (Z.of_nat (idx * 512 + i)) (put_at row 0 (take (length row) (byte_view words)))) 0 512 matrix.

Definition ravelToWide (set : list Z) (idx : nat) (matrix : list (list Z)) : res (list (list Z)) :=
  for_res (λ i matrix,
    let! row := index matrix (Z.of_nat i) in
    let! _ := go_slice row (idx * 64) ((idx + 1) * 64) in
    let! words := go_slice set (i * 8) ((i + 1) * 8) in
    store matrix (Z.of_nat i) (put_at row (idx * 64) (take 64 (byte_view words)))) 0 512 matrix.
End Amd64.
End Amd64.

(** * Lemmas *)

(** Two loops that agree along an invariant. *)
Lemma for_res_agree {T} (I : nat → T → Prop) (f g : nat → T → res T) i n s :
  I i s →
  (∀ j s, (i ≤ j < i + n)%nat → I j s → ∃ s', f j s = Ok s' ∧ g j s = Ok s' ∧ I (S j) s') →
  for_res f i n s = for_res g i n s.
Proof.
  revert i s. induction n as [|n IH]; intros i s Hi Hstep; cbn [for_res]; [done|].
  destruct (Hstep i s) as (s' & -> & -> & Hi'); [lia|done|]. cbn [res_bind].
  apply IH; [done|]. intros j s1 Hj. apply Hstep. lia.
Qed.

Lemma put_at_app {A} (l : list A) lo bs cs :
  (lo + length bs + length cs ≤ length l)%nat →
  put_at (put_at l lo bs) (lo + length bs) cs = put_at l lo (bs ++ cs).
Proof.
  intros Hl. assert (length (put_at l lo bs) = length l) as Hp by (apply length_put_at; lia).
  apply list_eq. intros i. rewrite !lookup_put_at by (rewrite ?length_app; lia).
  rewrite length_app. repeat case_decide; try lia; try done.
  - rewrite lookup_app_r by lia. f_equal. lia.
  - by rewrite lookup_app_l by lia.
Qed.

Lemma put_at_one {A} (l : list A) i a : (i < length l)%nat → <[i := a]> l = put_at l i [a].
Proof.
  intros Hi. rewrite insert_take_drop by done. unfold put_at. cbn [length app].
  by replace (i + 1)%nat with (S i) by lia.
Qed.

Lemma put_at_nil {A} (l : list A) lo : put_at l lo [] = l.
Proof. unfold put_at. cbn [length app]. rewrite Nat.add_0_r. apply take_drop. Qed.

(** Words that are stored one by one. *)
Lemma store_words (w : nat → Z) (f : nat → list Z → res (list Z)) lo n s :
  (lo + n ≤ length s)%nat →
  (∀ j s, (j < n)%nat → f j s = store s (Z.of_nat (lo + j)) (w j)) →
  for_res f 0 n s = Ok (put_at s lo (w <$> seq 0 n)).
Proof.
  intros Hl Hf.
  destruct (for_res_invariant (λ j s', s' = put_at s lo (w <$> seq 0 j)) f 0 n s) as (s' & -> & ->); [|..|done].
  - symmetry. apply put_at_nil.
  - intros j s1 Hj ->. rewrite Hf by lia.
    assert (length (w <$> seq 0 j) = j) as Hw by by rewrite length_fmap, length_seq.
    assert (length (put_at s lo (w <$> seq 0 j)) = length s) as Hp by (apply length_put_at; lia).
    rewrite store_Ok, Nat2Z.id by lia. eexists. split; [done|].
    rewrite put_at_one by lia. rewrite <-Hw at 2. rewrite put_at_app by (rewrite Hw; cbn; lia).
    by rewrite seq_S, fmap_app.
Qed.

(** The bytes of words, from the contract of the casts. *)
Lemma bytes_of_words ws bs :
  length bs = (8 * length ws)%nat →
  (∀ i w, ws !! i = Some w → slice bs (i * 8) ((i + 1) * 8) = le_put 8 w) →
  bs = concat (le_put 8 <$> ws).
Proof.
  revert bs. induction ws as [|w ws IH]; intros bs Hl Hs; cbn [length fmap list_fmap concat] in *.
  - by destruct bs.
  - pose proof (Hs 0%nat w eq_refl) as E0. unfold slice in E0. cbn [Nat.mul Nat.add Nat.sub] in E0.
    rewrite drop_0 in E0. rewrite <-(take_drop 8 bs), E0. f_equal. apply IH.
    + rewrite length_drop. lia.
    + intros i v Hv. rewrite <-(Hs (S i) v Hv). unfold slice. rewrite drop_drop.
      replace (8 + i * 8)%nat with (S i * 8)%nat by lia.
      by replace ((S i + 1) * 8 - S i * 8)%nat with ((i + 1) * 8 - i * 8)%nat by lia.
Qed.

Section Agree.
Context `{UnsafeSliceLaws}.

Lemma byte_view_concat ws : byte_view ws = concat (le_put 8 <$> ws).
Proof. apply bytes_of_words; [apply length_byte_view|]. intros i w. apply slice_byte_view. Qed.

(** The first eight words of a row. *)
Lemma u64_view_row row co hi :
  (co + 64 ≤ hi)%nat → (hi ≤ length row)%nat →
  take 8 (u64_view (slice row co hi)) =
    (λ j, le_get (slice row (co + j * 8) (co + (j + 1) * 8))) <$> seq 0 8.
Proof.
  intros Hco Hhi. assert (length (slice row co hi) = hi - co)%nat as Hl by (apply length_slice; lia).
  assert (8 ≤ length (slice row co hi) / 8)%nat as H8 by (rewrite Hl; dlia).
  apply list_eq. intros j. destruct (decide (j < 8)%nat) as [Hj|Hj].
  - rewrite lookup_take_lt, lookup_u64_view by lia.
    rewrite list_lookup_fmap, lookup_seq_lt by done. cbn [fmap option_fmap option_map Nat.add].
    do 2 f_equal. unfold slice. rewrite skipn_firstn_comm, drop_drop, take_take.
    f_equal. lia.
  - rewrite !lookup_ge_None_2; [done| |].
    + rewrite length_fmap, length_seq. lia.
    + rewrite length_take. lia.
Qed.

(** One row of a load, in both builds. *)
Lemma load_row row co s i :
  (co + 64 ≤ length row)%nat → (i < 512)%nat → length s = set_len →
  for_res (λ j set,
    let! bytes := go_slice row (co + j * 8) (co + (j + 1) * 8) in
    store set (Z.of_nat (i * 8 + j)) (le_get bytes)) 0 8 s =
  Ok (put_at s (i * 8) ((λ j, le_get (slice row (co + j * 8) (co + (j + 1) * 8))) <$> seq 0 8)).
Proof.
  intros Hco Hi Hs.
  apply (store_words (λ j, le_get (slice row (co + j * 8) (co + (j + 1) * 8)))).
  - unfold set_len in Hs. lia.
  - intros j s1 Hj. by rewrite go_slice_Ok by lia.
Qed.

(** One row of a store, in both builds. *)
Lemma save_row set m r lo i row :
  m !! r = Some row → (lo + 64 ≤ length row)%nat → (i * 8 + 8 ≤ length set)%nat →
  for_res (λ j m, let! v := index set (Z.of_nat (i * 8 + j)) in put_word m r (lo + j * 8) v) 0 8 m =
    Ok (<[r := put_at row lo (byte_view (slice set (i * 8) ((i + 1) * 8)))]> m).
Proof.
  intros Hr Hlo Hset. set (ws := slice set (i * 8) ((i + 1) * 8)).
  assert (length ws = 8%nat) as Hws by (subst ws; rewrite length_slice; lia).
  pose proof (lookup_lt_Some _ _ _ Hr) as Hrm.
  set (bytes j := concat (le_put 8 <$> take j ws)).
  assert (∀ j, (j ≤ 8)%nat → length (bytes j) = (8 * j)%nat) as Hbytes.
  { intros j Hj. subst bytes. cbn beta. rewrite <-byte_view_concat, length_byte_view, length_take. lia. }
  destruct (for_res_invariant (λ j m', m' = <[r := put_at row lo (bytes j)]> m)
    (λ j m, let! v := index set (Z.of_nat (i * 8 + j)) in put_word m r (lo + j * 8) v) 0 8 m)
    as (m' & -> & ->).
  - subst bytes. cbn beta. rewrite take_0. cbn [fmap list_fmap concat]. rewrite put_at_nil.
    by rewrite list_insert_id.
  - intros j m1 Hj ->. destruct (lookup_lt_is_Some_2 set (i * 8 + j)) as [v Hv]; [lia|].
    rewrite (Ok_index_nat _ _ _ Hv). cbn [res_bind].
    assert (ws !! j = Some v) as Hwv by (subst ws; by rewrite lookup_slice by lia).
    assert (length (put_at row lo (bytes j)) = length row) as Hp by (apply length_put_at; rewrite Hbytes; lia).
    unfold put_word. rewrite (Ok_index_nat _ _ (put_at row lo (bytes j))) by (apply list_lookup_insert_eq; lia).
    cbn [res_bind]. rewrite go_slice_Ok by lia. cbn [res_bind].
    rewrite store_Ok, Nat2Z.id by (rewrite length_insert; lia).
    eexists. split; [done|]. rewrite list_insert_insert_eq. f_equal.
    replace (lo + j * 8)%nat with (lo + length (bytes j))%nat by (rewrite Hbytes by lia; lia).
    rewrite put_at_app by (rewrite Hbytes, length_le_put; lia). f_equal.
    subst bytes. cbn beta. rewrite (take_S_r _ _ _ Hwv), fmap_app, concat_app.
    cbn [fmap list_fmap concat]. by rewrite app_nil_r.
  - subst bytes. cbn beta. cbn [Nat.add]. rewrite (take_ge ws) by lia. by rewrite byte_view_concat.
Qed.

Context (rows cols : nat) (m : list (list Z)) (s : list Z).
Hypothesis Hm : byte_matrix rows cols m.
Hypothesis Hs : length s = set_len.

Lemma matrix_row r : (r < rows)%nat → ∃ row, m !! r = Some row ∧ length row = cols.
Proof.
  intros Hr. destruct (byte_matrix_row _ _ _ _ Hm Hr) as (E & Hl & _).
  by exists (m !!! r).
Qed.

(** Loading: [ro] is the first row of the block, [co] its first byte. *)
Lemma load_agree ro co (f : nat → list Z → res (list Z)) :
  (ro + 512 ≤ rows)%nat → (co + 64 ≤ cols)%nat →
  (∀ i row s, (i < 512)%nat → m !! (ro + i)%nat = Some row → length row = cols → length s = set_len →
    f i s = Ok (put_at s (i * 8) ((λ j, le_get (slice row (co + j * 8) (co + (j + 1) * 8))) <$> seq 0 8))) →
  for_res f 0 512 s = for_words (λ i j set,
    let! row := index m (Z.of_nat (ro + i)) in
    let! bytes := go_slice row (co + j * 8) (co + (j + 1) * 8) in
    store set (Z.of_nat (i * 8 + j)) (le_get bytes)) s.
Proof.
  intros Hro Hco Hf. unfold for_words. apply (for_res_agree (λ _ s, length s = set_len)); [done|].
  intros i s1 Hi Hs1. destruct (matrix_row (ro + i)) as (row & Hrow & Hl); [lia|].
  rewrite (Hf i row s1) by (done || lia). eexists. split; [done|]. split.
  - rewrite <-(load_row row co s1 i) by lia. apply for_res_ext. intros j s2 Hj.
    by rewrite (Ok_index_nat _ _ _ Hrow).
  - rewrite length_put_at; [done|]. rewrite length_fmap, length_seq. unfold set_len in Hs1. lia.
Qed.

(** Storing, over matrices of the same shape. *)
Lemma save_agree ro lo (f : nat → list (list Z) → res (list (list Z))) :
  (ro + 512 ≤ rows)%nat → (lo + 64 ≤ cols)%nat →
  (∀ i row m', (i < 512)%nat → m' !! (ro + i)%nat = Some row → length row = cols →
    f i m' = Ok (<[(ro + i)%nat := put_at row lo (byte_view (slice s (i * 8) ((i + 1) * 8)))]> m')) →
  for_res f 0 512 m = for_words (λ i j m,
    let! v := index s (Z.of_nat (i * 8 + j)) in put_word m (ro + i) (lo + j * 8) v) m.
Proof.
  intros Hro Hlo Hf. unfold for_words.
  apply (for_res_agree (λ _ m', length m' = rows ∧ Forall (λ row, length row = cols) m')).
  { destruct Hm as [Hl Hf']. split; [done|]. eapply Forall_impl; [exact Hf'|]. by intros row [? _]. }
  intros i m1 Hi [Hl1 Hf1]. destruct (lookup_lt_is_Some_2 m1 (ro + i)) as [row Hrow]; [lia|].
  pose proof (Forall_lookup_1 _ _ _ _ Hf1 Hrow) as Hl. cbn beta in Hl.
  rewrite (Hf i row m1) by (done || lia). eexists. split; [done|]. split.
  - apply save_row; [done|lia|]. rewrite Hs. unfold set_len. lia.
  - rewrite length_insert. split; [done|]. apply Forall_insert; [done|].
    rewrite length_put_at; [done|]. rewrite length_byte_view, length_slice by (rewrite Hs; unfold set_len; lia). lia.
Qed.
End Agree.

(** * Properties *)

(** The portable and the amd64 builds load a block of a tall or wide matrix into
    the same [BitVect] and store a [BitVect] into the same bytes of a matrix, for
    every matrix whose rows hold a block. *)
Theorem bitvect_builds_agree `{UnsafeSliceLaws} rows cols m idx s :
  byte_matrix rows cols m → length s = set_len →
  ((512 * idx + 512 ≤ rows)%nat → (64 ≤ cols)%nat →
    Amd64.unravelTall m idx s = unravelTall m idx s ∧
    Amd64.ravelToTall s idx m = ravelToTall s idx m) ∧
  ((512 ≤ rows)%nat → (64 * idx + 64 ≤ cols)%nat →
    Amd64.unravelWide m idx s = unravelWide m idx s ∧
    Amd64.ravelToWide s idx m = ravelToWide s idx m).
Proof.
  intros Hm Hs. split; intros Hr Hc; split.
  - apply (load_agree rows cols m s Hm Hs (512 * idx) 0); [lia|lia|].
    intros i row s1 Hi Hrow Hl Hs1. rewrite go_slice_Ok by (rewrite Hs1; unfold set_len; lia).
    cbn [res_bind]. rewrite (Ok_index_nat _ _ _ Hrow). cbn [res_bind].
    by rewrite <-(u64_view_row row 0 (length row)), slice_full by lia.
  - unfold ravelToTall. rewrite (Nat.mul_comm idx).
    apply (save_agree rows cols m s Hm Hs (512 * idx) 0); [lia|lia|].
    intros i row m1 Hi Hrow Hl. rewrite (Nat.mul_comm idx), (Ok_index_nat _ _ _ Hrow). cbn [res_bind].
    rewrite go_slice_Ok by (rewrite Hs; unfold set_len; lia). cbn [res_bind].
    rewrite (take_ge (byte_view _)) by
      (rewrite length_byte_view, length_slice by (rewrite Hs; unfold set_len; lia); lia).
    pose proof (lookup_lt_Some _ _ _ Hrow). by rewrite store_Ok, Nat2Z.id by lia.
  - unfold unravelWide. apply (load_agree rows cols m s Hm Hs 0 (idx * 64)); [lia|lia|].
    intros i row s1 Hi Hrow Hl Hs1. change (0 + i)%nat with i in *. rewrite go_slice_Ok by (rewrite Hs1; unfold set_len; lia).
    cbn [res_bind]. rewrite (Ok_index_nat _ _ _ Hrow). cbn [res_bind].
    rewrite go_slice_Ok by lia. cbn [res_bind].
    replace (64 * idx + 64)%nat with (idx * 64 + 64)%nat by lia. by rewrite u64_view_row by lia.
  - unfold ravelToWide. apply (save_agree rows cols m s Hm Hs 0 (idx * 64)); [lia|lia|].
    intros i row m1 Hi Hrow Hl. change (0 + i)%nat with i in *. rewrite (Ok_index_nat _ _ _ Hrow). cbn [res_bind].
    rewrite go_slice_Ok by lia. cbn [res_bind].
    rewrite go_slice_Ok by (rewrite Hs; unfold set_len; lia). cbn [res_bind].
    rewrite (take_ge (byte_view _)) by
      (rewrite length_byte_view, length_slice by (rewrite Hs; unfold set_len; lia); lia).
    pose proof (lookup_lt_Some _ _ _ Hrow). by rewrite store_Ok, Nat2Z.id by lia.
Qed.

(** A matrix of one block. *)
Definition block_matrix : list (list Z) := replicate 512 (replicate 64 3).

Lemma block_matrix_ok : byte_matrix 512 64 block_matrix.
Proof.
  split; [apply length_replicate|]. apply Forall_replicate. split; [apply length_replicate|].
  apply Forall_replicate. unfold byte_ok. lia.
Qed.

Lemma bitvect_builds_agree_witness :
  @Amd64.unravelTall le_unsafeslice block_matrix 0 zero_set = unravelTall block_matrix 0 zero_set.
Proof.
  assert (512 * 0 + 512 ≤ 512)%nat as Hr by lia. assert (64 ≤ 64)%nat as Hc by lia.
  exact (proj1 (proj1 (@bitvect_builds_agree le_unsafeslice le_unsafeslice_laws 512 64 block_matrix 0
    zero_set block_matrix_ok (length_replicate set_len 0)) Hr Hc)).
Defined.
