(* ===== verification/Hash.v ===== *)
(** * [internal/hash]: hash.go

    The salted non-cryptographic hashers.  The two hash functions themselves
    ([metro.Hash64], [murmur3.Sum64]) are third-party code: arguments of the
    model. *)
From S2P Require Import Prelude Words Bits.

Definition SaltLength : nat := 32.

(** [Hasher]. *)
Class Hasher (H : Type) := Hash64 : H → list Z → Z.

(** A slice as its backing array and its length; the array's length is the
    capacity. *)
Record go_bytes := { backing : list Z; glen : nat }.
Definition contents (s : go_bytes) : list Z := take (glen s) (backing s).

(** [append(s, p...)]: the result, and the backing array of [s] afterwards,
    written in place when the capacity allows. *)
Definition go_append (s : go_bytes) (p : list Z) : list Z * list Z :=
  if bool_decide (glen s + length p ≤ length (backing s))%nat
  then (contents s ++ p, put_at (backing s) (glen s) p)
  else (contents s ++ p, backing s).

(** ** murmur64 *)
Record murmur64 := { salt : go_bytes }.

Definition NewMurmur3Hasher (s : go_bytes) : res murmur64 :=
  if negb (glen s =? SaltLength)%nat then Err ErrSaltLengthMismatch else Ok {| salt := s |}.

(** [murmur64.Hash64]: the sum, and the salt's backing array afterwards. *)
Definition murmur64_Hash64 (murmur3_Sum64 : list Z → Z) (t : murmur64) (p : list Z) : Z * go_bytes :=
  let '(m, b) := go_append (salt t) p in
  (murmur3_Sum64 m, {| backing := b; glen := glen (salt t) |}).

(** ** metro64 *)
Record metro64 := { seed : Z }.

Definition NewMetroHasher `{ByteOps} (salt : list Z) : res metro64 :=
  if negb (length salt =? SaltLength)%nat then Err ErrSaltLengthMismatch
  else
    let seed := slice salt 0 8 in
    let! s1 := go_slice salt 8 16 in
    let! seed := Xor seed s1 in
    let! s2 := go_slice salt 16 24 in
    let! seed := Xor seed s2 in
    let! s3 := go_slice salt 24 (length salt) in
    let! seed := Xor seed s3 in
    Ok {| seed := le_get seed |}.

Definition metro64_Hash64 (metro_Hash64 : list Z → Z → Z) (m : metro64) (p : list Z) : Z :=
  metro_Hash64 p (seed m).

(** [metro.Hash64]: a [uint64] for every input and seed. *)
Class MetroHash := metro_Hash64 : list Z → Z → Z.

(** [metro.Hash64] returns a [uint64]. *)
Class MetroHashLaws `{MetroHash} : Prop :=
  metro_Hash64_range p s : 0 ≤ metro_Hash64 p s < 2 ^ 64.

#[export] Instance metro64_hasher `{MetroHash} : Hasher metro64 := metro64_Hash64 metro_Hash64.

(** The seed: the exclusive or of the four little-endian words of the salt. *)
Definition fold_salt (salt : list Z) : Z :=
  Z.lxor (Z.lxor (Z.lxor (le_get (slice salt 0 8)) (le_get (slice salt 8 16)))
                 (le_get (slice salt 16 24))) (le_get (slice salt 24 32)).

Lemma NewMetroHasher_Ok `{ByteOpsLaws} salt :
  bytes_ok salt → length salt = SaltLength →
  NewMetroHasher salt = Ok {| seed := fold_salt salt |}.
Proof.
  intros Hs Hl. unfold NewMetroHasher. rewrite Hl. unfold SaltLength in *. cbn [Nat.eqb negb].
  assert (∀ lo, (lo + 8 ≤ 32)%nat → bytes_ok (slice salt lo (lo + 8)) ∧
    length (slice salt lo (lo + 8)) = 8%nat ∧
    go_slice salt lo (lo + 8) = Ok (slice salt lo (lo + 8))) as Hw.
  { intros lo Hlo. split; [by apply slice_bytes_ok|]. split.
    - rewrite length_slice; lia.
    - unfold go_slice. by rewrite bool_decide_true by lia. }
  destruct (Hw 0 ltac:(lia))%nat as (B0 & L0 & _), (Hw 8 ltac:(lia))%nat as (B1 & L1 & E1),
    (Hw 16 ltac:(lia))%nat as (B2 & L2 & E2), (Hw 24 ltac:(lia))%nat as (B3 & L3 & E3).
  cbn [Nat.add] in *. rewrite E1. cbn [res_bind]. rewrite Xor_Ok by (try done; lia). cbn [res_bind].
  rewrite E2. cbn [res_bind]. rewrite Xor_Ok; [|by apply zip_with_bytes_ok; try apply _|done|].
  2: { rewrite length_zip_with; lia. }
  cbn [res_bind]. rewrite E3. cbn [res_bind].
  rewrite Xor_Ok; [|by repeat apply zip_with_bytes_ok; try apply _|done|].
  2: { rewrite !length_zip_with; lia. }
  cbn [res_bind]. do 2 f_equal. unfold fold_salt.
  rewrite !(le_get_bit_op Z.lxor); try done.
  - rewrite !length_zip_with. lia.
  - by repeat apply zip_with_bytes_ok; try apply _.
  - rewrite length_zip_with. lia.
  - by apply zip_with_bytes_ok; try apply _.
  - lia.
Qed.

(** ** Properties *)

(** [NewMetroHasher] returns [ErrSaltLengthMismatch] for every salt that is
    not 32 bytes long and otherwise a hasher whose 64-bit seed is the exclusive or
    of the salt's four little-endian words, with both builds of the byte
    operations; so exchanging words of the salt gives the same hasher. *)
Theorem NewMetroHasher_seed `{ByteOpsLaws} salt :
  bytes_ok salt →
  NewMetroHasher salt =
    (if decide (length salt = 32%nat) then Ok {| seed := fold_salt salt |}
     else Err ErrSaltLengthMismatch) ∧
  (length salt = 32%nat →
   0 ≤ fold_salt salt < 2 ^ 64 ∧
   NewMetroHasher (slice salt 24 32 ++ slice salt 8 16 ++ slice salt 16 24 ++ slice salt 0 8) =
     NewMetroHasher salt).
Proof.
  intros Hs. split.
  - case_decide as Hl; [by apply NewMetroHasher_Ok|]. unfold NewMetroHasher, SaltLength.
    by rewrite (proj2 (Nat.eqb_neq _ _) Hl).
  - intros Hl.
    assert (∀ lo, (lo + 8 ≤ 32)%nat → bytes_ok (slice salt lo (lo + 8)) ∧
      length (slice salt lo (lo + 8)) = 8%nat) as Hw.
    { intros lo Hlo. split; [by apply slice_bytes_ok|]. rewrite length_slice; lia. }
    destruct (Hw 0 ltac:(lia))%nat as (B0 & L0), (Hw 8 ltac:(lia))%nat as (B1 & L1),
      (Hw 16 ltac:(lia))%nat as (B2 & L2), (Hw 24 ltac:(lia))%nat as (B3 & L3). cbn [Nat.add] in *.
    split.
    + unfold fold_salt. repeat apply lxor_bounded; try lia;
        match goal with |- 0 ≤ le_get ?l < _ =>
          pose proof (le_get_range l ltac:(done)) as R; by replace (length l) with 8%nat in R end.
    + rewrite !NewMetroHasher_Ok; [|done|done| |].
      * f_equal. f_equal. unfold fold_salt.
        set (a := slice salt 0 8) in *; set (b := slice salt 8 16) in *;
        set (c := slice salt 16 24) in *; set (d := slice salt 24 32) in *.
        assert (slice (d ++ b ++ c ++ a) 0 8 = d ∧ slice (d ++ b ++ c ++ a) 8 16 = b ∧
                slice (d ++ b ++ c ++ a) 16 24 = c ∧ slice (d ++ b ++ c ++ a) 24 32 = a)
          as (-> & -> & -> & ->).
        { clearbody a b c d. unfold slice. cbn [Nat.sub]. split_and!.
          - by rewrite drop_0, take_app_length' by done.
          - rewrite drop_app_length' by done. by rewrite take_app_length' by done.
          - rewrite (app_assoc d), drop_app_length' by (rewrite length_app; lia).
            by rewrite take_app_length' by done.
          - rewrite (app_assoc d), (app_assoc (d ++ b)), drop_app_length' by (rewrite !length_app; lia).
            by rewrite take_ge by lia. }
        apply Z.bits_inj'. intros i _. rewrite !Z.lxor_spec.
        by destruct (Z.testbit (le_get a) i), (Z.testbit (le_get b) i),
          (Z.testbit (le_get c) i), (Z.testbit (le_get d) i).
      * repeat apply Forall_app_2; done.
      * rewrite !length_app. unfold SaltLength. lia.
Qed.

Lemma NewMetroHasher_seed_witness :
  bytes_ok (Z.of_nat <$> seq 0 32) ∧
  @NewMetroHasher generic_ops (Z.of_nat <$> seq 0 32) = Ok {| seed := 0 |}.
Proof.
  assert (bytes_ok (Z.of_nat <$> seq 0 32)) as Hs by (apply (bool_decide_unpack _); by vm_compute).
  split; [exact Hs|].
  exact (proj1 (@NewMetroHasher_seed generic_ops generic_ops_laws _ Hs)).
Defined.

(** A concrete [metro.Hash64], for examples. *)
Definition sample_metro : MetroHash := λ p s, (le_get p + 3 * s) mod 2 ^ 64.
