(* ===== verification/HashShared.v ===== *)
(** * [internal/hash]: concurrent calls of one hasher

    [murmur64.Hash64] appends to the salt it was given: when the capacity of that slice
    allows, [append] writes behind the salt, in the array that the hasher shares with its
    owner and with every other call.  [Hash] has one call at a time; here the calls of
    several goroutines interleave, a byte at a time. *)
From stdpp Require Import relations.
From S2P Require Import Prelude Words Bits Hash.

(** A call of [Hash64]: before [append], copying its identifier behind the salt, summing
    the first [n] bytes of the shared array, summing an array of its own, returned. *)
Inductive hash_call :=
| Called (p : list Z)
| Copying (p : list Z) (j : nat)
| Summing (n : nat) (read : list Z)
| Private (m : list Z)
| Returned (h : Z).

(** The array behind the salt, and the calls. *)
Record hash_calls := Calls { shared : list Z; calls : list hash_call }.

Section Shared.
Context (murmur3_Sum64 : list Z → Z) (n_salt : nat).

Inductive hash_step : hash_calls → hash_calls → Prop :=
| append_in_place b cs k p :
    cs !! k = Some (Called p) → (n_salt + length p ≤ length b)%nat →
    hash_step (Calls b cs) (Calls b (<[k := Copying p 0]> cs))
| append_allocates b cs k p :
    cs !! k = Some (Called p) → (length b < n_salt + length p)%nat →
    hash_step (Calls b cs) (Calls b (<[k := Private (take n_salt b ++ p)]> cs))
| copies_byte b cs k p j x :
    cs !! k = Some (Copying p j) → p !! j = Some x →
    hash_step (Calls b cs) (Calls (<[(n_salt + j)%nat := x]> b) (<[k := Copying p (S j)]> cs))
| copied b cs k p :
    cs !! k = Some (Copying p (length p)) →
    hash_step (Calls b cs) (Calls b (<[k := Summing (n_salt + length p) []]> cs))
| sums_byte b cs k n read x :
    cs !! k = Some (Summing n read) → (length read < n)%nat → b !! length read = Some x →
    hash_step (Calls b cs) (Calls b (<[k := Summing n (read ++ [x])]> cs))
| summed b cs k n read :
    cs !! k = Some (Summing n read) → length read = n →
    hash_step (Calls b cs) (Calls b (<[k := Returned (murmur3_Sum64 read)]> cs))
| summed_private b cs k m :
    cs !! k = Some (Private m) →
    hash_step (Calls b cs) (Calls b (<[k := Returned (murmur3_Sum64 m)]> cs)).
End Shared.

(** The goroutines call [t.Hash64] on the identifiers [ids]. *)
Definition hash_init (t : murmur64) (ids : list (list Z)) : hash_calls :=
  Calls (backing (salt t)) (Called <$> ids).

(** [append] has room for the identifier. *)
Definition fits (t : murmur64) (p : list Z) : Prop :=
  (glen (salt t) + length p ≤ length (backing (salt t)))%nat.

(** * Lemmas *)
Section SharedLemmas.
Context (sum64 : list Z → Z) (t : murmur64).
Hypothesis salt_ok : (glen (salt t) ≤ length (backing (salt t)))%nat.

Abbreviation step := (hash_step sum64 (glen (salt t))).
Abbreviation message p := (contents (salt t) ++ p).

(** The call of one goroutine, when nobody else has room in the array. *)
Definition call_ok (b : list Z) (p : list Z) (c : hash_call) : Prop :=
  match c with
  | Called p' => p' = p
  | Copying p' j => p' = p ∧ fits t p ∧ (j ≤ length p)%nat ∧
      take (glen (salt t) + j) b = message (take j p)
  | Summing n read => fits t p ∧ n = (glen (salt t) + length p)%nat ∧
      take n b = message p ∧ read = take (length read) (message p)
  | Private m => m = message p
  | Returned h => h = sum64 (message p)
  end.

Record calls_inv (ids : list (list Z)) (s : hash_calls) : Prop := {
  ci_length : length (shared s) = length (backing (salt t));
  ci_salt : take (glen (salt t)) (shared s) = contents (salt t);
  ci_calls : Forall2 (call_ok (shared s)) ids (calls s)
}.

Lemma length_contents : length (contents (salt t)) = glen (salt t).
Proof. unfold contents. rewrite length_take. lia. Qed.

Lemma hash_init_inv ids : calls_inv ids (hash_init t ids).
Proof. split; [done|done|]. cbn. apply Forall2_fmap_r, Forall_Forall2_diag, Forall_true. done. Qed.

(** What a call still has to do. *)
Definition call_weight (c : hash_call) : nat :=
  match c with
  | Called p => 2 * length p + glen (salt t) + 4
  | Copying p j => (length p - j) + glen (salt t) + length p + 3
  | Summing n read => (n - length read) + 1
  | Private _ => 1
  | Returned _ => 0
  end.

Lemma call_weight_update cs k c c' :
  cs !! k = Some c → (call_weight c' < call_weight c)%nat →
  (sum_list_with call_weight (<[k := c']> cs) < sum_list_with call_weight cs)%nat.
Proof. intros Hk Hw. pose proof (sum_insert call_weight cs k c c' Hk). lia. Qed.

Lemma hash_step_weight s s' :
  step s s' → (sum_list_with call_weight (calls s') < sum_list_with call_weight (calls s))%nat.
Proof.
  intros Hs. destruct Hs as [b cs k p Hk|b cs k p Hk|b cs k p j x Hk Hx|b cs k p Hk
    |b cs k n read x Hk Hr|b cs k n read Hk|b cs k m Hk]; cbn [calls];
    (eapply call_weight_update; [exact Hk|]); cbn [call_weight]; rewrite ?length_app; cbn [length];
    try apply lookup_lt_Some in Hx; lia.
Qed.

Lemma hash_sn s : sn step s.
Proof.
  remember (sum_list_with call_weight (calls s)) as w eqn:E. revert s E.
  induction w as [w IH] using lt_wf_ind. intros s ->. constructor. intros s' Hs.
  eapply IH; [|done]. by apply hash_step_weight.
Qed.

Lemma call_ok_elsewhere b b' p c : (¬ fits t p) → call_ok b p c → call_ok b' p c.
Proof. intros Hf. destruct c; cbn; tauto. Qed.

Section OneFits.
Context (ids : list (list Z)).
Hypothesis one_fits : ∀ i j p q, ids !! i = Some p → ids !! j = Some q → fits t p → fits t q → i = j.

(** A byte copied behind the salt. *)
Lemma copies_byte_inv b cs k p j x :
  calls_inv ids (Calls b cs) → cs !! k = Some (Copying p j) → p !! j = Some x →
  calls_inv ids (Calls (<[(glen (salt t) + j)%nat := x]> b) (<[k := Copying p (S j)]> cs)).
Proof.
  intros [Hl Ht Hc] Hk Hx. cbn [shared calls] in *.
  destruct (Forall2_lookup_r _ _ _ _ _ Hc Hk) as (p' & Hp' & -> & Hf & Hj & Hb).
  pose proof (lookup_lt_Some _ _ _ Hx) as Hlt. unfold fits in Hf. split; cbn [shared calls].
  - by rewrite length_insert.
  - by rewrite take_insert_ge by lia.
  - apply Forall2_same_length_lookup. pose proof (Forall2_length _ _ _ Hc) as Hcl.
    split; [by rewrite length_insert|]. intros i q c Hq Hi.
    destruct (decide (i = k)) as [->|Hne].
    + rewrite list_lookup_insert_eq in Hi by by eapply lookup_lt_Some. rewrite Hp' in Hq. simplify_eq.
      split; [done|]. split; [done|]. split; [lia|].
      rewrite Nat.add_succ_r, (take_S_r _ _ x) by (apply list_lookup_insert_eq; lia).
      rewrite take_insert_ge by lia. by rewrite Hb, (take_S_r q j x), <-app_assoc by done.
    + rewrite list_lookup_insert_ne in Hi by done.
      eapply call_ok_elsewhere; [|by eapply Forall2_lookup_lr].
      intros Hfq. apply Hne. by eapply one_fits.
Qed.

Lemma hash_step_inv s s' : calls_inv ids s → step s s' → calls_inv ids s'.
Proof.
  intros Hi Hs. destruct Hs as [b cs k p Hk Hf|b cs k p Hk Hf|b cs k p j x Hk Hx|b cs k p Hk
    |b cs k n read x Hk Hr Hx|b cs k n read Hk Hr|b cs k m Hk]; [..|by eapply copies_byte_inv| | | |].
  all: destruct Hi as [Hl Ht Hc]; cbn [shared calls] in *.
  all: destruct (Forall2_lookup_r _ _ _ _ _ Hc Hk) as (p' & Hp' & Hok); cbn [call_ok] in Hok.
  all: split; [done|done|]; cbn [shared calls]; (eapply Forall2_update; [done..|]); cbn [call_ok].
  - subst p'. split; [done|]. split; [unfold fits; lia|]. split; [lia|].
    by rewrite Nat.add_0_r, Ht, take_0, app_nil_r.
  - subst p'. by rewrite Ht.
  - destruct Hok as (-> & Hf & _ & Hb). rewrite (take_ge p') in Hb by done. by rewrite take_0.
  - destruct Hok as (Hf & -> & Hb & Hread). split; [done|]. split; [done|]. split; [done|].
    rewrite length_app, Nat.add_1_r. rewrite (take_S_r _ _ x); [by rewrite <-Hread|].
    rewrite <-Hb. by rewrite lookup_take_lt by done.
  - destruct Hok as (Hf & -> & _ & Hread). rewrite Hread, take_ge; [done|].
    rewrite length_app, length_contents. lia.
  - by rewrite Hok.
Qed.

Lemma hash_run_inv s : rtc step (hash_init t ids) s → calls_inv ids s.
Proof.
  intros Hs. pose proof (hash_init_inv ids) as Hi.
  induction Hs as [s|s1 s2 s3 H12 _ IH]; [done|]. apply IH. by eapply hash_step_inv.
Qed.

(** A call that has not returned has something to do. *)
Lemma hash_progress s k c :
  calls_inv ids s → nf step s → calls s !! k = Some c → ∃ h, c = Returned h.
Proof.
  intros [Hl _ Hc] Hnf Hk. destruct s as [b cs]. cbn [shared calls] in *.
  destruct (Forall2_lookup_r _ _ _ _ _ Hc Hk) as (p' & _ & Hok).
  destruct c as [p|p j|n read|m|h]; [exfalso; apply Hnf..|by exists h]; cbn [call_ok] in Hok.
  - destruct (decide (glen (salt t) + length p ≤ length b)%nat).
    + eexists. by eapply append_in_place.
    + eexists. eapply append_allocates; [exact Hk|lia].
  - destruct Hok as (-> & _ & Hj & _). destruct (p' !! j) as [x|] eqn:E.
    + eexists. by eapply copies_byte.
    + apply lookup_ge_None in E. assert (j = length p') as -> by lia. eexists. by eapply copied.
  - destruct Hok as (Hf & -> & _ & Hread). destruct (decide (length read = glen (salt t) + length p')%nat).
    + eexists. by eapply summed.
    + assert (length read < glen (salt t) + length p')%nat as Hlt.
      { apply (f_equal length) in Hread. rewrite length_take, length_app, length_contents in Hread. lia. }
      destruct (lookup_lt_is_Some_2 b (length read)) as [x Hx]; [unfold fits in Hf; lia|].
      eexists. by eapply sums_byte.
  - eexists. by eapply summed_private.
Qed.
End OneFits.

(** ** Calls one after the other *)
Lemma put_at_step (b p : list Z) j x :
  p !! j = Some x → (glen (salt t) + length p ≤ length b)%nat →
  <[(glen (salt t) + j)%nat := x]> (put_at b (glen (salt t)) (take j p)) =
    put_at b (glen (salt t)) (take (S j) p).
Proof.
  intros Hx Hl. pose proof (lookup_lt_Some _ _ _ Hx) as Hj. set (n := glen (salt t)) in *.
  rewrite (take_S_r p j x) by done. unfold put_at.
  rewrite length_app, length_take, Nat.min_l by lia. cbn [length].
  rewrite insert_app_r_alt by (rewrite length_take; lia). f_equal.
  rewrite length_take, (Nat.min_l n) by lia.
  rewrite insert_app_r_alt by (rewrite length_take; lia). rewrite <-app_assoc. f_equal.
  rewrite length_take, Nat.min_l by lia. replace (n + j - n - j)%nat with 0%nat by lia.
  destruct (lookup_lt_is_Some_2 b (n + j)) as [y Hy]; [lia|].
  rewrite (drop_S _ _ _ Hy). cbn. by rewrite Nat.add_assoc, Nat.add_1_r.
Qed.

Lemma rtc_copies b cs k p j :
  cs !! k = Some (Copying p 0) → (glen (salt t) + length p ≤ length b)%nat → (j ≤ length p)%nat →
  rtc step (Calls b cs) (Calls (put_at b (glen (salt t)) (take j p)) (<[k := Copying p j]> cs)).
Proof.
  intros Hk Hl. pose proof (lookup_lt_Some _ _ _ Hk) as Hk'. induction j as [|j IH]; intros Hj.
  - rewrite take_0, list_insert_id by done. unfold put_at. cbn [length app].
    rewrite Nat.add_0_r, take_drop. apply rtc_refl.
  - eapply rtc_r; [apply IH; lia|]. destruct (lookup_lt_is_Some_2 p j) as [x Hx]; [lia|].
    rewrite <-(put_at_step b p j x) by done.
    rewrite <-(list_insert_insert_eq cs k (Copying p (S j)) (Copying p j)).
    apply copies_byte; [by apply list_lookup_insert_eq|done].
Qed.

(** From the call to the end of [append], in place. *)
Lemma rtc_appends b cs k p :
  cs !! k = Some (Called p) → (glen (salt t) + length p ≤ length b)%nat →
  rtc step (Calls b cs)
    (Calls (put_at b (glen (salt t)) p) (<[k := Summing (glen (salt t) + length p) []]> cs)).
Proof.
  intros Hk Hl. pose proof (lookup_lt_Some _ _ _ Hk) as Hk'.
  eapply rtc_l; [by apply append_in_place|].
  eapply rtc_r; [apply (rtc_copies _ _ k p (length p))|].
  - by apply list_lookup_insert_eq.
  - done.
  - done.
  - rewrite take_ge, list_insert_insert_eq by done.
    rewrite <-(list_insert_insert_eq cs k (Summing _ []) (Copying p (length p))).
    apply copied. by apply list_lookup_insert_eq.
Qed.

Lemma rtc_sums b cs k n :
  cs !! k = Some (Summing n []) → (n ≤ length b)%nat →
  rtc step (Calls b cs) (Calls b (<[k := Returned (sum64 (take n b))]> cs)).
Proof.
  intros Hk Hl. pose proof (lookup_lt_Some _ _ _ Hk) as Hk'.
  assert (∀ j, (j ≤ n)%nat →
    rtc step (Calls b cs) (Calls b (<[k := Summing n (take j b)]> cs))) as Hj.
  { intros j. induction j as [|j IH]; intros Hj.
    - rewrite take_0, list_insert_id by done. apply rtc_refl.
    - eapply rtc_r; [apply IH; lia|]. destruct (lookup_lt_is_Some_2 b j) as [x Hx]; [lia|].
      rewrite (take_S_r b j x) by done.
      rewrite <-(list_insert_insert_eq cs k (Summing n (take j b ++ [x])) (Summing n (take j b))).
      apply sums_byte; [by apply list_lookup_insert_eq|rewrite length_take; lia|].
      by rewrite length_take, Nat.min_l by lia. }
  eapply rtc_r; [apply (Hj n); done|].
  rewrite <-(list_insert_insert_eq cs k (Returned _) (Summing n (take n b))).
  eapply summed; [by apply list_lookup_insert_eq|]. rewrite length_take. lia.
Qed.

Lemma take_put_at b p :
  take (glen (salt t)) b = contents (salt t) → (glen (salt t) + length p ≤ length b)%nat →
  take (glen (salt t) + length p) (put_at b (glen (salt t)) p) = message p.
Proof.
  intros Hb Hl. unfold put_at. rewrite Hb, app_assoc, take_app_length'; [done|].
  by rewrite length_app, length_contents.
Qed.

Lemma both_return (ids : list (list Z)) i j p q :
  i ≠ j → ids !! i = Some p → ids !! j = Some q → length p = length q → fits t q →
  ∃ b cs, rtc step (hash_init t ids) (Calls b cs) ∧
    cs !! i = Some (Returned (sum64 (message q))) ∧ cs !! j = Some (Returned (sum64 (message q))).
Proof.
  intros Hij Hp Hq Hl Hf. unfold hash_init. set (cs := Called <$> ids). set (b := backing (salt t)).
  assert (cs !! i = Some (Called p)) as Hi by (unfold cs; by rewrite list_lookup_fmap, Hp).
  assert (cs !! j = Some (Called q)) as Hj by (unfold cs; by rewrite list_lookup_fmap, Hq).
  pose proof (lookup_lt_Some _ _ _ Hi) as Li. pose proof (lookup_lt_Some _ _ _ Hj) as Lj.
  assert (glen (salt t) + length q ≤ length b)%nat as Hb by exact Hf.
  set (n := (glen (salt t) + length q)%nat). set (b1 := put_at b (glen (salt t)) p).
  assert (length b1 = length b) as Hb1 by (apply length_put_at; lia).
  set (b2 := put_at b1 (glen (salt t)) q).
  assert (length b2 = length b) as Hb2 by (rewrite <-Hb1; apply length_put_at; lia).
  assert (take n b2 = message q) as Eq.
  { apply take_put_at; [|lia]. unfold b1, put_at.
    rewrite take_app_length' by (rewrite length_take; lia). done. }
  set (cs1 := <[i := Summing n []]> cs). set (cs2 := <[j := Summing n []]> cs1).
  assert (cs2 !! i = Some (Summing n [])) as Hi2.
  { unfold cs2, cs1. rewrite list_lookup_insert_ne by done. by apply list_lookup_insert_eq. }
  set (cs3 := <[i := Returned (sum64 (take n b2))]> cs2).
  assert (cs3 !! j = Some (Summing n [])) as Hj3.
  { unfold cs3, cs2. rewrite list_lookup_insert_ne by done. apply list_lookup_insert_eq.
    unfold cs1. by rewrite length_insert. }
  exists b2, (<[j := Returned (sum64 (take n b2))]> cs3). split; [|rewrite Eq; split].
  - transitivity (Calls b1 cs1).
    { unfold cs1, b1, n. rewrite <-Hl. apply rtc_appends; [done|lia]. }
    transitivity (Calls b2 cs2).
    { apply rtc_appends; [|lia]. unfold cs1. by rewrite list_lookup_insert_ne. }
    transitivity (Calls b2 cs3); (apply rtc_sums; [done|lia]).
  - rewrite list_lookup_insert_ne by done. unfold cs3. rewrite Eq. apply list_lookup_insert_eq.
    by apply lookup_lt_Some in Hi2.
  - apply list_lookup_insert_eq. by apply lookup_lt_Some in Hj3.
Qed.
End SharedLemmas.

(** * Property *)

(** C30: goroutines that call [Hash64] of one murmur3 hasher at the same time.  As long as
    the array of the salt has room for the identifier of at most one of them, every
    interleaving ends, and every call returns the hash of the salt followed by its own
    identifier.  As soon as it has room for two identifiers of one length, some
    interleaving has both calls return the hash of the second. *)
Theorem murmur64_shared_salt sum64 t ids :
  (glen (salt t) ≤ length (backing (salt t)))%nat →
  ((∀ i j p q, ids !! i = Some p → ids !! j = Some q → fits t p → fits t q → i = j) →
   ∀ s, rtc (hash_step sum64 (glen (salt t))) (hash_init t ids) s →
     sn (hash_step sum64 (glen (salt t))) s ∧
     (nf (hash_step sum64 (glen (salt t))) s →
       calls s = (λ p, Returned (murmur64_Hash64 sum64 t p).1) <$> ids)) ∧
  (∀ i j p q, i ≠ j → ids !! i = Some p → ids !! j = Some q → length p = length q → fits t q →
   ∃ s, rtc (hash_step sum64 (glen (salt t))) (hash_init t ids) s ∧
     calls s !! i = Some (Returned (murmur64_Hash64 sum64 t q).1) ∧
     calls s !! j = Some (Returned (murmur64_Hash64 sum64 t q).1)).
Proof.
  intros Hsalt. assert (∀ p, (murmur64_Hash64 sum64 t p).1 = sum64 (contents (salt t) ++ p)) as Eh.
  { intros p. unfold murmur64_Hash64, go_append. by case_bool_decide. }
  split.
  - intros Hone s Hs. split; [by apply hash_sn|]. intros Hnf.
    pose proof (hash_run_inv sum64 t Hsalt ids Hone s Hs) as Hi.
    apply list_eq_same_length with (length ids); [by rewrite length_fmap|
      symmetry; eapply Forall2_length, Hi|]. intros k c c' _ Hc Hc'.
    destruct (hash_progress sum64 t Hsalt ids s k c Hi Hnf Hc) as [h ->].
    apply list_lookup_fmap_Some in Hc' as (p & -> & Hp).
    pose proof (Forall2_lookup_lr _ _ _ _ _ _ (ci_calls _ _ _ _ Hi) Hp Hc) as E. cbn in E. by rewrite Eh, E.
  - intros i j p q Hij Hp Hq Hl Hf.
    destruct (both_return sum64 t Hsalt ids i j p q) as (b & cs & Hs & Hi & Hj); [done..|].
    exists (Calls b cs). by rewrite Eh.
Qed.

(** A salt with room for two more bytes, and two calls. *)
Lemma murmur64_shared_salt_witness :
  let t := {| salt := {| backing := replicate 34 0; glen := 32 |} |} in
  let sum l := le_get (drop 32 l) in
  (murmur64_Hash64 sum t [7]).1 ≠ (murmur64_Hash64 sum t [8]).1 ∧
  ∃ s, rtc (hash_step sum 32) (hash_init t [[7]; [8]]) s ∧
    calls s !! 0%nat = Some (Returned (murmur64_Hash64 sum t [8]).1).
Proof.
  intros t sum. split; [by vm_compute|].
  destruct (proj2 (murmur64_shared_salt sum t [[7]; [8]] ltac:(apply (bool_decide_unpack _); by vm_compute))
    0%nat 1%nat [7] [8]) as (s & Hs & Hi & _);
    [done..|unfold fits; cbn; lia|].
  by exists s.
Defined.
