(* ===== verification/Cuckoo.v ===== *)
(** * [internal/cuckoo]: cuckoo.go

    The 3-way cuckoo hash table.  [metro.Hash64] is the argument [MetroHash];
    [rand.Intn(Nhash)] is the argument [picks], the value drawn at each round of
    an eviction: any sequence, whatever the seed. *)
From S2P Require Import Prelude Words Bits Hash.

Definition Nhash : nat := 3.
Definition ReInsertLimit : nat := 200.

(** ** [Factor*float64(size)] as an integer

    [Factor] is the double [Factor_mantissa / 2^52]. *)
Definition Factor_mantissa : Z := 6305039478318694.

(** Rounding an integer to 53 significant bits, ties to even. *)
Definition round53 (n : Z) : Z :=
  let a := Z.abs n in
  if a <? 2 ^ 53 then n
  else
    let e := Z.log2 a - 52 in
    let q := a / 2 ^ e in
    let r := a mod 2 ^ e in
    let up := (2 ^ (e - 1) <? r) || ((r =? 2 ^ (e - 1)) && Z.odd q) in
    Z.sgn n * ((if up then q + 1 else q) * 2 ^ e).

(** The double [Factor*float64(size)], its fraction discarded. *)
Definition scale_by_Factor (size : Z) : Z :=
  Z.quot (round53 (Factor_mantissa * round53 size)) (2 ^ 52).

(** The conversion of a double whose truncated value the integer type cannot
    represent succeeds with a value that depends on the implementation. *)
Class FloatConv := { uint64_overflow : Z → Z; int_overflow : Z → Z }.

(** [uint64(f)] and [int(f)], for a double with truncated value [x]. *)
Definition to_uint64 `{FloatConv} (x : Z) : Z :=
  if bool_decide (0 ≤ x < 2 ^ 64) then x else wrap 64 (uint64_overflow x).
Definition to_int `{FloatConv} (x : Z) : Z :=
  if bool_decide (- 2 ^ 63 ≤ x < 2 ^ 63) then x else wrap_int (int_overflow x).

Definition max (a b : Z) : Z := if a >? b then a else b.

(** ** Hashers *)
Record CuckooHasher := {
  bucketSize : Z;
  hashers : list metro64
}.

Section Cuckoo.
Context `{ByteOps, MetroHash, FloatConv}.

(** [for i, s := range seeds { hashers[i], err = NewMetroHasher(s) ... }]. *)
Fixpoint new_hashers (seeds : list (list Z)) : res (list metro64) :=
  match seeds with
  | [] => Ok []
  | s :: seeds =>
      match NewMetroHasher s with
      | Ok h => let! hashers := new_hashers seeds in Ok (h :: hashers)
      | Err _ => Panic "provided salt is not 32 length"
      | Panic p => Panic p
      end
  end.

(** [NewCuckooHasher]; [seeds] is an array of [Nhash] seeds. *)
Definition NewCuckooHasher (size : Z) (seeds : list (list Z)) : res CuckooHasher :=
  let bSize := max 1 (to_uint64 (scale_by_Factor size)) in
  let! hashers := new_hashers seeds in
  Ok {| bucketSize := bSize; hashers := hashers |}.

Definition GetHasher (h : CuckooHasher) : res metro64 := index (hashers h) 0.

(** [BucketIndices]: one index per hash function. *)
Definition BucketIndices (h : CuckooHasher) (item : list Z) : list Z :=
  (λ f, Hash64 f item mod bucketSize h) <$> hashers h.

(** ** The table *)
Record Cuckoo := {
  items : list (list Z);
  inserted : Z;
  hashIndices : list Z;
  bucketLookup : list Z;
  hasher : CuckooHasher
}.

(** [rb]: the bytes that [crand.Read] gives for the seed of math/rand, if it does not
    fail. *)
Definition NewCuckoo (rb : option (list Z)) (size : Z) (seeds : list (list Z)) : res Cuckoo :=
  let! cuckooHasher := NewCuckooHasher size seeds in
  match rb with
  | None => Panic "crypto/rand"
  | Some _ =>
      let! nItems := make_len (u64 (size + 1)) in
      let! nBuckets := make_len (bucketSize cuckooHasher) in
      Ok {| items := replicate nItems [];
            inserted := 0;
            hashIndices := replicate nItems 0;
            bucketLookup := replicate nBuckets 0;
            hasher := cuckooHasher |}
  end.

Definition set_items (c : Cuckoo) l := {| items := l; inserted := inserted c;
  hashIndices := hashIndices c; bucketLookup := bucketLookup c; hasher := hasher c |}.
Definition set_inserted (c : Cuckoo) n := {| items := items c; inserted := n;
  hashIndices := hashIndices c; bucketLookup := bucketLookup c; hasher := hasher c |}.
Definition set_slot (c : Cuckoo) hs bs := {| items := items c; inserted := inserted c;
  hashIndices := hs; bucketLookup := bs; hasher := hasher c |}.

Definition GetBucket (c : Cuckoo) (bIdx : Z) : res Z :=
  if bIdx >? bucketSize (hasher c) then Panic "failed to retrieve item in bucket"
  else index (bucketLookup c) bIdx.

Definition GetItemWithHash (c : Cuckoo) (idx : Z) : res (list Z * Z) :=
  if idx >? Z.of_nat (length (items c)) - 1 then Panic "index greater than number of items"
  else
    let! item := index (items c) idx in
    let! hIdx := index (hashIndices c) idx in
    Ok (item, hIdx).

Definition isEmpty (c : Cuckoo) (bidx : Z) : res bool :=
  let! v := index (bucketLookup c) bidx in Ok (v =? 0).

(** The loop of [Exists] from hash index [hIdx] on. *)
Fixpoint exists_from (c : Cuckoo) (item : list Z) (hIdx : Z) (bucketIndices : list Z)
    : res (bool * Z) :=
  match bucketIndices with
  | [] => Ok (false, 0)
  | bIdx :: rest =>
      let! v := index (bucketLookup c) bIdx in
      let! it := index (items c) v in
      if bool_decide (it = item) then Ok (true, hIdx) else exists_from c item (hIdx + 1) rest
  end.

Definition Exists (c : Cuckoo) (item : list Z) : res (bool * Z) :=
  exists_from c item 0 (BucketIndices (hasher c) item).

(** The loop of [tryAdd] from hash index [hIdx] on. *)
Fixpoint try_from (c : Cuckoo) (idx : Z) (hIdx : Z) (bucketIndices : list Z)
    (ignore : bool) (exceptBIdx : Z) : res (bool * Cuckoo) :=
  match bucketIndices with
  | [] => Ok (false, c)
  | bIdx :: rest =>
      if ignore && (exceptBIdx =? bIdx) then try_from c idx (hIdx + 1) rest ignore exceptBIdx
      else
        let! e := isEmpty c bIdx in
        if e then
          let! bs := store (bucketLookup c) bIdx idx in
          let! hs := store (hashIndices c) idx hIdx in
          Ok (true, set_slot c hs bs)
        else try_from c idx (hIdx + 1) rest ignore exceptBIdx
  end.

Definition tryAdd (c : Cuckoo) (idx : Z) (bucketIndices : list Z) (ignore : bool)
    (exceptBIdx : Z) : res (bool * Cuckoo) :=
  try_from c idx 0 bucketIndices ignore exceptBIdx.

(** The loop of [tryGreedyAdd], with [n] rounds left: the homeless index, the
    flag and the table. *)
Fixpoint greedy_from (picks : nat → Z) (n : nat) (c : Cuckoo) (idx : Z)
    (bucketIndices : list Z) : res (Z * bool * Cuckoo) :=
  match n with
  | O => Ok (idx, false, c)
  | S n' =>
      let evictedHIdx := picks n in
      let! evictedBIdx := index bucketIndices evictedHIdx in
      let! evictedIdx := index (bucketLookup c) evictedBIdx in
      let! bs := store (bucketLookup c) evictedBIdx idx in
      let! hs := store (hashIndices c) idx evictedHIdx in
      let c := set_slot c hs bs in
      let! it := index (items c) evictedIdx in
      let evictedBucketIndices := BucketIndices (hasher c) it in
      let! ' (added, c) := tryAdd c evictedIdx evictedBucketIndices true evictedBIdx in
      if added : bool then Ok (0, true, c)
      else greedy_from picks n' c evictedIdx evictedBucketIndices
  end.

Definition tryGreedyAdd (picks : nat → Z) (c : Cuckoo) (idx : Z) (bucketIndices : list Z)
    : res (Z * bool * Cuckoo) :=
  greedy_from picks (ReInsertLimit - 1) c idx bucketIndices.

(** [Insert]: the error returned, if any, and the table afterwards (the error
    leaves the table as the evictions left it). *)
Definition Insert (picks : nat → Z) (c : Cuckoo) (item : list Z) : res (option error * Cuckoo) :=
  if inserted c =? Z.of_nat (length (items c))
  then Ok (Some (ErrMsg "Cannot insert again"), c)
  else
    let! its := store (items c) (inserted c + 1) item in
    let c := set_items c its in
    let bucketIndices := BucketIndices (hasher c) item in
    let! ' (found, _) := Exists c item in
    if found : bool then Ok (None, c)
    else
      let! ' (added, c) := tryAdd c (inserted c + 1) bucketIndices false 0 in
      if added : bool then Ok (None, set_inserted c (inserted c + 1))
      else
        let! ' (_, added, c) := tryGreedyAdd picks c (inserted c + 1) bucketIndices in
        if added : bool then Ok (None, set_inserted c (inserted c + 1))
        else Ok (Some (ErrMsg "failed to Insert item"), c).

(** The occupied buckets that [LoadFactor] divides by [bucketSize]. *)
Definition occupation (c : Cuckoo) : nat :=
  length (filter (λ v, v ≠ 0) (bucketLookup c)).

Definition Len (c : Cuckoo) : Z := bucketSize (hasher c).
End Cuckoo.

(** * Lemmas *)
Section CuckooLemmas.
Context `{MetroHash}.

(** ** The table's invariant

    [slot c b i]: bucket [b] points to item [i].  [placed c live]: the indices of
    [live] are exactly those some bucket points to, each in one bucket, the one
    its recorded hash function gives. *)
Definition slot (c : Cuckoo) (b i : Z) : Prop :=
  0 ≤ b ∧ bucketLookup c !! Z.to_nat b = Some i.

Definition recorded (c : Cuckoo) (b i : Z) : Prop :=
  ∃ it h, items c !! Z.to_nat i = Some it ∧ 0 ≤ h ∧ hashIndices c !! Z.to_nat i = Some h ∧
    BucketIndices (hasher c) it !! Z.to_nat h = Some b.

Record shape (size : Z) (c : Cuckoo) : Prop := {
  shape_items : Z.of_nat (length (items c)) = size + 1;
  shape_hashIndices : Z.of_nat (length (hashIndices c)) = size + 1;
  shape_buckets : Z.of_nat (length (bucketLookup c)) = bucketSize (hasher c);
  shape_bucketSize : 0 < bucketSize (hasher c);
  shape_hashers : length (hashers (hasher c)) = Nhash;
  shape_keeper : items c !! 0%nat = Some []
}.

Record placed (size : Z) (c : Cuckoo) (live : gset Z) : Prop := {
  placed_range i : i ∈ live → 1 ≤ i ≤ size;
  placed_live b i : slot c b i → i = 0 ∨ i ∈ live;
  placed_slot i : i ∈ live → ∃ b, slot c b i ∧ recorded c b i;
  placed_once b b' i : i ≠ 0 → slot c b i → slot c b' i → b = b'
}.

Definition upto (n : Z) : gset Z := list_to_set (seqZ 1 n).

Lemma elem_of_upto n i : i ∈ upto n ↔ 1 ≤ i ≤ n.
Proof. unfold upto. rewrite elem_of_list_to_set, elem_of_seqZ. lia. Qed.

(** A table between two insertions, none of which failed. *)
Record valid (size : Z) (c : Cuckoo) : Prop := {
  valid_shape : shape size c;
  valid_inserted : 0 ≤ inserted c ≤ size;
  valid_placed : placed size c (upto (inserted c));
  valid_distinct i j it : i ∈ upto (inserted c) → j ∈ upto (inserted c) →
    items c !! Z.to_nat i = Some it → items c !! Z.to_nat j = Some it → i = j;
  valid_nonempty i : i ∈ upto (inserted c) → items c !! Z.to_nat i ≠ Some []
}.

Lemma length_BucketIndices h item : length (BucketIndices h item) = length (hashers h).
Proof. apply length_fmap. Qed.

Lemma BucketIndices_range h item b :
  0 < bucketSize h → b ∈ BucketIndices h item → 0 ≤ b < bucketSize h.
Proof. intros Hp (f & -> & _)%list_elem_of_fmap. by apply Z.mod_pos_bound. Qed.

Lemma bucket_total size c item b :
  shape size c → b ∈ BucketIndices (hasher c) item →
  ∃ v, index (bucketLookup c) b = Ok v ∧ slot c b v.
Proof.
  intros Hs Hb. apply BucketIndices_range in Hb; [|apply Hs].
  destruct (index_total (bucketLookup c) b) as [v Hv]; [rewrite (shape_buckets _ _ Hs); lia|].
  exists v. split; [done|]. apply index_Ok in Hv. done.
Qed.

Lemma slot_index c b v : slot c b v → index (bucketLookup c) b = Ok v.
Proof. intros Hs. by apply index_Ok. Qed.

Lemma slot_fun c b v w : slot c b v → slot c b w → v = w.
Proof. intros [_ Hv] [_ Hw]. congruence. Qed.

(** Writing one bucket. *)
Lemma slot_store size c b i h b' i' :
  shape size c → 0 ≤ b < bucketSize (hasher c) →
  slot (set_slot c (<[Z.to_nat i := h]> (hashIndices c)) (<[Z.to_nat b := i]> (bucketLookup c))) b' i' ↔
  (b' = b ∧ i' = i) ∨ (b' ≠ b ∧ slot c b' i').
Proof.
  intros Hs Hb. unfold slot. cbn [bucketLookup set_slot].
  pose proof (shape_buckets _ _ Hs).
  destruct (decide (b' = b)) as [->|Hne].
  - rewrite list_lookup_insert_eq by lia. split.
    + intros [_ [= <-]]. by left.
    + intros [[_ ->]|[? _]]; [split; [lia|done]|done].
  - destruct (decide (0 ≤ b')).
    + rewrite list_lookup_insert_ne by lia. split; [by right|]. by intros [[? _]|[_ ?]].
    + split; [intros [? _]; lia|intros [[-> _]|[_ [? _]]]; lia].
Qed.

Lemma shape_set_slot size c i h b v :
  shape size c → shape size (set_slot c (<[i := h]> (hashIndices c)) (<[b := v]> (bucketLookup c))).
Proof. intros [? ? ? ? ? ?]. by constructor; cbn; rewrite ?length_insert. Qed.

(** [live] loses [ev], pointed to by bucket [b], and gains [i]. *)
Lemma placed_store size c live b i h it ev :
  shape size c → placed size c live → 1 ≤ i ≤ size → i ∉ live →
  slot c b ev → items c !! Z.to_nat i = Some it → 0 ≤ h →
  BucketIndices (hasher c) it !! Z.to_nat h = Some b →
  placed size (set_slot c (<[Z.to_nat i := h]> (hashIndices c))
                          (<[Z.to_nat b := i]> (bucketLookup c)))
    ((live ∖ {[ev]}) ∪ {[i]}).
Proof.
  intros Hs Hp Hi Hni Hev Hit Hh Hb.
  assert (0 ≤ b < bucketSize (hasher c)) as Hbr.
  { eapply BucketIndices_range; [apply Hs|]. by eapply list_elem_of_lookup_2. }
  assert (∀ b', ¬ slot c b' i) as Hno.
  { intros b' Hsl. destruct (placed_live _ _ _ Hp _ _ Hsl) as [->|]; [lia|done]. }
  pose proof (slot_store size c b i h) as Hst. constructor.
  - intros j. rewrite elem_of_union, elem_of_difference, !elem_of_singleton.
    intros [[Hj _]| ->]; [by apply (placed_range _ _ _ Hp)|done].
  - intros b' j. rewrite Hst by done. intros [[-> ->]|[Hne Hsl]]; [set_solver|].
    destruct (placed_live _ _ _ Hp _ _ Hsl) as [|Hj]; [by left|right].
    destruct (decide (j = ev)) as [->|]; [|set_solver]. destruct Hne.
    apply (placed_once _ _ _ Hp _ _ ev); [|done|done].
    pose proof (placed_range _ _ _ Hp _ Hj). lia.
  - intros j. rewrite elem_of_union, elem_of_difference, !elem_of_singleton. intros [[Hj Hje]| ->].
    + destruct (placed_slot _ _ _ Hp j Hj) as (b' & Hsl & it' & h' & Hit' & Hh' & Hhi & HB).
      exists b'. rewrite Hst by done. split.
      * right. split; [|done]. intros ->. apply Hje. by eapply slot_fun.
      * exists it', h'. cbn. split_and!; try done. rewrite list_lookup_insert_ne; [done|].
        pose proof (placed_range _ _ _ Hp _ Hj). intros ?. assert (i = j) as -> by lia. done.
    + exists b. rewrite Hst by done. split; [by left|]. exists it, h. cbn. split_and!; try done.
      apply list_lookup_insert_eq. pose proof (shape_hashIndices _ _ Hs). lia.
  - intros b1 b2 j Hj. rewrite !Hst by done.
    intros [[-> ->]|[N1 S1]] [[-> ?]|[N2 S2]]; simplify_eq; try done.
    + by destruct (Hno b2).
    + by destruct (Hno b1).
    + by apply (placed_once _ _ _ Hp _ _ j).
Qed.

Definition same_items (c c' : Cuckoo) : Prop :=
  items c' = items c ∧ inserted c' = inserted c ∧ hasher c' = hasher c.

(** [tryAdd] takes the first free bucket, or finds them all occupied. *)
Lemma try_from_spec size c live idx it k bs ignore except :
  shape size c → placed size c live → 1 ≤ idx ≤ size → idx ∉ live →
  items c !! Z.to_nat idx = Some it → drop k (BucketIndices (hasher c) it) = bs →
  (∃ c', try_from c idx (Z.of_nat k) bs ignore except = Ok (true, c') ∧
     same_items c c' ∧ shape size c' ∧ placed size c' (live ∪ {[idx]})) ∨
  (try_from c idx (Z.of_nat k) bs ignore except = Ok (false, c) ∧
   ∀ b, b ∈ bs → (ignore = true ∧ except = b) ∨ ∃ v, slot c b v ∧ v ≠ 0).
Proof.
  intros Hs Hp Hi Hni Hit. revert k. induction bs as [|b bs IH]; intros k Hd; cbn [try_from].
  { right. split; [done|]. intros b Hb. by apply elem_of_nil in Hb. }
  assert (BucketIndices (hasher c) it !! k = Some b) as Hb.
  { rewrite <-(Nat.add_0_r k), <-lookup_drop, Hd. done. }
  assert (drop (S k) (BucketIndices (hasher c) it) = bs) as Hd'.
  { by rewrite <-Nat.add_1_r, <-drop_drop, Hd. }
  replace (Z.of_nat k + 1) with (Z.of_nat (S k)) by lia.
  destruct (ignore && (except =? b)) eqn:Eig.
  { destruct (IH (S k) Hd') as [|[E Hocc]]; [by left|right]. split; [done|].
    intros b' [->|Hb']%elem_of_cons; [|auto]. left.
    apply andb_true_iff in Eig as [? ?%Z.eqb_eq]. done. }
  destruct (bucket_total size c it b Hs) as (v & Ev & Hv); [by eapply list_elem_of_lookup_2|].
  unfold isEmpty. rewrite Ev. cbn [res_bind]. destruct (Z.eqb_spec v 0) as [->|Hv0].
  - left. destruct Hv as [Hb0 Hv]. pose proof (lookup_lt_Some _ _ _ Hv).
    rewrite store_Ok by lia. cbn [res_bind].
    rewrite store_Ok by (pose proof (shape_hashIndices _ _ Hs); lia). cbn [res_bind].
    eexists. split; [done|]. split; [done|]. split; [by apply shape_set_slot|].
    replace (live ∪ {[idx]}) with ((live ∖ {[0]}) ∪ {[idx]}).
    + apply (placed_store size c live b idx (Z.of_nat k) it 0); try done; [lia|].
      by rewrite Nat2Z.id.
    + apply leibniz_equiv. intros j. rewrite !elem_of_union, elem_of_difference, !elem_of_singleton.
      split; [tauto|]. intros [Hj|]; [left|by right]. split; [done|].
      intros ->. pose proof (placed_range _ _ _ Hp _ Hj). lia.
  - destruct (IH (S k) Hd') as [|[E Hocc]]; [by left|right]. split; [done|].
    intros b' [->|Hb']%elem_of_cons; [|auto]. right. by exists v.
Qed.

Lemma shape_same_hasher size c c' :
  same_items c c' → length (hashIndices c') = length (hashIndices c) →
  length (bucketLookup c') = length (bucketLookup c) → shape size c → shape size c'.
Proof.
  intros (Ei & _ & Eh) Lh Lb [? ? ? ? ? ?]. by constructor; rewrite ?Ei, ?Eh, ?Lh, ?Lb.
Qed.

(** One round of eviction, and all of them: at every moment exactly one of the
    indices, [idx] of the result, is homeless. *)
Lemma greedy_from_spec size picks n c live idx it :
  (∀ k, 0 ≤ picks k < Z.of_nat Nhash) →
  shape size c → placed size c live → 1 ≤ idx ≤ size → idx ∉ live →
  (∀ i, 1 ≤ i ≤ size → ∃ it, items c !! Z.to_nat i = Some it) →
  items c !! Z.to_nat idx = Some it →
  (∀ b, b ∈ BucketIndices (hasher c) it → ∃ v, slot c b v ∧ v ≠ 0) →
  ∃ idx' added c', greedy_from picks n c idx (BucketIndices (hasher c) it) = Ok (idx', added, c') ∧
    same_items c c' ∧ shape size c' ∧
    if added : bool then placed size c' (live ∪ {[idx]})
    else idx' ∈ live ∪ {[idx]} ∧ placed size c' ((live ∪ {[idx]}) ∖ {[idx']}).
Proof.
  intros Hpick. revert c live idx it.
  induction n as [|n IH]; intros c live idx it Hs Hp Hi Hni Hall Hit Hocc; cbn [greedy_from].
  { exists idx, false, c. split_and!; try done; [set_solver|].
    replace ((live ∪ {[idx]}) ∖ {[idx]}) with live; [done|]. apply leibniz_equiv. set_solver. }
  set (h := picks (S n)). specialize (Hpick (S n)) as Hh. fold h in Hh.
  destruct (index_total (BucketIndices (hasher c) it) h) as [b Eb].
  { rewrite length_BucketIndices, (shape_hashers _ _ Hs). done. }
  rewrite Eb. cbn [res_bind]. apply index_Ok in Eb as [Hh0 Eb].
  assert (b ∈ BucketIndices (hasher c) it) as Hbin by (by eapply list_elem_of_lookup_2).
  destruct (Hocc b Hbin) as (ev & Hev & Hev0). rewrite (slot_index _ _ _ Hev). cbn [res_bind].
  pose proof (BucketIndices_range _ _ _ (shape_bucketSize _ _ Hs) Hbin) as Hbr.
  pose proof (shape_buckets _ _ Hs). pose proof (shape_hashIndices _ _ Hs).
  rewrite store_Ok by lia. cbn [res_bind]. rewrite store_Ok by lia. cbn [res_bind].
  set (c1 := set_slot c _ _).
  destruct (placed_live _ _ _ Hp _ _ Hev) as [|Hevl]; [done|].
  pose proof (placed_range _ _ _ Hp _ Hevl) as Hevr.
  assert (shape size c1) as Hs1 by (by apply shape_set_slot).
  pose proof (placed_store size c live b idx h it ev Hs Hp Hi Hni Hev Hit Hh0 Eb) as Hp1.
  fold c1 in Hp1. destruct (Hall ev Hevr) as [evit Hevit].
  change (items c1) with (items c). change (hasher c1) with (hasher c).
  assert (index (items c) ev = Ok evit) as -> by (apply index_Ok; split; [lia|done]).
  cbn [res_bind]. assert (ev ≠ idx) as Hne by (intros ->; done).
  assert (((live ∖ {[ev]}) ∪ {[idx]}) ∪ {[ev]} = live ∪ {[idx]}) as Elive.
  { apply leibniz_equiv. intros j. rewrite !elem_of_union, elem_of_difference, !elem_of_singleton.
    destruct (decide (j = ev)) as [->|]; tauto. }
  destruct (try_from_spec size c1 ((live ∖ {[ev]}) ∪ {[idx]}) ev evit 0
    (BucketIndices (hasher c1) evit) true b) as [(c2 & E & Hsame & Hs2 & Hp2)|[E Hocc1]];
    [done|done|done|set_solver|done|done|..]; unfold tryAdd;
    change (hasher c1) with (hasher c) in E; change (Z.of_nat 0) with 0 in E; rewrite E; cbn [res_bind].
  - rewrite Elive in Hp2. exists 0, true, c2. done.
  - destruct (IH c1 ((live ∖ {[ev]}) ∪ {[idx]}) ev evit) as (idx' & added & c' & E' & Hsame & Hs' & Hr);
      [done|done|done|set_solver|done|done| |].
    { intros b' Hb'. destruct (Hocc1 b' Hb') as [[_ <-]|Hv]; [|done].
      exists idx. split; [|lia]. apply (slot_store size); [done|done|by left]. }
    change (hasher c1) with (hasher c) in E'. exists idx', added, c'. rewrite E'. rewrite Elive in Hr. done.
Qed.

(** The items a table holds. *)
Definition holds (c : Cuckoo) (live : gset Z) (item : list Z) : Prop :=
  ∃ i, i ∈ live ∧ items c !! Z.to_nat i = Some item.

Lemma item_total size c i :
  shape size c → 0 ≤ i ≤ size → ∃ it, items c !! Z.to_nat i = Some it.
Proof. intros Hs Hi. apply lookup_lt_is_Some_2. pose proof (shape_items _ _ Hs). lia. Qed.

Lemma exists_from_spec size c live item k bs :
  shape size c → placed size c live → item ≠ [] →
  drop k (BucketIndices (hasher c) item) = bs →
  ∃ found h, exists_from c item (Z.of_nat k) bs = Ok (found, h) ∧
    if found : bool then
      ∃ b i, 0 ≤ h ∧ BucketIndices (hasher c) item !! Z.to_nat h = Some b ∧ slot c b i ∧
             i ∈ live ∧ items c !! Z.to_nat i = Some item
    else ∀ b i, b ∈ bs → slot c b i → items c !! Z.to_nat i ≠ Some item.
Proof.
  intros Hs Hp Hne. revert k. induction bs as [|b bs IH]; intros k Hd; cbn [exists_from].
  { exists false, 0. split; [done|]. intros b i Hb. by apply elem_of_nil in Hb. }
  assert (BucketIndices (hasher c) item !! k = Some b) as Hb.
  { rewrite <-(Nat.add_0_r k), <-lookup_drop, Hd. done. }
  assert (drop (S k) (BucketIndices (hasher c) item) = bs) as Hd'.
  { by rewrite <-Nat.add_1_r, <-drop_drop, Hd. }
  destruct (bucket_total size c item b Hs) as (v & Ev & Hv); [by eapply list_elem_of_lookup_2|].
  rewrite Ev. cbn [res_bind].
  assert (0 ≤ v ≤ size) as Hvr.
  { destruct (placed_live _ _ _ Hp _ _ Hv) as [->|Hl].
    - pose proof (shape_items _ _ Hs). pose proof (lookup_lt_Some _ _ _ (shape_keeper _ _ Hs)). lia.
    - pose proof (placed_range _ _ _ Hp _ Hl). lia. }
  destruct (item_total size c v Hs Hvr) as [it Hit].
  assert (index (items c) v = Ok it) as -> by (apply index_Ok; split; [lia|done]). cbn [res_bind].
  case_bool_decide as Eit.
  - subst it. exists true, (Z.of_nat k). split; [done|]. exists b, v. rewrite Nat2Z.id.
    split_and!; [lia|done|done| |done].
    destruct (placed_live _ _ _ Hp _ _ Hv) as [->|]; [|done].
    pose proof (shape_keeper _ _ Hs) as Hk. change (Z.to_nat 0) with 0%nat in Hit. congruence.
  - replace (Z.of_nat k + 1) with (Z.of_nat (S k)) by lia.
    destruct (IH (S k) Hd') as (found & h & E & Hr). exists found, h. split; [done|].
    destruct found; [done|]. intros b' i [->|Hb']%elem_of_cons Hsl.
    + rewrite (slot_fun _ _ _ _ Hsl Hv). congruence.
    + by apply (Hr b' i).
Qed.

Lemma Exists_spec size c live item :
  shape size c → placed size c live → item ≠ [] →
  ∃ found h, Exists c item = Ok (found, h) ∧ (found = true ↔ holds c live item) ∧
    (found = true → ∃ b i, 0 ≤ h ∧ BucketIndices (hasher c) item !! Z.to_nat h = Some b ∧
       slot c b i ∧ i ∈ live ∧ items c !! Z.to_nat i = Some item).
Proof.
  intros Hs Hp Hne.
  destruct (exists_from_spec size c live item 0 _ Hs Hp Hne eq_refl) as (found & h & E & Hr).
  exists found, h. split; [exact E|]. destruct found.
  - split; [|done]. split; [|done]. intros _. destruct Hr as (b & i & _ & _ & _ & Hi & Hit). by exists i.
  - split; [|done]. split; [done|]. intros (i & Hi & Hit). exfalso.
    destruct (placed_slot _ _ _ Hp i Hi) as (b & Hsl & it & h' & Hit' & _ & _ & HB).
    assert (it = item) as -> by congruence. apply (Hr b i); [|done|done].
    by eapply list_elem_of_lookup_2.
Qed.

(** Writing the next item does not touch the placed ones. *)
Lemma set_next_item size c item :
  valid size c → inserted c < size →
  store (items c) (inserted c + 1) item = Ok (<[Z.to_nat (inserted c + 1) := item]> (items c)) ∧
  shape size (set_items c (<[Z.to_nat (inserted c + 1) := item]> (items c))) ∧
  placed size (set_items c (<[Z.to_nat (inserted c + 1) := item]> (items c))) (upto (inserted c)).
Proof.
  intros [Hs Hi Hp _ _] Hlt. pose proof (shape_items _ _ Hs). split; [apply store_Ok; lia|]. split.
  - destruct Hs as [? ? ? ? ? Hk]. constructor; cbn; rewrite ?length_insert; try done.
    by rewrite list_lookup_insert_ne by lia.
  - destruct Hp as [Q1 Q2 Q3 Q4]. constructor; try done. intros j Hj.
    destruct (Q3 j Hj) as (b & Hsl & it & h & Hit & Hr). exists b. split; [done|].
    exists it, h. split; [|done]. cbn. apply elem_of_upto in Hj.
    by rewrite list_lookup_insert_ne by lia.
Qed.

Lemma upto_succ n : 0 ≤ n → upto n ∪ {[n + 1]} = upto (n + 1).
Proof.
  intros Hn. apply leibniz_equiv. intros j.
  rewrite elem_of_union, elem_of_singleton, !elem_of_upto. lia.
Qed.

Lemma holds_next c c' item x :
  0 ≤ inserted c → items c' = <[Z.to_nat (inserted c + 1) := item]> (items c) →
  Z.of_nat (length (items c)) > inserted c + 1 →
  (holds c' (upto (inserted c)) x ↔ holds c (upto (inserted c)) x) ∧
  (holds c' (upto (inserted c + 1)) x ↔ x = item ∨ holds c (upto (inserted c)) x).
Proof.
  intros H0' Ei Hl. unfold holds. rewrite Ei. split.
  - split; intros (i & Hi & Hx); exists i; (split; [done|]); apply elem_of_upto in Hi.
    + by rewrite list_lookup_insert_ne in Hx by lia.
    + by rewrite list_lookup_insert_ne by lia.
  - split.
    + intros (i & Hi & Hx). apply elem_of_upto in Hi.
      destruct (decide (i = inserted c + 1)) as [->|].
      * left. rewrite list_lookup_insert_eq in Hx by lia. congruence.
      * right. exists i. rewrite list_lookup_insert_ne in Hx by lia.
        split; [|done]. apply elem_of_upto. lia.
    + intros [->|(i & Hi & Hx)].
      * exists (inserted c + 1). rewrite list_lookup_insert_eq by lia.
        split; [|done]. apply elem_of_upto. lia.
      * exists i. apply elem_of_upto in Hi. rewrite list_lookup_insert_ne by lia.
        split; [|done]. apply elem_of_upto. lia.
Qed.

Lemma distinct_next c c' item :
  0 ≤ inserted c → items c' = <[Z.to_nat (inserted c + 1) := item]> (items c) →
  Z.of_nat (length (items c)) > inserted c + 1 → item ≠ [] → ¬ holds c (upto (inserted c)) item →
  (∀ i j it, i ∈ upto (inserted c) → j ∈ upto (inserted c) →
    items c !! Z.to_nat i = Some it → items c !! Z.to_nat j = Some it → i = j) →
  (∀ i, i ∈ upto (inserted c) → items c !! Z.to_nat i ≠ Some []) →
  (∀ i j it, i ∈ upto (inserted c + 1) → j ∈ upto (inserted c + 1) →
    items c' !! Z.to_nat i = Some it → items c' !! Z.to_nat j = Some it → i = j) ∧
  (∀ i, i ∈ upto (inserted c + 1) → items c' !! Z.to_nat i ≠ Some []).
Proof.
  intros H0' Ei Hl Hne Hnew Hd Hn.
  assert (∀ i it, i ∈ upto (inserted c + 1) → items c' !! Z.to_nat i = Some it →
    i = inserted c + 1 ∧ it = item ∨ i ∈ upto (inserted c) ∧ items c !! Z.to_nat i = Some it) as Hcase.
  { intros i it Hi. rewrite Ei. apply elem_of_upto in Hi. destruct (decide (i = inserted c + 1)) as [->|].
    - rewrite list_lookup_insert_eq by lia. intros [= <-]. by left.
    - rewrite list_lookup_insert_ne by lia. right. split; [|done]. apply elem_of_upto. lia. }
  split.
  - intros i j it Hi Hj Hit Hjt.
    destruct (Hcase i it Hi Hit) as [[-> ->]|[Hi' Hit']], (Hcase j _ Hj Hjt) as [[-> ?]|[Hj' Hjt']].
    + done.
    + destruct Hnew. by exists j.
    + subst it. destruct Hnew. by exists i.
    + by apply (Hd i j it).
  - intros i Hi Hit. destruct (Hcase i [] Hi Hit) as [[_ E]|[Hi' Hit']]; [done|].
    by apply (Hn i).
Qed.

Lemma distinct_same c c' item :
  0 ≤ inserted c → items c' = <[Z.to_nat (inserted c + 1) := item]> (items c) →
  ∀ i, i ∈ upto (inserted c) → items c' !! Z.to_nat i = items c !! Z.to_nat i.
Proof. intros H0' -> i Hi%elem_of_upto. by rewrite list_lookup_insert_ne by lia. Qed.

(** The outcomes of one insertion in a table that has room. *)
Inductive insert_outcome (size : Z) (c : Cuckoo) (item : list Z) : option error * Cuckoo → Prop :=
| insert_found c' :
    holds c (upto (inserted c)) item → valid size c' → inserted c' = inserted c →
    hasher c' = hasher c → bucketLookup c' = bucketLookup c →
    items c' = <[Z.to_nat (inserted c + 1) := item]> (items c) →
    insert_outcome size c item (None, c')
| insert_new c' :
    ¬ holds c (upto (inserted c)) item → valid size c' → inserted c' = inserted c + 1 →
    hasher c' = hasher c → items c' = <[Z.to_nat (inserted c + 1) := item]> (items c) →
    insert_outcome size c item (None, c')
| insert_homeless e c' homeless :
    ¬ holds c (upto (inserted c)) item → shape size c' → inserted c' = inserted c →
    hasher c' = hasher c → items c' = <[Z.to_nat (inserted c + 1) := item]> (items c) →
    1 ≤ homeless ≤ inserted c + 1 →
    placed size c' (upto (inserted c + 1) ∖ {[homeless]}) →
    insert_outcome size c item (Some e, c').

Lemma Insert_spec size picks c item :
  (∀ k, 0 ≤ picks k < Z.of_nat Nhash) → valid size c → inserted c < size → item ≠ [] →
  ∃ r, Insert picks c item = Ok r ∧ insert_outcome size c item r.
Proof.
  intros Hpick Hv Hlt Hne. pose proof Hv as [Hs Hi Hp _ _].
  destruct (set_next_item size c item Hv Hlt) as (Est & Hs1 & Hp1).
  pose proof (shape_items _ _ Hs) as Hlen. unfold Insert.
  destruct (Z.eqb_spec (inserted c) (Z.of_nat (length (items c)))) as [|_]; [lia|].
  rewrite Est. cbn [res_bind]. set (c1 := set_items c _) in *.
  assert (inserted c1 = inserted c) as Ei by done.
  assert (items c1 = <[Z.to_nat (inserted c + 1) := item]> (items c)) as Eits by done.
  destruct (Exists_spec size c1 _ item Hs1 Hp1 Hne) as (found & h & E & Hfound & _).
  rewrite E. cbn [res_bind].
  destruct (holds_next c c1 item item) as [Hsame _]; [lia|done|lia|].
  rewrite Hsame in Hfound. destruct found.
  { eexists; split; [done|]. apply insert_found; [by apply Hfound| |done..].
    pose proof (distinct_same c c1 item ltac:(lia) Eits) as Hsi.
    constructor; rewrite ?Ei; try done.
    - intros i j it Hi' Hj'. rewrite !Hsi by done. by apply (valid_distinct _ _ Hv).
    - intros i Hi'. rewrite Hsi by done. by apply (valid_nonempty _ _ Hv). }
  assert (¬ holds c (upto (inserted c)) item) as Hnew by (intros Hh; by apply Hfound in Hh).
  destruct (distinct_next c c1 item) as [Hd1 Hn1]; [lia|done|lia|done|done|apply Hv|apply Hv|].
  assert (inserted c + 1 ∉ upto (inserted c)) as Hni by (rewrite elem_of_upto; lia).
  assert (items c1 !! Z.to_nat (inserted c + 1) = Some item) as Hit.
  { rewrite Eits. apply list_lookup_insert_eq. lia. }
  rewrite Ei.
  destruct (try_from_spec size c1 (upto (inserted c)) (inserted c + 1) item 0
    (BucketIndices (hasher c1) item) false 0) as [(c2 & E2 & (I2 & N2 & Hh2) & Hs2 & Hp2)|[E2 Hocc]];
    [done|done|lia|done|done|done|..]; unfold tryAdd; change (Z.of_nat 0) with 0 in E2;
    rewrite E2; cbn [res_bind].
  - rewrite upto_succ in Hp2 by lia. eexists; split; [done|].
    rewrite Ei in N2. rewrite N2. apply insert_new; cbn; try done.
    constructor; cbn; rewrite ?I2; [|lia| |done|done].
    + destruct Hs2. by constructor.
    + destruct Hp2. by constructor.
  - destruct (greedy_from_spec size picks (ReInsertLimit - 1) c1 (upto (inserted c))
      (inserted c + 1) item) as (idx' & added & c2 & E3 & (I2 & N2 & Hh2) & Hs2 & Hr);
      [done|done|done|lia|done|intros; by apply (item_total size); [|lia]|done| |].
    { intros b Hb. destruct (Hocc b Hb) as [[? _]|]; done. }
    unfold tryGreedyAdd. rewrite Ei, E3. cbn [res_bind]. rewrite upto_succ in Hr by lia.
    rewrite Ei in N2. destruct added; (eexists; split; [done|]).
    + rewrite N2. apply insert_new; cbn; try done.
      constructor; cbn; rewrite ?I2; [|lia| |done|done].
      * destruct Hs2. by constructor.
      * destruct Hr. by constructor.
    + destruct Hr as [Hin Hr]. apply elem_of_upto in Hin.
      by apply (insert_homeless _ _ _ _ _ idx').
Qed.

(** ** Rounding to 53 bits *)
Lemma round53_error n : 0 ≤ n → Z.abs (round53 n - n) * 2 ^ 53 ≤ n.
Proof.
  intros Hn. unfold round53. rewrite (Z.abs_eq n Hn). destruct (Z.ltb_spec n (2 ^ 53)) as [Hlt|Hge]; [lia|].
  rewrite (Z.sgn_pos n), Z.mul_1_l by lia.
  assert (53 ≤ Z.log2 n) as Hlog by (apply Z.log2_le_pow2; lia).
  set (e := Z.log2 n - 52) in *. assert (1 ≤ e) by lia.
  pose proof (Z.log2_spec n ltac:(lia)) as [Hlo _].
  assert (2 ^ Z.log2 n = 2 ^ (e - 1) * 2 ^ 53) as Hpow.
  { rewrite <-Z.pow_add_r by lia. f_equal. unfold e. lia. }
  assert (2 ^ e = 2 * 2 ^ (e - 1)) as He by (rewrite <-Z.pow_succ_r by lia; f_equal; lia).
  assert (0 < 2 ^ (e - 1)) by lia.
  pose proof (Z.div_mod n (2 ^ e) ltac:(lia)) as Hdm.
  pose proof (Z.mod_pos_bound n (2 ^ e) ltac:(lia)) as Hmod.
  set (q := n / 2 ^ e) in *. set (r := n mod 2 ^ e) in *. clearbody q r.
  enough (Z.abs ((if (2 ^ (e - 1) <? r) || ((r =? 2 ^ (e - 1)) && Z.odd q) then q + 1 else q) * 2 ^ e - n)
          ≤ 2 ^ (e - 1)) by nia.
  destruct (Z.ltb_spec (2 ^ (e - 1)) r); cbn [orb]; [nia|].
  destruct (Z.eqb_spec r (2 ^ (e - 1))); cbn [andb]; [|nia]. destruct (Z.odd q); nia.
Qed.

Lemma round53_nonneg n : 0 ≤ n → 0 ≤ round53 n.
Proof. intros Hn. pose proof (round53_error n Hn). lia. Qed.

Lemma round53_small n : Z.abs n < 2 ^ 53 → round53 n = n.
Proof. intros Hn. unfold round53. destruct (Z.ltb_spec (Z.abs n) (2 ^ 53)); lia. Qed.

Lemma round53_opp n : round53 (- n) = - round53 n.
Proof.
  unfold round53. rewrite Z.abs_opp, Z.sgn_opp. destruct (Z.abs n <? 2 ^ 53); [done|].
  by rewrite Z.mul_opp_l.
Qed.

(** The double is symmetric about 0. *)
Lemma scale_by_Factor_opp size : scale_by_Factor (- size) = - scale_by_Factor size.
Proof.
  unfold scale_by_Factor. rewrite round53_opp, Z.mul_opp_r, round53_opp.
  by rewrite Z.quot_opp_l.
Qed.

Lemma scale_by_Factor_bounds size :
  1 ≤ size ≤ 2 ^ 49 →
  7 * size / 5 - 1 ≤ scale_by_Factor size ≤ 7 * size / 5 ∧ size ≤ scale_by_Factor size.
Proof.
  intros Hs. unfold scale_by_Factor. rewrite (round53_small size) by lia.
  set (p := Factor_mantissa * size).
  pose proof (round53_error p ltac:(unfold p, Factor_mantissa; lia)) as Herr.
  pose proof (round53_nonneg p ltac:(unfold p, Factor_mantissa; lia)) as Hpos.
  set (r := round53 p) in *. clearbody r. unfold p, Factor_mantissa in Herr.
  rewrite Z.quot_div_nonneg by lia.
  assert (7 * size / 5 * 5 ≤ 7 * size < 7 * size / 5 * 5 + 5) as Hf by dlia.
  set (f := 7 * size / 5) in *. clearbody f. clear p.
  assert (f - 1 ≤ r / 2 ^ 52) by (apply Z.div_le_lower_bound; lia).
  assert (r / 2 ^ 52 < f + 1) by (apply Z.div_lt_upper_bound; lia).
  assert (size ≤ r / 2 ^ 52) by (apply Z.div_le_lower_bound; lia). lia.
Qed.

(** The whole range of [uint64]: the error of double precision is at most 13107. *)
Lemma scale_by_Factor_error size :
  0 ≤ size < 2 ^ 64 → 0 ≤ scale_by_Factor size ∧ Z.abs (5 * scale_by_Factor size - 7 * size) ≤ 2 ^ 16.
Proof.
  intros Hs. unfold scale_by_Factor.
  pose proof (round53_error size ltac:(lia)) as Herr1. pose proof (round53_nonneg size ltac:(lia)) as Hpos1.
  set (t := round53 size) in *. clearbody t. set (p := Factor_mantissa * t).
  assert (0 ≤ p) as Hp by (unfold p, Factor_mantissa; lia).
  pose proof (round53_error p Hp) as Herr2. pose proof (round53_nonneg p Hp) as Hpos2.
  set (r := round53 p) in *. clearbody r. unfold p, Factor_mantissa in Herr2. clear p Hp.
  rewrite Z.quot_div_nonneg by lia. pose proof (Z.div_mod r (2 ^ 52) ltac:(lia)).
  pose proof (Z.mod_pos_bound r (2 ^ 52) ltac:(lia)).
  set (q := r / 2 ^ 52) in *. set (m := r mod 2 ^ 52) in *. clearbody q m. lia.
Qed.

(** ** Runs of insertions, stopped by the first error *)
Fixpoint insert_all (picks : nat → nat → Z) (k : nat) (c : Cuckoo) (ids : list (list Z))
    : res (option error * Cuckoo) :=
  match ids with
  | [] => Ok (None, c)
  | id :: ids =>
      let! ' (e, c) := Insert (picks k) c id in
      match e with
      | Some e => Ok (Some e, c)
      | None => insert_all picks (S k) c ids
      end
  end.

Lemma insert_all_spec size picks k c ids :
  (∀ k j, 0 ≤ picks k j < Z.of_nat Nhash) → valid size c →
  inserted c + Z.of_nat (length ids) ≤ size → Forall (λ id, id ≠ []) ids →
  ∃ e c', insert_all picks k c ids = Ok (e, c') ∧ hasher c' = hasher c ∧
    (e = None → valid size c' ∧ inserted c ≤ inserted c' ∧
       ∀ x, holds c' (upto (inserted c')) x ↔ x ∈ ids ∨ holds c (upto (inserted c)) x).
Proof.
  intros Hpick. revert k c. induction ids as [|id ids IH]; intros k c Hv Hlen Hne; cbn [insert_all].
  { exists None, c. split; [done|]. split; [done|]. intros _. split; [done|]. split; [lia|].
    intros x. rewrite elem_of_nil. tauto. }
  apply Forall_cons in Hne as [Hid Hne]. cbn [length] in Hlen.
  pose proof (valid_inserted _ _ Hv) as Hi. pose proof (shape_items _ _ (valid_shape _ _ Hv)) as Hl.
  destruct (Insert_spec size (picks k) c id (Hpick k) Hv ltac:(lia) Hid) as (r & -> & Hr).
  cbn [res_bind]. destruct Hr as [c1 Hin Hv1 Ei Eh _ Eit|c1 Hnew Hv1 Ei Eh Eit|e c1 homeless _ _ _ Eh _ _ _].
  - destruct (IH (S k) c1 Hv1 ltac:(lia) Hne) as (e & c' & -> & Eh' & Hr).
    exists e, c'. split; [done|]. split; [congruence|]. intros He.
    destruct (Hr He) as (Hv' & Hle & Hh). split; [done|]. split; [lia|]. intros x. rewrite Hh, Ei.
    destruct (holds_next c c1 id x ltac:(lia) Eit ltac:(lia)) as [-> _].
    rewrite elem_of_cons. naive_solver.
  - destruct (IH (S k) c1 Hv1 ltac:(lia) Hne) as (e & c' & -> & Eh' & Hr).
    exists e, c'. split; [done|]. split; [congruence|]. intros He.
    destruct (Hr He) as (Hv' & Hle & Hh). split; [done|]. split; [lia|]. intros x. rewrite Hh, Ei.
    destruct (holds_next c c1 id x ltac:(lia) Eit ltac:(lia)) as [_ ->].
    rewrite elem_of_cons. tauto.
  - exists (Some e), c1. split; [done|]. split; [done|]. done.
Qed.

(** ** Reading a table back *)
Lemma read_item size c i :
  shape size c → 0 ≤ i ≤ size →
  ∃ it h, GetItemWithHash c i = Ok (it, h) ∧
    items c !! Z.to_nat i = Some it ∧ hashIndices c !! Z.to_nat i = Some h.
Proof.
  intros Hs Hi. destruct (item_total size c i Hs Hi) as [it Hit].
  destruct (index_total (hashIndices c) i) as [h Hh]; [pose proof (shape_hashIndices _ _ Hs); lia|].
  exists it, h. unfold GetItemWithHash.
  destruct (Z.gtb_spec i (Z.of_nat (length (items c)) - 1)); [pose proof (shape_items _ _ Hs); lia|].
  assert (index (items c) i = Ok it) as -> by (apply index_Ok; split; [lia|done]).
  cbn [res_bind]. rewrite Hh. cbn [res_bind]. split; [done|]. split; [done|].
  by apply index_Ok in Hh as [_ ?].
Qed.

Lemma GetBucket_slot size c b :
  shape size c → 0 ≤ b < bucketSize (hasher c) → ∃ i, GetBucket c b = Ok i ∧ slot c b i.
Proof.
  intros Hs Hb. unfold GetBucket. destruct (Z.gtb_spec b (bucketSize (hasher c))); [lia|].
  destruct (index_total (bucketLookup c) b) as [v Hv]; [rewrite (shape_buckets _ _ Hs); lia|].
  exists v. split; [done|]. by apply index_Ok in Hv.
Qed.

(** What a bucket of a valid table contains. *)
Lemma bucket_content size c b :
  valid size c → 0 ≤ b < bucketSize (hasher c) →
  GetBucket c b = Ok 0 ∨
  ∃ i it h, GetBucket c b = Ok i ∧ 1 ≤ i ≤ inserted c ∧ GetItemWithHash c i = Ok (it, h) ∧
    0 ≤ h ∧ BucketIndices (hasher c) it !! Z.to_nat h = Some b ∧ it ≠ [] ∧
    holds c (upto (inserted c)) it.
Proof.
  intros Hv Hb. pose proof Hv as [Hs Hi Hp _ Hn].
  destruct (GetBucket_slot size c b Hs Hb) as (i & E & Hsl).
  destruct (placed_live _ _ _ Hp _ _ Hsl) as [->|Hl]; [by left|right].
  destruct (placed_slot _ _ _ Hp i Hl) as (b' & Hsl' & it & h & Hit & Hh0 & Hh & HB).
  pose proof Hl as Hl'. apply elem_of_upto in Hl'.
  assert (b' = b) as -> by (apply (placed_once _ _ _ Hp _ _ i); [lia|done|done]).
  destruct (read_item size c i Hs ltac:(lia)) as (it' & h' & Eg & Hit' & Hh').
  assert (it' = it) as -> by congruence. assert (h' = h) as -> by congruence.
  exists i, it, h. split_and!; try done.
  - lia.
  - lia.
  - intros ->. by apply (Hn i).
  - by exists i.
Qed.

Lemma item_bucket size c it :
  valid size c → holds c (upto (inserted c)) it →
  ∃ b i h, 0 ≤ b < bucketSize (hasher c) ∧ GetBucket c b = Ok i ∧ i ≠ 0 ∧
    GetItemWithHash c i = Ok (it, h) ∧ BucketIndices (hasher c) it !! Z.to_nat h = Some b.
Proof.
  intros Hv (i & Hi & Hit). pose proof Hv as [Hs Hins Hp _ _].
  destruct (placed_slot _ _ _ Hp i Hi) as (b & Hsl & it' & h & Hit' & Hh0 & Hh & HB). simplify_eq.
  apply elem_of_upto in Hi.
  destruct (read_item size c i Hs ltac:(lia)) as (it2 & h2 & Eg & Hit2 & Hh2). simplify_eq.
  assert (0 ≤ b < bucketSize (hasher c)) as Hb.
  { eapply BucketIndices_range; [apply Hs|]. by eapply list_elem_of_lookup_2. }
  destruct (GetBucket_slot size c b Hs Hb) as (i' & E & Hsl').
  rewrite (slot_fun _ _ _ _ Hsl' Hsl) in E. exists b, i, h. split_and!; try done; lia.
Qed.

Lemma NoDup_filter_lookup {A} (P : A → Prop) `{!∀ x, Decision (P x)} (l : list A) :
  (∀ j k v, P v → l !! j = Some v → l !! k = Some v → j = k) → NoDup (filter P l).
Proof.
  induction l as [|x l IH]; intros Hl; [constructor|].
  assert (NoDup (filter P l)) as Hnd.
  { apply IH. intros j k v Hv Hj Hk. by assert (S j = S k) by (by apply (Hl _ _ v)); simplify_eq. }
  rewrite filter_cons. case_decide as Hx; [|done]. constructor; [|done].
  rewrite list_elem_of_filter. intros [_ [k Hk]%list_elem_of_lookup].
  by assert (0 = S k)%nat by (by apply (Hl _ _ x)).
Qed.

Lemma occupation_inserted size c : valid size c → Z.of_nat (occupation c) = inserted c.
Proof.
  intros [Hs Hi Hp _ _]. unfold occupation.
  assert (filter (λ v, v ≠ 0) (bucketLookup c) ≡ₚ seqZ 1 (inserted c)) as ->;
    [|rewrite length_seqZ; lia].
  apply NoDup_Permutation.
  - apply NoDup_filter_lookup. intros j k v Hv0 Hj Hk.
    enough (Z.of_nat j = Z.of_nat k) by lia.
    apply (placed_once _ _ _ Hp _ _ v Hv0); (split; [lia|by rewrite Nat2Z.id]).
  - apply NoDup_seqZ.
  - intros v. rewrite list_elem_of_filter, elem_of_seqZ. split.
    + intros [Hv0 [b Hb]%list_elem_of_lookup].
      destruct (placed_live _ _ _ Hp (Z.of_nat b) v) as [|Hl]; [split; [lia|by rewrite Nat2Z.id]|done|].
      apply elem_of_upto in Hl. lia.
    + intros Hv. destruct (placed_slot _ _ _ Hp v) as (b & [Hb0 Hb] & _); [apply elem_of_upto; lia|].
      split; [lia|]. by eapply list_elem_of_lookup_2.
Qed.

Lemma distinct_count size c ids :
  valid size c → (∀ x, holds c (upto (inserted c)) x ↔ x ∈ ids) →
  inserted c = Z.of_nat (length (remove_dups ids)).
Proof.
  intros [Hs Hi Hp Hd _] Hh.
  assert (∀ i, i ∈ seqZ 1 (inserted c) → items c !! Z.to_nat i = Some (items c !!! Z.to_nat i)) as Htot.
  { intros i Hi'%elem_of_seqZ. destruct (item_total size c i Hs ltac:(lia)) as [it Hit].
    by rewrite (list_lookup_total_correct _ _ _ Hit). }
  assert ((λ i, items c !!! Z.to_nat i) <$> seqZ 1 (inserted c) ≡ₚ remove_dups ids) as E.
  { apply NoDup_Permutation.
    - apply NoDup_fmap_2_strong; [|apply NoDup_seqZ]. intros i j Hi' Hj' Heq.
      apply (Hd i j (items c !!! Z.to_nat i)).
      + apply elem_of_seqZ in Hi'. apply elem_of_upto. lia.
      + apply elem_of_seqZ in Hj'. apply elem_of_upto. lia.
      + by apply Htot.
      + rewrite Heq. by apply Htot.
    - apply NoDup_remove_dups.
    - intros x. rewrite elem_of_remove_dups, <-Hh, list_elem_of_fmap. split.
      + intros (i & -> & Hi'). exists i. split; [|by apply Htot].
        apply elem_of_seqZ in Hi'. apply elem_of_upto. lia.
      + intros (i & Hi' & Hx). exists i. rewrite (list_lookup_total_correct _ _ _ Hx).
        split; [done|]. apply elem_of_upto in Hi'. apply elem_of_seqZ. lia. }
  apply Permutation_length in E. rewrite length_fmap, length_seqZ in E. lia.
Qed.

(** ** Properties *)

(** C15: inserting a non-empty item into a table of [size] items that has room
    never panics.  When it reports success the table is valid again, finds exactly
    the items it found before and the new one, and has grown by one item exactly
    when the item was not there; an item found before is found again. *)
Theorem Insert_success size picks c item :
  (∀ k, 0 ≤ picks k < Z.of_nat Nhash) → valid size c → inserted c < size → item ≠ [] →
  ∃ e c', Insert picks c item = Ok (e, c') ∧ hasher c' = hasher c ∧
    (e = None →
       valid size c' ∧
       (inserted c' = inserted c ∨ inserted c' = inserted c + 1) ∧
       (inserted c' = inserted c ↔ ∃ h, Exists c item = Ok (true, h)) ∧
       ∀ x, x ≠ [] → ∃ found h, Exists c' x = Ok (found, h) ∧
         (found = true ↔ x = item ∨ ∃ h', Exists c x = Ok (true, h'))).
Proof.
  intros Hpick Hv Hlt Hne. pose proof Hv as [Hs Hi Hp _ _].
  assert (∀ x, x ≠ [] → holds c (upto (inserted c)) x ↔ ∃ h, Exists c x = Ok (true, h)) as Hex.
  { intros x Hx. destruct (Exists_spec size c _ x Hs Hp Hx) as (f & h & -> & Hf & _).
    rewrite <-Hf. naive_solver. }
  pose proof (shape_items _ _ Hs) as Hl.
  destruct (Insert_spec size picks c item Hpick Hv Hlt Hne) as ([e c'] & E & Hr).
  exists e, c'. split; [exact E|]. inversion Hr; subst; (split; [done|]); [..|done]; intros _.
  - split; [done|]. split; [by left|]. split; [rewrite <-Hex by done; tauto|].
    intros x Hx. destruct (Exists_spec size c' (upto (inserted c')) x) as (f & h & -> & Hf & _);
      [by apply valid_shape|by apply valid_placed|done|].
    exists f, h. split; [done|]. rewrite Hf, <-Hex by done.
    destruct (holds_next c c' item x ltac:(lia) ltac:(done) ltac:(lia)) as [Hh _].
    match goal with Hi' : inserted c' = inserted c |- _ => rewrite Hi', Hh end.
    split; [by right|]. by intros [->|].
  - split; [done|]. split; [by right|]. split; [rewrite <-Hex by done; split; [lia|tauto]|].
    intros x Hx. destruct (Exists_spec size c' (upto (inserted c')) x) as (f & h & -> & Hf & _);
      [by apply valid_shape|by apply valid_placed|done|].
    exists f, h. split; [done|]. rewrite Hf, <-Hex by done.
    destruct (holds_next c c' item x ltac:(lia) ltac:(done) ltac:(lia)) as [_ Hh].
    by match goal with Hi' : inserted c' = inserted c + 1 |- _ => rewrite Hi', Hh end.
Qed.

(** C16: when an insertion reports failure, the table has lost exactly one of the
    items it held or was given, [lost]: every other one is still found, and [lost]
    is not; the count of items is unchanged. *)
Theorem Insert_failure size picks c item e c' :
  (∀ k, 0 ≤ picks k < Z.of_nat Nhash) → valid size c → inserted c < size → item ≠ [] →
  Insert picks c item = Ok (Some e, c') →
  inserted c' = inserted c ∧
  ∃ lost, (lost = item ∨ ∃ h, Exists c lost = Ok (true, h)) ∧
    ∀ x, x ≠ [] → ∃ found h, Exists c' x = Ok (found, h) ∧
      (found = true ↔ x ≠ lost ∧ (x = item ∨ ∃ h', Exists c x = Ok (true, h'))).
Proof.
  intros Hpick Hv Hlt Hne E. pose proof Hv as [Hs Hi Hp Hd Hn].
  assert (∀ x, x ≠ [] → holds c (upto (inserted c)) x ↔ ∃ h, Exists c x = Ok (true, h)) as Hex.
  { intros x Hx. destruct (Exists_spec size c _ x Hs Hp Hx) as (f & h & -> & Hf & _).
    rewrite <-Hf. naive_solver. }
  pose proof (shape_items _ _ Hs) as Hl.
  destruct (Insert_spec size picks c item Hpick Hv Hlt Hne) as (r & E' & Hr).
  rewrite E in E'. injection E' as <-.
  inversion Hr as [| |? ? homeless Hnew Hs' Ei Eh Eit Hhome Hp']; subst. split; [done|].
  destruct (distinct_next c c' item) as [Hd' Hn']; [lia|done|lia|done|done|done|done|].
  destruct (item_total size c' homeless Hs' ltac:(lia)) as [lost Hlost].
  assert (lost ≠ []) as Hlne.
  { intros ->. apply (Hn' homeless); [by apply elem_of_upto|done]. }
  assert (∀ x, holds c' (upto (inserted c + 1)) x ↔ x = item ∨ holds c (upto (inserted c)) x) as Hh.
  { intros x. by apply (holds_next c c' item x); [lia|done|lia]. }
  exists lost. split.
  { rewrite <-Hex by done. apply Hh. exists homeless. split; [by apply elem_of_upto|done]. }
  intros x Hx. destruct (Exists_spec size c' _ x Hs' Hp' Hx) as (f & h & -> & Hf & _).
  exists f, h. split; [done|]. rewrite Hf, <-Hex, <-Hh by done. unfold holds. split.
  - intros (i & Hi' & Hix). apply elem_of_difference in Hi' as [Hi' Hih].
    split; [|by exists i]. intros ->. apply Hih, elem_of_singleton.
    apply (Hd' i homeless lost); try done. by apply elem_of_upto.
  - intros [Hxl (i & Hi' & Hix)]. exists i. split; [|done]. apply elem_of_difference.
    split; [done|]. rewrite elem_of_singleton. intros ->. congruence.
Qed.

(** The guard of [Insert] against a full table never acts: once [size] items
    are inserted, inserting anything, even an item the table has, panics with an
    index out of range instead of returning the error. *)
Theorem Insert_full_panics size picks c item :
  valid size c → inserted c = size → Insert picks c item = Panic "index out of range".
Proof.
  intros [Hs Hi _ _ _] Hfull. pose proof (shape_items _ _ Hs). unfold Insert.
  destruct (Z.eqb_spec (inserted c) (Z.of_nat (length (items c)))); [lia|].
  unfold store. by rewrite bool_decide_false by lia.
Qed.
End CuckooLemmas.

(** ** New tables *)
Section NewTables.
Context `{ByteOpsLaws, MetroHash, FloatConv}.

Definition seeds_ok (seeds : list (list Z)) : Prop :=
  length seeds = Nhash ∧ Forall (λ s, length s = SaltLength ∧ bytes_ok s) seeds.

Lemma new_hashers_Ok seeds :
  Forall (λ s, length s = SaltLength ∧ bytes_ok s) seeds →
  new_hashers seeds = Ok ((λ s, {| seed := fold_salt s |}) <$> seeds).
Proof.
  induction 1 as [|s seeds [Hl Hb] _ IH]; [done|]. cbn [new_hashers].
  by rewrite NewMetroHasher_Ok, IH.
Qed.

Lemma NewCuckooHasher_Ok size seeds :
  seeds_ok seeds →
  NewCuckooHasher size seeds = Ok {| bucketSize := max 1 (to_uint64 (scale_by_Factor size));
    hashers := (λ s, {| seed := fold_salt s |}) <$> seeds |}.
Proof. intros [_ Hs]. unfold NewCuckooHasher. by rewrite new_hashers_Ok. Qed.

Lemma scale_by_Factor_max size : 0 ≤ size ≤ 2 ^ 49 → 0 ≤ scale_by_Factor size < 2 ^ 62.
Proof. intros Hs. destruct (scale_by_Factor_error size); lia. Qed.

(** Conversions in range. *)
Lemma to_uint64_Ok x : 0 ≤ x < 2 ^ 64 → to_uint64 x = x.
Proof. intros Hx. unfold to_uint64. by rewrite bool_decide_true. Qed.

Lemma to_int_Ok x : - 2 ^ 63 ≤ x < 2 ^ 63 → to_int x = x.
Proof. intros Hx. unfold to_int. by rewrite bool_decide_true. Qed.

Lemma to_uint64_range x : 0 ≤ to_uint64 x < 2 ^ 64.
Proof. unfold to_uint64. case_bool_decide; [done|]. unfold wrap. by apply Z.mod_pos_bound. Qed.

(** For sizes up to [2^49] both parties scale without overflow. *)
Lemma to_uint64_scale size : 0 ≤ size ≤ 2 ^ 49 → to_uint64 (scale_by_Factor size) = scale_by_Factor size.
Proof. intros Hs. pose proof (scale_by_Factor_max size Hs). apply to_uint64_Ok. lia. Qed.

Lemma to_int_scale size : 0 ≤ size ≤ 2 ^ 49 → to_int (scale_by_Factor size) = scale_by_Factor size.
Proof. intros Hs. pose proof (scale_by_Factor_max size Hs). apply to_int_Ok. lia. Qed.

Lemma max_ge a b : a ≤ max a b ∧ b ≤ max a b ∧ (max a b = a ∨ max a b = b).
Proof. unfold max. destruct (Z.gtb_spec a b); lia. Qed.

Lemma NewCuckoo_valid rb size seeds :
  0 ≤ size ≤ 2 ^ 49 → seeds_ok seeds →
  ∃ c, NewCuckoo (Some rb) size seeds = Ok c ∧ valid size c ∧ inserted c = 0 ∧
    NewCuckooHasher size seeds = Ok (hasher c).
Proof.
  intros Hsize Hseeds. unfold NewCuckoo. pose proof (NewCuckooHasher_Ok size seeds Hseeds) as E.
  rewrite E. cbn [res_bind bucketSize].
  rewrite to_uint64_scale by done.
  pose proof (max_ge 1 (scale_by_Factor size)) as Hmax. pose proof (scale_by_Factor_max size Hsize).
  unfold wrap. rewrite Z.mod_small by lia. rewrite !make_len_Ok by lia. cbn [res_bind].
  eexists. split; [done|]. split; [|done].
  assert (upto 0 = ∅) as E0 by done. match goal with |- valid _ ?c => set (c0 := c) end.
  constructor; change (inserted c0) with 0; rewrite ?E0; [|lia| |done|done].
  - constructor; unfold c0; cbn [items hashIndices bucketLookup hasher bucketSize hashers];
      rewrite ?length_replicate; try lia.
    + rewrite length_fmap. apply Hseeds.
    + apply lookup_replicate. split; [done|lia].
  - assert (∀ b i, slot c0 b i → i = 0) as Hz.
    { intros b i [_ Hb]. unfold c0 in Hb. cbn [bucketLookup] in Hb. by apply lookup_replicate in Hb as [-> _]. }
    constructor; try done; [intros b i Hb; left; by apply (Hz b)|].
    intros b b' i Hi Hb. destruct Hi. by eapply Hz.
Qed.

(** C14: filling a new table for up to [2^49] items with any list of at most [size]
    non-empty ones never panics, and when no insertion fails the table is exactly the set of the items:
    [Exists] decides membership, every item sits in the bucket that its recorded
    hash function gives, every bucket is free or holds such an item, and the
    occupied buckets number the distinct items. *)
Theorem insert_all_table rb size seeds picks ids :
  0 ≤ size ≤ 2 ^ 49 → seeds_ok seeds → (∀ k j, 0 ≤ picks k j < Z.of_nat Nhash) →
  Forall (λ id, id ≠ []) ids → Z.of_nat (length ids) ≤ size →
  ∃ c0 e c, NewCuckoo (Some rb) size seeds = Ok c0 ∧ insert_all picks 0 c0 ids = Ok (e, c) ∧
    (e = None →
      (∀ x, x ≠ [] → ∃ h, Exists c x = Ok (bool_decide (x ∈ ids), h)) ∧
      (∀ x, x ∈ ids → ∃ b i h, 0 ≤ b < Len c ∧ GetBucket c b = Ok i ∧ i ≠ 0 ∧
         GetItemWithHash c i = Ok (x, h) ∧ BucketIndices (hasher c) x !! Z.to_nat h = Some b) ∧
      (∀ b, 0 ≤ b < Len c → GetBucket c b = Ok 0 ∨
         ∃ i x h, GetBucket c b = Ok i ∧ i ≠ 0 ∧ GetItemWithHash c i = Ok (x, h) ∧ x ∈ ids ∧
           BucketIndices (hasher c) x !! Z.to_nat h = Some b) ∧
      occupation c = length (remove_dups ids)).
Proof.
  intros Hsize Hseeds Hpick Hne Hlen.
  destruct (NewCuckoo_valid rb size seeds Hsize Hseeds) as (c0 & E0 & Hv0 & Hi0 & _).
  destruct (insert_all_spec size picks 0 c0 ids Hpick Hv0 ltac:(lia) Hne) as (e & c & E & _ & Hr).
  exists c0, e, c. split; [done|]. split; [done|]. intros He. destruct (Hr He) as (Hv & _ & Hh).
  assert (∀ x, holds c (upto (inserted c)) x ↔ x ∈ ids) as Hin.
  { intros x. rewrite Hh, Hi0. split; [|by left]. intros [|(i & Hi & _)]; [done|].
    apply elem_of_upto in Hi. lia. }
  split_and!.
  - intros x Hx.
    destruct (Exists_spec size c _ x (valid_shape _ _ Hv) (valid_placed _ _ Hv) Hx) as (f & h & -> & Hf & _).
    exists h. do 2 f_equal. rewrite Hin in Hf. case_bool_decide; destruct f; naive_solver.
  - intros x Hx. apply (item_bucket size); [done|by apply Hin].
  - intros b Hb. destruct (bucket_content size c b Hv Hb)
      as [|(i & it & h & Eb & Hi & Eg & Hh0 & HB & _ & Hhold)]; [by left|right].
    exists i, it, h. split_and!; try done; [lia|]. by apply Hin.
  - pose proof (occupation_inserted size c Hv). pose proof (distinct_count size c ids Hv Hin). lia.
Qed.

(** C40: the bucket count that the code computes in double precision, for every size
    that a [uint64] holds.  Up to [2^49] items it is between [7/5 * size - 1] and
    [7/5 * size], rounded down, and never below the number of items; up to
    [1317 * 10^16] it is still within 13107 of [7/5 * size]; from [1318 * 10^16] on,
    as for [uint64(n)] of every negative [n] above [-5 * 10^18], the conversion to
    [uint64] overflows, and the count is what the implementation makes of it, at
    least 1.  In all cases the hash indices of every item are below the count. *)
Theorem bucketSize_bounds size seeds item :
  0 ≤ size < 2 ^ 64 → seeds_ok seeds →
  ∃ h, NewCuckooHasher size seeds = Ok h ∧
    (1 ≤ size ≤ 2 ^ 49 →
       7 * size / 5 - 1 ≤ bucketSize h ≤ 7 * size / 5 ∧ size ≤ bucketSize h) ∧
    (size ≤ 1317 * 10 ^ 16 → Z.abs (5 * bucketSize h - 7 * size) ≤ 2 ^ 16) ∧
    (1318 * 10 ^ 16 ≤ size → 2 ^ 64 ≤ scale_by_Factor size ∧
       bucketSize h = max 1 (wrap 64 (uint64_overflow (scale_by_Factor size)))) ∧
    1 ≤ bucketSize h < 2 ^ 64 ∧ length (BucketIndices h item) = Nhash ∧
    Forall (λ b, 0 ≤ b < bucketSize h) (BucketIndices h item).
Proof.
  intros Hs Hseeds. rewrite (NewCuckooHasher_Ok size seeds Hseeds). eexists. split; [done|].
  cbn [bucketSize]. destruct (scale_by_Factor_error size Hs) as [Hpos Herr].
  pose proof (max_ge 1 (to_uint64 (scale_by_Factor size))) as Hmax.
  pose proof (to_uint64_range (scale_by_Factor size)) as Hrange.
  split_and!; try lia.
  - intros Hb. rewrite to_uint64_scale in * by lia.
    destruct (scale_by_Factor_bounds size Hb) as [Hlh Hle]. lia.
  - intros Hb. rewrite to_uint64_Ok in * by lia. lia.
  - intros Hb. split; [lia|]. unfold to_uint64. by rewrite bool_decide_false by lia.
  - rewrite length_BucketIndices. cbn [hashers]. rewrite length_fmap. apply Hseeds.
  - apply Forall_forall. intros b. apply BucketIndices_range. cbn [bucketSize]. lia.
Qed.

End NewTables.

(** ** The conversions of an amd64 processor

    [CVTTSD2SQ] gives [-2^63] out of range; for [uint64] the compiler subtracts [2^63]
    first from a double that is not below it. *)
Definition amd64_float : FloatConv := {|
  uint64_overflow x := if - 2 ^ 63 <=? x then if x <? 2 ^ 63 then x else 0 else 2 ^ 63;
  int_overflow _ := - 2 ^ 63 |}.

(** ** Examples on a small table: all hash functions equal, five buckets. *)
Definition zero_seeds : list (list Z) := replicate Nhash (replicate SaltLength 0).

Lemma zero_seeds_ok : seeds_ok zero_seeds.
Proof.
  split; [done|]. apply Forall_replicate. split; [done|]. by apply Forall_replicate.
Qed.

Abbreviation small_new := (@NewCuckoo generic_ops amd64_float (Some []) 4 zero_seeds).
Abbreviation small_insert := (@Insert sample_metro (λ k, Z.of_nat k mod 3)).

Definition small_table : Cuckoo :=
  match small_new with Ok c => c | _ => {| items := []; inserted := 0; hashIndices := [];
    bucketLookup := []; hasher := {| bucketSize := 0; hashers := [] |} |} end.

Definition small_table_5 : Cuckoo :=
  match small_insert small_table [5] with Ok (_, c) => c | _ => small_table end.

Lemma small_table_valid : @valid sample_metro 4 small_table ∧ inserted small_table = 0.
Proof.
  destruct (@NewCuckoo_valid generic_ops generic_ops_laws sample_metro amd64_float
    [] 4 zero_seeds ltac:(lia) zero_seeds_ok) as (c & E & Hv & Hi & _).
  unfold small_table. rewrite E. done.
Qed.

Lemma small_picks k : 0 ≤ Z.of_nat k mod 3 < Z.of_nat Nhash.
Proof. apply Z.mod_pos_bound. done. Qed.

Lemma small_table_5_valid : @valid sample_metro 4 small_table_5 ∧ inserted small_table_5 = 1.
Proof.
  destruct small_table_valid as [Hv Hi].
  destruct (@Insert_spec sample_metro 4 (λ k, Z.of_nat k mod 3) small_table [5] small_picks
    Hv ltac:(rewrite Hi; lia) ltac:(done)) as (r & E & Hr).
  assert (small_insert small_table [5] = Ok (None, small_table_5)) as E5 by (by vm_compute).
  assert (r = (None, small_table_5)) as -> by (rewrite E in E5; by injection E5).
  clear E E5. generalize dependent small_table_5. intros c1 Hr.
  inversion Hr as [? Hin|? Hnew ? Hi'|]; subst.
  - exfalso. destruct Hin as (i & Hin & _). rewrite Hi in Hin. apply elem_of_upto in Hin. lia.
  - split; [done|]. rewrite Hi', Hi. done.
Qed.

Lemma Insert_success_witness :
  @valid sample_metro 4 small_table_5 ∧
  ∃ c', small_insert small_table_5 [6] = Ok (None, c') ∧
    ∃ h, @Exists sample_metro c' [5] = Ok (true, h).
Proof.
  destruct small_table_5_valid as [Hv Hi]. split; [exact Hv|].
  destruct (@Insert_success sample_metro 4 (λ k, Z.of_nat k mod 3) small_table_5 [6] small_picks
    Hv ltac:(rewrite Hi; lia) ltac:(done)) as (e & c' & E & _ & Hr).
  assert (e = None) as ->.
  { assert (∀ r, small_insert small_table_5 [6] = Ok r → r.1 = None) as Hn.
    { intros r Er. apply (f_equal (λ x, match x with Ok r => r.1 | _ => None end)) in Er.
      cbn beta iota in Er. rewrite <-Er. by vm_compute. }
    exact (Hn _ E). }
  exists c'. split; [exact E|]. destruct (Hr eq_refl) as (_ & _ & _ & Hx).
  destruct (Hx [5] ltac:(done)) as (f & h & Ef & Hf). exists h.
  rewrite Ef. f_equal. f_equal. apply Hf. right. exists 0. by vm_compute.
Defined.

Lemma Insert_failure_witness :
  ∃ e c', small_insert small_table_5 [10] = Ok (Some e, c') ∧ inserted c' = 1.
Proof.
  destruct small_table_5_valid as [Hv Hi].
  destruct (small_insert small_table_5 [10]) as [[[e|] c']| |] eqn:E;
    [|exfalso; revert E; by vm_compute..].
  exists e, c'. split; [done|].
  destruct (@Insert_failure sample_metro 4 (λ k, Z.of_nat k mod 3) small_table_5 [10] e c' small_picks
    Hv ltac:(rewrite Hi; lia) ltac:(done) E) as [-> _]. exact Hi.
Defined.

Lemma Insert_full_panics_witness :
  ∃ c, @NewCuckoo generic_ops amd64_float (Some []) 0 zero_seeds = Ok c ∧
    @Insert sample_metro (λ _, 0) c [7] = Panic "index out of range".
Proof.
  destruct (@NewCuckoo_valid generic_ops generic_ops_laws sample_metro amd64_float [] 0 zero_seeds
    ltac:(lia) zero_seeds_ok) as (c & E & Hv & Hi & _).
  exists c. split; [exact E|]. exact (@Insert_full_panics sample_metro 0 (λ _, 0) c [7] Hv Hi).
Defined.

Lemma insert_all_table_witness :
  seeds_ok zero_seeds ∧
  ∃ c, @insert_all sample_metro (λ _ _, 0) 0 small_table [[5]; [6]; [5]] = Ok (None, c) ∧
    occupation c = 2%nat.
Proof.
  split; [exact zero_seeds_ok|].
  destruct (@insert_all_table generic_ops generic_ops_laws sample_metro amd64_float [] 4 zero_seeds (λ _ _, 0)
    [[5]; [6]; [5]] ltac:(lia) zero_seeds_ok ltac:(intros; cbv; split; congruence)
    ltac:(repeat constructor; done) ltac:(cbn; lia)) as (c0 & e & c & E0 & E & Hr).
  assert (c0 = small_table) as -> by (unfold small_table; by rewrite E0).
  assert (e = None) as ->.
  { assert (∀ r, @insert_all sample_metro (λ _ _, 0) 0 small_table [[5]; [6]; [5]] = Ok r →
      r.1 = None) as Hn; [|exact (Hn _ E)].
    intros r Er. apply (f_equal (λ x, match x with Ok r => r.1 | _ => None end)) in Er.
    cbn beta iota in Er. rewrite <-Er. by vm_compute. }
  exists c. split; [exact E|]. destruct (Hr eq_refl) as (_ & _ & _ & ->). by vm_compute.
Defined.

(** For 45 items, double precision gives 62 buckets instead of 63; for [uint64(-1)]
    items, an amd64 processor makes one bucket. *)
Lemma bucketSize_bounds_witness :
  (∃ h, @NewCuckooHasher generic_ops amd64_float 45 zero_seeds = Ok h ∧ bucketSize h = 62 ∧
     45 ≤ bucketSize h) ∧
  ∃ h, @NewCuckooHasher generic_ops amd64_float (2 ^ 64 - 1) zero_seeds = Ok h ∧ bucketSize h = 1.
Proof.
  split.
  - destruct (@bucketSize_bounds generic_ops generic_ops_laws sample_metro amd64_float 45 zero_seeds []
      ltac:(lia) zero_seeds_ok) as (h & E & Hle & _).
    exists h. split; [exact E|]. split; [|apply Hle; lia].
    assert (@NewCuckooHasher generic_ops amd64_float 45 zero_seeds =
      Ok {| bucketSize := 62; hashers := replicate 3 {| seed := 0 |} |}) as E' by (by vm_compute).
    rewrite E in E'. injection E' as ->. done.
  - destruct (@bucketSize_bounds generic_ops generic_ops_laws sample_metro amd64_float (2 ^ 64 - 1)
      zero_seeds [] ltac:(lia) zero_seeds_ok) as (h & E & _ & _ & Hov & _).
    exists h. split; [exact E|]. rewrite (proj2 (Hov ltac:(lia))). by vm_compute.
Defined.
