(* ===== verification/IO.v ===== *)
(** * [io.Writer], [io.Reader] and [encoding/binary]

    What the protocols use of Go's streams: a writer that may fail at any call
    and accept part of the bytes, a reader that delivers the bytes of a
    connection in chunks of any size, [io.ReadFull], [binary.Read] and
    [binary.Write] of an [int64]. *)
From S2P Require Import Prelude Words.

(** ** Writers *)

(** [faults k = Some (e, n)]: the [k]-th call returns [e] after [n] bytes. *)
Record sink := {
  written : list Z;
  calls : nat;
  faults : nat → option (error * nat)
}.

Definition new_sink : sink := {| written := []; calls := 0; faults := λ _, None |}.

Definition Write (w : sink) (p : list Z) : option error * sink :=
  match faults w (calls w) with
  | Some (e, n) =>
      (Some e, {| written := written w ++ take n p; calls := S (calls w); faults := faults w |})
  | None => (None, {| written := written w ++ p; calls := S (calls w); faults := faults w |})
  end.

(** ** Readers *)

(** The reader delivers [chunks] one by one, then [final] for ever. *)
Record source := {
  chunks : list (list Z);
  final : error
}.

(** [r.Read(buf)] with [len(buf) = n]: the bytes read, the error. *)
Definition Read (r : source) (n : nat) : list Z * option error * source :=
  match chunks r with
  | [] => ([], Some (final r), r)
  | c :: cs =>
      if bool_decide (length c ≤ n)%nat
      then (c, None, {| chunks := cs; final := final r |})
      else (take n c, None, {| chunks := drop n c :: cs; final := final r |})
  end.

(** The loop of [io.ReadFull]: [got] bytes are already there. *)
Fixpoint read_full (cs : list (list Z)) (final : error) (got n : nat)
    : list Z * option error * list (list Z) :=
  match n with
  | O => ([], None, cs)
  | _ =>
      match cs with
      | [] => ([], Some (if bool_decide (final = EOF ∧ got ≠ O) then ErrUnexpectedEOF else final), [])
      | c :: cs =>
          if bool_decide (length c ≤ n)%nat
          then
            let '(bs, e, rest) := read_full cs final (got + length c) (n - length c) in
            (c ++ bs, e, rest)
          else (take n c, None, drop n c :: cs)
      end
  end.

Definition ReadFull (r : source) (n : nat) : list Z * option error * source :=
  let '(bs, e, cs) := read_full (chunks r) (final r) 0 n in
  (bs, e, {| chunks := cs; final := final r |}).

(** [binary.Read(r, binary.BigEndian, &v)] and [binary.Write] of an [int64]. *)
Definition binary_Read_int64 (r : source) : res (Z * source) :=
  match ReadFull r 8 with
  | (bs, None, r) => Ok (to_int64 (be_get bs), r)
  | (_, Some e, _) => Err e
  end.

Definition binary_Write_int64 (w : sink) (n : Z) : option error * sink := Write w (be_put 8 n).

(** The bytes that are still to be read. *)
Definition pending (r : source) : list Z := concat (chunks r).

(** * Lemmas *)
Lemma Write_ok w p :
  faults w (calls w) = None →
  Write w p = (None, {| written := written w ++ p; calls := S (calls w); faults := faults w |}).
Proof. unfold Write. by intros ->. Qed.

(** A writer that never fails. *)
Definition faultless (w : sink) : Prop := ∀ k, faults w k = None.

Lemma Write_faultless w p :
  faultless w → ∃ w', Write w p = (None, w') ∧ faultless w' ∧ written w' = written w ++ p.
Proof. intros Hw. rewrite Write_ok by apply Hw. by eexists. Qed.

Lemma read_full_spec cs final got n :
  (n ≤ length (concat cs))%nat →
  ∃ rest, read_full cs final got n = (take n (concat cs), None, rest) ∧
    concat rest = drop n (concat cs).
Proof.
  revert got n. induction cs as [|c cs IH]; intros got [|n] Hn; cbn [read_full concat] in *.
  - by exists [].
  - cbn in Hn. lia.
  - by exists (c :: cs).
  - rewrite length_app in Hn. case_bool_decide as Hc.
    + destruct (IH (got + length c)%nat (S n - length c)%nat) as (rest & -> & Hr); [lia|].
      exists rest. rewrite take_app_ge, drop_app_ge by lia. done.
    + exists (drop (S n) c :: cs). cbn [concat].
      by rewrite take_app_le, drop_app_le by lia.
Qed.

Lemma ReadFull_spec r n :
  (n ≤ length (pending r))%nat →
  ∃ r', ReadFull r n = (take n (pending r), None, r') ∧ final r' = final r ∧
    pending r' = drop n (pending r).
Proof.
  intros Hn. unfold ReadFull. destruct (read_full_spec (chunks r) (final r) 0 n Hn) as (rest & -> & Hr).
  by eexists.
Qed.

(** Too few bytes: an error, whatever the chunks. *)
Lemma read_full_short cs final got n :
  (length (concat cs) < n)%nat → ∃ bs e, read_full cs final got n = (bs, Some e, []).
Proof.
  revert got n. induction cs as [|c cs IH]; intros got [|n] Hn; cbn [read_full concat] in *.
  - cbn in Hn. lia.
  - by eexists _, _.
  - lia.
  - rewrite length_app in Hn. rewrite bool_decide_true by lia.
    destruct (IH (got + length c)%nat (S n - length c)%nat) as (bs & e & ->); [lia|]. by eexists _, _.
Qed.

Lemma ReadFull_short r n :
  (length (pending r) < n)%nat →
  ∃ bs e, ReadFull r n = (bs, Some e, {| chunks := []; final := final r |}).
Proof.
  intros Hn. unfold ReadFull. destruct (read_full_short (chunks r) (final r) 0 n Hn) as (bs & e & ->).
  by eexists _, _.
Qed.

(** [binary.Read] gives back what [binary.Write] wrote, however the bytes are cut. *)
Lemma binary_int64_roundtrip r v rest :
  - 2 ^ 63 ≤ v < 2 ^ 63 → pending r = be_put 8 v ++ rest →
  ∃ r', binary_Read_int64 r = Ok (v, r') ∧ pending r' = rest ∧ final r' = final r.
Proof.
  intros Hv Hp. destruct (ReadFull_spec r 8) as (r' & E & Hf & Hr).
  { rewrite Hp, length_app, length_be_put. lia. }
  unfold binary_Read_int64. rewrite E, Hp, take_app_length' by (by rewrite length_be_put).
  rewrite int64_be_roundtrip by done. exists r'. split; [done|].
  split; [|done]. by rewrite Hr, Hp, drop_app_length' by (by rewrite length_be_put).
Qed.
