(* ===== verification/Framing.v ===== *)
(** * [internal/util]: framing.go and count.go

    Identifiers come as lines.  A [bufio.Reader] or [bufio.Scanner] sees the bytes
    that its reader still has to deliver ([data]) and the error that follows them
    ([final]). *)
From S2P Require Import Prelude Words IO.

Definition newline : Z := 10.

(** [ReadBytes('\n')]: the line with its delimiter, or what is left and the error. *)
Fixpoint ReadBytes (data : list Z) (final : error) : list Z * option error * list Z :=
  match data with
  | [] => ([], Some final, [])
  | b :: data =>
      if b =? newline then ([b], None, data)
      else let '(line, e, rest) := ReadBytes data final in (b :: line, e, rest)
  end.

Definition SafeReadLine (data : list Z) (final : error) : list Z * option error * list Z :=
  let '(line, err, rest) := ReadBytes data final in
  let line := if bool_decide (1 < length line)%nat then take (length line - 1) line else line in
  (line, err, rest).

(** The goroutine of [Exhaust], with [n - i] lines left: what it sends. *)
Fixpoint exhaust_loop (left_ : nat) (data : list Z) (final : error) : list (list Z) :=
  match left_ with
  | O => []
  | S left_ =>
      let '(identifier, err, rest) := SafeReadLine data final in
      (if bool_decide (length identifier ≠ O) then [identifier] else []) ++
      (match err with Some _ => [] | None => exhaust_loop left_ rest final end)
  end.

(** [Exhaust]: the identifiers sent on the channel before it is closed. *)
Definition Exhaust (n : Z) (r : source) : list (list Z) :=
  exhaust_loop (Z.to_nat n) (pending r) (final r).

(** [bufio.MaxScanTokenSize]. *)
Definition MaxScanTokenSize : Z := 64 * 1024.

(** [for scanner.Scan() { n++ }] and [scanner.Err()]; [len] is the length of
    the line so far. *)
Fixpoint count_loop (data : list Z) (final : error) (len n : Z) : Z * option error :=
  match data with
  | [] =>
      ((if 0 <? len then n + 1 else n), if bool_decide (final = EOF) then None else Some final)
  | b :: data =>
      if b =? newline then count_loop data final 0 (n + 1)
      else if MaxScanTokenSize <=? len + 1 then (n, Some (ErrMsg "bufio.Scanner: token too long"))
      else count_loop data final (len + 1) n
  end.

Definition Count (r : source) : Z * option error := count_loop (pending r) (final r) 0 0.

(** The bytes of a list of lines. *)
Definition frame (ids : list (list Z)) : list Z := concat ((λ id, id ++ [newline]) <$> ids).

(** * Lemmas *)
Definition identifier_ok (id : list Z) : Prop := id ≠ [] ∧ newline ∉ id.

Lemma ReadBytes_line id rest final :
  newline ∉ id → ReadBytes (id ++ newline :: rest) final = (id ++ [newline], None, rest).
Proof.
  induction id as [|b id IH]; intros Hid; cbn; [done|].
  apply not_elem_of_cons in Hid as [Hb Hid]. destruct (Z.eqb_spec b newline); [congruence|].
  by rewrite IH.
Qed.

Lemma ReadBytes_rest t final : newline ∉ t → ReadBytes t final = (t, Some final, []).
Proof.
  induction t as [|b t IH]; intros Ht; cbn; [done|].
  apply not_elem_of_cons in Ht as [Hb Ht]. destruct (Z.eqb_spec b newline); [congruence|].
  by rewrite IH.
Qed.

Lemma SafeReadLine_line id rest final :
  identifier_ok id → SafeReadLine (id ++ newline :: rest) final = (id, None, rest).
Proof.
  intros [Hne Hid]. unfold SafeReadLine. rewrite ReadBytes_line by done.
  rewrite length_app. cbn [length]. destruct id as [|b id]; [done|].
  rewrite bool_decide_true by (cbn; lia).
  by rewrite Nat.add_sub, take_app_length.
Qed.

Lemma frame_cons id ids rest :
  frame (id :: ids) ++ rest = id ++ newline :: (frame ids ++ rest).
Proof. unfold frame. cbn. by rewrite <-!app_assoc. Qed.

Lemma exhaust_loop_frame k ids rest final :
  Forall identifier_ok ids →
  exhaust_loop k (frame ids ++ rest) final =
    take k ids ++ exhaust_loop (k - length ids) rest final.
Proof.
  intros Hids. revert k. induction Hids as [|id ids Hid _ IH]; intros k.
  - rewrite take_nil, Nat.sub_0_r. done.
  - rewrite frame_cons. destruct k as [|k]; cbn [exhaust_loop take length Nat.sub]; [done|].
    rewrite SafeReadLine_line by done. destruct Hid as [Hne _].
    rewrite bool_decide_true by (destruct id; done). by rewrite IH.
Qed.

Lemma exhaust_loop_end k final : exhaust_loop k [] final = [].
Proof. by destruct k. Qed.

Lemma count_loop_line id data final len n :
  newline ∉ id → 0 ≤ len → len + Z.of_nat (length id) < MaxScanTokenSize →
  count_loop (id ++ newline :: data) final len n = count_loop data final 0 (n + 1).
Proof.
  revert len. induction id as [|b id IH]; intros len Hid Hl Hlen; cbn [app count_loop].
  - by rewrite Z.eqb_refl.
  - apply not_elem_of_cons in Hid as [Hb Hid]. cbn [length] in Hlen.
    destruct (Z.eqb_spec b newline); [congruence|].
    destruct (Z.leb_spec MaxScanTokenSize (len + 1)); [lia|]. apply IH; [done|lia|lia].
Qed.

(** [Exhaust] sends the first [n] lines. *)
Lemma Exhaust_lines n r ids :
  Forall identifier_ok ids → pending r = frame ids → Exhaust n r = take (Z.to_nat n) ids.
Proof.
  intros Hids Hp. unfold Exhaust. rewrite Hp, <-(app_nil_r (frame ids)), exhaust_loop_frame by done.
  by rewrite exhaust_loop_end, app_nil_r.
Qed.

Lemma Count_lines r ids :
  Forall identifier_ok ids → Forall (λ id, Z.of_nat (length id) < MaxScanTokenSize) ids →
  pending r = frame ids → final r = EOF → Count r = (Z.of_nat (length ids), None).
Proof.
  intros Hids Hlen Hp Hf. unfold Count. rewrite Hp, Hf.
  enough (∀ n, count_loop (frame ids) EOF 0 n = (n + Z.of_nat (length ids), None)) as -> by done.
  clear -Hids Hlen. induction Hids as [|id ids [_ Hid] _ IH]; intros k; cbn [length].
  - cbn. by rewrite Z.add_0_r.
  - apply Forall_cons in Hlen as [Hl Hlen]. rewrite <-(app_nil_r (frame _)), frame_cons, app_nil_r.
    rewrite count_loop_line by (try done; lia). rewrite IH by done. f_equal. lia.
Qed.

(** ** Properties *)

(** Identifiers written one per line, none empty or holding a newline, are
    read back unchanged and in order: [Exhaust n] sends the first [n] of them,
    whatever the chunks the reader delivers and the error that ends the stream,
    and [Count] counts them when each fits the scanner's buffer, so that
    [Exhaust (Count r)] sends them all. *)
Theorem Exhaust_frame n r ids :
  Forall identifier_ok ids → pending r = frame ids →
  Exhaust n r = take (Z.to_nat n) ids ∧
  (Forall (λ id, Z.of_nat (length id) < MaxScanTokenSize) ids → final r = EOF →
   Count r = (Z.of_nat (length ids), None) ∧ Exhaust (Count r).1 r = ids).
Proof.
  intros Hids Hp. split; [by apply Exhaust_lines|]. intros Hlen Hf.
  rewrite (Count_lines r ids) by done. split; [done|]. cbn [fst].
  rewrite (Exhaust_lines _ _ ids), Nat2Z.id by done. by apply take_ge.
Qed.

Lemma Exhaust_frame_witness :
  let r := {| chunks := [[97; 98]; [10; 99]; [10]]; final := EOF |} in
  pending r = frame [[97; 98]; [99]] ∧ Exhaust 5 r = [[97; 98]; [99]].
Proof.
  intros r. split; [reflexivity|].
  destruct (Exhaust_frame 5 r [[97; 98]; [99]]) as [E _].
  - apply (bool_decide_unpack _). by vm_compute.
  - reflexivity.
  - exact E.
Defined.

(** Where the lines are not all terminated, the code drops or adds a byte: a
    last line [t] of two bytes or more without its newline loses its last byte, and
    an empty line is not skipped but sent as the identifier made of the newline
    itself. *)
Theorem Exhaust_unterminated ids t n err :
  Forall identifier_ok ids → newline ∉ t → (2 ≤ length t)%nat → Z.of_nat (length ids) < n →
  Exhaust n {| chunks := [frame ids ++ t]; final := err |} = ids ++ [take (length t - 1) t] ∧
  Exhaust n {| chunks := [frame ids ++ [newline]]; final := err |} =
    ids ++ [[newline]].
Proof.
  intros Hids Ht Hl Hn. unfold Exhaust, pending. cbn [chunks final concat].
  rewrite !app_nil_r, !exhaust_loop_frame, !take_ge by (try done; lia).
  destruct (Z.to_nat n - length ids)%nat as [|k] eqn:Ek; [lia|]. split; f_equal.
  - cbn [exhaust_loop]. unfold SafeReadLine. rewrite ReadBytes_rest by done.
    rewrite !(bool_decide_true (1 < length t)%nat) by lia.
    rewrite bool_decide_true; [done|]. rewrite length_take. lia.
  - cbn. by rewrite exhaust_loop_end.
Qed.

Lemma Exhaust_unterminated_witness :
  Forall identifier_ok [[97]] ∧
  Exhaust 3 {| chunks := [frame [[97]] ++ [98; 99]]; final := EOF |} = [[97]; [98]].
Proof.
  assert (Forall identifier_ok [[97]]) as Hids by (apply (bool_decide_unpack _); by vm_compute).
  split; [exact Hids|].
  assert (newline ∉ [98; 99]) as Hnl by (apply (bool_decide_unpack _); by vm_compute).
  exact (proj1 (Exhaust_unterminated [[97]] [98; 99] 3 EOF Hids Hnl
    (le_n 2) ltac:(cbn; lia))).
Defined.
