(* ===== verification/Dhpsi.v ===== *)
(** * [pkg/dhpsi]: dhpsi_ristretto.go, dhpsi.go

    The group operations of a party, the sequential shuffling encoder
    ([DeriveMultiplyShuffler]), the point writer and the point readers.  The group
    itself ([ristretto255], [go-ristretto], SHA-512) is third-party or library
    code: the class arguments [R255Lib] and [GRLib]. *)
From S2P Require Import Prelude Words Permutations IO.

Definition EncodedLen : nat := 32.

(** [copy(dst[:], tmp)] into a zeroed [[EncodedLen]byte]. *)
Definition copy_point (tmp : list Z) : list Z :=
  take EncodedLen tmp ++ replicate (EncodedLen - length tmp) 0.

(** ** dhpsi_ristretto.go *)

(** The interface. *)
Record Ristretto := {
  DeriveMultiply : list Z → list Z;
  Multiply : list Z → list Z
}.

(** [github.com/gtank/ristretto255] and [crypto/sha512]. *)
Class R255Lib := {
  Element : Type;
  Scalar : Type;
  NewElement : Element;
  FromUniformBytes : list Z → Element;
  Sum512 : list Z → list Z;
  ScalarMult : Scalar → Element → Element;
  Encode : Element → list Z;
  Decode : list Z → option Element
}.

(** The documented behaviour of the group operations that the protocol relies on. *)
Class R255Laws `{R255Lib} : Prop := {
  Encode_length p : length (Encode p) = EncodedLen;
  Decode_Encode p : Decode (Encode p) = Some p;
  ScalarMult_comm a b p : ScalarMult a (ScalarMult b p) = ScalarMult b (ScalarMult a p)
}.

(** [R255]: [Decode]'s error is ignored, the element then stays the identity. *)
Definition R255_DeriveMultiply `{R255Lib} (key : Scalar) (src : list Z) : list Z :=
  copy_point (Encode (ScalarMult key (FromUniformBytes (Sum512 src)))).
Definition R255_Multiply `{R255Lib} (key : Scalar) (src : list Z) : list Z :=
  copy_point (Encode (ScalarMult key (default NewElement (Decode src)))).
Definition R255 `{R255Lib} (key : Scalar) : Ristretto :=
  {| DeriveMultiply := R255_DeriveMultiply key; Multiply := R255_Multiply key |}.

(** [github.com/bwesterb/go-ristretto]; [BytesInto] fills a [[32]byte]. *)
Class GRLib := {
  Point : Type;
  GRScalar : Type;
  DeriveDalek : list Z → Point;
  SetBytes : list Z → Point;
  GRScalarMult : Point → GRScalar → Point;
  BytesInto : Point → list Z
}.

Definition GR_DeriveMultiply `{GRLib} (key : GRScalar) (src : list Z) : list Z :=
  BytesInto (GRScalarMult (DeriveDalek src) key).
Definition GR_Multiply `{GRLib} (key : GRScalar) (src : list Z) : list Z :=
  BytesInto (GRScalarMult (SetBytes src) key).
Definition GR `{GRLib} (key : GRScalar) : Ristretto :=
  {| DeriveMultiply := GR_DeriveMultiply key; Multiply := GR_Multiply key |}.

(** [NewRistretto]: [gr_key] and [r255_key] are the scalars drawn. *)
Definition NewRistretto `{GRLib, R255Lib} (gr_key : GRScalar) (r255_key : Scalar) (t : Z)
    : res Ristretto :=
  if t =? 0 then Ok (GR gr_key)
  else if t =? 1 then Ok (R255 r255_key)
  else Err (ErrMsg "unsupported ristretto type").

(** ** DeriveMultiplyShuffler *)
Record DeriveMultiplyShuffler := {
  enc_w : sink;
  enc_max : Z;
  enc_seq : Z;
  enc_sent : Z;
  enc_gr : Ristretto;
  enc_p : Permutations;
  enc_b : gmap Z (list Z)
}.

(** [NewKensler(n)] with its error dropped. *)
Definition kensler_of (draw : nat → option Z) (n : Z) : res Permutations :=
  let! ' (p, _) := NewKensler draw n in Ok (kensler_permutations p).

(** [NewDeriveMultiplyShuffler]; an error leaves the writer as the failed write did. *)
Definition NewDeriveMultiplyShuffler (draw : nat → option Z) (w : sink) (n : Z) (gr : Ristretto)
    : res DeriveMultiplyShuffler :=
  match binary_Write_int64 w n with
  | (Some err, _) => Err err
  | (None, w) =>
      let! p := kensler_of draw n in
      Ok {| enc_w := w; enc_max := n; enc_seq := 0; enc_sent := 0;
            enc_gr := gr; enc_p := p; enc_b := ∅ |}
  end.

Definition zero_point : list Z := replicate EncodedLen 0.

(** The final loop, from position [i], with [n] positions left; [err] is the
    error so far.  [None] is a call of [enc.p.Shuffle] that never returns. *)
Fixpoint flush (p : Permutations) (b : gmap Z (list Z)) (n : nat) (i : Z) (w : sink)
    (err : option error) : option (option error * sink) :=
  match n with
  | O => Some (err, w)
  | S n =>
      pos ← Permutations.Shuffle p i;
      match Write w (default zero_point (b !! pos)) with
      | (Some err, w) => Some (Some err, w)
      | (None, w) => flush p b n (i + 1) w None
      end
  end.

(** [(enc *DeriveMultiplyShuffler) Shuffle(identifier)]. *)
Definition Shuffle (enc : DeriveMultiplyShuffler) (identifier : list Z)
    : option (option error * DeriveMultiplyShuffler) :=
  if enc_seq enc =? enc_max enc then Some (Some ErrUnexpectedPoint, enc)
  else
    let point := DeriveMultiply (enc_gr enc) identifier in
    next ← Permutations.Shuffle (enc_p enc) (enc_sent enc);
    let '(err, w, sent, b) :=
      if next =? enc_seq enc
      then let '(err, w) := Write (enc_w enc) point in (err, w, enc_sent enc + 1, enc_b enc)
      else (None, enc_w enc, enc_sent enc, <[enc_seq enc := point]> (enc_b enc)) in
    let seq := enc_seq enc + 1 in
    '(err, w) ← (if seq =? enc_max enc
                 then flush (enc_p enc) b (Z.to_nat (enc_max enc - sent)) sent w err
                 else Some (err, w));
    Some (err, {| enc_w := w; enc_max := enc_max enc; enc_seq := seq; enc_sent := sent;
                  enc_gr := enc_gr enc; enc_p := enc_p enc; enc_b := b |}).

(** ** Writer *)
Record Writer := { wr_w : sink; wr_max : Z; wr_seq : Z }.

Definition NewWriter (w : sink) (n : Z) : res Writer :=
  match binary_Write_int64 w n with
  | (Some err, _) => Err err
  | (None, w) => Ok {| wr_w := w; wr_max := n; wr_seq := 0 |}
  end.

Definition Writer_Write (w : Writer) (point : list Z) : option error * Writer :=
  if wr_seq w =? wr_max w then (Some ErrUnexpectedPoint, w)
  else
    match Write (wr_w w) point with
    | (Some err, s) => (Some err, {| wr_w := s; wr_max := wr_max w; wr_seq := wr_seq w |})
    | (None, s) => (None, {| wr_w := s; wr_max := wr_max w; wr_seq := wr_seq w + 1 |})
    end.

(** ** Reader and MultiplyReader *)
Record Reader := { rd_r : source; rd_seq : Z; rd_max : Z }.

Definition NewReader (r : source) : res Reader :=
  let! ' (max, r) := binary_Read_int64 r in
  Ok {| rd_r := r; rd_seq := 0; rd_max := max |}.

(** [Reader.Read] into [point]: one call of the underlying [Read], whose short
    result leaves the other bytes of [point] as they were. *)
Definition Reader_Read (r : Reader) (point : list Z) : option error * list Z * Reader :=
  if rd_seq r =? rd_max r then (Some EOF, point, r)
  else
    match Read (rd_r r) EncodedLen with
    | (bs, Some err, s) =>
        (Some err, put_at point 0 bs, {| rd_r := s; rd_seq := rd_seq r; rd_max := rd_max r |})
    | (bs, None, s) =>
        (None, put_at point 0 bs, {| rd_r := s; rd_seq := rd_seq r + 1; rd_max := rd_max r |})
    end.

Definition NewMultiplyReader (r : source) (gr : Ristretto) : res (Reader * Ristretto) :=
  let! rr := NewReader r in Ok (rr, gr).

(** [MultiplyReader.Read] into [point]. *)
Definition MultiplyReader_Read (r : Reader) (gr : Ristretto) (point : list Z)
    : option error * list Z * Reader :=
  match Reader_Read r zero_point with
  | (Some err, _, r) => (Some err, point, r)
  | (None, b, r) => (None, Multiply gr b, r)
  end.

(** * Lemmas *)

(** ** The group *)
Section Group.
Context `{R255Laws}.

Lemma copy_point_id tmp : length tmp = EncodedLen → copy_point tmp = tmp.
Proof.
  intros Hl. unfold copy_point. rewrite take_ge by lia. rewrite Hl, Nat.sub_diag. apply app_nil_r.
Qed.

Lemma DeriveMultiply_Encode k x :
  R255_DeriveMultiply k x = Encode (ScalarMult k (FromUniformBytes (Sum512 x))).
Proof. apply copy_point_id, Encode_length. Qed.

Lemma Multiply_Encode k p : R255_Multiply k (Encode p) = Encode (ScalarMult k p).
Proof. unfold R255_Multiply. rewrite Decode_Encode. apply copy_point_id, Encode_length. Qed.

Lemma Encode_inj p q : Encode p = Encode q → p = q.
Proof. intros E. apply (f_equal Decode) in E. rewrite !Decode_Encode in E. congruence. Qed.
End Group.

(** ** The shuffling encoder *)
Section Shuffler.
Context (p : Permutations) (n : Z) `{!Permutes p n}.

Definition order (i : Z) : Z := default 0 (Permutations.Shuffle p i).

Lemma order_Some i : 0 ≤ i < n → Permutations.Shuffle p i = Some (order i) ∧ 0 ≤ order i < n.
Proof. intros Hi. destruct (shuffle_total i Hi) as (j & Hj & Hr). unfold order. by rewrite Hj. Qed.

Lemma order_inj i j : 0 ≤ i < n → 0 ≤ j < n → order i = order j → i = j.
Proof.
  intros Hi Hj E. destruct (order_Some i Hi) as [Ei _], (order_Some j Hj) as [Ej _].
  apply (shuffle_inj i j (order i)); [done|done|done|]. by rewrite E.
Qed.

(** The points of the positions [lo .. hi-1] in sending order. *)
Definition sent_points (pts : list (list Z)) (lo hi : Z) : list (list Z) :=
  (λ i, pts !!! Z.to_nat (order i)) <$> seqZ lo (hi - lo).

Lemma sent_points_snoc pts s :
  0 ≤ s → sent_points pts 0 (s + 1) = sent_points pts 0 s ++ [pts !!! Z.to_nat (order s)].
Proof.
  intros Hs. unfold sent_points. rewrite !Z.sub_0_r, seqZ_app by lia.
  rewrite fmap_app, Z.add_0_l. done.
Qed.

Lemma sent_points_split pts s m :
  0 ≤ s ≤ m → sent_points pts 0 m = sent_points pts 0 s ++ sent_points pts s m.
Proof.
  intros Hs. unfold sent_points. rewrite !Z.sub_0_r, <-fmap_app. f_equal.
  replace m with (s + (m - s)) at 1 by lia. by rewrite seqZ_app, Z.add_0_l by lia.
Qed.

Lemma flush_spec pts b k i w err :
  faultless w → 0 ≤ i → i + Z.of_nat k = n →
  (∀ j, i ≤ j < n → b !! order j = Some (pts !!! Z.to_nat (order j))) →
  ∃ w', flush p b k i w err = Some (match k with O => err | _ => None end, w') ∧ faultless w' ∧
    written w' = written w ++ concat (sent_points pts i n).
Proof.
  revert i w err. induction k as [|k IH]; intros i w err Hw Hi Hn Hb; cbn [flush].
  { exists w. split; [done|]. split; [done|]. unfold sent_points.
    replace (n - i) with 0 by lia. cbn. by rewrite app_nil_r. }
  destruct (order_Some i ltac:(lia)) as [Ei Hr]. rewrite Ei. cbn [mbind option_bind].
  rewrite (Hb i) by lia. cbn [from_option id].
  destruct (Write_faultless w (pts !!! Z.to_nat (order i)) Hw) as (w1 & E1 & Hw1 & Ew1). rewrite E1.
  destruct (IH (i + 1) w1 None Hw1) as (w2 & E2 & Hw2 & Ew2); [lia|lia|intros; apply Hb; lia|].
  exists w2. rewrite E2. split; [by destruct k|]. split; [done|]. rewrite Ew2, Ew1, <-app_assoc. f_equal.
  unfold sent_points. replace (n - i) with (Z.succ (n - (i + 1))) by lia.
  rewrite (seqZ_cons i) by lia. replace (Z.pred (Z.succ (n - (i + 1)))) with (n - (i + 1)) by lia.
  cbn. by rewrite <-Z.add_1_r.
Qed.

(** The state after [k] identifiers, whose points are [pts]. *)
Record shuffling (header : list Z) (gr : Ristretto) (pts : list (list Z)) (k : Z)
    (enc : DeriveMultiplyShuffler) : Prop := {
  sh_max : enc_max enc = n;
  sh_seq : enc_seq enc = k;
  sh_gr : enc_gr enc = gr;
  sh_p : enc_p enc = p;
  sh_w : faultless (enc_w enc);
  sh_sent : 0 ≤ enc_sent enc ≤ k;
  sh_written : written (enc_w enc) = header ++ concat (sent_points pts 0 (enc_sent enc));
  sh_prefix i : 0 ≤ i < enc_sent enc → order i < k;
  sh_buffer j : 0 ≤ j < k → (∀ i, 0 ≤ i < enc_sent enc → order i ≠ j) →
    enc_b enc !! j = Some (pts !!! Z.to_nat j)
}.

(** The part of [Shuffle] before the flush: a point in turn is written, any other
    is buffered. *)
Definition write_or_buffer (pts : list (list Z)) (k : Z) (enc : DeriveMultiplyShuffler)
    : option error * sink * Z * gmap Z (list Z) :=
  if order (enc_sent enc) =? k then
    let '(err, w) := Write (enc_w enc) (pts !!! Z.to_nat k) in
    (err, w, enc_sent enc + 1, enc_b enc)
  else (None, enc_w enc, enc_sent enc, <[k := pts !!! Z.to_nat k]> (enc_b enc)).

Lemma write_or_buffer_spec header gr pts k enc :
  shuffling header gr pts k enc → 0 ≤ k < n →
  ∃ w sent b, write_or_buffer pts k enc = (None, w, sent, b) ∧
    faultless w ∧ 0 ≤ sent ≤ k + 1 ∧ written w = header ++ concat (sent_points pts 0 sent) ∧
    (∀ i, 0 ≤ i < sent → order i < k + 1) ∧
    ∀ j, 0 ≤ j < k + 1 → (∀ i, 0 ≤ i < sent → order i ≠ j) → b !! j = Some (pts !!! Z.to_nat j).
Proof.
  intros [_ _ _ _ Hw Hsent Hwr Hpre Hbuf] Hk. unfold write_or_buffer.
  destruct (Z.eqb_spec (order (enc_sent enc)) k) as [Eo|Eo].
  - destruct (Write_faultless (enc_w enc) (pts !!! Z.to_nat k) Hw) as (w1 & -> & Hw1 & Ew1).
    exists w1, (enc_sent enc + 1), (enc_b enc). split_and!; [done|done|lia|lia| | |].
    + rewrite Ew1, Hwr, sent_points_snoc by lia.
      rewrite concat_app, <-app_assoc, Eo. cbn. by rewrite app_nil_r.
    + intros i Hi. destruct (decide (i = enc_sent enc)) as [->|]; [lia|]. specialize (Hpre i). lia.
    + intros j Hj Hno. destruct (decide (j = k)) as [->|]; [by destruct (Hno (enc_sent enc)); [lia|]|].
      apply Hbuf; [lia|]. intros i Hi. apply Hno. lia.
  - eexists _, _, _. split_and!; [done|done|lia|lia|done| |].
    + intros i Hi. specialize (Hpre i). lia.
    + intros j Hj Hno. destruct (decide (j = k)) as [->|]; [by rewrite lookup_insert_eq|].
      rewrite lookup_insert_ne by done. apply Hbuf; [lia|done].
Qed.

Lemma Shuffle_step header gr ids k id enc :
  let pts := DeriveMultiply gr <$> ids in
  shuffling header gr pts k enc → 0 ≤ k < n → ids !! Z.to_nat k = Some id →
  ∃ enc', Shuffle enc id = Some (None, enc') ∧ enc_max enc' = n ∧ enc_seq enc' = k + 1 ∧
    if decide (k + 1 = n)
    then written (enc_w enc') = header ++ concat (sent_points pts 0 n)
    else shuffling header gr pts (k + 1) enc'.
Proof.
  intros pts Hsh Hk Hid. destruct (write_or_buffer_spec header gr pts k enc Hsh Hk)
    as (w & sent & b & E & Hw & Hs & Hwr & Hpre & Hbuf). unfold write_or_buffer in E.
  destruct Hsh as [Hmax Hseq Hgr Hp _ Hsent _ _ _].
  assert (pts !!! Z.to_nat k = DeriveMultiply gr id) as Hpt.
  { unfold pts. apply list_lookup_total_correct. by rewrite list_lookup_fmap, Hid. }
  unfold Shuffle. rewrite Hmax, Hseq, Hgr, Hp. destruct (Z.eqb_spec k n); [lia|].
  destruct (order_Some (enc_sent enc) ltac:(lia)) as [Es Hr]. rewrite Es. cbn [mbind option_bind].
  rewrite <-Hpt, E. destruct (decide (k + 1 = n)) as [En|En].
  - rewrite (proj2 (Z.eqb_eq (k + 1) n)) by done.
    destruct (flush_spec pts b (Z.to_nat (n - sent)) sent w None Hw) as (w2 & E2 & Hw2 & Ew2);
      [lia|lia| |].
    + intros j Hj. apply Hbuf; [destruct (order_Some j); lia|].
      intros i Hi Eo. apply order_inj in Eo; lia.
    + rewrite E2. cbn [mbind option_bind].
      replace (match Z.to_nat (n - sent) with O => @None error | _ => None end)
        with (@None error) by (by case_match).
      eexists. split; [done|]. split; [done|]. split; [done|]. cbn [enc_w].
      rewrite Ew2, Hwr, <-app_assoc, <-concat_app, <-sent_points_split by lia. done.
  - destruct (Z.eqb_spec (k + 1) n); [done|]. cbn [mbind option_bind].
    eexists. split; [done|]. split; [done|]. split; [done|]. by constructor.
Qed.
End Shuffler.

(** Encoding a list of identifiers one after the other, up to the first error. *)
Fixpoint shuffle_all (enc : DeriveMultiplyShuffler) (ids : list (list Z))
    : option (option error * DeriveMultiplyShuffler) :=
  match ids with
  | [] => Some (None, enc)
  | id :: ids =>
      '(e, enc) ← Shuffle enc id;
      match e with
      | Some e => Some (Some e, enc)
      | None => shuffle_all enc ids
      end
  end.

Lemma shuffle_all_spec p n `{!Permutes p n} header gr ids k enc :
  let pts := DeriveMultiply gr <$> ids in
  Z.of_nat (length ids) = n → shuffling p n header gr pts k enc → 0 ≤ k < n →
  ∃ enc', shuffle_all enc (drop (Z.to_nat k) ids) = Some (None, enc') ∧
    enc_max enc' = n ∧ enc_seq enc' = n ∧
    written (enc_w enc') = header ++ concat (sent_points p pts 0 n).
Proof.
  intros pts Hlen Hsh Hk.
  assert (∃ m, Z.of_nat m = n - k) as [m Hm] by (exists (Z.to_nat (n - k)); lia).
  revert k enc Hsh Hk Hm. induction m as [|m IH]; intros k enc Hsh Hk Hm; [lia|].
  destruct (lookup_lt_is_Some_2 ids (Z.to_nat k)) as [id Hid]; [lia|].
  rewrite (drop_S _ _ _ Hid). cbn [shuffle_all].
  destruct (Shuffle_step p n header gr ids k id enc Hsh Hk Hid) as (enc1 & E & Hmax & Hseq & Hr).
  rewrite E. cbn [mbind option_bind]. replace (S (Z.to_nat k)) with (Z.to_nat (k + 1)) by lia.
  case_decide as En.
  - rewrite drop_ge by lia. exists enc1. split_and!; try done. lia.
  - apply IH; [done|lia|lia].
Qed.

Lemma NewKensler_total draw n v :
  n ≤ 2 ^ 31 → draw 0%nat = Some v → ∃ k, NewKensler draw n = Ok (k, None).
Proof.
  intros Hn Hv. unfold NewKensler. destruct (Z.ltb_spec (2 ^ 32 - 1) n); [lia|].
  unfold rand_Int. rewrite Hv.
  assert (2 ≤ Permutations.max n 2) by (unfold Permutations.max; destruct (Z.ltb_spec 2 n); lia).
  destruct (Z.leb_spec (Permutations.max n 2 - 1) 0); [lia|]. by eexists.
Qed.

(** A new encoder: its permutation is one of the [n] positions. *)
Lemma new_shuffling draw w n gr v :
  faultless w → n ≤ 2 ^ 31 → draw 0%nat = Some v →
  ∃ enc, NewDeriveMultiplyShuffler draw w n gr = Ok enc ∧ Permutes (enc_p enc) n ∧
    enc_max enc = n ∧ enc_seq enc = 0 ∧ written (enc_w enc) = written w ++ be_put 8 n ∧
    ∀ pts, shuffling (enc_p enc) n (written w ++ be_put 8 n) gr pts 0 enc.
Proof.
  intros Hw Hn Hv. unfold NewDeriveMultiplyShuffler, binary_Write_int64.
  destruct (Write_faultless w (be_put 8 n) Hw) as (w1 & -> & Hw1 & Ew1).
  unfold kensler_of. destruct (NewKensler_total draw n v Hn Hv) as [k Ek]. rewrite Ek. cbn [res_bind].
  eexists. split; [done|]. split; [by eapply NewKensler_permutes|]. split_and!; try done.
  intros pts. constructor; try done; cbn; intros; try lia. by rewrite Ew1, app_nil_r.
Qed.

Lemma sent_points_list p n pts `{!Permutes p n} :
  Z.of_nat (length pts) = n →
  ∃ js, mapM (Permutations.Shuffle p) (seqZ 0 n) = Some js ∧ js ≡ₚ seqZ 0 n ∧
    sent_points p pts 0 n = (λ j, pts !!! Z.to_nat j) <$> js ∧ sent_points p pts 0 n ≡ₚ pts.
Proof.
  intros Hl. destruct (permutes_list p n) as (js & Ejs & Hjs). exists js.
  assert (js = order p <$> seqZ 0 n) as E.
  { apply mapM_Some_1 in Ejs. apply list_eq_Forall2. apply Forall2_fmap_r.
    apply Forall2_flip. eapply Forall2_impl; [exact Ejs|]. intros i j Hij. cbn in Hij.
    unfold flip, order. by rewrite Hij. }
  split; [done|]. split; [done|].
  assert (sent_points p pts 0 n = (λ j, pts !!! Z.to_nat j) <$> js) as Es.
  { unfold sent_points. rewrite E, Z.sub_0_r, <-list_fmap_compose. done. }
  split; [done|]. rewrite Es, Hjs.
  assert ((λ j, pts !!! Z.to_nat j) <$> seqZ 0 n = pts) as ->; [|done].
  apply list_eq. intros i. rewrite list_lookup_fmap.
  destruct (decide (i < length pts)%nat) as [Hi|Hi].
  - rewrite lookup_seqZ_lt by lia. cbn. rewrite Z.add_0_l, Nat2Z.id.
    symmetry. by apply list_lookup_lookup_total_lt.
  - rewrite lookup_seqZ_ge by lia. cbn. symmetry. apply lookup_ge_None_2. lia.
Qed.

(** ** The readers *)

(** A source cut only between points. *)
Definition aligned (r : source) : Prop :=
  Forall (λ c, ∃ k, length c = (k * EncodedLen)%nat ∧ k ≠ O) (chunks r).

Definition points_ok (pts : list (list Z)) : Prop := Forall (λ p, length p = EncodedLen) pts.

Lemma Read_aligned r pt pts :
  aligned r → points_ok (pt :: pts) → pending r = concat (pt :: pts) →
  ∃ r', Read r EncodedLen = (pt, None, r') ∧ aligned r' ∧ pending r' = concat pts ∧
    final r' = final r.
Proof.
  destruct r as [cs fin]. unfold aligned, pending, Read. cbn [chunks final concat].
  intros Hal [Hpt Hpts]%Forall_cons E. destruct cs as [|c cs].
  { exfalso. apply (f_equal length) in E. rewrite length_app, Hpt in E. cbn in E. lia. }
  apply Forall_cons in Hal as [(k & Hk & Hk0) Hcs]. cbn [concat] in E. unfold EncodedLen in *.
  case_bool_decide as Hc.
  - assert (k = 1)%nat as -> by lia. apply app_inj_1 in E as [-> E]; [|lia].
    eexists. split; [done|]. done.
  - rewrite <-(take_drop 32 c), <-app_assoc in E. apply app_inj_1 in E as [Ec E];
      [|rewrite length_take; lia].
    eexists. rewrite Ec. split; [done|]. split; [|done]. constructor; [|done].
    exists (k - 1)%nat. rewrite length_drop. lia.
Qed.

(** [Reader.Read] until [io.EOF]: the points read. *)
Fixpoint read_points (n : nat) (r : Reader) : option error * list (list Z) * Reader :=
  match n with
  | O => (None, [], r)
  | S n =>
      match Reader_Read r zero_point with
      | (Some e, _, r) => (Some e, [], r)
      | (None, pt, r) => let '(e, pts, r) := read_points n r in (e, pt :: pts, r)
      end
  end.

Lemma put_at_point (pt old : list Z) :
  length pt = EncodedLen → length old = EncodedLen → put_at old 0 pt = pt.
Proof.
  intros Hp Ho. unfold put_at. rewrite take_0, drop_ge by (rewrite Hp; cbn; lia).
  apply app_nil_r.
Qed.

Lemma read_points_spec n r seq max pts rest :
  aligned r → points_ok (pts ++ rest) → pending r = concat (pts ++ rest) → length pts = n →
  seq + Z.of_nat n ≤ max →
  ∃ r', read_points n {| rd_r := r; rd_seq := seq; rd_max := max |} =
    (None, pts, {| rd_r := r'; rd_seq := seq + Z.of_nat n; rd_max := max |}) ∧
    aligned r' ∧ pending r' = concat rest ∧ final r' = final r.
Proof.
  revert n r seq. induction pts as [|pt pts IH]; intros n r seq Hal Hok E <- Hmax; cbn [length read_points].
  { exists r. rewrite Z.add_0_r. done. }
  cbn [app length] in *. unfold Reader_Read. cbn [rd_seq rd_max rd_r].
  destruct (Z.eqb_spec seq max); [lia|].
  destruct (Read_aligned r pt (pts ++ rest) Hal Hok E) as (r1 & E1 & Hal1 & Ep1 & Hf1). rewrite E1.
  apply Forall_cons in Hok as [Hpt Hok]. rewrite put_at_point by done.
  destruct (IH (length pts) r1 (seq + 1) Hal1 Hok Ep1 eq_refl) as (r2 & -> & Hal2 & Ep2 & Hf2); [lia|].
  exists r2. split; [|by rewrite Hf2]. do 2 f_equal. lia.
Qed.

(** ** Properties *)

(** C31: for every [n] up to [2^31] identifiers and every seed, the sequential
    encoder accepts exactly [n] identifiers: it writes the count, then the [n]
    multiplied points in the order of its permutation, each once, whatever was
    buffered on the way, and rejects a further identifier. *)
Theorem Shuffle_writes_permutation draw w gr ids v id' :
  faultless w → Z.of_nat (length ids) ≤ 2 ^ 31 → draw 0%nat = Some v → ids ≠ [] →
  let n := Z.of_nat (length ids) in
  let pts := DeriveMultiply gr <$> ids in
  ∃ enc enc' js, NewDeriveMultiplyShuffler draw w n gr = Ok enc ∧
    shuffle_all enc ids = Some (None, enc') ∧
    mapM (Permutations.Shuffle (enc_p enc)) (seqZ 0 n) = Some js ∧ js ≡ₚ seqZ 0 n ∧
    written (enc_w enc') =
      written w ++ be_put 8 n ++ concat ((λ j, pts !!! Z.to_nat j) <$> js) ∧
    Shuffle enc' id' = Some (Some ErrUnexpectedPoint, enc').
Proof.
  intros Hw Hn Hv Hne n pts.
  destruct (new_shuffling draw w n gr v Hw Hn Hv) as (enc & E & Hp & Hmax & Hseq & Hwr & Hsh).
  destruct (shuffle_all_spec (enc_p enc) n (written w ++ be_put 8 n) gr ids 0 enc)
    as (enc' & E' & Hmax' & Hseq' & Hwr'); [done|apply Hsh| |].
  { destruct ids; [done|]. unfold n. cbn [length]. lia. }
  destruct (sent_points_list (enc_p enc) n pts) as (js & Ejs & Hjs & Es & _).
  { unfold pts. by rewrite length_fmap. }
  exists enc, enc', js. split_and!; try done.
  - rewrite Hwr'. fold pts. by rewrite Es, <-app_assoc.
  - unfold Shuffle. by rewrite Hmax', Hseq', Z.eqb_refl.
Qed.

(** A toy group for examples: the integers below [2^31 - 1] under addition, a
    scalar multiplying, points encoded as 32 little-endian bytes. *)
Definition toy_p : Z := 2 ^ 31 - 1.
Definition toy_element : Type := dsig (λ z, 0 ≤ z < toy_p).
Definition toy (z : Z) : toy_element :=
  dexist (z mod toy_p) (Z.mod_pos_bound z toy_p eq_refl).

#[export] Instance toy_R255 : R255Lib := {|
  Element := toy_element; Scalar := Z; NewElement := toy 0;
  FromUniformBytes bs := toy (le_get bs + 7);
  Sum512 bs := bs;
  ScalarMult k p := toy (k * proj1_sig p);
  Encode p := le_put 32 (proj1_sig p);
  Decode bs := Some (toy (le_get bs))
|}.

Lemma toy_eq (p q : toy_element) : proj1_sig p = proj1_sig q → p = q.
Proof. apply dsig_eq. Qed.

Lemma toy_val z : proj1_sig (toy z) = z mod toy_p.
Proof. done. Qed.

#[export] Instance toy_R255_laws : @R255Laws toy_R255.
Proof.
  split.
  - intros p. apply length_le_put.
  - intros p. cbn [Decode Encode toy_R255]. f_equal. apply toy_eq. rewrite toy_val, le_get_put.
    pose proof (proj2_dsig p) as Hp. cbn beta in Hp. fold (proj1_sig p) in Hp.
    assert (toy_p < 2 ^ (8 * Z.of_nat 32)) by (by vm_compute).
    rewrite (Z.mod_small _ (2 ^ _)) by lia. by rewrite Z.mod_small.
  - intros a b p. apply toy_eq. cbn [ScalarMult toy_R255]. rewrite !toy_val.
    rewrite !Z.mul_mod_idemp_r by done. f_equal. lia.
Qed.

Lemma Shuffle_writes_permutation_witness :
  let gr := @R255 toy_R255 5 in
  ∃ enc enc', NewDeriveMultiplyShuffler (λ _, Some 1) new_sink 3 gr = Ok enc ∧
    shuffle_all enc [[1]; [2]; [3]] = Some (None, enc') ∧
    length (written (enc_w enc')) = (8 + 3 * 32)%nat.
Proof.
  intros gr.
  destruct (Shuffle_writes_permutation (λ _, Some 1) new_sink gr [[1]; [2]; [3]] 1 [] ltac:(done)
    ltac:(cbn; lia) eq_refl ltac:(done)) as (enc & enc' & js & E & E' & Ejs & Hjs & Ew & _).
  exists enc, enc'. split; [exact E|]. split; [exact E'|]. rewrite Ew, Hjs. by vm_compute.
Defined.

(** A failed write is lost when it happens on the last identifier with
    points still buffered: if the last identifier falls in sequence and its write
    fails once, [Shuffle] flushes the rest, reports no error, and the stream is
    short of that point. *)
Theorem Shuffle_drops_error enc id n e k :
  0 ≤ enc_sent enc → enc_sent enc + 1 < enc_max enc → Permutes (enc_p enc) (enc_max enc) →
  enc_seq enc + 1 = enc_max enc →
  Permutations.Shuffle (enc_p enc) (enc_sent enc) = Some (enc_seq enc) →
  calls (enc_w enc) = k → (∀ j, faults (enc_w enc) j = if decide (j = k) then Some (e, n) else None) →
  ∃ enc' rest, Shuffle enc id = Some (None, enc') ∧ enc_seq enc' = enc_max enc' ∧
    length rest = Z.to_nat (enc_max enc - enc_sent enc - 1) ∧
    written (enc_w enc') =
      written (enc_w enc) ++ take n (DeriveMultiply (enc_gr enc) id) ++ concat rest.
Proof.
  intros Hs0 Hs Hp Hseq Hnext Hk Hf. unfold Shuffle.
  destruct (Z.eqb_spec (enc_seq enc) (enc_max enc)); [lia|].
  rewrite Hnext. cbn [mbind option_bind]. rewrite Z.eqb_refl.
  assert (∀ m i w err, faults w = faults (enc_w enc) → (k < calls w)%nat →
    0 ≤ i → i + Z.of_nat m = enc_max enc → (m = O → err = None) →
    ∃ w' rest, flush (enc_p enc) (enc_b enc) m i w err = Some (None, w') ∧ length rest = m ∧
      written w' = written w ++ concat rest) as Hflush.
  { induction m as [|m IH]; intros i w err Hw Hc Hi Hm He; cbn [flush].
    { rewrite He by done. exists w, []. cbn. by rewrite app_nil_r. }
    destruct (@shuffle_total _ _ Hp i) as (j & -> & _); [lia|]. cbn [mbind option_bind].
    rewrite Write_ok by (rewrite Hw, Hf, decide_False by lia; done).
    edestruct (IH (i + 1)) as (w' & rest & E & Hl & Ew);
      [..|exists w', (default zero_point (enc_b enc !! j) :: rest); rewrite E];
      [done|cbn; lia|lia|lia|done|].
    split; [done|]. cbn [length concat]. split; [lia|].
    rewrite Ew. cbn [written]. by rewrite <-app_assoc. }
  unfold Write at 1. rewrite Hf, decide_True by done.
  rewrite (proj2 (Z.eqb_eq _ _) Hseq).
  edestruct (Hflush (Z.to_nat (enc_max enc - (enc_sent enc + 1))) (enc_sent enc + 1))
    as (w' & rest & E & Hl & Ew); [..|rewrite E]; [done|cbn; lia|lia|lia|lia|].
  cbn [mbind option_bind]. eexists _, rest. split; [done|]. cbn [enc_seq enc_max enc_w].
  split; [done|]. split; [rewrite Hl; f_equal; lia|]. rewrite Ew. cbn [written].
  by rewrite <-app_assoc.
Qed.

Lemma Shuffle_drops_error_witness :
  let enc := {| enc_w := {| written := []; calls := 1;
                  faults := λ j, if decide (j = 1%nat) then Some (ErrMsg "reset", 5%nat) else None |};
                enc_max := 4; enc_seq := 3; enc_sent := 0; enc_gr := R255 5;
                enc_p := kensler_permutations (Kensler 4 1);
                enc_b := <[0 := zero_point]> (<[1 := zero_point]> {[2 := zero_point]}) |} in
  ∃ enc' (rest : list (list Z)), Shuffle enc [9] = Some (None, enc') ∧ enc_seq enc' = enc_max enc' ∧ length rest = 3%nat.
Proof.
  intros enc.
  destruct (Shuffle_drops_error enc [9] 5 (ErrMsg "reset") 1) as (enc' & rest & E & Hs & Hl & _).
  - cbn. lia.
  - cbn. lia.
  - apply kensler_permutes. by apply TCEq_eq.
  - reflexivity.
  - by vm_compute.
  - reflexivity.
  - reflexivity.
  - exists enc', rest. split; [exact E|]. split; [exact Hs|exact Hl].
Defined.

(** Over a connection that is only ever cut between points, a reader announced
    [max] points reads exactly them, unchanged and in order, then returns [io.EOF]
    without touching the connection. *)
Theorem Reader_reads_points r pts rest :
  aligned r → points_ok (pts ++ rest) → pending r = concat (pts ++ rest) →
  let max := Z.of_nat (length pts) in
  ∃ r', read_points (length pts) {| rd_r := r; rd_seq := 0; rd_max := max |} =
      (None, pts, {| rd_r := r'; rd_seq := max; rd_max := max |}) ∧
    pending r' = concat rest ∧
    ∀ old, Reader_Read {| rd_r := r'; rd_seq := max; rd_max := max |} old =
      (Some EOF, old, {| rd_r := r'; rd_seq := max; rd_max := max |}).
Proof.
  intros Hal Hok Hp max.
  destruct (read_points_spec (length pts) r 0 max pts rest Hal Hok Hp eq_refl) as (r' & E & _ & Hr & _).
  { lia. }
  exists r'. split; [exact E|]. split; [done|]. intros old. unfold Reader_Read. cbn [rd_seq rd_max].
  by rewrite Z.eqb_refl.
Qed.

Lemma Reader_reads_points_witness :
  let p1 := replicate 32 1 in let p2 := replicate 32 2 in
  let r := {| chunks := [p1 ++ p2]; final := EOF |} in
  aligned r ∧ ∃ r', read_points 2 {| rd_r := r; rd_seq := 0; rd_max := 2 |} =
    (None, [p1; p2], {| rd_r := r'; rd_seq := 2; rd_max := 2 |}).
Proof.
  intros p1 p2 r. assert (aligned r) as Hal by (repeat constructor; by exists 2%nat).
  split; [exact Hal|].
  destruct (Reader_reads_points r [p1; p2] [] Hal ltac:(by repeat constructor) eq_refl)
    as (r' & E & _). exists r'. exact E.
Defined.

(** [Reader.Read] asks its connection once and takes what comes: a chunk
    shorter than a point is returned as a point whose remaining bytes are those
    left in the caller's buffer, without an error, and counted as one. *)
Theorem Reader_short_read c cs fin seq max old :
  (length c < EncodedLen)%nat → length old = EncodedLen → seq ≠ max →
  Reader_Read {| rd_r := {| chunks := c :: cs; final := fin |}; rd_seq := seq; rd_max := max |} old =
    (None, c ++ drop (length c) old,
     {| rd_r := {| chunks := cs; final := fin |}; rd_seq := seq + 1; rd_max := max |}).
Proof.
  intros Hc Ho Hs. unfold Reader_Read, Read. cbn [rd_r rd_seq rd_max chunks final].
  destruct (Z.eqb_spec seq max); [done|]. by rewrite bool_decide_true by lia.
Qed.

Lemma Reader_short_read_witness :
  Reader_Read {| rd_r := {| chunks := [[1; 2]; replicate 30 3]; final := EOF |};
                 rd_seq := 0; rd_max := 1 |} zero_point =
    (None, [1; 2] ++ replicate 30 0,
     {| rd_r := {| chunks := [replicate 30 3]; final := EOF |}; rd_seq := 1; rd_max := 1 |}).
Proof.
  exact (Reader_short_read [1; 2] [replicate 30 3] EOF 0 1 zero_point ltac:(unfold EncodedLen; cbn; lia)
    eq_refl ltac:(lia)).
Defined.
