(* ===== verification/DhpsiParallel.v ===== *)
(** * [pkg/dhpsi]: dhpsi_parallel.go, dhpsi_parallel_types.go

    The parallel encoder, whose batches are multiplied by worker goroutines in any
    order, and the parallel reader, whose goroutines and channels are a step
    relation. *)
From S2P Require Import Prelude Words Permutations IO Dhpsi.

Definition batchSize : Z := 512.

Definition min (a b : Z) : Z := if a <? b then a else b.

(** ** Batches *)
Record dmBatch := {
  dm_seq : Z;
  dm_s : Z;
  dm_batch : list (list Z);
  dm_points : list (list Z)
}.

Definition makeDMBatch (seq size : Z) : res dmBatch :=
  if size <? 0 then Panic "makeslice: len out of range"
  else Ok {| dm_seq := seq; dm_s := size;
             dm_batch := replicate (Z.to_nat size) [];
             dm_points := replicate (Z.to_nat size) zero_point |}.

(** [parallelH] on a [dmOp]: [b.points[k] = DeriveMultiply(v)] for every [k]. *)
Definition parallelH_dm (gr : Ristretto) (b : dmBatch) : dmBatch :=
  {| dm_seq := dm_seq b; dm_s := dm_s b; dm_batch := dm_batch b;
     dm_points := imap (λ k p, match dm_batch b !! k with
                               | Some v => DeriveMultiply gr v | None => p end) (dm_points b) |}.

(** [parallelH] on an [mOp]. *)
Definition parallelH_m (gr : Ristretto) (batch : list (list Z)) : list (list Z) :=
  Multiply gr <$> batch.

(** ** DeriveMultiplyParallelShuffler *)
Record DeriveMultiplyParallelShuffler := {
  pe_w : sink;
  pe_seq : Z;
  pe_max : Z;
  pe_gr : Ristretto;
  pe_p : Permutations;
  pe_b : dmBatch;
  (** the batches given to the workers and not waited for yet *)
  pe_bus : list dmBatch;
  pe_points : list (list Z)
}.

Definition NewDeriveMultiplyParallelShuffler (draw : nat → option Z) (w : sink) (n : Z)
    (gr : Ristretto) : res DeriveMultiplyParallelShuffler :=
  match binary_Write_int64 w n with
  | (Some err, _) => Err err
  | (None, w) =>
      let! b := makeDMBatch 0 (min batchSize n) in
      let! p := kensler_of draw n in
      Ok {| pe_w := w; pe_seq := 0; pe_max := n; pe_gr := gr; pe_p := p; pe_b := b;
            pe_bus := []; pe_points := replicate (Z.to_nat n) zero_point |}
  end.

(** The closure run by a worker after a batch:
    [for k, v := range b.points { enc.points[int64(k)+b.seq] = v }]. *)
Fixpoint copy_points (points : list (list Z)) (k : Z) (vs : list (list Z)) : res (list (list Z)) :=
  match vs with
  | [] => Ok points
  | v :: vs => let! points := store points k v in copy_points points (k + 1) vs
  end.

(** [enc.wg.Wait()]: the workers finish the batches in the order given. *)
Fixpoint run_batches (gr : Ristretto) (points : list (list Z)) (bs : list dmBatch)
    : res (list (list Z)) :=
  match bs with
  | [] => Ok points
  | b :: bs =>
      let b := parallelH_dm gr b in
      let! points := copy_points points (dm_seq b) (dm_points b) in
      run_batches gr points bs
  end.

(** [for i < enc.max { pos := enc.p.Shuffle(i); enc.w.Write(enc.points[pos][:]) }]. *)
Fixpoint write_out (p : Permutations) (points : list (list Z)) (n : nat) (i : Z) (w : sink)
    : option (res (option error * sink)) :=
  match n with
  | O => Some (Ok (None, w))
  | S n =>
      pos ← Permutations.Shuffle p i;
      match index points pos with
      | Ok pt =>
          match Write w pt with
          | (Some err, w) => Some (Ok (Some err, w))
          | (None, w) => write_out p points n (i + 1) w
          end
      | Err e => Some (Err e)
      | Panic m => Some (Panic m)
      end
  end.

(** The part of [Shuffle] that buffers the identifier and hands over full batches. *)
Definition par_buffer (enc : DeriveMultiplyParallelShuffler) (identifier : list Z)
    : res DeriveMultiplyParallelShuffler :=
  let next := Z.rem (pe_seq enc) batchSize in
  let! batch := store (dm_batch (pe_b enc)) next identifier in
  let b := {| dm_seq := dm_seq (pe_b enc); dm_s := dm_s (pe_b enc); dm_batch := batch;
              dm_points := dm_points (pe_b enc) |} in
  let seq := pe_seq enc + 1 in
  let! ' (b, bus) :=
    (if next =? dm_s b - 1 then
       let bus := pe_bus enc ++ [b] in
       let s := min batchSize (pe_max enc - seq) in
       if s =? 0 then Ok (b, bus)
       else let! b := makeDMBatch seq s in Ok (b, bus)
     else Ok (b, pe_bus enc)) in
  Ok {| pe_w := pe_w enc; pe_seq := seq; pe_max := pe_max enc; pe_gr := pe_gr enc;
        pe_p := pe_p enc; pe_b := b; pe_bus := bus; pe_points := pe_points enc |}.

(** [Shuffle]; [sched] orders the batches as the workers finish them. *)
Definition par_Shuffle (sched : list dmBatch → list dmBatch)
    (enc : DeriveMultiplyParallelShuffler) (identifier : list Z)
    : option (res (option error * DeriveMultiplyParallelShuffler)) :=
  if pe_seq enc =? pe_max enc then Some (Ok (Some ErrUnexpectedPoint, enc))
  else
    match par_buffer enc identifier with
    | Err e => Some (Err e)
    | Panic m => Some (Panic m)
    | Ok enc =>
        if pe_seq enc =? pe_max enc then
          match run_batches (pe_gr enc) (pe_points enc) (sched (pe_bus enc)) with
          | Err e => Some (Err e)
          | Panic m => Some (Panic m)
          | Ok points =>
              r ← write_out (pe_p enc) points (Z.to_nat (pe_max enc)) 0 (pe_w enc);
              Some (let! ' (err, w) := r in
                    Ok (err, {| pe_w := w; pe_seq := pe_seq enc; pe_max := pe_max enc;
                                pe_gr := pe_gr enc; pe_p := pe_p enc; pe_b := pe_b enc;
                                pe_bus := []; pe_points := points |}))
          end
        else Some (Ok (None, enc))
    end.

Fixpoint par_shuffle_all (sched : list dmBatch → list dmBatch)
    (enc : DeriveMultiplyParallelShuffler) (ids : list (list Z))
    : option (res (option error * DeriveMultiplyParallelShuffler)) :=
  match ids with
  | [] => Some (Ok (None, enc))
  | id :: ids =>
      r ← par_Shuffle sched enc id;
      match r with
      | Ok (None, enc) => par_shuffle_all sched enc ids
      | r => Some r
      end
  end.

(** * Lemmas on the encoder *)

(** A batch that holds the identifiers from position [dm_seq] on. *)
Definition batch_of (ids : list (list Z)) (b : dmBatch) : Prop :=
  0 ≤ dm_seq b ∧ dm_seq b + Z.of_nat (length (dm_batch b)) ≤ Z.of_nat (length ids) ∧
  length (dm_points b) = length (dm_batch b) ∧
  ∀ i, (i < length (dm_batch b))%nat → ∃ id, dm_batch b !! i = Some id ∧
    ids !! (Z.to_nat (dm_seq b) + i)%nat = Some id.

Definition covers (b : dmBatch) (j : nat) : Prop :=
  (Z.to_nat (dm_seq b) ≤ j < Z.to_nat (dm_seq b) + length (dm_batch b))%nat.

Lemma copy_points_spec vs points k :
  0 ≤ k → k + Z.of_nat (length vs) ≤ Z.of_nat (length points) →
  ∃ points', copy_points points k vs = Ok points' ∧ length points' = length points ∧
    ∀ j, points' !! j = if decide (Z.to_nat k ≤ j < Z.to_nat k + length vs)%nat
                        then vs !! (j - Z.to_nat k)%nat else points !! j.
Proof.
  revert points k. induction vs as [|v vs IH]; intros points k Hk Hl; cbn [copy_points length] in *.
  { exists points. split; [done|]. split; [done|]. intros j. by rewrite decide_False by lia. }
  rewrite store_Ok by lia. cbn [res_bind].
  destruct (IH (<[Z.to_nat k := v]> points) (k + 1)) as (p' & E & Hl' & Hj);
    [lia|rewrite length_insert; lia|].
  exists p'. split; [done|]. split; [by rewrite Hl', length_insert|]. intros j. rewrite Hj.
  destruct (decide (j = Z.to_nat k)) as [->|].
  - rewrite decide_False by lia. rewrite list_lookup_insert_eq by lia.
    rewrite decide_True by lia. by rewrite Nat.sub_diag.
  - rewrite list_lookup_insert_ne by lia. repeat case_decide; try lia; [|done].
    replace (j - Z.to_nat k)%nat with (S (j - Z.to_nat (k + 1))) by lia. done.
Qed.

Lemma run_batches_spec gr ids points bs :
  Forall (batch_of ids) bs → length points = length ids →
  ∃ points', run_batches gr points bs = Ok points' ∧ length points' = length points ∧
    ∀ j id, ids !! j = Some id →
      ((∃ b, b ∈ bs ∧ covers b j) → points' !! j = Some (DeriveMultiply gr id)) ∧
      ((∀ b, b ∈ bs → ¬ covers b j) → points' !! j = points !! j).
Proof.
  intros Hbs. revert points. induction Hbs as [|b bs (Hs & Hle & Hlp & Hb) _ IH]; intros points Hl;
    cbn [run_batches].
  { exists points. split; [done|]. split; [done|]. intros j id Hid. split; [|done].
    intros (b & Hb & _). by apply elem_of_nil in Hb. }
  cbn [parallelH_dm dm_seq dm_points]. set (vs := imap _ (dm_points b)).
  assert (length vs = length (dm_batch b)) as Hvs by (unfold vs; by rewrite length_imap).
  destruct (copy_points_spec vs points (dm_seq b)) as (p1 & E1 & Hl1 & Hp1); [done| |].
  { rewrite Hvs. lia. }
  rewrite E1. cbn [res_bind]. destruct (IH p1) as (p2 & E2 & Hl2 & Hp2); [congruence|].
  exists p2. split; [done|]. split; [congruence|]. intros j id Hid.
  destruct (Hp2 j id Hid) as [Hcov Hunc].
  assert (covers b j → p1 !! j = Some (DeriveMultiply gr id)) as Hb1.
  { intros Hc. unfold covers in Hc. rewrite Hp1, Hvs, decide_True by lia.
    destruct (Hb (j - Z.to_nat (dm_seq b))%nat) as (id' & Eid & Eid'); [lia|].
    replace (Z.to_nat (dm_seq b) + (j - Z.to_nat (dm_seq b)))%nat with j in Eid' by lia.
    assert (id' = id) as -> by congruence. unfold vs. rewrite list_lookup_imap, Eid.
    destruct (lookup_lt_is_Some_2 (dm_points b) (j - Z.to_nat (dm_seq b))) as [q ->]; [lia|done]. }
  assert (¬ covers b j → p1 !! j = points !! j) as Hb2.
  { intros Hc. unfold covers in Hc. by rewrite Hp1, Hvs, decide_False by lia. }
  assert (Decision (∃ b', b' ∈ bs ∧ covers b' j)) as Hdec.
  { destruct (decide (Exists (λ b', covers b' j) bs)) as [He|He].
    - left. apply Exists_exists in He as (b' & ? & ?). by exists b'.
    - right. intros (b' & ? & ?). apply He, Exists_exists. by exists b'. }
  split.
  - intros (b' & [->|Hin]%elem_of_cons & Hc); [|apply Hcov; by exists b'].
    destruct Hdec as [Hd|Hd]; [by apply Hcov|]. rewrite Hunc; [by apply Hb1|].
    intros b' Hin Hc'. apply Hd. by exists b'.
  - intros Hno. rewrite Hunc; [apply Hb2, Hno; set_solver|].
    intros b' Hin. apply Hno. set_solver.
Qed.

(** The encoder after [k] identifiers: the current batch starts at [a]. *)
Record buffering (ids : list (list Z)) (k : Z) (enc : DeriveMultiplyParallelShuffler) : Prop := {
  bf_max : pe_max enc = Z.of_nat (length ids);
  bf_seq : pe_seq enc = k;
  bf_points : length (pe_points enc) = length ids;
  bf_bus : Forall (batch_of ids) (pe_bus enc);
  bf_cover j : 0 ≤ j < k - k mod batchSize ∨ k = Z.of_nat (length ids) ∧ 0 ≤ j < k →
    ∃ b, b ∈ pe_bus enc ∧ covers b (Z.to_nat j);
  bf_current : k < Z.of_nat (length ids) →
    dm_seq (pe_b enc) = k - k mod batchSize ∧
    dm_s (pe_b enc) = min batchSize (Z.of_nat (length ids) - dm_seq (pe_b enc)) ∧
    Z.of_nat (length (dm_batch (pe_b enc))) = dm_s (pe_b enc) ∧
    length (dm_points (pe_b enc)) = length (dm_batch (pe_b enc)) ∧
    ∀ i, 0 ≤ i < k mod batchSize →
      dm_batch (pe_b enc) !! Z.to_nat i = ids !! Z.to_nat (dm_seq (pe_b enc) + i)
}.

Definition same_but_buffer (enc enc' : DeriveMultiplyParallelShuffler) : Prop :=
  pe_w enc' = pe_w enc ∧ pe_max enc' = pe_max enc ∧ pe_gr enc' = pe_gr enc ∧ pe_p enc' = pe_p enc.

Lemma min_spec a b : min a b = Z.min a b.
Proof. unfold min. destruct (Z.ltb_spec a b); lia. Qed.

(** The current batch with one more identifier, and the bus it goes to when it is full. *)
Definition batch_add (k : Z) (enc : DeriveMultiplyParallelShuffler) (id : list Z) : dmBatch :=
  {| dm_seq := dm_seq (pe_b enc); dm_s := dm_s (pe_b enc);
     dm_batch := <[Z.to_nat (k mod batchSize) := id]> (dm_batch (pe_b enc));
     dm_points := dm_points (pe_b enc) |}.

Lemma batch_add_lookup ids k id enc :
  0 ≤ k < Z.of_nat (length ids) → buffering ids k enc → ids !! Z.to_nat k = Some id →
  k mod batchSize < dm_s (pe_b enc) ∧
  ∀ i, 0 ≤ i ≤ k mod batchSize →
    dm_batch (batch_add k enc id) !! Z.to_nat i = ids !! Z.to_nat (dm_seq (pe_b enc) + i).
Proof.
  intros Hk [_ _ _ _ _ Hcur] Hid. destruct (Hcur ltac:(lia)) as (Ea & Es & El & _ & Hfill).
  rewrite min_spec in Es.
  assert (0 ≤ k mod batchSize < batchSize) as Hm by (apply Z.mod_pos_bound; done).
  assert (k mod batchSize ≤ k) as Hmk by (apply Z.mod_le; [lia|done]).
  split; [lia|]. intros i Hi. unfold batch_add. cbn [dm_batch].
  destruct (decide (i = k mod batchSize)) as [->|].
  - rewrite list_lookup_insert_eq by lia. rewrite Ea, <-Hid. f_equal. lia.
  - rewrite list_lookup_insert_ne by lia. apply Hfill. lia.
Qed.

Lemma batch_full ids k id enc :
  0 ≤ k < Z.of_nat (length ids) → buffering ids k enc → ids !! Z.to_nat k = Some id →
  k mod batchSize = dm_s (pe_b enc) - 1 →
  let b := batch_add k enc id in
  Forall (batch_of ids) (pe_bus enc ++ [b]) ∧
  ∀ j, 0 ≤ j < k + 1 → ∃ b', b' ∈ pe_bus enc ++ [b] ∧ covers b' (Z.to_nat j).
Proof.
  intros Hk Hbuf Hid Hfull b. destruct (batch_add_lookup ids k id enc Hk Hbuf Hid) as [Hms Hb].
  fold b in Hb. destruct Hbuf as [_ _ _ Hbus Hcov Hcur].
  destruct (Hcur ltac:(lia)) as (Ea & Es & El & Elp & _). rewrite min_spec in Es.
  assert (0 ≤ k mod batchSize) as Hm by (apply Z.mod_pos_bound; done).
  assert (k mod batchSize ≤ k) as Hmk by (apply Z.mod_le; [lia|done]).
  assert (length (dm_batch b) = length (dm_batch (pe_b enc))) as Elb by (by cbn; rewrite length_insert).
  assert (dm_seq b = dm_seq (pe_b enc)) as Esb by done. split.
  - apply Forall_app. split; [done|]. constructor; [|done]. split_and!; [lia|lia|by rewrite Elb|].
    intros i Hi. destruct (lookup_lt_is_Some_2 ids (Z.to_nat (dm_seq b) + i)) as [x Hx]; [lia|].
    exists x. split; [|done]. rewrite <-(Nat2Z.id i), (Hb (Z.of_nat i)) by lia.
    rewrite <-Hx. f_equal. lia.
  - intros j Hj. destruct (decide (j < k - k mod batchSize)).
    + destruct (Hcov j) as (b' & Hin & Hc); [lia|]. exists b'. split; [set_solver|done].
    + exists b. split; [set_solver|]. unfold covers. lia.
Qed.

Lemma par_buffer_spec ids k id enc :
  0 ≤ k < Z.of_nat (length ids) → buffering ids k enc → ids !! Z.to_nat k = Some id →
  ∃ enc', par_buffer enc id = Ok enc' ∧ same_but_buffer enc enc' ∧ buffering ids (k + 1) enc'.
Proof.
  intros Hk Hbuf Hid. set (n := Z.of_nat (length ids)) in *.
  destruct (batch_add_lookup ids k id enc Hk Hbuf Hid) as [Hms Hb].
  pose proof (batch_full ids k id enc Hk Hbuf Hid) as Hfull.
  destruct Hbuf as [Hmax Hseq Hpts Hbus Hcov Hcur].
  destruct (Hcur ltac:(lia)) as (Ea & Es & El & Elp & _). clear Hcur. fold n in Es, Hmax.
  rewrite min_spec in Es. unfold par_buffer. rewrite Hseq, Z.rem_mod_nonneg by (unfold batchSize; lia).
  assert (0 ≤ k mod batchSize < batchSize) as Hm by (apply Z.mod_pos_bound; done).
  rewrite store_Ok by lia. cbn [res_bind dm_s dm_seq]. fold (batch_add k enc id).
  assert (length (dm_batch (batch_add k enc id)) = length (dm_batch (pe_b enc))) as Elb
    by (by cbn; rewrite length_insert).
  destruct (Z.eqb_spec (k mod batchSize) (dm_s (pe_b enc) - 1)) as [Efull|Efull].
  - destruct (Hfull Efull) as [Hbus' Hcov'].
    rewrite Hmax, min_spec. destruct (Z.eqb_spec (Z.min batchSize (n - (k + 1))) 0) as [E0|E0].
    + cbn [res_bind]. eexists. split; [done|]. split; [done|].
      unfold batchSize in *. constructor; cbn [pe_max pe_seq pe_points pe_bus]; try done; [|fold n; lia].
      intros j [Hj|[_ Hj]]; apply Hcov'; [|lia]. pose proof (Z.mod_pos_bound (k + 1) batchSize eq_refl). lia.
    + unfold makeDMBatch. destruct (Z.ltb_spec (Z.min batchSize (n - (k + 1))) 0); [unfold batchSize in *; lia|].
      cbn [res_bind]. eexists. split; [done|]. split; [done|].
      assert ((k + 1) mod batchSize = 0) as Emod by (unfold batchSize in *; dlia).
      constructor; cbn [pe_max pe_seq pe_points pe_bus pe_b dm_seq dm_s dm_batch dm_points];
        try done; rewrite ?Emod; fold n.
      * intros j Hj. apply Hcov'. lia.
      * intros _. rewrite min_spec, !length_replicate. split_and!; [lia|lia|lia|done|lia].
  - cbn [res_bind]. eexists. split; [done|]. split; [done|].
    assert ((k + 1) mod batchSize = k mod batchSize + 1) as Emod by (unfold batchSize in *; dlia).
    assert (k + 1 ≠ n) by (unfold batchSize in *; dlia).
    constructor; cbn [pe_max pe_seq pe_points pe_bus pe_b]; try done; rewrite ?Emod; fold n.
    + intros j Hj. apply Hcov. lia.
    + intros _. rewrite min_spec, Elb. cbn [batch_add dm_seq dm_s dm_points].
      split_and!; try done; [lia|]. intros i Hi. apply Hb. lia.
Qed.

Lemma write_out_spec p n `{!Permutes p n} pts k i w :
  Z.of_nat (length pts) = n → faultless w → 0 ≤ i → i + Z.of_nat k = n →
  ∃ w', write_out p pts k i w = Some (Ok (None, w')) ∧ faultless w' ∧
    written w' = written w ++ concat (sent_points p pts i n).
Proof.
  intros Hl. revert i w. induction k as [|k IH]; intros i w Hw Hi Hn; cbn [write_out].
  { exists w. split; [done|]. split; [done|]. unfold sent_points.
    replace (n - i) with 0 by lia. cbn. by rewrite app_nil_r. }
  destruct (order_Some p n i ltac:(lia)) as [Ei Hr]. rewrite Ei. cbn [mbind option_bind].
  assert (index pts (order p i) = Ok (pts !!! Z.to_nat (order p i))) as ->.
  { apply index_Ok. split; [lia|]. apply list_lookup_lookup_total_lt. lia. }
  destruct (Write_faultless w (pts !!! Z.to_nat (order p i)) Hw) as (w1 & E1 & Hw1 & Ew1). rewrite E1.
  destruct (IH (i + 1) w1 Hw1) as (w2 & E2 & Hw2 & Ew2); [lia|lia|].
  exists w2. rewrite E2. split; [done|]. split; [done|]. rewrite Ew2, Ew1, <-app_assoc. f_equal.
  unfold sent_points. replace (n - i) with (Z.succ (n - (i + 1))) by lia.
  rewrite (seqZ_cons i) by lia.
  replace (Z.pred (Z.succ (n - (i + 1)))) with (n - (i + 1)) by lia.
  cbn. by rewrite <-Z.add_1_r.
Qed.

Lemma run_batches_all gr ids enc bs :
  let n := Z.of_nat (length ids) in
  buffering ids n enc → bs ≡ₚ pe_bus enc →
  run_batches gr (pe_points enc) bs = Ok (DeriveMultiply gr <$> ids).
Proof.
  intros n [Hmax Hseq Hpts Hbus Hcov _] Hbs.
  destruct (run_batches_spec gr ids (pe_points enc) bs) as (pts & -> & Hl & Hj).
  { by rewrite Hbs. } { done. }
  f_equal. apply list_eq. intros j. rewrite list_lookup_fmap.
  destruct (ids !! j) as [id|] eqn:Ej; cbn [fmap option_fmap option_map].
  - apply (Hj j id Ej). pose proof (lookup_lt_Some _ _ _ Ej).
    destruct (Hcov (Z.of_nat j)) as (b & Hb & Hc); [right; unfold n; lia|].
    exists b. rewrite Hbs, <-(Nat2Z.id j). done.
  - apply lookup_ge_None in Ej. apply lookup_ge_None_2. lia.
Qed.

Lemma par_shuffle_all_spec sched p n `{!Permutes p n} gr ids k enc :
  (∀ l, sched l ≡ₚ l) → n = Z.of_nat (length ids) →
  buffering ids k enc → pe_p enc = p → pe_gr enc = gr → faultless (pe_w enc) → 0 ≤ k < n →
  ∃ enc', par_shuffle_all sched enc (drop (Z.to_nat k) ids) = Some (Ok (None, enc')) ∧
    pe_seq enc' = pe_max enc' ∧
    written (pe_w enc') = written (pe_w enc) ++ concat (sent_points p (DeriveMultiply gr <$> ids) 0 n).
Proof.
  intros Hsched ->. set (n := Z.of_nat (length ids)) in *.
  intros Hb Hp Hgr Hw Hk.
  assert (∃ m, Z.of_nat m = n - k) as [m Hm] by (exists (Z.to_nat (n - k)); lia).
  revert k enc Hb Hp Hgr Hw Hk Hm. induction m as [|m IH]; intros k enc Hb Hp Hgr Hw Hk Hm; [lia|].
  destruct (lookup_lt_is_Some_2 ids (Z.to_nat k)) as [id Hid]; [lia|].
  rewrite (drop_S _ _ _ Hid). cbn [par_shuffle_all]. unfold par_Shuffle.
  rewrite (bf_seq _ _ _ Hb), (bf_max _ _ _ Hb). destruct (Z.eqb_spec k (Z.of_nat (length ids))); [lia|].
  destruct (par_buffer_spec ids k id enc Hk Hb Hid) as (enc1 & -> & (Ew & Em & Egr & Ep) & Hb1).
  cbv beta iota.
  rewrite (bf_seq _ _ _ Hb1), (bf_max _ _ _ Hb1).
  replace (S (Z.to_nat k)) with (Z.to_nat (k + 1)) by lia.
  destruct (Z.eqb_spec (k + 1) (Z.of_nat (length ids))) as [En|En].
  - rewrite En in Hb1. rewrite (run_batches_all _ ids) by done. cbv beta iota.
    assert (pe_p enc1 = p) as -> by congruence. assert (pe_gr enc1 = gr) as -> by congruence.
    destruct (write_out_spec p n (DeriveMultiply gr <$> ids) (Z.to_nat n) 0 (pe_w enc1))
      as (w' & E & _ & Ew'); [by rewrite length_fmap|by rewrite Ew|lia|lia|].
    fold n. rewrite E. cbn [mbind option_bind res_bind].
    rewrite drop_ge by lia. cbn [par_shuffle_all]. eexists. split; [done|].
    cbn [pe_seq pe_max pe_w].
    split; [done|]. by rewrite Ew', Ew.
  - cbn [mbind option_bind].
    destruct (IH (k + 1) enc1) as (enc2 & E2 & Hs2 & Hw2); [done|congruence|congruence|by rewrite Ew|lia|lia|].
    exists enc2. split; [done|]. split; [done|]. by rewrite Hw2, Ew.
Qed.

Lemma new_buffering draw w n gr v ids :
  faultless w → n = Z.of_nat (length ids) → n ≤ 2 ^ 31 → draw 0%nat = Some v →
  ∃ enc, NewDeriveMultiplyParallelShuffler draw w n gr = Ok enc ∧ Permutes (pe_p enc) n ∧
    pe_gr enc = gr ∧ faultless (pe_w enc) ∧ written (pe_w enc) = written w ++ be_put 8 n ∧
    (∃ k, NewKensler draw n = Ok (k, None) ∧ pe_p enc = kensler_permutations k) ∧
    buffering ids 0 enc.
Proof.
  intros Hw -> Hn Hv. unfold NewDeriveMultiplyParallelShuffler, binary_Write_int64.
  set (n := Z.of_nat (length ids)) in *.
  destruct (Write_faultless w (be_put 8 n) Hw) as (w1 & -> & Hw1 & Ew1).
  unfold makeDMBatch. rewrite min_spec.
  destruct (Z.ltb_spec (Z.min batchSize n) 0); [unfold batchSize in *; lia|]. cbn [res_bind].
  unfold kensler_of. destruct (NewKensler_total draw n v Hn Hv) as [k Ek]. rewrite Ek. cbn [res_bind].
  eexists. split; [done|]. cbn [pe_p pe_gr pe_w]. split; [by eapply NewKensler_permutes|].
  split; [done|]. split; [done|]. split; [done|]. split; [by exists k|].
  constructor; cbn [pe_max pe_seq pe_points pe_bus pe_b dm_seq dm_s dm_batch dm_points];
    try done; rewrite ?length_replicate, ?min_spec; rewrite ?Zmod_0_l; fold n.
  - unfold n. lia.
  - lia.
  - intros _. split_and!; try done; lia.
Qed.

(** ** Properties *)

(** C23: with the same seed and writer, the parallel encoder writes exactly the
    bytes the sequential one writes, in whatever order the workers finish the
    batches, for every number of identifiers up to [2^31]; and it does not panic,
    block or report an error on the way. *)
Theorem parallel_writes_the_same sched draw w gr ids v :
  (∀ l, sched l ≡ₚ l) → faultless w → Z.of_nat (length ids) ≤ 2 ^ 31 →
  draw 0%nat = Some v → ids ≠ [] →
  let n := Z.of_nat (length ids) in
  ∃ enc encs par pars,
    NewDeriveMultiplyShuffler draw w n gr = Ok enc ∧ shuffle_all enc ids = Some (None, encs) ∧
    NewDeriveMultiplyParallelShuffler draw w n gr = Ok par ∧
    par_shuffle_all sched par ids = Some (Ok (None, pars)) ∧
    written (pe_w pars) = written (enc_w encs) ∧
    par_Shuffle sched pars [] = Some (Ok (Some ErrUnexpectedPoint, pars)).
Proof.
  intros Hsched Hw Hn Hv Hne n.
  assert (0 ≤ 0 < n) as Hn0 by (unfold n; destruct ids; [done|cbn [length]; lia]).
  destruct (new_shuffling draw w n gr v Hw Hn Hv) as (enc & E & Hp & _ & _ & _ & Hsh).
  destruct (shuffle_all_spec (enc_p enc) n (written w ++ be_put 8 n) gr ids 0 enc)
    as (encs & Es & _ & _ & Ews); [done|apply Hsh|done|].
  destruct (new_buffering draw w n gr v ids Hw eq_refl Hn Hv)
    as (par & Ep & Hpp & Hgr & Hpw & Epw & (k & Ek & Epk) & Hb).
  destruct (par_shuffle_all_spec sched (pe_p par) n gr ids 0 par Hsched eq_refl Hb eq_refl Hgr Hpw Hn0)
    as (pars & Eps & Esm & Ewp).
  exists enc, encs, par, pars. split_and!; try done.
  - rewrite Ewp, Ews, Epw. do 2 f_equal.
    assert (enc_p enc = pe_p par) as ->; [|done].
    revert E. unfold NewDeriveMultiplyShuffler. destruct (binary_Write_int64 w n) as [[?|] w1]; [done|].
    unfold kensler_of. rewrite Ek. cbn [res_bind]. intros [= <-]. done.
  - unfold par_Shuffle. by rewrite Esm, Z.eqb_refl.
Qed.

Lemma parallel_writes_the_same_witness :
  ∃ enc encs par pars,
    NewDeriveMultiplyShuffler (λ _, Some 1) new_sink 4 (@R255 toy_R255 5) = Ok enc ∧
    shuffle_all enc [[1]; [2]; [3]; [4]] = Some (None, encs) ∧
    NewDeriveMultiplyParallelShuffler (λ _, Some 1) new_sink 4 (@R255 toy_R255 5) = Ok par ∧
    par_shuffle_all (@reverse _) par [[1]; [2]; [3]; [4]] = Some (Ok (None, pars)) ∧
    written (pe_w pars) = written (enc_w encs).
Proof.
  destruct (parallel_writes_the_same (@reverse _) (λ _, Some 1) new_sink (@R255 toy_R255 5)
    [[1]; [2]; [3]; [4]] 1 (@reverse_Permutation _) ltac:(done) ltac:(cbn; lia) eq_refl ltac:(done))
    as (enc & encs & par & pars & E1 & E2 & E3 & E4 & E5 & _).
  exists enc, encs, par, pars. split; [exact E1|]. split; [exact E2|]. split; [exact E3|].
  split; [exact E4|exact E5].
Defined.
