(* ===== verification/Fill.v ===== *)
(** * [pkg/dhpsi]: the goroutines of [fill], dhpsi_parallel.go

    The parallel reader runs a goroutine that reads batches, the workers that
    multiply them and then wait for a countdown, the goroutine that counts down,
    and one that puts the batches back in order.  A step of the relation is one
    action of one goroutine, or one rendezvous on an unbuffered channel. *)
From S2P Require Import Prelude Words IO Dhpsi DhpsiParallel.

(** [totalBatches]. *)
Definition totalBatches (max : Z) : Z :=
  let t := Z.quot max batchSize in
  if Z.rem max batchSize =? 0 then t else t + 1.

(** Where the ordering goroutine is, with the points its [copyOut] has left. *)
Inductive ordering :=
| AtRange
| CopyBatch (todo : list (list Z))
| CopyRing (todo : list (list Z))
| Flushing (i : nat) (todo : list (list Z))
| Exited.

Record fill_state := mk_fill {
  f_reader : Reader;
  f_next : nat;                          (** [i] of the reading goroutine *)
  f_reading : bool;                      (** it has not returned *)
  f_sending : gmap nat (list (list Z));  (** workers at [batches <- m] *)
  f_waiting : nat;                       (** workers at [left := <-lb] *)
  f_lb : option Z;                       (** [left], or [lb] is closed *)
  f_batches_closed : bool;
  f_closed : bool;                       (** [closed] is closed *)
  f_ring : gmap nat (list (list Z));
  f_sent : nat;
  f_out : list (list Z);                 (** received from [c] *)
  f_ordering : ordering
}.

(** A panic in a goroutine ends the program. *)
Inductive fill_outcome :=
| Running (s : fill_state)
| Crashed (m : string).

(** [close(batches)] when it is [already] closed or not. *)
Definition close_batches (already : bool) (s : fill_state) : fill_outcome :=
  if already then Crashed "close of closed channel" else Running s.

(** After [copyOut(b)] or the buffering of [b]: the check of [ring[sent]]. *)
Definition check_ring (ring : gmap nat (list (list Z))) (sent : nat) : ordering :=
  match ring !! sent with
  | Some b => CopyRing b
  | None => AtRange
  end.

(** Entering iteration [i] of the final loop. *)
Definition flush_at (ring : gmap nat (list (list Z))) (sent i : nat) : ordering :=
  if bool_decide (i < size ring)%nat then Flushing i (default [] (ring !! (sent + i)%nat)) else Exited.

Section Fill.
Context (workers : nat) (gr : Ristretto) (total : Z).

(** The size of the batch to read next, which [makeMBatch] allocates. *)
Definition batch_size (r : Reader) : Z := min batchSize (rd_max r - rd_seq r).
Definition batch_len (r : Reader) : nat := Z.to_nat (batch_size r).

Inductive fill_step : fill_state → fill_outcome → Prop :=
| step_submit r i sending waiting lb bc cc ring sent out o pts r' :
    Z.of_nat i < total → 0 ≤ batch_size r → (size sending + waiting < workers)%nat →
    read_points (batch_len r) r = (None, pts, r') →
    fill_step (mk_fill r i true sending waiting lb bc cc ring sent out o)
      (Running (mk_fill r' (S i) true (<[i := parallelH_m gr pts]> sending) waiting lb bc cc ring sent out o))
| step_read_error r i sending waiting lb bc cc ring sent out o e pts r' :
    Z.of_nat i < total → 0 ≤ batch_size r →
    read_points (batch_len r) r = (Some e, pts, r') →
    fill_step (mk_fill r i true sending waiting lb bc cc ring sent out o)
      (close_batches bc (mk_fill r' i false sending waiting lb true true ring sent out o))
| step_read_end r i sending waiting lb bc cc ring sent out o :
    total ≤ Z.of_nat i →
    fill_step (mk_fill r i true sending waiting lb bc cc ring sent out o)
      (Running (mk_fill r i false sending waiting lb bc cc ring sent out o))
| step_deliver r i rd sending waiting lb cc ring sent out n b :
    sending !! n = Some b →
    fill_step (mk_fill r i rd sending waiting lb false cc ring sent out AtRange)
      (Running (mk_fill r i rd (delete n sending) (S waiting) lb false cc
        (if bool_decide (sent = n) then ring else <[n := b]> ring) sent out
        (if bool_decide (sent = n) then CopyBatch b else check_ring (<[n := b]> ring) sent)))
| step_send_on_closed r i rd sending waiting lb cc ring sent out o n b :
    sending !! n = Some b →
    fill_step (mk_fill r i rd sending waiting lb true cc ring sent out o)
      (Crashed "send on closed channel")
| step_count r i rd sending waiting left bc cc ring sent out o :
    fill_step (mk_fill r i rd sending (S waiting) (Some left) bc cc ring sent out o)
      (if left =? 0
       then close_batches bc (mk_fill r i rd sending waiting
              (if left - 1 =? 0 then None else Some (left - 1)) true cc ring sent out o)
       else Running (mk_fill r i rd sending waiting
              (if left - 1 =? 0 then None else Some (left - 1)) bc cc ring sent out o))
| step_count_closed r i rd sending waiting bc cc ring sent out o :
    fill_step (mk_fill r i rd sending (S waiting) None bc cc ring sent out o)
      (close_batches bc (mk_fill r i rd sending waiting None true cc ring sent out o))
| step_lb_cancelled r i rd sending waiting left bc ring sent out o :
    fill_step (mk_fill r i rd sending waiting (Some left) bc true ring sent out o)
      (Running (mk_fill r i rd sending waiting None bc true ring sent out o))
| step_copy r i rd sending waiting lb bc cc ring sent out p todo (k : list (list Z) → ordering) :
    k = CopyBatch ∨ k = CopyRing ∨ (∃ j, k = Flushing j) →
    fill_step (mk_fill r i rd sending waiting lb bc cc ring sent out (k (p :: todo)))
      (Running (mk_fill r i rd sending waiting lb bc cc ring sent (out ++ [p]) (k todo)))
| step_copy_cancelled r i rd sending waiting lb bc ring sent out todo (k : list (list Z) → ordering) :
    k = CopyBatch ∨ k = CopyRing ∨ (∃ j, k = Flushing j) →
    fill_step (mk_fill r i rd sending waiting lb bc true ring sent out (k todo))
      (Running (mk_fill r i rd sending waiting lb bc true ring sent out (k [])))
| step_batch_copied r i rd sending waiting lb bc cc ring sent out :
    fill_step (mk_fill r i rd sending waiting lb bc cc ring sent out (CopyBatch []))
      (Running (mk_fill r i rd sending waiting lb bc cc ring (S sent) out (check_ring ring (S sent))))
| step_ring_copied r i rd sending waiting lb bc cc ring sent out :
    fill_step (mk_fill r i rd sending waiting lb bc cc ring sent out (CopyRing []))
      (Running (mk_fill r i rd sending waiting lb bc cc (delete sent ring) (S sent) out AtRange))
| step_range_ends r i rd sending waiting lb cc ring sent out :
    fill_step (mk_fill r i rd sending waiting lb true cc ring sent out AtRange)
      (Running (mk_fill r i rd sending waiting lb true cc ring sent out (flush_at ring sent 0)))
| step_flushed r i rd sending waiting lb bc cc ring sent out j :
    fill_step (mk_fill r i rd sending waiting lb bc cc ring sent out (Flushing j []))
      (Running (mk_fill r i rd sending waiting lb bc cc ring sent out (flush_at ring sent (S j))))
| step_make_panics r i sending waiting lb bc cc ring sent out o :
    Z.of_nat i < total → batch_size r < 0 →
    fill_step (mk_fill r i true sending waiting lb bc cc ring sent out o)
      (Crashed "makeslice: len out of range").

(** [fill] just called on a reader. *)
Definition fill_init (r : Reader) : fill_state :=
  mk_fill r 0 true ∅ 0 (Some (total - 1)) false false ∅ 0 [] AtRange.

Inductive fill_reach (s0 : fill_state) : fill_outcome → Prop :=
| reach_init : fill_reach s0 (Running s0)
| reach_step s o : fill_reach s0 (Running s) → fill_step s o → fill_reach s0 o.
End Fill.

(** ** MultiplyParallelReader *)
Record MultiplyParallelReader := {
  mr_max : Z;
  mr_seq : Z;
  mr_bus : list (list Z);  (** points [c] delivers before it is closed *)
}.

(** [Read] once the goroutines are done. *)
Definition mr_Read (dec : MultiplyParallelReader) : option error * list Z * MultiplyParallelReader :=
  if mr_seq dec =? mr_max dec then (Some EOF, [], dec)
  else
    match mr_bus dec with
    | [] => (Some ErrUnexpectedEOF, [], dec)
    | p :: bus => (None, p, {| mr_max := mr_max dec; mr_seq := mr_seq dec + 1; mr_bus := bus |})
    end.

(** More workers allow more. *)
Lemma fill_step_more w w' g total s o : (w ≤ w')%nat → fill_step w g total s o → fill_step w' g total s o.
Proof. intros Hw Hs. destruct Hs; try (by econstructor). eapply step_submit; [done|done|lia|done]. Qed.

(** * The run without a read error *)
Section NoError.
Context (workers : nat) (gr : Ristretto) (pts : list (list Z)) (r0 : source).
Hypothesis r0_aligned : aligned r0.
Hypothesis pts_ok : points_ok pts.
Hypothesis r0_pending : pending r0 = concat pts.
Hypothesis pts_ne : pts ≠ [].
Hypothesis workers_pos : (0 < workers)%nat.

Let N := length pts.
Let T := Z.to_nat (totalBatches (Z.of_nat N)).

(** The multiplied points of batch [i], and of all the batches before [i]. *)
Definition chunk (i : nat) : list (list Z) := Multiply gr <$> take 512 (drop (512 * i) pts).
Definition prefix (i : nat) : list (list Z) := Multiply gr <$> take (512 * i) pts.

Lemma N_pos : (0 < N)%nat.
Proof. unfold N. destruct pts; [done|cbn; lia]. Qed.

Lemma T_spec : totalBatches (Z.of_nat N) = Z.of_nat T ∧ (0 < T)%nat ∧ (N ≤ 512 * T)%nat ∧
  (512 * (T - 1) < N)%nat.
Proof.
  pose proof N_pos. unfold T, totalBatches, batchSize.
  rewrite Z.quot_div_nonneg, Z.rem_mod_nonneg by lia.
  destruct (Z.eqb_spec (Z.of_nat N mod 512) 0); dlia.
Qed.

Lemma prefix_S i : prefix (S i) = prefix i ++ chunk i.
Proof.
  unfold prefix, chunk. rewrite <-fmap_app. f_equal.
  replace (512 * S i)%nat with (512 * i + 512)%nat by lia. symmetry. apply take_take_drop.
Qed.

Lemma prefix_T : prefix T = Multiply gr <$> pts.
Proof. unfold prefix. rewrite take_ge; [done|]. pose proof T_spec. unfold N in *. lia. Qed.

(** The reader before batch [i]. *)
Definition reader_at (i : nat) (r : Reader) : Prop :=
  rd_max r = Z.of_nat N ∧ rd_seq r = Z.of_nat (Nat.min (512 * i) N) ∧
  aligned (rd_r r) ∧ pending (rd_r r) = concat (drop (512 * i) pts).

Lemma read_batch i r :
  reader_at i r → (i < T)%nat →
  ∃ r', read_points (batch_len r) r = (None, take 512 (drop (512 * i) pts), r') ∧ reader_at (S i) r'.
Proof.
  intros (Hm & Hs & Hal & Hp) Hi. destruct r as [s seq max]. cbn [rd_max rd_seq rd_r] in *. subst max seq.
  pose proof T_spec as (_ & _ & _ & HT). unfold batch_len, batch_size. cbn [rd_max rd_seq].
  rewrite min_spec. unfold batchSize.
  set (b := take 512 (drop (512 * i) pts)). set (rest := drop 512 (drop (512 * i) pts)).
  assert (length b = Z.to_nat (Z.min 512 (Z.of_nat N - Z.of_nat (Nat.min (512 * i) N)))) as Hb.
  { unfold b. rewrite length_take, length_drop. unfold N in *. lia. }
  assert (b ++ rest = drop (512 * i) pts) as Ebr by apply take_drop.
  destruct (read_points_spec (length b) s (Z.of_nat (Nat.min (512 * i) N)) (Z.of_nat N) b rest)
    as (s' & E & Hal' & Hp' & _); [done| |by rewrite Ebr|done|lia|].
  { rewrite Ebr. by apply Forall_drop. }
  rewrite <-Hb, E. eexists. split; [done|]. split_and!; cbn [rd_max rd_seq rd_r]; try done.
  - unfold N in *. lia.
  - rewrite Hp'. unfold rest. rewrite drop_drop. do 2 f_equal. lia.
Qed.

Lemma batch_size_nonneg i r : reader_at i r → 0 ≤ batch_size r.
Proof. intros (Hm & Hs & _). unfold batch_size. rewrite min_spec, Hm, Hs. unfold batchSize. lia. Qed.

(** The countdown after [k] receptions. *)
Definition countdown (k : nat) (lb : option Z) : Prop :=
  if decide (T = 1%nat) then lb = Some (- Z.of_nat k)
  else if decide (k < T - 1)%nat then lb = Some (Z.of_nat T - 1 - Z.of_nat k) else lb = None.

(** The batch expected next once the current copy is over, and what has been put
    in order so far. *)
Definition expected (s : fill_state) : nat :=
  match f_ordering s with CopyBatch _ => S (f_sent s) | _ => f_sent s end.

Definition ordered (s : fill_state) : Prop :=
  match f_ordering s with
  | AtRange => f_out s = prefix (f_sent s)
  | CopyBatch todo => f_out s ++ todo = prefix (S (f_sent s))
  | CopyRing todo => f_out s ++ todo = prefix (S (f_sent s)) ∧ is_Some (f_ring s !! f_sent s)
  | Flushing i todo =>
      f_batches_closed s = true ∧ f_out s ++ todo = prefix (S (f_sent s + i)) ∧
      (i < size (f_ring s))%nat
  | Exited => f_batches_closed s = true ∧ f_out s = prefix T
  end.

Record fill_inv (s : fill_state) : Prop := {
  fi_reader : reader_at (f_next s) (f_reader s);
  fi_next : (f_next s ≤ T)%nat;
  fi_reading : f_reading s = false → f_next s = T;
  fi_sending n b : f_sending s !! n = Some b → b = chunk n ∧ (n < f_next s)%nat ∧
    (expected s ≤ n)%nat ∧ f_ring s !! n = None;
  fi_ring n b : f_ring s !! n = Some b → b = chunk n ∧ (n < f_next s)%nat ∧ (expected s ≤ n)%nat;
  fi_all n : (n < f_next s)%nat → is_Some (f_sending s !! n) ∨ (n < expected s)%nat ∨ is_Some (f_ring s !! n);
  fi_expected : (expected s ≤ f_next s)%nat;
  fi_ordered : ordered s;
  fi_count : ∃ k, f_next s = (size (f_sending s) + (f_waiting s + k))%nat ∧
    countdown k (f_lb s) ∧ f_batches_closed s = bool_decide (k = T);
  fi_closed : f_closed s = false
}.

Lemma fill_init_inv max seq :
  max = Z.of_nat N → seq = 0 →
  fill_inv (fill_init (totalBatches (Z.of_nat N)) {| rd_r := r0; rd_seq := seq; rd_max := max |}).
Proof.
  intros -> ->. pose proof T_spec as (ET & HT & _).
  constructor; cbn [fill_init f_reader f_next f_reading f_sending f_ring f_sent f_out f_ordering
    f_waiting f_lb f_batches_closed f_closed expected]; try done; try lia.
  exists 0%nat. rewrite map_size_empty. split; [lia|]. split.
  - unfold countdown. rewrite ET. repeat case_decide; f_equal; lia.
  - symmetry. apply bool_decide_false. lia.
Qed.

(** What the countdown gives to the worker that receives number [k]. *)
Lemma countdown_step k left_ :
  countdown k (Some left_) → (k < T)%nat →
  countdown (S k) (if left_ - 1 =? 0 then None else Some (left_ - 1)) ∧
  (left_ = 0 ↔ S k = T).
Proof.
  pose proof T_spec as (_ & HT & _). unfold countdown. clearbody T. intros Hc Hk.
  destruct (Z.eqb_spec (left_ - 1) 0); repeat case_decide; try done; injection Hc as Hc;
    (split; [first [done|f_equal; lia|exfalso; lia]|lia]).
Qed.

Lemma countdown_closed k : countdown k None → (k < T)%nat → countdown (S k) None ∧ S k = T.
Proof.
  pose proof T_spec as (_ & HT & _). unfold countdown. clearbody T. intros Hc Hk.
  repeat case_decide; try done; split; first [done|lia|exfalso; lia].
Qed.

(** When the channel [batches] is closed every batch has been received. *)
Lemma closed_all s :
  fill_inv s → f_batches_closed s = true →
  f_sending s = ∅ ∧ f_waiting s = 0%nat ∧ f_next s = T.
Proof.
  intros [_ Hn _ _ _ _ _ _ (k & Hk & _ & Hb) _] Hc. rewrite Hb in Hc.
  apply bool_decide_eq_true in Hc. subst k.
  split; [apply map_size_empty_inv; lia|lia].
Qed.

Lemma ring_full s :
  fill_inv s → f_batches_closed s = true →
  ∀ n, is_Some (f_ring s !! n) ↔ (expected s ≤ n < T)%nat.
Proof.
  intros Hi Hc n. destruct (closed_all s Hi Hc) as (Hs & _ & Hn). split.
  - intros [b Hb]. destruct (fi_ring _ Hi n b Hb) as (_ & ? & ?). lia.
  - intros Hr. destruct (fi_all _ Hi n) as [Hsome|[|]]; [lia| |lia|done].
    rewrite Hs, lookup_empty in Hsome. by destruct Hsome.
Qed.

Lemma ring_size s :
  fill_inv s → f_batches_closed s = true → size (f_ring s) = (T - expected s)%nat.
Proof.
  intros Hi Hc. rewrite <-size_dom.
  assert (dom (f_ring s) = (list_to_set (seq (expected s) (T - expected s)) : gset nat)) as ->.
  { apply set_eq. intros n. rewrite elem_of_dom, ring_full, elem_of_list_to_set, elem_of_seq by done.
    pose proof (fi_expected _ Hi). pose proof (fi_next _ Hi). lia. }
  rewrite size_list_to_set by apply NoDup_seq. apply length_seq.
Qed.

Ltac fcbn := cbn [f_reader f_next f_reading f_sending f_waiting f_lb f_batches_closed f_closed
  f_ring f_sent f_out f_ordering] in *.

Lemma inv_submit r i sending waiting lb bc cc ring sent out o pts' r' :
  fill_inv (mk_fill r i true sending waiting lb bc cc ring sent out o) → (i < T)%nat →
  read_points (batch_len r) r = (None, pts', r') →
  fill_inv (mk_fill r' (S i) true (<[i := parallelH_m gr pts']> sending) waiting lb bc cc ring sent out o).
Proof.
  intros [Hr Hn Hrd Hs Hg Ha He Ho (k & Hk & Hc & Hb) Hcl] Hi E. fcbn.
  destruct (read_batch i r Hr Hi) as (r2 & E2 & Hr2). rewrite E2 in E. injection E as <- <-.
  change (parallelH_m gr (take 512 (drop (512 * i) pts))) with (chunk i).
  assert (sending !! i = None) as Hnone.
  { destruct (sending !! i) as [b|] eqn:Eb; [|done]. destruct (Hs i b Eb) as (_ & ? & _). lia. }
  unfold expected in *. constructor; unfold expected; fcbn; try done; try lia.
  - intros n b. destruct (decide (n = i)) as [->|].
    + rewrite lookup_insert_eq. intros [= <-]. split_and!; [done|lia|done|].
      destruct (ring !! i) as [b|] eqn:Eb; [|done]. destruct (Hg i b Eb) as (_ & ? & _). lia.
    + rewrite lookup_insert_ne by done. intros Hnb. destruct (Hs n b Hnb) as (? & ? & ? & ?).
      split_and!; try done. lia.
  - intros n b Hnb. destruct (Hg n b Hnb) as (? & ? & ?). split_and!; try done. lia.
  - intros n Hni. destruct (decide (n = i)) as [->|].
    + left. rewrite lookup_insert_eq. by eexists.
    + rewrite lookup_insert_ne by done. apply Ha. lia.
  - exists k. rewrite map_size_insert_None by done. split; [lia|done].
Qed.

Lemma check_ring_ordered (s : fill_state) ring sent out :
  out = prefix sent → (∀ n b, ring !! n = Some b → b = chunk n) →
  f_ring s = ring → f_sent s = sent → f_out s = out → f_ordering s = check_ring ring sent →
  ordered s ∧ expected s = sent.
Proof.
  intros -> Hg Er Es Eo Ef. unfold ordered, expected. rewrite Ef, Er, Es, Eo. unfold check_ring.
  destruct (ring !! sent) as [b|] eqn:Eb; [|done]. rewrite (Hg _ _ Eb), prefix_S. done.
Qed.

Lemma inv_deliver r i rd sending waiting lb cc ring sent out n b :
  fill_inv (mk_fill r i rd sending waiting lb false cc ring sent out AtRange) →
  sending !! n = Some b →
  fill_inv (mk_fill r i rd (delete n sending) (S waiting) lb false cc
    (if bool_decide (sent = n) then ring else <[n := b]> ring) sent out
    (if bool_decide (sent = n) then CopyBatch b else check_ring (<[n := b]> ring) sent)).
Proof.
  intros [Hr Hn Hrd Hs Hg Ha He Ho (k & Hk & Hc & Hb) Hcl] Esn. unfold ordered in Ho.
  unfold expected in *. fcbn.
  destruct (Hs n b Esn) as (-> & Hni & Hsent & Hnr).
  assert (size sending = S (size (delete n sending))) as Esize.
  { rewrite <-(insert_delete_id sending n (chunk n)) at 1 by done.
    rewrite map_size_insert_None; [done|apply lookup_delete_eq]. }
  assert (∃ k0, i = (size (delete n sending) + (S waiting + k0))%nat ∧
    countdown k0 lb ∧ false = bool_decide (k0 = T)) as Hcount.
  { exists k. rewrite Hk, Esize. split; [lia|done]. }
  clear Hk Hb. destruct (bool_decide_reflect (sent = n)) as [En|En].
  - subst n. constructor; unfold expected, ordered; fcbn; try done.
    + intros n b Hnb. destruct (decide (n = sent)) as [->|]; [by rewrite lookup_delete_eq in Hnb|].
      rewrite lookup_delete_ne in Hnb by done. destruct (Hs n b Hnb) as (? & ? & ? & ?).
      split_and!; try done. lia.
    + intros n b Hnb. destruct (Hg n b Hnb) as (? & ? & ?). split_and!; try done.
      assert (n ≠ sent) by (intros ->; congruence). lia.
    + intros n Hn'. destruct (decide (n = sent)) as [->|]; [right; left; lia|].
      rewrite lookup_delete_ne by done. destruct (Ha n Hn') as [|[|]]; [by left|right; left; lia|by right; right].
    + rewrite Ho. symmetry. apply prefix_S.
  - assert (∀ m b, <[n := chunk n]> ring !! m = Some b → b = chunk m ∧ (m < i)%nat ∧ (sent ≤ m)%nat) as Hg'.
    { intros m b. destruct (decide (m = n)) as [->|].
      - rewrite lookup_insert_eq. intros [= <-]. done.
      - rewrite lookup_insert_ne by done. apply Hg. }
    match goal with |- fill_inv ?s =>
      destruct (check_ring_ordered s (<[n := chunk n]> ring) sent out) as [Hord Hexp] end;
      [done|by apply Hg'|done..|].
    constructor; rewrite ?Hexp; fcbn; try done.
    + intros m b Hm. destruct (decide (m = n)) as [->|]; [by rewrite lookup_delete_eq in Hm|].
      rewrite lookup_delete_ne in Hm by done. rewrite lookup_insert_ne by done. by apply Hs.
    + intros m Hm. destruct (decide (m = n)) as [->|].
      * right; right. rewrite lookup_insert_eq. by eexists.
      * rewrite lookup_delete_ne, lookup_insert_ne by done. by apply Ha.
Qed.

Lemma inv_count r i rd sending waiting lb lb' bc bc' cc ring sent out o :
  fill_inv (mk_fill r i rd sending (S waiting) lb bc cc ring sent out o) →
  (∀ k, countdown k lb → (k < T)%nat → countdown (S k) lb' ∧ bc' = bool_decide (S k = T)) →
  fill_inv (mk_fill r i rd sending waiting lb' bc' cc ring sent out o).
Proof.
  intros Hi Hstep. destruct bc eqn:Ebc.
  { destruct (closed_all _ Hi eq_refl) as (_ & Hw & _). done. }
  destruct Hi as [Hr Hn Hrd Hs Hg Ha He Ho (k & Hk & Hc & _) Hcl]. unfold ordered, expected in *. fcbn.
  destruct (Hstep k Hc) as [Hc' Hb']; [lia|].
  constructor; unfold ordered, expected; fcbn; try done.
  - destruct o; try done; by destruct Ho.
  - exists (S k). split; [lia|done].
Qed.

Lemma waiting_open s w : fill_inv s → f_waiting s = S w → f_batches_closed s = false.
Proof.
  intros Hi Hw. destruct (f_batches_closed s) eqn:E; [|done].
  destruct (closed_all s Hi E) as (_ & Hw' & _). lia.
Qed.

(** The steps of the ordering goroutine. *)
Lemma inv_copy r i rd sending waiting lb bc cc ring sent out p todo k :
  k = CopyBatch ∨ k = CopyRing ∨ (∃ j, k = Flushing j) →
  fill_inv (mk_fill r i rd sending waiting lb bc cc ring sent out (k (p :: todo))) →
  fill_inv (mk_fill r i rd sending waiting lb bc cc ring sent (out ++ [p]) (k todo)).
Proof.
  intros Hk [Hr Hn Hrd Hs Hg Ha He Ho Hc Hcl].
  destruct Hk as [->|[->|[j ->]]]; unfold ordered, expected in *; fcbn;
    (constructor; unfold ordered, expected; fcbn; [done..| |done|done]); by rewrite <-app_assoc.
Qed.

Lemma inv_batch_copied r i rd sending waiting lb bc cc ring sent out :
  fill_inv (mk_fill r i rd sending waiting lb bc cc ring sent out (CopyBatch [])) →
  fill_inv (mk_fill r i rd sending waiting lb bc cc ring (S sent) out (check_ring ring (S sent))).
Proof.
  intros [Hr Hn Hrd Hs Hg Ha He Ho Hc Hcl]. unfold ordered, expected in Hs, Hg, Ha, He, Ho. fcbn.
  rewrite app_nil_r in Ho.
  match goal with |- fill_inv ?s =>
    destruct (check_ring_ordered s ring (S sent) out) as [Hord Hexp] end;
    [done|by apply Hg|done..|].
  constructor; rewrite ?Hexp; fcbn; done.
Qed.

Lemma inv_ring_copied r i rd sending waiting lb bc cc ring sent out :
  fill_inv (mk_fill r i rd sending waiting lb bc cc ring sent out (CopyRing [])) →
  fill_inv (mk_fill r i rd sending waiting lb bc cc (delete sent ring) (S sent) out AtRange).
Proof.
  intros [Hr Hn Hrd Hs Hg Ha He Ho Hc Hcl]. unfold ordered, expected in Hs, Hg, Ha, He, Ho. fcbn.
  rewrite app_nil_r in Ho. destruct Ho as [Ho [b0 Hb0]].
  destruct (Hg _ _ Hb0) as (_ & Hlt & _).
  constructor; unfold ordered, expected; fcbn; try done.
  - intros n b Hnb. destruct (Hs n b Hnb) as (-> & ? & ? & Hno). split_and!; try done.
    + assert (n ≠ sent) by (intros ->; congruence). lia.
    + rewrite lookup_delete_ne; [done|]. intros ->. congruence.
  - intros n b. destruct (decide (n = sent)) as [->|]; [by rewrite lookup_delete_eq|].
    rewrite lookup_delete_ne by done. intros Hnb. destruct (Hg n b Hnb) as (-> & ? & ?).
    split_and!; try done. lia.
  - intros n Hn'. destruct (decide (n = sent)) as [->|]; [right; left; lia|].
    rewrite lookup_delete_ne by done. destruct (Ha n Hn') as [|[|]]; [by left|right; left; lia|by right; right].
Qed.

(** Entering or going round the final loop. *)
Lemma inv_flush r i rd sending waiting lb cc ring sent out o j :
  fill_inv (mk_fill r i rd sending waiting lb true cc ring sent out o) →
  (o = AtRange ∧ j = 0%nat ∨ ∃ j', o = Flushing j' [] ∧ j = S j') →
  fill_inv (mk_fill r i rd sending waiting lb true cc ring sent out (flush_at ring sent j)).
Proof.
  intros Hi Ho. pose proof (ring_size _ Hi eq_refl) as Hsize. pose proof (ring_full _ Hi eq_refl) as Hfull.
  pose proof (fi_expected _ Hi) as Hexp. pose proof (fi_next _ Hi) as Hnext.
  assert (out = prefix (sent + j) ∧ expected (mk_fill r i rd sending waiting lb true cc ring sent out o) = sent
    ∧ (j ≤ size ring)%nat) as (Eout & Ee & Hj).
  { pose proof (fi_ordered _ Hi) as Hord. unfold ordered, expected in *. fcbn.
    destruct Ho as [[-> ->]|(j' & -> & ->)].
    - rewrite Nat.add_0_r. split_and!; [done|done|lia].
    - destruct Hord as (_ & Hp & Hlt). rewrite app_nil_r in Hp.
      split_and!; [by rewrite Nat.add_succ_r|done|lia]. }
  rewrite Ee in *. fcbn.
  assert (expected (mk_fill r i rd sending waiting lb true cc ring sent out (flush_at ring sent j)) = sent)
    as Ee' by (unfold expected, flush_at; fcbn; by case_bool_decide).
  destruct Hi as [Hr Hn Hrd Hs Hg Ha He _ Hc Hcl]. rewrite Ee in *. fcbn.
  constructor; rewrite ?Ee'; fcbn; try done.
  unfold ordered, flush_at. fcbn. case_bool_decide as Hlt; fcbn.
  - split; [done|]. split; [|done]. destruct (Hfull (sent + j)%nat) as [_ Hsome].
    destruct Hsome as [b Hb]; [lia|]. rewrite Hb. cbn [from_option id].
    destruct (Hg _ _ Hb) as [-> _]. by rewrite Eout, prefix_S.
  - split; [done|]. rewrite Eout. f_equal. lia.
Qed.

(** Every step keeps the invariant, and none is a panic. *)
Lemma fill_step_inv s o :
  fill_inv s → fill_step workers gr (totalBatches (Z.of_nat N)) s o →
  ∃ s', o = Running s' ∧ fill_inv s'.
Proof.
  pose proof T_spec as (ET & _). intros Hi Hstep.
  destruct Hstep as [r i sending waiting lb bc cc ring sent out o pts' r' Hlt _ Hw E
    |r i sending waiting lb bc cc ring sent out o e pts' r' Hlt _ E
    |r i sending waiting lb bc cc ring sent out o Hle
    |r i rd sending waiting lb cc ring sent out n b Hb
    |r i rd sending waiting lb cc ring sent out o n b Hb
    |r i rd sending waiting left_ bc cc ring sent out o
    |r i rd sending waiting bc cc ring sent out o
    |r i rd sending waiting left_ bc ring sent out o
    |r i rd sending waiting lb bc cc ring sent out p todo k Hk
    |r i rd sending waiting lb bc ring sent out todo k Hk
    |r i rd sending waiting lb bc cc ring sent out
    |r i rd sending waiting lb bc cc ring sent out
    |r i rd sending waiting lb cc ring sent out
    |r i rd sending waiting lb bc cc ring sent out j
    |r i sending waiting lb bc cc ring sent out o Hlt Hneg].
  - eexists. split; [done|]. eapply inv_submit; [exact Hi|lia|exact E].
  - exfalso. destruct (read_batch i r) as (r2 & E2 & _); [apply (fi_reader _ Hi)|lia|]. congruence.
  - eexists. split; [done|]. pose proof (fi_next _ Hi). destruct Hi as [? ? ? ? ? ? ? Ho ? ?].
    unfold ordered, expected in *. fcbn. constructor; unfold ordered, expected; fcbn; try done. lia.
  - eexists. split; [done|]. by apply inv_deliver.
  - exfalso. destruct (closed_all _ Hi eq_refl) as (Hs & _). fcbn. by rewrite Hs, lookup_empty in Hb.
  - pose proof (waiting_open _ _ Hi eq_refl) as Hopen. fcbn. subst bc.
    destruct (Z.eqb_spec left_ 0) as [->|Hl]; (eexists; split; [done|]);
      (eapply inv_count; [exact Hi|]); intros k Hc Hk;
      destruct (countdown_step k _ Hc Hk) as [Hc' Hl']; (split; [done|]).
    + symmetry. apply bool_decide_true. tauto.
    + symmetry. apply bool_decide_false. tauto.
  - pose proof (waiting_open _ _ Hi eq_refl) as Hopen. fcbn. subst bc. eexists; split; [done|].
    eapply inv_count; [exact Hi|]. intros k Hc Hk. destruct (countdown_closed k Hc Hk) as [Hc' Hl'].
    split; [done|]. symmetry. by apply bool_decide_true.
  - exfalso. by pose proof (fi_closed _ Hi).
  - eexists. split; [done|]. by eapply inv_copy.
  - exfalso. by pose proof (fi_closed _ Hi).
  - eexists. split; [done|]. by apply inv_batch_copied.
  - eexists. split; [done|]. by apply inv_ring_copied.
  - eexists. split; [done|]. eapply inv_flush; [exact Hi|by left].
  - eexists. split; [done|]. destruct bc.
    + eapply inv_flush; [exact Hi|right; by exists j].
    + exfalso. pose proof (fi_ordered _ Hi) as Ho. unfold ordered in Ho. fcbn. by destruct Ho.
  - exfalso. pose proof (batch_size_nonneg i r (fi_reader _ Hi)). lia.
Qed.

Lemma fill_reach_inv o :
  fill_reach workers gr (totalBatches (Z.of_nat N))
    (fill_init (totalBatches (Z.of_nat N)) {| rd_r := r0; rd_seq := 0; rd_max := Z.of_nat N |}) o →
  ∃ s, o = Running s ∧ fill_inv s.
Proof.
  induction 1 as [|s o _ (s' & [= <-] & Hi) Hstep].
  - eexists. split; [done|]. by apply fill_init_inv.
  - by eapply fill_step_inv.
Qed.

(** ** Every run ends *)
Definition rank (o : ordering) : nat :=
  match o with
  | AtRange => T + 3
  | CopyRing _ => T + 4
  | CopyBatch _ => T + 5
  | Flushing i _ => T + 2 - i
  | Exited => 0
  end.

Definition fill_measure (s : fill_state) : nat :=
  5 * (T - f_next s) + (if f_reading s then 1 else 0) + 4 * size (f_sending s) + f_waiting s +
  rank (f_ordering s) + (N - length (f_out s)).

Lemma length_prefix i : (length (prefix i) ≤ N)%nat.
Proof. unfold prefix. rewrite length_fmap, length_take. unfold N. lia. Qed.

Lemma rank_check_ring ring sent : (rank (check_ring ring sent) ≤ T + 4)%nat.
Proof. unfold check_ring. destruct (ring !! sent); cbn; lia. Qed.

Lemma rank_flush ring sent j : (j ≤ T)%nat → (rank (flush_at ring sent j) ≤ T + 2 - j)%nat.
Proof. intros Hj. unfold flush_at. case_bool_decide; cbn; lia. Qed.

Lemma size_delete_sending (m : gmap nat (list (list Z))) n b :
  m !! n = Some b → size m = S (size (delete n m)).
Proof.
  intros Hb. rewrite <-(insert_delete_id m n b) at 1 by done.
  by rewrite map_size_insert_None by apply lookup_delete_eq.
Qed.

Lemma fill_step_measure s s' :
  fill_inv s → fill_step workers gr (totalBatches (Z.of_nat N)) s (Running s') →
  (fill_measure s' < fill_measure s)%nat.
Proof.
  pose proof T_spec as (ET & HT & _). intros Hi Hstep. pose proof (fi_next _ Hi) as Hnext.
  inversion Hstep as [r i sending waiting lb bc cc ring sent out o pts' r' Hlt _ Hw E
    |r i sending waiting lb bc cc ring sent out o e pts' r' Hlt _ E Es Eo
    |r i sending waiting lb bc cc ring sent out o Hle
    |r i rd sending waiting lb cc ring sent out n b Hb
    |
    |r i rd sending waiting left_ bc cc ring sent out o Es Eo
    |r i rd sending waiting bc cc ring sent out o Es Eo
    |
    |r i rd sending waiting lb bc cc ring sent out p todo k Hk
    |r i rd sending waiting lb bc ring sent out todo k Hk
    |r i rd sending waiting lb bc cc ring sent out
    |r i rd sending waiting lb bc cc ring sent out
    |r i rd sending waiting lb cc ring sent out
    |r i rd sending waiting lb bc cc ring sent out j
    |]; subst; unfold fill_measure; fcbn.
  - assert (size (<[i := parallelH_m gr pts']> sending) ≤ S (size sending))%nat.
    { destruct (sending !! i) as [b|] eqn:Eb.
      - rewrite map_size_insert_Some by (by eexists). lia.
      - rewrite map_size_insert_None by done. lia. }
    lia.
  - exfalso. destruct (read_batch i r) as (r2 & E2 & _); [apply (fi_reader _ Hi)|lia|]. congruence.
  - lia.
  - rewrite (size_delete_sending _ _ _ Hb). case_bool_decide; cbn [rank]; [lia|].
    pose proof (rank_check_ring (<[n := b]> ring) sent). lia.
  - pose proof (waiting_open _ _ Hi eq_refl) as Hopen. fcbn. subst bc. unfold close_batches in Eo.
    destruct (Z.eqb_spec left_ 0); injection Eo as <-; fcbn; lia.
  - pose proof (waiting_open _ _ Hi eq_refl) as Hopen. fcbn. subst bc. injection Eo as <-. fcbn. lia.
  - exfalso. by pose proof (fi_closed _ Hi).
  - assert (length out < N)%nat.
    { pose proof (fi_ordered _ Hi) as Ho. unfold ordered in Ho. fcbn.
      assert (∃ i, out ++ p :: todo = prefix i) as [i' Ei].
      { destruct Hk as [->|[->|[j ->]]]; eexists; apply Ho. }
      pose proof (length_prefix i') as Hl. rewrite <-Ei, length_app in Hl. cbn [length] in Hl. lia. }
    rewrite length_app. cbn [length].
    assert (rank (k todo) = rank (k (p :: todo))) as -> by (destruct Hk as [->|[->|[j ->]]]; done).
    lia.
  - exfalso. by pose proof (fi_closed _ Hi).
  - pose proof (rank_check_ring ring (S sent)). cbn [rank]. lia.
  - cbn [rank]. lia.
  - pose proof (rank_flush ring sent 0). cbn [rank]. lia.
  - pose proof (fi_ordered _ Hi) as Ho. unfold ordered in Ho. fcbn. destruct Ho as (-> & _ & Hlt).
    pose proof (ring_size _ Hi eq_refl) as Hs. fcbn.
    pose proof (rank_flush ring sent (S j)). cbn [rank]. lia.
Qed.

(** What has been delivered. *)
Lemma fill_out_prefix s :
  fill_inv s → f_out s `prefix_of` (Multiply gr <$> pts) ∧
  (f_ordering s = Exited → f_out s = Multiply gr <$> pts).
Proof.
  intros Hi. pose proof (fi_ordered _ Hi) as Ho. unfold ordered in Ho.
  assert (∀ i l, l `prefix_of` prefix i → l `prefix_of` (Multiply gr <$> pts)) as Hpre.
  { intros i l Hl. etrans; [exact Hl|]. unfold prefix. exists (Multiply gr <$> drop (512 * i) pts).
    by rewrite <-fmap_app, take_drop. }
  split.
  - destruct (f_ordering s); [rewrite Ho; by eapply Hpre|..].
    + eapply Hpre. rewrite <-Ho. by eexists.
    + destruct Ho as [Ho _]. eapply Hpre. rewrite <-Ho. by eexists.
    + destruct Ho as (_ & Ho & _). eapply Hpre. rewrite <-Ho. by eexists.
    + destruct Ho as [_ ->]. by eapply Hpre.
  - intros He. rewrite He in Ho. destruct Ho as [_ ->]. apply prefix_T.
Qed.

(** Between batches a state that holds no worker reads the next batch with a free
    worker; any other state that has not delivered everything moves without one. *)
Lemma fill_progress s :
  fill_inv s → f_ordering s ≠ Exited →
  ∀ free, (size (f_sending s) + f_waiting s = 0 → 0 < free)%nat →
  ∃ o, fill_step free gr (totalBatches (Z.of_nat N)) s o.
Proof.
  pose proof T_spec as (ET & HT & _). intros Hi Hne free Hfree. pose proof (fi_ordered _ Hi) as Ho.
  destruct s as [r i rd sending waiting lb bc cc ring sent out o]. unfold ordered in Ho. fcbn.
  destruct o as [|todo|todo|j todo|]; [|..|done].
  2: { destruct todo; eexists; [apply step_batch_copied|]. apply (step_copy _ _ _ _ _ _ _ _ _ _ _ _ _ _ _ _ CopyBatch). by left. }
  2: { destruct todo; eexists; [apply step_ring_copied|]. apply (step_copy _ _ _ _ _ _ _ _ _ _ _ _ _ _ _ _ CopyRing). by right; left. }
  2: { destruct todo; eexists; [apply step_flushed|].
       apply (step_copy _ _ _ _ _ _ _ _ _ _ _ _ _ _ _ _ (Flushing j)). right; right. by exists j. }
  destruct bc; [eexists; apply step_range_ends|].
  destruct (decide (sending = ∅)) as [->|Hs].
  - destruct waiting as [|w].
    + destruct (fi_count _ Hi) as (k & Hk & Hc & Hb). fcbn. rewrite map_size_empty in *.
      symmetry in Hb. apply bool_decide_eq_false in Hb. pose proof (fi_next _ Hi). fcbn.
      destruct rd; [|pose proof (fi_reading _ Hi eq_refl); fcbn; lia].
      destruct (read_batch i r) as (r' & E & _); [apply (fi_reader _ Hi)|lia|].
      eexists. eapply step_submit; [lia|by eapply batch_size_nonneg, (fi_reader _ Hi)|rewrite map_size_empty; lia|exact E].
    + destruct lb; eexists; [apply step_count|apply step_count_closed].
  - apply map_choose in Hs as (n & b & Hb). eexists. eapply step_deliver, Hb.
Qed.

(** Some run delivers everything. *)
Lemma fill_completes s0 s :
  fill_reach workers gr (totalBatches (Z.of_nat N)) s0 (Running s) → fill_inv s →
  ∃ s', fill_reach workers gr (totalBatches (Z.of_nat N)) s0 (Running s') ∧ fill_inv s' ∧
    f_ordering s' = Exited.
Proof.
  remember (fill_measure s) as m eqn:Em. revert s Em.
  induction (lt_wf m) as [m _ IH]. intros s -> Hreach Hi.
  destruct (f_ordering s) eqn:Eo; try by (exists s; split_and!).
  all: destruct (fill_progress s Hi ltac:(by rewrite Eo) workers ltac:(lia)) as [o Hstep];
    destruct (fill_step_inv s o Hi Hstep) as (s' & -> & Hi');
    eapply (IH (fill_measure s')); [by apply fill_step_measure|done|by eapply reach_step|done].
Qed.
End NoError.

(** An empty sequence, or a count that leaves no batch: nothing is ever delivered
    and the output stays open. *)
Lemma fill_empty workers gr total r o :
  total ≤ 0 → fill_reach workers gr total (fill_init total r) o →
  ∃ rd, o = Running (mk_fill r 0 rd ∅ 0 (Some (total - 1)) false false ∅ 0 [] AtRange).
Proof.
  intros Ht. induction 1 as [|s o _ [rd [= ->]] Hstep]; [by exists true|].
  inversion Hstep as [| |? ? ? ? ? ? ? ? ? ? ? Hle| | | | | |? ? ? ? ? ? ? ? ? ? ? ? ? k Hk| | | | | |];
    subst; try lia; try (by rewrite lookup_empty in *); try by eexists.
  by destruct Hk as [->|[->|[j ->]]].
Qed.

(** ** Properties *)

(** C17: reading [length pts] points over a connection cut between points, with
    any number of workers and any scheduling of the goroutines: no goroutine ever
    panics, what has been delivered is always a prefix of the multiplied points in
    their order, every step decreases a measure so that every run ends, and a run
    can only stop once all the points are delivered and the output closed. *)
Theorem fill_delivers workers gr pts r0 :
  aligned r0 → points_ok pts → pending r0 = concat pts → pts ≠ [] → (0 < workers)%nat →
  let total := totalBatches (Z.of_nat (length pts)) in
  let s0 := fill_init total {| rd_r := r0; rd_seq := 0; rd_max := Z.of_nat (length pts) |} in
  ∀ o, fill_reach workers gr total s0 o →
    ∃ s, o = Running s ∧ f_out s `prefix_of` (Multiply gr <$> pts) ∧
      (f_ordering s = Exited → f_out s = Multiply gr <$> pts) ∧
      (f_ordering s ≠ Exited → ∃ o', fill_step workers gr total s o') ∧
      ∀ s', fill_step workers gr total s (Running s') →
        (fill_measure pts s' < fill_measure pts s)%nat.
Proof.
  intros Hal Hok Hp Hne Hw total s0 o Hreach.
  destruct (fill_reach_inv workers gr pts r0 Hal Hok Hp Hne Hw o Hreach) as (s & -> & Hi).
  exists s. split; [done|].
  destruct (fill_out_prefix workers gr pts r0 Hok Hp Hne Hw s Hi) as [Hpre Hend].
  split; [done|]. split; [done|].
  split; [intros He; by apply (fill_progress workers gr pts r0 Hok Hp Hne Hw s Hi He workers)|].
  intros s' Hs'. by apply (fill_step_measure workers gr pts r0).
Qed.

Lemma fill_delivers_witness :
  let pts := [replicate 32 1; replicate 32 2] in
  let r0 := {| chunks := [concat pts]; final := EOF |} in
  let s0 := fill_init (totalBatches 2) {| rd_r := r0; rd_seq := 0; rd_max := 2 |} in
  ∃ o', fill_step 1 (@R255 toy_R255 3) (totalBatches 2) s0 o'.
Proof.
  intros pts r0 s0.
  assert (aligned r0) as Hal by (repeat constructor; by exists 2%nat).
  destruct (fill_delivers 1 (@R255 toy_R255 3) pts r0 Hal ltac:(by repeat constructor) eq_refl
    ltac:(done) ltac:(lia) (Running s0) (reach_init _ _ _ _)) as (s & E & _ & _ & Hprog & _).
  injection E as E. rewrite <-E in Hprog. apply Hprog. done.
Defined.

(** C39: a read error is fatal: when the connection fails after a first full batch,
    there is a scheduling in which the reading goroutine closes [batches] under a
    worker that is about to send on it, and the panic ends the program, instead of
    [Read] returning an error. *)
Theorem fill_read_error_crashes workers gr r r' r'' pts e pts' :
  (0 < workers)%nat →
  read_points (batch_len r) r = (None, pts, r') →
  read_points (batch_len r') r' = (Some e, pts', r'') →
  0 ≤ batch_size r → 0 ≤ batch_size r' → 2 ≤ totalBatches (rd_max r) →
  fill_reach workers gr (totalBatches (rd_max r)) (fill_init (totalBatches (rd_max r)) r)
    (Crashed "send on closed channel").
Proof.
  intros Hw E1 E2 Hb Hb' Ht.
  eapply reach_step; [eapply reach_step; [eapply reach_step; [apply reach_init|]|]|].
  - apply step_submit with (pts := pts) (r' := r'); [lia|done|rewrite map_size_empty; lia|done].
  - eapply (step_read_error _ _ _ r' 1); [lia|done|done].
  - eapply step_send_on_closed with (n := 0%nat). apply lookup_insert_eq.
Qed.

Lemma fill_read_error_crashes_witness :
  let r := {| rd_r := {| chunks := [concat (replicate 512 zero_point)]; final := ErrMsg "reset" |};
              rd_seq := 0; rd_max := 600 |} in
  fill_reach 4 (@R255 toy_R255 3) (totalBatches 600) (fill_init (totalBatches 600) r)
    (Crashed "send on closed channel").
Proof.
  intros r.
  assert (∀ (x : option error * list (list Z) * Reader), x = (x.1.1, x.1.2, x.2)) as Hx
    by (intros [[? ?] ?]; done).
  assert ((read_points (batch_len r) r).1.1 = None) as E1 by (by vm_compute).
  set (r' := (read_points (batch_len r) r).2).
  assert ((read_points (batch_len r') r').1.1 = Some (ErrMsg "reset")) as E2 by (by vm_compute).
  pose proof (Hx (read_points (batch_len r) r)) as X1. rewrite E1 in X1.
  pose proof (Hx (read_points (batch_len r') r')) as X2. rewrite E2 in X2.
  exact (fill_read_error_crashes 4 (@R255 toy_R255 3) r _ _ _ _ _ ltac:(lia) X1 X2
    ltac:(by vm_compute) ltac:(by vm_compute) ltac:(by vm_compute)).
Defined.
