(* ===== verification/DhpsiPool.v ===== *)
(** * [pkg/dhpsi]: the workers of dhpsi_parallel_types.go

    [init] starts [GOMAXPROCS] goroutines that take jobs from two unbuffered channels,
    [dmBus] and [mBus]: the batches of every encoder and of every reader of the process.
    A worker keeps a reader's batch until the reader's other goroutines have taken it.
    [DhpsiParallel] runs the batches of one encoder in an order that is a parameter and
    [Fill] gives one reader all the workers; here they share them. *)
From stdpp Require Import relations.
From S2P Require Import Prelude Words Permutations IO Dhpsi DhpsiParallel Fill.

(** An encoder: the batches it has still to put on [dmBus], those that workers hold, and
    [enc.points]. *)
Record encoding := Encoding {
  e_left : list dmBatch;
  e_held : list dmBatch;
  e_points : list (list Z)
}.

(** The readers, each with whether somebody still calls its [Read], and the encoders. *)
Record pool := Pool {
  p_readers : list (bool * fill_state);
  p_encoders : list encoding
}.

(** Workers at [batches <- m] or [left := <-lb] for a reader. *)
Definition held_by (s : fill_state) : nat := size (f_sending s) + f_waiting s.

Definition busy (p : pool) : nat :=
  sum_list_with (λ r, held_by r.2) (p_readers p) + sum_list_with (λ e, length (e_held e)) (p_encoders p).

Section Pool.
(** [parallelism], the group operations and [totalBatches] of each reader, and the group
    operations of each encoder. *)
Context (parallelism : nat) (readers : list (Ristretto * Z)) (encoders : list Ristretto).

Definition put_reader (p : pool) (i : nat) (r : bool * fill_state) : pool :=
  Pool (<[i := r]> (p_readers p)) (p_encoders p).
Definition put_encoder (p : pool) (i : nat) (e : encoding) : pool :=
  Pool (p_readers p) (<[i := e]> (p_encoders p)).

Inductive pool_step (p : pool) : res pool → Prop :=
| pool_reads i gr total consumed s o :
    readers !! i = Some (gr, total) → p_readers p !! i = Some (consumed, s) →
    fill_step (parallelism - (busy p - held_by s)) gr total s o →
    (consumed = false → ∀ s', o = Running s' → f_out s' = f_out s) →
    pool_step p
      match o with
      | Running s' => Ok (put_reader p i (consumed, s'))
      | Crashed m => Panic m
      end
| pool_takes i b left_ held points :
    p_encoders p !! i = Some (Encoding (b :: left_) held points) → (busy p < parallelism)%nat →
    pool_step p (Ok (put_encoder p i (Encoding left_ (b :: held) points)))
| pool_finishes i gr b held1 held2 left_ points :
    encoders !! i = Some gr → p_encoders p !! i = Some (Encoding left_ (held1 ++ b :: held2) points) →
    pool_step p
      (let b := parallelH_dm gr b in
       let! points := copy_points points (dm_seq b) (dm_points b) in
       Ok (put_encoder p i (Encoding left_ (held1 ++ held2) points))).

Definition pool_next (p p' : pool) : Prop := pool_step p (Ok p').
End Pool.

(** ** The jobs of a process *)

(** A reader on a connection that delivers [mt_pts].  [multiply_ok] is a hypothesis of
    the theorems, not a check of the code: the connection delivers all the points that
    were announced, at least one, cut only between points and without an error.  A read
    error makes a worker panic, see [Fill]. *)
Record multiply_task := { mt_gr : Ristretto; mt_pts : list (list Z); mt_src : source }.

Definition multiply_ok (t : multiply_task) : Prop :=
  aligned (mt_src t) ∧ points_ok (mt_pts t) ∧ pending (mt_src t) = concat (mt_pts t) ∧ mt_pts t ≠ [].

Definition mt_total (t : multiply_task) : Z := totalBatches (Z.of_nat (length (mt_pts t))).
Definition mt_init (t : multiply_task) : fill_state :=
  fill_init (mt_total t) {| rd_r := mt_src t; rd_seq := 0; rd_max := Z.of_nat (length (mt_pts t)) |}.

(** An encoder that has been given all of [et_ids], as many as it announced. *)
Record encode_task := { et_ids : list (list Z); et_enc : DeriveMultiplyParallelShuffler }.

Definition encode_ok (t : encode_task) : Prop :=
  buffering (et_ids t) (Z.of_nat (length (et_ids t))) (et_enc t).

Definition et_init (t : encode_task) : encoding :=
  Encoding (pe_bus (et_enc t)) [] (pe_points (et_enc t)).

Definition pool_init (ms : list multiply_task) (es : list encode_task) : pool :=
  Pool ((λ t, (true, mt_init t)) <$> ms) (et_init <$> es).

Definition process_step (parallelism : nat) (ms : list multiply_task) (es : list encode_task)
    : pool → res pool → Prop :=
  pool_step parallelism ((λ t, (mt_gr t, mt_total t)) <$> ms) ((λ t, pe_gr (et_enc t)) <$> es).
Definition process_next (parallelism : nat) (ms : list multiply_task) (es : list encode_task)
    (p p' : pool) : Prop :=
  process_step parallelism ms es p (Ok p').

(** * Lemmas *)

Lemma run_batches_snoc gr points bs b :
  run_batches gr points (bs ++ [b]) =
    let! points := run_batches gr points bs in
    let b := parallelH_dm gr b in copy_points points (dm_seq b) (dm_points b).
Proof.
  revert points. induction bs as [|b0 bs IH]; intros points; cbn [app run_batches res_bind].
  - by destruct (copy_points _ _ _).
  - destruct (copy_points _ _ _) as [p1| |]; cbn [res_bind]; [apply IH|done..].
Qed.

(** The state of an encoder: some batches are done, in an order of the workers. *)
Definition encoder_inv (t : encode_task) (e : encoding) : Prop :=
  ∃ finished, pe_bus (et_enc t) ≡ₚ finished ++ e_held e ++ e_left e ∧
    run_batches (pe_gr (et_enc t)) (pe_points (et_enc t)) finished = Ok (e_points e).

Definition reader_inv (t : multiply_task) (r : bool * fill_state) : Prop :=
  fill_inv (mt_gr t) (mt_pts t) r.2.

Lemma et_init_inv t : encoder_inv t (et_init t).
Proof. exists []. by split. Qed.

Lemma mt_idle t : held_by (mt_init t) = 0%nat.
Proof. unfold held_by, mt_init, fill_init. cbn [f_sending f_waiting]. by rewrite map_size_empty. Qed.

Lemma mt_init_inv t : multiply_ok t → reader_inv t (true, mt_init t).
Proof.
  intros (Hal & Hok & Hp & Hne).
  by apply (fill_init_inv 1 (mt_gr t) (mt_pts t) (mt_src t) Hal Hok Hp Hne ltac:(lia)).
Qed.

(** The points a worker copies have their place. *)
Lemma encoder_finishes t held1 b held2 left_ points :
  encode_ok t → encoder_inv t (Encoding left_ (held1 ++ b :: held2) points) →
  ∃ points',
    copy_points points (dm_seq (parallelH_dm (pe_gr (et_enc t)) b))
      (dm_points (parallelH_dm (pe_gr (et_enc t)) b)) = Ok points' ∧
    encoder_inv t (Encoding left_ (held1 ++ held2) points').
Proof.
  intros Hok (fin & Hp & E). cbn [e_held e_left e_points] in *.
  assert (pe_bus (et_enc t) ≡ₚ (fin ++ [b]) ++ (held1 ++ held2) ++ left_) as Hp'
    by (rewrite Hp; solve_Permutation).
  destruct (run_batches_spec (pe_gr (et_enc t)) (et_ids t) (pe_points (et_enc t)) (fin ++ [b]))
    as (points' & E' & _ & _).
  { pose proof (bf_bus _ _ _ Hok) as Hb. rewrite Hp' in Hb. by apply Forall_app in Hb as [? _]. }
  { apply (bf_points _ _ _ Hok). }
  rewrite run_batches_snoc, E in E'. cbn [res_bind] in E'. exists points'. split; [done|].
  exists (fin ++ [b]). split; [done|]. by rewrite run_batches_snoc, E.
Qed.

Section Process.
Context (parallelism : nat) (ms : list multiply_task) (es : list encode_task).
Hypothesis ms_ok : Forall multiply_ok ms.
Hypothesis es_ok : Forall encode_ok es.

Definition process_inv (p : pool) : Prop :=
  Forall2 reader_inv ms (p_readers p) ∧ Forall2 encoder_inv es (p_encoders p).

Definition process_weight (p : pool) : nat :=
  sum_list_with (λ x, fill_measure (mt_pts x.1) x.2.2) (zip ms (p_readers p)) +
  sum_list_with (λ e, 2 * length (e_left e) + length (e_held e))%nat (p_encoders p).

Lemma process_init_inv : process_inv (pool_init ms es).
Proof.
  split; cbn [pool_init p_readers p_encoders]; apply Forall2_fmap_r, Forall_Forall2_diag.
  - eapply Forall_impl; [exact ms_ok|]. intros t Ht. by apply mt_init_inv.
  - eapply Forall_impl; [exact es_ok|]. intros t _. apply et_init_inv.
Qed.

(** A step of a reader, whoever holds the other workers. *)
Lemma reader_step t w r o :
  multiply_ok t → reader_inv t r → fill_step w (mt_gr t) (mt_total t) r.2 o →
  ∃ s', o = Running s' ∧ fill_inv (mt_gr t) (mt_pts t) s' ∧
    (fill_measure (mt_pts t) s' < fill_measure (mt_pts t) r.2)%nat.
Proof.
  intros (Hal & Hok & Hp & Hne) Hi Hs. apply (fill_step_more _ (S w)) in Hs; [|lia].
  destruct (fill_step_inv (S w) (mt_gr t) (mt_pts t) (mt_src t) Hok Hp Hne ltac:(lia) _ _ Hi Hs)
    as (s' & -> & Hi').
  exists s'. split; [done|]. split; [done|].
  by apply (fill_step_measure (S w) (mt_gr t) (mt_pts t) (mt_src t) Hok Hp Hne ltac:(lia)).
Qed.

Lemma zip_update (rs : list (bool * fill_state)) i t r :
  ms !! i = Some t → zip ms (<[i := r]> rs) = <[i := (t, r)]> (zip ms rs).
Proof. intros Ht. rewrite <-(list_insert_id ms i t) at 1 by done. by rewrite insert_zip_with. Qed.

(** No step is a panic; every step keeps the invariant and gets nearer to the end. *)
Lemma process_step_inv p o :
  process_inv p → process_step parallelism ms es p o →
  ∃ p', o = Ok p' ∧ process_inv p' ∧ (process_weight p' < process_weight p)%nat.
Proof.
  intros [Hr He] Hs. unfold process_step in Hs. destruct Hs as
    [i gr total consumed s o Hi Hp Hs _|i b left_ held points Hp _|i gr b held1 held2 left_ points Hi Hp].
  - apply list_lookup_fmap_Some in Hi as (t & [= -> ->] & Ht).
    destruct (Forall2_lookup_lr _ _ _ _ _ _ Hr Ht Hp) as [].
    pose proof (Forall_lookup_1 _ _ _ _ ms_ok Ht) as Hok.
    destruct (reader_step t _ (consumed, s) o Hok (Forall2_lookup_lr _ _ _ _ _ _ Hr Ht Hp) Hs)
      as (s' & -> & Hi' & Hm).
    eexists. split; [done|]. split; [split; [by eapply Forall2_update|done]|].
    unfold process_weight, put_reader. cbn [p_readers p_encoders]. rewrite (zip_update _ i t) by done.
    assert (zip ms (p_readers p) !! i = Some (t, (consumed, s))) as Hz
      by (rewrite lookup_zip_with, Ht; cbn; by rewrite Hp).
    pose proof (sum_insert (λ x : multiply_task * (bool * fill_state), fill_measure (mt_pts x.1) x.2.2)
      (zip ms (p_readers p)) i _ (t, (consumed, s')) Hz) as E. cbn [fst snd] in *. lia.
  - destruct (Forall2_lookup_r _ _ _ _ _ He Hp) as (t & Ht & fin & Hperm & E).
    eexists. split; [done|]. split.
    + split; [done|]. eapply Forall2_update; [done..|]. exists fin. split; [|done].
      cbn [e_held e_left] in *. rewrite Hperm. solve_Permutation.
    + unfold process_weight, put_encoder. cbn [p_readers p_encoders].
      pose proof (sum_insert (λ e, 2 * length (e_left e) + length (e_held e))%nat (p_encoders p) i _
        (Encoding left_ (b :: held) points) Hp) as S. cbn [e_left e_held length] in S. lia.
  - apply list_lookup_fmap_Some in Hi as (t & -> & Ht).
    pose proof (Forall2_lookup_lr _ _ _ _ _ _ He Ht Hp) as Hinv.
    destruct (encoder_finishes t held1 b held2 left_ points (Forall_lookup_1 _ _ _ _ es_ok Ht) Hinv)
      as (points' & E & Hinv'). cbv zeta. rewrite E. cbn [res_bind].
    eexists. split; [done|]. split; [split; [done|by eapply Forall2_update]|].
    unfold process_weight, put_encoder. cbn [p_readers p_encoders].
    pose proof (sum_insert (λ e, 2 * length (e_left e) + length (e_held e))%nat (p_encoders p) i _
      (Encoding left_ (held1 ++ held2) points') Hp) as S. cbn [e_left e_held] in S.
    rewrite !length_app in *. cbn [length] in S. lia.
Qed.

Lemma process_run_inv p :
  rtc (process_next parallelism ms es) (pool_init ms es) p → process_inv p.
Proof.
  intros Hs. pose proof process_init_inv as Hi. induction Hs as [p|p1 p2 p3 Hs _ IH]; [done|].
  apply IH. by destruct (process_step_inv p1 _ Hi Hs) as (p' & [= <-] & Hi' & _).
Qed.

Lemma process_sn p : process_inv p → sn (process_next parallelism ms es) p.
Proof.
  remember (process_weight p) as w eqn:E. revert p E.
  induction w as [w IH] using lt_wf_ind. intros p -> Hi. constructor. intros p' Hs.
  destruct (process_step_inv p _ Hi Hs) as (p2 & [= <-] & Hi' & Hw). by eapply IH.
Qed.

(** Who calls [Read] does not change. *)
Lemma process_step_readers p p' :
  process_next parallelism ms es p p' → (p_readers p').*1 = (p_readers p).*1.
Proof.
  unfold process_next, process_step. intros Hs. remember (Ok p') as o eqn:E.
  destruct Hs as [i gr total consumed s o Hi Hp Hs _|i b left_ held points Hp _|i gr b held1 held2 left_ points Hi Hp].
  - destruct o as [s'|m]; [|done]. injection E as <-. cbn [put_reader p_readers].
    rewrite list_fmap_insert. cbn [fst]. apply list_insert_id. by rewrite list_lookup_fmap, Hp.
  - by injection E as <-.
  - cbv zeta in E. destruct (copy_points _ _ _); cbn [res_bind] in E; by simplify_eq.
Qed.

(** ** Progress *)
Lemma reader_moves p i t s :
  ms !! i = Some t → p_readers p !! i = Some (true, s) → reader_inv t (true, s) →
  f_ordering s ≠ Exited → (held_by s = 0 → busy p < parallelism)%nat →
  red (process_next parallelism ms es) p.
Proof.
  intros Ht Hp Hi Hne Hfree. pose proof (Forall_lookup_1 _ _ _ _ ms_ok Ht) as Hok.
  pose proof Hok as (Hal & Hok' & Hpe & Hnn).
  destruct (fill_progress 1 (mt_gr t) (mt_pts t) (mt_src t) Hok' Hpe Hnn ltac:(lia) s Hi Hne
    (parallelism - (busy p - held_by s))) as [o Ho].
  { fold (held_by s). intros E. specialize (Hfree E). lia. }
  destruct (reader_step t _ (true, s) o Hok Hi Ho) as (s' & -> & _).
  exists (put_reader p i (true, s')). unfold process_next, process_step.
  eapply (pool_reads _ _ _ p i (mt_gr t) (mt_total t) true s (Running s')); [|done|done|done].
  by rewrite list_lookup_fmap, Ht.
Qed.

Lemma exited_idle t s : multiply_ok t → fill_inv (mt_gr t) (mt_pts t) s → f_ordering s = Exited → held_by s = 0%nat.
Proof.
  intros Hok Hi He. pose proof (fi_ordered _ _ _ Hi) as Ho. unfold ordered in Ho. rewrite He in Ho.
  destruct (closed_all 1 (mt_gr t) (mt_pts t) ltac:(lia) s Hi (proj1 Ho)) as (Hs & Hw & _).
  unfold held_by. by rewrite Hs, Hw, map_size_empty.
Qed.

Lemma process_consumed p :
  rtc (process_next parallelism ms es) (pool_init ms es) p → Forall (λ r, r.1 = true) (p_readers p).
Proof.
  intros Hs. assert ((p_readers p).*1 = (p_readers (pool_init ms es)).*1) as E.
  { induction Hs as [p|p1 p2 p3 Hs _ IH]; [done|]. rewrite IH. by apply process_step_readers. }
  cbn [pool_init p_readers] in E. rewrite <-list_fmap_compose in E. apply Forall_forall. intros r Hr.
  assert (r.1 ∈ (p_readers p).*1) as Hin by (apply list_elem_of_fmap; by exists r).
  rewrite E in Hin. by apply list_elem_of_fmap in Hin as (t & -> & _).
Qed.

(** A state where nothing moves. *)
Section Stuck.
Context (p : pool).
Hypothesis parallelism_pos : (0 < parallelism)%nat.
Hypothesis stuck : nf (process_next parallelism ms es) p.
Hypothesis inv : process_inv p.
Hypothesis consumed : Forall (λ r, r.1 = true) (p_readers p).

Lemma stuck_held i e : p_encoders p !! i = Some e → e_held e = [].
Proof.
  intros Hp. destruct e as [left_ held points]. destruct held as [|b held]; [done|]. exfalso. apply stuck.
  destruct (Forall2_lookup_r _ _ _ _ _ (proj2 inv) Hp) as (t & Ht & Hinv).
  destruct (encoder_finishes t [] b held left_ points (Forall_lookup_1 _ _ _ _ es_ok Ht) Hinv)
    as (points' & E & _). cbn [app] in E.
  exists (put_encoder p i (Encoding left_ held points')).
  pose proof (pool_finishes parallelism ((λ t, (mt_gr t, mt_total t)) <$> ms)
    ((λ t, pe_gr (et_enc t)) <$> es) p i (pe_gr (et_enc t)) b [] held left_ points) as Hs.
  cbv zeta in Hs. rewrite E in Hs. apply Hs; [|done]. by rewrite list_lookup_fmap, Ht.
Qed.

Lemma stuck_exited i r : p_readers p !! i = Some r → (held_by r.2 = 0 → busy p < parallelism)%nat →
  f_ordering r.2 = Exited.
Proof.
  destruct r as [c s]. intros Hp Hfree. destruct (Forall2_lookup_r _ _ _ _ _ (proj1 inv) Hp) as (t & Ht & Hinv).
  pose proof (Forall_lookup_1 _ _ _ _ consumed Hp) as Hc. cbn [fst snd] in *. subst c.
  destruct (f_ordering s) eqn:Eo; try done; exfalso; apply stuck;
    (eapply (reader_moves p i t s); [done..|by rewrite Eo|done]).
Qed.

Lemma stuck_idle i r : p_readers p !! i = Some r → held_by r.2 = 0%nat.
Proof.
  intros Hp. destruct (Forall2_lookup_r _ _ _ _ _ (proj1 inv) Hp) as (t & Ht & Hinv).
  destruct (decide (held_by r.2 = 0%nat)) as [?|Hne]; [done|].
  apply (exited_idle t); [by eapply Forall_lookup_1|done|]. by apply (stuck_exited i).
Qed.

Lemma stuck_free : busy p = 0%nat.
Proof.
  unfold busy. destruct (decide (0 < sum_list_with (λ r, held_by r.2) (p_readers p))%nat) as [H0|H0].
  { apply sum_pos in H0 as (k & r & Hk & Hr0). rewrite (stuck_idle k r Hk) in Hr0. lia. }
  destruct (decide (0 < sum_list_with (λ e, length (e_held e)) (p_encoders p))%nat) as [H1|H1]; [|lia].
  apply sum_pos in H1 as (k & e & Hk & Hr1). rewrite (stuck_held k e Hk) in Hr1. cbn [length] in Hr1. lia.
Qed.

(** Everything has been done. *)
Lemma stuck_readers :
  Forall2 (λ t r, f_ordering r.2 = Exited ∧ f_out r.2 = Multiply (mt_gr t) <$> mt_pts t) ms (p_readers p).
Proof.
  apply Forall2_same_length_lookup. split; [eapply Forall2_length, inv|]. intros i t r Ht Hp.
  pose proof (Forall2_lookup_lr _ _ _ _ _ _ (proj1 inv) Ht Hp) as Hinv.
  pose proof (Forall_lookup_1 _ _ _ _ ms_ok Ht) as (_ & Hok & Hpe & Hnn).
  assert (f_ordering r.2 = Exited) as Hex by (apply (stuck_exited i); [done|rewrite stuck_free; lia]).
  split; [done|]. by apply (fill_out_prefix 1 (mt_gr t) (mt_pts t) (mt_src t) Hok Hpe Hnn ltac:(lia) r.2 Hinv).
Qed.

Lemma stuck_encoders :
  Forall2 (λ t e, e_left e = [] ∧ e_held e = [] ∧
    e_points e = DeriveMultiply (pe_gr (et_enc t)) <$> et_ids t) es (p_encoders p).
Proof.
  apply Forall2_same_length_lookup. split; [eapply Forall2_length, inv|]. intros i t e Ht Hp.
  pose proof (Forall2_lookup_lr _ _ _ _ _ _ (proj2 inv) Ht Hp) as (fin & Hperm & E).
  pose proof (stuck_held i e Hp) as Hh. destruct e as [left_ held points]. cbn [e_held e_left e_points] in *.
  subst held. assert (left_ = []) as ->.
  { destruct left_ as [|b left_]; [done|]. exfalso. apply stuck.
    exists (put_encoder p i (Encoding left_ [b] points)). apply pool_takes; [done|]. rewrite stuck_free. lia. }
  split; [done|]. split; [done|]. cbn [app] in Hperm. rewrite app_nil_r in Hperm.
  rewrite (run_batches_all _ (et_ids t) (et_enc t) fin) in E; [congruence| |done].
  exact (Forall_lookup_1 _ _ _ _ es_ok Ht).
Qed.
End Stuck.
End Process.

(** A reader that has just been started waits for a worker. *)
Lemma init_blocked t o :
  multiply_ok t → ¬ fill_step 0 (mt_gr t) (mt_total t) (mt_init t) o.
Proof.
  intros (Hal & Hok & Hp & Hne) Hs. pose proof (mt_init_inv t ltac:(done)) as Hi.
  pose proof (fi_reader _ _ _ Hi) as Hr. unfold mt_init, fill_init in Hr, Hs. cbn [f_next f_reader snd] in Hr.
  destruct (T_spec 1 (mt_pts t) (mt_src t) Hok Hp Hne ltac:(lia)) as (HT & HT0 & _).
  fold (mt_total t) in HT, HT0.
  destruct (read_batch 1 (mt_pts t) (mt_src t) Hok Hp Hne ltac:(lia) 0 _ Hr) as (r2 & E2 & _);
    [fold (mt_total t); lia|].
  pose proof (batch_size_nonneg 1 (mt_pts t) ltac:(lia) 0 _ Hr).
  inversion Hs; subst; try lia; try congruence; try (by rewrite lookup_empty in *).
  by repeat match goal with Hk : _ ∨ _ |- _ => destruct Hk as [->|Hk] | Hk : ∃ _, _ |- _ => destruct Hk as [? ->] end.
Qed.

(** ** A reader that nobody reads any more *)
Section Abandoned.
Context (parallelism : nat) (ms : list multiply_task) (es : list encode_task).
Context (i : nat) (t : multiply_task).
Hypothesis ms_ok : Forall multiply_ok ms.
Hypothesis Ht : ms !! i = Some t.
Hypothesis long : (512 * parallelism < length (mt_pts t))%nat.
Hypothesis parallelism_pos : (0 < parallelism)%nat.

Definition reader_next (s s' : fill_state) : Prop :=
  fill_step parallelism (mt_gr t) (mt_total t) s (Running s').

Definition alone (c : bool) (s : fill_state) : pool := put_reader (pool_init ms es) i (c, s).

Lemma t_ok : multiply_ok t.
Proof. exact (Forall_lookup_1 _ _ _ _ ms_ok Ht). Qed.

Lemma t_total : mt_total t = Z.of_nat (Z.to_nat (mt_total t)) ∧ (parallelism < Z.to_nat (mt_total t))%nat.
Proof.
  destruct t_ok as (_ & Hok & Hp & Hne).
  destruct (T_spec 1 (mt_pts t) (mt_src t) Hok Hp Hne ltac:(lia)) as (E & _ & Hle & _).
  unfold mt_total. split; [done|lia].
Qed.

Lemma init_lookup c s : p_readers (alone c s) !! i = Some (c, s).
Proof.
  unfold alone, put_reader. cbn. apply list_lookup_insert_eq. rewrite length_fmap.
  by eapply lookup_lt_Some.
Qed.

(** The others hold no worker. *)
Lemma busy_alone c s : busy (alone c s) = held_by s.
Proof.
  unfold busy, alone, put_reader. cbn [p_readers p_encoders pool_init].
  assert (∀ l : list encode_task, sum_list_with (λ e, length (e_held e)) (et_init <$> l) = 0%nat) as ->.
  { intros l. induction l as [|e l IH]; [done|]. cbn. exact IH. }
  assert (∀ l : list multiply_task, sum_list_with (λ r, held_by r.2) ((λ t, (true, mt_init t)) <$> l) = 0%nat) as H0.
  { intros l. induction l as [|e l IH]; [done|]. cbn [fmap list_fmap sum_list_with snd]. by rewrite mt_idle. }
  pose proof (sum_insert (λ r : bool * fill_state, held_by r.2) ((λ t, (true, mt_init t)) <$> ms) i
    (true, mt_init t) (c, s)) as E. rewrite list_lookup_fmap, Ht in E. specialize (E eq_refl).
  rewrite H0 in E. cbn [snd] in E. rewrite mt_idle in E. lia.
Qed.

(** A run of the reader is a run of the process. *)
Lemma alone_run s s' :
  rtc reader_next s s' → rtc (process_next parallelism ms es) (alone true s) (alone true s').
Proof.
  induction 1 as [s|s1 s2 s3 Hs _ IH]; [done|]. eapply rtc_l; [|exact IH].
  unfold process_next, process_step.
  replace (alone true s2) with (put_reader (alone true s1) i (true, s2))
    by (unfold alone, put_reader; cbn; by rewrite list_insert_insert_eq).
  eapply (pool_reads _ _ _ (alone true s1) i (mt_gr t) (mt_total t) true s1 (Running s2)).
  - by rewrite list_lookup_fmap, Ht.
  - apply init_lookup.
  - rewrite busy_alone, Nat.sub_diag, Nat.sub_0_r. exact Hs.
  - done.
Qed.

(** The reader with [k] workers at [batches <- m], while the ordering goroutine is in the
    middle of the first batch. *)
Record holding (k : nat) (s : fill_state) : Prop := {
  h_inv : fill_inv (mt_gr t) (mt_pts t) s;
  h_sending : size (f_sending s) = k;
  h_waiting : f_waiting s = 0%nat;
  h_ordering : ∃ pt todo, f_ordering s = CopyBatch (pt :: todo);
  h_out : length (f_out s) = 1%nat
}.

Lemma reader_next_inv s s' :
  rtc reader_next s s' → fill_inv (mt_gr t) (mt_pts t) s → fill_inv (mt_gr t) (mt_pts t) s'.
Proof.
  induction 1 as [s|s1 s2 s3 Hs _ IH]; [done|]. intros Hi. apply IH.
  destruct (reader_step t _ (true, s1) _ t_ok Hi Hs) as (s' & [= <-] & Hi' & _). done.
Qed.

Ltac fields := cbn [f_reader f_next f_reading f_sending f_waiting f_lb f_batches_closed f_closed
  f_ring f_sent f_out f_ordering] in *.

(** The first batch goes to the ordering goroutine and one of its points to the caller. *)
Lemma holding_none : ∃ s, rtc reader_next (mt_init t) s ∧ holding 0 s ∧ f_next s = 1%nat ∧ f_reading s = true.
Proof.
  pose proof t_ok as (Hal & Hok & Hp & Hne). pose proof t_total as [HT HT2].
  pose proof (mt_init_inv t t_ok) as Hinit. unfold reader_inv in Hinit. cbn [snd] in Hinit.
  pose proof (fi_reader _ _ _ Hinit) as Hr. unfold mt_init, fill_init in Hr. fields.
  destruct (read_batch 1 (mt_pts t) (mt_src t) Hok Hp Hne ltac:(lia) 0 _ Hr) as (r' & E & _);
    [fold (mt_total t); lia|]. rewrite Nat.mul_0_r, drop_0 in E.
  assert (∃ p1 p2 todo, parallelH_m (mt_gr t) (take 512 (mt_pts t)) = p1 :: p2 :: todo) as (p1 & p2 & todo & Ech).
  { unfold parallelH_m. destruct (mt_pts t) as [|x [|y l]]; cbn [length] in long; [lia..|]. cbn. eauto. }
  set (left_ := mt_total t - 1).
  set (s := mk_fill r' 1 true ∅ 0 (if left_ - 1 =? 0 then None else Some (left_ - 1)) false false ∅ 0 [p1]
    (CopyBatch (p2 :: todo))).
  assert (rtc reader_next (mt_init t) s) as Hrun.
  { eapply rtc_l.
    { apply step_submit with (pts := take 512 (mt_pts t)) (r' := r');
        [lia|by apply (batch_size_nonneg 1 (mt_pts t) ltac:(lia) 0)|rewrite map_size_empty; lia|exact E]. }
    eapply rtc_l; [apply (step_deliver _ _ _ _ _ _ _ _ _ _ _ _ _ 0 (p1 :: p2 :: todo));
      rewrite lookup_insert_eq; by rewrite Ech|].
    rewrite !bool_decide_true by done. rewrite delete_insert_id by done.
    pose proof (step_count parallelism (mt_gr t) (mt_total t) r' 1 true ∅ 0 left_ false false ∅ 0 []
      (CopyBatch (p1 :: p2 :: todo))) as Hc.
    destruct (Z.eqb_spec left_ 0); [lia|]. eapply rtc_l; [exact Hc|]. apply rtc_once.
    exact (step_copy parallelism (mt_gr t) (mt_total t) r' 1 true ∅ 0 _ false false ∅ 0 [] p1 (p2 :: todo)
      CopyBatch (or_introl eq_refl)). }
  exists s. split; [exact Hrun|]. split; [|done].
  split; unfold s; fields; [by eapply reader_next_inv|by rewrite map_size_empty|done|eauto|done].
Qed.

(** One worker after the other takes a batch and keeps it. *)
Lemma holding_all k : (k ≤ parallelism)%nat →
  ∃ s, rtc reader_next (mt_init t) s ∧ holding k s ∧ f_next s = S k ∧ f_reading s = true.
Proof.
  pose proof t_ok as (Hal & Hok & Hp & Hne). pose proof t_total as [HT HT2].
  induction k as [|k IH]; intros Hk; [apply holding_none|].
  destruct IH as (s & Hrun & [Hi Hs Hw (pt & todo & Ho) Hout] & Hn & Hrd); [lia|].
  destruct s as [r j rd sending waiting lb bc cc ring sent out o]. fields. subst waiting j rd o.
  pose proof (fi_reader _ _ _ Hi) as Hr. fields.
  destruct (read_batch 1 (mt_pts t) (mt_src t) Hok Hp Hne ltac:(lia) (S k) r Hr) as (r' & E & _);
    [fold (mt_total t); lia|]. set (pts := take 512 _) in E.
  set (s' := mk_fill r' (S (S k)) true (<[S k := parallelH_m (mt_gr t) pts]> sending) 0 lb bc cc ring sent
    out (CopyBatch (pt :: todo))).
  assert (rtc reader_next (mt_init t) s') as Hrun'.
  { eapply rtc_r; [exact Hrun|].
    apply step_submit with (pts := pts) (r' := r'); [lia|by apply (batch_size_nonneg 1 (mt_pts t) ltac:(lia) (S k))|lia|exact E]. }
  exists s'. split; [exact Hrun'|]. split; [|done]. split; unfold s'; fields; [|..|done|eauto|done].
  - eapply reader_next_inv; [exact Hrun'|]. exact (mt_init_inv t t_ok).
  - rewrite map_size_insert_None; [by rewrite Hs|].
    destruct (sending !! S k) as [b|] eqn:Eb; [|done]. exfalso.
    destruct (fi_sending _ _ _ Hi (S k) b Eb) as (_ & Hlt & _). fields. lia.
Qed.

(** Nothing else moves then. *)
Lemma holding_stuck s o :
  holding parallelism s → fill_step parallelism (mt_gr t) (mt_total t) s o →
  (∀ s', o = Running s' → f_out s' = f_out s) → ∃ s', o = Running s' ∧ holding parallelism s'.
Proof.
  pose proof t_ok as (Hal & Hok & Hp & Hne).
  intros [Hi Hs Hw (pt & todo & Ho) Hout] Hstep Hquiet.
  destruct (reader_step t _ (true, s) o t_ok Hi Hstep) as (s' & -> & Hi' & _). exists s'. split; [done|].
  specialize (Hquiet s' eq_refl). cbn [snd] in Hstep.
  assert (f_batches_closed s = false) as Hbc.
  { destruct (f_batches_closed s) eqn:Eb; [|done].
    destruct (closed_all 1 (mt_gr t) (mt_pts t) ltac:(lia) s Hi Eb) as (E & _). rewrite E, map_size_empty in Hs. lia. }
  pose proof (fi_closed _ _ _ Hi) as Hcl.
  inversion Hstep; subst; fields; try discriminate; try lia.
  - exfalso. pose proof (fi_reader _ _ _ Hi) as Hr. fields.
    match type of Hr with reader_at _ ?j _ =>
      destruct (read_batch 1 (mt_pts t) (mt_src t) Hok Hp Hne ltac:(lia) j _ Hr) as (r2 & E2 & _) end;
      [fold (mt_total t); lia|]. congruence.
  - split; fields; [done|done|done|by exists pt, todo|done].
  - exfalso. apply (f_equal length) in Hquiet. rewrite length_app in Hquiet. cbn [length] in Hquiet. lia.
Qed.

(** The process whose reader [i] is abandoned in that state: only that reader can move,
    and it never gives a worker back. *)
Lemma pool_abandoned_next s o :
  holding parallelism s → process_step parallelism ms es (alone false s) o →
  ∃ s', o = Ok (alone false s') ∧ holding parallelism s' ∧ f_out s' = f_out s.
Proof.
  intros Hh Hs. assert (busy (alone false s) = parallelism) as Hb.
  { rewrite busy_alone. destruct Hh as [_ Hs' Hw _ _]. unfold held_by. lia. }
  unfold process_step in Hs.
  destruct Hs as [j gr total consumed s1 o Hj Hp Hstep Hq|j b left_ held points Hp Hfree|j gr b h1 h2 left_ points _ Hp].
  - destruct (decide (j = i)) as [->|Hne].
    + rewrite init_lookup in Hp. injection Hp as <- <-. rewrite list_lookup_fmap, Ht in Hj.
      injection Hj as <- <-. apply (fill_step_more _ parallelism) in Hstep; [|lia].
      destruct (holding_stuck s o Hh Hstep (Hq eq_refl)) as (s' & -> & Hh').
      exists s'. split; [|split; [done|by apply Hq]]. unfold alone, put_reader. cbn. by rewrite list_insert_insert_eq.
    + exfalso. unfold alone, put_reader in Hp. cbn [p_readers pool_init] in Hp.
      rewrite list_lookup_insert_ne in Hp by done.
      apply list_lookup_fmap_Some in Hp as (t' & [= -> ->] & Ht').
      rewrite list_lookup_fmap, Ht' in Hj. injection Hj as <- <-.
      replace (parallelism - (busy (alone false s) - held_by (mt_init t')))%nat with 0%nat in Hstep
        by (rewrite mt_idle; lia).
      by eapply init_blocked; [exact (Forall_lookup_1 _ _ _ _ ms_ok Ht')|].
  - lia.
  - exfalso. unfold alone, put_reader in Hp. cbn [p_encoders pool_init] in Hp.
    apply list_lookup_fmap_Some in Hp as (t' & E & _). injection E as _ E _. by destruct h1.
Qed.
End Abandoned.

(** ** Properties *)

(** C18: any number of readers and encoders of one process share a pool of any positive
    size.  When the connection of every reader delivers all its announced points, at
    least one, cut only between points and without an error, when the callers go on
    reading, and when every encoder was given all its identifiers: in every interleaving
    nothing panics, every run ends, and when nothing can move any more every reader has
    delivered all its multiplied points in order, and every encoder has all the points of
    its identifiers in their places: its batches were finished in some order, as
    [par_Shuffle] has it.  (A reader whose caller stops reading can hold all the workers
    for good, and a read error can crash the process: other theorems.) *)
Theorem pool_shared parallelism ms es p :
  (0 < parallelism)%nat → Forall multiply_ok ms → Forall encode_ok es →
  rtc (process_next parallelism ms es) (pool_init ms es) p →
  (∀ o, process_step parallelism ms es p o → ∃ p', o = Ok p') ∧
  sn (process_next parallelism ms es) p ∧
  (nf (process_next parallelism ms es) p →
    Forall2 (λ t r, f_ordering r.2 = Exited ∧ f_out r.2 = Multiply (mt_gr t) <$> mt_pts t)
      ms (p_readers p) ∧
    Forall2 (λ t e, e_left e = [] ∧ e_held e = [] ∧
      e_points e = DeriveMultiply (pe_gr (et_enc t)) <$> et_ids t) es (p_encoders p)).
Proof.
  intros Hpos Hms Hes Hrun. pose proof (process_run_inv parallelism ms es Hms Hes p Hrun) as Hi.
  split_and!.
  - intros o Hs. destruct (process_step_inv parallelism ms es Hms Hes p o Hi Hs) as (p' & -> & _). by exists p'.
  - by apply process_sn.
  - intros Hnf. pose proof (process_consumed parallelism ms es p Hrun) as Hc.
    split; [by apply (stuck_readers parallelism ms es)|by apply (stuck_encoders parallelism ms es)].
Qed.

(** One worker, a reader of two points and an encoder of one identifier. *)
Definition sample_task : multiply_task :=
  {| mt_gr := @R255 toy_R255 3; mt_pts := [replicate 32 1; replicate 32 2];
     mt_src := {| chunks := [replicate 32 1 ++ replicate 32 2]; final := EOF |} |}.

Lemma sample_task_ok : multiply_ok sample_task.
Proof. split_and!; [repeat constructor; by exists 2%nat|by repeat constructor|done|done]. Qed.

Lemma sample_encoder : ∃ enc, encode_ok {| et_ids := [[1]]; et_enc := enc |}.
Proof.
  destruct (new_buffering (λ _, Some 1) new_sink 1 (@R255 toy_R255 5) 1 [[1]])
    as (enc & _ & _ & _ & _ & _ & _ & Hb); [done|done|lia|done|].
  destruct (par_buffer_spec [[1]] 0 [1] enc) as (enc' & _ & _ & Hb'); [cbn; lia|done|done|].
  by exists enc'.
Qed.

Lemma pool_shared_witness :
  ∃ te, encode_ok te ∧ multiply_ok sample_task ∧
    sn (process_next 1 [sample_task] [te]) (pool_init [sample_task] [te]).
Proof.
  destruct sample_encoder as [enc He]. eexists. split; [exact He|]. split; [exact sample_task_ok|].
  exact (proj1 (proj2 (pool_shared 1 [sample_task] [{| et_ids := [[1]]; et_enc := enc |}]
    (pool_init [sample_task] [{| et_ids := [[1]]; et_enc := enc |}]) ltac:(lia)
    ltac:(constructor; [exact sample_task_ok|constructor]) ltac:(constructor; [exact He|constructor])
    (rtc_refl _ _)))).
Defined.

(** C33: a reader whose caller stops reading, as the sender does when a [Write] of its
    second stage fails, can take the whole pool with it: with more batches than workers
    there is a run, in which the caller has received one point, after which every worker
    holds a batch of that reader, and from the moment the caller stops no other reader or
    encoder of the process makes a step any more. *)
Theorem pool_abandoned parallelism ms es i t :
  (0 < parallelism)%nat → Forall multiply_ok ms → ms !! i = Some t →
  (512 * parallelism < length (mt_pts t))%nat →
  ∃ s, rtc (process_next parallelism ms es) (pool_init ms es) (put_reader (pool_init ms es) i (true, s)) ∧
    length (f_out s) = 1%nat ∧
    ∀ q, rtc (process_next parallelism ms es) (put_reader (pool_init ms es) i (false, s)) q →
      busy q = parallelism ∧
      ∃ s', q = put_reader (pool_init ms es) i (false, s') ∧ f_out s' = f_out s.
Proof.
  intros Hpos Hms Ht Hlong.
  destruct (holding_all parallelism ms i t Hms Ht Hlong Hpos parallelism ltac:(lia)) as (s & Hrun & Hh & _).
  exists s. split; [|split; [apply (h_out _ _ _ Hh)|]].
  - replace (pool_init ms es) with (alone ms es i true (mt_init t)) at 1; [by apply (alone_run parallelism ms es i t Ht)|].
    unfold alone, put_reader. rewrite list_insert_id; [done|]. cbn. by rewrite list_lookup_fmap, Ht.
  - intros q Hq. remember (put_reader (pool_init ms es) i (false, s)) as p eqn:Ep.
    assert (∃ s', p = alone ms es i false s' ∧ holding t parallelism s' ∧ f_out s' = f_out s) as Hp
      by by exists s.
    clear Ep Hrun. induction Hq as [p|p1 p2 p3 Hs _ IH].
    + destruct Hp as (s' & -> & Hh' & Eo). split; [|by exists s'].
      rewrite (busy_alone parallelism ms es i t Ht Hlong Hpos). unfold held_by. destruct Hh' as [_ -> -> _ _]. lia.
    + apply IH. destruct Hp as (s' & -> & Hh' & Eo).
      destruct (pool_abandoned_next parallelism ms es i t Hms Ht Hlong Hpos s' _ Hh' Hs) as (s2 & [= ->] & Hh2 & Eo2).
      exists s2. by rewrite Eo2.
Qed.

Lemma pool_abandoned_witness :
  let t := {| mt_gr := @R255 toy_R255 3; mt_pts := replicate 600 (replicate 32 1);
              mt_src := {| chunks := [concat (replicate 600 (replicate 32 1))]; final := EOF |} |} in
  ∃ te s q, encode_ok te ∧ busy q = 1%nat ∧
    rtc (process_next 1 [t] [te]) (put_reader (pool_init [t] [te]) 0 (false, s)) q.
Proof.
  intros t. destruct sample_encoder as [enc He].
  assert (multiply_ok t) as Ht.
  { split_and!; [|by apply (bool_decide_unpack _); vm_compute|unfold t, pending; cbn [chunks concat mt_src mt_pts]; by rewrite app_nil_r|done].
    repeat constructor. exists 600%nat. split; [by vm_compute|done]. }
  destruct (pool_abandoned 1 [t] [{| et_ids := [[1]]; et_enc := enc |}] 0 t ltac:(lia)
    ltac:(constructor; [exact Ht|constructor]) eq_refl ltac:(cbn [mt_pts t]; rewrite length_replicate; lia))
    as (s & _ & _ & Hall).
  eexists _, s, _. split; [exact He|]. split; [exact (proj1 (Hall _ (rtc_refl _ _)))|]. apply rtc_refl.
Defined.
