(* ===== verification/DhpsiProtocol.v ===== *)
(** * [pkg/dhpsi]: sender.go and receiver.go

    The stages of the two parties and what the receiver learns.  The parties are
    joined by connections: what one writes, the other's reader delivers. *)
From S2P Require Import Prelude Words Permutations IO Framing Dhpsi DhpsiParallel Fill.

(** ** The parallel reader as the stages see it *)

(** [NewMultiplyParallelReader]: its goroutines have delivered [mr_bus], which is
    all they ever do or all that is asked. *)
Definition NewMultiplyParallelReader `{R255Lib} (workers : nat) (gr : Ristretto) (r : source)
    (dec : MultiplyParallelReader) : Prop :=
  ∃ rd s, NewReader r = Ok rd ∧ mr_max dec = rd_max rd ∧ mr_seq dec = 0 ∧
    fill_reach workers gr (totalBatches (rd_max rd)) (fill_init (totalBatches (rd_max rd)) rd) (Running s) ∧
    mr_bus dec = f_out s ∧
    (f_ordering s = Exited ∨ Z.of_nat (length (f_out s)) = rd_max rd).

(** ** Sender *)

(** [stage1]: [for identifier := range identifiers { writer.Shuffle(identifier) }]. *)
Definition sender_stage1 (draw : nat → option Z) (sched : list dmBatch → list dmBatch)
    (w : sink) (n : Z) (gr : Ristretto) (identifiers : list (list Z))
    : option (res (option error * sink)) :=
  match NewDeriveMultiplyParallelShuffler draw w n gr with
  | Ok writer =>
      r ← par_shuffle_all sched writer identifiers;
      Some (let! ' (e, writer) := r in Ok (e, pe_w writer))
  | Err e => Some (Err e)
  | Panic m => Some (Panic m)
  end.

(** The loop of [stage2]; an [io.EOF] of the reader is let through. *)
Fixpoint stage2_loop (n : nat) (dec : MultiplyParallelReader) (writer : Writer)
    : option error * Writer :=
  match n with
  | O => (None, writer)
  | S n =>
      let '(err, p, dec) := mr_Read dec in
      match err with
      | Some e =>
          if bool_decide (e = EOF) then
            match Writer_Write writer zero_point with
            | (Some e, writer) => (Some e, writer)
            | (None, writer) => stage2_loop n dec writer
            end
          else (Some e, writer)
      | None =>
          match Writer_Write writer p with
          | (Some e, writer) => (Some e, writer)
          | (None, writer) => stage2_loop n dec writer
          end
      end
  end.

Definition sender_stage2 (dec : MultiplyParallelReader) (w : sink) : res (option error * sink) :=
  let! writer := NewWriter w (mr_max dec) in
  let '(e, writer) := stage2_loop (Z.to_nat (mr_max dec)) dec writer in
  Ok (e, wr_w writer).

(** ** Receiver *)

(** [stage1]: index the points until [io.EOF]. *)
Fixpoint index_remote (n : nat) (dec : MultiplyParallelReader) (remoteIDs : gset (list Z))
    : option error * gset (list Z) :=
  match n with
  | O => (None, remoteIDs)
  | S n =>
      let '(err, p, dec) := mr_Read dec in
      match err with
      | Some e => (if bool_decide (e = EOF) then None else Some e, remoteIDs)
      | None => index_remote n dec ({[p]} ∪ remoteIDs)
      end
  end.

Definition receiver_stage1 (dec : MultiplyParallelReader) : option error * gset (list Z) :=
  index_remote (S (Z.to_nat (mr_max dec))) dec ∅.

(** [stage2.1]: each identifier is stored at its position by the main goroutine
    before the encoder takes it. *)
Fixpoint stage21_loop (sched : list dmBatch → list dmBatch)
    (writer : DeriveMultiplyParallelShuffler) (localIDs : list (list Z)) (i : Z)
    (identifiers : list (list Z))
    : option (res (option error * DeriveMultiplyParallelShuffler * list (list Z))) :=
  match identifiers with
  | [] => Some (Ok (None, writer, localIDs))
  | identifier :: identifiers =>
      match store localIDs i identifier with
      | Ok localIDs =>
          r ← par_Shuffle sched writer identifier;
          match r with
          | Ok (None, writer) => stage21_loop sched writer localIDs (i + 1) identifiers
          | Ok (Some e, writer) => Some (Ok (Some e, writer, localIDs))
          | Err e => Some (Err e)
          | Panic m => Some (Panic m)
          end
      | Err e => Some (Err e)
      | Panic m => Some (Panic m)
      end
  end.

(** The error, the writer's stream, the permutation and [localIDs]. *)
Definition receiver_stage21 (draw : nat → option Z) (sched : list dmBatch → list dmBatch)
    (w : sink) (n : Z) (gr : Ristretto) (identifiers : list (list Z))
    : option (res (option error * sink * Permutations * list (list Z))) :=
  match NewDeriveMultiplyParallelShuffler draw w n gr with
  | Ok writer =>
      r ← stage21_loop sched writer (replicate (Z.to_nat n) []) 0 identifiers;
      Some (let! ' (e, writer', localIDs) := r in Ok (e, pe_w writer', pe_p writer, localIDs))
  | Err e => Some (Err e)
  | Panic m => Some (Panic m)
  end.

(** The loop of [stage2.2], with [localIDs[permutations.Shuffle(pos)]] appended
    for each match. *)
Fixpoint stage22_loop (p : Permutations) (localIDs : list (list Z)) (n : nat) (i : Z) (reader : Reader)
    (remoteIDs : gset (list Z)) (intersection : list (list Z))
    : option (res (option error * list (list Z))) :=
  match n with
  | O => Some (Ok (None, intersection))
  | S n =>
      match Reader_Read reader zero_point with
      | (Some e, _, _) => Some (Ok (Some (ErrMsg "stage2.2"), intersection))
      | (None, pt, reader) =>
          if decide (pt ∈ remoteIDs) then
            pos ← Permutations.Shuffle p i;
            match index localIDs pos with
            | Ok id =>
                stage22_loop p localIDs n (i + 1) reader (remoteIDs ∖ {[pt]}) (intersection ++ [id])
            | Err e => Some (Err e)
            | Panic m => Some (Panic m)
            end
          else stage22_loop p localIDs n (i + 1) reader remoteIDs intersection
      end
  end.

Definition receiver_stage22 (p : Permutations) (localIDs : list (list Z)) (r : source)
    (remoteIDs : gset (list Z)) : option (res (option error * list (list Z))) :=
  match NewReader r with
  | Ok reader => stage22_loop p localIDs (Z.to_nat (rd_max reader)) 0 reader remoteIDs []
  | Err e => Some (Err e)
  | Panic m => Some (Panic m)
  end.

(** ** The connection *)

(** The reader delivers the bytes [bs], cut anywhere in the count and then only
    between points: an assumption on the connection, which the code does not ensure. *)
Definition delivers (bs : list Z) (r : source) : Prop :=
  pending r = bs ∧ ∃ hd r', ReadFull r 8 = (hd, None, r') ∧ aligned r'.

(** * Lemmas *)
Lemma NewReader_delivers n pts r :
  0 ≤ n < 2 ^ 63 → delivers (be_put 8 n ++ concat pts) r →
  ∃ r', NewReader r = Ok {| rd_r := r'; rd_seq := 0; rd_max := n |} ∧ aligned r' ∧
    pending r' = concat pts.
Proof.
  intros Hn (Hp & hd & r' & E & Hal).
  destruct (binary_int64_roundtrip r n (concat pts)) as (r2 & E2 & Hp2 & _); [lia|done|].
  unfold NewReader. rewrite E2. cbn [res_bind]. exists r2.
  unfold binary_Read_int64 in E2. rewrite E in E2. injection E2 as _ <-. done.
Qed.

Lemma fill_out `{R255Lib} workers gr r dec n pts :
  (0 < workers)%nat → 0 ≤ n < 2 ^ 63 → n = Z.of_nat (length pts) → points_ok pts →
  delivers (be_put 8 n ++ concat pts) r → NewMultiplyParallelReader workers gr r dec →
  dec = {| mr_max := n; mr_seq := 0; mr_bus := Multiply gr <$> pts |}.
Proof.
  intros Hw Hn -> Hok Hd (rd & s & Er & Hm & Hs & Hreach & Hbus & Hend).
  destruct (NewReader_delivers _ _ _ Hn Hd) as (r' & E & Hal & Hp).
  rewrite E in Er. injection Er as <-. cbn [rd_max] in *.
  destruct dec as [dm ds db]. cbn [mr_max mr_seq mr_bus] in *. subst dm ds db. f_equal.
  destruct (decide (pts = [])) as [->|Hne].
  - change (totalBatches (Z.of_nat (length (@nil (list Z))))) with 0 in Hreach.
    apply fill_empty in Hreach as [b [= ->]]; done.
  - destruct (fill_reach_inv workers gr pts r' Hal Hok Hp Hne Hw _ Hreach) as (s' & [= <-] & Hi).
    destruct (fill_out_prefix workers gr pts r' Hok Hp Hne Hw s Hi) as [[k Hk] Hex].
    destruct Hend as [He|He]; [by apply Hex|]. apply (f_equal length) in Hk as Hk'.
    rewrite length_app, length_fmap in Hk'. destruct k; [|cbn [length] in Hk'; lia].
    by rewrite app_nil_r in Hk.
Qed.

Lemma reader_exists `{R255Lib} workers gr r n pts :
  (0 < workers)%nat → 0 ≤ n < 2 ^ 63 → n = Z.of_nat (length pts) → points_ok pts →
  delivers (be_put 8 n ++ concat pts) r → ∃ dec, NewMultiplyParallelReader workers gr r dec.
Proof.
  intros Hw Hn -> Hok Hd.
  destruct (NewReader_delivers _ _ _ Hn Hd) as (r' & E & Hal & Hp).
  destruct (decide (pts = [])) as [->|Hne].
  - exists {| mr_max := 0; mr_seq := 0; mr_bus := [] |}. eexists _, _. split; [exact E|].
    split; [done|]. split; [done|]. split; [apply reach_init|]. split; [done|by right].
  - edestruct (fill_completes workers gr pts r') as (s & Hreach & _ & Hex);
      [..|apply reach_init|by apply (fill_init_inv workers gr pts r')|]; [done..|].
    exists {| mr_max := Z.of_nat (length pts); mr_seq := 0; mr_bus := f_out s |}.
    eexists _, _. split; [exact E|]. split; [done|]. split; [done|]. split; [exact Hreach|].
    split; [done|by left].
Qed.

Lemma list_filter_ext_in {A} (P Q : A → Prop) `{!∀ x, Decision (P x), !∀ x, Decision (Q x)} (l : list A) :
  (∀ x, x ∈ l → P x ↔ Q x) → filter P l = filter Q l.
Proof.
  induction l as [|x l IH]; intros Hl; [done|]. rewrite !filter_cons, IH by set_solver.
  pose proof (Hl x ltac:(set_solver)). repeat case_decide; tauto.
Qed.

Lemma list_filter_fmap {A B} (P : B → Prop) `{!∀ x, Decision (P x)} (f : A → B) (l : list A) :
  filter P (f <$> l) = f <$> filter (λ x, P (f x)) l.
Proof.
  induction l as [|x l IH]; [done|]. rewrite fmap_cons, !filter_cons, IH. by case_decide.
Qed.

Lemma NoDup_fmap_eq {A B} (f : A → B) (l : list A) x y :
  NoDup (f <$> l) → x ∈ l → y ∈ l → f x = f y → x = y.
Proof.
  intros Hnd [i Hi]%list_elem_of_lookup [j Hj]%list_elem_of_lookup E.
  assert (i = j) as ->; [|congruence].
  apply (NoDup_lookup _ _ _ (f x) Hnd); rewrite list_lookup_fmap; [by rewrite Hi|].
  by rewrite Hj, E.
Qed.

(** ** The stages *)
Lemma stage1_spec draw sched gr ids v w :
  (∀ l, sched l ≡ₚ l) → faultless w → Z.of_nat (length ids) ≤ 2 ^ 31 → draw 0%nat = Some v →
  let n := Z.of_nat (length ids) in
  ∃ enc enc', NewDeriveMultiplyParallelShuffler draw w n gr = Ok enc ∧
    Permutes (pe_p enc) n ∧
    par_shuffle_all sched enc ids = Some (Ok (None, enc')) ∧
    written (pe_w enc') = written w ++ be_put 8 n ++
      concat (sent_points (pe_p enc) (DeriveMultiply gr <$> ids) 0 n).
Proof.
  intros Hsched Hw Hn Hv n.
  destruct (new_buffering draw w n gr v ids Hw eq_refl Hn Hv)
    as (enc & E & Hp & Hgr & Hwf & Ewr & _ & Hb).
  exists enc. destruct (decide (ids = [])) as [->|Hne].
  - exists enc. by split_and!.
  - destruct (par_shuffle_all_spec sched (pe_p enc) n gr ids 0 enc Hsched eq_refl Hb eq_refl Hgr Hwf)
      as (enc' & E' & _ & Ew); [unfold n; destruct ids; [done|cbn [length]; lia]|].
    exists enc'. split_and!; try done. by rewrite Ew, Ewr, <-app_assoc.
Qed.

Lemma stage21_loop_spec sched writer ids writer' local i :
  par_shuffle_all sched writer ids = Some (Ok (None, writer')) → 0 ≤ i →
  i + Z.of_nat (length ids) = Z.of_nat (length local) →
  stage21_loop sched writer local i ids = Some (Ok (None, writer', take (Z.to_nat i) local ++ ids)).
Proof.
  revert writer local i. induction ids as [|id ids IH]; intros writer local i E Hi Hl;
    cbn [stage21_loop par_shuffle_all length] in *.
  { injection E as <-. rewrite take_ge by lia. by rewrite app_nil_r. }
  rewrite store_Ok by lia.
  destruct (par_Shuffle sched writer id) as [[[[e|] w1]| |]|]; cbn [mbind option_bind] in *; try done.
  rewrite IH; [|done|lia|rewrite length_insert; lia]. do 3 f_equal.
  replace (Z.to_nat (i + 1)) with (S (Z.to_nat i)) by lia.
  rewrite (take_S_r _ _ id) by (apply list_lookup_insert_eq; lia).
  rewrite take_insert_ge by lia. by rewrite <-app_assoc.
Qed.

(** An identifier past the announced count: the main goroutine of the receiver
    writes past the end of [localIDs] before the encoder can refuse it. *)
Lemma stage21_extra_panics sched writer ids writer' local i x rest :
  par_shuffle_all sched writer ids = Some (Ok (None, writer')) → 0 ≤ i →
  i + Z.of_nat (length ids) = Z.of_nat (length local) →
  stage21_loop sched writer local i (ids ++ x :: rest) = Some (Panic "index out of range").
Proof.
  revert writer local i. induction ids as [|id ids IH]; intros writer local i E Hi Hl;
    cbn [app stage21_loop par_shuffle_all length] in *.
  { unfold store. by rewrite bool_decide_false by lia. }
  rewrite store_Ok by lia.
  destruct (par_Shuffle sched writer id) as [[[[e|] w1]| |]|]; cbn [mbind option_bind] in *; try done.
  apply IH; [done|lia|rewrite length_insert; lia].
Qed.

Lemma stage2_loop_spec qs max seq writer :
  faultless (wr_w writer) → seq + Z.of_nat (length qs) ≤ max →
  wr_seq writer + Z.of_nat (length qs) ≤ wr_max writer →
  ∃ writer', stage2_loop (length qs) {| mr_max := max; mr_seq := seq; mr_bus := qs |} writer
      = (None, writer') ∧ written (wr_w writer') = written (wr_w writer) ++ concat qs.
Proof.
  revert seq writer. induction qs as [|q qs IH]; intros seq writer Hw Hs Hm;
    cbn [stage2_loop length concat] in *.
  { exists writer. by rewrite app_nil_r. }
  unfold mr_Read. cbn [mr_seq mr_max mr_bus]. destruct (Z.eqb_spec seq max); [lia|].
  unfold Writer_Write. destruct (Z.eqb_spec (wr_seq writer) (wr_max writer)); [lia|].
  destruct (Write_faultless (wr_w writer) q Hw) as (s & E & Hs' & Ew). rewrite E.
  edestruct (IH (seq + 1)) as (writer' & E' & Ew'); [..|exists writer'; rewrite E'; split; [done|]];
    cbn [wr_w wr_seq wr_max]; [done|lia|lia|].
  rewrite Ew'. cbn [wr_w]. by rewrite Ew, <-app_assoc.
Qed.

Lemma index_remote_S n dec acc :
  index_remote (S n) dec acc =
    let '(err, p, dec) := mr_Read dec in
    match err with
    | Some e => (if bool_decide (e = EOF) then None else Some e, acc)
    | None => index_remote n dec ({[p]} ∪ acc)
    end.
Proof. reflexivity. Qed.

Lemma index_remote_spec qs max seq acc :
  seq + Z.of_nat (length qs) = max →
  index_remote (S (length qs)) {| mr_max := max; mr_seq := seq; mr_bus := qs |} acc =
    (None, list_to_set qs ∪ acc).
Proof.
  revert seq acc. induction qs as [|q qs IH]; intros seq acc Hm; cbn [length] in *;
    rewrite index_remote_S; unfold mr_Read; cbn [mr_seq mr_max mr_bus].
  - rewrite (proj2 (Z.eqb_eq seq max)) by lia. cbn. f_equal. apply leibniz_equiv. set_solver.
  - destruct (Z.eqb_spec seq max); [lia|].
    rewrite IH by lia. f_equal. apply leibniz_equiv. set_solver.
Qed.

Lemma stage22_loop_spec p n `{!Permutes p n} local qs i reader_r max remote inter :
  n = Z.of_nat (length local) → NoDup qs → points_ok qs →
  0 ≤ i → i + Z.of_nat (length qs) = n → n = max →
  aligned reader_r → pending reader_r = concat qs →
  stage22_loop p local (length qs) i {| rd_r := reader_r; rd_seq := i; rd_max := max |} remote inter =
    Some (Ok (None, inter ++ ((λ jq, local !!! Z.to_nat (order p jq.1)) <$>
      filter (λ jq, jq.2 ∈ remote) (zip (seqZ i (Z.of_nat (length qs))) qs)))).
Proof.
  intros Hn. revert i reader_r remote inter.
  induction qs as [|q qs IH]; intros i r remote inter Hnd Hok Hi Hl Hm Hal Hp; cbn [stage22_loop length].
  { cbn. by rewrite app_nil_r. }
  apply NoDup_cons in Hnd as [Hq Hnd]. cbn [length] in Hl.
  unfold Reader_Read. cbn [rd_r rd_seq rd_max]. destruct (Z.eqb_spec i max); [lia|].
  destruct (Read_aligned r q qs Hal Hok Hp) as (r1 & -> & Hal1 & Hp1 & _).
  apply Forall_cons in Hok as [Hql Hok]. rewrite put_at_point by done.
  rewrite seqZ_cons by lia. cbn [zip zip_with]. rewrite filter_cons. cbn [snd].
  replace (Z.succ i) with (i + 1) by lia.
  replace (Z.pred (Z.of_nat (S (length qs)))) with (Z.of_nat (length qs)) by lia.
  case_decide as Hin.
  - destruct (order_Some p n i ltac:(lia)) as [-> Hr]. cbn [mbind option_bind].
    assert (index local (order p i) = Ok (local !!! Z.to_nat (order p i))) as ->.
    { apply index_Ok. split; [lia|]. apply list_lookup_lookup_total_lt. lia. }
    rewrite IH; [|done|done|lia|lia|done|done|done]. cbn [fmap list_fmap fst].
    rewrite <-app_assoc. cbn [app]. do 5 f_equal. f_equal.
    apply list_filter_ext_in. intros [j x] Hx. cbn [snd].
    rewrite elem_of_difference, elem_of_singleton.
    apply elem_of_zip_r in Hx. split; [tauto|]. intros Hr'. split; [done|]. congruence.
  - apply IH; [done|done|lia|lia|done|done|done].
Qed.

(** ** The exchange *)
(** The state of the exchange between the stages: who runs which, on what. *)
Record party := { p_draw : nat → option Z; p_sched : list dmBatch → list dmBatch; p_workers : nat }.

Definition party_ok (q : party) : Prop :=
  is_Some (p_draw q 0%nat) ∧ (∀ l, p_sched q l ≡ₚ l) ∧ (0 < p_workers q)%nat.

(** A count and the points that follow it on the connection. *)
Definition message (n : Z) (pts : list (list Z)) : list Z := be_put 8 n ++ concat pts.

(** [Send] and [Intersect] against each other, with keys [a] and [b]: whatever the
    connection delivers of the bytes written ([link]: what it may deliver) and whatever
    the goroutines of the readers do, no stage panics or reports an error, and the
    intersection has [Q].  The theorems are about [link] = [delivers]: a point is read
    with a single [Read], and where a connection cuts one, as TCP may, they say nothing. *)
Definition dhpsi_run `{R255Lib} (link : list Z → source → Prop) (a b : Scalar) (ps pr : party)
    (ns : Z) (sids : list (list Z)) (nr : Z) (rids : list (list Z)) (Q : list (list Z) → Prop) : Prop :=
  ∃ w1, sender_stage1 (p_draw ps) (p_sched ps) new_sink ns (R255 a) sids = Some (Ok (None, w1)) ∧
  (∀ r1 dec1, link (written w1) r1 → NewMultiplyParallelReader (p_workers pr) (R255 b) r1 dec1 →
   ∃ remote, receiver_stage1 dec1 = (None, remote) ∧
   ∃ w2 p local, receiver_stage21 (p_draw pr) (p_sched pr) new_sink nr (R255 b) rids
      = Some (Ok (None, w2, p, local)) ∧
   (∀ r2 dec2, link (written w2) r2 → NewMultiplyParallelReader (p_workers ps) (R255 a) r2 dec2 →
    ∃ w3, sender_stage2 dec2 new_sink = Ok (None, w3) ∧
    (∀ r3, link (written w3) r3 →
     ∃ out, receiver_stage22 p local r3 remote = Some (Ok (None, out)) ∧ Q out))).

(** [SendFromReader] against [IntersectFromReader]: the identifiers are the lines that
    [Exhaust] takes from [fs] and [fr]. *)
Definition dhpsi_run_from_readers `{R255Lib} (link : list Z → source → Prop) (a b : Scalar)
    (ps pr : party) (ns : Z) (fs : source) (nr : Z) (fr : source) : (list (list Z) → Prop) → Prop :=
  dhpsi_run link a b ps pr ns (Exhaust ns fs) nr (Exhaust nr fr).

Section Exchange.
Context `{R255Laws} (a b : Scalar).
Hypothesis a_inj : Inj (=) (=) (ScalarMult a).
Hypothesis b_inj : Inj (=) (=) (ScalarMult b).

(** The point an identifier derives to, encoded. *)
Definition derived (id : list Z) : list Z := Encode (FromUniformBytes (Sum512 id)).

Definition twice (id : list Z) : list Z :=
  Encode (ScalarMult a (ScalarMult b (FromUniformBytes (Sum512 id)))).

Lemma twice_sender id : Multiply (R255 b) (DeriveMultiply (R255 a) id) = twice id.
Proof.
  cbn [Multiply DeriveMultiply R255].
  by rewrite DeriveMultiply_Encode, Multiply_Encode, ScalarMult_comm.
Qed.

Lemma twice_receiver id : Multiply (R255 a) (DeriveMultiply (R255 b) id) = twice id.
Proof. cbn [Multiply DeriveMultiply R255]. by rewrite DeriveMultiply_Encode, Multiply_Encode. Qed.

Lemma twice_inj x y : twice x = twice y ↔ derived x = derived y.
Proof.
  unfold twice, derived. split.
  - by intros E%Encode_inj%a_inj%b_inj%(f_equal Encode).
  - by intros ->%Encode_inj.
Qed.

Lemma derived_points_ok k ids : points_ok (DeriveMultiply (R255 k) <$> ids).
Proof.
  apply Forall_fmap, Forall_true. intros id. unfold compose. cbn [DeriveMultiply R255].
  rewrite DeriveMultiply_Encode. apply Encode_length.
Qed.

Lemma sent_points_ok p n k ids `{!Permutes p n} :
  Z.of_nat (length ids) = n → points_ok (sent_points p (DeriveMultiply (R255 k) <$> ids) 0 n).
Proof.
  intros Hl. destruct (sent_points_list p n (DeriveMultiply (R255 k) <$> ids)) as (js & _ & _ & _ & E).
  { by rewrite length_fmap. }
  unfold points_ok. rewrite E. apply derived_points_ok.
Qed.

Lemma length_sent_points p n pts : 0 ≤ n → length (sent_points p pts 0 n) = Z.to_nat n.
Proof. intros Hn. unfold sent_points. rewrite length_fmap, length_seqZ. lia. Qed.

(** What the positions of the receiver's encoder hold. *)
Lemma matched_list (p : Permutations) (n : Z) (rids : list (list Z)) (remote : gset (list Z)) `{!Permutes p n} :
  n = Z.of_nat (length rids) →
  (λ jq, rids !!! Z.to_nat (order p jq.1)) <$>
    filter (λ jq, jq.2 ∈ remote) (zip (seqZ 0 n)
      (Multiply (R255 a) <$> sent_points p (DeriveMultiply (R255 b) <$> rids) 0 n)) =
  filter (λ id, twice id ∈ remote) (sent_points p rids 0 n).
Proof.
  intros Hn. unfold sent_points. rewrite Z.sub_0_r, <-list_fmap_compose.
  assert (∀ (f : Z → list Z) l, zip l (f <$> l) = (λ i, (i, f i)) <$> l) as ->.
  { intros f l. induction l; [done|]. cbn. by f_equal. }
  rewrite !list_filter_fmap, <-list_fmap_compose. unfold compose. cbn [fst snd].
  f_equal. apply list_filter_ext_in. intros i Hi%elem_of_seqZ.
  destruct (order_Some p n i ltac:(lia)) as [_ Hr].
  rewrite (list_lookup_total_fmap (DeriveMultiply (R255 b))) by lia.
  by rewrite twice_receiver.
Qed.
(** What the receiver holds after the first stage, and what the sender returns. *)
Lemma remote_points (p : Permutations) n sids `{!Permutes p n} id :
  n = Z.of_nat (length sids) →
  twice id ∈ (list_to_set (Multiply (R255 b) <$> sent_points p (DeriveMultiply (R255 a) <$> sids) 0 n) ∪ ∅
    : gset (list Z)) ↔ derived id ∈ derived <$> sids.
Proof.
  intros Hn. rewrite elem_of_union, elem_of_list_to_set.
  destruct (sent_points_list p n (DeriveMultiply (R255 a) <$> sids)) as (_ & _ & _ & _ & E);
    [by rewrite length_fmap|].
  rewrite E, !list_elem_of_fmap. split.
  - intros [(x & Hx & Hin)|Hx]; [|set_solver]. apply list_elem_of_fmap in Hin as (s & -> & Hs).
    exists s. split; [|done]. rewrite twice_sender in Hx. by apply twice_inj in Hx.
  - intros (s & Hx & Hs). left. exists (DeriveMultiply (R255 a) s).
    rewrite twice_sender. split; [by apply twice_inj|]. by apply list_elem_of_fmap_2.
Qed.

Lemma returned_points (p : Permutations) n rids `{!Permutes p n} :
  n = Z.of_nat (length rids) → NoDup (derived <$> rids) →
  let q := Multiply (R255 a) <$> sent_points p (DeriveMultiply (R255 b) <$> rids) 0 n in
  NoDup q ∧ points_ok q.
Proof.
  intros Hn Hnd q. assert (q ≡ₚ twice <$> rids) as Eq.
  { subst q. destruct (sent_points_list p n (DeriveMultiply (R255 b) <$> rids))
      as (_ & _ & _ & _ & ->); [by rewrite length_fmap|].
    rewrite <-list_fmap_compose. apply reflexive_eq. apply list_fmap_ext.
    intros _ id _. apply twice_receiver. }
  unfold points_ok. rewrite Eq. split.
  - apply NoDup_fmap_2_strong; [|by eapply NoDup_fmap_1].
    intros x y Hx Hy E. apply twice_inj in E. by apply (NoDup_fmap_eq derived rids).
  - apply Forall_fmap, Forall_true. intros id. unfold compose, twice. apply Encode_length.
Qed.
(** *** The stages of a run, for two parties with their permutations *)
Section Run.
Context (q : party) (Hq : party_ok q).

Lemma sender_stage1_run k ids :
  Z.of_nat (length ids) ≤ 2 ^ 31 →
  let n := Z.of_nat (length ids) in
  ∃ p w, Permutes p n ∧
    sender_stage1 (p_draw q) (p_sched q) new_sink n (R255 k) ids = Some (Ok (None, w)) ∧
    written w = message n (sent_points p (DeriveMultiply (R255 k) <$> ids) 0 n).
Proof.
  intros Hl n. destruct Hq as ([v Hv] & HS & _).
  destruct (stage1_spec (p_draw q) (p_sched q) (R255 k) ids v new_sink HS ltac:(done) Hl Hv)
    as (enc & enc' & E & Hp & Ea & Ew). exists (pe_p enc), (pe_w enc'). split; [done|].
  unfold sender_stage1. fold n in E. by rewrite E, Ea.
Qed.

Lemma receiver_stage21_run k ids :
  Z.of_nat (length ids) ≤ 2 ^ 31 →
  let n := Z.of_nat (length ids) in
  ∃ p w, Permutes p n ∧
    receiver_stage21 (p_draw q) (p_sched q) new_sink n (R255 k) ids = Some (Ok (None, w, p, ids)) ∧
    written w = message n (sent_points p (DeriveMultiply (R255 k) <$> ids) 0 n).
Proof.
  intros Hl n. destruct Hq as ([v Hv] & HS & _).
  destruct (stage1_spec (p_draw q) (p_sched q) (R255 k) ids v new_sink HS ltac:(done) Hl Hv)
    as (enc & enc' & E & Hp & Ea & Ew). exists (pe_p enc), (pe_w enc'). split; [done|].
  unfold receiver_stage21. fold n in E. rewrite E. split; [|done].
  by rewrite (stage21_loop_spec _ _ _ _ _ 0 Ea) by (rewrite ?length_replicate; lia).
Qed.

(** What a parallel reader delivers to its party. *)
Lemma parallel_reader_run k k' p n ids r dec :
  Permutes p n → n = Z.of_nat (length ids) → n ≤ 2 ^ 31 →
  delivers (message n (sent_points p (DeriveMultiply (R255 k) <$> ids) 0 n)) r →
  NewMultiplyParallelReader (p_workers q) (R255 k') r dec →
  dec = {| mr_max := n; mr_seq := 0;
           mr_bus := Multiply (R255 k') <$> sent_points p (DeriveMultiply (R255 k) <$> ids) 0 n |}.
Proof.
  intros Hp Hn Hle Hd Hr. destruct Hq as (_ & _ & Hw).
  apply (fill_out (p_workers q) (R255 k') r dec n _ Hw ltac:(lia)); [|by apply sent_points_ok|done..].
  rewrite length_sent_points; lia.
Qed.
End Run.

Lemma receiver_stage1_run n pts :
  n = Z.of_nat (length pts) →
  receiver_stage1 {| mr_max := n; mr_seq := 0; mr_bus := pts |} = (None, list_to_set pts ∪ ∅).
Proof.
  intros ->. unfold receiver_stage1. cbn [mr_max]. rewrite Nat2Z.id. by apply index_remote_spec.
Qed.

Lemma sender_stage2_run n pts :
  n = Z.of_nat (length pts) →
  ∃ w, sender_stage2 {| mr_max := n; mr_seq := 0; mr_bus := pts |} new_sink = Ok (None, w) ∧
    written w = message n pts.
Proof.
  intros ->. unfold sender_stage2, NewWriter, binary_Write_int64. cbn [mr_max].
  destruct (Write_faultless new_sink (be_put 8 (Z.of_nat (length pts))) ltac:(done)) as (s & -> & Hs & Es).
  cbn [res_bind]. rewrite Nat2Z.id.
  destruct (stage2_loop_spec pts (Z.of_nat (length pts)) 0
    {| wr_w := s; wr_max := Z.of_nat (length pts); wr_seq := 0 |}) as (w & -> & Ew);
    cbn [wr_w wr_seq wr_max]; [done|lia|lia|].
  eexists. split; [done|]. rewrite Ew. cbn [wr_w]. by rewrite Es.
Qed.

Lemma receiver_stage22_run (p : Permutations) n `{!Permutes p n} rids remote r :
  n = Z.of_nat (length rids) → n < 2 ^ 63 → NoDup (derived <$> rids) →
  delivers (message n (Multiply (R255 a) <$> sent_points p (DeriveMultiply (R255 b) <$> rids) 0 n)) r →
  ∃ out, receiver_stage22 p rids r remote = Some (Ok (None, out)) ∧
    out ≡ₚ filter (λ id, twice id ∈ remote) rids.
Proof.
  intros Hn Hlt Hnd Hd. unfold receiver_stage22.
  destruct (NewReader_delivers n _ r ltac:(lia) Hd) as (r' & -> & Hal & Hp). cbn [rd_max].
  destruct (returned_points p n rids Hn Hnd) as [Hnd2 Hok2].
  set (qs := Multiply (R255 a) <$> _) in *.
  assert (length qs = Z.to_nat n) as Hq by (unfold qs; rewrite length_fmap, length_sent_points; lia).
  rewrite <-Hq, (stage22_loop_spec p n rids qs 0 r' n remote []) by (done || lia).
  eexists. split; [done|]. cbn [app]. rewrite Hq, Z2Nat.id by lia. unfold qs.
  rewrite (matched_list p n rids remote Hn).
  by destruct (sent_points_list p n rids (eq_sym Hn)) as (_ & _ & _ & _ & ->).
Qed.
(** *** All the stages *)
Lemma dhpsi_run_matches ps pr sids rids (Q : list (list Z) → Prop) :
  party_ok ps → party_ok pr →
  Z.of_nat (length sids) ≤ 2 ^ 31 → Z.of_nat (length rids) ≤ 2 ^ 31 →
  NoDup (derived <$> rids) →
  (∀ out, out ≡ₚ filter (λ id, derived id ∈ derived <$> sids) rids → Q out) →
  dhpsi_run delivers a b ps pr (Z.of_nat (length sids)) sids (Z.of_nat (length rids)) rids Q.
Proof.
  intros Hs Hr Hls Hlr Hnd HQ. set (ns := Z.of_nat (length sids)). set (nr := Z.of_nat (length rids)).
  destruct (sender_stage1_run ps Hs a sids Hls) as (p1 & w1 & Hp1 & E1 & Ew1).
  fold ns in Hp1, E1, Ew1. exists w1. split; [exact E1|]. rewrite Ew1. intros r1 dec1 Hd1 Hr1.
  rewrite (parallel_reader_run pr Hr a b p1 ns sids r1 dec1 Hp1 eq_refl Hls Hd1 Hr1).
  set (pts1 := Multiply (R255 b) <$> _).
  assert (ns = Z.of_nat (length pts1)) as Hl1
    by (unfold pts1; rewrite length_fmap, length_sent_points; lia).
  eexists. split; [by apply receiver_stage1_run|].
  destruct (receiver_stage21_run pr Hr b rids Hlr) as (p2 & w2 & Hp2 & E2 & Ew2).
  fold nr in Hp2, E2, Ew2. exists w2, p2, rids. split; [exact E2|]. rewrite Ew2. intros r2 dec2 Hd2 Hr2.
  rewrite (parallel_reader_run ps Hs b a p2 nr rids r2 dec2 Hp2 eq_refl Hlr Hd2 Hr2).
  set (pts2 := Multiply (R255 a) <$> _).
  destruct (sender_stage2_run nr pts2) as (w3 & E3 & Ew3);
    [unfold pts2; rewrite length_fmap, length_sent_points; lia|].
  exists w3. split; [exact E3|]. rewrite Ew3. intros r3 Hd3.
  edestruct (receiver_stage22_run p2 nr rids) as (out & E4 & Hout);
    [done|lia|done|exact Hd3|]. exists out. split; [exact E4|]. apply HQ.
  rewrite Hout. apply reflexive_eq, list_filter_ext_in. intros id _. by apply (remote_points p1).
Qed.

(** Where no two identifiers derive to one point, the matches are the intersection. *)
Lemma matches_intersection sids rids out :
  NoDup (derived <$> rids) → (∀ x y, x ∈ rids → y ∈ sids → derived x = derived y → x = y) →
  out ≡ₚ filter (λ id, derived id ∈ derived <$> sids) rids → intersection_of sids rids out.
Proof.
  intros Hnd Hcf Hf. eapply intersection_of_filter; [by eapply NoDup_fmap_1| |exact Hf].
  intros x Hx. cbn beta. rewrite list_elem_of_fmap. split; [|by exists x].
  intros (y & E & Hy). by rewrite (Hcf x y).
Qed.
End Exchange.

(** ** Properties *)

(** C2: the whole exchange with the R255 group, for any keys that act injectively
    on it, any seeds, numbers of workers, schedulings of the parallel encoders and
    readers, and connections cut between points: no stage panics or reports an error,
    and the receiver's result is, up to order, those of its own identifiers that
    derive to the same point as one of the sender's; where no two identifiers derive
    to one point, it is the intersection. *)
Theorem dhpsi_intersection `{R255Laws} (a b : Scalar) (ps pr : party) sids rids :
  Inj (=) (=) (ScalarMult a) → Inj (=) (=) (ScalarMult b) →
  party_ok ps → party_ok pr →
  Z.of_nat (length sids) ≤ 2 ^ 31 → Z.of_nat (length rids) ≤ 2 ^ 31 →
  NoDup (derived <$> rids) →
  dhpsi_run delivers a b ps pr (Z.of_nat (length sids)) sids (Z.of_nat (length rids)) rids (λ out,
    out ≡ₚ filter (λ id, derived id ∈ derived <$> sids) rids ∧
    ((∀ x y, x ∈ rids → y ∈ sids → derived x = derived y → x = y) →
     intersection_of sids rids out)).
Proof.
  intros Ha Hb Hs Hr Hls Hlr Hnd. apply (dhpsi_run_matches a b Ha Hb); [done..|].
  intros out Hf. split; [done|]. intros Hcf. by apply matches_intersection.
Qed.

(** An exchange over the toy group: keys 5 and 3. *)
Lemma toy_inj k k' : (k * k') mod toy_p = 1 → Inj (=) (=) (@ScalarMult toy_R255 k).
Proof.
  intros Hk x y E. apply toy_eq.
  assert (∀ z : toy_element, (k' * proj1_sig (@ScalarMult toy_R255 k z)) mod toy_p = proj1_sig z) as Hz.
  { intros z. cbn [ScalarMult toy_R255]. rewrite toy_val, Z.mul_mod_idemp_r by done.
    replace (k' * (k * proj1_sig z)) with (k * k' * proj1_sig z) by lia.
    rewrite <-Z.mul_mod_idemp_l, Hk, Z.mul_1_l by done. apply Z.mod_small. apply (proj2_dsig z). }
  by rewrite <-(Hz x), E, Hz.
Qed.

Definition toy_party : party :=
  {| p_draw := λ _, Some 2; p_sched := @reverse _; p_workers := 2 |}.
Definition toy_sids : list (list Z) := [[1]; [2]; [3]].
Definition toy_rids : list (list Z) := [[3]; [9]; [1]; [7]].

(** The connection that delivers what was written: the count, then all the points. *)
Definition link (w : sink) : source :=
  {| chunks := [take 8 (written w); drop 8 (written w)]; final := EOF |}.
Definition points_in (k : nat) (w : sink) : list (list Z) :=
  (λ i, take 32 (drop (8 + 32 * i) (written w))) <$> seq 0 k.

Lemma link_delivers k w :
  length (written w) = (8 + 32 * k)%nat → k ≠ O → delivers (written w) (link w).
Proof.
  intros Hl Hk. split; [unfold link, pending; cbn; by rewrite app_nil_r, take_drop|].
  unfold ReadFull, link. cbn [chunks final read_full].
  rewrite bool_decide_true by (rewrite length_take; lia).
  rewrite length_take, Hl. replace (8 - _)%nat with 0%nat by lia. cbn.
  eexists _, _. split; [done|]. unfold aligned. cbn [chunks]. constructor; [|done].
  exists k. rewrite length_drop, Hl. unfold EncodedLen. split; [lia|done].
Qed.

Definition sink_of (r : option (res (option error * sink))) : sink :=
  match r with Some (Ok (_, w)) => w | _ => new_sink end.

Definition sink_of21 (r : option (res (option error * sink * Permutations * list (list Z)))) : sink :=
  match r with Some (Ok (_, w, _, _)) => w | _ => new_sink end.

(** A count and [k] points. *)
Definition sink_ok (k : nat) (w : sink) : Prop :=
  written w = be_put 8 (Z.of_nat k) ++ concat (points_in k w) ∧
  length (written w) = (8 + 32 * k)%nat ∧ points_ok (points_in k w).

Definition stage2_bytes (k : nat) (gr : Ristretto) (w : sink) : list Z :=
  match sender_stage2 {| mr_max := Z.of_nat k; mr_seq := 0; mr_bus := Multiply gr <$> points_in k w |}
          new_sink with
  | Ok (_, w) => written w
  | _ => []
  end.

Lemma link_reader k w gr :
  sink_ok k w → (0 < k < 1000)%nat →
  delivers (written w) (link w) ∧
  ∃ dec, @NewMultiplyParallelReader toy_R255 2 gr (link w) dec ∧
    dec = {| mr_max := Z.of_nat k; mr_seq := 0; mr_bus := Multiply gr <$> points_in k w |}.
Proof.
  intros (Ew & Hl & Hp) Hk. pose proof (link_delivers k w Hl ltac:(lia)) as Hd.
  split; [exact Hd|]. rewrite Ew in Hd.
  assert (Z.of_nat k = Z.of_nat (length (points_in k w))) as Hlen
    by (unfold points_in; by rewrite length_fmap, length_seq).
  destruct (@reader_exists toy_R255 2 gr (link w) (Z.of_nat k) _ ltac:(lia) ltac:(lia) Hlen Hp Hd)
    as [dec Hdec].
  exists dec. split; [exact Hdec|].
  exact (@fill_out toy_R255 2 gr (link w) dec (Z.of_nat k) _ ltac:(lia) ltac:(lia) Hlen Hp Hd Hdec).
Qed.

Lemma dhpsi_intersection_witness :
  ∃ w1 dec1 remote w2 p local dec2 w3 out,
    @sender_stage1 (λ _, Some 2) (@reverse _) new_sink 3 (@R255 toy_R255 5) toy_sids
      = Some (Ok (None, w1)) ∧
    receiver_stage1 dec1 = (None, remote) ∧
    receiver_stage21 (λ _, Some 2) (@reverse _) new_sink 4 (@R255 toy_R255 3) toy_rids
      = Some (Ok (None, w2, p, local)) ∧
    sender_stage2 dec2 new_sink = Ok (None, w3) ∧
    receiver_stage22 p local (link w3) remote = Some (Ok (None, out)) ∧
    out ≡ₚ [[3]; [1]].
Proof.
  assert (party_ok toy_party) as Hparty.
  { split; [by eexists|]. split; [apply reverse_Permutation|cbn; lia]. }
  destruct (@dhpsi_intersection toy_R255 toy_R255_laws 5 3 toy_party toy_party toy_sids toy_rids
    (toy_inj 5 858993459 eq_refl) (toy_inj 3 1431655765 eq_refl) Hparty Hparty
    ltac:(cbn; lia) ltac:(cbn; lia)) as (w1 & E1 & Hrest).
  { apply (bool_decide_unpack _). by vm_compute. }
  assert (sink_ok 3 (sink_of (sender_stage1 (λ _, Some 2) (@reverse _) new_sink 3 (@R255 toy_R255 5)
    toy_sids))) as Hw1.
  { split; [by vm_compute|]. split; [by vm_compute|]. apply (bool_decide_unpack _). by vm_compute. }
  change (sender_stage1 (λ _, Some 2) (@reverse _) new_sink 3 (@R255 toy_R255 5) toy_sids
    = Some (Ok (None, w1))) in E1.
  rewrite E1 in Hw1. cbn [sink_of] in Hw1. destruct (link_reader 3 w1 (@R255 toy_R255 3) Hw1 ltac:(lia)) as (Hd1 & dec1 & Hdec1 & _).
  destruct (Hrest _ _ Hd1 Hdec1) as (remote & Er & w2 & p & local & E2 & Hrest2). clear Hrest.
  set (r21 := receiver_stage21 (λ _, Some 2) (@reverse _) new_sink 4 (@R255 toy_R255 3) toy_rids).
  change (r21 = Some (Ok (None, w2, p, local))) in E2.
  assert (sink_ok 4 (sink_of21 r21) ∧ length (stage2_bytes 4 (@R255 toy_R255 5) (sink_of21 r21)) = (8 + 32 * 4)%nat)
    as [Hw2 Hl3].
  { split; [|by vm_compute].
    split; [by vm_compute|]. split; [by vm_compute|]. apply (bool_decide_unpack _). by vm_compute. }
  rewrite E2 in Hw2, Hl3. cbn [sink_of21] in Hw2, Hl3.
  destruct (link_reader 4 w2 (@R255 toy_R255 5) Hw2 ltac:(lia)) as (Hd2 & dec2 & Hdec2 & Edec2).
  destruct (Hrest2 _ _ Hd2 Hdec2) as (w3 & E3 & Hrest3). clear Hrest2.
  assert (length (written w3) = (8 + 32 * 4)%nat) as Hlw3.
  { unfold stage2_bytes in Hl3. rewrite <-Edec2, E3 in Hl3. exact Hl3. }
  destruct (Hrest3 _ (link_delivers 4 w3 Hlw3 ltac:(lia))) as (out & Eout & Hout).
  exists w1, dec1, remote, w2, p, local, dec2, w3, out.
  split; [exact E1|]. split; [exact Er|]. split; [exact E2|]. split; [exact E3|].
  split; [exact Eout|]. rewrite (proj1 Hout). by vm_compute.
Defined.
