(* ===== verification/DhpsiLoop.v ===== *)
(** * [pkg/dhpsi]: the select loop of the receiver, receiver.go

    After its first stage the receiver runs the stages 2.1 and 2.2 in goroutines
    that talk to its main loop over unbuffered channels: the identifiers of stage
    2.1, the matched positions of stage 2.2, and their errors.  A step is one
    rendezvous, one send on the buffered channel of errors or the cancellation of
    the context.  [DhpsiProtocol] runs the two stages one after the other; the loop
    computes the same. *)
From stdpp Require Import relations.
From S2P Require Import Prelude Words Permutations IO Dhpsi DhpsiProtocol.

(** Stage 2.2 by itself: the positions it sends, its error. *)
Fixpoint matched_positions (n : nat) (i : Z) (reader : Reader) (remoteIDs : gset (list Z))
    : option error * list Z :=
  match n with
  | O => (None, [])
  | S n =>
      match Reader_Read reader zero_point with
      | (Some e, _, _) => (Some (ErrMsg "stage2.2"), [])
      | (None, pt, reader) =>
          if decide (pt ∈ remoteIDs) then
            let '(e, ms) := matched_positions n (i + 1) reader (remoteIDs ∖ {[pt]}) in (e, i :: ms)
          else matched_positions n (i + 1) reader remoteIDs
      end
  end.

Record intersecting := Loop {
  x_todo : list (list Z);              (** identifiers stage 2.1 has still to send *)
  x_i : Z;                             (** its [i] *)
  x_end21 : option (option error);     (** the error it returns, until it is sent *)
  x_matches : list Z;                  (** positions stage 2.2 has still to send *)
  x_end22 : option (option error);
  x_errs : list (option error);        (** the buffered channel *)
  x_done : Z;
  x_localIDs : list (list Z);
  x_intersection : list (list Z);
  x_ctx : option error;
  x_result : option (option error)     (** the error [Intersect] has returned *)
}.

Section Loop.
(** The permutation of the writer, the error of the context if it is cancelled, and
    whether the sender may answer before it has all the points: a sender that follows
    the protocol does not, so that a position comes after the last identifier. *)
Context (p : Permutations) (cancel : error) (early : bool).

(** [localIDs[permutations.Shuffle(pos)]]. *)
Definition local_at (localIDs : list (list Z)) (pos : Z) : res (list Z) :=
  match Permutations.Shuffle p pos with
  | Some j => index localIDs j
  | None => Panic "Shuffle"
  end.

(** The loop itself takes a position at any time ([early]); the permutation is stored
    before the first identifier is sent. *)
Inductive loop_step : intersecting → res intersecting → Prop :=
| step_receiverID id ids i e21 ms e22 errs d l inter ctx :
    d ≠ 0 →
    loop_step (Loop (id :: ids) i e21 ms e22 errs d l inter ctx None)
      (let! l := store l i id in Ok (Loop ids (i + 1) e21 ms e22 errs d l inter ctx None))
| step_matchedID ids pos ms i e21 e22 errs d l inter ctx :
    d ≠ 0 → early = true ∨ ids = [] →
    loop_step (Loop ids i e21 (pos :: ms) e22 errs d l inter ctx None)
      (let! id := local_at l pos in Ok (Loop ids i e21 ms e22 errs d l (inter ++ [id]) ctx None))
| step_stage21_ends i e ms e22 errs d l inter ctx r :
    loop_step (Loop [] i (Some e) ms e22 errs d l inter ctx r)
      (Ok (Loop [] i None ms e22 (errs ++ [e]) d l inter ctx r))
| step_stage22_ends ids i e21 e errs d l inter ctx r :
    loop_step (Loop ids i e21 [] (Some e) errs d l inter ctx r)
      (Ok (Loop ids i e21 [] None (errs ++ [e]) d l inter ctx r))
| step_done ids i e21 ms e22 errs d l inter ctx :
    d ≠ 0 →
    loop_step (Loop ids i e21 ms e22 (None :: errs) d l inter ctx None)
      (Ok (Loop ids i e21 ms e22 errs (d - 1) l inter ctx None))
| step_error ids i e21 ms e22 e errs d l inter ctx :
    d ≠ 0 →
    loop_step (Loop ids i e21 ms e22 (Some e :: errs) d l inter ctx None)
      (Ok (Loop ids i e21 ms e22 errs d l inter ctx (Some (Some e))))
| step_cancelled ids i e21 ms e22 errs d l inter r :
    loop_step (Loop ids i e21 ms e22 errs d l inter None r)
      (Ok (Loop ids i e21 ms e22 errs d l inter (Some cancel) r))
| step_ctx_done ids i e21 ms e22 errs d l inter e :
    d ≠ 0 →
    loop_step (Loop ids i e21 ms e22 errs d l inter (Some e) None)
      (Ok (Loop ids i e21 ms e22 errs d l inter (Some e) (Some (Some e))))
| step_returns ids i e21 ms e22 errs l inter ctx :
    loop_step (Loop ids i e21 ms e22 errs 0 l inter ctx None)
      (Ok (Loop ids i e21 ms e22 errs 0 l inter ctx (Some None))).

Definition loop_next (c c' : intersecting) : Prop := loop_step c (Ok c').

(** The steps without a cancellation. *)
Definition loop_quiet (c c' : intersecting) : Prop := loop_next c c' ∧ x_ctx c' = x_ctx c.

(** The loop entered, with what the two stages will send and return. *)
Definition loop_init (n : Z) (ids : list (list Z)) (e21 : option error)
    (matches : list Z) (e22 : option error) : intersecting :=
  Loop ids 0 (Some e21) matches (Some e22) [] 2 (replicate (Z.to_nat n) []) [] None None.

(** ** Lemmas *)

(** The intersection the positions stand for. *)
Fixpoint fetch (localIDs : list (list Z)) (ms : list Z) (inter : list (list Z)) : res (list (list Z)) :=
  match ms with
  | [] => Ok inter
  | pos :: ms => let! id := local_at localIDs pos in fetch localIDs ms (inter ++ [id])
  end.

Lemma fetch_app local ms ms' inter :
  fetch local (ms ++ ms') inter = let! inter := fetch local ms inter in fetch local ms' inter.
Proof.
  revert inter. induction ms as [|m ms IH]; intros inter; [done|].
  cbn [app fetch]. destruct (local_at local m); [|done..]. cbn [res_bind]. apply IH.
Qed.

(** Stage 2.2 with its loop body cut in two. *)
Lemma stage22_positions local n i reader remote inter out :
  stage22_loop p local n i reader remote inter = Some (Ok (None, out)) →
  ∃ ms, matched_positions n i reader remote = (None, ms) ∧ fetch local ms inter = Ok out.
Proof.
  revert i reader remote inter. induction n as [|n IH]; intros i reader remote inter E;
    cbn [stage22_loop matched_positions] in *.
  { injection E as <-. by exists []. }
  destruct (Reader_Read reader zero_point) as [[[e|] pt] reader']; [done|].
  case_decide; [|by apply IH in E].
  destruct (Permutations.Shuffle p i) as [pos|] eqn:Ep; cbn [mbind option_bind] in E; [|done].
  destruct (index local pos) as [id| |] eqn:El; [|done..].
  apply IH in E as (ms & -> & Hf). exists (i :: ms). split; [done|].
  cbn [fetch]. unfold local_at. rewrite Ep, El. exact Hf.
Qed.
End Loop.

(** ** The invariant of a run whose stages succeed *)
Section Success.
Context (p : Permutations) (cancel : error).
Context (ids : list (list Z)) (ms : list Z) (out : list (list Z)).
Hypothesis Hout : fetch p ids ms [] = Ok out.

Definition count {A} (o : option A) : Z := if o is Some _ then 1 else 0.

Record loop_inv (c : intersecting) : Prop := {
  inv_local : ∃ k, x_i c = Z.of_nat k ∧ (k ≤ length ids)%nat ∧ x_todo c = drop k ids ∧
    x_localIDs c = take k ids ++ replicate (length ids - k) [];
  inv_matches : ∃ seen, ms = seen ++ x_matches c ∧ fetch p ids seen [] = Ok (x_intersection c);
  inv_end21 : (x_end21 c = Some None) ∨ (x_end21 c = None ∧ x_todo c = []);
  inv_end22 : (x_end22 c = Some None) ∨ (x_end22 c = None ∧ x_matches c = []);
  inv_errs : Forall (λ e, e = None) (x_errs c);
  inv_done : x_done c = count (x_end21 c) + count (x_end22 c) + Z.of_nat (length (x_errs c));
  inv_ctx : x_ctx c = None ∨ x_ctx c = Some cancel;
  inv_result : x_result c = None ∨ (x_result c = Some None ∧ x_done c = 0) ∨
    (x_result c = Some (Some cancel) ∧ x_ctx c = Some cancel)
}.

Ltac loop_fields :=
  cbn [x_todo x_i x_end21 x_matches x_end22 x_errs x_done x_localIDs x_intersection x_ctx x_result] in *.

Lemma loop_init_inv : loop_inv (loop_init (Z.of_nat (length ids)) ids None ms None).
Proof.
  unfold loop_init. split; loop_fields; try (by left); try (by constructor); try done.
  - exists 0%nat. rewrite Nat2Z.id, Nat.sub_0_r. split_and!; done || lia.
  - by exists [].
Qed.

(** All identifiers are in place once they have been sent. *)
Lemma all_local c : loop_inv c → x_todo c = [] → x_localIDs c = ids.
Proof.
  intros Hi E. destruct (inv_local _ Hi) as (k & _ & Hk & Ed & ->). rewrite E in Ed.
  apply (f_equal length) in Ed. rewrite length_drop in Ed. cbn [length] in Ed.
  rewrite take_ge by lia. replace (length ids - k)%nat with 0%nat by lia. by rewrite app_nil_r.
Qed.

Lemma receiverID_inv id todo i e21 m e22 errs d l inter ctx :
  d ≠ 0 → loop_inv (Loop (id :: todo) i e21 m e22 errs d l inter ctx None) →
  ∃ l', store l i id = Ok l' ∧ loop_inv (Loop todo (i + 1) e21 m e22 errs d l' inter ctx None).
Proof.
  intros Hd Hi. pose proof Hi as [(k & Ek & Hk & Ed & El) Hm H1 H2 He Hdn Hc Hr]. loop_fields. subst i l.
  assert (ids !! k = Some id) as Hid.
  { assert ((id :: todo) !! 0%nat = Some id) as E by done.
    by rewrite Ed, lookup_drop, Nat.add_0_r in E. }
  pose proof (lookup_lt_Some _ _ _ Hid) as Hlt.
  eexists. split; [apply store_Ok; rewrite length_app, length_take, length_replicate; lia|].
  rewrite Nat2Z.id. split; loop_fields; try done.
  - exists (S k). split_and!; [lia|lia| |].
    + rewrite (drop_S _ _ _ Hid) in Ed. by injection Ed.
    + rewrite insert_app_r_alt by (rewrite length_take; lia).
      rewrite length_take, Nat.min_l, Nat.sub_diag by lia.
      replace (length ids - k)%nat with (S (length ids - S k)) by lia. cbn [replicate].
      by rewrite (take_S_r _ _ _ Hid), <-app_assoc.
  - destruct H1 as [?|[_ ?]]; [by left|done].
Qed.

Lemma matchedID_inv pos m i e21 e22 errs d l inter ctx :
  loop_inv (Loop [] i e21 (pos :: m) e22 errs d l inter ctx None) →
  ∃ id, local_at p l pos = Ok id ∧ loop_inv (Loop [] i e21 m e22 errs d l (inter ++ [id]) ctx None).
Proof.
  intros Hi. pose proof (all_local _ Hi eq_refl) as El.
  destruct Hi as [Hl (seen & Em & Ef) H1 H2 He Hdn Hc Hr]. loop_fields. subst l.
  assert (fetch p ids (seen ++ pos :: m) [] = Ok out) as Hf by by rewrite <-Em.
  rewrite fetch_app, Ef in Hf. cbn [res_bind fetch] in Hf.
  destruct (local_at p ids pos) as [id| |] eqn:E; [|done..]. exists id. split; [done|].
  split; loop_fields; try done.
  - exists (seen ++ [pos]). rewrite <-app_assoc. split; [done|].
    rewrite fetch_app, Ef. cbn [res_bind fetch]. by rewrite E.
  - destruct H2 as [?|[_ ?]]; [by left|done].
Qed.

Definition loop_weight (c : intersecting) : nat :=
  length (x_todo c) + length (x_matches c) + length (x_errs c) +
  (if x_end21 c is Some _ then 2 else 0) + (if x_end22 c is Some _ then 2 else 0) +
  (if x_ctx c is Some _ then 0 else 1) + (if x_result c is Some _ then 0 else 1).

Lemma loop_step_inv c o :
  loop_step p cancel false c o → loop_inv c → ∃ c', o = Ok c' ∧ loop_inv c' ∧ (loop_weight c' < loop_weight c)%nat.
Proof.
  intros Hs Hi. destruct Hs as
    [id todo i e21 m e22 errs d l inter ctx Hd|todo pos m i e21 e22 errs d l inter ctx Hd [[=]| ->]
    |i e m e22 errs d l inter ctx r|todo i e21 e errs d l inter ctx r|todo i e21 m e22 errs d l inter ctx Hd
    |todo i e21 m e22 e errs d l inter ctx Hd|todo i e21 m e22 errs d l inter r
    |todo i e21 m e22 errs d l inter e Hd|todo i e21 m e22 errs l inter ctx].
  - destruct (receiverID_inv _ _ _ _ _ _ _ _ _ _ _ Hd Hi) as (l' & -> & Hi').
    eexists. split; [done|]. split; [done|]. unfold loop_weight. loop_fields. cbn [length]. lia.
  - destruct (matchedID_inv _ _ _ _ _ _ _ _ _ _ Hi) as (id & -> & Hi').
    eexists. split; [done|]. split; [done|]. unfold loop_weight. loop_fields. cbn [length]. lia.
  - eexists. split; [done|]. destruct Hi as [Hl Hm H1 H2 He Hdn Hc Hr]. loop_fields.
    destruct H1 as [[= ->]|[[=] _]]. split; [|unfold loop_weight; loop_fields; rewrite length_app; cbn [length]; lia].
    split; loop_fields; try done; [by right|by apply Forall_app; split; [|constructor]|].
    rewrite length_app. cbn [length count] in *. lia.
  - eexists. split; [done|]. destruct Hi as [Hl Hm H1 H2 He Hdn Hc Hr]. loop_fields.
    destruct H2 as [[= ->]|[[=] _]]. split; [|unfold loop_weight; loop_fields; rewrite length_app; cbn [length]; lia].
    split; loop_fields; try done; [by right|by apply Forall_app; split; [|constructor]|].
    rewrite length_app. cbn [length count] in *. lia.
  - eexists. split; [done|]. destruct Hi as [Hl Hm H1 H2 He Hdn Hc Hr]. loop_fields.
    apply Forall_cons in He as [_ He]. split; [|unfold loop_weight; loop_fields; cbn [length]; lia].
    split; loop_fields; try done; [|by left]. cbn [length] in Hdn. lia.
  - exfalso. pose proof (inv_errs _ Hi) as He. loop_fields. by apply Forall_cons in He as [[=] _].
  - eexists. split; [done|]. destruct Hi as [Hl Hm H1 H2 He Hdn Hc Hr]. loop_fields.
    split; [|unfold loop_weight; loop_fields; lia]. split; loop_fields; try done; [by right|].
    destruct Hr as [?|[?|[_ [=]]]]; [by left|by right; left].
  - eexists. split; [done|]. destruct Hi as [Hl Hm H1 H2 He Hdn Hc Hr]. loop_fields.
    split; [|unfold loop_weight; loop_fields; lia]. destruct Hc as [[=]|[= ->]].
    split; loop_fields; try done; [by right|]. right. by right.
  - eexists. split; [done|]. destruct Hi as [Hl Hm H1 H2 He Hdn Hc Hr]. loop_fields.
    split; [|unfold loop_weight; loop_fields; lia]. split; loop_fields; try done. right. by left.
Qed.

Lemma loop_run_inv c :
  rtc (loop_next p cancel false) (loop_init (Z.of_nat (length ids)) ids None ms None) c → loop_inv c.
Proof.
  intros Hr. pose proof loop_init_inv as Hi. induction Hr as [c|c1 c2 c3 Hs _ IH]; [done|].
  apply IH. by destruct (loop_step_inv _ _ Hs Hi) as (c' & [= <-] & Hi' & _).
Qed.

Lemma loop_sn c : loop_inv c → sn (loop_next p cancel false) c.
Proof.
  remember (loop_weight c) as w eqn:E. revert c E.
  induction w as [w IH] using lt_wf_ind. intros c -> Hi. constructor. intros c' Hs.
  destruct (loop_step_inv _ _ Hs Hi) as (c2 & [= <-] & Hi' & Hw). by eapply IH.
Qed.

(** The loop never blocks before it has returned. *)
Lemma loop_progress c : loop_inv c → x_result c = None → red (loop_quiet p cancel false) c.
Proof.
  intros Hi Hr. destruct c as [todo i e21 m e22 errs d l inter ctx r]. loop_fields. subst r.
  destruct (decide (d = 0)) as [->|Hd]; [eexists; split; [apply step_returns|done]|].
  destruct todo as [|id todo].
  - destruct e21 as [e|]; [eexists; split; [apply step_stage21_ends|done]|].
    destruct m as [|pos m].
    + destruct e22 as [e|]; [eexists; split; [apply step_stage22_ends|done]|].
      pose proof (inv_done _ Hi) as Hdn. pose proof (inv_errs _ Hi) as He. loop_fields. cbn [count] in Hdn.
      destruct errs as [|e errs]; [cbn [length] in Hdn; lia|]. apply Forall_cons in He as [-> _].
      eexists. split; [by apply step_done|done].
    + destruct (matchedID_inv _ _ _ _ _ _ _ _ _ _ Hi) as (id & E & _).
      pose proof (step_matchedID p cancel false [] pos m i None e22 errs d l inter ctx Hd (or_intror eq_refl)) as Hs. rewrite E in Hs.
      eexists. split; [exact Hs|done].
  - destruct (receiverID_inv _ _ _ _ _ _ _ _ _ _ _ Hd Hi) as (l' & E & _).
    pose proof (step_receiverID p cancel false id todo i e21 m e22 errs d l inter ctx Hd) as Hs. rewrite E in Hs.
    eexists. split; [exact Hs|done].
Qed.

(** A success has everything. *)
Lemma loop_result c : loop_inv c → x_result c = Some None → x_intersection c = out.
Proof.
  intros Hi Hr. destruct (inv_result _ Hi) as [?|[[_ Hd]|[? _]]]; [congruence| |congruence].
  pose proof (inv_done _ Hi) as Hdn. rewrite Hd in Hdn.
  destruct (inv_end22 _ Hi) as [E|[_ E]].
  { rewrite E in Hdn. destruct (x_end21 c); cbn [count] in Hdn; lia. }
  destruct (inv_matches _ Hi) as (seen & Em & Ef). rewrite E, app_nil_r in Em. subst seen. congruence.
Qed.
End Success.

(** ** Properties *)

(** C3: the main loop of the DH receiver, with a sender that answers after it has all
    the points.  Whatever the order in which it hears from its two stages, which both
    succeed: it never panics nor blocks, every run is
    finite, a success returns what the stages give one after the other, and any other
    result is the error of a cancelled context.  A stage 2.2 that fails early makes
    [Intersect] return while the goroutine of stage 2.1 stays blocked for good. *)
Theorem dhpsi_select_loop (p : Permutations) (cancel : error) ids r remote out :
  receiver_stage22 p ids r remote = Some (Ok (None, out)) →
  (∃ reader ms, NewReader r = Ok reader ∧
    matched_positions (Z.to_nat (rd_max reader)) 0 reader remote = (None, ms) ∧
    ∀ c, rtc (loop_next p cancel false) (loop_init (Z.of_nat (length ids)) ids None ms None) c →
      (∀ m, ¬ loop_step p cancel false c (Panic m)) ∧
      sn (loop_next p cancel false) c ∧
      (x_result c = None → red (loop_quiet p cancel false) c) ∧
      (x_result c = Some None → x_intersection c = out) ∧
      (∀ e, x_result c = Some (Some e) → e = cancel ∧ x_ctx c = Some cancel)) ∧
  (∀ e, ids ≠ [] → ∃ c, rtc (loop_next p cancel false) (loop_init (Z.of_nat (length ids)) ids None [] (Some e)) c ∧
    nf (loop_next p cancel false) c ∧ x_result c = Some (Some e) ∧ x_todo c = ids).
Proof.
  intros E. split.
  - unfold receiver_stage22 in E. destruct (NewReader r) as [reader| |] eqn:Er; [|done..].
    destruct (stage22_positions _ _ _ _ _ _ _ _ E) as (ms & Em & Hf).
    exists reader, ms. split; [done|]. split; [done|]. intros c Hc.
    pose proof (loop_run_inv p cancel ids ms out Hf c Hc) as Hi. split_and!.
    + intros m Hs. by destruct (loop_step_inv p cancel ids ms out Hf _ _ Hs Hi) as (c' & [=] & _).
    + by apply (loop_sn p cancel ids ms out Hf).
    + by apply (loop_progress p cancel ids ms out Hf).
    + by apply (loop_result p cancel ids ms out Hf).
    + intros e Hr. destruct (inv_result _ _ _ _ _ Hi) as [?|[[? _]|[E1 E2]]]; [congruence..|].
      rewrite E1 in Hr. injection Hr as <-. done.
  - intros e Hne. unfold loop_init.
    set (l := replicate _ _). clearbody l.
    exists (Loop ids 0 (Some None) [] None [] 2 l [] (Some cancel) (Some (Some e))). split_and!; try done.
    + eapply rtc_l; [apply step_stage22_ends|]. eapply rtc_l; [by apply step_error|].
      eapply rtc_l; [apply step_cancelled|]. apply rtc_refl.
    + intros [c' Hs]. unfold loop_next in Hs. by inversion Hs; subst.
Qed.

(** One identifier, which the sender holds. *)
Definition sample_point : list Z := replicate 32 7.
Definition sample_source : source :=
  {| chunks := [be_put 8 1; sample_point]; final := EOF |}.

Lemma dhpsi_select_loop_witness :
  ∃ ms, ms = [0] ∧
    red (loop_quiet (Build_Permutations Some) EOF false) (loop_init 1 [[5]] None ms None).
Proof.
  destruct (dhpsi_select_loop (Build_Permutations Some) EOF [[5]] sample_source {[sample_point]} [[5]])
    as [(reader & ms & Er & Em & Hall) _].
  - by vm_compute.
  - exists ms. split.
    + vm_compute in Er. injection Er as <-. vm_compute in Em. congruence.
    + exact (proj1 (proj2 (proj2 (Hall _ (rtc_refl _ _)))) eq_refl).
Defined.
