(* ===== verification/DhpsiHostile.v ===== *)
(** * [pkg/dhpsi]: a peer that does not follow the protocol

    What the parallel reader and the receiver do with counts and points that no
    honest peer sends, or that come too early. *)
From stdpp Require Import relations.
From S2P Require Import Prelude Words Permutations IO Dhpsi DhpsiParallel Fill DhpsiProtocol DhpsiLoop.

(** ** The parallel reader on a negative count *)
Lemma totalBatches_neg n :
  n < 0 → if decide (-512 < n) then totalBatches n = 1 else totalBatches n ≤ 0.
Proof.
  intros Hn. unfold totalBatches, batchSize.
  assert (Z.quot n 512 * 512 + Z.rem n 512 = n) as E by (pose proof (Z.quot_rem n 512); lia).
  pose proof (Z.rem_bound_pos_neg n 512 ltac:(lia) ltac:(lia)) as Hb.
  generalize dependent (Z.rem n 512). generalize dependent (Z.quot n 512). intros q r E Hb.
  cbn zeta. destruct (Z.eqb_spec r 0); case_decide; lia.
Qed.

(** The first step of a reader told one batch of a negative size. *)
Lemma fill_first_step workers gr r o :
  rd_max r - rd_seq r < 0 → fill_step workers gr 1 (fill_init 1 r) o →
  o = Crashed "makeslice: len out of range".
Proof.
  intros Hneg Hstep.
  assert (batch_size r < 0) as Hb by (unfold batch_size; rewrite min_spec; unfold batchSize; lia).
  inversion Hstep as [| | | | | | | |? ? ? ? ? ? ? ? ? ? ? ? ? k Hk| | | | | |];
    subst; try lia; try (by rewrite lookup_empty in *); try done.
  by destruct Hk as [->|[->|[j ->]]].
Qed.

(** ** The main loop of stage 2.2 on any points *)
Section Stage22.
Context (p : Permutations) (n : Z) `{!Permutes p n} (ids : list (list Z)).
Hypothesis ids_n : n = Z.of_nat (length ids).

Definition id_at (i : Z) : list Z := ids !!! Z.to_nat (order p i).

(** Matches at distinct positions are a part of the receiver's own set. *)
Lemma id_at_submseteq js :
  NoDup js → Forall (λ j, 0 ≤ j < n) js → id_at <$> js ⊆+ ids.
Proof.
  intros Hnd Hjs. destruct (sent_points_list p n ids (eq_sym ids_n)) as (_ & _ & _ & _ & E).
  rewrite <-E. unfold sent_points. apply fmap_submseteq, NoDup_submseteq; [done|].
  intros j Hj. apply elem_of_seqZ. rewrite Forall_forall in Hjs. specialize (Hjs j Hj). lia.
Qed.

Lemma stage22_loop_any k i reader remote js :
  0 ≤ i → i + Z.of_nat k ≤ n → NoDup js → Forall (λ j, 0 ≤ j < i) js →
  ∃ e js', stage22_loop p ids k i reader remote (id_at <$> js) = Some (Ok (e, id_at <$> js')) ∧
    NoDup js' ∧ Forall (λ j, 0 ≤ j < n) js' ∧ (length js' ≤ length js + size remote)%nat.
Proof.
  revert i reader remote js. induction k as [|k IH]; intros i reader remote js Hi Hk Hnd Hjs;
    cbn [stage22_loop].
  { exists None, js. split_and!; [done|done| |lia]. eapply Forall_impl; [exact Hjs|]. intros j Hj; cbn in Hj. lia. }
  assert (Forall (λ j, 0 ≤ j < i + 1) js) as Hjs'
    by (eapply Forall_impl; [exact Hjs|]; intros j Hj; cbn in Hj; lia).
  destruct (Reader_Read reader zero_point) as [[[e|] pt] reader'].
  { exists (Some (ErrMsg "stage2.2")), js. split_and!; [done|done| |lia].
    eapply Forall_impl; [exact Hjs|]. intros j Hj; cbn in Hj. lia. }
  case_decide as Hin; [|apply IH; [lia|lia|done|done]].
  destruct (order_Some p n i ltac:(lia)) as [-> Hr]. cbn [mbind option_bind].
  assert (index ids (order p i) = Ok (id_at i)) as ->.
  { apply index_Ok. split; [lia|]. apply list_lookup_lookup_total_lt. lia. }
  change [id_at i] with (id_at <$> [i]). rewrite <-fmap_app.
  destruct (IH (i + 1) reader' (remote ∖ {[pt]}) (js ++ [i])) as (e & js' & E & Hnd' & Hr' & Hl).
  - lia.
  - lia.
  - apply NoDup_app. split_and!; [done| |apply NoDup_singleton].
    intros j Hj ->%list_elem_of_singleton. rewrite Forall_forall in Hjs. specialize (Hjs _ Hj). lia.
  - apply Forall_app. split; [done|]. apply Forall_singleton. lia.
  - exists e, js'. split_and!; [done..|].
    assert (size (remote ∖ {[pt]}) < size remote)%nat as Hsz.
    { apply subset_size. set_solver. }
    rewrite length_app in Hl. cbn [length] in Hl. lia.
Qed.
End Stage22.

(** ** The loop of a receiver whose sender does not wait *)

(** A position may come at any moment, also before stage 2.1 has stored its permutation
    in the variable the loop reads ([false]: still nil).  Until then stage 2.1 sends
    nothing, and ends only with an error, that of its writer. *)
Section Eager.
Context (p : Permutations) (cancel : error).

Inductive eager_step : bool * intersecting → res (bool * intersecting) → Prop :=
| eager_ready c : x_end21 c ≠ None → eager_step (false, c) (Ok (true, c))
| eager_loop c o : loop_step p cancel true c o → eager_step (true, c) (res_map (pair true) o)
| eager_unready c c' :
    loop_step p cancel true c (Ok c') →
    x_todo c' = x_todo c → x_matches c' = x_matches c →
    (x_end21 c' = x_end21 c ∨ ∃ e, x_end21 c = Some (Some e)) →
    eager_step (false, c) (Ok (false, c'))
| eager_nil pos ids i e21 ms e22 errs d l inter ctx :
    d ≠ 0 →
    eager_step (false, Loop ids i e21 (pos :: ms) e22 errs d l inter ctx None)
      (Panic "invalid memory address or nil pointer dereference").

Definition eager_next (s s' : bool * intersecting) : Prop := eager_step s (Ok s').

Definition eager_weight (s : bool * intersecting) : nat :=
  loop_weight s.2 + (if s.1 then 0 else 1).

Lemma loop_step_weight c c' : loop_step p cancel true c (Ok c') → (loop_weight c' < loop_weight c)%nat.
Proof.
  unfold loop_weight. intros Hs. remember (Ok c') as o eqn:E.
  destruct Hs; [destruct (store _ _ _)|destruct (local_at _ _ _)|..]; cbn [res_bind] in E; simplify_eq;
    cbn [x_todo x_end21 x_matches x_end22 x_errs x_ctx x_result]; rewrite ?length_app; cbn [length]; lia.
Qed.

Lemma eager_step_weight s s' : eager_next s s' → (eager_weight s' < eager_weight s)%nat.
Proof.
  unfold eager_next, eager_weight. intros Hs. remember (Ok s') as o eqn:E.
  destruct Hs as [c _|c o Hs|c c' Hs|]; simplify_eq; cbn [fst snd]; try lia.
  - destruct o as [c'| |]; cbn in E; simplify_eq. cbn. apply loop_step_weight in Hs. lia.
  - apply loop_step_weight in Hs. lia.
Qed.

Lemma eager_sn s : sn eager_next s.
Proof.
  remember (eager_weight s) as w eqn:E. revert s E.
  induction w as [w IH] using lt_wf_ind. intros s ->. constructor. intros s' Hs.
  apply (IH (eager_weight s')); [by apply eager_step_weight|done].
Qed.

(** [given]: the identifiers that stage 2.1 sends, all of them if it does not fail. *)
Context (n : Z) `{!Permutes p n} (ids given : list (list Z)) (ms : list Z).
Hypothesis ids_n : n = Z.of_nat (length ids).
Hypothesis given_ids : given `prefix_of` ids.
Hypothesis ms_range : Forall (λ j, 0 ≤ j < n) ms.

(** What a position can stand for: its identifier, or one that is not there yet. *)
Definition fetched (pos : Z) (x : list Z) : Prop := x = id_at p ids pos ∨ x = [].

Record eager_inv (c : intersecting) : Prop := {
  ei_local : ∃ k, x_i c = Z.of_nat k ∧ (k ≤ length given)%nat ∧ x_todo c = drop k given ∧
    x_localIDs c = take k ids ++ replicate (length ids - k) [];
  ei_todo : x_end21 c = None → x_todo c = [];
  ei_matches : ∃ seen, ms = seen ++ x_matches c ∧ Forall2 fetched seen (x_intersection c);
  ei_done : x_result c = None →
    x_done c = count (x_end21 c) + count (x_end22 c) + Z.of_nat (length (x_errs c))
}.

Ltac fields :=
  cbn [x_todo x_i x_end21 x_matches x_end22 x_errs x_done x_localIDs x_intersection x_ctx x_result] in *.

Lemma length_given : (length given ≤ length ids)%nat.
Proof. by apply prefix_length. Qed.

Lemma eager_init_inv e21 e22 : eager_inv (loop_init n given e21 ms e22).
Proof.
  unfold loop_init. split; fields; [|done|by exists []|done].
  exists 0%nat. subst n. rewrite Nat2Z.id, Nat.sub_0_r. split_and!; done || lia.
Qed.

Lemma eager_local l k pos :
  l = take k ids ++ replicate (length ids - k) [] → (k ≤ length ids)%nat → 0 ≤ pos < n →
  ∃ x, local_at p l pos = Ok x ∧ fetched pos x.
Proof.
  intros -> Hk Hpos. destruct (order_Some p n pos Hpos) as [E Hr]. unfold local_at. rewrite E.
  unfold fetched, id_at. set (j := order p pos) in *. clearbody j.
  destruct (decide (Z.to_nat j < k)%nat) as [Hj|Hj].
  - exists (ids !!! Z.to_nat j). split; [|by left]. apply index_Ok. split; [lia|].
    rewrite lookup_app_l by (rewrite length_take; lia). rewrite lookup_take_lt by lia.
    apply list_lookup_lookup_total_lt. lia.
  - exists []. split; [|by right]. apply index_Ok. split; [lia|].
    rewrite lookup_app_r by (rewrite length_take; lia). apply lookup_replicate.
    rewrite length_take. split; [done|lia].
Qed.

Lemma eager_match_inv pos todo i e21 m e22 errs d l inter ctx :
  eager_inv (Loop todo i e21 (pos :: m) e22 errs d l inter ctx None) →
  ∃ id, local_at p l pos = Ok id ∧
    eager_inv (Loop todo i e21 m e22 errs d l (inter ++ [id]) ctx None).
Proof.
  intros [(k & Ei & Hk & Et & El) He (seen & Em & Hf) Hd]. fields. pose proof length_given.
  assert (0 ≤ pos < n) as Hpos by (rewrite Forall_forall in ms_range; apply ms_range; set_solver).
  destruct (eager_local l k pos El ltac:(lia) Hpos) as (x & E & Hx). exists x. split; [done|].
  split; fields; [by exists k|done| |done]. exists (seen ++ [pos]). rewrite <-app_assoc. split; [done|].
  apply Forall2_app; [done|]. constructor; [done|constructor].
Qed.

Lemma eager_receiver_inv id todo i e21 m e22 errs d l inter ctx :
  eager_inv (Loop (id :: todo) i e21 m e22 errs d l inter ctx None) →
  ∃ l', store l i id = Ok l' ∧ eager_inv (Loop todo (i + 1) e21 m e22 errs d l' inter ctx None).
Proof.
  intros [(k & Ei & Hk & Et & El) He Hm Hd]. fields. subst i l.
  assert (given !! k = Some id) as Hgid.
  { assert ((id :: todo) !! 0%nat = Some id) as E by done.
    by rewrite Et, lookup_drop, Nat.add_0_r in E. }
  pose proof (lookup_lt_Some _ _ _ Hgid) as Hglt. pose proof length_given.
  pose proof (prefix_lookup_Some _ _ _ _ Hgid given_ids) as Hid.
  eexists. split; [apply store_Ok; rewrite length_app, length_take, length_replicate; lia|].
  rewrite Nat2Z.id. split; fields; [|intros E; by specialize (He E)|done..].
  exists (S k). split_and!; [lia|lia| |].
  - rewrite (drop_S _ _ _ Hgid) in Et. by injection Et.
  - rewrite insert_app_r_alt by (rewrite length_take; lia).
    rewrite length_take, Nat.min_l, Nat.sub_diag by lia.
    replace (length ids - k)%nat with (S (length ids - S k)) by lia. cbn [replicate].
    by rewrite (take_S_r _ _ _ Hid), <-app_assoc.
Qed.

Lemma eager_loop_inv c o :
  loop_step p cancel true c o → eager_inv c → ∃ c', o = Ok c' ∧ eager_inv c'.
Proof.
  intros Hs Hi. destruct Hs.
  1: { destruct (eager_receiver_inv _ _ _ _ _ _ _ _ _ _ _ Hi) as (l' & -> & Hi'). by eexists. }
  1: { destruct (eager_match_inv _ _ _ _ _ _ _ _ _ _ _ Hi) as (x & -> & Hi'). by eexists. }
  all: eexists; split; [done|]; destruct Hi as [Hl He Hm Hd]; split; fields; try done;
    intros Hr; try discriminate Hr; specialize (Hd Hr); rewrite ?length_app; cbn [length count] in *; lia.
Qed.

(** The only panic is that of a position that comes before the permutation. *)
Lemma eager_step_inv s o :
  eager_step s o → eager_inv s.2 →
  (∃ s', o = Ok s' ∧ eager_inv s'.2) ∨
  (s.1 = false ∧ o = Panic "invalid memory address or nil pointer dereference").
Proof.
  intros Hs Hi. destruct Hs as [c _|c o Hs|c c' Hs|]; cbn [fst snd] in *.
  - left. by eexists.
  - left. destruct (eager_loop_inv c o Hs Hi) as (c' & -> & Hi'). by eexists.
  - left. destruct (eager_loop_inv c _ Hs Hi) as (c2 & [= <-] & Hi'). by eexists.
  - by right.
Qed.

Lemma eager_run_inv e21 e22 s :
  rtc eager_next (false, loop_init n given e21 ms e22) s → eager_inv s.2.
Proof.
  intros Hr. assert (eager_inv (false, loop_init n given e21 ms e22).2) as Hi by apply eager_init_inv.
  induction Hr as [s|s1 s2 s3 Hs _ IH]; [done|]. apply IH.
  by destruct (eager_step_inv _ _ Hs Hi) as [(s' & [= <-] & Hi')|[_ [=]]].
Qed.

(** The loop never blocks before it has returned, whatever the context does. *)
Lemma eager_progress_ready c :
  eager_inv c → x_result c = None →
  ∃ o, eager_step (true, c) o ∧ ∀ s', o = Ok s' → x_ctx s'.2 = x_ctx c.
Proof.
  intros Hi Hr. destruct c as [todo i e21 m e22 errs d l inter ctx r].
  pose proof (ei_done _ Hi) as Hd. fields. subst r. specialize (Hd eq_refl).
  destruct (decide (d = 0)) as [->|Hne].
  { eexists. split; [apply eager_loop, step_returns|]. by intros s' [= <-]. }
  destruct m as [|pos m].
  2: { eexists. split; [by apply eager_loop, step_matchedID; [|left]|].
       intros s'. destruct (local_at p l pos); cbn [res_bind res_map]; [by intros [= <-]|done..]. }
  destruct todo as [|id todo].
  2: { eexists. split; [by apply eager_loop, step_receiverID|].
       intros s'. destruct (store l i id); cbn; [by intros [= <-]|done..]. }
  destruct e21 as [e|]; [eexists; split; [by apply eager_loop, step_stage21_ends|by intros s' [= <-]]|].
  destruct e22 as [e|]; [eexists; split; [by apply eager_loop, step_stage22_ends|by intros s' [= <-]]|].
  destruct errs as [|[e|] errs]; [cbn [length count] in Hd; lia|..]; eexists;
    (split; [apply eager_loop; by first [apply step_error|apply step_done]|by intros s' [= <-]]).
Qed.

(** Without a permutation: stage 2.1 is still there to store it, or has failed. *)
Lemma eager_progress_nil c :
  eager_inv c → x_result c = None →
  ∃ o, eager_step (false, c) o ∧ ∀ s', o = Ok s' → x_ctx s'.2 = x_ctx c.
Proof.
  intros Hi Hr. destruct (x_end21 c) as [e|] eqn:E21.
  { eexists. split; [apply eager_ready; by rewrite E21|]. by intros s' [= <-]. }
  pose proof (ei_todo _ Hi E21) as Et. destruct c as [todo i e21 m e22 errs d l inter ctx r].
  pose proof (ei_done _ Hi) as Hd. fields. subst r e21 todo. specialize (Hd eq_refl).
  destruct (decide (d = 0)) as [->|Hne].
  { eexists. split; [eapply eager_unready; [apply step_returns|done|done|by left]|]. by intros s' [= <-]. }
  destruct m as [|pos m].
  2: { eexists. split; [by apply eager_nil|done]. }
  destruct e22 as [e|].
  { eexists. split; [eapply eager_unready; [by apply step_stage22_ends|done|done|by left]|by intros s' [= <-]]. }
  destruct errs as [|[e|] errs]; [cbn [length count] in Hd; lia|..]; eexists;
    (split; [eapply eager_unready; [by first [apply step_error|apply step_done]|done|done|by left]
            |by intros s' [= <-]]).
Qed.

Lemma eager_progress s :
  eager_inv s.2 → x_result s.2 = None →
  ∃ o, eager_step s o ∧ ∀ s', o = Ok s' → x_ctx s'.2 = x_ctx s.2.
Proof. destruct s as [[|] c]; [apply eager_progress_ready|apply eager_progress_nil]. Qed.

(** What has been reported: identifiers at distinct positions, and empty ones. *)
Lemma fetched_split seen inter :
  Forall2 fetched seen inter →
  ∃ js k, inter ≡ₚ (id_at p ids <$> js) ++ replicate k [] ∧ js ⊆+ seen ∧ (length js + k = length seen)%nat.
Proof.
  induction 1 as [|pos x seen inter Hx _ (js & k & E & Hsub & Hl)]; [by exists [], 0%nat|].
  destruct Hx as [->| ->].
  - exists (pos :: js), k. split_and!; [cbn; by rewrite E|by apply submseteq_skip|cbn [length]; lia].
  - exists js, (S k). split_and!; [cbn [replicate]; rewrite E; apply Permutation_middle
      |by apply submseteq_cons|cbn [length]; lia].
Qed.
End Eager.

(** The positions of stage 2.2 on any connection. *)
Lemma matched_positions_any k i reader remote :
  let '(_, ms) := matched_positions k i reader remote in
  Forall (λ j, i ≤ j < i + Z.of_nat k) ms ∧ NoDup ms ∧ (length ms ≤ size remote)%nat.
Proof.
  revert i reader remote. induction k as [|k IH]; intros i reader remote; cbn [matched_positions].
  { split_and!; [constructor|constructor|cbn; lia]. }
  destruct (Reader_Read reader zero_point) as [[[e|] pt] reader'];
    [split_and!; [constructor|constructor|cbn; lia]|].
  case_decide as Hin.
  - specialize (IH (i + 1) reader' (remote ∖ {[pt]})).
    destruct (matched_positions k (i + 1) reader' _) as [e ms]. destruct IH as (Hr & Hnd & Hl).
    assert (size (remote ∖ {[pt]}) < size remote)%nat as Hsz by (apply subset_size; set_solver).
    split_and!; [| |cbn [length]; lia].
    + constructor; [lia|]. eapply Forall_impl; [exact Hr|]. intros j Hj. cbn in Hj. lia.
    + constructor; [|done]. intros Hi. rewrite Forall_forall in Hr. specialize (Hr _ Hi). lia.
  - specialize (IH (i + 1) reader' remote).
    destruct (matched_positions k (i + 1) reader' remote) as [e ms]. destruct IH as (Hr & Hnd & Hl).
    split_and!; [|done|done]. eapply Forall_impl; [exact Hr|]. intros j Hj. cbn in Hj. lia.
Qed.

(** ** More points than were sent *)

(** The first match after points that match nothing: what the main loop does at
    position [length pre]. *)
Lemma stage22_loop_match p ids pre q qs i s max remote inter :
  points_ok (pre ++ q :: qs) → Forall (.∉ remote) pre → q ∈ remote →
  i + Z.of_nat (length pre) < max → aligned s → pending s = concat (pre ++ q :: qs) →
  ∃ s', stage22_loop p ids (length (pre ++ q :: qs)) i {| rd_r := s; rd_seq := i; rd_max := max |}
      remote inter =
    pos ← Permutations.Shuffle p (i + Z.of_nat (length pre));
    match index ids pos with
    | Ok id => stage22_loop p ids (length qs) (i + Z.of_nat (length pre) + 1)
                 {| rd_r := s'; rd_seq := i + Z.of_nat (length pre) + 1; rd_max := max |}
                 (remote ∖ {[q]}) (inter ++ [id])
    | Err e => Some (Err e)
    | Panic m => Some (Panic m)
    end.
Proof.
  revert i s. induction pre as [|x pre IH]; intros i s Hok Hpre Hq Hm Hal Hp;
    cbn [app length stage22_loop] in *; unfold Reader_Read; cbn [rd_r rd_seq rd_max];
    (destruct (Z.eqb_spec i max); [lia|]);
    destruct (Read_aligned s _ _ Hal Hok Hp) as (s1 & -> & Hal1 & Hp1 & _);
    apply Forall_cons in Hok as [Hl Hok]; rewrite put_at_point by done.
  - rewrite decide_True by done. exists s1. by rewrite Z.add_0_r.
  - apply Forall_cons in Hpre as [Hx Hpre]. rewrite decide_False by done.
    destruct (IH (i + 1) s1) as (s' & ->); [done..|lia|done|done|]. exists s'.
    by replace (i + 1 + Z.of_nat (length pre)) with (i + Z.of_nat (S (length pre))) by lia.
Qed.

(** ** Properties *)

(** C38: a negative count, which any peer can announce in the first eight bytes: above
    [-512] the reader's first step allocates a batch of that size and the panic ends
    the program; at [-512] and below no batch is ever delivered, nothing crashes and
    the output is never closed.  In both cases no caller ever gets a point or an end
    of the sequence. *)
Theorem dhpsi_negative_count `{R255Lib} workers gr r n rest :
  - 2 ^ 63 ≤ n < 0 → pending r = be_put 8 n ++ rest →
  ∃ rd, NewReader r = Ok rd ∧ rd_max rd = n ∧
    let total := totalBatches n in
    (¬ ∃ dec, NewMultiplyParallelReader workers gr r dec) ∧
    if decide (-512 < n) then
      (∃ m, fill_step workers gr total (fill_init total rd) (Crashed m)) ∧
      ∀ o, fill_step workers gr total (fill_init total rd) o → o = Crashed "makeslice: len out of range"
    else
      ∀ o, fill_reach workers gr total (fill_init total rd) o →
        ∃ s, o = Running s ∧ f_out s = [] ∧ f_ordering s = AtRange ∧
          ∀ o', fill_step workers gr total s o' → f_reading s = true.
Proof.
  intros Hn Hp. destruct (binary_int64_roundtrip r n rest) as (s & E & _); [lia|done|].
  exists {| rd_r := s; rd_seq := 0; rd_max := n |}.
  assert (NewReader r = Ok {| rd_r := s; rd_seq := 0; rd_max := n |}) as Er
    by (unfold NewReader; by rewrite E).
  split; [done|]. split; [done|]. intros total. pose proof (totalBatches_neg n ltac:(lia)) as Ht.
  fold total in Ht. set (rd := {| rd_r := s; rd_seq := 0; rd_max := n |}) in *.
  case_decide.
  - rewrite Ht. split; [|split].
    + intros (dec & rd' & st & Er' & _ & _ & Hreach & _ & Hend). rewrite Er in Er'. injection Er' as <-.
      change (rd_max rd) with n in *. fold total in Hreach. rewrite Ht in Hreach.
      assert (∀ o, fill_reach workers gr 1 (fill_init 1 rd) o →
        o = Running (fill_init 1 rd) ∨ ∃ m, o = Crashed m) as Hall.
      { induction 1 as [|s1 o _ [[= ->]|[m [=]]] Hs]; [by left|]. right. eexists.
        eapply fill_first_step; [|exact Hs]. cbn [rd_max rd_seq rd]. lia. }
      destruct (Hall _ Hreach) as [[= ->]|[m [=]]]. cbn [f_ordering f_out fill_init length] in Hend.
      destruct Hend; [done|lia].
    + eexists. apply step_make_panics; [lia|]. unfold batch_size. cbn [rd_max rd_seq rd].
      rewrite min_spec. unfold batchSize. lia.
    + intros o. apply fill_first_step. cbn [rd_max rd_seq rd]. lia.
  - split.
    + intros (dec & rd' & st & Er' & _ & _ & Hreach & _ & Hend). rewrite Er in Er'. injection Er' as <-.
      change (rd_max rd) with n in *. apply fill_empty in Hreach as [b [= ->]]; [|done].
      cbn [f_ordering f_out length] in Hend. destruct Hend; [done|lia].
    + intros o Hreach. apply fill_empty in Hreach as [b ->]; [|done].
      eexists. split; [done|]. split; [done|]. split; [done|]. intros o' Hs. destruct b; [done|].
      inversion Hs as [| | | | | | | |? ? ? ? ? ? ? ? ? ? ? ? ? k Hk| | | | | |]; subst;
        try (by rewrite lookup_empty in *).
      by destruct Hk as [->|[->|[j ->]]].
Qed.

Lemma dhpsi_negative_count_witness :
  let r n := {| chunks := [be_put 8 n]; final := EOF |} in
  (∃ rd, NewReader (r (-1)) = Ok rd ∧ ∃ m, fill_step 2 (@R255 toy_R255 3) 1 (fill_init 1 rd) (Crashed m)) ∧
  ¬ ∃ dec, @NewMultiplyParallelReader toy_R255 2 (@R255 toy_R255 3) (r (-600)) dec.
Proof.
  intros r. split.
  - destruct (@dhpsi_negative_count toy_R255 2 (@R255 toy_R255 3) (r (-1)) (-1) [] ltac:(lia)
      ltac:(done)) as (rd & E & _ & _ & Hs & _). by exists rd.
  - destruct (@dhpsi_negative_count toy_R255 2 (@R255 toy_R255 3) (r (-600)) (-600) [] ltac:(lia)
      ltac:(done)) as (rd & E & _ & Hno & _). exact Hno.
Defined.

(** Stages 2.1 and 2.2 one after the other, as a sender makes them that answers after it
    has all the points: whatever it returns, as long as its count is no more than the
    receiver's, each identifier is reported at most once. *)
Theorem stage22_hostile p n ids r remote :
  Permutes p n → n = Z.of_nat (length ids) →
  (∀ reader, NewReader r = Ok reader → rd_max reader ≤ n) →
  (∃ e, receiver_stage22 p ids r remote = Some (Err e)) ∨
  ∃ e out, receiver_stage22 p ids r remote = Some (Ok (e, out)) ∧
    out ⊆+ ids ∧ (length out ≤ size remote)%nat.
Proof.
  intros Hp Hn Hle. unfold receiver_stage22.
  destruct (NewReader r) as [reader|e|m] eqn:Er.
  - right. specialize (Hle reader eq_refl).
    destruct (stage22_loop_any p n ids Hn (Z.to_nat (rd_max reader)) 0 reader remote [])
      as (e & js & E & Hnd & Hjs & Hl); [lia|lia|constructor|done|].
    exists e, (id_at p ids <$> js). split; [exact E|]. split; [by apply (id_at_submseteq p n)|].
    rewrite length_fmap. cbn [length] in Hl. lia.
  - left. by eexists.
  - exfalso. unfold NewReader, binary_Read_int64 in Er.
    destruct (ReadFull r 8) as [[bs [e|]] r']; discriminate Er.
Qed.

(** C9: the receiver against a sender that returns anything at any time: as long as the
    count of stage 2.2 is no more than its own, whatever bytes follow, however the
    connection fails and whatever part of the identifiers stage 2.1 gives before it ends,
    with or without an error, the main loop ends in every interleaving and never blocks;
    what it reports is identifiers of the receiver, each at most once, and empty ones,
    together no more than the points indexed in stage 1; and it panics only when a
    position comes while no permutation is stored.  A sender that knows the multiple of a
    point and does not wait can cause that panic, and can have an empty identifier
    reported. *)
Theorem dhpsi_hostile_sender p cancel n ids reader remote :
  Permutes p n → n = Z.of_nat (length ids) → rd_max reader ≤ n →
  let '(e, ms) := matched_positions (Z.to_nat (rd_max reader)) 0 reader remote in
  (∀ given e21 s, given `prefix_of` ids →
    rtc (eager_next p cancel) (false, loop_init n given e21 ms e) s →
    sn (eager_next p cancel) s ∧
    (x_result s.2 = None →
      ∃ o, eager_step p cancel s o ∧ ∀ s', o = Ok s' → x_ctx s'.2 = x_ctx s.2) ∧
    (∀ m, eager_step p cancel s (Panic m) → s.1 = false) ∧
    ∃ real k, x_intersection s.2 ≡ₚ real ++ replicate k [] ∧ real ⊆+ ids ∧
      (length real + k ≤ size remote)%nat) ∧
  (ms ≠ [] →
    let s0 := (false, loop_init n ids None ms e) in
    eager_step p cancel s0 (Panic "invalid memory address or nil pointer dereference") ∧
    ∃ s, rtc (eager_next p cancel) s0 s ∧ x_intersection s.2 = [[]]).
Proof.
  intros Hp Hn Hle. pose proof (matched_positions_any (Z.to_nat (rd_max reader)) 0 reader remote) as Hms.
  destruct (matched_positions _ 0 reader remote) as [e ms]. destruct Hms as (Hr & Hnd & Hl).
  assert (Forall (λ j, 0 ≤ j < n) ms) as Hrange
    by (eapply Forall_impl; [exact Hr|]; intros j Hj; cbn in Hj; lia).
  split.
  - intros given e21 s Hg Hs.
    pose proof (eager_run_inv p cancel n ids given ms Hn Hg Hrange e21 e s Hs) as Hi.
    split; [apply eager_sn|]. split; [by apply (eager_progress p cancel ids given ms)|]. split.
    + intros m Hm.
      by destruct (eager_step_inv p cancel n ids given ms Hn Hg Hrange _ _ Hm Hi) as [(s' & [=] & _)|[? _]].
    + destruct (ei_matches _ _ _ _ _ Hi) as (seen & Em & Hf).
      destruct (fetched_split p ids seen _ Hf) as (js & k & E & Hsub & Hk).
      exists (id_at p ids <$> js), k. split; [done|].
      assert (js ⊆+ ms) as (rest & Hjs)%submseteq_Permutation by (rewrite Em; by apply submseteq_inserts_r).
      split; [|rewrite length_fmap; rewrite Em, length_app in Hl; lia].
      rewrite Hjs in Hnd, Hrange. apply NoDup_app in Hnd as [Hnd _]. apply Forall_app in Hrange as [Hjr _].
      by apply (id_at_submseteq p n ids Hn).
  - intros Hne. destruct ms as [|pos ms]; [done|]. split; [by apply eager_nil|].
    apply Forall_cons in Hrange as [Hpos _]. unfold loop_init.
    destruct (order_Some p n pos Hpos) as [E Hj].
    eexists. split; [eapply rtc_l; [by apply eager_ready|]; eapply rtc_once; unfold eager_next|].
    + pose proof (step_matchedID p cancel true ids pos ms 0 (Some None) (Some e) [] 2
        (replicate (Z.to_nat n) []) [] None ltac:(done) (or_introl eq_refl)) as Hs.
      assert (local_at p (replicate (Z.to_nat n) []) pos = Ok []) as Hl0.
      { unfold local_at. rewrite E. apply index_Ok. split; [lia|]. apply lookup_replicate. split; [done|lia]. }
      rewrite Hl0 in Hs. exact (eager_loop p cancel _ _ Hs).
    + done.
Qed.

Lemma dhpsi_hostile_sender_witness :
  let pt := replicate 32 7 in
  let reader := {| rd_r := {| chunks := [pt; pt]; final := EOF |}; rd_seq := 0; rd_max := 2 |} in
  matched_positions 2 0 reader {[pt]} = (None, [0]) ∧
  let s0 := (false, loop_init 2 [[5]; [6]] None [0] None) in
  ∃ s, rtc (eager_next null_permutations EOF) s0 s ∧ x_intersection s.2 = [[]] ∧
    sn (eager_next null_permutations EOF) s.
Proof.
  intros pt reader. assert (matched_positions 2 0 reader {[pt]} = (None, [0])) as E by (by vm_compute).
  split; [exact E|].
  pose proof (dhpsi_hostile_sender null_permutations EOF 2 [[5]; [6]] reader {[pt]} (null_permutes 2)
    eq_refl ltac:(cbn; lia)) as H. change (Z.to_nat (rd_max reader)) with 2%nat in H. rewrite E in H.
  destruct H as [Hall Hex]. destruct (Hex ltac:(done)) as (_ & s & Hs & Ei).
  exists s. split; [exact Hs|]. split; [exact Ei|].
  exact (proj1 (Hall [[5]; [6]] None s (reflexivity _) Hs)).
Defined.

(** The position of the only match in a list without repetitions. *)
Lemma filter_one (x : list Z) qs i s :
  NoDup qs → qs !! i = Some x →
  filter (λ jq : Z * list Z, jq.2 ∈ ({[x]} : gset (list Z))) (zip (seqZ s (Z.of_nat (length qs))) qs)
    = [(s + Z.of_nat i, x)].
Proof.
  revert i s. induction qs as [|q qs IH]; intros i s Hnd Hi; [done|].
  apply NoDup_cons in Hnd as [Hq Hnd]. cbn [length]. rewrite seqZ_cons by lia.
  replace (Z.pred (Z.of_nat (S (length qs)))) with (Z.of_nat (length qs)) by lia.
  cbn [zip zip_with]. rewrite filter_cons. cbn [snd]. destruct i as [|i]; cbn [lookup list_lookup] in Hi.
  - injection Hi as ->. rewrite decide_True by set_solver. rewrite Z.add_0_r. f_equal.
    apply elem_of_nil_inv. intros [j y] [Hy Hz%elem_of_zip_r]%list_elem_of_filter. cbn [snd] in *. set_solver.
  - apply list_elem_of_lookup_2 in Hi as Hin. rewrite decide_False by set_solver.
    rewrite (IH i) by done. do 2 f_equal. lia.
Qed.

(** C37: a sender that knows no identifier gets one of the receiver's reported: in stage
    1 it sends one encoding that does not decode, or decodes to the identity, whose
    multiple by any key is the identity since the error of [Decode] is dropped; in stage
    2 it returns the identity at a position of its choice among other points. *)
Theorem dhpsi_forged_match `{R255Laws} (b : Scalar) workers p n ids bad r1 dec r3 qs i :
  ScalarMult b NewElement = NewElement → default NewElement (Decode bad) = NewElement →
  length bad = EncodedLen → (0 < workers)%nat →
  delivers (message 1 [bad]) r1 → NewMultiplyParallelReader workers (R255 b) r1 dec →
  Permutes p n → n = Z.of_nat (length ids) → n < 2 ^ 63 →
  Z.of_nat (length qs) = n → points_ok qs → NoDup qs → qs !! i = Some (Encode NewElement) →
  delivers (message n qs) r3 →
  ∃ remote, receiver_stage1 dec = (None, remote) ∧
    receiver_stage22 p ids r3 remote = Some (Ok (None, [ids !!! Z.to_nat (order p (Z.of_nat i))])).
Proof.
  intros Hk Hbad Hlen Hw Hd1 Hr1 Hp Hn Hlt Hl Hok Hnd Hi Hd3.
  apply (fill_out workers (R255 b) r1 dec 1 [bad]) in Hr1 as ->; [|done..|by constructor|exact Hd1].
  assert (Multiply (R255 b) bad = Encode NewElement) as E.
  { cbn [Multiply R255]. unfold R255_Multiply. rewrite Hbad, Hk. apply copy_point_id, Encode_length. }
  cbn [fmap list_fmap]. rewrite E. exists {[Encode NewElement]}. split.
  - unfold receiver_stage1. cbn [mr_max].
    rewrite (index_remote_spec [Encode NewElement] 1 0 ∅) by done. f_equal. apply leibniz_equiv.
    cbn [list_to_set foldr]. set_solver.
  - unfold receiver_stage22. destruct (NewReader_delivers n qs r3) as (r' & -> & Hal & Hpe); [lia|done|].
    cbn [rd_max]. replace (Z.to_nat n) with (length qs) by lia.
    rewrite (stage22_loop_spec p n ids qs 0 r' n _ []) by (done || lia).
    rewrite (filter_one _ _ i) by done. done.
Qed.

Lemma dhpsi_forged_match_witness :
  ∃ dec remote,
    @NewMultiplyParallelReader toy_R255 2 (@R255 toy_R255 3)
      {| chunks := [be_put 8 1; replicate 32 0]; final := EOF |} dec ∧
    receiver_stage1 dec = (None, remote) ∧
    receiver_stage22 null_permutations [[5]; [6]]
      {| chunks := [be_put 8 2; replicate 32 7 ++ replicate 32 0]; final := EOF |} remote
      = Some (Ok (None, [[6]])).
Proof.
  set (r1 := {| chunks := [be_put 8 1; replicate 32 0]; final := EOF |}).
  set (r3 := {| chunks := [be_put 8 2; replicate 32 7 ++ replicate 32 0]; final := EOF |}).
  assert (delivers (message 1 [replicate 32 0]) r1) as Hd1.
  { split; [by vm_compute|]. eexists _, _. split; [by vm_compute|]. repeat constructor. by exists 1%nat. }
  assert (delivers (message 2 [replicate 32 7; replicate 32 0]) r3) as Hd3.
  { split; [by vm_compute|]. eexists _, _. split; [by vm_compute|]. repeat constructor. by exists 2%nat. }
  destruct (@reader_exists toy_R255 2 (@R255 toy_R255 3) r1 1 [replicate 32 0]) as [dec Hdec];
    [lia|lia|done|by repeat constructor|exact Hd1|]. exists dec.
  assert (NoDup [replicate 32 7; replicate 32 0]) as Hnd by (apply (bool_decide_unpack _); by vm_compute).
  assert ([replicate 32 7; replicate 32 0] !! 1%nat = Some (@Encode toy_R255 NewElement)) as Hi
    by (by vm_compute).
  assert (@ScalarMult toy_R255 3 NewElement = NewElement) as Hk by (apply toy_eq; by vm_compute).
  assert (default NewElement (@Decode toy_R255 (replicate 32 0)) = NewElement) as Hz
    by (apply toy_eq; by vm_compute).
  destruct (@dhpsi_forged_match toy_R255 toy_R255_laws 3 2 null_permutations 2 [[5]; [6]] (replicate 32 0)
    r1 dec r3 [replicate 32 7; replicate 32 0] 1 Hk Hz eq_refl ltac:(lia) Hd1 Hdec (null_permutes 2)
    eq_refl ltac:(lia) eq_refl ltac:(by repeat constructor) Hnd Hi Hd3) as (remote & E1 & E2).
  exists remote. split; [exact Hdec|]. split; [exact E1|exact E2].
Defined.

(** A receiver trusts the count of stage 2.2 and looks up the position of any match
    in its permutation and its identifiers.  A receiver without identifiers is crashed by
    a sender that returns one point it knows the multiple of; a receiver of three
    identifiers whose seed is zero asks for position 3 when the fourth of four points
    matches, and never gets an answer. *)
Theorem dhpsi_extra_points draw n k ids pre q r remote :
  NewKensler draw n = Ok (k, None) → n = Z.of_nat (length ids) →
  points_ok (pre ++ [q]) → Forall (.∉ remote) pre → q ∈ remote →
  delivers (message (Z.of_nat (length pre) + 1) (pre ++ [q])) r →
  (n = 0 → pre = [] →
    receiver_stage22 (kensler_permutations k) ids r remote = Some (Panic "index out of range")) ∧
  (n = 3 → k_p k = 0 → length pre = 3%nat →
    receiver_stage22 (kensler_permutations k) ids r remote = None).
Proof.
  intros Hk Hn Hok Hpre Hq Hd.
  assert (Z.of_nat (length pre) < 4 →
    (∀ m, (∃ pos, Permutations.Shuffle (kensler_permutations k) (Z.of_nat (length pre)) = Some pos ∧
        index ids pos = Panic m) →
      receiver_stage22 (kensler_permutations k) ids r remote = Some (Panic m)) ∧
    (Permutations.Shuffle (kensler_permutations k) (Z.of_nat (length pre)) = None →
      receiver_stage22 (kensler_permutations k) ids r remote = None)) as Hrun.
  { intros Hlen. unfold receiver_stage22.
    destruct (NewReader_delivers (Z.of_nat (length pre) + 1) (pre ++ [q]) r ltac:(lia) Hd)
      as (s & -> & Hal & Hp). cbn [rd_max].
    replace (Z.to_nat (Z.of_nat (length pre) + 1)) with (length (pre ++ [q]))
      by (rewrite length_app; cbn [length]; lia).
    destruct (stage22_loop_match (kensler_permutations k) ids pre q [] 0 s
      (Z.of_nat (length pre) + 1) remote []) as (s' & ->); [done..|lia|done|done|]. rewrite Z.add_0_l.
    split; [by intros m (pos & -> & E); cbn [mbind option_bind]; rewrite E|by intros ->]. }
  split.
  - intros -> ->. apply NewKensler_Some in Hk as [Hl Hp]; [|done]. destruct k as [l seed].
    cbn [k_l k_p length] in *. subst l. replace seed with 0 in * by lia.
    apply (Hrun ltac:(done)). exists 0. split; [by vm_compute|].
    destruct ids; [done|cbn [length] in Hn; lia].
  - intros -> Hp Hpre3. apply NewKensler_Some in Hk as [Hl _]; [|done]. destruct k as [l seed].
    cbn [k_l k_p] in *. subst l seed. rewrite Hpre3 in Hrun. apply (Hrun ltac:(done)).
    cbn [Permutations.Shuffle kensler_permutations]. unfold kensler_Shuffle.
    by rewrite loop_pos_stuck by by vm_compute.
Qed.

Lemma dhpsi_extra_points_witness :
  let q := replicate 32 7 in
  let x := replicate 32 1 in
  ∃ k k0, NewKensler (λ _, Some 0) 3 = Ok (k, None) ∧ NewKensler (λ _, Some 0) 0 = Ok (k0, None) ∧
    receiver_stage22 (kensler_permutations k) [[1]; [2]; [3]]
      {| chunks := [be_put 8 4; x; x; x; q]; final := EOF |} {[q]} = None ∧
    receiver_stage22 (kensler_permutations k0) []
      {| chunks := [be_put 8 1; q]; final := EOF |} {[q]} = Some (Panic "index out of range").
Proof.
  intros q x. eexists _, _. split; [reflexivity|]. split; [reflexivity|]. split.
  - refine (proj2 (dhpsi_extra_points (λ _, Some 0) 3 _ [[1]; [2]; [3]] [x; x; x] q _ {[q]} eq_refl eq_refl
      _ _ _ _) eq_refl eq_refl eq_refl).
    + by repeat constructor.
    + apply (bool_decide_unpack _). by vm_compute.
    + set_solver.
    + split; [by vm_compute|]. eexists _, _. split; [by vm_compute|].
      repeat constructor; by exists 1%nat.
  - refine (proj1 (dhpsi_extra_points (λ _, Some 0) 0 _ [] [] q _ {[q]} eq_refl eq_refl
      _ _ _ _) eq_refl eq_refl).
    + by repeat constructor.
    + constructor.
    + set_solver.
    + split; [by vm_compute|]. eexists _, _. split; [by vm_compute|].
      repeat constructor; by exists 1%nat.
Defined.
