(* ===== verification/Proc.v ===== *)
(** * Parties of a protocol and their exchange

    The code of a party that talks to its peer in the middle of its work
    ([internal/ot], [internal/oprf], [pkg/kkrtpsi]) is a value of [proc]: it
    asks for bytes with [io.ReadFull], sends bytes with [Write], and ends with a
    result.  One value has two readings: [run] against a connection that may fail
    at any call, and [step], two parties joined by two byte queues that take
    their steps in any order.  The order does not matter: [exchange_inevitable]. *)
From stdpp Require Import relations.
From S2P Require Import Prelude Words IO.

Inductive proc (A : Type) : Type :=
| Done (r : res A)
| Recv (n : nat) (k : res (list Z) → proc A)
| Send (bs : list Z) (k : res unit → proc A).
Arguments Done {A} _.
Arguments Recv {A} _ _.
Arguments Send {A} _ _.

Fixpoint pbind {A B} (p : proc A) (f : A → proc B) : proc B :=
  match p with
  | Done (Ok a) => f a
  | Done (Err e) => Done (Err e)
  | Done (Panic s) => Done (Panic s)
  | Recv n k => Recv n (λ r, pbind (k r) f)
  | Send bs k => Send bs (λ r, pbind (k r) f)
  end.

Notation "'let*' x ':=' p 'in' k" := (pbind p (λ x, k))
  (at level 10, x name, p at level 100, k at level 200) : go_scope.
Notation "'let*' ' x ':=' p 'in' k" := (pbind p (λ y, match y with x => k end))
  (at level 10, x pattern, p at level 100, k at level 200) : go_scope.

(** [fmt.Errorf("s: %w", err)] on the error of a call. *)
Fixpoint wrap_err {A} (s : string) (p : proc A) : proc A :=
  match p with
  | Done (Err e) => Done (Err (Wrapped s e))
  | Done r => Done r
  | Recv n k => Recv n (λ r, wrap_err s (k r))
  | Send bs k => Send bs (λ r, wrap_err s (k r))
  end.

Definition pure {A} (r : res A) : proc A := Done r.
Definition recv (n : nat) : proc (list Z) := Recv n Done.
Definition send (bs : list Z) : proc unit := Send bs Done.

(** [binary.Read] and [binary.Write] of an [int64], big-endian. *)
Definition recv_int64 : proc Z := let* bs := recv 8 in pure (Ok (to_int64 (be_get bs))).
Definition send_int64 (n : Z) : proc unit := send (be_put 8 n).

(** [for i := i0; i < i0 + n; i++ { s = f(i, s) }] with calls in the body. *)
Fixpoint for_proc {T} (f : nat → T → proc T) (i n : nat) (s : T) : proc T :=
  match n with
  | O => pure (Ok s)
  | S n' => let* s' := f i s in for_proc f (S i) n' s'
  end.

(** ** One party against a connection *)
Fixpoint run {A} (p : proc A) (r : source) (w : sink) : res A * source * sink :=
  match p with
  | Done x => (x, r, w)
  | Recv n k =>
      match ReadFull r n with
      | (bs, None, r) => run (k (Ok bs)) r w
      | (_, Some e, r) => run (k (Err e)) r w
      end
  | Send bs k =>
      match Write w bs with
      | (None, w) => run (k (Ok ())) r w
      | (Some e, w) => run (k (Err e)) r w
      end
  end.

(** ** Two parties joined by queues *)
Record conf (A B : Type) := Conf {
  left_party : proc A; to_left : list Z;
  right_party : proc B; to_right : list Z
}.
Arguments Conf {A B} _ _ _ _.

Inductive step {A B} : conf A B → conf A B → Prop :=
| left_recv n k i q j : (n ≤ length i)%nat →
    step (Conf (Recv n k) i q j) (Conf (k (Ok (take n i))) (drop n i) q j)
| left_send bs k i q j :
    step (Conf (Send bs k) i q j) (Conf (k (Ok ())) i q (j ++ bs))
| right_recv n k p i j : (n ≤ length j)%nat →
    step (Conf p i (Recv n k) j) (Conf p i (k (Ok (take n j))) (drop n j))
| right_send bs k p i j :
    step (Conf p i (Send bs k) j) (Conf p (i ++ bs) (k (Ok ())) j).
Create HintDb proc.
#[export] Hint Constructors step : proc.

(** Both parties have returned and no byte is left over. *)
Definition finished {A B} (a : A) (b : B) : conf A B := Conf (Done (Ok a)) [] (Done (Ok b)) [].

(** From [c], some order of steps ends with both parties returning. *)
Definition exchange {A B} (p : proc A) (q : proc B) (a : A) (b : B) : Prop :=
  rtc step (Conf p [] q []) (finished a b).

(** Whatever the order of the steps, the run is finite and can only stop when both
    parties have returned these results and no byte is left over. *)
Definition inevitable {A B} (p : proc A) (q : proc B) (a : A) (b : B) : Prop :=
  ∀ c, rtc step (Conf p [] q []) c → sn step c ∧ (nf step c → c = finished a b).

(** * Lemmas *)

(** A run of a party, cut at a [let*]. *)
Lemma run_bind {A B} (p : proc A) (f : A → proc B) r w :
  run (pbind p f) r w =
    match run p r w with
    | (Ok a, r, w) => run (f a) r w
    | (Err e, r, w) => (Err e, r, w)
    | (Panic s, r, w) => (Panic s, r, w)
    end.
Proof.
  revert r w. induction p as [[a|e|s]|n k IH|bs k IH]; intros r w; cbn [pbind run]; try done.
  - destruct (ReadFull r n) as [[bs [e|]] r']; apply IH.
  - destruct (Write w bs) as [[e|] w']; apply IH.
Qed.

Section Steps.
Context {A B : Type}.
Implicit Types (c : conf A B) (p : proc A) (q : proc B).

(** Every run is finite: each step consumes a constructor of a party. *)
Lemma step_sn c : sn step c.
Proof.
  destruct c as [p i q j]. revert i q j.
  induction p as [r|n k IHp|bs k IHp]; intros i q j; revert i j;
    induction q as [r'|n' k' IHq|bs' k' IHq]; intros i j; constructor; intros c Hc;
    red in Hc; inversion Hc; subst; eauto.
Qed.

Lemma step_locally_confluent : locally_confluent (@step A B).
Proof.
  intros c c1 c2 H1 H2.
  inversion H1; subst; inversion H2; subst; try by eexists.
  - eexists; split; apply rtc_once; eauto with proc.
  - eexists. split; apply rtc_once; [by apply right_send|].
    rewrite <-(take_app_le _ bs), <-(drop_app_le _ bs) by done.
    apply left_recv. rewrite length_app. lia.
  - eexists. split; apply rtc_once; [|by apply left_send].
    rewrite <-(take_app_le _ bs), <-(drop_app_le _ bs) by done.
    apply right_recv. rewrite length_app. lia.
  - eexists; split; apply rtc_once; eauto with proc.
  - eexists; split; apply rtc_once; eauto with proc.
  - eexists. split; apply rtc_once; [by apply left_send|].
    rewrite <-(take_app_le _ bs), <-(drop_app_le _ bs) by done.
    apply right_recv. rewrite length_app. lia.
  - eexists. split; apply rtc_once; [|by apply right_send].
    rewrite <-(take_app_le _ bs), <-(drop_app_le _ bs) by done.
    apply left_recv. rewrite length_app. lia.
  - eexists; split; apply rtc_once; eauto with proc.
Qed.

Lemma step_confluent : confluent (@step A B).
Proof. apply locally_confluent_confluent; [apply step_sn|apply step_locally_confluent]. Qed.

Lemma finished_nf (a : A) (b : B) : nf step (finished a b).
Proof. intros [c Hc]. inversion Hc. Qed.

(** If one order of steps ends well, so does every order. *)
Lemma exchange_inevitable p q a b : exchange p q a b → inevitable p q a b.
Proof.
  intros He c Hc. split; [apply step_sn|]. intros Hn.
  destruct (step_confluent (Conf p [] q []) c (finished a b)) as (d & H1 & H2); [done..|].
  assert (d = finished a b) as ->.
  { inversion H2; subst; [done|]. exfalso. by eapply (finished_nf a b); eexists. }
  inversion H1; subst; [done|]. exfalso. by apply Hn; eexists.
Qed.

Lemma exchange_unique p q a b a' b' : exchange p q a b → exchange p q a' b' → a' = a ∧ b' = b.
Proof.
  intros H1 H2. destruct (exchange_inevitable p q a b H1 _ H2) as [_ Hf].
  specialize (Hf (finished_nf a' b')). by injection Hf.
Qed.
End Steps.

(** ** Composition *)
Section Composition.
Context {A B : Type}.

Lemma steps_left_send {p : proc B} {bs} {k : res unit → proc A} {i j c} :
  rtc step (Conf (k (Ok ())) i p (j ++ bs)) c → rtc step (Conf (Send bs k) i p j) c.
Proof. apply rtc_l, left_send. Qed.

Lemma steps_left_recv {p : proc B} {n} {k : res (list Z) → proc A} {bs i j c} :
  length bs = n →
  rtc step (Conf (k (Ok bs)) i p j) c → rtc step (Conf (Recv n k) (bs ++ i) p j) c.
Proof.
  intros <- Hr. eapply rtc_l; [apply left_recv; rewrite length_app; lia|].
  by rewrite take_app_length, drop_app_length.
Qed.

Lemma steps_right_send {p : proc A} {bs} {k : res unit → proc B} {i j c} :
  rtc step (Conf p (i ++ bs) (k (Ok ())) j) c → rtc step (Conf p i (Send bs k) j) c.
Proof. apply rtc_l, right_send. Qed.

Lemma steps_right_recv {p : proc A} {n} {k : res (list Z) → proc B} {bs i j c} :
  length bs = n →
  rtc step (Conf p i (k (Ok bs)) j) c → rtc step (Conf p i (Recv n k) (bs ++ j)) c.
Proof.
  intros <- Hr. eapply rtc_l; [apply right_recv; rewrite length_app; lia|].
  by rewrite take_app_length, drop_app_length.
Qed.

(** The last bytes of a queue. *)
Lemma steps_left_recv_all {p : proc B} {n} {k : res (list Z) → proc A} {bs j c} :
  length bs = n →
  rtc step (Conf (k (Ok bs)) [] p j) c → rtc step (Conf (Recv n k) bs p j) c.
Proof. intros Hn Hr. rewrite <-(app_nil_r bs). by apply steps_left_recv. Qed.

Lemma steps_right_recv_all {p : proc A} {n} {k : res (list Z) → proc B} {bs i c} :
  length bs = n →
  rtc step (Conf p i (k (Ok bs)) []) c → rtc step (Conf p i (Recv n k) bs) c.
Proof. intros Hn Hr. rewrite <-(app_nil_r bs). by apply steps_right_recv. Qed.

Lemma steps_bind_left {A'} (f : A → proc A') p i (q : proc B) j p' i' q' j' :
  rtc step (Conf p i q j) (Conf p' i' q' j') →
  rtc step (Conf (pbind p f) i q j) (Conf (pbind p' f) i' q' j').
Proof.
  remember (Conf p i q j) as c1 eqn:E1. remember (Conf p' i' q' j') as c2 eqn:E2.
  intros H. revert p i q j E1. induction H as [|c1 c c2 Hs _ IH]; intros p i q j E1; simplify_eq;
    [done|].
  inversion Hs; simplify_eq; (eapply rtc_l; [|by apply IH]); cbn [pbind];
    [apply (left_recv _ (λ r, pbind (k r) f)); done|apply (left_send _ (λ r, pbind (k r) f))
    |by apply right_recv|apply right_send].
Qed.

Lemma steps_bind_right {B'} (f : B → proc B') (p : proc A) i q j p' i' q' j' :
  rtc step (Conf p i q j) (Conf p' i' q' j') →
  rtc step (Conf p i (pbind q f) j) (Conf p' i' (pbind q' f) j').
Proof.
  remember (Conf p i q j) as c1 eqn:E1. remember (Conf p' i' q' j') as c2 eqn:E2.
  intros H. revert p i q j E1. induction H as [|c1 c c2 Hs _ IH]; intros p i q j E1; simplify_eq;
    [done|].
  inversion Hs; simplify_eq; (eapply rtc_l; [|by apply IH]); cbn [pbind];
    [by apply left_recv|apply left_send
    |apply (right_recv _ (λ r, pbind (k r) f)); done|apply (right_send _ (λ r, pbind (k r) f))].
Qed.
End Composition.

(** Two exchanges one after the other. *)
Lemma exchange_bind {A B A' B'} {p q} {f : A → proc A'} {g : B → proc B'} {a b c} :
  exchange p q a b → rtc step (Conf (f a) [] (g b) []) c →
  rtc step (Conf (pbind p f) [] (pbind q g) []) c.
Proof.
  intros H1 H2. etrans; [|exact H2].
  apply (steps_bind_left f) in H1. by apply (steps_bind_right g) in H1.
Qed.

(** Two loops that exchange at every turn, with an invariant between their states. *)
Lemma exchange_for {S T} (f : nat → S → proc S) (g : nat → T → proc T) (I : nat → S → T → Prop) n :
  ∀ lo s t, I lo s t →
  (∀ i s t, (lo ≤ i < lo + n)%nat → I i s t →
    ∃ s' t', exchange (f i s) (g i t) s' t' ∧ I (i + 1)%nat s' t') →
  ∃ s' t', exchange (for_proc f lo n s) (for_proc g lo n t) s' t' ∧ I (lo + n)%nat s' t'.
Proof.
  induction n as [|n IH]; intros lo s t HI Hstep.
  - exists s, t. rewrite Nat.add_0_r. by split; [apply rtc_refl|].
  - destruct (Hstep lo s t) as (s1 & t1 & He & HI1); [lia|done|].
    destruct (IH (lo + 1)%nat s1 t1) as (s' & t' & He' & HI').
    { done. }
    { intros i si ti Hi. apply Hstep. lia. }
    exists s', t'. replace (lo + Datatypes.S n)%nat with (lo + 1 + n)%nat by lia. split; [|done].
    cbn [for_proc]. eapply exchange_bind; [done|]. by rewrite <-Nat.add_1_r.
Qed.

(** ** An executable scheduler *)
Definition next {A B} (c : conf A B) : option (conf A B) :=
  match c with
  | Conf (Send bs k) i q j => Some (Conf (k (Ok ())) i q (j ++ bs))
  | Conf p i (Send bs k) j => Some (Conf p (i ++ bs) (k (Ok ())) j)
  | Conf p i q j =>
      match p, q with
      | Recv n k, _ =>
          if decide (n ≤ length i)%nat then Some (Conf (k (Ok (take n i))) (drop n i) q j)
          else match q with
               | Recv m k' => if decide (m ≤ length j)%nat
                   then Some (Conf p i (k' (Ok (take m j))) (drop m j)) else None
               | _ => None
               end
      | _, Recv m k' => if decide (m ≤ length j)%nat
          then Some (Conf p i (k' (Ok (take m j))) (drop m j)) else None
      | _, _ => None
      end
  end.

Fixpoint drive {A B} (fuel : nat) (c : conf A B) : conf A B :=
  match fuel with
  | O => c
  | S fuel => match next c with Some c' => drive fuel c' | None => c end
  end.

Lemma next_step {A B} (c c' : conf A B) : next c = Some c' → step c c'.
Proof.
  destruct c as [[] i [] j]; cbn [next]; repeat case_decide; intros; simplify_eq; eauto with proc.
Qed.

Lemma drive_steps {A B} fuel (c : conf A B) : rtc step c (drive fuel c).
Proof.
  revert c. induction fuel as [|fuel IH]; intros c; [done|]. cbn [drive].
  destruct (next c) eqn:E; [|done]. eapply rtc_l; [by apply next_step|done].
Qed.
