(* ===== verification/Bufio.v ===== *)
(** * [bufio.Writer] and [bufio.Reader] over a connection

    The writer's buffer and sticky error, as the protocols' [proc]s use it, what a
    buffered party sends over a link that does not fail, and a single [Read]
    through an empty [bufio.Reader]. *)
From stdpp Require Import relations.
From S2P Require Import Prelude Words IO Proc.

(** ** The writer

    The buffered bytes and the sticky error.  [Write] fills the buffer, flushing
    it whenever it is full. *)
Definition bufio : Type := list Z * option error.

Definition try_send (bs : list Z) : proc (option error) :=
  Send bs (λ r, match r with
                | Ok _ => Done (Ok None)
                | Err e => Done (Ok (Some e))
                | Panic s => Done (Panic s)
                end).

Definition bufio_Flush (b : bufio) : proc bufio :=
  match b with
  | (buf, Some e) => pure (Ok (buf, Some e))
  | ([], None) => pure (Ok ([], None))
  | (buf, None) =>
      let* e := try_send buf in
      match e with
      | None => pure (Ok ([], None))
      | Some e => pure (Ok (buf, Some e))
      end
  end.

(** For slices shorter than the buffer, at most one flush is needed. *)
Definition bufio_Write (size : nat) (b : bufio) (p : list Z) : proc bufio :=
  let '(buf, err) := b in
  match err with
  | Some e => pure (Ok (buf, Some e))
  | None =>
      let avail := (size - length buf)%nat in
      if decide (length p ≤ avail)%nat then pure (Ok (buf ++ p, None))
      else
        let* b := bufio_Flush (buf ++ take avail p, None) in
        match b with
        | (buf, Some e) => pure (Ok (buf, Some e))
        | (buf, None) => pure (Ok (buf ++ drop avail p, None))
        end
  end.

(** ** The reader

    [bufio.defaultBufSize], and [Read] of [n < size] bytes with nothing buffered:
    one call of the underlying reader.  What it returned beyond [n] bytes is read
    next. *)
Definition default_size : nat := 4096.

Definition bufio_Read (size : nat) (r : source) (n : nat) : list Z * option error * source :=
  match Read r size with
  | (c, None, r) => (take n c, None, {| chunks := drop n c :: chunks r; final := final r |})
  | (c, Some e, r) => (c, Some e, r)
  end.

(** * Lemmas *)

(** [p] returns [r] after having sent [out], without reading. *)
Inductive sends {B} : proc B → list Z → B → Prop :=
| sends_done r : sends (Done (Ok r)) [] r
| sends_send bs k out r : sends (k (Ok ())) out r → sends (Send bs k) (bs ++ out) r.

Lemma sends_pure {B} (r : B) : sends (pure (Ok r)) [] r.
Proof. constructor. Qed.

Lemma sends_bind {B C} (p : proc B) (f : B → proc C) o1 o2 b c :
  sends p o1 b → sends (f b) o2 c → sends (pbind p f) (o1 ++ o2) c.
Proof. induction 1; intros; [done|]. rewrite <-app_assoc. cbn [pbind]. constructor. auto. Qed.

Lemma sends_one bs : sends (send bs) bs ().
Proof. rewrite <-(app_nil_r bs) at 2. constructor. constructor. Qed.

Lemma sends_try bs : sends (try_send bs) bs None.
Proof. rewrite <-(app_nil_r bs) at 2. constructor. constructor. Qed.

(** Between two parties, and against a connection that does not fail. *)
Lemma sends_steps {A B} (p : proc B) out r (i j : list Z) (q : proc A) :
  sends p out r → rtc step (Conf p i q j) (Conf (Done (Ok r)) i q (j ++ out)).
Proof.
  intros Hs. revert j. induction Hs as [r|bs k out r _ IH]; intros j; [by rewrite app_nil_r|].
  apply steps_left_send. rewrite app_assoc. apply IH.
Qed.

Lemma sends_run {B} (p : proc B) out r src w :
  sends p out r → faultless w →
  ∃ w', run p src w = (Ok r, src, w') ∧ faultless w' ∧ written w' = written w ++ out.
Proof.
  intros Hs. revert w. induction Hs as [r|bs k out r _ IH]; intros w Hw.
  - exists w. by rewrite app_nil_r.
  - destruct (Write_faultless w bs Hw) as (w1 & E & Hw1 & E1). cbn [run]. rewrite E.
    destruct (IH w1 Hw1) as (w2 & -> & Hw2 & E2). exists w2. by rewrite E2, E1, app_assoc.
Qed.

Lemma sends_Flush buf : sends (bufio_Flush (buf, None)) buf ([], None).
Proof.
  destruct buf as [|x buf]; [apply sends_pure|]. cbn [bufio_Flush].
  rewrite <-(app_nil_r (x :: buf)) at 2. eapply sends_bind; [apply sends_try|]. apply sends_pure.
Qed.

Lemma sends_Write size buf p :
  ∃ out buf', sends (bufio_Write size (buf, None) p) out (buf', None) ∧ out ++ buf' = buf ++ p.
Proof.
  unfold bufio_Write. set (avail := (size - length buf)%nat). clearbody avail.
  destruct (decide (length p ≤ avail)%nat).
  - exists [], (buf ++ p). split; [apply sends_pure|done].
  - exists ((buf ++ take avail p) ++ []), (drop avail p). split.
    + eapply sends_bind; [apply sends_Flush|]. apply sends_pure.
    + by rewrite app_nil_r, <-app_assoc, take_drop.
Qed.
