(* ===== verification/Wp.v ===== *)
(** * What a party guarantees against any peer

    [wp p Q]: whatever bytes the connection delivers to [p], and whatever call of it
    fails, [p] does not panic, writes nothing but bytes, and any result it returns
    without error satisfies [Q].  The peer is not assumed to follow the protocol.
    [wp_run] relates the judgement to the runs of [Proc]; the other lemmas are its
    rules. *)
From S2P Require Import Prelude Words Bits IO Proc Bufio.

Fixpoint wp {A} (p : proc A) (Q : A → Prop) : Prop :=
  match p with
  | Done (Ok a) => Q a
  | Done (Err _) => True
  | Done (Panic _) => False
  | Recv n k =>
      (∀ bs, length bs = n → bytes_ok bs → wp (k (Ok bs)) Q) ∧ (∀ e, wp (k (Err e)) Q)
  | Send bs k => bytes_ok bs ∧ wp (k (Ok ())) Q ∧ (∀ e, wp (k (Err e)) Q)
  end.

(** The outcome of a call: no panic, and [Q] of what it returns. *)
Definition no_panic {A} (Q : A → Prop) (x : res A) : Prop :=
  match x with Ok a => Q a | Err _ => True | Panic _ => False end.

(** ** Adequacy *)
Lemma bytes_ok_app a b : bytes_ok (a ++ b) ↔ bytes_ok a ∧ bytes_ok b.
Proof. apply Forall_app. Qed.

Lemma read_full_bytes cs final got n bs rest :
  read_full cs final got n = (bs, None, rest) → bytes_ok (concat cs) →
  length bs = n ∧ bytes_ok bs ∧ bytes_ok (concat rest).
Proof.
  revert got n bs rest. induction cs as [|c cs IH]; intros got [|n] bs rest E Hb;
    cbn [read_full concat] in *; simplify_eq; try by repeat split.
  apply bytes_ok_app in Hb as [Hc Hcs]. case_bool_decide as Hl.
  - destruct (read_full cs final (got + length c) (S n - length c)) as [[bs' e] rest'] eqn:E'.
    simplify_eq. destruct (IH _ _ _ _ E' Hcs) as (L & B & R).
    rewrite length_app, bytes_ok_app. split_and!; try done. lia.
  - simplify_eq. cbn [concat]. rewrite bytes_ok_app, length_take.
    split_and!; [lia|by apply Forall_take|by apply Forall_drop|done].
Qed.

Lemma ReadFull_bytes r n bs e r' :
  ReadFull r n = (bs, e, r') → bytes_ok (pending r) →
  bytes_ok (pending r') ∧ (e = None → length bs = n ∧ bytes_ok bs).
Proof.
  unfold ReadFull, pending. destruct (read_full (chunks r) (final r) 0 n) as [[bs' e'] rest] eqn:E.
  intros [= -> -> <-] Hb. cbn [chunks]. destruct e as [e|].
  - split; [|done]. destruct (decide (n ≤ length (concat (chunks r)))%nat) as [Hle|Hgt].
    + destruct (read_full_spec _ (final r) 0 n Hle) as (? & E' & _). congruence.
    + destruct (read_full_short (chunks r) (final r) 0 n) as (? & ? & E'); [lia|].
      rewrite E' in E. by simplify_eq.
  - destruct (read_full_bytes _ _ _ _ _ _ E Hb) as (L & B & R). by split.
Qed.

Lemma Write_bytes w bs e w' :
  Write w bs = (e, w') → bytes_ok bs → bytes_ok (written w) → bytes_ok (written w').
Proof.
  unfold Write. intros E Hb Hw. destruct (faults w (calls w)) as [[e' n]|]; simplify_eq; cbn [written];
    apply bytes_ok_app; split; try done. by apply Forall_take.
Qed.

(** Every run against a connection, however it cuts its bytes and fails. *)
Lemma wp_run {A} (p : proc A) Q r w :
  wp p Q → bytes_ok (pending r) → bytes_ok (written w) →
  let '(x, r', w') := run p r w in no_panic Q x ∧ bytes_ok (pending r') ∧ bytes_ok (written w').
Proof.
  revert r w. induction p as [[a|e|s]|n k IH|bs k IH]; intros r w Hp Hr Hw; cbn [wp run] in *;
    try by repeat split.
  - destruct Hp as [Hok Herr]. destruct (ReadFull r n) as [[bs [e|]] r'] eqn:E;
      destruct (ReadFull_bytes _ _ _ _ _ E Hr) as [Hr' Hb].
    + by apply IH.
    + destruct (Hb eq_refl). apply IH; auto.
  - destruct Hp as (Hb & Hok & Herr). destruct (Write w bs) as [[e|] w'] eqn:E;
      pose proof (Write_bytes _ _ _ _ E Hb Hw); by apply IH.
Qed.

(** ** Rules *)
Section Rules.
Context {A B : Type}.

Lemma wp_mono (p : proc A) (Q R : A → Prop) : wp p Q → (∀ a, Q a → R a) → wp p R.
Proof.
  intros Hp HQR. induction p as [[a|e|s]|n k IH|bs k IH]; cbn [wp] in *; auto.
  - destruct Hp as [H1 H2]. split; intros; apply IH; auto.
  - destruct Hp as (H1 & H2 & H3). split_and!; [done|by apply IH|]. intros; apply IH; auto.
Qed.

Lemma wp_bind (p : proc A) (f : A → proc B) Q : wp p (λ a, wp (f a) Q) → wp (pbind p f) Q.
Proof.
  induction p as [[a|e|s]|n k IH|bs k IH]; cbn [wp pbind]; auto.
  - intros [H1 H2]. split; intros; apply IH; auto.
  - intros (H1 & H2 & H3). split_and!; [done|by apply IH|]. intros; apply IH; auto.
Qed.

Lemma wp_pure (x : res A) Q : no_panic Q x → wp (pure x) Q.
Proof. by destruct x. Qed.

Lemma wp_wrap_err s (p : proc A) Q : wp p Q → wp (wrap_err s p) Q.
Proof.
  induction p as [[a|e|m]|n k IH|bs k IH]; cbn [wp wrap_err]; auto.
  - intros [H1 H2]. split; intros; apply IH; auto.
  - intros (H1 & H2 & H3). split_and!; [done|by apply IH|]. intros; apply IH; auto.
Qed.
End Rules.

Lemma wp_recv n (Q : list Z → Prop) : (∀ bs, length bs = n → bytes_ok bs → Q bs) → wp (recv n) Q.
Proof. intros HQ. by split. Qed.

Lemma wp_send bs (Q : () → Prop) : bytes_ok bs → Q () → wp (send bs) Q.
Proof. intros Hb HQ. by repeat split. Qed.

Lemma wp_try_send bs (Q : option error → Prop) : bytes_ok bs → (∀ e, Q e) → wp (try_send bs) Q.
Proof. intros Hb HQ. split; [done|]. split; [apply HQ|]. intros e. apply HQ. Qed.

Lemma wp_send_int64 n (Q : () → Prop) : Q () → wp (send_int64 n) Q.
Proof. intros HQ. apply wp_send; [apply be_put_bytes_ok|done]. Qed.

Lemma wp_recv_int64 (Q : Z → Prop) : (∀ n, - 2 ^ 63 ≤ n < 2 ^ 63 → Q n) → wp recv_int64 Q.
Proof.
  intros HQ. apply wp_bind, wp_recv. intros bs Hl Hb. apply HQ.
  pose proof (le_get_range (reverse bs) ltac:(by apply Forall_reverse)) as Hr.
  rewrite length_reverse, Hl in Hr. change (le_get (reverse bs)) with (be_get bs) in Hr.
  change (8 * Z.of_nat 8) with 64 in Hr. unfold to_int64.
  destruct (Z.ltb_spec (be_get bs) (2 ^ 63)); lia.
Qed.

Lemma wp_for {T} (I : nat → T → Prop) (f : nat → T → proc T) i n s :
  I i s → (∀ j s, (i ≤ j < i + n)%nat → I j s → wp (f j s) (I (S j))) →
  wp (for_proc f i n s) (I (i + n)%nat).
Proof.
  revert i s. induction n as [|n IH]; intros i s Hi Hstep; cbn [for_proc].
  - by rewrite Nat.add_0_r.
  - apply wp_bind. eapply wp_mono; [apply Hstep; [lia|done]|]. intros s' Hs'.
    rewrite <-Nat.add_succ_comm. apply IH; [done|]. intros j t Hj. apply Hstep. lia.
Qed.

Lemma wp_loop {T} (I : nat → T → Prop) (f : nat → T → proc T) n s (Q : T → Prop) :
  I 0%nat s → (∀ j s, (j < n)%nat → I j s → wp (f j s) (I (S j))) → (∀ s, I n s → Q s) →
  wp (for_proc f 0 n s) Q.
Proof.
  intros Hi Hstep HQ. eapply wp_mono; [apply (wp_for I); [done|]|done].
  intros j t [_ Hj]. by apply Hstep.
Qed.

(** A call that has been evaluated. *)
Lemma wp_Ok {A B} (x : res A) (a : A) (f : A → proc B) Q :
  x = Ok a → wp (f a) Q → wp (pbind (pure x) f) Q.
Proof. by intros ->. Qed.

(** ** Loops and calls that do not talk *)
Lemma no_panic_bind {A B} (P : A → Prop) (Q : B → Prop) x f :
  no_panic P x → (∀ a, P a → no_panic Q (f a)) → no_panic Q (res_bind x f).
Proof. destruct x; cbn [no_panic res_bind]; auto. Qed.

Lemma no_panic_mono {A} (P Q : A → Prop) x : no_panic P x → (∀ a, P a → Q a) → no_panic Q x.
Proof. destruct x; cbn [no_panic]; auto. Qed.

Lemma for_res_no_panic {T} (I : nat → T → Prop) f i n (s : T) :
  I i s → (∀ j s, (i ≤ j < i + n)%nat → I j s → no_panic (I (S j)) (f j s)) →
  no_panic (I (i + n)%nat) (for_res f i n s).
Proof.
  revert i s. induction n as [|n IH]; intros i s Hi Hstep; cbn [for_res].
  - by rewrite Nat.add_0_r.
  - eapply no_panic_bind; [apply Hstep; [lia|done]|]. intros s' Hs'.
    rewrite <-Nat.add_succ_comm. apply IH; [done|]. intros j t Hj. apply Hstep. lia.
Qed.

Lemma wp_call {A B} (P : A → Prop) (x : res A) (f : A → proc B) Q :
  no_panic P x → (∀ a, P a → wp (f a) Q) → wp (pbind (pure x) f) Q.
Proof. intros Hx Hf. apply wp_bind, wp_pure. by eapply no_panic_mono. Qed.

(** ** The buffered writer *)
Lemma wp_Flush b (Q : bufio → Prop) :
  bytes_ok b.1 → (∀ b', bytes_ok b'.1 → Q b') → wp (bufio_Flush b) Q.
Proof.
  destruct b as [buf [e|]]; cbn [fst]; intros Hb HQ; destruct buf as [|x buf]; cbn [bufio_Flush];
    try by apply wp_pure, HQ.
  apply wp_bind, wp_try_send; [done|]. intros [e|]; by apply wp_pure, HQ.
Qed.

Lemma wp_bufio_Write size b p (Q : bufio → Prop) :
  bytes_ok b.1 → bytes_ok p → (∀ b', bytes_ok b'.1 → Q b') → wp (bufio_Write size b p) Q.
Proof.
  destruct b as [buf [e|]]; cbn [fst bufio_Write]; intros Hb Hp HQ; [by apply wp_pure, HQ|].
  set (avail := (size - length buf)%nat). case_decide.
  - apply wp_pure, HQ. by apply bytes_ok_app.
  - apply wp_bind, wp_Flush.
    { apply bytes_ok_app. split; [done|by apply Forall_take]. }
    intros [buf' [e|]] Hb'; cbn [fst] in Hb'; apply wp_pure, HQ; [done|].
    apply bytes_ok_app. split; [done|by apply Forall_drop].
Qed.

Create HintDb wp.
#[export] Hint Resolve be_put_bytes_ok : wp.

Lemma rand_Read_no_panic draw k len :
  no_panic (λ bs, length bs = len ∧ bytes_ok bs) (rand_Read draw k len).
Proof.
  unfold rand_Read. destruct (draw k) as [f|]; [|done].
  split; [apply length_random_bytes|apply random_bytes_ok].
Qed.

Lemma wp_rand_Read {B} draw k len (f : list Z → proc B) Q :
  (∀ bs, length bs = len → bytes_ok bs → wp (f bs) Q) → wp (pbind (pure (rand_Read draw k len)) f) Q.
Proof.
  intros HQ. eapply wp_call; [apply rand_Read_no_panic|]. intros bs [Hl Hb]. by apply HQ.
Qed.
