(* ===== verification/Crypto.v ===== *)
(** * internal/crypto: the xor cipher, the generators and the curve points

    Blake3, murmur3, AES and the curve arithmetic of [crypto/elliptic] are not in
    the repository: each is a class of functions with a class of laws that states
    what their documentation promises. *)
From S2P Require Import Prelude Words Bits IO Proc.

(** ** Cores

    [runtime.GOMAXPROCS(0)], and the order in which the steps [l] of the
    goroutines of the [k]-th concurrent operation take effect. *)
Class Cores := {
  GOMAXPROCS : nat;
  interleave {A : Type} : nat → list A → list A
}.
Class CoresLaws `{Cores} : Prop := {
  GOMAXPROCS_pos : (1 ≤ GOMAXPROCS)%nat;
  interleave_all {A : Type} k (l : list A) : interleave k l ≡ₚ l
}.
Definition schedule `{Cores} (k : nat) : list nat := interleave k (seq 0 GOMAXPROCS).

(** ** Blake3

    [blake3_xof m n]: the first [n] bytes read from the digest of [m]. *)
Class Blake3 := { blake3_xof : list Z → nat → list Z; blake3_Sum256 : list Z → list Z }.
Class Blake3Laws `{Blake3} : Prop := {
  length_blake3_xof m n : length (blake3_xof m n) = n;
  blake3_xof_bytes m n : bytes_ok (blake3_xof m n)
}.

(** cipher.go *)
Definition getBlake3Hash `{Blake3} (key : list Z) (ind : Z) (dst : list Z) : list Z :=
  blake3_xof (key ++ [ind]) (length dst).

Definition XorCipherWithBlake3 `{Blake3, Cores, ByteOps} (k : nat) (key : list Z) (ind : Z)
    (src : list Z) : res (list Z) :=
  let hash := replicate (length src) 0 in
  let hash := getBlake3Hash key ind hash in
  ConcurrentBitOp Xor GOMAXPROCS (schedule k) hash src.

(** prg.go: [dst] after the call.  The hasher is reset first, so its state does
    not matter, and blake3's [Write] and [Read] do not fail. *)
Definition PseudorandomGenerate `{Blake3} (dst seed : list Z) : res (list Z) :=
  if (length dst <? length seed)%nat then Ok (take (length dst) seed)
  else Ok (blake3_xof seed (length dst)).

(** ** cipher_generic.go and cipher_amd64.go *)
Definition BlockSize : nat := 16.

(** [SeedSum128 seed1 seed2 data] is [(lo, hi)]. *)
Class Murmur3 := SeedSum128 : Z → Z → list Z → Z * Z.

(** The AES block of a key: [aes_Encrypt key block] is one encrypted block. *)
Class AES := aes_Encrypt : list Z → list Z → list Z.
Class AESLaws `{AES} : Prop := {
  length_aes_Encrypt key b : length (aes_Encrypt key b) = BlockSize;
  aes_Encrypt_bytes key b : bytes_ok (aes_Encrypt key b)
}.

(** [aes.NewCipher] refuses the other key sizes. *)
Definition aes_NewCipher (key : list Z) : res (list Z) :=
  if bool_decide (length key = 16%nat ∨ length key = 24%nat ∨ length key = 32%nat) then Ok key
  else Err (ErrMsg "crypto/aes: invalid key size").

(** [aesBlock.Encrypt(dst[lo:lo+16], s)]: only the first block of [s] is read. *)
Definition Encrypt_at `{AES} (aesBlock : list Z) (lo : nat) (s dst : list Z) : list Z :=
  put_at dst lo (aes_Encrypt aesBlock (take BlockSize s)).

(** The four encryptions, each with its block index in [s[0]]. *)
Definition encrypt_blocks `{AES} (aesBlock s : list Z) : list Z :=
  let dst := replicate (BlockSize * 4) 0 in
  let dst := Encrypt_at aesBlock 0 (<[0%nat := 1]> s) dst in
  let dst := Encrypt_at aesBlock BlockSize (<[0%nat := 2]> s) dst in
  let dst := Encrypt_at aesBlock (BlockSize * 2) (<[0%nat := 3]> s) dst in
  Encrypt_at aesBlock (BlockSize * 3) (<[0%nat := 4]> s) dst.

Module CodeGeneric.
Definition PseudorandomCode `{AES, Murmur3} (aesBlock src : list Z) (hIdx : Z) : list Z :=
  let '(lo, hi) := SeedSum128 hIdx hIdx src in
  let s := replicate (1 + BlockSize) 0 in
  let s := put_at s 1 (le_put 8 lo) in
  let s := put_at s 9 (le_put 8 hi) in
  encrypt_blocks aesBlock s.
End CodeGeneric.

Module CodeAmd64.
Definition PseudorandomCode `{AES, Murmur3, UnsafeSlice} (aesBlock src : list Z) (hIdx : Z)
    : list Z :=
  let '(lo, hi) := SeedSum128 hIdx hIdx src in
  let s := byte_view [lo; hi] in
  let s := put_at s 1 (take (length s - 1) s) in
  encrypt_blocks aesBlock s.
End CodeAmd64.

(** What the callers use of the build-dependent function. *)
Class CodeOps := PseudorandomCode : list Z → list Z → Z → list Z.
Class CodeOpsLaws `{CodeOps} : Prop := {
  length_PseudorandomCode k i h : length (PseudorandomCode k i h) = 64%nat;
  PseudorandomCode_bytes k i h : bytes_ok (PseudorandomCode k i h)
}.

(** ** point.go

    The affine arithmetic of the curve; the point at infinity is [(0, 0)]. *)
Class Curve := {
  curve_P : Z;
  curve_G : Z * Z;
  IsOnCurve : Z → Z → bool;
  curve_Add : Z → Z → Z → Z → Z * Z;
  curve_ScalarMult : Z → Z → list Z → Z * Z;
  MarshalCompressed : Z → Z → list Z;
  UnmarshalCompressed : list Z → option (Z * Z)
}.

Record Point := { px : Z; py : Z }.
Definition of_pair (p : Z * Z) : Point := {| px := p.1; py := p.2 |}.

Section Points.
Context `{Curve}.

Definition encodeLen : nat := length (MarshalCompressed curve_G.1 curve_G.2).

Definition NewPoint : Point := {| px := 0; py := 0 |}.

Definition Marshal (p : Point) : list Z := MarshalCompressed (px p) (py p).

Definition Unmarshal (marshaledPoint : list Z) : res Point :=
  match UnmarshalCompressed marshaledPoint with
  | None => Err (ErrMsg "error unmarshalling elliptic curve point")
  | Some p => Ok (of_pair p)
  end.

Definition Add (p q : Point) : Point := of_pair (curve_Add (px p) (py p) (px q) (py q)).

Definition ScalarMult (p : Point) (scalar : list Z) : Point :=
  of_pair (curve_ScalarMult (px p) (py p) scalar).

Definition Sub (p q : Point) : Point :=
  let negQy := (- py q) mod curve_P in
  of_pair (curve_Add (px p) (py p) (px q) negQy).

(** [p.x.Bytes()]: big-endian, without leading zeros. *)
Definition big_Bytes (v : Z) : list Z :=
  be_put (if v =? 0 then 0 else Z.to_nat (Z.log2 v / 8 + 1)) v.

Definition DeriveKeyFromECPoint `{Blake3} (p : Point) : list Z := blake3_Sum256 (big_Bytes (px p)).

(** [draw]: the secret [elliptic.GenerateKey] samples, when the reader works. *)
Definition GenerateKey (draw : option (list Z)) : res (list Z * Point) :=
  match draw with
  | None => Err (ErrMsg "rand")
  | Some secret => Ok (secret, of_pair (curve_ScalarMult curve_G.1 curve_G.2 secret))
  end.

Definition equal (p q : Point) : bool := (px p =? px q) && (py p =? py q).
End Points.

(** The points form a group under [Add]; scalars are big-endian integers. *)
Section GroupSpec.
Context `{Curve}.
Definition infinity : Point := {| px := 0; py := 0 |}.
Definition on_curve (p : Point) : Prop := p = infinity ∨ IsOnCurve (px p) (py p) = true.
Definition neg (p : Point) : Point := {| px := px p; py := (- py p) mod curve_P |}.
Definition G : Point := of_pair curve_G.
Fixpoint times (n : nat) (p : Point) : Point :=
  match n with O => infinity | S n => Add p (times n p) end.
End GroupSpec.

Class CurveLaws `{Curve} : Prop := {
  G_on_curve : on_curve G;
  Add_on_curve p q : on_curve p → on_curve q → on_curve (Add p q);
  neg_on_curve p : on_curve p → on_curve (neg p);
  Add_assoc p q r : on_curve p → on_curve q → on_curve r → Add p (Add q r) = Add (Add p q) r;
  Add_comm p q : on_curve p → on_curve q → Add p q = Add q p;
  Add_infinity p : on_curve p → Add infinity p = p;
  Add_neg p : on_curve p → Add p (neg p) = infinity;
  ScalarMult_times p k : on_curve p → ScalarMult p k = times (Z.to_nat (be_get k)) p;
  length_Marshal p : on_curve p → p ≠ infinity → length (Marshal p) = encodeLen;
  Unmarshal_Marshal p : on_curve p → p ≠ infinity → Unmarshal (Marshal p) = Ok p
}.

(** * Lemmas *)

(** ** The cipher *)

(** The xor of two byte strings of the same length. *)
Definition xor_bytes (a b : list Z) : list Z := zip_with Z.lxor a b.

Lemma length_xor_bytes a b : length a = length b → length (xor_bytes a b) = length a.
Proof. intros. unfold xor_bytes. rewrite length_zip_with. lia. Qed.

Lemma xor_bytes_ok a b : bytes_ok a → bytes_ok b → bytes_ok (xor_bytes a b).
Proof. apply zip_with_bytes_ok, _. Qed.

Lemma xor_bytes_cancel a b : length a = length b → xor_bytes a (xor_bytes a b) = b.
Proof.
  revert b. induction a as [|u a IH]; intros [|v b]; intros Hl; simplify_eq/=; [done|].
  unfold xor_bytes in *. cbn [zip_with].
  by rewrite <-Z.lxor_assoc, Z.lxor_nilpotent, Z.lxor_0_l, IH.
Qed.

Lemma XorCipher_spec `{CoresLaws, Blake3Laws, ByteOpsLaws} k key ind src :
  bytes_ok src →
  XorCipherWithBlake3 k key ind src =
    Ok (xor_bytes (blake3_xof (key ++ [ind]) (length src)) src).
Proof.
  intros Hs. unfold XorCipherWithBlake3, getBlake3Hash. rewrite length_replicate.
  apply (ConcurrentBitOp_spec Z.lxor).
  - apply Xor_Ok.
  - apply GOMAXPROCS_pos.
  - apply interleave_all.
  - apply blake3_xof_bytes.
  - done.
  - apply length_blake3_xof.
Qed.

Lemma XorCipher_decrypt `{CoresLaws, Blake3Laws, ByteOpsLaws} k key ind m :
  bytes_ok m →
  XorCipherWithBlake3 k key ind (xor_bytes (blake3_xof (key ++ [ind]) (length m)) m) = Ok m.
Proof.
  intros Hm. rewrite XorCipher_spec by (apply xor_bytes_ok; [apply blake3_xof_bytes|done]).
  by rewrite length_xor_bytes, length_blake3_xof, xor_bytes_cancel by apply length_blake3_xof.
Qed.

(** ** The pseudorandom code *)
Lemma encrypt_blocks_spec `{AESLaws} aesBlock s :
  (16 ≤ length s)%nat →
  encrypt_blocks aesBlock s =
    concat ((λ i, aes_Encrypt aesBlock (i :: take 15 (drop 1 s))) <$> [1; 2; 3; 4]).
Proof.
  intros Hs. destruct s as [|s0 s]; [cbn in Hs; lia|].
  unfold encrypt_blocks, Encrypt_at, BlockSize. cbn [list_insert take drop fmap list_fmap concat].
  cbv [insert list_insert]. cbn [take].
  change (take 15 (drop 0 s)) with (take 15 s).
  generalize (length_aes_Encrypt aesBlock (1 :: take 15 s)),
    (length_aes_Encrypt aesBlock (2 :: take 15 s)), (length_aes_Encrypt aesBlock (3 :: take 15 s)),
    (length_aes_Encrypt aesBlock (4 :: take 15 s)).
  generalize (aes_Encrypt aesBlock (1 :: take 15 s)), (aes_Encrypt aesBlock (2 :: take 15 s)),
    (aes_Encrypt aesBlock (3 :: take 15 s)), (aes_Encrypt aesBlock (4 :: take 15 s)).
  unfold BlockSize. intros b1 b2 b3 b4 L1 L2 L3 L4.
  do 17 (destruct b1 as [|? b1]; try discriminate L1).
  do 17 (destruct b2 as [|? b2]; try discriminate L2).
  do 17 (destruct b3 as [|? b3]; try discriminate L3).
  do 17 (destruct b4 as [|? b4]; try discriminate L4).
  reflexivity.
Qed.

(** Both builds put [15] bytes of the hash behind the block index. *)
Lemma generic_scratch lo hi :
  take 15 (drop 1 (put_at (put_at (replicate (1 + BlockSize) 0) 1 (le_put 8 lo)) 9 (le_put 8 hi))) =
  take 15 (le_put 8 lo ++ le_put 8 hi).
Proof.
  generalize (length_le_put 8 lo), (length_le_put 8 hi).
  generalize (le_put 8 lo), (le_put 8 hi). intros a b La Lb.
  do 9 (destruct a as [|? a]; try discriminate La). by do 9 (destruct b as [|? b]; try discriminate Lb).
Qed.

Lemma byte_view_two `{UnsafeSliceLaws} lo hi : byte_view [lo; hi] = le_put 8 lo ++ le_put 8 hi.
Proof.
  pose proof (slice_byte_view [lo; hi] 0 lo eq_refl) as E0.
  pose proof (slice_byte_view [lo; hi] 1 hi eq_refl) as E1.
  pose proof (length_byte_view [lo; hi]) as Hl. rewrite <-E0, <-E1. unfold slice. cbn in Hl |- *.
  rewrite drop_0. symmetry. rewrite (take_ge (drop 8 _)); [apply take_drop|].
  rewrite length_drop. lia.
Qed.

Lemma amd64_scratch lo hi :
  let s := le_put 8 lo ++ le_put 8 hi in
  take 15 (drop 1 (put_at s 1 (take (length s - 1) s))) = take 15 s.
Proof.
  generalize (length_le_put 8 lo), (length_le_put 8 hi).
  generalize (le_put 8 lo), (le_put 8 hi). intros a b La Lb.
  do 9 (destruct a as [|? a]; try discriminate La). by do 9 (destruct b as [|? b]; try discriminate Lb).
Qed.

(** What the comment of [PseudorandomCode] announces. *)
Definition code_spec `{AES, Murmur3} (aesBlock src : list Z) (hIdx : Z) : list Z :=
  let '(lo, hi) := SeedSum128 hIdx hIdx src in
  concat ((λ i, aes_Encrypt aesBlock (i :: take 15 (le_put 8 lo ++ le_put 8 hi))) <$> [1; 2; 3; 4]).

Lemma generic_code_spec `{AESLaws, Murmur3} aesBlock src hIdx :
  CodeGeneric.PseudorandomCode aesBlock src hIdx = code_spec aesBlock src hIdx.
Proof.
  unfold CodeGeneric.PseudorandomCode, code_spec. destruct (SeedSum128 _ _ _) as [lo hi].
  rewrite encrypt_blocks_spec; [by rewrite generic_scratch|].
  assert (length (put_at (replicate (1 + BlockSize) 0) 1 (le_put 8 lo)) = 17%nat) as L.
  { rewrite length_put_at; rewrite length_replicate; [done|].
    rewrite length_le_put. unfold BlockSize. lia. }
  rewrite length_put_at; rewrite L; rewrite ?length_le_put; lia.
Qed.

Lemma amd64_code_spec `{AESLaws, Murmur3, UnsafeSliceLaws} aesBlock src hIdx :
  CodeAmd64.PseudorandomCode aesBlock src hIdx = code_spec aesBlock src hIdx.
Proof.
  unfold CodeAmd64.PseudorandomCode, code_spec. destruct (SeedSum128 _ _ _) as [lo hi].
  rewrite byte_view_two, encrypt_blocks_spec; [by rewrite amd64_scratch|].
  rewrite !length_put_at, length_app, !length_le_put; [lia|].
  rewrite length_take, length_app, !length_le_put. lia.
Qed.

Lemma length_code_spec `{AESLaws, Murmur3} aesBlock src hIdx :
  length (code_spec aesBlock src hIdx) = 64%nat.
Proof.
  unfold code_spec. destruct (SeedSum128 _ _ _). cbn [fmap list_fmap concat].
  by rewrite !length_app, !length_aes_Encrypt.
Qed.

Lemma code_spec_bytes `{AESLaws, Murmur3} aesBlock src hIdx : bytes_ok (code_spec aesBlock src hIdx).
Proof.
  unfold code_spec. destruct (SeedSum128 _ _ _). cbn [fmap list_fmap concat].
  rewrite !Forall_app. split_and!; auto using aes_Encrypt_bytes.
Qed.

(** Both builds fit the interface. *)
#[export] Instance generic_code_laws `{AESLaws, Murmur3} :
  @CodeOpsLaws CodeGeneric.PseudorandomCode.
Proof.
  split; intros; unfold PseudorandomCode; rewrite generic_code_spec;
    [apply length_code_spec|apply code_spec_bytes].
Qed.
#[export] Instance amd64_code_laws `{AESLaws, Murmur3, UnsafeSliceLaws} :
  @CodeOpsLaws CodeAmd64.PseudorandomCode.
Proof.
  split; intros; unfold PseudorandomCode; rewrite amd64_code_spec;
    [apply length_code_spec|apply code_spec_bytes].
Qed.

(** ** The group of points *)
Section GroupLemmas.
Context `{CurveLaws}.
Implicit Types p q r : Point.

Lemma infinity_on_curve : on_curve infinity.
Proof. by left. Qed.
Hint Resolve infinity_on_curve G_on_curve Add_on_curve neg_on_curve : core.

Lemma times_on_curve n p : on_curve p → on_curve (times n p).
Proof. induction n; cbn [times]; auto. Qed.
Hint Resolve times_on_curve : core.

Lemma Sub_neg p q : Sub p q = Add p (neg q).
Proof. done. Qed.

Lemma Add_infinity_r p : on_curve p → Add p infinity = p.
Proof. intros. by rewrite Add_comm, Add_infinity by auto. Qed.

Lemma times_add m n p : on_curve p → times (m + n) p = Add (times m p) (times n p).
Proof.
  intros Hp. induction m as [|m IH]; cbn [times Nat.add].
  - by rewrite Add_infinity by auto.
  - by rewrite IH, Add_assoc by auto.
Qed.

Lemma times_times m n p : on_curve p → times m (times n p) = times (m * n) p.
Proof.
  intros Hp. induction m as [|m IH]; cbn [times Nat.mul]; [done|].
  by rewrite times_add, IH by auto.
Qed.

Lemma times_comm m n p : on_curve p → times m (times n p) = times n (times m p).
Proof. intros. by rewrite !times_times, Nat.mul_comm by done. Qed.

Lemma times_Add n p q : on_curve p → on_curve q → times n (Add p q) = Add (times n p) (times n q).
Proof.
  intros Hp Hq. induction n as [|n IH]; cbn [times]; [by rewrite Add_infinity by auto|].
  rewrite IH, <-!Add_assoc by auto. f_equal. rewrite !Add_assoc by auto. f_equal. by apply Add_comm; auto.
Qed.

Lemma neg_unique p q : on_curve p → on_curve q → Add p q = infinity → q = neg p.
Proof.
  intros Hp Hq E. rewrite <-(Add_infinity q), <-(Add_neg p), (Add_comm p) by auto.
  by rewrite <-Add_assoc, E, Add_infinity_r by auto.
Qed.

Lemma times_infinity n : times n infinity = infinity.
Proof. induction n as [|n IH]; cbn [times]; [done|]. by rewrite IH, Add_infinity by auto. Qed.

Lemma times_neg n p : on_curve p → times n (neg p) = neg (times n p).
Proof.
  intros Hp. apply neg_unique; [auto..|].
  by rewrite <-times_Add, Add_neg, times_infinity by auto.
Qed.

Lemma neg_neg p : on_curve p → neg (neg p) = p.
Proof.
  intros Hp. symmetry. apply neg_unique; [auto..|]. rewrite Add_comm by auto. by apply Add_neg.
Qed.

Lemma neg_Add p q : on_curve p → on_curve q → neg (Add p q) = Add (neg p) (neg q).
Proof.
  intros Hp Hq. symmetry. apply neg_unique; [auto..|].
  rewrite (Add_comm (neg p)), <-Add_assoc, (Add_assoc q), Add_neg, Add_infinity by auto.
  by apply Add_neg.
Qed.

Lemma Sub_Sub p q : on_curve p → on_curve q → Sub p (Sub p q) = q.
Proof.
  intros Hp Hq. rewrite !Sub_neg, neg_Add, neg_neg, Add_assoc, Add_neg by auto.
  by apply Add_infinity.
Qed.

Lemma Sub_on_curve p q : on_curve p → on_curve q → on_curve (Sub p q).
Proof. intros. rewrite Sub_neg. auto. Qed.

Lemma Sub_infinity p q : on_curve p → on_curve q → Sub p q = infinity → p = q.
Proof.
  intros Hp Hq E. rewrite Sub_neg, Add_comm in E by auto.
  apply neg_unique in E; [|auto..]. by rewrite neg_neg in E by auto.
Qed.

Lemma ScalarMult_on_curve p k : on_curve p → on_curve (ScalarMult p k).
Proof. intros. rewrite ScalarMult_times by done. auto. Qed.

Lemma ScalarMult_comm p j k : on_curve p →
  ScalarMult (ScalarMult p j) k = ScalarMult (ScalarMult p k) j.
Proof.
  intros. rewrite !ScalarMult_times by auto using ScalarMult_on_curve. by apply times_comm.
Qed.

Lemma ScalarMult_Sub p q k : on_curve p → on_curve q →
  ScalarMult (Sub p q) k = Sub (ScalarMult p k) (ScalarMult q k).
Proof.
  intros. rewrite !ScalarMult_times, !Sub_neg by auto using Sub_on_curve.
  by rewrite times_Add, times_neg by auto.
Qed.

Lemma GenerateKey_Ok s : GenerateKey (Some s) = Ok (s, ScalarMult G s).
Proof. done. Qed.
End GroupLemmas.
#[export] Hint Resolve G_on_curve ScalarMult_on_curve Sub_on_curve : proc.

(** * Concrete functions for the witnesses *)

(** The curve [y^2 = x^3 + x + 6] over the field of 11 elements: 13 points. *)
Module Toy.
Definition p : Z := 11.
Definition inv (z : Z) : Z := z ^ (p - 2) mod p.

Definition add (x1 y1 x2 y2 : Z) : Z * Z :=
  if (x1 =? 0) && (y1 =? 0) then (x2, y2)
  else if (x2 =? 0) && (y2 =? 0) then (x1, y1)
  else if (x1 =? x2) && ((y1 + y2) mod p =? 0) then (0, 0)
  else
    let s := if x1 =? x2 then (3 * x1 * x1 + 1) * inv (2 * y1) mod p
             else (y2 - y1) * inv ((x2 - x1) mod p) mod p in
    let x3 := (s * s - x1 - x2) mod p in
    (x3, (s * (x1 - x3) - y1) mod p).

Definition on (u v : Z) : bool :=
  (0 <=? u) && (u <? p) && (0 <=? v) && (v <? p) && ((v * v) mod p =? (u * u * u + u + 6) mod p).

#[export] Instance toy_curve : Curve := {|
  curve_P := p;
  curve_G := (2, 7);
  IsOnCurve := on;
  curve_Add := add;
  curve_ScalarMult u v k :=
    Nat.iter (Z.to_nat (be_get k)) (λ q, add u v q.1 q.2) (0, 0);
  MarshalCompressed u v := [2 + v mod 2; u];
  UnmarshalCompressed bs :=
    match bs with
    | [t; u] => head (filter (λ q, on q.1 q.2 = true ∧ 2 + q.2 mod 2 = t) ((λ v, (u, v)) <$> seqZ 0 p))
    | _ => None
    end
|}.

Definition points : list Point :=
  NewPoint :: filter (λ q, on (px q) (py q) = true)
    (u ← seqZ 0 p; (λ v, of_pair (u, v)) <$> seqZ 0 p).

#[export] Instance point_eq_dec : EqDecision Point.
Proof. solve_decision. Defined.

Lemma on_points q : on_curve q → q ∈ points.
Proof.
  intros [->|Hq]; [by left|]. right. apply list_elem_of_filter. split; [done|].
  cbv [IsOnCurve toy_curve on] in Hq. destruct q as [u v]. cbn [px py] in *.
  apply list_elem_of_bind. exists u. split; [|apply elem_of_seqZ; lia].
  apply list_elem_of_fmap. exists v. split; [done|]. apply elem_of_seqZ. lia.
Qed.

(** Facts about all points, by checking the thirteen of them. *)
Lemma all1 (P : Point → bool) : forallb P points = true → ∀ q, on_curve q → P q = true.
Proof.
  intros Hb q Hq. apply on_points, list_elem_of_In in Hq.
  rewrite forallb_forall in Hb. by apply Hb.
Qed.

Lemma all2 (P : Point → Point → bool) :
  forallb (λ q, forallb (P q) points) points = true →
  ∀ q r, on_curve q → on_curve r → P q r = true.
Proof. intros Hb q r Hq. apply all1. by apply (all1 (λ q, forallb (P q) points)). Qed.

Lemma all3 (P : Point → Point → Point → bool) :
  forallb (λ q, forallb (λ r, forallb (P q r) points) points) points = true →
  ∀ q r s, on_curve q → on_curve r → on_curve s → P q r s = true.
Proof.
  intros Hb q r s Hq. apply all2. by apply (all1 (λ q, forallb (λ r, forallb (P q r) points) points)).
Qed.

Definition on_curveb (q : Point) : bool := equal q infinity || on (px q) (py q).

Lemma equal_eq q r : equal q r = true → q = r.
Proof. destruct q, r. cbv [equal px py]. intros [? ?]%andb_prop. f_equal; lia. Qed.

Lemma on_curveb_on q : on_curveb q = true → on_curve q.
Proof. intros [?%equal_eq|?]%orb_prop; [by left|by right]. Qed.

Lemma times_iter n q :
  times n q = of_pair (Nat.iter n (λ r, add (px q) (py q) r.1 r.2) (0, 0)).
Proof. induction n as [|n IH]; [done|]. cbn [times Nat.iter]. by rewrite IH. Qed.

#[export] Instance toy_curve_laws : @CurveLaws toy_curve.
Proof.
  split.
  - right. reflexivity.
  - intros q r Hq Hr. apply on_curveb_on. revert q r Hq Hr.
    apply (all2 (λ q r, on_curveb (Add q r))). vm_compute. reflexivity.
  - intros q Hq. apply on_curveb_on. revert q Hq.
    apply (all1 (λ q, on_curveb (neg q))). vm_compute. reflexivity.
  - intros q r s Hq Hr Hs. apply equal_eq. revert q r s Hq Hr Hs.
    apply (all3 (λ q r s, equal (Add q (Add r s)) (Add (Add q r) s))). vm_compute. reflexivity.
  - intros q r Hq Hr. apply equal_eq. revert q r Hq Hr.
    apply (all2 (λ q r, equal (Add q r) (Add r q))). vm_compute. reflexivity.
  - intros q Hq. apply equal_eq. revert q Hq.
    apply (all1 (λ q, equal (Add infinity q) q)). vm_compute. reflexivity.
  - intros q Hq. apply equal_eq. revert q Hq.
    apply (all1 (λ q, equal (Add q (neg q)) infinity)). vm_compute. reflexivity.
  - intros q k Hq. by rewrite times_iter.
  - done.
  - intros q Hq Hn.
    assert (equal q infinity || match Unmarshal (Marshal q) with Ok r => equal r q | _ => false end
      = true) as H.
    { clear Hn. revert q Hq. apply (all1 (λ q, equal q infinity ||
        match Unmarshal (Marshal q) with Ok r => equal r q | _ => false end)).
      vm_compute. reflexivity. }
    apply orb_prop in H as [?%equal_eq|H]; [done|].
    destruct (Unmarshal (Marshal q)); try done. by apply equal_eq in H as ->.
Qed.

(** Deterministic stand-ins for the hash functions, with the promised lengths. *)
Definition stretch (seed : Z) (n : nat) : list Z :=
  (λ i, (seed * (Z.of_nat i + 1) + 31 * Z.of_nat i * Z.of_nat i) mod 256) <$> seq 0 n.

#[export] Instance toy_blake3 : Blake3 := {|
  blake3_xof m n := stretch (foldr (λ b acc, (7 * acc + b + 1) mod 65521) 5 m) n;
  blake3_Sum256 m := stretch (foldr (λ b acc, (11 * acc + b + 3) mod 65521) 9 m) 32
|}.

Lemma stretch_bytes s n : bytes_ok (stretch s n).
Proof.
  apply Forall_fmap, Forall_true. intros i. unfold byte_ok. cbn.
  apply Z.mod_pos_bound. lia.
Qed.

#[export] Instance toy_blake3_laws : @Blake3Laws toy_blake3.
Proof.
  split; intros; cbn [blake3_xof toy_blake3].
  - unfold stretch. by rewrite length_fmap, length_seq.
  - apply stretch_bytes.
Qed.

#[export] Instance toy_aes : AES := λ key b,
  stretch (foldr (λ b acc, (7 * acc + b + 1) mod 65521) (le_get key mod 65521) b) 16.
#[export] Instance toy_aes_laws : @AESLaws toy_aes.
Proof.
  split; intros; unfold aes_Encrypt, toy_aes; [|apply stretch_bytes].
  unfold stretch. by rewrite length_fmap, length_seq.
Qed.

#[export] Instance toy_murmur3 : Murmur3 := λ s t data,
  ((le_get data + s) mod 2 ^ 64, (3 * le_get data + t) mod 2 ^ 64).

#[export] Instance one_core : Cores := {| GOMAXPROCS := 1; interleave := λ A _ l, l |}.
#[export] Instance one_core_laws : @CoresLaws one_core.
Proof. by split. Qed.
End Toy.

(** * Properties *)

(** [XorCipherWithBlake3] accepts every message, keeps its length, and is its
    own inverse: with the same key and index, whatever the cores do, the cipher of
    the cipher is the message. *)
Theorem XorCipher_roundtrip `{CoresLaws, Blake3Laws, ByteOpsLaws} j k key ind src :
  bytes_ok src →
  ∃ c, XorCipherWithBlake3 j key ind src = Ok c ∧ length c = length src ∧
    XorCipherWithBlake3 k key ind c = Ok src.
Proof.
  intros Hs. rewrite XorCipher_spec by done. eexists. split; [done|].
  split; [by rewrite length_xor_bytes; rewrite length_blake3_xof|]. by apply XorCipher_decrypt.
Qed.

Lemma XorCipher_roundtrip_witness :
  ∃ c, @XorCipherWithBlake3 Toy.toy_blake3 Toy.one_core generic_ops 0 [7; 8] 1 [104; 105] = Ok c ∧
    length c = 2%nat ∧
    @XorCipherWithBlake3 Toy.toy_blake3 Toy.one_core generic_ops 0 [7; 8] 1 c = Ok [104; 105].
Proof.
  apply (@XorCipher_roundtrip Toy.one_core Toy.one_core_laws Toy.toy_blake3 Toy.toy_blake3_laws
    generic_ops generic_ops_laws 0 0 [7; 8] 1 [104; 105]).
  repeat constructor; unfold byte_ok; lia.
Defined.

(** The portable and the amd64 builds of [PseudorandomCode] compute the same
    64 bytes, for any casts that behave as documented: four AES blocks of the
    block index followed by the first 15 bytes of the salted hash, as announced. *)
Theorem PseudorandomCode_builds_agree `{AESLaws, Murmur3, UnsafeSliceLaws} aesBlock src hIdx :
  CodeGeneric.PseudorandomCode aesBlock src hIdx = CodeAmd64.PseudorandomCode aesBlock src hIdx ∧
  CodeGeneric.PseudorandomCode aesBlock src hIdx = code_spec aesBlock src hIdx ∧
  length (CodeGeneric.PseudorandomCode aesBlock src hIdx) = 64%nat.
Proof. by rewrite amd64_code_spec, !generic_code_spec, length_code_spec. Qed.

Lemma PseudorandomCode_builds_agree_witness :
  @CodeGeneric.PseudorandomCode Toy.toy_aes Toy.toy_murmur3 [1; 2] [3; 4] 2 =
  @CodeAmd64.PseudorandomCode Toy.toy_aes Toy.toy_murmur3 le_unsafeslice [1; 2] [3; 4] 2.
Proof.
  apply (@PseudorandomCode_builds_agree Toy.toy_aes Toy.toy_aes_laws Toy.toy_murmur3
    le_unsafeslice le_unsafeslice_laws).
Defined.
