(* ===== verification/OT.v ===== *)
(** * internal/ot: oblivious transfer

    The interface [OT] of ot.go, with the contract its clients rely on, and the
    Naor-Pinkas protocol of naor_pinkas.go that implements it. *)
From stdpp Require Import relations.
From S2P Require Import Prelude Words Bits IO Proc Crypto.

(** A pair of messages. *)
Definition OTMessage : Type := list Z * list Z.

(** ** ot.go

    [Receive choices messages] returns what [messages] holds after the call. *)
Class OT := {
  ot_Send : list OTMessage → proc unit;
  ot_Receive : list Z → list (list Z) → proc (list (list Z))
}.

(** The message of pair [i] that the choice bits select. *)
Definition chosen (choices : list Z) (i : nat) (m : OTMessage) : list Z :=
  if Z.testbit (le_get choices) (Z.of_nat i) then m.2 else m.1.
Definition selected (choices : list Z) (ms : list OTMessage) : list (list Z) :=
  imap (chosen choices) ms.

(** What is transferred: one pair per choice bit, both messages of the agreed length. *)
Definition transfer_ok (lens : list nat) (choices : list Z) (ms : list OTMessage) : Prop :=
  bytes_ok choices ∧ length ms = (8 * length choices)%nat ∧ length lens = length ms ∧
  ∀ i m l, ms !! i = Some m → lens !! i = Some l →
    bytes_ok m.1 ∧ bytes_ok m.2 ∧ length m.1 = l ∧ length m.2 = l.

(** The receiver ends with the chosen messages. *)
Class OTLaws (recv_side send_side : OT) (lens : list nat) : Prop :=
  ot_transfers choices ms messages :
    transfer_ok lens choices ms → length messages = length ms →
    exchange (@ot_Receive recv_side choices messages) (@ot_Send send_side ms)
      (selected choices ms) ().

(** ** naor_pinkas.go *)
Record naorPinkas := { msgLens : list nat }.
Definition NewNaorPinkas (msgLens : list nat) : naorPinkas := {| msgLens := msgLens |}.

Section NaorPinkas.
Context `{Curve, Blake3, Cores, ByteOps}.

Definition writePoint (p : Point) : proc unit := send (Marshal p).
Definition readPoint : proc Point := let* pt := recv encodeLen in pure (Unmarshal pt).

Definition err_keys : string := "error generating keys".
Definition err_write : string := "error writing point".
Definition err_read : string := "error reading point".
Definition err_bytes : string := "error writing bytes".
Definition err_read_bytes : string := "error reading bytes".

(** The body of the sender's loop. *)
Definition send_pair (secretR : list Z) (pointA : Point) (otMessages : list OTMessage) (i : nat)
    (_ : unit) : proc unit :=
  let* keyMaterial := wrap_err err_read readPoint in
  let keys0 := ScalarMult keyMaterial secretR in
  let keys1 := Sub pointA keys0 in
  let* plaintext := pure (index otMessages (Z.of_nat i)) in
  let* ciphertext := pure (XorCipherWithBlake3 i (DeriveKeyFromECPoint keys0) 0 plaintext.1) in
  let* _ := wrap_err err_bytes (send ciphertext) in
  let* ciphertext := pure (XorCipherWithBlake3 i (DeriveKeyFromECPoint keys1) 1 plaintext.2) in
  wrap_err err_bytes (send ciphertext).

(** [draw k]: the secret of the [k]-th generated key. *)
Definition naor_Send (n : naorPinkas) (draw : nat → option (list Z)) (otMessages : list OTMessage)
    : proc unit :=
  if decide (length (msgLens n) ≠ length otMessages) then pure (Err ErrBaseCountMissMatch)
  else
    let* ' (_, pointA) := wrap_err err_keys (pure (GenerateKey (draw 0%nat))) in
    let* ' (secretR, pointR) := wrap_err err_keys (pure (GenerateKey (draw 1%nat))) in
    let* _ := wrap_err err_write (writePoint pointA) in
    let* _ := wrap_err err_write (writePoint pointR) in
    let pointA := ScalarMult pointA secretR in
    for_proc (send_pair secretR pointA otMessages) 0 (length otMessages) ().

(** The body of the receiver's loop. *)
Definition receive_pair (n : naorPinkas) (draw : nat → option (list Z)) (choices : list Z)
    (pointA pointR : Point) (i : nat) (messages : list (list Z)) : proc (list (list Z)) :=
  let* ' (secretB, pointB) := wrap_err err_keys (pure (GenerateKey (draw i))) in
  let* set := pure (IsBitSet choices (Z.of_nat i)) in
  let* _ := (if negb set then wrap_err err_write (writePoint pointB)
             else wrap_err err_write (writePoint (Sub pointA pointB))) in
  let* l := pure (index (msgLens n) (Z.of_nat i)) in
  let* encrypted0 := wrap_err err_read_bytes (recv l) in
  let* encrypted1 := wrap_err err_write (recv l) in
  let pointK := ScalarMult pointR secretB in
  let* choiceBit := pure (BitExtract choices (Z.of_nat i)) in
  let* m := pure (XorCipherWithBlake3 i (DeriveKeyFromECPoint pointK) choiceBit
                    (if choiceBit =? 0 then encrypted0 else encrypted1)) in
  pure (store messages (Z.of_nat i) m).

Definition naor_Receive (n : naorPinkas) (draw : nat → option (list Z)) (choices : list Z)
    (messages : list (list Z)) : proc (list (list Z)) :=
  if decide ((length choices * 8)%nat ≠ length messages ∨
             (length choices * 8)%nat ≠ length (msgLens n))
  then pure (Err ErrBaseCountMissMatch)
  else
    let* pointA := wrap_err err_read readPoint in
    let* pointR := wrap_err err_read readPoint in
    for_proc (receive_pair n draw choices pointA pointR) 0 (length messages) messages.

(** The party with its messages' lengths and its sampled secrets. *)
Definition naor_OT (n : naorPinkas) (draw : nat → option (list Z)) : OT := {|
  ot_Send := naor_Send n draw;
  ot_Receive := naor_Receive n draw
|}.

(** The secrets are drawn, and no point that is sent is the point at infinity,
    which cannot be marshalled: the receiver's keys are not infinity and none is
    the sender's [A]. *)
Record draws_ok (drawS drawR : nat → option (list Z)) (n : nat) : Prop := {
  draw_A : ∃ a, drawS 0%nat = Some a ∧ ScalarMult G a ≠ infinity;
  draw_R : ∃ r, drawS 1%nat = Some r ∧ ScalarMult G r ≠ infinity;
  draw_B i : (i < n)%nat → ∃ b, drawR i = Some b ∧ ScalarMult G b ≠ infinity ∧
    ∀ a, drawS 0%nat = Some a → ScalarMult G a ≠ ScalarMult G b
}.
End NaorPinkas.

(** * Lemmas *)
Section NaorPinkasLemmas.
Context `{CurveLaws, Blake3Laws, CoresLaws, ByteOpsLaws}.

(** Both ends of the choice compute the key [brG]. *)
Lemma chosen_key a r b (c : bool) :
  let A := ScalarMult G a in let R := ScalarMult G r in let B := ScalarMult G b in
  let K0 := ScalarMult (if c then Sub A B else B) r in
  (if c then Sub (ScalarMult A r) K0 else K0) = ScalarMult R b.
Proof.
  destruct c; cbn zeta iota.
  - rewrite <-ScalarMult_Sub, Sub_Sub by auto with proc. apply ScalarMult_comm; auto with proc.
  - apply ScalarMult_comm; auto with proc.
Qed.

Lemma lookup_selected choices ms i m :
  ms !! i = Some m → selected choices ms !! i = Some (chosen choices i m).
Proof. intros Hm. unfold selected. by rewrite list_lookup_imap, Hm. Qed.

Lemma length_selected choices ms : length (selected choices ms) = length ms.
Proof. apply length_imap. Qed.

Lemma BitExtract_Ok b i :
  bytes_ok b → 0 ≤ i < 8 * Z.of_nat (length b) →
  BitExtract b i = Ok (if Z.testbit (le_get b) i then 1 else 0).
Proof.
  intros. unfold BitExtract. rewrite IsBitSet_Ok by done. cbn [res_bind]. by destruct (Z.testbit _ _).
Qed.

(** One turn of both loops. *)
Lemma pair_exchange n draw choices ms messages a r b i m l :
  transfer_ok (msgLens n) choices ms → draw i = Some b →
  ScalarMult G b ≠ infinity → ScalarMult G a ≠ ScalarMult G b →
  ms !! i = Some m → msgLens n !! i = Some l → (i < length messages)%nat →
  exchange (receive_pair n draw choices (ScalarMult G a) (ScalarMult G r) i messages)
    (send_pair r (ScalarMult (ScalarMult G a) r) ms i ())
    (<[i := chosen choices i m]> messages) ().
Proof.
  intros (Bc & Hlm & Hll & Hms) Hd HB HAB Hm Hl Hi.
  destruct (Hms i m l Hm Hl) as (B0 & B1 & L0 & L1).
  assert (0 ≤ Z.of_nat i < 8 * Z.of_nat (length choices)) as Hbit.
  { apply lookup_lt_Some in Hm. lia. }
  unfold exchange, receive_pair, send_pair. rewrite Hd, GenerateKey_Ok.
  unfold pure. cbn [pbind wrap_err].
  rewrite IsBitSet_Ok, BitExtract_Ok by done. rewrite (Ok_index_nat _ _ _ Hl), (Ok_index_nat _ _ _ Hm).
  pose proof (chosen_key a r b (Z.testbit (le_get choices) (Z.of_nat i))) as HK. cbn zeta in HK.
  unfold chosen. set (c := Z.testbit (le_get choices) (Z.of_nat i)) in *.
  set (K := if c then Sub (ScalarMult G a) (ScalarMult G b) else ScalarMult G b) in HK.
  assert (on_curve K ∧ K ≠ infinity) as [HK1 HK2].
  { subst K. destruct c; split; auto with proc. intros E. apply HAB.
    apply Sub_infinity in E; auto with proc. }
  replace (if negb c then _ else _) with (wrap_err err_write (writePoint K))
    by (subst K; by destruct c).
  unfold writePoint, readPoint, send, recv, pure. cbn [pbind wrap_err].
  apply steps_left_send. cbn [pbind wrap_err app].
  apply steps_right_recv_all; [by apply length_Marshal|].
  rewrite Unmarshal_Marshal by done. cbn [pbind wrap_err].
  rewrite !XorCipher_spec by done. cbn [pbind wrap_err].
  apply steps_right_send. cbn [pbind wrap_err app]. apply steps_right_send. cbn [pbind wrap_err].
  apply steps_left_recv; [by rewrite length_xor_bytes; rewrite length_blake3_xof|].
  cbn [pbind wrap_err].
  apply steps_left_recv_all; [by rewrite length_xor_bytes; rewrite length_blake3_xof|].
  cbn [pbind wrap_err]. unfold finished. destruct c; cbn [Z.eqb] in HK |- *.
  - rewrite HK, XorCipher_decrypt by done. cbn [pbind].
    rewrite store_Ok, Nat2Z.id by lia. apply rtc_refl.
  - rewrite HK, XorCipher_decrypt by done. cbn [pbind].
    rewrite store_Ok, Nat2Z.id by lia. apply rtc_refl.
Qed.

Lemma naor_exchange n drawS drawR choices ms messages :
  transfer_ok (msgLens n) choices ms → draws_ok drawS drawR (length ms) →
  length messages = length ms →
  exchange (naor_Receive n drawR choices messages) (naor_Send n drawS ms) (selected choices ms) ().
Proof.
  intros Hok [(a & Ha & HA) (r & Hr & HR) HB] Hl. pose proof Hok as (Bc & Hlm & Hll & Hms).
  unfold exchange, naor_Receive, naor_Send.
  rewrite decide_False by lia. rewrite decide_False by lia.
  rewrite Ha, Hr, !GenerateKey_Ok. unfold writePoint, readPoint, send, recv, pure. cbn [pbind wrap_err].
  apply steps_right_send. cbn [pbind wrap_err]. apply steps_right_send. cbn [pbind wrap_err app].
  apply steps_left_recv; [by apply length_Marshal; auto with proc|].
  rewrite Unmarshal_Marshal by auto with proc. cbn [pbind wrap_err].
  apply steps_left_recv_all; [by apply length_Marshal; auto with proc|].
  rewrite Unmarshal_Marshal by auto with proc. cbn [pbind wrap_err].
  rewrite Hl.
  destruct (exchange_for
    (receive_pair n drawR choices (ScalarMult G a) (ScalarMult G r))
    (send_pair r (ScalarMult (ScalarMult G a) r) ms)
    (λ i msgs _, msgs = take i (selected choices ms) ++ drop i messages) (length ms) 0 messages ())
    as (s' & [] & He & ->).
  - done.
  - intros i msgs [] Hi ->. destruct (lookup_lt_is_Some_2 ms i) as [m Hm]; [lia|].
    destruct (lookup_lt_is_Some_2 (msgLens n) i) as [l Hl']; [lia|].
    destruct (HB i) as (b & Hb & HbG & Hab); [lia|].
    eexists _, ().
    split; [|by apply fill_next; [apply lookup_selected|rewrite length_selected]].
    eapply (pair_exchange n drawR choices ms _ a r b i m l); auto.
    rewrite length_app, length_take, length_drop, length_selected. lia.
  - cbn [Nat.add] in He. rewrite take_ge, drop_ge, app_nil_r in He by (rewrite ?length_selected; lia).
    exact He.
Qed.

(** Naor-Pinkas parties keep the contract of the interface. *)
#[export] Instance naor_OT_laws n drawS drawR :
  draws_ok drawS drawR (length (msgLens n)) →
  OTLaws (naor_OT n drawR) (naor_OT n drawS) (msgLens n).
Proof.
  intros Hd choices ms messages Hok Hl. apply naor_exchange; [done| |done].
  destruct Hok as (_ & _ & <- & _). done.
Qed.
End NaorPinkasLemmas.

(** * Properties *)

(** C13: Naor-Pinkas transfers what was chosen.  With as many pairs as choice bits,
    messages of the agreed lengths and points that can be sent, every run of the
    two parties is finite and ends with both returning no error, nothing left in
    transit, and in [messages] the second message of each pair whose bit is set and
    the first of the others. *)
Theorem naor_pinkas_transfers `{CurveLaws, Blake3Laws, CoresLaws, ByteOpsLaws}
    n drawS drawR choices ms messages :
  transfer_ok (msgLens n) choices ms → draws_ok drawS drawR (length ms) →
  length messages = length ms →
  inevitable (naor_Receive n drawR choices messages) (naor_Send n drawS ms) (selected choices ms) ().
Proof. intros. by apply exchange_inevitable, naor_exchange. Qed.

(** Eight pairs of messages of two bytes, chosen by the bits of 178. *)
Definition toy_pairs : list OTMessage := (λ i, ([i; i + 1], [i + 100; i + 101])) <$> seqZ 0 8.

Lemma naor_pinkas_transfers_witness :
  let _ := Toy.toy_curve in let _ := Toy.toy_blake3 in let _ := Toy.one_core in
  let _ := generic_ops in
  inevitable (naor_Receive (NewNaorPinkas (replicate 8 2%nat)) (λ i, Some [Z.of_nat i + 5]) [178] (replicate 8 []))
    (naor_Send (NewNaorPinkas (replicate 8 2%nat)) (λ k, Some [Z.of_nat k + 3]) toy_pairs)
    [[0; 1]; [101; 102]; [2; 3]; [3; 4]; [104; 105]; [105; 106]; [6; 7]; [107; 108]] ().
Proof.
  apply (@naor_pinkas_transfers Toy.toy_curve Toy.toy_curve_laws Toy.toy_blake3 Toy.toy_blake3_laws
    Toy.one_core Toy.one_core_laws generic_ops generic_ops_laws (NewNaorPinkas (replicate 8 2%nat))
    (λ k, Some [Z.of_nat k + 3]) (λ i, Some [Z.of_nat i + 5]) [178] toy_pairs (replicate 8 [])).
  - split; [solve_bytes|]. split; [done|]. split; [done|].
    intros i m l Hm Hl. do 8 (destruct i as [|i]; [vm_compute in Hm, Hl; simplify_eq; split_and!;
      solve [done|solve_bytes]|]). done.
  - split.
    + exists [3]. split; [done|]. vm_compute. discriminate.
    + exists [4]. split; [done|]. vm_compute. discriminate.
    + cbn [length toy_pairs]. intros i Hi. exists [Z.of_nat i + 5]. split; [done|].
      do 8 (destruct i as [|i]; [split; [vm_compute; discriminate|];
        intros a Ha; simplify_eq; vm_compute; discriminate|]). exfalso. vm_compute in Hi. lia.
  - done.
Defined.
