(* ===== verification/Oprf.v ===== *)
(** * internal/oprf: oprf.go

    The batched oblivious pseudorandom function of KKRT.  The sender gets a
    [Key]; the receiver gets, for the items of its cuckoo table, the hashes of
    their encodings.  Both parties are proved against the interfaces of the base
    OT ([OT], [OTLaws]), of the byte operations and of the pseudorandom code. *)
From stdpp Require Import relations.
From S2P Require Import Prelude Words Bits BitVect BitMatrix Hash Cuckoo IO Proc Crypto OT.

Definition baseOTCount : nat := 512.
Definition baseOTCountBitmapWidth : nat := 64.

(** The secret choice bytes and one row [q_j] per bucket. *)
Record Key := { secret : list Z; oprfKeys : list (list Z) }.

(** [NewOPRF m]: the base OT works on 512 pairs of 64 bytes. *)
Definition baseMsgLens : list nat := replicate baseOTCount baseOTCountBitmapWidth.
Record OPRF := { baseOT : OT; m : Z }.

(** [make([]byte, n)]. *)
Definition make_bytes (n : Z) : res (list Z) :=
  if n <? 0 then Panic "makeslice: len out of range" else Ok (replicate (Z.to_nat n) 0).

Section Oprf.
Context `{Blake3, Cores, ByteOps, CodeOps, MetroHash}.

Definition NewOPRF (draw : nat → option (list Z)) (m : Z) `{Curve} : OPRF :=
  {| baseOT := naor_OT (NewNaorPinkas baseMsgLens) draw; m := m |}.

(** The interleaving of the blocks of a transposition of [nblks] blocks. *)
Definition blocks (nblks : nat) : list (nat * nat) :=
  interleave 0 (pool_jobs GOMAXPROCS nblks).

(** ** Send *)

(** One turn of the loop over the columns. *)
Definition send_column (paddedLen : Z) (choices : list Z) (seeds : list (list Z)) (col : nat)
    (keys : list (list Z)) : proc (list (list Z)) :=
  let* oprfMask := recv (Z.to_nat paddedLen) in
  let* seed := pure (index seeds (Z.of_nat col)) in
  let* key := pure (let! dst := make_bytes paddedLen in PseudorandomGenerate dst seed) in
  let* set := pure (IsBitSet choices (Z.of_nat col)) in
  let* key := pure (if set : bool then ConcurrentBitOp Xor GOMAXPROCS (schedule col) key oprfMask
                    else Ok key) in
  pure (store keys (Z.of_nat col) key).

(** [draw]: what [rand.Read] fills the choice bytes with. *)
Definition oprf_Send (ext : OPRF) (draw : nat → option (nat → Z)) : proc Key :=
  let* choices := pure (rand_Read draw 0 baseOTCountBitmapWidth) in
  let* seeds := @ot_Receive (baseOT ext) choices (replicate baseOTCount []) in
  let* paddedLen := pure (PadBitMap (m ext) (Z.of_nat baseOTCount)) in
  let* _ := pure (make_bytes paddedLen) in
  let* keys := for_proc (send_column paddedLen choices seeds) 0 baseOTCount
                 (replicate baseOTCount []) in
  let* keys := pure (ConcurrentTransposeWide GOMAXPROCS (blocks (Z.to_nat (Z.quot paddedLen 64))) keys) in
  let* keys := pure (go_prefix keys (m ext)) in
  pure (Ok {| secret := choices; oprfKeys := keys |}).

(** ** Receive *)

(** The code of the item of bucket [step], or of the empty item. *)
Definition encode_bucket (choices : Cuckoo) (aesBlock : list Z) (step : nat)
    (encoding : list (list Z)) : res (list (list Z)) :=
  let! idx := GetBucket choices (Z.of_nat step) in
  let! ' (item, hIdx) := GetItemWithHash choices idx in
  store encoding (Z.of_nat step) (PseudorandomCode aesBlock item hIdx).

(** The steps of the goroutines: [stepSize] buckets each. *)
Definition encode_jobs (maxProcs stepSize : nat) : list nat :=
  seq 0 maxProcs ≫= λ j, (λ offset, stepSize * j + offset)%nat <$> seq 0 stepSize.

Fixpoint encode_all (choices : Cuckoo) (aesBlock : list Z) (jobs : list nat)
    (encoding : list (list Z)) : res (list (list Z)) :=
  match jobs with
  | [] => Ok encoding
  | step :: jobs =>
      let! encoding := encode_bucket choices aesBlock step encoding in
      encode_all choices aesBlock jobs encoding
  end.

(** The thread that computes the code words, padded and transposed. *)
Definition pseudorandomEncodings (ext : OPRF) (choices : Cuckoo) (aesBlock : list Z)
    : res (list (list Z)) :=
  let maxProcs := GOMAXPROCS in
  let stepSize := Z.to_nat (Z.quot (m ext) (Z.of_nat maxProcs)) in
  let! bitMapLen := Pad (m ext) (Z.of_nat baseOTCount) in
  let encoding := replicate (Z.to_nat bitMapLen) [] in
  let! encoding := encode_all choices aesBlock (interleave 1 (encode_jobs maxProcs stepSize)) encoding in
  let start := (stepSize * maxProcs)%nat in
  let! encoding := for_res (encode_bucket choices aesBlock) start (Z.to_nat (m ext) - start) encoding in
  let! encoding := for_res (λ i e, store e (Z.of_nat i) (replicate baseOTCountBitmapWidth 0))
    (Z.to_nat (m ext)) (length encoding - Z.to_nat (m ext)) encoding in
  ConcurrentTransposeTall GOMAXPROCS (blocks (length encoding / 512)) encoding.

(** [sampleRandomOTMessages]: [draw k] fills the [k]-th slice. *)
Definition sampleRandomOTMessages (draw : nat → option (nat → Z)) : res (list OTMessage) :=
  for_res (λ row (matrix : list OTMessage),
    let! m0 := rand_Read draw (2 * row) baseOTCountBitmapWidth in
    let! m1 := rand_Read draw (2 * row + 1) baseOTCountBitmapWidth in
    Ok (matrix ++ [(m0, m1) : OTMessage])) 0 baseOTCount [].

(** One turn of the loop over the columns: the encodings and the mask buffer. *)
Definition receive_column (paddedLen : Z) (baseMsgs : list OTMessage) (prc : list (list Z))
    (col : nat) (st : list (list Z) * list Z) : proc (list (list Z) * list Z) :=
  let '(encodings, oprfMask) := st in
  let* msgs := pure (index baseMsgs (Z.of_nat col)) in
  let* enc := pure (let! dst := make_bytes paddedLen in PseudorandomGenerate dst msgs.1) in
  let* oprfMask := pure (PseudorandomGenerate oprfMask msgs.2) in
  let* code := pure (index prc (Z.of_nat col)) in
  let* oprfMask := pure (ConcurrentDoubleBitOp DoubleXor GOMAXPROCS (schedule col) oprfMask enc code) in
  let* _ := send oprfMask in
  let* encodings := pure (store encodings (Z.of_nat col) enc) in
  pure (Ok (encodings, oprfMask)).

(** The loop that hashes and indexes the encoding of bucket [bIdx]. *)
Definition index_encoding (choices : Cuckoo) (hasher : metro64) (oprfEncodings : list (list Z))
    (bIdx : nat) (encodings : list (gmap Z Z)) : res (list (gmap Z Z)) :=
  let! idx := GetBucket choices (Z.of_nat bIdx) in
  if idx =? 0 then Ok encodings
  else
    let! ' (_, hIdx) := GetItemWithHash choices idx in
    let! enc := index oprfEncodings (Z.of_nat bIdx) in
    let! mp := index encodings hIdx in
    store encodings hIdx (<[Hash64 hasher enc := idx]> mp).

Definition index_encodings (choices : Cuckoo) (oprfEncodings : list (list Z))
    : res (list (gmap Z Z)) :=
  let! hasher := GetHasher (hasher choices) in
  for_res (index_encoding choices hasher oprfEncodings) 0 (length oprfEncodings)
    (replicate Nhash ∅).

Definition oprf_Receive (ext : OPRF) (draw : nat → option (nat → Z)) (choices : Cuckoo)
    (secretKey : list Z) : proc (list (gmap Z Z)) :=
  if negb (Len choices =? m ext) then pure (Err ErrBaseCountMissMatch)
  else
    let* aesBlock := pure (aes_NewCipher secretKey) in
    let* baseMsgs := pure (sampleRandomOTMessages draw) in
    let* _ := @ot_Send (baseOT ext) baseMsgs in
    let* prc := pure (pseudorandomEncodings ext choices aesBlock) in
    let* paddedLen := pure (PadBitMap (m ext) (Z.of_nat baseOTCount)) in
    let* oprfMask := pure (make_bytes paddedLen) in
    let* ' (encodings, _) := for_proc (receive_column paddedLen baseMsgs prc) 0 (length prc)
                               (replicate baseOTCount [], oprfMask) in
    let* encodings := pure (ConcurrentTransposeWide GOMAXPROCS
                              (blocks (Z.to_nat (Z.quot paddedLen 64))) encodings) in
    let* encodings := pure (go_prefix encodings (m ext)) in
    pure (index_encodings choices encodings).

(** [Encode]: the slice after the call. *)
Definition Encode (k : Key) (rowIdx : Z) (pseudorandomEncoding : list Z) : res (list Z) :=
  let! row := index (oprfKeys k) rowIdx in
  ConcurrentDoubleBitOp AndXor GOMAXPROCS (schedule 0) pseudorandomEncoding (secret k) row.
End Oprf.

(** * Lemmas *)

(** ** Bits of byte strings *)
Definition bitof (l : list Z) (i : nat) : bool :=
  Z.testbit (l !!! (i / 8)%nat) (Z.of_nat (i mod 8)).

Lemma bitof_zip (op : Z → Z → Z) (f : bool → bool → bool) a b i :
  (∀ x y n, 0 ≤ n → Z.testbit (op x y) n = f (Z.testbit x n) (Z.testbit y n)) →
  length a = length b → (i < 8 * length a)%nat →
  bitof (zip_with op a b) i = f (bitof a i) (bitof b i).
Proof.
  intros Hop Hl Hi. unfold bitof. assert (i / 8 < length a)%nat by dlia.
  destruct (lookup_lt_is_Some_2 a (i / 8)) as [u Hu]; [lia|].
  destruct (lookup_lt_is_Some_2 b (i / 8)) as [v Hv]; [lia|].
  rewrite (list_lookup_total_correct _ _ _ Hu), (list_lookup_total_correct _ _ _ Hv).
  rewrite (list_lookup_total_correct _ _ (op u v)) by (rewrite lookup_zip_with, Hu, Hv; done).
  apply Hop. lia.
Qed.

Lemma bitof_xor a b i : length a = length b → (i < 8 * length a)%nat →
  bitof (zip_with Z.lxor a b) i = xorb (bitof a i) (bitof b i).
Proof. apply (bitof_zip Z.lxor xorb). intros. by apply Z.lxor_spec. Qed.

Lemma bitof_and a b i : length a = length b → (i < 8 * length a)%nat →
  bitof (zip_with Z.land a b) i = bitof a i && bitof b i.
Proof. apply (bitof_zip Z.land andb). intros. by apply Z.land_spec. Qed.

Lemma and_bytes_ok a b : bytes_ok a → bytes_ok b → bytes_ok (zip_with Z.land a b).
Proof. apply zip_with_bytes_ok, _. Qed.

(** ** The code words of a table *)
Section Codes.
Context `{CoresLaws, CodeOpsLaws, MetroHash}.
Context (size : Z) (c : Cuckoo) (Hc : valid size c) (key : list Z).
Let nb : nat := Z.to_nat (bucketSize (hasher c)).

(** The code word of bucket [b]. *)
Definition code_at (b : nat) : list Z :=
  match (let! idx := GetBucket c (Z.of_nat b) in GetItemWithHash c idx) with
  | Ok (item, hIdx) => PseudorandomCode key item hIdx
  | _ => []
  end.

Lemma bucket_read b :
  (b < nb)%nat → ∃ idx item hIdx, GetBucket c (Z.of_nat b) = Ok idx ∧ 0 ≤ idx ≤ size ∧
    GetItemWithHash c idx = Ok (item, hIdx) ∧ code_at b = PseudorandomCode key item hIdx.
Proof.
  intros Hb. pose proof Hc as [Hs Hi Hp _ _].
  destruct (GetBucket_slot size c (Z.of_nat b) Hs) as (idx & E & Hsl); [subst nb; lia|].
  assert (0 ≤ idx ≤ size) as Hr.
  { destruct (placed_live _ _ _ Hp _ _ Hsl) as [->|Hl]; [lia|].
    pose proof (placed_range _ _ _ Hp _ Hl). lia. }
  destruct (read_item size c idx Hs Hr) as (item & h & E' & _).
  exists idx, item, h. split_and!; try done; try lia. unfold code_at. rewrite E. cbn [res_bind].
  by rewrite E'.
Qed.

Lemma code_at_ok b : (b < nb)%nat → length (code_at b) = 64%nat ∧ bytes_ok (code_at b).
Proof.
  intros Hb. destruct (bucket_read b Hb) as (idx & item & h & _ & _ & _ & ->).
  split; [apply length_PseudorandomCode|apply PseudorandomCode_bytes].
Qed.

Lemma encode_bucket_Ok b enc :
  (b < nb)%nat → (b < length enc)%nat → encode_bucket c key b enc = Ok (<[b := code_at b]> enc).
Proof.
  intros Hb Hl. destruct (bucket_read b Hb) as (idx & item & h & E & _ & E' & ->).
  unfold encode_bucket. rewrite E. cbn [res_bind]. rewrite E'. cbn [res_bind].
  by rewrite store_Ok, Nat2Z.id by lia.
Qed.

Lemma encode_all_spec jobs enc :
  Forall (λ b, b < nb ∧ b < length enc)%nat jobs →
  ∃ enc', encode_all c key jobs enc = Ok enc' ∧ length enc' = length enc ∧
    ∀ b, (b < length enc)%nat →
      enc' !! b = if decide (b ∈ jobs) then Some (code_at b) else enc !! b.
Proof.
  intros Hj. revert enc Hj. induction jobs as [|j jobs IH]; intros enc Hj; cbn [encode_all].
  { exists enc. split; [done|]. split; [done|]. intros. by rewrite decide_False by set_solver. }
  apply Forall_cons in Hj as [[Hj1 Hj2] Hj]. rewrite encode_bucket_Ok by done. cbn [res_bind].
  destruct (IH (<[j := code_at j]> enc)) as (enc' & E & Hl & He).
  { by rewrite length_insert. }
  rewrite length_insert in Hl, He. exists enc'. split; [done|]. split; [done|]. intros b Hb.
  rewrite He by done. destruct (decide (b ∈ jobs)); [by rewrite decide_True by set_solver|].
  destruct (decide (b = j)) as [->|].
  - rewrite decide_True by set_solver. by apply list_lookup_insert_eq.
  - rewrite decide_False by set_solver. by apply list_lookup_insert_ne.
Qed.

Lemma for_res_encode start n enc :
  for_res (encode_bucket c key) start n enc = encode_all c key (seq start n) enc.
Proof.
  revert start enc. induction n as [|n IH]; intros start enc; [done|].
  cbn [for_res seq encode_all]. destruct (encode_bucket c key start enc); [apply IH|done..].
Qed.

Lemma elem_of_encode_jobs np st b : b ∈ encode_jobs np st ↔ (b < st * np)%nat.
Proof.
  unfold encode_jobs. rewrite list_elem_of_bind. split.
  - intros (j & Hb & Hj). apply list_elem_of_fmap in Hb as (o & -> & Ho).
    apply elem_of_seq in Hj, Ho. nia.
  - intros Hb. assert (st ≠ 0)%nat by nia. exists (b / st)%nat. split.
    + apply list_elem_of_fmap. exists (b mod st)%nat.
      split; [by apply Nat.div_mod|]. apply elem_of_seq.
      pose proof (Nat.mod_upper_bound b st). lia.
    + apply elem_of_seq. split; [lia|]. apply Nat.Div0.div_lt_upper_bound. lia.
Qed.

(** The number of 512-bit blocks of the padded table. *)
Definition nblks : nat := Z.to_nat ((bucketSize (hasher c) + 511) / 512).

Lemma nblks_bounds : (1 ≤ nblks)%nat ∧ (nb ≤ 512 * nblks)%nat ∧
  (512 * Z.of_nat nblks = 512 * ((bucketSize (hasher c) + 512 - 1) / 512)).
Proof.
  pose proof (shape_bucketSize _ _ (valid_shape _ _ Hc)). unfold nblks. subst nb.
  replace (bucketSize (hasher c) + 512 - 1) with (bucketSize (hasher c) + 511) by lia.
  split_and!; dlia.
Qed.

Lemma blocks_all n : blocks n ≡ₚ pool_jobs GOMAXPROCS n.
Proof. apply interleave_all. Qed.

Lemma pad_rows enc :
  length enc = (512 * nblks)%nat → (∀ b, (b < nb)%nat → enc !! b = Some (code_at b)) →
  ∃ rows, for_res (λ i e, store e (Z.of_nat i) (replicate baseOTCountBitmapWidth 0)) nb
      (512 * nblks - nb) enc = Ok rows ∧ byte_matrix (512 * nblks) 64 rows ∧
    ∀ b, (b < nb)%nat → rows !! b = Some (code_at b).
Proof.
  intros Hl He. pose proof nblks_bounds as (_ & Hle & _).
  destruct (for_res_invariant (λ i e, length e = (512 * nblks)%nat ∧
    (∀ b, (b < nb)%nat → e !! b = Some (code_at b)) ∧
    ∀ b, (nb ≤ b < i)%nat → e !! b = Some (replicate 64 0))
    (λ i e, store e (Z.of_nat i) (replicate baseOTCountBitmapWidth 0)) nb (512 * nblks - nb) enc)
    as (rows & -> & Hlr & Hr1 & Hr2).
  - split; [done|]. split; [done|]. intros b Hb. lia.
  - intros i e Hi (Hle' & Ha & Hb2). rewrite store_Ok, Nat2Z.id by lia. eexists. split; [done|].
    rewrite length_insert. split; [done|]. split; intros b Hb.
    + rewrite list_lookup_insert_ne by lia. by apply Ha.
    + destruct (decide (b = i)) as [->|]; [by apply list_lookup_insert_eq; lia|].
      rewrite list_lookup_insert_ne by lia. apply Hb2. lia.
  - exists rows. split; [done|]. split; [|done]. split; [done|].
    apply Forall_lookup. intros b row Hrow. pose proof (lookup_lt_Some _ _ _ Hrow) as Hb.
    destruct (decide (b < nb)%nat).
    + rewrite Hr1 in Hrow by done. simplify_eq. by apply code_at_ok.
    + rewrite Hr2 in Hrow by lia. simplify_eq. split; [apply length_replicate|].
      by apply Forall_replicate.
Qed.

Lemma pseudorandomEncodings_spec ext :
  m ext = bucketSize (hasher c) → bucketSize (hasher c) < 2 ^ 62 →
  ∃ C, pseudorandomEncodings ext c key = Ok C ∧ byte_matrix 512 (64 * nblks) C ∧
    ∀ r b, (r < 512)%nat → (b < nb)%nat → mbit C r b = bitof (code_at b) r.
Proof.
  intros Hm Hbound. unfold pseudorandomEncodings. rewrite Hm. fold nb.
  pose proof (shape_bucketSize _ _ (valid_shape _ _ Hc)). pose proof GOMAXPROCS_pos.
  pose proof nblks_bounds as (Ha & Hle & Hpad).
  change (Z.of_nat baseOTCount) with 512. rewrite Pad_ceil by lia. cbn [res_bind].
  rewrite <-Hpad. replace (Z.to_nat (512 * Z.of_nat nblks)) with (512 * nblks)%nat by lia.
  set (st := Z.to_nat (Z.quot (bucketSize (hasher c)) (Z.of_nat GOMAXPROCS))).
  assert (st * GOMAXPROCS ≤ nb)%nat as Hst.
  { subst st nb. rewrite Z.quot_div_nonneg by lia.
    rewrite <-(Nat2Z.id GOMAXPROCS) at 2. rewrite <-Z2Nat.inj_mul by (try apply Z.div_pos; lia).
    apply Z2Nat.inj_le; [apply Z.mul_nonneg_nonneg; [apply Z.div_pos|]; lia|lia|].
    rewrite Z.mul_comm. apply Z.mul_div_le. lia. }
  destruct (encode_all_spec (interleave 1 (encode_jobs GOMAXPROCS st)) (replicate (512 * nblks) []))
    as (e1 & -> & Hl1 & He1).
  { rewrite interleave_all, length_replicate. apply Forall_forall. intros b.
    rewrite elem_of_encode_jobs. lia. }
  rewrite length_replicate in Hl1, He1. cbn [res_bind]. rewrite for_res_encode.
  destruct (encode_all_spec (seq (st * GOMAXPROCS) (nb - st * GOMAXPROCS)) e1) as (e2 & -> & Hl2 & He2).
  { rewrite Hl1. apply Forall_forall. intros b. rewrite elem_of_seq. lia. }
  cbn [res_bind]. rewrite Hl2, Hl1.
  destruct (pad_rows e2) as (rows & -> & Hrows & Hcode).
  { lia. }
  { intros b Hb. rewrite He2 by lia. case_decide as Hin; [done|]. rewrite elem_of_seq in Hin.
    rewrite He1, decide_True; [done| |lia]. rewrite interleave_all, elem_of_encode_jobs. lia. }
  cbn [res_bind]. pose proof Hrows as [-> _].
  replace (512 * nblks / 512)%nat with nblks by dlia.
  destruct (tall_spec GOMAXPROCS nblks (blocks nblks) rows) as (C & E & HC & Hbit);
    [lia|done|apply blocks_all|].
  exists C. split; [done|]. split; [done|]. intros r b Hr Hb. rewrite Hbit by lia.
  unfold mbit, bitof. by rewrite (list_lookup_total_correct _ _ _ (Hcode b Hb)).
Qed.
End Codes.

(** ** The columns *)
Lemma make_bytes_Ok k : make_bytes (Z.of_nat k) = Ok (replicate k 0).
Proof. unfold make_bytes. destruct (Z.ltb_spec (Z.of_nat k) 0); [lia|]. by rewrite Nat2Z.id. Qed.

Lemma PseudorandomGenerate_Ok `{Blake3} dst seed :
  (length seed ≤ length dst)%nat → PseudorandomGenerate dst seed = Ok (blake3_xof seed (length dst)).
Proof. intros. unfold PseudorandomGenerate. by rewrite (proj2 (Nat.ltb_ge _ _)) by lia. Qed.

(** The 512 pairs of random messages. *)
Definition msg_ok (p : OTMessage) : Prop :=
  length p.1 = 64%nat ∧ bytes_ok p.1 ∧ length p.2 = 64%nat ∧ bytes_ok p.2.
Definition pairs_ok (ms : list OTMessage) : Prop := length ms = 512%nat ∧ Forall msg_ok ms.
Definition choices_ok (choices : list Z) : Prop := length choices = 64%nat ∧ bytes_ok choices.

Section Columns.
Context `{Blake3Laws, CoresLaws, ByteOpsLaws}.
Context (n : nat) (Hn : (1 ≤ n)%nat) (choices : list Z) (ms : list OTMessage) (C : list (list Z)).
Hypothesis Hchoices : choices_ok choices.
Hypothesis Hms : pairs_ok ms.
Hypothesis HC : byte_matrix 512 (64 * n) C.

(** The pair of messages of a column. *)
Definition msg (col : nat) : OTMessage :=
  match ms !! col with Some p => p | None => ([], []) end.
Definition choice (col : nat) : bool := bitof choices col.

(** The receiver's column, the mask it sends, and the sender's column. *)
Definition t_col (col : nat) : list Z := blake3_xof (msg col).1 (64 * n).
Definition mask_col (col : nat) : list Z :=
  zip_with Z.lxor
    (zip_with Z.lxor (blake3_xof (msg col).2 (64 * n)) (t_col col)) (C !!! col).
Definition q_col (col : nat) : list Z :=
  let s := blake3_xof (chosen choices col (msg col)) (64 * n) in
  if choice col then zip_with Z.lxor s (mask_col col) else s.

Lemma testbit_choice col : (col < 512)%nat → Z.testbit (le_get choices) (Z.of_nat col) = choice col.
Proof. intros. destruct Hchoices as [Hl Hb]. unfold choice. apply le_get_bit; [done|lia]. Qed.

Lemma t_col_ok col : length (t_col col) = (64 * n)%nat ∧ bytes_ok (t_col col).
Proof. split; [apply length_blake3_xof|apply blake3_xof_bytes]. Qed.

Lemma mask_col_ok col : (col < 512)%nat →
  length (mask_col col) = (64 * n)%nat ∧ bytes_ok (mask_col col).
Proof.
  intros Hcol. destruct (byte_matrix_row _ _ _ _ HC Hcol) as (_ & Hl & Hb).
  destruct (t_col_ok col). unfold mask_col. split.
  - rewrite !length_zip_with, length_blake3_xof. lia.
  - repeat apply xor_bytes_ok; try done. apply blake3_xof_bytes.
Qed.

Lemma q_col_ok col : (col < 512)%nat → length (q_col col) = (64 * n)%nat ∧ bytes_ok (q_col col).
Proof.
  intros Hcol. destruct (mask_col_ok col Hcol). unfold q_col. destruct (choice col).
  - split; [rewrite length_zip_with, length_blake3_xof; lia|].
    apply xor_bytes_ok; [apply blake3_xof_bytes|done].
  - split; [apply length_blake3_xof|apply blake3_xof_bytes].
Qed.

(** The relation of the OT extension, bit by bit: [q = t + s * C]. *)
Lemma q_col_bits col b :
  (col < 512)%nat → (b < 512 * n)%nat →
  bitof (q_col col) b = xorb (bitof (t_col col) b) (choice col && mbit C col b).
Proof.
  intros Hcol Hb. destruct (byte_matrix_row _ _ _ _ HC Hcol) as (_ & Hl & Hbc).
  destruct (t_col_ok col) as [Ht _]. destruct (mask_col_ok col Hcol) as [Hm _].
  unfold q_col, chosen. rewrite testbit_choice by done. destruct (choice col); cbn [andb].
  - rewrite bitof_xor by (rewrite ?length_blake3_xof; lia). unfold mask_col.
    rewrite !bitof_xor by (rewrite ?length_zip_with, ?length_blake3_xof; lia).
    change (mbit C col b) with (bitof (C !!! col) b).
    by destruct (bitof (blake3_xof _ _) b), (bitof (t_col col) b), (bitof (C !!! col) b).
  - by rewrite xorb_false_r.
Qed.

(** One turn of the receiver's loop. *)
Lemma receive_column_eq col encs buf :
  (col < 512)%nat → length encs = 512%nat → length buf = (64 * n)%nat →
  receive_column (Z.of_nat (64 * n)) ms C col (encs, buf) =
    pbind (send (mask_col col)) (λ _, pure (Ok (<[col := t_col col]> encs, mask_col col))).
Proof.
  intros Hcol He Hbuf. destruct Hms as [Hlm Hf].
  destruct (lookup_lt_is_Some_2 ms col) as [p Hp]; [lia|].
  assert (msg col = p) as Hmsg by (unfold msg; by rewrite Hp).
  rewrite Forall_lookup in Hf. destruct (Hf _ _ Hp) as (L1 & B1 & L2 & B2).
  destruct (byte_matrix_row _ _ _ _ HC Hcol) as (HCr & HCl & HCb). destruct (t_col_ok col) as [Lt Bt].
  unfold receive_column. rewrite (Ok_index_nat _ _ _ Hp), (Ok_index_nat _ _ _ HCr). cbn [pure pbind].
  rewrite make_bytes_Ok. cbn [res_bind]. rewrite !PseudorandomGenerate_Ok
    by (rewrite ?length_replicate; lia). cbn [pure pbind]. rewrite length_replicate, Hbuf.
  assert (blake3_xof p.1 (64 * n) = t_col col) as -> by (unfold t_col; by rewrite Hmsg).
  rewrite (ConcurrentDoubleBitOp_spec Z.lxor Z.lxor);
    [|apply DoubleXor_Ok|apply GOMAXPROCS_pos|apply interleave_all|apply blake3_xof_bytes|done|done
     |rewrite length_blake3_xof; lia|rewrite length_blake3_xof; lia].
  cbn [pure pbind]. assert (zip_with Z.lxor (zip_with Z.lxor (blake3_xof p.2 (64 * n)) (t_col col))
    (C !!! col) = mask_col col) as -> by (unfold mask_col; by rewrite Hmsg).
  by rewrite store_Ok, Nat2Z.id by lia.
Qed.

(** One turn of the sender's loop, once the mask is there. *)
Lemma send_column_eq col keys seeds seed :
  (col < 512)%nat → seeds !! col = Some seed → length seed = 64%nat →
  send_column (Z.of_nat (64 * n)) choices seeds col keys =
    (let* mask := recv (64 * n) in
     let* key := pure (if choice col
       then ConcurrentBitOp Xor GOMAXPROCS (schedule col) (blake3_xof seed (64 * n)) mask
       else Ok (blake3_xof seed (64 * n))) in
     pure (store keys (Z.of_nat col) key)).
Proof.
  intros Hcol Hs Hl. destruct Hchoices as [Hlc Hbc]. unfold send_column.
  rewrite Nat2Z.id, (Ok_index_nat _ _ _ Hs). cbn [pure pbind]. rewrite make_bytes_Ok. cbn [res_bind].
  rewrite PseudorandomGenerate_Ok by (rewrite length_replicate; lia).
  rewrite length_replicate. cbn [pure pbind]. rewrite IsBitSet_Ok by (try done; lia). cbn [pure pbind].
  by rewrite testbit_choice by done.
Qed.

(** One turn of both loops. *)
Lemma column_exchange col keys encs buf :
  (col < 512)%nat → length keys = 512%nat → length encs = 512%nat → length buf = (64 * n)%nat →
  exchange (send_column (Z.of_nat (64 * n)) choices (selected choices ms) col keys)
    (receive_column (Z.of_nat (64 * n)) ms C col (encs, buf))
    (<[col := q_col col]> keys) (<[col := t_col col]> encs, mask_col col).
Proof.
  intros Hcol Hk He Hbuf. destruct Hms as [Hlm Hf].
  destruct (lookup_lt_is_Some_2 ms col) as [p Hp]; [lia|].
  assert (msg col = p) as Hmsg by (unfold msg; by rewrite Hp).
  rewrite Forall_lookup in Hf. destruct (Hf _ _ Hp) as (L1 & B1 & L2 & B2).
  destruct (mask_col_ok col Hcol) as [Lm Bm].
  rewrite receive_column_eq, (send_column_eq _ _ _ _ Hcol (lookup_selected choices ms col p Hp)) by
    (try done; unfold chosen; by destruct (Z.testbit _ _)).
  unfold exchange, recv, send, pure. cbn [pbind].
  apply steps_right_send. cbn [pbind app]. apply steps_left_recv_all; [lia|]. cbn [pbind].
  assert (q_col col = if choice col
    then zip_with Z.lxor (blake3_xof (chosen choices col p) (64 * n)) (mask_col col)
    else blake3_xof (chosen choices col p) (64 * n)) as -> by (unfold q_col; by rewrite Hmsg).
  destruct (choice col); [|cbn [pbind]; rewrite store_Ok, Nat2Z.id by lia; apply rtc_refl].
  rewrite (ConcurrentBitOp_spec Z.lxor);
    [cbn [pbind]; rewrite store_Ok, Nat2Z.id by lia; apply rtc_refl|apply Xor_Ok|apply GOMAXPROCS_pos|apply interleave_all|apply blake3_xof_bytes|done
     |rewrite length_blake3_xof; lia].
Qed.

Definition T : list (list Z) := t_col <$> seq 0 512.
Definition Q : list (list Z) := q_col <$> seq 0 512.

Lemma lookup_T col : (col < 512)%nat → T !! col = Some (t_col col).
Proof. intros. unfold T. by rewrite list_lookup_fmap, lookup_seq_lt. Qed.
Lemma lookup_Q col : (col < 512)%nat → Q !! col = Some (q_col col).
Proof. intros. unfold Q. by rewrite list_lookup_fmap, lookup_seq_lt. Qed.

Lemma T_matrix : byte_matrix 512 (64 * n) T.
Proof.
  split; [unfold T; by rewrite length_fmap, length_seq|].
  apply Forall_fmap, Forall_true. intros col. apply t_col_ok.
Qed.

Lemma Q_matrix : byte_matrix 512 (64 * n) Q.
Proof.
  split; [unfold Q; by rewrite length_fmap, length_seq|].
  apply Forall_fmap, Forall_forall. intros col Hcol%elem_of_seq. apply q_col_ok. lia.
Qed.

Lemma columns_exchange buf :
  length buf = (64 * n)%nat →
  ∃ buf', exchange
    (for_proc (send_column (Z.of_nat (64 * n)) choices (selected choices ms)) 0 512 (replicate 512 []))
    (for_proc (receive_column (Z.of_nat (64 * n)) ms C) 0 512 (replicate 512 [], buf)) Q (T, buf').
Proof.
  intros Hbuf. destruct (exchange_for (send_column (Z.of_nat (64 * n)) choices (selected choices ms))
    (receive_column (Z.of_nat (64 * n)) ms C)
    (λ i keys st, keys = take i Q ++ drop i (replicate 512 []) ∧
      st.1 = take i T ++ drop i (replicate 512 []) ∧ length st.2 = (64 * n)%nat)
    512 0 (replicate 512 []) (replicate 512 [], buf)) as (s' & [encs buf'] & He & -> & HT & _).
  - done.
  - intros i keys [encs b] Hi (-> & HT & Hb). cbn [fst snd] in *. subst encs.
    pose proof Q_matrix as [LQ _]. pose proof T_matrix as [LT _].
    eexists _, (_, _). split; [apply column_exchange; try lia|].
    + rewrite length_app, length_take, length_drop, length_replicate. lia.
    + rewrite length_app, length_take, length_drop, length_replicate. lia.
    + cbn [fst snd]. split_and!; [apply fill_next..|apply mask_col_ok; lia].
      * apply lookup_Q. lia.
      * by rewrite length_replicate.
      * apply lookup_T. lia.
      * by rewrite length_replicate.
  - cbn [fst Nat.add] in *. exists buf'. pose proof Q_matrix as [LQ _]. pose proof T_matrix as [LT _].
    rewrite take_ge, drop_ge, app_nil_r in HT by (rewrite ?LT, ?length_replicate; lia). subst encs.
    rewrite take_ge, drop_ge, app_nil_r in He by (rewrite ?LQ, ?length_replicate; lia). exact He.
Qed.
End Columns.

(** ** The receiver's maps *)
Section Maps.
Context `{MetroHash}.
Context (size : Z) (c : Cuckoo) (Hc : valid size c).
Let nb : nat := Z.to_nat (bucketSize (hasher c)).
Context (hasher0 : metro64) (Hh : GetHasher (hasher c) = Ok hasher0).
Context (t : list (list Z)) (Ht : length t = nb).

(** Bucket [b] holds the item of index [i], with hash index [h]. *)
Definition occupied (b : nat) (i : Z) (it : list Z) (h : Z) : Prop :=
  (b < nb)%nat ∧ GetBucket c (Z.of_nat b) = Ok i ∧ i ≠ 0 ∧ GetItemWithHash c i = Ok (it, h) ∧
  0 ≤ h < Z.of_nat Nhash.

(** The maps index the buckets below [n]. *)
Record indexed (n : nat) (maps : list (gmap Z Z)) : Prop := {
  indexed_length : length maps = Nhash;
  indexed_sound h mp v i : maps !! h = Some mp → mp !! v = Some i →
    ∃ b it, (b < n)%nat ∧ occupied b i it (Z.of_nat h) ∧ v = Hash64 hasher0 (t !!! b);
  indexed_complete b i it h : (b < n)%nat → occupied b i it h →
    ∃ mp, maps !! Z.to_nat h = Some mp ∧ is_Some (mp !! Hash64 hasher0 (t !!! b))
}.

Lemma occupied_total b :
  (b < nb)%nat → GetBucket c (Z.of_nat b) = Ok 0 ∨ ∃ i it h, occupied b i it h.
Proof using Hc.
  clear Ht. intros Hb. destruct (bucket_content size c (Z.of_nat b) Hc) as
    [|(i & it & h & E & Hi & Eg & Hh0 & HB & _)]; [subst nb; lia|by left|right].
  exists i, it, h. split; [done|]. split; [done|]. split; [lia|]. split; [done|].
  apply lookup_lt_Some in HB. rewrite length_BucketIndices, (shape_hashers _ _ (valid_shape _ _ Hc)) in HB.
  lia.
Qed.

Lemma index_encoding_spec b maps :
  (b < nb)%nat → indexed b maps →
  ∃ maps', index_encoding c hasher0 t b maps = Ok maps' ∧ indexed (S b) maps'.
Proof.
  intros Hb [Hl Hs Hcomp]. unfold index_encoding.
  destruct (occupied_total b Hb) as [E|(i & it & h & Hocc)].
  { rewrite E. cbn [res_bind Z.eqb]. exists maps. split; [done|]. split; [done| |].
    - intros h mp v i Hmp Hv. destruct (Hs h mp v i Hmp Hv) as (b' & it & Hb' & Hr).
      exists b', it. split; [lia|done].
    - intros b' i it h Hb' Hocc. destruct (decide (b' = b)) as [->|].
      + destruct Hocc as (_ & E' & Hi & _). rewrite E in E'. by simplify_eq.
      + apply (Hcomp b' i it h); [lia|done]. }
  pose proof Hocc as (_ & E & Hi & Eg & Hh0). rewrite E. cbn [res_bind].
  destruct (Z.eqb_spec i 0); [done|]. rewrite Eg. cbn [res_bind].
  destruct (lookup_lt_is_Some_2 t b) as [e He]; [lia|].
  rewrite (proj2 (index_Ok t (Z.of_nat b) e)) by (rewrite Nat2Z.id; split; [lia|done]). cbn [res_bind].
  destruct (lookup_lt_is_Some_2 maps (Z.to_nat h)) as [mp Hmp]; [lia|].
  rewrite (proj2 (index_Ok maps h mp)) by (split; [lia|done]). cbn [res_bind].
  rewrite store_Ok by lia. eexists. split; [done|]. split.
  - by rewrite length_insert.
  - intros h' mp' v i' Hmp' Hv. destruct (decide (h' = Z.to_nat h)) as [->|].
    + rewrite list_lookup_insert_eq in Hmp' by lia. simplify_eq.
      apply lookup_insert_Some in Hv as [[<- <-]|[_ Hv]].
      * exists b, it. split; [lia|]. rewrite Z2Nat.id by lia. split; [done|].
        by rewrite (list_lookup_total_correct _ _ _ He).
      * destruct (Hs _ _ _ _ Hmp Hv) as (b' & it' & Hb' & Hr). exists b', it'. split; [lia|done].
    + rewrite list_lookup_insert_ne in Hmp' by done.
      destruct (Hs _ _ _ _ Hmp' Hv) as (b' & it' & Hb' & Hr). exists b', it'. split; [lia|done].
  - intros b' i' it' h' Hb' Hocc'. destruct (decide (b' = b)) as [->|].
    + destruct Hocc' as (_ & E' & _ & Eg' & _). rewrite E in E'. simplify_eq. rewrite Eg in Eg'. simplify_eq.
      eexists. split; [by apply list_lookup_insert_eq; lia|].
      rewrite (list_lookup_total_correct _ _ _ He), lookup_insert_eq. done.
    + destruct (Hcomp b' i' it' h') as (mp' & Hmp' & Hv'); [lia|done|].
      destruct (decide (Z.to_nat h' = Z.to_nat h)) as [Eh|].
      * eexists. rewrite Eh in *. simplify_eq. split; [by apply list_lookup_insert_eq; lia|].
        destruct (decide (Hash64 hasher0 (t !!! b') = Hash64 hasher0 e)) as [->|].
        -- by rewrite lookup_insert_eq.
        -- by rewrite lookup_insert_ne.
      * exists mp'. by rewrite list_lookup_insert_ne.
Qed.

(** Building the maps never panics, and they are exactly the hashes of the
    occupied buckets. *)
Lemma index_encodings_spec : ∃ maps, index_encodings c t = Ok maps ∧ indexed nb maps.
Proof.
  unfold index_encodings. rewrite Hh. cbn [res_bind]. rewrite Ht.
  destruct (for_res_invariant indexed (index_encoding c hasher0 t) 0 nb (replicate Nhash ∅))
    as (maps & E & Hm).
  - split; [done| |intros b i it h Hb; lia].
    intros h mp v i Hmp Hv. apply lookup_replicate in Hmp as [-> _]. by rewrite lookup_empty in Hv.
  - intros b maps Hb. apply index_encoding_spec. lia.
  - by exists maps.
Qed.
End Maps.

(** ** The exchange *)
Lemma sampleRandomOTMessages_spec draw :
  (∀ k, is_Some (draw k)) →
  ∃ ms, sampleRandomOTMessages draw = Ok ms ∧ pairs_ok ms.
Proof.
  intros Hd. unfold sampleRandomOTMessages.
  match goal with |- ∃ ms, for_res ?f _ _ _ = _ ∧ _ =>
    destruct (for_res_invariant (λ i ms, length ms = i ∧ Forall msg_ok ms)
    f 0 baseOTCount []) as (ms & E & Hl & Hf) end.
  - done.
  - intros i ms Hi [Hl Hf].
    destruct (Hd (2 * i)%nat) as [f Hfk]. destruct (Hd (2 * i + 1)%nat) as [g Hg].
    rewrite (rand_Read_random _ _ _ _ Hfk), (rand_Read_random _ _ _ _ Hg). cbn [res_bind].
    eexists. split; [done|]. split.
    { rewrite length_app, Hl. cbn. lia. }
    apply Forall_app. split; [done|]. apply Forall_singleton. unfold msg_ok. cbn [fst snd].
    rewrite !length_random_bytes. auto using random_bytes_ok.
  - exists ms. split; [exact E|done].
Qed.

Lemma byte_matrix_take rows rows' cols x :
  (rows' ≤ rows)%nat → byte_matrix rows cols x → byte_matrix rows' cols (take rows' x).
Proof.
  intros Hle [Hl Hf]. split; [rewrite length_take; lia|]. by apply Forall_take.
Qed.

Lemma lookup_total_take (x : list (list Z)) k b : (b < k)%nat → take k x !!! b = x !!! b.
Proof. intros. rewrite !list_lookup_total_alt. by rewrite lookup_take_lt. Qed.

Lemma go_prefix_rows (x : list (list Z)) rows cols n :
  byte_matrix rows cols x → 0 ≤ n → (Z.to_nat n ≤ rows)%nat → go_prefix x n = Ok (take (Z.to_nat n) x).
Proof. intros [Hl _] Hn Hle. apply go_prefix_Ok. lia. Qed.

(** [Encode] at a row of the key. *)
Lemma Encode_rows `{CoresLaws, ByteOpsLaws} k rows b code :
  choices_ok (secret k) → byte_matrix rows 64 (oprfKeys k) → (b < rows)%nat →
  length code = 64%nat → bytes_ok code →
  Encode k (Z.of_nat b) code =
    Ok (zip_with Z.lxor (zip_with Z.land code (secret k)) (oprfKeys k !!! b)).
Proof.
  intros [Ls Bs] Hk Hb Lc Bc. unfold Encode.
  rewrite (index_row _ _ _ b Hk) by done. cbn [res_bind].
  destruct (byte_matrix_row _ _ _ b Hk Hb) as (_ & Lk & Bk).
  apply (ConcurrentDoubleBitOp_spec Z.land Z.lxor);
    [apply AndXor_Ok|apply GOMAXPROCS_pos|apply interleave_all|done|done|done|lia|lia].
Qed.

Section Exchange.
Context `{Blake3Laws, CoresLaws, ByteOpsLaws, CodeOpsLaws, MetroHash}.
Context (size : Z) (c : Cuckoo) (Hc : valid size c) (key : list Z).
Let nb : nat := Z.to_nat (bucketSize (hasher c)).
Let n : nat := nblks c.
Hypothesis Hbound : bucketSize (hasher c) < 2 ^ 62.

(** The rows of the receiver, and the rows of the sender under the choices. *)
Lemma rows_relation choices ms C t q :
  choices_ok choices → pairs_ok ms →
  byte_matrix 512 (64 * n) C →
  (∀ r b, (r < 512)%nat → (b < nb)%nat → mbit C r b = bitof (code_at c key b) r) →
  byte_matrix (512 * n) 64 t → (∀ r col, (r < 512 * n)%nat → (col < 512)%nat →
    mbit t r col = mbit (T n ms) col r) →
  byte_matrix (512 * n) 64 q → (∀ r col, (r < 512 * n)%nat → (col < 512)%nat →
    mbit q r col = mbit (Q n choices ms C) col r) →
  ∀ b, (b < nb)%nat →
    zip_with Z.lxor (zip_with Z.land (code_at c key b) choices) (q !!! b) = t !!! b.
Proof.
  intros Hch Hms HC HCb Ht Htb Hq Hqb b Hb. pose proof Hch as [Lc Bc].
  pose proof (nblks_bounds size c Hc) as (_ & Hle & _). fold nb n in Hle.
  destruct (byte_matrix_row _ _ _ b Ht) as (_ & Lt & Bt); [lia|].
  destruct (byte_matrix_row _ _ _ b Hq) as (_ & Lq & Bq); [lia|].
  destruct (code_at_ok size c Hc key b Hb) as [Lk Bk].
  assert (length (zip_with Z.land (code_at c key b) choices) = 64%nat) as La
    by (rewrite length_zip_with; lia).
  apply list_eq_bits.
  - rewrite length_zip_with. lia.
  - apply xor_bytes_ok; [by apply and_bytes_ok|done].
  - done.
  - rewrite length_zip_with, La, Lq. intros r Hr.
    change (bitof (zip_with Z.lxor (zip_with Z.land (code_at c key b) choices) (q !!! b)) r =
      bitof (t !!! b) r).
    rewrite bitof_xor, bitof_and by lia.
    change (bitof (q !!! b) r) with (mbit q b r). change (bitof (t !!! b) r) with (mbit t b r).
    rewrite Hqb, Htb by lia. unfold mbit.
    rewrite (list_lookup_total_correct (T n ms) r (t_col n ms r)) by (apply lookup_T; lia).
    rewrite (list_lookup_total_correct (Q n choices ms C) r (q_col n choices ms C r))
      by (apply lookup_Q; lia).
    change (Z.testbit (q_col n choices ms C r !!! (b / 8)%nat) (Z.of_nat (b mod 8)))
      with (bitof (q_col n choices ms C r) b).
    change (Z.testbit (t_col n ms r !!! (b / 8)%nat) (Z.of_nat (b mod 8)))
      with (bitof (t_col n ms r) b).
    rewrite (q_col_bits n) by (done || lia). rewrite HCb by lia.
    unfold choice. by destruct (bitof (code_at c key b) r), (bitof choices r), (bitof (t_col n ms r) b).
Qed.

Context (extS extR : OPRF) (OTok : OTLaws (baseOT extS) (baseOT extR) baseMsgLens).
Hypothesis HmS : m extS = bucketSize (hasher c).
Hypothesis HmR : m extR = bucketSize (hasher c).
Context (drawS drawR : nat → option (nat → Z)) (f : nat → Z).
Hypothesis HdS : drawS 0%nat = Some f.
Hypothesis HdR : ∀ k, is_Some (drawR k).
Hypothesis Hkey : aes_NewCipher key = Ok key.
Context (hasher0 : metro64) (Hh : GetHasher (hasher c) = Ok hasher0).

(** What the two parties hold after the exchange. *)
Record oprf_outcome (k : Key) (t : list (list Z)) (maps : list (gmap Z Z)) : Prop := {
  outcome_rows : byte_matrix nb 64 t;
  outcome_secret : choices_ok (secret k);
  outcome_keys : byte_matrix nb 64 (oprfKeys k);
  outcome_relation b : (b < nb)%nat →
    zip_with Z.lxor (zip_with Z.land (code_at c key b) (secret k)) (oprfKeys k !!! b) = t !!! b;
  outcome_maps : indexed c hasher0 t nb maps
}.

Lemma oprf_exchange :
  ∃ k t maps, exchange (oprf_Send extS drawS) (oprf_Receive extR drawR c key) k maps ∧
    oprf_outcome k t maps ∧ secret k = random_bytes f 64.
Proof.
  pose proof (nblks_bounds size c Hc) as (Hn1 & Hle & Hpad). fold nb n in Hn1, Hle, Hpad.
  pose proof (shape_bucketSize _ _ (valid_shape _ _ Hc)) as Hpos.
  set (choices := random_bytes f 64).
  assert (choices_ok choices) as Hch.
  { split; [apply length_random_bytes|apply random_bytes_ok]. }
  destruct (sampleRandomOTMessages_spec drawR HdR) as (ms & Ems & Hms).
  destruct (pseudorandomEncodings_spec size c Hc key extR HmR Hbound) as (C & EC & HC & HCb).
  destruct (columns_exchange n Hn1 choices ms C Hch Hms HC (replicate (64 * n) 0)) as (buf & Hcols).
  { apply length_replicate. }
  pose proof GOMAXPROCS_pos as Hgo.
  destruct (wide_spec GOMAXPROCS n (blocks n) (Q n choices ms C)) as (q & Eq & Hq & Hqb);
    [lia|by apply Q_matrix|apply blocks_all|].
  destruct (wide_spec GOMAXPROCS n (blocks n) (T n ms)) as (t & Et & Ht & Htb);
    [lia|by apply T_matrix|apply blocks_all|].
  pose proof (rows_relation choices ms C t q Hch Hms HC HCb Ht Htb Hq Hqb) as Hrel.
  pose proof (byte_matrix_take _ nb 64 t Hle Ht) as Ht'.
  pose proof (byte_matrix_take _ nb 64 q Hle Hq) as Hq'.
  destruct (index_encodings_spec size c Hc hasher0 Hh (take nb t)) as (maps & Em & Hmaps); [apply Ht'|].
  exists {| secret := choices; oprfKeys := take nb q |}, (take nb t), maps.
  split; [|split; [split; [done|done|done|intros b Hb; cbn [oprfKeys secret]|done]|done]].
  2: { rewrite !lookup_total_take by done. by apply Hrel. }
  unfold exchange, oprf_Send, oprf_Receive, Len. rewrite HmR, HmS, Z.eqb_refl. cbn [negb].
  unfold pure. rewrite (rand_Read_random _ _ _ _ HdS), Hkey, Ems. cbn [pbind].
  eapply exchange_bind.
  { apply (OTok choices ms); [|by rewrite length_replicate; destruct Hms].
    destruct Hms as [Hlm Hfm], Hch as [Hlc Hbc]. split; [done|]. split; [lia|].
    split; [by rewrite Hlm|]. intros i p l Hp Hl. rewrite Forall_lookup in Hfm.
    apply lookup_replicate in Hl as [-> _]. destruct (Hfm _ _ Hp) as (? & ? & ? & ?). done. }
  rewrite EC. cbn [pbind]. unfold PadBitMap. change (Z.of_nat baseOTCount) with 512.
  rewrite Pad_ceil by lia. cbn [res_bind pbind]. rewrite <-Hpad.
  replace (Z.quot (512 * Z.of_nat n) 8) with (Z.of_nat (64 * n))
    by (rewrite Z.quot_div_nonneg by lia; dlia).
  rewrite make_bytes_Ok. cbn [pbind]. pose proof HC as [-> _].
  eapply exchange_bind; [exact Hcols|]. cbn [pbind].
  replace (Z.to_nat (Z.quot (Z.of_nat (64 * n)) 64)) with n
    by (rewrite Z.quot_div_nonneg by lia; dlia).
  rewrite Eq, Et. cbn [pbind].
  rewrite (go_prefix_rows q (512 * n) 64), (go_prefix_rows t (512 * n) 64) by (done || lia).
  fold nb. cbn [pbind]. rewrite Em. apply rtc_refl.
Qed.

(** [Encode] of any code word under the sender's key. *)
Lemma Encode_Ok k t maps b code :
  oprf_outcome k t maps → (b < nb)%nat → length code = 64%nat → bytes_ok code →
  Encode k (Z.of_nat b) code =
    Ok (zip_with Z.lxor (zip_with Z.land code (secret k)) (oprfKeys k !!! b)).
Proof. intros [_ Hs Hk _ _]. by apply Encode_rows. Qed.

Lemma Encode_code k t maps b :
  oprf_outcome k t maps → (b < nb)%nat → Encode k (Z.of_nat b) (code_at c key b) = Ok (t !!! b).
Proof.
  intros Ho Hb. destruct (code_at_ok size c Hc key b Hb) as [Lk Bk].
  rewrite (Encode_Ok k t maps) by done. by rewrite (outcome_relation _ _ _ Ho).
Qed.
End Exchange.

(** * Properties *)

(** C12: the OPRF.  For a valid table with [Len] buckets, parties created for that
    many buckets over any base OT that keeps its contract, every run is finite and
    ends with both returning: the sender's key encodes the code word of the item of
    bucket [b] (the empty item in a free bucket), at row [b], to the row [t b] the
    receiver holds, for every bucket; and the receiver's three maps contain exactly
    the hashes of the rows of the occupied buckets, in the map of the hash function
    that put the item there. *)
Theorem oprf_encodes `{Blake3Laws, CoresLaws, ByteOpsLaws, CodeOpsLaws, MetroHash}
    size c key extS extR drawS drawR hasher0 :
  valid size c → Len c < 2 ^ 62 → m extS = Len c → m extR = Len c →
  OTLaws (baseOT extS) (baseOT extR) baseMsgLens →
  is_Some (drawS 0%nat) → (∀ k, is_Some (drawR k)) →
  aes_NewCipher key = Ok key → GetHasher (hasher c) = Ok hasher0 →
  ∃ (k : Key) (t : list (list Z)) (maps : list (gmap Z Z)),
    inevitable (oprf_Send extS drawS) (oprf_Receive extR drawR c key) k maps ∧
    (∀ b, 0 ≤ b < Len c → ∃ idx item hIdx row,
       GetBucket c b = Ok idx ∧ GetItemWithHash c idx = Ok (item, hIdx) ∧
       t !! Z.to_nat b = Some row ∧ Encode k b (PseudorandomCode key item hIdx) = Ok row ∧
       (idx ≠ 0 → ∃ mp, maps !! Z.to_nat hIdx = Some mp ∧ is_Some (mp !! Hash64 hasher0 row))) ∧
    (∀ h mp v i, maps !! h = Some mp → mp !! v = Some i →
       ∃ b item row, 0 ≤ b < Len c ∧ GetBucket c b = Ok i ∧ i ≠ 0 ∧
         GetItemWithHash c i = Ok (item, Z.of_nat h) ∧
         t !! Z.to_nat b = Some row ∧ v = Hash64 hasher0 row).
Proof.
  intros Hc Hbound HmS HmR OTok [f HdS] HdR Hkey Hh. unfold Len in *.
  destruct (oprf_exchange size c Hc key Hbound extS extR OTok HmS HmR drawS drawR f HdS HdR Hkey
    hasher0 Hh) as (k & t & maps & He & Ho & _).
  pose proof (outcome_rows _ _ _ _ _ _ Ho) as Ht. pose proof (outcome_maps _ _ _ _ _ _ Ho) as [_ Hs Hm].
  exists k, t, maps. split; [by apply exchange_inevitable|]. split.
  - intros b Hb. assert (Z.to_nat b < Z.to_nat (bucketSize (hasher c)))%nat as Hb' by lia.
    destruct (bucket_read size c Hc key (Z.to_nat b) Hb') as (idx & item & h & E & _ & Eg & Ec).
    destruct (byte_matrix_row _ _ _ _ Ht Hb') as (Hrow & _).
    assert (Encode k (Z.of_nat (Z.to_nat b)) (code_at c key (Z.to_nat b)) = Ok (t !!! Z.to_nat b))
      as He' by by eapply Encode_code.
    rewrite Z2Nat.id in E, He' by lia. rewrite Ec in He'.
    exists idx, item, h, (t !!! Z.to_nat b). split_and!; try done. intros Hi.
    destruct (occupied_total size c Hc (Z.to_nat b) Hb') as [E0|(i & it & h' & Hocc)].
    { rewrite Z2Nat.id, E in E0 by lia. by simplify_eq. }
    destruct (Hm _ _ _ _ Hb' Hocc) as (mp & Hmp & Hv). pose proof Hocc as (_ & Ei & _ & Eg' & _).
    rewrite Z2Nat.id, E in Ei by lia. simplify_eq. rewrite Eg in Eg'. simplify_eq. by exists mp.
  - intros h mp v i Hmp Hv. destruct (Hs h mp v i Hmp Hv) as (b & it & Hb & (_ & E & Hi & Eg & _) & ->).
    destruct (byte_matrix_row _ _ _ _ Ht Hb) as (Hrow & _).
    exists (Z.of_nat b), it, (t !!! b). rewrite Nat2Z.id. split_and!; try done; lia.
Qed.

(** A table of five buckets with one item, over Naor-Pinkas on the toy curve. *)
Definition toy_draws (base : Z) (k : nat) : option (list Z) := Some [base + Z.of_nat (k mod 8)].

Lemma toy_draws_ok n :
  @draws_ok Toy.toy_curve (toy_draws 3) (λ k, toy_draws 5 k) n.
Proof.
  split.
  - exists [3]. split; [done|]. by vm_compute.
  - exists [4]. split; [done|]. by vm_compute.
  - intros i _. exists [5 + Z.of_nat (i mod 8)]. split; [done|].
    assert (i mod 8 < 8)%nat as Hi by (apply Nat.mod_upper_bound; lia).
    generalize dependent (i mod 8)%nat. clear i. intros i Hi.
    assert (∀ b : bool, b = true → b ≠ false) by (by intros [] ?).
    do 8 (destruct i as [|i]; [split; [by vm_compute|]; intros a [= <-]; by vm_compute|]). lia.
Qed.

Definition toy_code : CodeOps := @CodeGeneric.PseudorandomCode Toy.toy_aes Toy.toy_murmur3.
Definition toy_oprf (base : Z) (m : Z) : OPRF :=
  @NewOPRF Toy.toy_blake3 Toy.one_core generic_ops (toy_draws base) m Toy.toy_curve.

Lemma toy_base_OT m1 m2 : @OTLaws (baseOT (toy_oprf 5 m1)) (baseOT (toy_oprf 3 m2)) baseMsgLens.
Proof.
  apply (@naor_OT_laws Toy.toy_curve Toy.toy_curve_laws Toy.toy_blake3 Toy.toy_blake3_laws
    Toy.one_core Toy.one_core_laws generic_ops generic_ops_laws (NewNaorPinkas baseMsgLens)).
  apply toy_draws_ok.
Qed.

Lemma oprf_encodes_witness :
  ∃ k (t : list (list Z)) maps, @inevitable Key (list (gmap Z Z))
    (@oprf_Send Toy.toy_blake3 Toy.one_core generic_ops (toy_oprf 5 5) (λ _, Some (λ i, 37 * Z.of_nat i)))
    (@oprf_Receive Toy.toy_blake3 Toy.one_core generic_ops toy_code sample_metro (toy_oprf 3 5)
      (λ j, Some (λ i, Z.of_nat j + Z.of_nat i)) small_table_5 (replicate 16 7)) k maps ∧
    ∃ item hIdx row, t !! 0%nat = Some row ∧
      @Encode Toy.one_core generic_ops k 0 (@PseudorandomCode toy_code (replicate 16 7) item hIdx) = Ok row.
Proof.
  destruct (@oprf_encodes Toy.toy_blake3 Toy.toy_blake3_laws Toy.one_core Toy.one_core_laws
    generic_ops generic_ops_laws toy_code
    (@generic_code_laws Toy.toy_aes Toy.toy_aes_laws Toy.toy_murmur3) sample_metro
    4 small_table_5 (replicate 16 7) (toy_oprf 5 5) (toy_oprf 3 5)
    (λ _, Some (λ i, 37 * Z.of_nat i)) (λ j, Some (λ i, Z.of_nat j + Z.of_nat i)) {| seed := 0 |})
    as (k & t & maps & He & Hb & _).
  - apply small_table_5_valid.
  - by vm_compute.
  - by vm_compute.
  - by vm_compute.
  - apply toy_base_OT.
  - by eexists.
  - intros j. by eexists.
  - by vm_compute.
  - by vm_compute.
  - exists k, t, maps. split; [exact He|].
    destruct (Hb 0) as (idx & item & h & row & _ & _ & Hrow & Henc & _); [by vm_compute|].
    exists item, h, row. split; [exact Hrow|exact Henc].
Defined.
