(* ===== verification/Kkrt.v ===== *)
(** * pkg/kkrtpsi: the KKRT protocol

    sender.go, receiver.go and kkrtpsi.go: the stages of both parties, composed
    with the OPRF and the cuckoo table, over the exchange semantics of [Proc]. *)
From stdpp Require Import relations.
From S2P Require Import Prelude Words Bits BitVect BitMatrix Hash Cuckoo IO Proc Bufio Crypto OT Oprf.

(** ** kkrtpsi.go *)

(** [EncodingsWrite] and [EncodingsRead]: [Nhash] big-endian words. *)
Definition encodings_bytes (u : list Z) : list Z := concat (be_put 8 <$> u).
Definition encodings_of (bs : list Z) : list Z :=
  (λ i, be_get (slice bs (8 * i) (8 * i + 8))) <$> seq 0 Nhash.

(** The candidate buckets of an identifier and its codes. *)
Record inputToOprfEncode := { prcEncoded : list (list Z); bucketIdx : list Z }.

Section Kkrt.
Context `{Blake3, Cores, ByteOps, CodeOps, MetroHash, FloatConv}.

(** The loop of [encodeAndHash] from hash index [hIdx] on. *)
Fixpoint encode_hash_from (oprfKeys : Key) (hasher : metro64) (prc : list (list Z)) (hIdx : Z)
    (bs : list Z) : res (list Z) :=
  match bs with
  | [] => Ok []
  | b :: bs =>
      let! p := index prc hIdx in
      let! enc := Encode oprfKeys b p in
      let! hashes := encode_hash_from oprfKeys hasher prc (hIdx + 1) bs in
      Ok (Hash64 hasher enc :: hashes)
  end.

Definition encodeAndHash (input : inputToOprfEncode) (oprfKeys : Key) (hasher : metro64)
    : res (list Z) :=
  encode_hash_from oprfKeys hasher (prcEncoded input) 0 (bucketIdx input).

(** ** sender.go *)

(** The zero value of an entry of [inputs]: nil codes, buckets 0. *)
Definition zero_input : inputToOprfEncode :=
  {| prcEncoded := replicate Nhash []; bucketIdx := replicate Nhash 0 |}.

Definition input_of (aesBlock : list Z) (cuckooHasher : CuckooHasher) (id : list Z)
    : inputToOprfEncode :=
  {| prcEncoded := (λ hIdx, PseudorandomCode aesBlock id (Z.of_nat hIdx)) <$> seq 0 Nhash;
     bucketIdx := BucketIndices cuckooHasher id |}.

(** [for id := range identifiers { ...; result.inputs[i] = ...; i++ }]. *)
Fixpoint fill_inputs (aesBlock : list Z) (cuckooHasher : CuckooHasher) (i : Z)
    (identifiers : list (list Z)) (inputs : list inputToOprfEncode)
    : res (list inputToOprfEncode) :=
  match identifiers with
  | [] => Ok inputs
  | id :: ids =>
      let! inputs := store inputs i (input_of aesBlock cuckooHasher id) in
      fill_inputs aesBlock cuckooHasher (i + 1) ids inputs
  end.

(** The thread of stage 1: the inputs and the hasher it sends to stage 3. *)
Definition stage1_thread (n remoteN : Z) (seeds : list (list Z)) (aesBlock : list Z)
    (identifiers : list (list Z)) : res (list inputToOprfEncode * metro64) :=
  let! cuckooHasher := NewCuckooHasher (wrap 64 remoteN) seeds in
  if n <? 0 then Panic "makeslice: len out of range"
  else
    let! inputs := fill_inputs aesBlock cuckooHasher 0 identifiers
                     (replicate (Z.to_nat n) zero_input) in
    let! hasher := GetHasher cuckooHasher in
    Ok (inputs, hasher).

(** Stage 1: the seeds, the size of the receiver and the AES key.  [draw k] is the
    [k]-th filling of a slice by [rand.Read]. *)
Definition sender_stage1 (draw : nat → option (nat → Z))
    : proc (list (list Z) * Z * list Z * Z) :=
  let* seeds := for_proc (λ i seeds,
      let* seed := pure (rand_Read draw i SaltLength) in
      let* _ := send seed in
      pure (Ok (seeds ++ [seed]))) 0 Nhash [] in
  let* remoteN := recv_int64 in
  let* secretKey := pure (rand_Read draw Nhash BlockSize) in
  let* _ := send secretKey in
  let oprfInputSize := to_int (scale_by_Factor remoteN) in
  let oprfInputSize := if 1 >? oprfInputSize then 1 else oprfInputSize in
  let* aesBlock := pure (aes_NewCipher secretKey) in
  pure (Ok (seeds, remoteN, aesBlock, oprfInputSize)).

(** A run of consecutive inputs, encoded and hashed. *)
Fixpoint encode_inputs (key : Key) (hasher : metro64) (inputs : list inputToOprfEncode)
    : res (list (list Z)) :=
  match inputs with
  | [] => Ok []
  | input :: inputs =>
      let! h := encodeAndHash input key hasher in
      let! hs := encode_inputs key hasher inputs in
      Ok (h :: hs)
  end.

Definition batch_size : nat := 2048.

(** The first inputs of the batches of the workers, and of the extra worker when
    some work is left, as ranges of [inputs]. *)
Definition batch_ranges (nWorkers len : nat) : list (nat * nat) :=
  let nBatches := (len / batch_size)%nat in
  let workerResp := (nBatches / nWorkers)%nat in
  let workLeft := (len - workerResp * nWorkers * batch_size)%nat in
  (seq 0 nWorkers ≫= λ w, (λ batchNumber,
      let step := ((w * workerResp + batchNumber) * batch_size)%nat in
      (step, step + batch_size)%nat) <$> seq 0 workerResp) ++
  (if decide (workLeft = 0)%nat then [] else [((len - workLeft)%nat, len)]).

(** The batches in the order in which they arrive at the writer's channel. *)
Fixpoint encode_batches (key : Key) (hasher : metro64) (inputs : list inputToOprfEncode)
    (ranges : list (nat * nat)) : res (list (list (list Z))) :=
  match ranges with
  | [] => Ok []
  | (lo, hi) :: ranges =>
      let! part := go_slice inputs lo hi in
      let! b := encode_inputs key hasher part in
      let! bs := encode_batches key hasher inputs ranges in
      Ok (b :: bs)
  end.

(** The size of the buffer of stage 3's writer. *)
Definition buffer_size : nat := 1024 * 64.

(** The encodings of one batch; the error of [EncodingsWrite] ends the stage,
    after the deferred [Flush]. *)
Fixpoint write_batch (batch : list (list Z)) (b : bufio) : proc bufio :=
  match batch with
  | [] => pure (Ok b)
  | hashedEncodings :: batch =>
      let* b := bufio_Write buffer_size b (encodings_bytes hashedEncodings) in
      match b.2 with
      | Some _ => pure (Ok b)
      | None => write_batch batch b
      end
  end.

(** The loop of the writer's goroutine.  [sent] counts to [len(inputs)], then the
    channel is closed: a batch that comes later panics in its worker, and if the
    batches end before, the writer waits for ever. *)
Fixpoint write_batches (total sent : nat) (batches : list (list (list Z))) (b : bufio)
    : proc bufio :=
  if decide (sent = total)
  then match batches with
       | [] => pure (Ok b)
       | _ => pure (Panic "send on closed channel")
       end
  else match batches with
       | [] => pure (Panic "all goroutines are asleep")
       | batch :: batches =>
           let* b := write_batch batch b in
           match b.2 with
           | Some _ => pure (Ok b)
           | None => write_batches total (sent + length batch) batches b
           end
       end.

(** The deferred [Flush] runs last; its error is dropped. *)
Definition writer (total : nat) (batches : list (list (list Z))) : proc unit :=
  let* b := write_batches total 0 batches ([], None) in
  let* _ := bufio_Flush b in
  match b.2 with
  | Some e => pure (Err (Wrapped "stage3" e))
  | None => pure (Ok ())
  end.

Definition sender_stage3 (n : Z) (oprfKey : Key)
    (message : res (list inputToOprfEncode * metro64)) : proc unit :=
  let* _ := send_int64 n in
  let* ' (inputs, hasher) := pure message in
  let* batches := pure (encode_batches oprfKey hasher inputs
                    (interleave 2 (batch_ranges GOMAXPROCS (length inputs)))) in
  writer (length inputs) batches.

(** [Send].  [oprf_of m] is the [OPRF] for [m] encodings. *)
Definition kkrt_Send (oprf_of : Z → OPRF) (draw drawOPRF : nat → option (nat → Z))
    (n : Z) (identifiers : list (list Z)) : proc unit :=
  let* ' (seeds, remoteN, aesBlock, oprfInputSize) := sender_stage1 draw in
  let* oprfKey := oprf_Send (oprf_of oprfInputSize) drawOPRF in
  sender_stage3 n oprfKey (stage1_thread n remoteN seeds aesBlock identifiers).

(** ** receiver.go *)
(** [rb] and [picks] are the draws of [NewCuckoo] and of the evictions. *)
Definition receiver_stage1 (rb : option (list Z)) (picks : nat → nat → Z) (n : Z) (identifiers : list (list Z))
    : proc (Cuckoo * list Z) :=
  let* seeds := for_proc (λ _ seeds,
      let* seed := wrap_err "stage1" (recv SaltLength) in
      pure (Ok (seeds ++ [seed]))) 0 Nhash [] in
  let* _ := send_int64 n in
  let* table := pure (NewCuckoo rb (wrap 64 n) seeds) in
  let* ' (e, table) := pure (insert_all picks 0 table identifiers) in
  let* _ := pure (match e with Some e => Err e | None => Ok () end) in
  let* secretKey := wrap_err "stage1" (recv 16) in
  pure (Ok (table, secretKey)).

(** The loop over the hashes of one remote identifier, from hash index [hashIdx]. *)
Fixpoint intersect_hashes (table : Cuckoo) (hashIdx : Z) (remoteEncoding : list Z)
    (st : list (gmap Z Z) * list (list Z)) : res (list (gmap Z Z) * list (list Z)) :=
  match remoteEncoding with
  | [] => Ok st
  | remoteHash :: rest =>
      let '(oprfOutput, intersection) := st in
      let! mp := index oprfOutput hashIdx in
      match mp !! remoteHash with
      | None => intersect_hashes table (hashIdx + 1) rest st
      | Some idx =>
          let! ' (id, _) := GetItemWithHash table idx in
          if bool_decide (id = []) then Err (ErrMsg "failed to retrieve item")
          else
            let! oprfOutput := store oprfOutput hashIdx (delete remoteHash mp) in
            intersect_hashes table (hashIdx + 1) rest (oprfOutput, intersection ++ [id])
      end
  end.

Definition receiver_stage3 (table : Cuckoo) (oprfOutput : list (gmap Z Z)) : proc (list (list Z)) :=
  let* remoteN := recv_int64 in
  let* ' (_, intersection) := for_proc (λ _ st,
      let* bs := recv (8 * Nhash) in
      pure (intersect_hashes table 0 (encodings_of bs) st)) 0 (Z.to_nat remoteN) (oprfOutput, []) in
  pure (Ok intersection).

(** [Intersect]. *)
Definition kkrt_Intersect (oprf_of : Z → OPRF) (rb : option (list Z)) (picks : nat → nat → Z)
    (drawOPRF : nat → option (nat → Z)) (n : Z) (identifiers : list (list Z))
    : proc (list (list Z)) :=
  let* ' (table, secretKey) := receiver_stage1 rb picks n identifiers in
  let* oprfOutput := oprf_Receive (oprf_of (Len table)) drawOPRF table secretKey in
  receiver_stage3 table oprfOutput.
End Kkrt.

(** * Lemmas *)

(** ** The words on the wire *)
Definition triple_ok (u : list Z) : Prop := length u = Nhash ∧ Forall (λ v, 0 ≤ v < 2 ^ 64) u.

Lemma length_encodings_bytes u : triple_ok u → length (encodings_bytes u) = (8 * Nhash)%nat.
Proof.
  intros [Hl _]. unfold encodings_bytes.
  do 4 (destruct u as [|? u]; try discriminate Hl). cbn [fmap list_fmap concat].
  by rewrite !length_app, !length_be_put.
Qed.

(** The [i]-th of three words of eight bytes. *)
Lemma slice_words (a b c : list Z) :
  length a = 8%nat → length b = 8%nat → length c = 8%nat →
  slice (a ++ b ++ c) 0 8 = a ∧ slice (a ++ b ++ c) 8 16 = b ∧ slice (a ++ b ++ c) 16 24 = c.
Proof.
  intros. do 9 (destruct a as [|? a]; try discriminate). do 9 (destruct b as [|? b]; try discriminate).
  by do 9 (destruct c as [|? c]; try discriminate).
Qed.

Lemma encodings_roundtrip u : triple_ok u → encodings_of (encodings_bytes u) = u.
Proof.
  intros [Hl Hr]. destruct u as [|v1 [|v2 [|v3 [|]]]]; try discriminate Hl.
  rewrite !Forall_cons in Hr. destruct Hr as (R1 & R2 & R3 & _).
  destruct (slice_words (be_put 8 v1) (be_put 8 v2) (be_put 8 v3)) as (E1 & E2 & E3);
    [apply length_be_put..|].
  unfold encodings_of, encodings_bytes, Nhash. cbn [fmap list_fmap concat seq].
  rewrite app_nil_r. change (8 * 0)%nat with 0%nat. change (8 * 1)%nat with 8%nat.
  change (8 * 2)%nat with 16%nat. change (0 + 8)%nat with 8%nat. change (8 + 8)%nat with 16%nat.
  change (16 + 8)%nat with 24%nat. by rewrite E1, E2, E3, !be_word_roundtrip.
Qed.

(** ** The batches *)
Lemma nested_ranges {A} (f : nat → A) nw resp :
  (seq 0 nw ≫= λ w, (λ b, f (w * resp + b)%nat) <$> seq 0 resp) = f <$> seq 0 (nw * resp).
Proof.
  induction nw as [|nw IH]; [done|].
  replace (S nw * resp)%nat with (nw * resp + resp)%nat by lia.
  rewrite seq_S, bind_app, IH, seq_app, fmap_app. f_equal. cbn [mbind list_bind Nat.add].
  rewrite app_nil_r. replace (seq (nw * resp) resp) with (Nat.add (nw * resp) <$> seq 0 resp).
  - by rewrite <-list_fmap_compose.
  - rewrite fmap_add_seq. f_equal. lia.
Qed.

Lemma concat_slices {A} (l : list A) b k :
  concat ((λ i, slice l (i * b) (i * b + b)) <$> seq 0 k) = take (k * b) l.
Proof.
  induction k as [|k IH]; [done|].
  rewrite seq_S, fmap_app, concat_app, IH. cbn [fmap list_fmap concat Nat.add].
  rewrite app_nil_r. unfold slice. replace (k * b + b - k * b)%nat with b by lia.
  rewrite take_take_drop. f_equal. lia.
Qed.

(** In the order of the workers, the batches are the inputs, cut in pieces, none
    of them empty. *)
Lemma batch_ranges_partition {A} (l : list A) nw :
  (1 ≤ nw)%nat →
  concat ((λ r, slice l r.1 r.2) <$> batch_ranges nw (length l)) = l ∧
  Forall (λ r, r.1 < r.2 ∧ r.2 ≤ length l)%nat (batch_ranges nw (length l)).
Proof.
  intros Hnw. unfold batch_ranges.
  set (resp := (length l / batch_size / nw)%nat).
  assert (resp * nw * batch_size ≤ length l)%nat as Hle.
  { subst resp. pose proof (Nat.Div0.mul_div_le (length l / batch_size) nw).
    pose proof (Nat.Div0.mul_div_le (length l) batch_size). nia. }
  rewrite (nested_ranges (λ k, (k * batch_size, k * batch_size + batch_size)%nat)).
  split.
  - rewrite fmap_app, concat_app, <-list_fmap_compose. unfold compose. cbn [fst snd].
    rewrite concat_slices. rewrite (Nat.mul_comm nw resp). case_decide as Hz.
    + cbn. rewrite app_nil_r. apply take_ge. lia.
    + cbn [fmap list_fmap concat fst snd]. rewrite app_nil_r. unfold slice.
      rewrite (take_ge (drop _ _)) by (rewrite length_drop; lia).
      replace (length l - (length l - resp * nw * batch_size))%nat with (resp * nw * batch_size)%nat by lia.
      apply take_drop.
  - apply Forall_app. split.
    + apply Forall_fmap, Forall_forall. intros k Hk%elem_of_seq. cbn [compose fst snd].
      unfold batch_size in *. nia.
    + case_decide; [done|]. apply Forall_singleton. cbn [fst snd]. lia.
Qed.

Section Encoding.
Context `{Cores, ByteOps, MetroHash}.
Context (k : Key) (hash : metro64).

Lemma encode_inputs_Ok inputs us :
  Forall2 (λ i u, encodeAndHash i k hash = Ok u) inputs us →
  encode_inputs k hash inputs = Ok us.
Proof. induction 1 as [|i u inputs us E _ IH]; [done|]. cbn [encode_inputs]. by rewrite E, IH. Qed.

Lemma encode_batches_Ok inputs us ranges :
  Forall2 (λ i u, encodeAndHash i k hash = Ok u) inputs us →
  Forall (λ r, r.1 < r.2 ∧ r.2 ≤ length inputs)%nat ranges →
  encode_batches k hash inputs ranges = Ok ((λ r, slice us r.1 r.2) <$> ranges).
Proof.
  intros Hus. induction 1 as [|[lo hi] ranges [Hlt Hle] _ IH]; [done|]. cbn [fst snd] in *.
  cbn [encode_batches fmap list_fmap]. rewrite go_slice_Ok by lia. cbn [res_bind].
  rewrite (encode_inputs_Ok _ (slice us lo hi)); [|by apply Forall2_take, Forall2_drop].
  cbn [res_bind]. by rewrite IH.
Qed.
End Encoding.

(** ** The buffered writer over a perfect link *)
Section BufferedWriter.
Lemma sends_batch batch buf :
  ∃ out buf', sends (write_batch batch (buf, None)) out (buf', None) ∧
    out ++ buf' = buf ++ concat (encodings_bytes <$> batch).
Proof.
  revert buf. induction batch as [|u batch IH]; intros buf.
  - exists [], buf. split; [apply sends_pure|]. by rewrite app_nil_r.
  - destruct (sends_Write buffer_size buf (encodings_bytes u)) as (o1 & b1 & H1 & E1).
    destruct (IH b1) as (o2 & b2 & H2 & E2). exists (o1 ++ o2), b2. split.
    + cbn [write_batch]. by eapply sends_bind.
    + cbn [fmap list_fmap concat]. by rewrite <-app_assoc, E2, !app_assoc, E1.
Qed.

Lemma sends_batches total sent batches buf :
  Forall (λ b, b ≠ []) batches → (sent + length (concat batches) = total)%nat →
  ∃ out buf', sends (write_batches total sent batches (buf, None)) out (buf', None) ∧
    out ++ buf' = buf ++ concat (encodings_bytes <$> concat batches).
Proof.
  intros Hne. revert sent buf. induction Hne as [|b batches Hb Hne IH]; intros sent buf Hl;
    cbn [concat length] in Hl; cbn [write_batches].
  - rewrite decide_True by lia. exists [], buf. split; [apply sends_pure|]. by rewrite app_nil_r.
  - rewrite length_app in Hl. destruct b as [|u b]; [done|]. cbn [length] in Hl.
    rewrite decide_False by lia.
    destruct (sends_batch (u :: b) buf) as (o1 & b1 & H1 & E1).
    destruct (IH (sent + length (u :: b))%nat b1) as (o2 & b2 & H2 & E2); [cbn [length]; lia|].
    exists (o1 ++ o2), b2. split; [by eapply sends_bind|].
    cbn [concat]. by rewrite fmap_app, concat_app, <-app_assoc, E2, !app_assoc, E1.
Qed.

(** Everything is sent, once, in the order of the batches. *)
Lemma sends_writer batches :
  Forall (λ b, b ≠ []) batches →
  sends (writer (length (concat batches)) batches) (concat (encodings_bytes <$> concat batches)) ().
Proof.
  intros Hne. destruct (sends_batches (length (concat batches)) 0 batches [] Hne eq_refl)
    as (out & buf & Hs & E). cbn [app] in E. unfold writer. rewrite <-E.
  rewrite <-(app_nil_r buf) at 1.
  eapply sends_bind; [done|]. eapply sends_bind; [apply sends_Flush|]. apply sends_pure.
Qed.
End BufferedWriter.

(** ** The hashes of an identifier under a key *)
Section Hashes.
Context `{Cores, ByteOps, CodeOps, MetroHash}.

(** The hash the sender computes for hash function [h]. *)
Definition id_hash (k : Key) (cuckooHasher : CuckooHasher) (hash0 : metro64) (aesBlock y : list Z)
    (h : nat) : Z :=
  match (let! b := index (BucketIndices cuckooHasher y) (Z.of_nat h) in
         Encode k b (PseudorandomCode aesBlock y (Z.of_nat h))) with
  | Ok enc => Hash64 hash0 enc
  | _ => 0
  end.
End Hashes.

Section Receiver.
Context `{Blake3Laws, CoresLaws, ByteOpsLaws, CodeOpsLaws, MetroHashLaws}.
Context (size : Z) (c : Cuckoo) (Hc : valid size c) (key : list Z) (hash0 : metro64).
Context (k : Key) (t : list (list Z)) (maps0 : list (gmap Z Z)).
Hypothesis Ho : oprf_outcome c key hash0 k t maps0.

Abbreviation hash_of := (id_hash k (hasher c) hash0 key).

Lemma three_buckets y : ∃ b0 b1 b2, BucketIndices (hasher c) y = [b0; b1; b2] ∧
  0 ≤ b0 < bucketSize (hasher c) ∧ 0 ≤ b1 < bucketSize (hasher c) ∧ 0 ≤ b2 < bucketSize (hasher c).
Proof.
  pose proof (valid_shape _ _ Hc) as Hs.
  pose proof (length_BucketIndices (hasher c) y) as Hl. rewrite (shape_hashers _ _ Hs) in Hl.
  pose proof (λ b, BucketIndices_range (hasher c) y b (shape_bucketSize _ _ Hs)) as Hr.
  destruct (BucketIndices (hasher c) y) as [|b0 [|b1 [|b2 [|]]]]; try discriminate Hl.
  exists b0, b1, b2. split; [done|]. split_and!; apply Hr; set_solver.
Qed.

(** [Encode] of any identifier's code succeeds at its buckets. *)
Lemma Encode_total b y h : 0 ≤ b < bucketSize (hasher c) →
  ∃ e, Encode k b (PseudorandomCode key y h) = Ok e.
Proof.
  intros Hb. rewrite <-(Z2Nat.id b) by lia. eexists.
  eapply Encode_Ok; [exact Ho|lia|apply length_PseudorandomCode|apply PseudorandomCode_bytes].
Qed.

Lemma encodeAndHash_Ok y :
  encodeAndHash (input_of key (hasher c) y) k hash0 = Ok (hash_of y <$> seq 0 Nhash) ∧
  triple_ok (hash_of y <$> seq 0 Nhash).
Proof.
  destruct (three_buckets y) as (b0 & b1 & b2 & EB & R0 & R1 & R2).
  unfold encodeAndHash, input_of. cbn [bucketIdx prcEncoded]. unfold id_hash. rewrite EB.
  destruct (Encode_total b0 y 0 R0) as [e0 E0]. destruct (Encode_total b1 y 1 R1) as [e1 E1].
  destruct (Encode_total b2 y 2 R2) as [e2 E2].
  unfold Nhash. cbn [seq fmap list_fmap encode_hash_from].
  change (index _ (Z.of_nat 0)) with (@Ok Z b0). change (index _ (Z.of_nat 1)) with (@Ok Z b1).
  change (index _ (Z.of_nat 2)) with (@Ok Z b2).
  change (index _ 0) with (Ok (PseudorandomCode key y 0)).
  change (index _ (0 + 1)) with (Ok (PseudorandomCode key y 1)).
  change (index _ (0 + 1 + 1)) with (Ok (PseudorandomCode key y 2)).
  cbn [res_bind]. change (Z.of_nat 0) with 0. change (Z.of_nat 1) with 1. change (Z.of_nat 2) with 2.
  rewrite E0, E1, E2. split; [done|]. split; [done|].
  rewrite !Forall_cons. split_and!; try apply metro_Hash64_range. done.
Qed.

(** ** The home of an identifier of the table *)
Definition home (y : list Z) (h : nat) (i : Z) : Prop := ∃ b, occupied c b i y (Z.of_nat h).

Lemma occupied_content b i y h :
  occupied c b i y h → i ∈ upto (inserted c) ∧ items c !! Z.to_nat i = Some y ∧ y ≠ [] ∧
    BucketIndices (hasher c) y !! Z.to_nat h = Some (Z.of_nat b).
Proof.
  intros (Hb & E & Hi & Eg & Hh). destruct (bucket_content size c (Z.of_nat b) Hc)
    as [E0|(i' & it & h' & E' & Hi' & Eg' & Hh' & HB & Hne & _)]; [lia|congruence|].
  rewrite E in E'. simplify_eq. rewrite Eg in Eg'. simplify_eq.
  split; [apply elem_of_upto; lia|]. split; [|done].
  destruct (read_item size c i' (valid_shape _ _ Hc)) as (it2 & h2 & Eg2 & Hit & _).
  { pose proof (valid_inserted _ _ Hc). lia. }
  rewrite Eg in Eg2. by simplify_eq.
Qed.

Lemma home_fun y h h' i i' : home y h i → home y h' i' → h = h' ∧ i = i'.
Proof.
  intros [b Hb] [b' Hb']. destruct (occupied_content _ _ _ _ Hb) as (Hi & Hit & _).
  destruct (occupied_content _ _ _ _ Hb') as (Hi' & Hit' & _).
  assert (i = i') as -> by by eapply (valid_distinct _ _ Hc).
  destruct Hb as (_ & _ & _ & Eg & _), Hb' as (_ & _ & _ & Eg' & _).
  rewrite Eg in Eg'. simplify_eq. split; [lia|done].
Qed.

Lemma home_holds y : holds c (upto (inserted c)) y ↔ ∃ h i, home y h i.
Proof.
  split.
  - intros Hy. destruct (item_bucket size c y Hc Hy) as (b & i & h & Hb & E & Hi & Eg & HB).
    assert (0 ≤ h) as Hh0.
    { destruct (bucket_content size c b Hc Hb) as [E0|(i' & it & h' & E' & _ & Eg' & Hh' & _)]; [congruence|].
      rewrite E in E'. simplify_eq. rewrite Eg in Eg'. by simplify_eq. }
    apply lookup_lt_Some in HB as Hlt.
    rewrite length_BucketIndices, (shape_hashers _ _ (valid_shape _ _ Hc)) in Hlt.
    exists (Z.to_nat h), i, (Z.to_nat b). rewrite Z2Nat.id by done.
    split; [lia|]. rewrite Z2Nat.id by lia. split_and!; try done; lia.
  - intros (h & i & b & Hocc). destruct (occupied_content _ _ _ _ Hocc) as (Hi & Hit & _). by exists i.
Qed.

(** Both sides compute the same hash for an item of the table. *)
Lemma occupied_hash b i y h :
  occupied c b i y (Z.of_nat h) → Hash64 hash0 (t !!! b) = hash_of y h.
Proof.
  intros Hocc. destruct (occupied_content _ _ _ _ Hocc) as (_ & _ & _ & HB). rewrite Nat2Z.id in HB.
  pose proof Hocc as (Hb & E & _ & Eg & _).
  unfold id_hash. rewrite (Ok_index_nat _ _ _ HB). cbn [res_bind].
  assert (code_at c key b = PseudorandomCode key y (Z.of_nat h)) as <-.
  { unfold code_at. rewrite E. cbn [res_bind]. by rewrite Eg. }
  assert (Encode k (Z.of_nat b) (code_at c key b) = Ok (t !!! b)) as -> by by eapply Encode_code.
  done.
Qed.

(** ** The intersection loop *)

(** No two different identifiers, one of them the receiver's, have the same hash
    under the same hash function. *)
Context (sids rids : list (list Z)).
Hypothesis Hrids : ∀ y, holds c (upto (inserted c)) y ↔ y ∈ rids.
Hypothesis Hcf : ∀ y x h, y ∈ sids ++ rids → x ∈ rids → (h < Nhash)%nat →
  hash_of y h = hash_of x h → y = x.

Definition hit (maps : list (gmap Z Z)) (y : list Z) (h : nat) : option Z :=
  maps !! h ≫= λ mp, mp !! hash_of y h.

Lemma home_lt y h i : home y h i → (h < Nhash)%nat.
Proof. intros (b & _ & _ & _ & _ & Hh). lia. Qed.

Lemma home_rids y h i : home y h i → y ∈ rids.
Proof. intros Hy. apply Hrids, home_holds. by exists h, i. Qed.

Lemma hits_initial y h i :
  y ∈ sids ++ rids → (h < Nhash)%nat → hit maps0 y h = Some i ↔ home y h i.
Proof.
  intros Hy Hh. pose proof (outcome_maps _ _ _ _ _ _ Ho) as [Hl Hs Hm].
  assert (∀ i', hit maps0 y h = Some i' → home y h i') as Hsound.
  { intros i' Hhit. unfold hit in Hhit. apply bind_Some in Hhit as (mp & Hmp & Hv).
    destruct (Hs _ _ _ _ Hmp Hv) as (b & it & Hb & Hocc & Ev).
    rewrite (occupied_hash _ _ _ _ Hocc) in Ev.
    assert (y = it) as -> by (apply (Hcf _ _ h); [done|by apply (home_rids it h i'); exists b|done|done]).
    by exists b. }
  split; [apply Hsound|]. intros [b Hocc].
  destruct (Hm b i y (Z.of_nat h)) as (mp & Hmp & [i' Hi']); [apply Hocc|done|].
  rewrite Nat2Z.id in Hmp. rewrite (occupied_hash _ _ _ _ Hocc) in Hi'.
  assert (hit maps0 y h = Some i') as Hhit by (unfold hit; by rewrite Hmp).
  destruct (home_fun y h h i i') as [_ ->]; [by exists b|by apply Hsound|done].
Qed.

(** What the loop maintains after the identifiers of [done]. *)
Record progress (seen : list (list Z)) (st : list (gmap Z Z) * list (list Z)) : Prop := {
  progress_length : length st.1 = Nhash;
  progress_hits y h i : y ∈ sids ++ rids → (h < Nhash)%nat →
    hit st.1 y h = Some i ↔ home y h i ∧ y ∉ seen;
  progress_NoDup : NoDup st.2;
  progress_result x : x ∈ st.2 ↔ x ∈ rids ∧ x ∈ seen
}.

Lemma hashes_from y j : (j < Nhash)%nat →
  hash_of y <$> seq j (Nhash - j) = hash_of y j :: (hash_of y <$> seq (S j) (Nhash - S j)).
Proof.
  intros Hj. replace (Nhash - j)%nat with (S (Nhash - S j)) by lia. done.
Qed.

Lemma intersect_misses y st n : ∀ j, (n = Nhash - j)%nat →
  length st.1 = Nhash → (∀ h, (j ≤ h < Nhash)%nat → hit st.1 y h = None) →
  intersect_hashes c (Z.of_nat j) (hash_of y <$> seq j (Nhash - j)) st = Ok st.
Proof.
  destruct st as [maps inter]. cbn [fst].
  induction n as [|n IH]; intros j Hn Hl Hmiss; [by rewrite <-Hn|].
  rewrite hashes_from by lia. cbn [intersect_hashes].
  destruct (lookup_lt_is_Some_2 maps j) as [mp Hmp]; [lia|].
  rewrite (Ok_index_nat _ _ _ Hmp). cbn [res_bind].
  assert (mp !! hash_of y j = None) as ->.
  { specialize (Hmiss j ltac:(lia)). unfold hit in Hmiss. by rewrite Hmp in Hmiss. }
  replace (Z.of_nat j + 1) with (Z.of_nat (S j)) by lia.
  apply IH; [lia|done|]. intros h Hh. apply Hmiss. lia.
Qed.

Lemma intersect_one_hit y maps inter h0 i mp n : ∀ j, (n = h0 - j)%nat → (j ≤ h0)%nat →
  length maps = Nhash → home y h0 i → maps !! h0 = Some mp → mp !! hash_of y h0 = Some i →
  (∀ h, (h < Nhash)%nat → h ≠ h0 → hit maps y h = None) →
  intersect_hashes c (Z.of_nat j) (hash_of y <$> seq j (Nhash - j)) (maps, inter) =
    Ok (<[h0 := delete (hash_of y h0) mp]> maps, inter ++ [y]).
Proof.
  induction n as [|n IH]; intros j Hn Hj Hl Hhome Hmp Hv Hmiss; pose proof (home_lt _ _ _ Hhome);
    rewrite hashes_from by lia; cbn [intersect_hashes].
  - assert (j = h0) as -> by lia. rewrite (Ok_index_nat _ _ _ Hmp). cbn [res_bind]. rewrite Hv.
    destruct Hhome as [b Hocc]. pose proof Hocc as (_ & _ & _ & Eg & _).
    rewrite Eg. cbn [res_bind]. rewrite bool_decide_false by by eapply occupied_content.
    rewrite store_Ok, Nat2Z.id by lia. cbn [res_bind].
    replace (Z.of_nat h0 + 1) with (Z.of_nat (S h0)) by lia.
    apply (intersect_misses _ _ (Nhash - S h0)); [done|cbn [fst]; by rewrite length_insert|].
    intros h Hh. cbn [fst]. unfold hit. rewrite list_lookup_insert_ne by lia.
    apply Hmiss; lia.
  - destruct (lookup_lt_is_Some_2 maps j) as [mpj Hmpj]; [lia|].
    rewrite (Ok_index_nat _ _ _ Hmpj). cbn [res_bind].
    assert (mpj !! hash_of y j = None) as ->.
    { specialize (Hmiss j ltac:(lia) ltac:(lia)). unfold hit in Hmiss. by rewrite Hmpj in Hmiss. }
    replace (Z.of_nat j + 1) with (Z.of_nat (S j)) by lia. apply IH; try done; lia.
Qed.

(** One remote identifier. *)
Lemma intersect_step seen st y :
  progress seen st → y ∈ sids →
  ∃ st', intersect_hashes c 0 (hash_of y <$> seq 0 Nhash) st = Ok st' ∧ progress (y :: seen) st'.
Proof.
  intros Hp Hy. destruct st as [maps inter]. pose proof Hp as [Hl Hhits Hnd Hres]. cbn [fst snd] in *.
  assert (y ∈ sids ++ rids) as Hyu by set_solver.
  destruct (decide (y ∈ rids ∧ y ∉ seen)) as [[Hyr Hys]|Hno].
  - pose proof (proj1 (home_holds y) (proj2 (Hrids y) Hyr)) as (h0 & i & Hhome).
    pose proof (home_lt _ _ _ Hhome) as Hh0.
    assert (hit maps y h0 = Some i) as Hhit by by apply Hhits.
    unfold hit in Hhit. apply bind_Some in Hhit as (mp & Hmp & Hv).
    eexists. split; [apply (intersect_one_hit y maps inter h0 i mp h0 0); try done; try lia|].
    { intros h Hh Hne. destruct (hit maps y h) as [i'|] eqn:E; [|done].
      apply Hhits in E as [Hhome' _]; [|done..]. by destruct (home_fun _ _ _ _ _ Hhome Hhome'). }
    split; cbn [fst snd].
    + by rewrite length_insert.
    + intros y' h i' Hy' Hh. rewrite not_elem_of_cons. unfold hit.
      destruct (decide (h = h0)) as [->|Hne].
      * rewrite list_lookup_insert_eq by lia. cbn [mbind option_bind].
        destruct (decide (y' = y)) as [->|Hyy].
        { rewrite lookup_delete_eq. split; [done|]. intros [_ [? _]]. done. }
        rewrite lookup_delete_ne by (intros E; apply Hyy; symmetry in E; by eapply Hcf).
        specialize (Hhits y' h0 i' Hy' Hh). unfold hit in Hhits. rewrite Hmp in Hhits.
        cbn [mbind option_bind] in Hhits. rewrite Hhits. naive_solver.
      * rewrite list_lookup_insert_ne by done. change (hit maps y' h = Some i' ↔ home y' h i' ∧ y' ≠ y ∧ y' ∉ seen).
        rewrite Hhits by done. split; [|naive_solver]. intros [Hhome' Hs]. split; [done|].
        split; [|done]. intros ->. destruct (home_fun _ _ _ _ _ Hhome Hhome'). congruence.
    + apply NoDup_app. split; [done|]. split; [|apply NoDup_singleton].
      intros x Hx. rewrite list_elem_of_singleton. intros ->. by apply Hres in Hx as [_ ?].
    + intros x. rewrite elem_of_app, Hres, list_elem_of_singleton, elem_of_cons. naive_solver.
  - exists (maps, inter). split.
    + apply (intersect_misses y (maps, inter) Nhash 0); [done|done|]. cbn [fst]. intros h Hh.
      destruct (hit maps y h) as [i|] eqn:E; [|done]. exfalso.
      apply Hhits in E as [Hhome Hs]; [|done|lia]. apply Hno. split; [by eapply home_rids|done].
    + split; cbn [fst snd]; [done| |done|].
      * intros y' h i Hy' Hh. rewrite Hhits, not_elem_of_cons by done. split; [|naive_solver].
        intros [Hhome Hs]. split; [done|]. split; [|done]. intros ->. apply Hno.
        split; [by eapply home_rids|done].
      * intros x. rewrite Hres, elem_of_cons. split; [naive_solver|].
        intros [Hx [->|Hs]]; [|done]. split; [done|].
        destruct (decide (y ∈ seen)); [done|]. by destruct Hno.
Qed.

Lemma progress_initial : progress [] (maps0, []).
Proof.
  split; cbn [fst snd].
  - apply (outcome_maps _ _ _ _ _ _ Ho).
  - intros y h i Hy Hh. rewrite hits_initial by done. set_solver.
  - constructor.
  - set_solver.
Qed.

(** The receiver's loop over the identifiers [ys] in the queue. *)
Lemma receive_loop {A} (p : proc A) ys : ∀ lo seen st i,
  progress seen st → Forall (λ y, y ∈ sids) ys →
  ∃ st', progress (reverse ys ++ seen) st' ∧
    rtc step
      (Conf p i (for_proc (λ _ st, let* bs := recv (8 * Nhash) in
          pure (intersect_hashes c 0 (encodings_of bs) st)) lo (length ys) st)
        (concat ((λ y, encodings_bytes (hash_of y <$> seq 0 Nhash)) <$> ys)))
      (Conf p i (Done (Ok st')) []).
Proof.
  induction ys as [|y ys IH]; intros lo seen st i Hp Hys.
  { exists st. by split. }
  apply Forall_cons in Hys as [Hy Hys].
  destruct (encodeAndHash_Ok y) as [_ Htri].
  destruct (intersect_step seen st y Hp Hy) as (st1 & E1 & Hp1).
  destruct (IH (S lo) (y :: seen) st1 i Hp1 Hys) as (st' & Hp' & Hsteps).
  exists st'. split; [by rewrite reverse_cons, <-app_assoc|].
  cbn [length for_proc fmap list_fmap concat]. unfold recv, pure. cbn [pbind].
  apply steps_right_recv; [by apply length_encodings_bytes|].
  rewrite encodings_roundtrip, E1 by done. cbn [pbind]. exact Hsteps.
Qed.
End Receiver.

(** ** The number of buckets, which both parties compute *)
Lemma table_Len `{ByteOpsLaws, MetroHash, FloatConv} nr seeds c :
  seeds_ok seeds → 0 ≤ nr ≤ 2 ^ 49 → NewCuckooHasher nr seeds = Ok (hasher c) →
  Len c = if 1 >? scale_by_Factor nr then 1 else scale_by_Factor nr.
Proof.
  intros Hs Hnr. unfold Len. rewrite NewCuckooHasher_Ok, to_uint64_scale by done. by intros [= <-].
Qed.

Lemma input_size_bounds nr :
  0 ≤ nr ≤ 2 ^ 49 →
  1 ≤ (if 1 >? scale_by_Factor nr then 1 else scale_by_Factor nr) < 2 ^ 62.
Proof.
  intros Hnr. pose proof (scale_by_Factor_max nr Hnr).
  destruct (Z.gtb_spec 1 (scale_by_Factor nr)); lia.
Qed.

(** ** The sender's inputs *)
Lemma fill_inputs_spec `{CodeOps, MetroHash} key ch ids inputs i :
  (i + length ids ≤ length inputs)%nat →
  fill_inputs key ch (Z.of_nat i) ids inputs =
    Ok (take i inputs ++ (input_of key ch <$> ids) ++ drop (i + length ids) inputs).
Proof.
  revert inputs i. induction ids as [|id ids IH]; intros inputs i Hl; cbn [fill_inputs length] in *.
  - cbn. by rewrite Nat.add_0_r, take_drop.
  - rewrite store_Ok, Nat2Z.id by lia. cbn [res_bind].
    replace (Z.of_nat i + 1) with (Z.of_nat (S i)) by lia.
    rewrite IH by (rewrite length_insert; lia). f_equal.
    rewrite drop_insert_lt by lia. replace (S i + length ids)%nat with (i + S (length ids))%nat by lia.
    rewrite (take_S_r _ _ (input_of key ch id)) by (apply list_lookup_insert_eq; lia).
    rewrite take_insert_ge by lia. by rewrite <-app_assoc.
Qed.

Lemma stage1_thread_Ok `{ByteOps, CodeOps, MetroHash, FloatConv} ns nr seeds key ch sids hash0 :
  NewCuckooHasher (wrap 64 nr) seeds = Ok ch →
  ns = Z.of_nat (length sids) → GetHasher ch = Ok hash0 →
  stage1_thread ns nr seeds key sids = Ok (input_of key ch <$> sids, hash0).
Proof.
  intros Hch -> Hh. unfold stage1_thread. rewrite Hch. cbn [res_bind].
  destruct (Z.ltb_spec (Z.of_nat (length sids)) 0); [lia|]. rewrite Nat2Z.id.
  change 0 with (Z.of_nat 0). rewrite fill_inputs_spec by (rewrite length_replicate; lia).
  cbn [res_bind take app Nat.add]. rewrite drop_ge, app_nil_r by (rewrite length_replicate; lia).
  by rewrite Hh.
Qed.

(** ** The whole protocol *)
Section Protocol.
Context `{Blake3Laws, CoresLaws, ByteOpsLaws, CodeOpsLaws, MetroHashLaws, FloatConv}.
Context (rnd : nat → nat → Z) (rb : list Z) (picks : nat → nat → Z).

(** The seeds and the AES key that the sender draws. *)
Definition kkrt_seed (i : nat) : list Z := random_bytes (rnd i) SaltLength.
Definition kkrt_seeds : list (list Z) := kkrt_seed <$> seq 0 Nhash.
Definition kkrt_key : list Z := random_bytes (rnd Nhash) BlockSize.

Lemma kkrt_seeds_ok : seeds_ok kkrt_seeds.
Proof.
  split; [by unfold kkrt_seeds; rewrite length_fmap, length_seq|].
  apply Forall_fmap, Forall_true. intros i. split; [apply length_random_bytes|apply random_bytes_ok].
Qed.

Lemma length_kkrt_key : length kkrt_key = 16%nat.
Proof. apply length_random_bytes. Qed.

Lemma kkrt_key_ok : aes_NewCipher kkrt_key = Ok kkrt_key.
Proof.
  unfold aes_NewCipher. rewrite bool_decide_true; [done|]. left. apply length_kkrt_key.
Qed.

Lemma seeds_exchange :
  exchange (for_proc (λ i seeds,
      let* seed := pure (rand_Read (λ k, Some (rnd k)) i SaltLength) in
      let* _ := send seed in
      pure (Ok (seeds ++ [seed]))) 0 Nhash [])
    (for_proc (λ _ seeds,
      let* seed := wrap_err "stage1" (recv SaltLength) in
      pure (Ok (seeds ++ [seed]))) 0 Nhash [])
    kkrt_seeds kkrt_seeds.
Proof.
  match goal with |- exchange (for_proc ?f _ _ _) (for_proc ?g _ _ _) _ _ =>
    destruct (exchange_for f g
      (λ i s t, s = kkrt_seed <$> seq 0 i ∧ t = kkrt_seed <$> seq 0 i) Nhash 0 [] [])
      as (s' & t' & He & -> & ->); [done| |exact He] end.
  intros i s t Hi [-> ->]. eexists _, _. split.
  - unfold send, recv, pure. rewrite (rand_Read_random _ _ _ (rnd i)) by done. cbn [pbind wrap_err].
    apply steps_left_send. cbn [pbind app].
    apply steps_right_recv_all; [apply length_random_bytes|]. cbn [pbind wrap_err]. apply rtc_refl.
  - rewrite Nat.add_1_r, seq_S, fmap_app. done.
Qed.

Context (nr : Z) (rids : list (list Z)) (c0 c : Cuckoo).
Hypothesis Hnr : 0 ≤ nr ≤ 2 ^ 49.
Hypothesis Hc0 : NewCuckoo (Some rb) nr kkrt_seeds = Ok c0.
Hypothesis Hins : insert_all picks 0 c0 rids = Ok (None, c).
Hypothesis Hhash : NewCuckooHasher nr kkrt_seeds = Ok (hasher c).

Lemma Len_scale : Len c = if 1 >? scale_by_Factor nr then 1 else scale_by_Factor nr.
Proof. eapply table_Len; [apply kkrt_seeds_ok|exact Hnr|done]. Qed.

Lemma Len_bounds : 1 ≤ Len c < 2 ^ 62.
Proof. rewrite Len_scale. by apply input_size_bounds. Qed.

Lemma stage1_exchange :
  exchange (sender_stage1 (λ k, Some (rnd k))) (receiver_stage1 (Some rb) picks nr rids)
    (kkrt_seeds, nr, kkrt_key, Len c) (c, kkrt_key).
Proof.
  unfold exchange, sender_stage1, receiver_stage1.
  eapply exchange_bind; [apply seeds_exchange|].
  unfold send_int64, recv_int64, send, recv, pure. cbn [pbind].
  apply steps_right_send. cbn [pbind app].
  apply steps_left_recv_all; [apply length_be_put|]. cbn [pbind].
  rewrite int64_be_roundtrip by lia. unfold wrap. rewrite Z.mod_small by lia.
  rewrite Hc0. cbn [pbind]. rewrite Hins. cbn [pbind].
  rewrite (rand_Read_random _ _ _ (rnd Nhash)) by done. cbn [pbind].
  apply steps_left_send. cbn [pbind app]. fold kkrt_key. rewrite kkrt_key_ok. cbn [pbind].
  apply steps_right_recv_all; [apply length_kkrt_key|]. cbn [pbind wrap_err].
  rewrite Len_scale, to_int_scale by done. apply rtc_refl.
Qed.

(** *** Stage 3 *)
Lemma slice_fmap {A B} (f : A → B) (l : list A) lo hi : slice (f <$> l) lo hi = f <$> slice l lo hi.
Proof. unfold slice. by rewrite fmap_take, fmap_drop. Qed.

Lemma fmap_concat {A B} (f : A → B) (ls : list (list A)) :
  f <$> concat ls = concat ((λ l : list A, f <$> l) <$> ls).
Proof. induction ls as [|l ls IH]; [done|]. cbn [concat fmap list_fmap]. by rewrite fmap_app, IH. Qed.

(** The identifiers in the order in which their encodings leave. *)
Definition sent_order (sids : list (list Z)) : list (list Z) :=
  concat ((λ r, slice sids r.1 r.2) <$> interleave 2 (batch_ranges GOMAXPROCS (length sids))).

Lemma sent_order_all sids : sent_order sids ≡ₚ sids.
Proof.
  unfold sent_order. rewrite interleave_all.
  by destruct (batch_ranges_partition sids GOMAXPROCS GOMAXPROCS_pos) as [-> _].
Qed.

Context (size : Z) (Hvalid : valid size c) (hash0 : metro64).
Hypothesis Hh : GetHasher (hasher c) = Ok hash0.
Context (k : Key) (t : list (list Z)) (maps : list (gmap Z Z)).
Hypothesis Ho : oprf_outcome c kkrt_key hash0 k t maps.

Lemma stage3_sends sids :
  Z.of_nat (length sids) < 2 ^ 63 →
  sends (sender_stage3 (Z.of_nat (length sids)) k
      (Ok (input_of kkrt_key (hasher c) <$> sids, hash0)))
    (be_put 8 (Z.of_nat (length sids)) ++
     concat ((λ y, encodings_bytes (id_hash k (hasher c) hash0 kkrt_key y <$> seq 0 Nhash))
             <$> sent_order sids)) ().
Proof.
  intros Hns. unfold sender_stage3. eapply sends_bind.
  { apply sends_one. }
  unfold pure. cbn [pbind]. rewrite length_fmap.
  set (hs := λ y, id_hash k (hasher c) hash0 kkrt_key y <$> seq 0 Nhash).
  rewrite (encode_batches_Ok _ _ _ (hs <$> sids)).
  - cbn [pbind]. set (batches := (λ r, slice (hs <$> sids) r.1 r.2) <$>
      interleave 2 (batch_ranges GOMAXPROCS (length sids))).
    assert (concat batches = hs <$> sent_order sids) as Ec.
    { subst batches. unfold sent_order. rewrite fmap_concat, <-list_fmap_compose. f_equal.
      apply list_fmap_ext. intros _ r _. apply slice_fmap. }
    assert (length sids = length (concat batches)) as ->.
    { by rewrite Ec, length_fmap, sent_order_all. }
    replace (concat _) with (concat (encodings_bytes <$> concat batches)).
    2: { by rewrite Ec, <-list_fmap_compose. }
    apply sends_writer. subst batches. apply Forall_fmap. rewrite interleave_all.
    destruct (batch_ranges_partition sids GOMAXPROCS GOMAXPROCS_pos) as [_ Hr].
    eapply Forall_impl; [exact Hr|]. intros [lo hi] [Hlt Hle] E. cbn [compose fst snd] in *.
    apply (f_equal length) in E. rewrite length_slice in E by (rewrite length_fmap; lia).
    cbn [length] in E. lia.
  - apply Forall2_fmap, Forall_Forall2_diag, Forall_true. intros y.
    eapply encodeAndHash_Ok; done.
  - rewrite interleave_all, length_fmap. by apply batch_ranges_partition, GOMAXPROCS_pos.
Qed.

Lemma stage3_exchange sids :
  Z.of_nat (length sids) < 2 ^ 63 →
  (∀ y, holds c (upto (inserted c)) y ↔ y ∈ rids) →
  (∀ y x h, y ∈ sids ++ rids → x ∈ rids → (h < Nhash)%nat →
    id_hash k (hasher c) hash0 kkrt_key y h = id_hash k (hasher c) hash0 kkrt_key x h → y = x) →
  ∃ inter, exchange
      (sender_stage3 (Z.of_nat (length sids)) k (Ok (input_of kkrt_key (hasher c) <$> sids, hash0)))
      (receiver_stage3 c maps) () inter ∧
    NoDup inter ∧ ∀ x, x ∈ inter ↔ x ∈ rids ∧ x ∈ sids.
Proof.
  intros Hns Hrids Hcf.
  destruct (receive_loop size c Hvalid kkrt_key hash0 k t maps Ho sids rids Hrids Hcf
    (@Done unit (Ok ())) (sent_order sids) 0 [] (maps, []) []) as (st' & Hp & Hsteps).
  { by eapply progress_initial. }
  { apply Forall_forall. intros y. by rewrite sent_order_all. }
  exists st'.2. split.
  - unfold exchange. etrans; [apply sends_steps, stage3_sends; done|].
    unfold receiver_stage3, recv_int64, recv, pure. cbn [pbind app].
    apply steps_right_recv; [apply length_be_put|]. cbn [pbind].
    rewrite int64_be_roundtrip, Nat2Z.id by lia.
    replace (length sids) with (length (sent_order sids)) by by rewrite sent_order_all.
    destruct st' as [m inter]. eapply (steps_bind_right (B' := list (list Z))) in Hsteps.
    etrans; [exact Hsteps|]. apply rtc_refl.
  - destruct Hp as [_ _ Hnd Hres]. split; [done|]. intros x. rewrite Hres.
    rewrite app_nil_r, elem_of_reverse. by rewrite sent_order_all.
Qed.
End Protocol.

(** ** What fits in the buffer is only written by the deferred flush *)
Lemma write_batch_buffered batch buf :
  Forall triple_ok batch → (length buf + 24 * length batch ≤ buffer_size)%nat →
  write_batch batch (buf, None) = pure (Ok (buf ++ concat (encodings_bytes <$> batch), None)).
Proof.
  intros Hb. revert buf. induction Hb as [|u batch Hu _ IH]; intros buf Hl; cbn [length] in Hl.
  - cbn. by rewrite app_nil_r.
  - pose proof (length_encodings_bytes u Hu) as L. change (8 * Nhash)%nat with 24%nat in L.
    cbn [write_batch]. unfold bufio_Write at 1. rewrite decide_True by lia. cbn [pbind pure snd].
    rewrite IH by (rewrite length_app, L; lia). cbn [fmap list_fmap concat]. by rewrite <-app_assoc.
Qed.

Lemma write_batches_buffered total sent batches buf :
  Forall (λ b, b ≠ [] ∧ Forall triple_ok b) batches →
  (sent + length (concat batches) = total)%nat →
  (length buf + 24 * length (concat batches) ≤ buffer_size)%nat →
  write_batches total sent batches (buf, None) =
    pure (Ok (buf ++ concat (encodings_bytes <$> concat batches), None)).
Proof.
  intros Hb. revert sent buf. induction Hb as [|b batches [Hne Hok] _ IH]; intros sent buf Ht Hl;
    cbn [concat] in Ht, Hl; cbn [write_batches].
  - cbn [length] in Ht. rewrite decide_True by lia. cbn. by rewrite app_nil_r.
  - rewrite length_app in Ht, Hl. destruct b as [|u b]; [done|]. cbn [length] in Ht, Hl.
    rewrite decide_False by lia. rewrite write_batch_buffered by (try done; cbn [length]; lia).
    cbn [pbind pure snd].
    assert (length (concat (encodings_bytes <$> u :: b)) = 24 * length (u :: b))%nat as L.
    { clear - Hok. induction Hok as [|v l Hv _ IH]; [done|]. cbn [fmap list_fmap concat length].
      rewrite length_app, IH, (length_encodings_bytes v Hv). unfold Nhash. lia. }
    rewrite IH; [|cbn [length]; lia|rewrite length_app, L; cbn [length]; lia].
    cbn [concat]. by rewrite fmap_app, concat_app, <-app_assoc.
Qed.

Lemma slices_nonempty {A} (P : A → Prop) (us : list A) ranges :
  Forall P us → Forall (λ r, r.1 < r.2 ∧ r.2 ≤ length us)%nat ranges →
  Forall (λ b, b ≠ [] ∧ Forall P b) ((λ r, slice us r.1 r.2) <$> ranges).
Proof.
  intros Hus Hr. apply Forall_fmap. eapply Forall_impl; [exact Hr|].
  intros [lo hi] [Hlt Hle]. cbn [compose fst snd] in *. split.
  - intros E. apply (f_equal length) in E. rewrite length_slice in E by lia. cbn [length] in E. lia.
  - by apply Forall_take, Forall_drop.
Qed.

(** ** Encodings succeed or panic *)
Section EncodeCases.
Context `{CoresLaws, ByteOpsLaws, CodeOpsLaws, MetroHash, FloatConv}.

(** The codes of one identifier from hash index [h] on: their buckets are rows of
    the key, or one is not and the call panics. *)
Lemma encode_hash_from_cases k hash key y rows bs : ∀ h,
  choices_ok (secret k) → byte_matrix rows 64 (oprfKeys k) → (h + length bs = Nhash)%nat →
  Forall (λ b, 0 ≤ b) bs →
  let r := encode_hash_from k hash ((λ i, PseudorandomCode key y (Z.of_nat i)) <$> seq 0 Nhash)
             (Z.of_nat h) bs in
  if decide (Forall (λ b, b < Z.of_nat rows) bs) then ∃ u, r = Ok u else ∃ s, r = Panic s.
Proof.
  intros h Hs Hk. revert h. induction bs as [|b bs IH]; intros h Hh Hpos r.
  { by eexists. }
  apply Forall_cons in Hpos as [Hb0 Hpos]. cbn [length] in Hh.
  specialize (IH (S h) ltac:(lia) Hpos). cbn zeta in IH. subst r. cbn [encode_hash_from].
  assert (((λ i, PseudorandomCode key y (Z.of_nat i)) <$> seq 0 Nhash) !! h =
    Some (PseudorandomCode key y (Z.of_nat h))) as Hc
    by by rewrite list_lookup_fmap, lookup_seq_lt by lia.
  rewrite (Ok_index_nat _ _ _ Hc). cbn [res_bind].
  replace (Z.of_nat h + 1) with (Z.of_nat (S h)) by lia.
  destruct (decide (b < Z.of_nat rows)) as [Hlt|Hge].
  - assert (∃ e, Encode k b (PseudorandomCode key y (Z.of_nat h)) = Ok e) as [e ->].
    { eexists. rewrite <-(Z2Nat.id b) at 1 by done.
      apply (Encode_rows k rows); [done|done|lia|apply length_PseudorandomCode|apply PseudorandomCode_bytes]. }
    cbn [res_bind].
    destruct (decide (Forall _ bs)) as [Hall|Hno].
    + destruct IH as [u ->]. rewrite decide_True by (by constructor). by eexists.
    + destruct IH as [s ->]. rewrite decide_False by (by intros [_ ?]%Forall_cons). by eexists.
  - rewrite decide_False by (by intros [? _]%Forall_cons). unfold Encode, index.
    rewrite bool_decide_true by done. rewrite lookup_ge_None_2 by (destruct Hk as [-> _]; lia). by eexists.
Qed.

(** A hasher as both parties make it. *)
Definition hasher_ok (ch : CuckooHasher) : Prop := length (hashers ch) = Nhash ∧ 0 < bucketSize ch.

Lemma NewCuckooHasher_ok nr seeds ch :
  seeds_ok seeds → NewCuckooHasher nr seeds = Ok ch → hasher_ok ch.
Proof.
  intros Hs. rewrite NewCuckooHasher_Ok by done. intros [= <-]. split; cbn [hashers bucketSize].
  - rewrite length_fmap. by destruct Hs.
  - pose proof (max_ge 1 (to_uint64 (scale_by_Factor nr))). lia.
Qed.

Lemma encodeAndHash_cases k hash key ch y rows :
  hasher_ok ch → choices_ok (secret k) → byte_matrix rows 64 (oprfKeys k) →
  if decide (Forall (λ b, b < Z.of_nat rows) (BucketIndices ch y))
  then ∃ u, encodeAndHash (input_of key ch y) k hash = Ok u
  else ∃ s, encodeAndHash (input_of key ch y) k hash = Panic s.
Proof.
  intros [Hl Hpos] Hs Hk. unfold encodeAndHash, input_of. cbn [prcEncoded bucketIdx].
  apply (encode_hash_from_cases k hash key y rows (BucketIndices ch y) 0); [done|done| |].
  - by rewrite length_BucketIndices.
  - apply Forall_forall. intros b Hb. by apply (BucketIndices_range ch y b Hpos).
Qed.
End EncodeCases.

(** ** Entries that no identifier filled *)
Lemma index_not_Err {A} (l : list A) i : (∃ a, index l i = Ok a) ∨ ∃ s, index l i = Panic s.
Proof.
  unfold index. case_bool_decide; [|right; by eexists]. destruct (l !! _); [left|right]; by eexists.
Qed.

Section ZeroInput.
Context `{CoresLaws, ByteOpsLaws, MetroHash}.
Context (k : Key) (hash : metro64).
Hypothesis Hsecret : length (secret k) = 64%nat.

(** A nil code has not the length of the secret. *)
Lemma Encode_nil b : ∃ s, Encode k b [] = Panic s.
Proof.
  unfold Encode. destruct (index_not_Err (oprfKeys k) b) as [[row ->]|[s ->]]; cbn [res_bind];
    [|by eexists].
  unfold ConcurrentDoubleBitOp. pose proof GOMAXPROCS_pos. cbn [length].
  destruct (Z.ltb_spec (Z.of_nat 0) (Z.of_nat GOMAXPROCS * 16384)); [|lia].
  rewrite AndXor_mismatch; [by eexists|]. cbn [length]. lia.
Qed.

Lemma encodeAndHash_zero : ∃ s, encodeAndHash zero_input k hash = Panic s.
Proof.
  unfold encodeAndHash, zero_input, Nhash. cbn [prcEncoded bucketIdx replicate encode_hash_from].
  destruct (Encode_nil 0) as [s E]. exists s. change (index _ 0) with (@Ok (list Z) []).
  cbn [res_bind]. by rewrite E.
Qed.
End ZeroInput.

Section FailedBatch.
Context `{Cores, ByteOps, MetroHash}.
Context (k : Key) (hash : metro64).

Lemma encode_inputs_inv inputs us i :
  encode_inputs k hash inputs = Ok us → i ∈ inputs → ∃ u, encodeAndHash i k hash = Ok u.
Proof.
  revert us. induction inputs as [|x inputs IH]; intros us E; cbn [encode_inputs] in E; [set_solver|].
  destruct (encodeAndHash x k hash) as [u| |] eqn:Eu; cbn [res_bind] in E; try discriminate.
  destruct (encode_inputs k hash inputs) as [us'| |]; cbn [res_bind] in E; try discriminate.
  intros [->|Hi]%elem_of_cons; [by exists u|by eapply IH].
Qed.

Lemma encode_batches_inv inputs ranges bs r i :
  encode_batches k hash inputs ranges = Ok bs → r ∈ ranges → (r.1 ≤ r.2 ≤ length inputs)%nat →
  i ∈ slice inputs r.1 r.2 → ∃ u, encodeAndHash i k hash = Ok u.
Proof.
  revert bs. induction ranges as [|[lo hi] ranges IH]; intros bs E; cbn [encode_batches] in E;
    [set_solver|].
  destruct (go_slice inputs lo hi) as [part| |] eqn:Es; cbn [res_bind] in E; try discriminate.
  destruct (encode_inputs k hash part) as [b| |] eqn:Eb; cbn [res_bind] in E; try discriminate.
  destruct (encode_batches k hash inputs ranges) as [bs'| |]; cbn [res_bind] in E; try discriminate.
  intros [->|Hr]%elem_of_cons Hb Hi; [|by eapply IH]. cbn [fst snd] in *.
  rewrite go_slice_Ok in Es by lia. injection Es as <-. by eapply encode_inputs_inv.
Qed.

Lemma encode_inputs_no_err inputs e :
  Forall (λ i, encodeAndHash i k hash ≠ Err e) inputs → encode_inputs k hash inputs ≠ Err e.
Proof.
  induction 1 as [|i inputs Hi _ IH]; cbn [encode_inputs]; [done|].
  destruct (encodeAndHash i k hash); cbn [res_bind]; [|by intros [= ->]|done].
  destruct (encode_inputs k hash inputs); cbn [res_bind]; [done|by intros [= ->]|done].
Qed.

Lemma encode_batches_no_err inputs ranges e :
  Forall (λ i, encodeAndHash i k hash ≠ Err e) inputs →
  Forall (λ r, r.1 < r.2 ∧ r.2 ≤ length inputs)%nat ranges →
  encode_batches k hash inputs ranges ≠ Err e.
Proof.
  intros Hi. induction 1 as [|[lo hi] ranges [Hlt Hle] _ IH]; cbn [encode_batches fst snd] in *; [done|].
  rewrite go_slice_Ok by lia. cbn [res_bind].
  pose proof (encode_inputs_no_err (slice inputs lo hi) e) as He.
  destruct (encode_inputs k hash (slice inputs lo hi)); cbn [res_bind];
    [|intros [= ->]; by apply He; [apply Forall_take, Forall_drop|]|done].
  destruct (encode_batches k hash inputs ranges); cbn [res_bind]; [done|by intros [= ->]|done].
Qed.

(** One input that cannot be encoded crashes a worker. *)
Lemma encode_batches_panics inputs ranges nw i :
  (1 ≤ nw)%nat → ranges ≡ₚ batch_ranges nw (length inputs) →
  Forall (λ x, ∀ e, encodeAndHash x k hash ≠ Err e) inputs →
  i ∈ inputs → (∀ u, encodeAndHash i k hash ≠ Ok u) →
  ∃ s, encode_batches k hash inputs ranges = Panic s.
Proof.
  intros Hnw Hp Herr Hi Hno. destruct (batch_ranges_partition inputs nw Hnw) as [Ec Hr].
  destruct (encode_batches k hash inputs ranges) as [bs|e|s] eqn:E; [exfalso..|by exists s].
  - rewrite <-Ec in Hi. apply list_elem_of_In, in_concat in Hi as (b & Hb & Hi).
    apply list_elem_of_In, list_elem_of_fmap in Hb as (r & -> & Hin). apply list_elem_of_In in Hi.
    rewrite Forall_forall in Hr. destruct (Hr r Hin).
    destruct (encode_batches_inv inputs ranges bs r i E) as [u Hu]; [by rewrite Hp|lia|done|].
    by apply (Hno u).
  - apply (encode_batches_no_err inputs ranges e); [|by rewrite Hp|exact E].
    eapply Forall_impl; [exact Herr|]. intros x Hx. apply Hx.
Qed.
End FailedBatch.

(** Filling the inputs succeeds exactly when they are enough for the identifiers,
    and leaves the entries after the last identifier. *)
Lemma fill_inputs_total `{CodeOps, MetroHash} key ch ids : ∀ inputs i, (i ≤ length inputs)%nat →
  if decide (length ids ≤ length inputs - i)%nat
  then ∃ inputs', fill_inputs key ch (Z.of_nat i) ids inputs = Ok inputs' ∧
    length inputs' = length inputs ∧ drop (i + length ids) inputs' = drop (i + length ids) inputs
  else ∃ s, fill_inputs key ch (Z.of_nat i) ids inputs = Panic s.
Proof.
  induction ids as [|id ids IH]; intros inputs i Hi; cbn [fill_inputs length].
  - rewrite decide_True by lia. by exists inputs.
  - destruct (decide (i < length inputs)%nat) as [Hlt|Hge].
    + rewrite store_Ok, Nat2Z.id by lia. cbn [res_bind].
      replace (Z.of_nat i + 1) with (Z.of_nat (S i)) by lia.
      specialize (IH (<[i := input_of key ch id]> inputs) (S i)). rewrite length_insert in IH.
      specialize (IH ltac:(lia)). case_decide as Ha; case_decide as Hb; try lia; [|done].
      destruct IH as (inputs' & E & Hl & Hd). exists inputs'. split; [done|]. split; [done|].
      replace (i + S (length ids))%nat with (S i + length ids)%nat by lia. rewrite Hd.
      by rewrite drop_insert_lt by lia.
    + rewrite decide_False by lia. unfold store. rewrite bool_decide_false by lia. by eexists.
Qed.

(** * Properties *)

(** No two different identifiers, one of them the receiver's, get the same hash
    from the same hash function under the key [k]. *)
Definition collision_free `{Cores, ByteOps, CodeOps, MetroHash} (k : Key) (ch : CuckooHasher)
    (hash0 : metro64) (aesBlock : list Z) (sids rids : list (list Z)) : Prop :=
  ∀ y x h, y ∈ sids ++ rids → x ∈ rids → (h < Nhash)%nat →
    id_hash k ch hash0 aesBlock y h = id_hash k ch hash0 aesBlock x h → y = x.

(** C1: the KKRT exchange.  For a receiver announcing [nr] and feeding at most
    [nr] non-empty identifiers, a sender feeding exactly the [ns] identifiers it
    announced, base OTs that keep their contract, when no insertion in the cuckoo
    table failed and the hashes under the run's key do not collide: every run of the
    two parties, whatever the order of their steps, of the workers and of the
    batches, is finite and ends with both returning no error, nothing left in
    transit, and as intersection a list without repetition of exactly the
    identifiers both parties fed. *)
Theorem kkrt_intersection
    `{Blake3Laws, CoresLaws, ByteOpsLaws, CodeOpsLaws, MetroHashLaws, FloatConv}
    (rnd rndS rndR picks : nat → nat → Z) (rb : list Z) (oprfS oprfR : Z → OPRF)
    (nr ns : Z) (rids sids : list (list Z)) :
  0 ≤ nr ≤ 2 ^ 49 → Z.of_nat (length rids) ≤ nr → Forall (λ id, id ≠ []) rids →
  ns = Z.of_nat (length sids) → ns < 2 ^ 63 →
  (∀ i j, 0 ≤ picks i j < Z.of_nat Nhash) →
  (∀ n, m (oprfS n) = n ∧ m (oprfR n) = n ∧ OTLaws (baseOT (oprfS n)) (baseOT (oprfR n)) baseMsgLens) →
  (∀ c0 e c, NewCuckoo (Some rb) nr (kkrt_seeds rnd) = Ok c0 → insert_all picks 0 c0 rids = Ok (e, c) →
     e = None ∧ ∀ k maps hash0, GetHasher (hasher c) = Ok hash0 →
       exchange (oprf_Send (oprfS (Len c)) (λ i, Some (rndS i)))
         (oprf_Receive (oprfR (Len c)) (λ i, Some (rndR i)) c (kkrt_key rnd)) k maps →
       collision_free k (hasher c) hash0 (kkrt_key rnd) sids rids) →
  ∃ inter,
    inevitable (kkrt_Send oprfS (λ i, Some (rnd i)) (λ i, Some (rndS i)) ns sids)
      (kkrt_Intersect oprfR (Some rb) picks (λ i, Some (rndR i)) nr rids) () inter ∧
    intersection_of sids rids inter.
Proof.
  intros Hnr Hlen Hne -> Hns Hpick Hoprf Hrun.
  destruct (NewCuckoo_valid rb nr (kkrt_seeds rnd)) as (c0 & Hc0 & Hv0 & Hi0 & Hh0);
    [lia|apply kkrt_seeds_ok|].
  destruct (insert_all_spec nr picks 0 c0 rids Hpick Hv0 ltac:(lia) Hne) as (e & c & Hins & Hhas & Hr).
  destruct (Hrun c0 e c Hc0 Hins) as [-> Hcf]. destruct (Hr eq_refl) as (Hv & _ & Hholds).
  rewrite <-Hhas in Hh0.
  assert (∀ y, holds c (upto (inserted c)) y ↔ y ∈ rids) as Hrids.
  { intros y. rewrite Hholds, Hi0. split; [|by left]. intros [|(i & Hi & _)]; [done|].
    apply elem_of_upto in Hi. lia. }
  destruct (index_total (hashers (hasher c)) 0) as [hash0 Hhash].
  { rewrite (shape_hashers _ _ (valid_shape _ _ Hv)). done. }
  destruct (Hoprf (Len c)) as (HmS & HmR & OTok).
  assert (1 ≤ Len c < 2 ^ 62) as Hlenb by by eapply Len_bounds.
  destruct (oprf_exchange nr c Hv (kkrt_key rnd) ltac:(apply Hlenb) (oprfS (Len c)) (oprfR (Len c)) OTok
    HmS HmR (λ i, Some (rndS i)) (λ i, Some (rndR i)) (rndS 0%nat) eq_refl ltac:(by eexists)
    (kkrt_key_ok rnd) hash0 Hhash) as (k & t & maps & He & Ho & _).
  edestruct (stage3_exchange rnd) as (inter & Hstage3 & Hinter);
    [done..|exact Hns|exact Hrids|exact (Hcf k maps hash0 Hhash He)|].
  exists inter. split; [|done]. apply exchange_inevitable.
  unfold exchange, kkrt_Send, kkrt_Intersect.
  eapply exchange_bind; [by eapply stage1_exchange|].
  eapply exchange_bind; [exact He|].
  erewrite stage1_thread_Ok; [exact Hstage3|by unfold wrap; rewrite Z.mod_small by lia|done..].
Qed.

(** *** A concrete run: the receiver holds [[5]], the sender [[6]; [5]; [5]]; the
    table has one bucket, the metro hash keeps the first seven bytes. *)
Definition toy_metro : MetroHash := λ p s, (le_get (take 7 p) + s) mod 2 ^ 64.
#[export] Instance toy_metro_laws : @MetroHashLaws toy_metro.
Proof. intros p s. unfold metro_Hash64, toy_metro. apply Z.mod_pos_bound. lia. Qed.

Definition toy_rnd : nat → nat → Z := λ _ _, 0.
Definition toy_rndS : nat → nat → Z := λ i j, 255 - Z.of_nat i - 3 * Z.of_nat j.
Definition toy_picks : nat → nat → Z := λ _ _, 0.
Definition toy_c0 : Cuckoo :=
  match @NewCuckoo generic_ops amd64_float (Some []) 1 (kkrt_seeds toy_rnd) with Ok c => c | _ => small_table end.
Definition toy_c : Cuckoo :=
  match @insert_all toy_metro toy_picks 0 toy_c0 [[5]] with Ok (_, c) => c | _ => small_table end.

(** The hashes of [[6]] and [[5]] differ under the drawn choice bytes. *)
Definition masked (y : list Z) (h : nat) : list Z :=
  take 7 (zip_with Z.land (@PseudorandomCode toy_code (kkrt_key toy_rnd) y (Z.of_nat h))
            (random_bytes (toy_rndS 0) 64)).

Lemma masked_differ h : (h < Nhash)%nat → masked [6] h ≠ masked [5] h.
Proof. intros Hh. do 3 (destruct h as [|h]; [vm_compute; congruence|]). unfold Nhash in Hh. lia. Qed.

Lemma le_get_inj a b : bytes_ok a → bytes_ok b → length a = length b → le_get a = le_get b → a = b.
Proof. intros Ha Hb Hl E. rewrite <-(le_put_get a), <-(le_put_get b), Hl, E by done. done. Qed.

Lemma zip_lxor_inj (a b q : list Z) :
  length a = length q → length b = length q → zip_with Z.lxor a q = zip_with Z.lxor b q → a = b.
Proof.
  revert b q. induction a as [|x a IH]; intros [|y b] [|z q] La Lb E; simplify_eq/=; [done|].
  f_equal; [|by eapply IH].
  by rewrite <-(Z.lxor_0_r x), <-(Z.lxor_nilpotent z), <-Z.lxor_assoc, H, Z.lxor_assoc,
    Z.lxor_nilpotent, Z.lxor_0_r.
Qed.

Lemma toy_run :
  @NewCuckoo generic_ops amd64_float (Some []) 1 (kkrt_seeds toy_rnd) = Ok toy_c0 ∧
  @insert_all toy_metro toy_picks 0 toy_c0 [[5]] = Ok (None, toy_c) ∧
  hasher toy_c = {| bucketSize := 1; hashers := replicate 3 {| seed := 0 |} |} ∧
  @valid toy_metro 1 toy_c.
Proof.
  destruct (@NewCuckoo_valid generic_ops generic_ops_laws toy_metro amd64_float [] 1 (kkrt_seeds toy_rnd))
    as (c0 & E0 & Hv0 & Hi0 & _); [lia|apply kkrt_seeds_ok|].
  assert (c0 = toy_c0) as -> by (unfold toy_c0; by rewrite E0).
  split; [done|]. assert (@insert_all toy_metro toy_picks 0 toy_c0 [[5]] = Ok (None, toy_c)) as E
    by (by vm_compute).
  split; [done|]. split; [by vm_compute|].
  destruct (@insert_all_spec toy_metro 1 toy_picks 0 toy_c0 [[5]]) as (e & c & E' & _ & Hr).
  - intros i j. unfold toy_picks, Nhash. lia.
  - done.
  - by vm_compute.
  - by repeat constructor.
  - rewrite E in E'. apply Ok_pair_inj in E' as [He <-]. apply Hr. by rewrite <-He.
Qed.

Lemma toy_hash k t maps y h :
  @oprf_outcome toy_code toy_metro toy_c (kkrt_key toy_rnd) {| seed := 0 |} k t maps →
  secret k = random_bytes (toy_rndS 0) 64 → (h < Nhash)%nat →
  @id_hash Toy.one_core generic_ops toy_code toy_metro k (hasher toy_c) {| seed := 0 |}
    (kkrt_key toy_rnd) y h = le_get (zip_with Z.lxor (masked y h) (take 7 (oprfKeys k !!! 0%nat))) ∧
  bytes_ok (zip_with Z.lxor (masked y h) (take 7 (oprfKeys k !!! 0%nat))) ∧
  length (masked y h) = 7%nat ∧ length (oprfKeys k !!! 0%nat) = 64%nat.
Proof.
  intros Ho Hs Hh. pose proof toy_run as (_ & _ & Eh & Hv).
  pose proof (@generic_code_laws Toy.toy_aes Toy.toy_aes_laws Toy.toy_murmur3) as HL.
  assert (@BucketIndices toy_metro (hasher toy_c) y = [0; 0; 0]) as EB.
  { rewrite Eh. unfold BucketIndices. cbn [hashers bucketSize replicate fmap list_fmap].
    by rewrite !Z.mod_1_r. }
  assert ((0 < Z.to_nat (bucketSize (hasher toy_c)))%nat) as Hb0 by (rewrite Eh; by vm_compute).
  set (code := @PseudorandomCode toy_code (kkrt_key toy_rnd) y (Z.of_nat h)).
  assert (length code = 64%nat ∧ bytes_ok code) as [Lc Bc].
  { split; [apply HL|apply HL]. }
  destruct (byte_matrix_row _ _ _ 0%nat (outcome_keys _ _ _ _ _ _ Ho) Hb0) as (_ & Lq & Bq).
  destruct (outcome_secret _ _ _ _ _ _ Ho) as [Ls Bs].
  assert (@Encode Toy.one_core generic_ops k 0 code =
    Ok (zip_with Z.lxor (zip_with Z.land code (secret k)) (oprfKeys k !!! 0%nat))) as EE.
  { by apply (@Encode_Ok Toy.one_core Toy.one_core_laws generic_ops generic_ops_laws toy_code toy_metro
      toy_c (kkrt_key toy_rnd) {| seed := 0 |} k t maps 0 code). }
  assert (length (zip_with Z.land code (secret k)) = 64%nat) as La by (rewrite length_zip_with; lia).
  assert (bytes_ok (zip_with Z.lxor (masked y h) (take 7 (oprfKeys k !!! 0%nat)))) as HB.
  { apply xor_bytes_ok; [apply Forall_take, and_bytes_ok; [done|by rewrite <-Hs]|by apply Forall_take]. }
  assert (length (masked y h) = 7%nat) as Lm.
  { unfold masked. fold code. rewrite <-Hs, length_take, La. done. }
  split; [|exact (conj HB (conj Lm Lq))]. unfold id_hash. rewrite EB.
  assert (index [0; 0; 0] (Z.of_nat h) = Ok 0) as -> by (do 3 (destruct h as [|h]; [done|]); unfold Nhash in Hh; lia).
  cbn [res_bind]. fold code. rewrite EE. unfold Hash64, metro64_hasher, metro64_Hash64, metro_Hash64, toy_metro.
  cbn [seed]. rewrite Z.add_0_r, zip_with_take. unfold masked in *. fold code. fold code in HB.
  rewrite <-Hs in *. apply Z.mod_small. pose proof (le_get_range _ HB) as Hr.
  rewrite length_zip_with, !length_take, La, Lq in Hr. split; [lia|].
  eapply Z.lt_trans; [apply Hr|]. by vm_compute.
Qed.

Lemma kkrt_intersection_witness :
  ∃ inter, inevitable
    (@kkrt_Send Toy.toy_blake3 Toy.one_core generic_ops toy_code toy_metro amd64_float (toy_oprf 5)
       (λ i, Some (toy_rnd i)) (λ i, Some (toy_rndS i)) 3 [[6]; [5]; [5]])
    (@kkrt_Intersect Toy.toy_blake3 Toy.one_core generic_ops toy_code toy_metro amd64_float (toy_oprf 3)
       (Some []) toy_picks (λ i, Some (toy_rnd i)) 1 [[5]]) () inter ∧
    [5] ∈ inter ∧ [6] ∉ inter.
Proof.
  pose proof (@generic_code_laws Toy.toy_aes Toy.toy_aes_laws Toy.toy_murmur3) as HL.
  destruct toy_run as (E0 & Eins & Eh & Hv).
  destruct (@kkrt_intersection Toy.toy_blake3 Toy.toy_blake3_laws Toy.one_core Toy.one_core_laws
    generic_ops generic_ops_laws toy_code HL toy_metro toy_metro_laws amd64_float
    toy_rnd toy_rndS toy_rnd toy_picks [] (toy_oprf 5) (toy_oprf 3) 1 3 [[5]] [[6]; [5]; [5]])
    as (inter & Hinev & _ & Hin).
  - lia.
  - done.
  - by repeat constructor.
  - done.
  - lia.
  - intros i j. unfold toy_picks, Nhash. lia.
  - intros n. split; [done|]. split; [done|]. apply toy_base_OT.
  - intros c0 e c E E'. rewrite E0 in E. injection E as <-. rewrite Eins in E'.
    apply Ok_pair_inj in E' as [<- <-]. split; [done|]. intros k maps hash0 Hh He.
    assert (hash0 = {| seed := 0 |}) as -> by (rewrite Eh in Hh; by injection Hh).
    destruct (@oprf_exchange Toy.toy_blake3 Toy.toy_blake3_laws Toy.one_core Toy.one_core_laws
      generic_ops generic_ops_laws toy_code HL toy_metro 1 toy_c Hv (kkrt_key toy_rnd)
      ltac:(rewrite Eh; by vm_compute) (toy_oprf 5 (Len toy_c)) (toy_oprf 3 (Len toy_c))
      (toy_base_OT _ _) eq_refl eq_refl (λ i, Some (toy_rndS i)) (λ i, Some (toy_rnd i))
      (toy_rndS 0) eq_refl ltac:(by eexists) (kkrt_key_ok toy_rnd) {| seed := 0 |} Hh)
      as (k' & t & maps' & He' & Ho & Hs).
    destruct (exchange_unique _ _ _ _ _ _ He' He) as [-> ->].
    intros y x h Hy Hx Hh3 Eq. apply list_elem_of_singleton in Hx as ->.
    destruct (decide (y = [5])) as [|Hne]; [done|]. assert (y = [6]) as -> by (clear - Hy Hne; set_solver).
    destruct (toy_hash k' t maps' [6] h Ho Hs Hh3) as (E6 & B6 & L6 & Lq).
    destruct (toy_hash k' t maps' [5] h Ho Hs Hh3) as (E5 & B5 & L5 & _).
    rewrite E6, E5 in Eq. apply le_get_inj in Eq; [|done|done|rewrite !length_zip_with; lia].
    apply zip_lxor_inj in Eq;
      [|by rewrite L6, length_take, Lq|by rewrite L5, length_take, Lq].
    destruct (masked_differ h Hh3 Eq).
  - exists inter. split; [exact Hinev|]. clear - Hin. split; [apply Hin; set_solver|].
    rewrite Hin. set_solver.
Defined.

(** C20: the division of stage 3's work.  For any number of cores and any order in
    which the workers' batches arrive, the writer neither meets a closed channel nor
    waits for ever: it sends the encodings of every input exactly once, in the order
    of the batches, whatever part of them went through the buffer. *)
Theorem writer_sends_every_input {A} (nw : nat) (us : list (list Z)) ranges (i j : list Z) (q : proc A) :
  (1 ≤ nw)%nat → ranges ≡ₚ batch_ranges nw (length us) →
  ∃ vs, vs ≡ₚ us ∧
    rtc step (Conf (writer (length us) ((λ r, slice us r.1 r.2) <$> ranges)) i q j)
      (Conf (Done (Ok ())) i q (j ++ concat (encodings_bytes <$> vs))).
Proof.
  intros Hnw Hp. set (batches := (λ r, slice us r.1 r.2) <$> ranges).
  destruct (batch_ranges_partition us nw Hnw) as [Ec Hr].
  assert (concat batches ≡ₚ us) as Hperm by (subst batches; by rewrite Hp, Ec).
  exists (concat batches). split; [done|]. rewrite <-Hperm at 1.
  apply sends_steps, sends_writer. subst batches. rewrite Hp.
  eapply Forall_impl; [apply (slices_nonempty (λ _, True)); [by apply Forall_true|exact Hr]|].
  by intros b [Hb _].
Qed.

Lemma writer_sends_every_input_witness :
  ∃ vs, vs ≡ₚ [[1; 2; 3]; [4; 5; 6]] ∧
    rtc step (Conf (writer 2 [[[1; 2; 3]; [4; 5; 6]]]) [] (@Done unit (Ok ())) [])
      (Conf (Done (Ok ())) [] (Done (Ok ())) (concat (encodings_bytes <$> vs))).
Proof.
  destruct (writer_sends_every_input 4 [[1; 2; 3]; [4; 5; 6]] (batch_ranges 4 2) [] []
    (@Done unit (Ok ())) ltac:(lia) (reflexivity _)) as (vs & Hvs & Hs).
  exists vs. split; [exact Hvs|exact Hs].
Defined.

(** The error of the deferred [Flush] of stage 3 is dropped.  When the
    encodings fit the 64k buffer and the connection fails at the flush, after the
    count was written, the stage reports success although not one encoding was
    sent. *)
Theorem stage3_flush_error_lost `{CoresLaws, ByteOps, MetroHash} k hash inputs us ns r w e :
  Forall2 (λ i u, encodeAndHash i k hash = Ok u) inputs us → Forall triple_ok us →
  inputs ≠ [] → (24 * length inputs ≤ buffer_size)%nat →
  faults w (calls w) = None → faults w (S (calls w)) = Some (e, 0%nat) →
  ∃ w', run (sender_stage3 ns k (Ok (inputs, hash))) r w = (Ok (), r, w') ∧
    written w' = written w ++ be_put 8 ns.
Proof.
  intros Hus Htri Hne Hlen Hf0 Hf1. pose proof (Forall2_length _ _ _ Hus) as Hl.
  destruct (batch_ranges_partition us GOMAXPROCS GOMAXPROCS_pos) as [Ec Hr].
  set (ranges := interleave 2 (batch_ranges GOMAXPROCS (length inputs))).
  assert (ranges ≡ₚ batch_ranges GOMAXPROCS (length us)) as Hp.
  { subst ranges. by rewrite interleave_all, Hl. }
  set (batches := (λ r, slice us r.1 r.2) <$> ranges).
  assert (concat batches ≡ₚ us) as Hperm by (subst batches; by rewrite Hp, Ec).
  unfold sender_stage3, send_int64, send. cbn [pbind run]. rewrite (Write_ok w) by done.
  cbn [pbind pure]. fold ranges. rewrite (encode_batches_Ok k hash inputs us).
  2: { done. } 2: { rewrite Hp, Hl. exact Hr. }
  cbn [pbind]. fold batches. unfold writer.
  rewrite write_batches_buffered; [| |by rewrite Hperm|rewrite Hperm; cbn [length]; lia].
  2: { subst batches. rewrite Hp. by apply slices_nonempty. }
  cbn [pbind pure app].
  destruct (concat (encodings_bytes <$> concat batches)) as [|x buf] eqn:Eb.
  - exfalso. destruct us as [|u us]; [destruct inputs; done|].
    assert (u ∈ concat batches) as Hu by (rewrite Hperm; by left).
    assert (triple_ok u) as Hu3 by (rewrite Forall_forall in Htri; apply Htri; by left).
    apply list_elem_of_split in Hu as (l1 & l2 & El). rewrite El in Eb.
    rewrite fmap_app, concat_app in Eb. apply app_eq_nil in Eb as [_ Eb].
    cbn [fmap list_fmap concat] in Eb. apply app_eq_nil in Eb as [Eb _].
    pose proof (length_encodings_bytes u Hu3) as L. by rewrite Eb in L.
  - cbn [bufio_Flush pbind]. unfold try_send. cbn [pbind run].
    unfold Write at 1. cbn [faults calls]. rewrite Hf1. cbn [pbind run snd pure].
    eexists. split; [done|]. cbn [written take]. by rewrite app_nil_r.
Qed.

(** One input, a connection that fails at its second call. *)
Definition toy_key : Key := {| secret := replicate 64 3; oprfKeys := [replicate 64 5] |}.
Definition toy_input : inputToOprfEncode :=
  {| prcEncoded := [replicate 64 7; replicate 64 8; replicate 64 9]; bucketIdx := [0; 0; 0] |}.
Definition toy_hashes : list Z :=
  match @encodeAndHash Toy.one_core generic_ops toy_metro toy_input toy_key {| seed := 0 |} with
  | Ok u => u | _ => [] end.
Definition toy_sink : sink :=
  {| written := []; calls := 0; faults := λ n, if decide (n = 1)%nat then Some (ErrMsg "broken pipe", 0%nat) else None |}.

Lemma stage3_flush_error_lost_witness :
  ∃ w', @run unit (@sender_stage3 Toy.one_core generic_ops toy_metro 1 toy_key
      (Ok ([toy_input], {| seed := 0 |}))) {| chunks := []; final := EOF |} toy_sink
    = (Ok (), {| chunks := []; final := EOF |}, w') ∧ written w' = be_put 8 1.
Proof.
  apply (@stage3_flush_error_lost Toy.one_core Toy.one_core_laws generic_ops toy_metro toy_key
    {| seed := 0 |} [toy_input] [toy_hashes] 1 {| chunks := []; final := EOF |} toy_sink
    (ErrMsg "broken pipe")).
  - constructor; [by vm_compute|constructor].
  - constructor; [|constructor]. split; [by vm_compute|]. apply (bool_decide_unpack _). by vm_compute.
  - done.
  - cbn [length]. unfold buffer_size. lia.
  - done.
  - done.
Defined.


