(* ===== verification/KkrtHostile.v ===== *)
(** * pkg/kkrtpsi against a peer that does not follow the protocol

    [internal/ot], [internal/oprf] and both parties of [pkg/kkrtpsi] under the
    judgement of [Wp].  What the receiver announces is trusted by the sender, and
    that is where it can be crashed. *)
From S2P Require Import Prelude Words Bits BitVect BitMatrix Hash Cuckoo IO Proc Bufio Crypto OT Oprf.
From S2P Require Import Kkrt Wp.

(** ** internal/ot *)

(** What [elliptic] documents beside the group laws: [MarshalCompressed] returns
    bytes, [UnmarshalCompressed] accepts points of the curve only. *)
Class CurveEncoding `{Curve} : Prop := {
  Marshal_bytes p : on_curve p → bytes_ok (Marshal p);
  Unmarshal_on_curve bs p : Unmarshal bs = Ok p → on_curve p
}.

(** The messages of a transfer, of the lengths [lens]. *)
Definition messages_ok (lens : list nat) (got : list (list Z)) : Prop :=
  Forall2 (λ g l, length g = l ∧ bytes_ok g) got lens.

(** What a client may expect of an [OT] whose peer is hostile. *)
Class OTSafe (o : OT) (lens : list nat) : Prop := {
  ot_Send_safe (ms : list OTMessage) :
    messages_ok lens ms.*1 → messages_ok lens ms.*2 → wp (@ot_Send o ms) (λ _, True);
  ot_Receive_safe choices messages :
    bytes_ok choices → (8 * length choices = length lens)%nat → length messages = length lens →
    wp (@ot_Receive o choices messages) (messages_ok lens)
}.

Section NaorPinkas.
Context `{CurveLaws, !CurveEncoding, Blake3Laws, CoresLaws, ByteOpsLaws}.

Lemma wp_GenerateKey {B} s d (f : list Z * Point → proc B) Q :
  (∀ k p, on_curve p → wp (f (k, p)) Q) → wp (pbind (wrap_err s (pure (GenerateKey d))) f) Q.
Proof.
  intros HQ. apply wp_bind, wp_wrap_err, wp_pure. destruct d as [k|]; [|done].
  rewrite GenerateKey_Ok. apply HQ. auto with proc.
Qed.

Lemma wp_writePoint {B} s p (f : () → proc B) Q :
  on_curve p → wp (f ()) Q → wp (pbind (wrap_err s (writePoint p)) f) Q.
Proof. intros Hp HQ. apply wp_bind, wp_wrap_err, wp_send; [by apply Marshal_bytes|done]. Qed.

Lemma wp_readPoint {B} s (f : Point → proc B) Q :
  (∀ p, on_curve p → wp (f p) Q) → wp (pbind (wrap_err s readPoint) f) Q.
Proof.
  intros HQ. apply wp_bind, wp_wrap_err, wp_bind, wp_recv. intros bs _ _. apply wp_pure.
  destruct (Unmarshal bs) as [p|e|m] eqn:E; cbn [no_panic]; [by eapply HQ, Unmarshal_on_curve|done|].
  unfold Unmarshal in E. by destruct (UnmarshalCompressed bs).
Qed.

Lemma wp_XorCipher {B} k key ind src (f : list Z → proc B) Q :
  bytes_ok src → (∀ c, length c = length src → bytes_ok c → wp (f c) Q) →
  wp (pbind (pure (XorCipherWithBlake3 k key ind src)) f) Q.
Proof.
  intros Hb HQ. rewrite XorCipher_spec by done. apply HQ.
  - rewrite length_xor_bytes; apply length_blake3_xof.
  - apply xor_bytes_ok; [apply blake3_xof_bytes|done].
Qed.

Lemma wp_send_pair lens secretR pointA (ms : list OTMessage) i :
  messages_ok lens ms.*1 → messages_ok lens ms.*2 → (i < length ms)%nat →
  wp (send_pair secretR pointA ms i ()) (λ _, True).
Proof.
  intros Hf1 Hf2 Hi. destruct (lookup_lt_is_Some_2 ms i Hi) as [p Hp].
  destruct (Forall2_lookup_l _ _ _ i p.1 Hf1) as (l1 & _ & _ & B1);
    [by apply list_lookup_fmap_Some; exists p|].
  destruct (Forall2_lookup_l _ _ _ i p.2 Hf2) as (l2 & _ & _ & B2);
    [by apply list_lookup_fmap_Some; exists p|].
  unfold send_pair. apply wp_readPoint. intros k _. cbn beta zeta. rewrite (Ok_index_nat _ _ _ Hp). cbn [pure pbind].
  apply wp_XorCipher; [done|]. intros c _ Hc. apply wp_bind, wp_wrap_err, wp_send; [done|].
  apply wp_XorCipher; [done|]. intros c' _ Hc'. by apply wp_wrap_err, wp_send.
Qed.

Lemma wp_receive_pair n draw choices A R i messages l :
  bytes_ok choices → (i < 8 * length choices)%nat → msgLens n !! i = Some l →
  (i < length messages)%nat → on_curve A → on_curve R →
  wp (receive_pair n draw choices A R i messages)
    (λ got, ∃ g, length g = l ∧ bytes_ok g ∧ got = <[i := g]> messages).
Proof.
  intros Hb Hi Hl Hm HA HR. unfold receive_pair. apply wp_GenerateKey. intros s B HB.
  rewrite IsBitSet_Ok, BitExtract_Ok by (done || lia). rewrite (Ok_index_nat _ _ _ Hl).
  set (c := Z.testbit _ _). cbn [pure pbind].
  replace (if negb c then _ else _) with (wrap_err err_write (writePoint (if c then Sub A B else B)))
    by by destruct c.
  apply wp_writePoint; [destruct c; auto with proc|].
  apply wp_bind, wp_wrap_err, wp_recv. intros e0 L0 B0.
  apply wp_bind, wp_wrap_err, wp_recv. intros e1 L1 B1.
  cbn [pure pbind]. apply wp_XorCipher; [by destruct c|]. intros g Lg Bg. apply wp_pure.
  rewrite store_Ok, Nat2Z.id by lia. exists g. split_and!; [rewrite Lg; by destruct c|done|done].
Qed.

#[export] Instance naor_OT_safe n draw : OTSafe (naor_OT n draw) (msgLens n).
Proof.
  split.
  - intros ms Hf1 Hf2. cbn [ot_Send naor_OT]. unfold naor_Send.
    assert (length ms = length (msgLens n)) as Hl
      by (rewrite <-(Forall2_length _ _ _ Hf1); symmetry; apply length_fmap).
    rewrite decide_False by lia. apply wp_GenerateKey. intros sa A HA. apply wp_GenerateKey. intros sr R HR.
    apply wp_writePoint; [done|]. apply wp_writePoint; [done|].
    apply (wp_loop (λ _ _, True)); [done| |done]. intros i [] Hi _. by eapply wp_send_pair.
  - intros choices messages Hb Hc Hm. cbn [ot_Receive naor_OT]. unfold naor_Receive.
    rewrite decide_False by lia. apply wp_readPoint. intros A HA. apply wp_readPoint. intros R HR.
    apply (wp_loop (λ i got, length got = length (msgLens n) ∧
      ∀ j g l, (j < i)%nat → got !! j = Some g → msgLens n !! j = Some l → length g = l ∧ bytes_ok g)).
    + split; [done|]. intros j g l Hj. lia.
    + intros i got Hi [Hlg Hg]. destruct (lookup_lt_is_Some_2 (msgLens n) i) as [l Hl]; [lia|].
      eapply wp_mono; [apply (wp_receive_pair _ _ _ _ _ _ _ l); try done; lia|].
      intros got' (g & Lg & Bg & ->). rewrite length_insert. split; [done|]. intros j g' l' Hj Hg' Hl'.
      destruct (decide (j = i)) as [->|].
      * rewrite list_lookup_insert_eq in Hg' by lia. by simplify_eq.
      * rewrite list_lookup_insert_ne in Hg' by done. apply (Hg j); [lia|done..].
    + intros got [Hl Hg]. apply Forall2_same_length_lookup. split; [done|]. intros j g l Hj Hl'.
      apply (Hg j); [|done..]. apply lookup_lt_Some in Hj. lia.
Qed.
End NaorPinkas.

(** ** internal/oprf *)
Section Oprf.
Context `{Blake3Laws, CoresLaws, ByteOpsLaws, CodeOpsLaws, MetroHash, FloatConv}.
Context (ext : OPRF) (Hsafe : OTSafe (baseOT ext) baseMsgLens).
Context (draw : nat → option (nat → Z)).

Lemma sample_no_panic : no_panic pairs_ok (sampleRandomOTMessages draw).
Proof.
  unfold sampleRandomOTMessages. apply (for_res_no_panic (λ i ms, length ms = i ∧ Forall msg_ok ms)).
  { by split. }
  intros i ms Hi [Hl Hf].
  eapply no_panic_bind; [apply rand_Read_no_panic|]. intros m0 [L0 B0].
  eapply no_panic_bind; [apply rand_Read_no_panic|]. intros m1 [L1 B1].
  split; [rewrite length_app; cbn; lia|]. apply Forall_app.
  split; [done|]. by apply Forall_singleton; repeat split.
Qed.

Lemma pairs_messages (ms : list OTMessage) :
  pairs_ok ms → messages_ok baseMsgLens ms.*1 ∧ messages_ok baseMsgLens ms.*2.
Proof.
  intros [Hl Hf]. rewrite Forall_lookup in Hf.
  split; apply Forall2_same_length_lookup; (split; [etrans; [apply length_fmap|exact Hl]|]);
    intros i g l (p & -> & Hp)%list_lookup_fmap_Some [-> _]%lookup_replicate;
    destruct (Hf i p Hp) as (? & ? & ? & ?); done.
Qed.

(** The padded number of rows of a table with [M] buckets. *)
Lemma padded M :
  1 ≤ M → let n := Z.to_nat ((M + 511) / 512) in
  (1 ≤ n)%nat ∧ M ≤ 512 * Z.of_nat n ∧ (M < 2 ^ 62 → PadBitMap M 512 = Ok (Z.of_nat (64 * n))).
Proof.
  intros HM n. unfold n. split_and!; [dlia|dlia|]. intros Hlt. unfold PadBitMap.
  rewrite Pad_ceil by lia. cbn [res_bind]. f_equal. rewrite Z.quot_div_nonneg by lia. dlia.
Qed.

(** The sender gets [m ext] rows of bytes, whatever masks it is sent. *)
Lemma wp_oprf_Send :
  1 ≤ m ext < 2 ^ 62 →
  wp (oprf_Send ext draw)
    (λ k, choices_ok (secret k) ∧ byte_matrix (Z.to_nat (m ext)) 64 (oprfKeys k)).
Proof.
  intros HM. destruct (padded (m ext)) as (Hn & Hle & Hpad); [lia|].
  set (n := Z.to_nat ((m ext + 511) / 512)) in *. unfold oprf_Send.
  apply wp_rand_Read. intros choices Lc Bc.
  apply wp_bind. eapply wp_mono.
  { apply (ot_Receive_safe (lens := baseMsgLens)); [done|by rewrite Lc|done]. }
  intros seeds Hseeds. change (Z.of_nat baseOTCount) with 512. rewrite Hpad by lia. cbn [pure pbind].
  rewrite make_bytes_Ok. cbn [pure pbind]. apply wp_bind.
  apply (wp_loop (λ i keys, ∃ qs, length qs = i ∧ keys = qs ++ drop i (replicate baseOTCount []) ∧
    Forall (λ q, length q = (64 * n)%nat ∧ bytes_ok q) qs)).
  - by exists [].
  - intros i keys Hi (qs & Lq & -> & Bq).
    assert (i < 512)%nat as Hi' by done.
    destruct (lookup_lt_is_Some_2 seeds i) as [seed Hs].
    { by rewrite (Forall2_length _ _ _ Hseeds). }
    destruct (Forall2_lookup_l _ _ _ _ _ Hseeds Hs) as (l & [-> _]%lookup_replicate & Ls & Bs).
    rewrite (send_column_eq n Hn choices (conj Lc Bc) _ _ _ _ Hi' Hs Ls).
    apply wp_bind, wp_recv. intros mask Lm Bm.
    eapply (wp_call (λ q, length q = (64 * n)%nat ∧ bytes_ok q)).
    { destruct (choice choices i); cbn [no_panic];
        [|split; [apply length_blake3_xof|apply blake3_xof_bytes]].
      rewrite (ConcurrentBitOp_spec Z.lxor);
        [|apply Xor_Ok|apply GOMAXPROCS_pos|apply interleave_all|apply blake3_xof_bytes|done
         |rewrite length_blake3_xof; lia]. cbn [no_panic].
      split; [rewrite length_zip_with, length_blake3_xof; lia|].
      apply xor_bytes_ok; [apply blake3_xof_bytes|done]. }
    intros q Hq. apply wp_pure.
    rewrite store_Ok, Nat2Z.id by (rewrite length_app, length_drop, length_replicate; unfold baseOTCount; lia).
    exists (qs ++ [q]). rewrite length_app. cbn [length]. split; [lia|]. split; [|apply Forall_app; split; [done|by apply Forall_singleton]].
    rewrite insert_app_r_alt, Lq, Nat.sub_diag by lia.
    rewrite !drop_replicate. replace (baseOTCount - i)%nat with (S (baseOTCount - S i))
      by (unfold baseOTCount; lia). cbn [replicate insert list_insert]. by rewrite <-app_assoc.
  - intros keys (qs & Lq & -> & Bq). rewrite drop_replicate, app_nil_r.
    pose proof GOMAXPROCS_pos.
    destruct (wide_spec GOMAXPROCS n (blocks n) qs) as (q & Eq & Hq & _);
      [lia|by split|apply blocks_all|].
    replace (Z.to_nat (Z.quot (Z.of_nat (64 * n)) 64)) with n
      by (rewrite Z.quot_div_nonneg by lia; dlia).
    rewrite Eq. cbn [pure pbind].
    rewrite (go_prefix_rows q (512 * n) 64) by (done || lia). cbn [pure pbind wp].
    split; [done|]. eapply byte_matrix_take; [|done]. lia.
Qed.

Context (size : Z) (c : Cuckoo) (Hc : valid size c) (key : list Z).
Context (hasher0 : metro64) (Hh : GetHasher (hasher c) = Ok hasher0).

(** The receiver of the OPRF reads nothing but points. *)
Lemma wp_oprf_Receive :
  m ext = bucketSize (hasher c) → bucketSize (hasher c) < 2 ^ 62 → aes_NewCipher key = Ok key →
  wp (oprf_Receive ext draw c key)
    (λ maps, ∃ t, length t = Z.to_nat (bucketSize (hasher c)) ∧
       indexed c hasher0 t (Z.to_nat (bucketSize (hasher c))) maps).
Proof.
  intros Hm Hbound Hkey. pose proof (nblks_bounds size c Hc) as (Hn1 & Hle & Hpad).
  pose proof (shape_bucketSize _ _ (valid_shape _ _ Hc)) as Hpos. set (n := nblks c) in *.
  unfold oprf_Receive, Len. rewrite Hm, Z.eqb_refl. cbn [negb]. rewrite Hkey. cbn [pure pbind].
  eapply wp_call; [apply sample_no_panic|]. intros ms Hms. destruct (pairs_messages ms Hms).
  apply wp_bind. eapply wp_mono; [by apply (ot_Send_safe (lens := baseMsgLens))|]. intros _ _.
  destruct (pseudorandomEncodings_spec size c Hc key ext Hm Hbound) as (C & -> & HC & _).
  fold n in HC. cbn [pure pbind]. change (Z.of_nat baseOTCount) with 512. unfold PadBitMap.
  rewrite Pad_ceil by lia. cbn [res_bind pbind]. rewrite <-Hpad.
  replace (Z.quot (512 * Z.of_nat n) 8) with (Z.of_nat (64 * n))
    by (rewrite Z.quot_div_nonneg by lia; dlia).
  rewrite make_bytes_Ok. cbn [pbind]. pose proof HC as [-> _]. apply wp_bind.
  apply (wp_loop (λ i st, st.1 = take i (T n ms) ++ drop i (replicate 512 []) ∧
    length st.2 = (64 * n)%nat)).
  - split; [done|apply length_replicate].
  - intros i [encs buf] Hi [HT Hb]. cbn [fst snd] in HT, Hb. pose proof (T_matrix n ms) as [LT _].
    rewrite (receive_column_eq n Hn1 ms C Hms HC) by
      (try done; rewrite HT, length_app, length_take, length_drop, length_replicate; lia).
    destruct (mask_col_ok n Hn1 ms C HC i Hi). apply wp_bind, wp_send; [done|]. apply wp_pure. cbn [no_panic fst snd].
    split; [|done]. rewrite HT. replace (S i) with (i + 1)%nat by lia.
    apply fill_next; [by apply lookup_T|by rewrite length_replicate].
  - intros [encs buf] [HT _]. cbn [fst] in HT. pose proof (T_matrix n ms) as HTm.
    rewrite take_ge, drop_ge, app_nil_r in HT by (rewrite ?(proj1 HTm), ?length_replicate; lia). subst encs.
    pose proof GOMAXPROCS_pos. cbn [pure pbind].
    destruct (wide_spec GOMAXPROCS n (blocks n) (T n ms)) as (t & Et & Ht & _);
      [lia|by apply T_matrix|apply blocks_all|].
    replace (Z.to_nat (Z.quot (Z.of_nat (64 * n)) 64)) with n
      by (rewrite Z.quot_div_nonneg by lia; dlia).
    rewrite Et. cbn [pure pbind]. rewrite (go_prefix_rows t (512 * n) 64) by (done || lia). cbn [pure pbind].
    pose proof (byte_matrix_take _ _ _ _ Hle Ht) as [Lt _].
    destruct (index_encodings_spec size c Hc hasher0 Hh _ Lt) as (maps & Em & Hmaps).
    apply wp_pure. rewrite Em. by eexists.
Qed.
End Oprf.

(** ** The receiver *)
Section Receiver.
Context `{Blake3Laws, CoresLaws, ByteOpsLaws, CodeOpsLaws, MetroHash, FloatConv}.

Lemma wp_read_seeds (f : list (list Z) → proc (Cuckoo * list Z)) Q :
  (∀ seeds, seeds_ok seeds → wp (f seeds) Q) →
  wp (pbind (for_proc (λ _ seeds,
    let* seed := wrap_err "stage1" (recv SaltLength) in pure (Ok (seeds ++ [seed]))) 0 Nhash []) f) Q.
Proof.
  intros HQ. apply wp_bind. apply (wp_loop (λ i seeds, length seeds = i ∧
    Forall (λ s, length s = SaltLength ∧ bytes_ok s) seeds)); [by split| |by intros; apply HQ].
  intros i seeds Hi [Hl Hf]. apply wp_bind, wp_wrap_err, wp_recv. intros seed Ls Bs.
  apply wp_pure. cbn [no_panic]. rewrite length_app. split; [cbn; lia|].
  apply Forall_app. split; [done|]. by apply Forall_singleton.
Qed.

Context (rb : list Z) (picks : nat → nat → Z) (nr : Z) (rids : list (list Z)).
Hypothesis Hpick : ∀ i j, 0 ≤ picks i j < Z.of_nat Nhash.
Hypothesis Hnr : 0 ≤ nr ≤ 2 ^ 49.
Hypothesis Hlen : Z.of_nat (length rids) ≤ nr.
Hypothesis Hne : Forall (λ id, id ≠ []) rids.

(** The table that stage 1 leaves. *)
Record table_ok (c : Cuckoo) : Prop := {
  table_valid : valid nr c;
  table_items x : holds c (upto (inserted c)) x ↔ x ∈ rids;
  table_size : 1 ≤ Len c < 2 ^ 62
}.

Lemma wp_receiver_stage1 :
  wp (receiver_stage1 (Some rb) picks nr rids)
    (λ '(c, key), table_ok c ∧ aes_NewCipher key = Ok key).
Proof.
  unfold receiver_stage1. apply wp_read_seeds. intros seeds Hseeds.
  apply wp_bind, wp_send_int64. unfold wrap. rewrite Z.mod_small by lia.
  destruct (NewCuckoo_valid rb nr seeds ltac:(lia) Hseeds) as (c0 & -> & Hv0 & Hi0 & Hh0).
  cbn [pure pbind].
  destruct (insert_all_spec nr picks 0 c0 rids Hpick Hv0 ltac:(lia) Hne) as (e & c & -> & Hhas & Hr).
  cbn [pure pbind]. destruct e as [e|]; [done|]. cbn [pure pbind].
  apply wp_bind, wp_wrap_err, wp_recv. intros key Lk _. apply wp_pure. cbn [no_panic].
  destruct (Hr eq_refl) as (Hv & _ & Hx). split; [split|].
  - done.
  - intros x. rewrite Hx, Hi0. split; [|by left]. intros [|(i & Hi & _)]; [done|].
    apply elem_of_upto in Hi. lia.
  - rewrite <-Hhas in Hh0. rewrite (table_Len nr seeds c Hseeds Hnr Hh0). by apply input_size_bounds.
  - unfold aes_NewCipher. rewrite bool_decide_true; [done|]. by left.
Qed.

Context (c : Cuckoo) (Hc : table_ok c) (hash0 : metro64) (t : list (list Z)).

(** The state of the intersection loop, under any hashes of the peer: the entries
    left are items not yet reported. *)
Record looping (st : list (gmap Z Z) * list (list Z)) : Prop := {
  looping_length : length st.1 = Nhash;
  looping_entry h mp v i : st.1 !! h = Some mp → mp !! v = Some i →
    ∃ b it, occupied c b i it (Z.of_nat h) ∧ v = Hash64 hash0 (t !!! b) ∧ it ∉ st.2;
  looping_NoDup : NoDup st.2;
  looping_subset : st.2 ⊆ rids
}.

(** The bucket of an item is determined by the item. *)
Lemma occupied_fun b b' i i' y h h' :
  occupied c b i y h → occupied c b' i' y h' → h = h' ∧ b = b'.
Proof.
  intros Ho Ho'. destruct (occupied_content nr c (table_valid _ Hc) _ _ _ _ Ho) as (_ & _ & _ & HB).
  destruct (occupied_content nr c (table_valid _ Hc) _ _ _ _ Ho') as (_ & _ & _ & HB').
  assert (0 ≤ h ∧ 0 ≤ h') as [? ?] by (destruct Ho as (_ & _ & _ & _ & ?), Ho' as (_ & _ & _ & _ & ?); lia).
  destruct (home_fun nr c (table_valid _ Hc) y (Z.to_nat h) (Z.to_nat h') i i') as [E _].
  { exists b. by rewrite Z2Nat.id. }
  { exists b'. by rewrite Z2Nat.id. }
  assert (h = h') as -> by lia. split; [done|]. rewrite HB in HB'. simplify_eq. lia.
Qed.

Lemma looping_hit st h mp v i b it :
  looping st → st.1 !! h = Some mp → mp !! v = Some i →
  occupied c b i it (Z.of_nat h) → v = Hash64 hash0 (t !!! b) → it ∉ st.2 →
  looping (<[h := delete v mp]> st.1, st.2 ++ [it]).
Proof.
  intros [Hl He Hnd Hsub] Hmp Hv Hocc Ev Hni. split; cbn [fst snd].
  - by rewrite length_insert.
  - assert (∀ h' mp' v' i', st.1 !! h' = Some mp' → mp' !! v' = Some i' → (h', v') ≠ (h, v) →
      ∃ b it', occupied c b i' it' (Z.of_nat h') ∧ v' = Hash64 hash0 (t !!! b) ∧ it' ∉ st.2 ++ [it]) as Hrest.
    { intros h' mp' v' i' Hm' Hv' Hne'. destruct (He _ _ _ _ Hm' Hv') as (b' & it' & Ho' & Ev' & Hni').
      exists b', it'. split_and!; [done..|]. rewrite elem_of_app, list_elem_of_singleton.
      intros [?| ->]; [done|]. destruct (occupied_fun _ _ _ _ _ _ _ Hocc Ho') as [Eh ->].
      apply Hne'. assert (h' = h) as -> by lia. by rewrite Ev, Ev'. }
    intros h' mp' v' i' Hm' Hv'. destruct (decide (h' = h)) as [->|].
    + rewrite list_lookup_insert_eq in Hm' by (by eapply lookup_lt_Some). simplify_eq.
      apply lookup_delete_Some in Hv' as [? Hv']. eapply Hrest; [done..|]. congruence.
    + rewrite list_lookup_insert_ne in Hm' by done. eapply Hrest; [done..|]. congruence.
  - apply NoDup_app. split; [done|]. split; [|apply NoDup_singleton].
    intros x Hx. rewrite list_elem_of_singleton. by intros ->.
  - intros x. rewrite elem_of_app, list_elem_of_singleton. intros [Hx| ->]; [by apply Hsub|].
    apply (table_items _ Hc). destruct (occupied_content nr c (table_valid _ Hc) _ _ _ _ Hocc) as (? & ? & _).
    by exists i.
Qed.

Lemma intersect_hashes_looping hs : ∀ j st,
  (j + length hs = Nhash)%nat → looping st →
  no_panic looping (intersect_hashes c (Z.of_nat j) hs st).
Proof.
  induction hs as [|v hs IH]; intros j [maps inter] Hj Hst; cbn [intersect_hashes length] in *; [done|].
  destruct (lookup_lt_is_Some_2 maps j) as [mp Hmp].
  { pose proof (looping_length _ Hst) as Hl. cbn [fst] in Hl. lia. }
  rewrite (Ok_index_nat _ _ _ Hmp). cbn [res_bind].
  replace (Z.of_nat j + 1) with (Z.of_nat (S j)) by lia.
  destruct (mp !! v) as [i|] eqn:Ev; [|apply IH; [lia|done]].
  destruct (looping_entry _ Hst _ _ _ _ Hmp Ev) as (b & it & Hocc & Eh & Hni).
  pose proof Hocc as (_ & _ & _ & Eg & _). rewrite Eg. cbn [res_bind].
  rewrite bool_decide_false by by eapply occupied_content, Hocc; apply (table_valid _ Hc).
  rewrite store_Ok, Nat2Z.id by (apply lookup_lt_Some in Hmp; lia). cbn [res_bind].
  apply IH; [lia|]. by eapply (looping_hit (maps, inter)).
Qed.

Lemma wp_receiver_stage3 maps :
  indexed c hash0 t (Z.to_nat (bucketSize (hasher c))) maps →
  wp (receiver_stage3 c maps) (λ inter, NoDup inter ∧ inter ⊆ rids).
Proof.
  intros [Hl Hs _]. unfold receiver_stage3. apply wp_bind, wp_recv_int64. intros n _.
  apply wp_bind. apply (wp_loop (λ _, looping)).
  - split; cbn [fst snd]; [done| |constructor|set_solver].
    intros h mp v i Hm Hv. destruct (Hs _ _ _ _ Hm Hv) as (b & it & _ & Hocc & ->).
    exists b, it. split_and!; [done..|]. set_solver.
  - intros j st Hj Hst. apply wp_bind, wp_recv. intros bs _ _. apply wp_pure.
    change 0 with (Z.of_nat 0). by apply intersect_hashes_looping.
  - intros [m inter] [_ _ Hnd Hsub]. by split.
Qed.
End Receiver.

Lemma wp_kkrt_Intersect `{Blake3Laws, CoresLaws, ByteOpsLaws, CodeOpsLaws, MetroHash, FloatConv}
    oprf_of rb picks draw nr rids :
  (∀ i j, 0 ≤ picks i j < Z.of_nat Nhash) → 0 ≤ nr ≤ 2 ^ 49 → Z.of_nat (length rids) ≤ nr →
  Forall (λ id, id ≠ []) rids →
  (∀ n, m (oprf_of n) = n ∧ OTSafe (baseOT (oprf_of n)) baseMsgLens) →
  wp (kkrt_Intersect oprf_of (Some rb) picks draw nr rids) (λ inter, NoDup inter ∧ inter ⊆ rids).
Proof.
  intros Hpick Hnr Hlen Hne Hoprf. unfold kkrt_Intersect. apply wp_bind.
  eapply wp_mono; [by apply wp_receiver_stage1|]. intros [c key] [Hc Hkey].
  destruct (index_total (hashers (hasher c)) 0) as [hash0 Hhash].
  { rewrite (shape_hashers _ _ (valid_shape _ _ (table_valid _ _ _ Hc))). done. }
  destruct (Hoprf (Len c)) as [Hm Hsafe]. pose proof (table_size _ _ _ Hc) as Hsz.
  apply wp_bind. eapply wp_mono.
  { eapply (wp_oprf_Receive _ Hsafe _ nr c (table_valid _ _ _ Hc) key hash0 Hhash); [done|apply Hsz|done]. }
  intros maps (t & _ & Hmaps). by eapply wp_receiver_stage3.
Qed.

(** ** The sender *)
Lemma encodings_bytes_ok u : bytes_ok (encodings_bytes u).
Proof.
  unfold encodings_bytes. induction u as [|v u IH]; [constructor|].
  cbn [fmap list_fmap concat]. apply bytes_ok_app. split; [apply be_put_bytes_ok|done].
Qed.

Lemma wp_write_batch batch b :
  bytes_ok b.1 → wp (write_batch batch b) (λ b', bytes_ok b'.1).
Proof.
  revert b. induction batch as [|u batch IH]; intros b Hb; cbn [write_batch]; [done|].
  apply wp_bind, wp_bufio_Write; [done|apply encodings_bytes_ok|]. intros b' Hb'.
  destruct b'.2; [done|]. by apply IH.
Qed.

(** Batches that add up to the inputs neither meet a closed channel nor end early. *)
Lemma wp_write_batches total sent batches b :
  Forall (λ x, x ≠ []) batches → (sent + length (concat batches) = total)%nat →
  bytes_ok b.1 → wp (write_batches total sent batches b) (λ b', bytes_ok b'.1).
Proof.
  intros Hne. revert sent b. induction Hne as [|x batches Hx _ IH]; intros sent b Ht Hb;
    cbn [write_batches concat] in *.
  - cbn [length] in Ht. by rewrite decide_True by lia.
  - rewrite length_app in Ht. destruct x as [|u x]; [done|]. cbn [length] in Ht.
    rewrite decide_False by lia. apply wp_bind. eapply wp_mono; [by apply wp_write_batch|].
    intros b' Hb'. destruct b'.2; [done|]. apply IH; [cbn [length]; lia|done].
Qed.

Lemma wp_writer batches :
  Forall (λ x, x ≠ []) batches → wp (writer (length (concat batches)) batches) (λ _, True).
Proof.
  intros Hne. unfold writer. apply wp_bind. eapply wp_mono; [by apply wp_write_batches|].
  intros b Hb. apply wp_bind, wp_Flush; [done|]. intros _ _. by destruct b.2.
Qed.

Section Sender.
Context `{Blake3Laws, CoresLaws, ByteOpsLaws, CodeOpsLaws, MetroHash, FloatConv}.

Lemma wp_sender_stage1 draw :
  wp (sender_stage1 draw) (λ '(seeds, nr, aesBlock, size), seeds_ok seeds ∧
    - 2 ^ 63 ≤ nr < 2 ^ 63 ∧
    size = if 1 >? to_int (scale_by_Factor nr) then 1 else to_int (scale_by_Factor nr)).
Proof.
  unfold sender_stage1. apply wp_bind. apply (wp_loop (λ i seeds, length seeds = i ∧
    Forall (λ s, length s = SaltLength ∧ bytes_ok s) seeds)); [by split| |].
  - intros i seeds Hi [Hl Hf]. apply wp_rand_Read. intros seed Ls Bs. apply wp_bind, wp_send; [done|].
    apply wp_pure. cbn [no_panic]. rewrite length_app. split; [cbn; lia|].
    apply Forall_app. split; [done|]. by apply Forall_singleton.
  - intros seeds Hseeds. apply wp_bind, wp_recv_int64. intros nr Hnr.
    apply wp_rand_Read. intros key Lk Bk. apply wp_bind, wp_send; [done|].
    unfold aes_NewCipher. rewrite bool_decide_true by by left. by apply wp_pure.
Qed.

Lemma wp_sender_stage3 n k hash key ch sids :
  hasher_ok ch → choices_ok (secret k) →
  byte_matrix (Z.to_nat (bucketSize ch)) 64 (oprfKeys k) →
  wp (sender_stage3 n k (Ok (input_of key ch <$> sids, hash))) (λ _, True).
Proof.
  intros Hch Hs Hk. unfold sender_stage3. apply wp_bind, wp_send_int64. cbn [pure pbind].
  rewrite length_fmap.
  set (us := (λ y, match encodeAndHash (input_of key ch y) k hash with Ok u => u | _ => [] end) <$> sids).
  destruct (batch_ranges_partition us GOMAXPROCS GOMAXPROCS_pos) as [Hc Hr].
  assert (length us = length sids) as Hlu by apply length_fmap. rewrite Hlu in Hc, Hr.
  rewrite (encode_batches_Ok _ _ _ us).
  - cbn [pbind]. assert (length sids = length (concat ((λ r, slice us r.1 r.2) <$>
      interleave 2 (batch_ranges GOMAXPROCS (length sids))))) as E.
    { by rewrite interleave_all, Hc. }
    rewrite E at 1. apply wp_writer. apply Forall_fmap. rewrite interleave_all.
    eapply Forall_impl; [exact Hr|]. intros [lo hi] [Hlt Hle] E'. cbn [compose fst snd] in *.
    apply (f_equal length) in E'. rewrite length_slice in E' by lia. cbn [length] in E'. lia.
  - apply Forall2_fmap, Forall_Forall2_diag, Forall_true. intros y.
    pose proof (encodeAndHash_cases k hash key ch y _ Hch Hs Hk) as Hcase.
    rewrite decide_True in Hcase; [by destruct Hcase as [u ->]|].
    apply Forall_forall. intros b Hb. pose proof (BucketIndices_range ch y b (proj2 Hch) Hb). lia.
  - rewrite interleave_all, length_fmap. exact Hr.
Qed.

(** When the announced size is in range, all that follows stage 1 is safe. *)
Lemma wp_kkrt_Send oprf_of drawOPRF sids seeds nr aes :
  (∀ n, m (oprf_of n) = n ∧ OTSafe (baseOT (oprf_of n)) baseMsgLens) →
  seeds_ok seeds → 0 ≤ nr ≤ 2 ^ 49 →
  let size := if 1 >? scale_by_Factor nr then 1 else scale_by_Factor nr in
  let ns := Z.of_nat (length sids) in
  wp (let* oprfKey := oprf_Send (oprf_of size) drawOPRF in
      sender_stage3 ns oprfKey (stage1_thread ns nr seeds aes sids)) (λ _, True).
Proof.
  intros Hoprf Hseeds Hnr size ns. destruct (Hoprf size) as [Hm Hsafe].
  pose proof (input_size_bounds nr Hnr) as Hsz. fold size in Hsz.
  apply wp_bind. eapply wp_mono; [apply wp_oprf_Send; [done|by rewrite Hm]|].
  intros k [Hs Hk]. rewrite Hm in Hk.
  pose proof (NewCuckooHasher_Ok nr seeds Hseeds) as Hch. set (ch := {| bucketSize := _ |}) in Hch.
  destruct (index_total (hashers ch) 0) as [hash0 Hh].
  { destruct (NewCuckooHasher_ok _ _ _ Hseeds Hch) as [-> _]. done. }
  rewrite (stage1_thread_Ok ns nr seeds aes ch sids hash0); [|..|done|done].
  - apply wp_sender_stage3; [by eapply NewCuckooHasher_ok|done|].
    assert (bucketSize ch = size) as ->; [|done].
    subst ch size. cbn [bucketSize]. by rewrite to_uint64_scale.
  - unfold wrap. by rewrite Z.mod_small by lia.
Qed.
End Sender.

(** *** A receiver that lies about its size *)
Section Lying.
Context `{Blake3, Cores, ByteOps, CodeOps, MetroHash, FloatConv}.

(** It announces [nr], and plays the OPRF with an empty table of one bucket. *)
Definition lying_stage1 (nr : Z) : proc (Cuckoo * list Z) :=
  let* seeds := for_proc (λ _ seeds,
      let* seed := wrap_err "stage1" (recv SaltLength) in
      pure (Ok (seeds ++ [seed]))) 0 Nhash [] in
  let* _ := send_int64 nr in
  let* table := pure (NewCuckoo (Some []) 0 seeds) in
  let* key := recv 16 in
  pure (Ok (table, key)).

Definition lying_receiver (ext : OPRF) (draw : nat → option (nat → Z)) (nr : Z)
    : proc (list (gmap Z Z)) :=
  let* ' (table, key) := lying_stage1 nr in
  let* maps := oprf_Receive ext draw table key in
  pure (Ok maps).

End Lying.

Section LyingExchange.
Context `{Blake3Laws, CoresLaws, ByteOpsLaws, CodeOpsLaws, MetroHash, FloatConv}.
Context (rnd : nat → nat → Z) (nr : Z) (table : Cuckoo).
Hypothesis Hnr : - 6 * 10 ^ 18 ≤ nr < 0.
Hypothesis Htable : NewCuckoo (Some []) 0 (kkrt_seeds rnd) = Ok table.

Lemma lying_stage1_exchange :
  exchange (sender_stage1 (λ k, Some (rnd k))) (lying_stage1 nr)
    (kkrt_seeds rnd, nr, kkrt_key rnd, 1) (table, kkrt_key rnd).
Proof.
  unfold exchange, sender_stage1, lying_stage1. eapply exchange_bind; [apply seeds_exchange|].
  unfold send_int64, recv_int64, send, recv, pure. cbn [pbind].
  apply steps_right_send. cbn [pbind app].
  apply steps_left_recv_all; [apply length_be_put|]. cbn [pbind].
  rewrite int64_be_roundtrip by lia. rewrite Htable. cbn [pbind].
  rewrite (rand_Read_random _ _ _ (rnd Nhash)) by done. cbn [pbind].
  apply steps_left_send. cbn [pbind app]. fold (kkrt_key rnd). rewrite kkrt_key_ok. cbn [pbind].
  apply steps_right_recv_all; [apply length_kkrt_key|]. cbn [pbind].
  destruct (scale_by_Factor_error (- nr)) as [Hpos Herr]; [lia|].
  rewrite scale_by_Factor_opp in Hpos, Herr. rewrite to_int_Ok by lia.
  destruct (Z.gtb_spec 1 (scale_by_Factor nr)); [|lia]. apply rtc_refl.
Qed.

(** A bucket beyond the single row of the key crashes a worker. *)
Lemma stage3_panics n k hash aes ch sids id b :
  hasher_ok ch → choices_ok (secret k) → byte_matrix 1 64 (oprfKeys k) →
  id ∈ sids → b ∈ BucketIndices ch id → b ≠ 0 →
  ∃ s, sender_stage3 n k (Ok (input_of aes ch <$> sids, hash)) =
    Send (be_put 8 n) (λ r, match r with Ok _ => Done (Panic s) | Err e => Done (Err e) | Panic p => Done (Panic p) end).
Proof.
  intros Hch Hs Hk Hid Hb Hb0. unfold sender_stage3, send_int64, send. cbn [pure pbind].
  set (ranges := interleave 2 _).
  assert (ranges ≡ₚ batch_ranges GOMAXPROCS (length (input_of aes ch <$> sids))) as Hp
    by apply interleave_all.
  destruct (encode_batches_panics k hash _ ranges GOMAXPROCS (input_of aes ch id) GOMAXPROCS_pos Hp)
    as [s ->].
  - apply Forall_fmap, Forall_true. intros y e. unfold compose.
    pose proof (encodeAndHash_cases k hash aes ch y 1 Hch Hs Hk) as Hc.
    case_decide; destruct Hc as [? ->]; done.
  - by apply list_elem_of_fmap_2.
  - intros u Eu. pose proof (encodeAndHash_cases k hash aes ch id 1 Hch Hs Hk) as Hc.
    rewrite decide_False in Hc; [destruct Hc; congruence|].
    intros Hall. rewrite Forall_forall in Hall. specialize (Hall b Hb).
    pose proof (BucketIndices_range ch id b (proj2 Hch) Hb). lia.
  - by exists s.
Qed.
End LyingExchange.

(** * Properties *)

(** C7: KKRT with a peer that sends any bytes, cut anywhere, over a connection whose
    calls may fail, above base OTs that are safe in the same sense.  A receiver that
    announces a size between 0 and [2^49] and feeds at most that many identifiers, none
    of them empty, does not panic, writes nothing but bytes, and reports without error
    only identifiers of its own, each once, whatever hashes it is sent.  A sender that
    feeds the identifiers it announces does not panic either and writes nothing but
    bytes, when the size that it reads in its first stage is between 0 and [2^49]: the
    code does not check it, and a negative one can crash it.  (Naor-Pinkas is safe,
    [naor_OT_safe], up to the case that a peer guesses the key drawn for a choice and
    makes the difference of two points infinity, which cannot be marshalled.) *)
Theorem kkrt_hostile_peer `{Blake3Laws, CoresLaws, ByteOpsLaws, CodeOpsLaws, MetroHash, FloatConv}
    oprf_of rb picks draw drawOPRF nr rids sids r w :
  (∀ n, m (oprf_of n) = n ∧ OTSafe (baseOT (oprf_of n)) baseMsgLens) →
  (∀ i j, 0 ≤ picks i j < Z.of_nat Nhash) →
  0 ≤ nr ≤ 2 ^ 49 → Z.of_nat (length rids) ≤ nr → Forall (λ id, id ≠ []) rids →
  bytes_ok (pending r) → bytes_ok (written w) →
  (let '(x, _, w') := run (kkrt_Intersect oprf_of (Some rb) picks drawOPRF nr rids) r w in
    no_panic (λ inter, NoDup inter ∧ inter ⊆ rids) x ∧ bytes_ok (written w')) ∧
  (∀ seeds remoteN aesBlock size r1 w1,
    run (sender_stage1 draw) r w = (Ok (seeds, remoteN, aesBlock, size), r1, w1) →
    0 ≤ remoteN ≤ 2 ^ 49 →
    let '(x, _, w') := run (kkrt_Send oprf_of draw drawOPRF (Z.of_nat (length sids)) sids) r w in
    no_panic (λ _, True) x ∧ bytes_ok (written w')).
Proof.
  intros Hoprf Hpick Hnr Hlen Hne Hr Hw. split.
  - pose proof (wp_run _ _ r w (wp_kkrt_Intersect oprf_of rb picks drawOPRF nr rids Hpick Hnr Hlen Hne Hoprf)
      Hr Hw) as Hp.
    destruct (run _ r w) as [[x r2] w2]. by destruct Hp as (? & _ & ?).
  - intros seeds remoteN aes size r1 w1 E Hsize.
    pose proof (wp_run _ _ r w (wp_sender_stage1 draw) Hr Hw) as Hp. rewrite E in Hp.
    destruct Hp as ((Hseeds & _ & ->) & Hr1 & Hw1).
    unfold kkrt_Send. rewrite run_bind, E, to_int_scale by done.
    pose proof (wp_run _ _ r1 w1 (wp_kkrt_Send oprf_of drawOPRF sids seeds remoteN aes Hoprf Hseeds Hsize)
      Hr1 Hw1) as Hp.
    destruct (run _ r1 w1) as [[x r2] w2]. by destruct Hp as (? & _ & ?).
Qed.

(** C36: a receiver can crash the sender.  One that announces a negative size makes
    the sender prepare a single OPRF key while its hasher takes the size for an
    unsigned number: as soon as some identifier of the sender has another candidate
    bucket than 0, a worker of stage 3 indexes beyond the keys, and the process of
    the sender ends.  For these sizes both conversions of the product with [Factor]
    are in the range of their types. *)
Theorem kkrt_announced_size_crashes `{Blake3Laws, CoresLaws, ByteOpsLaws, CodeOpsLaws, MetroHash, FloatConv}
    (rnd rndS rndR : nat → nat → Z) (oprfS : Z → OPRF) (extR : OPRF) nr ch sids id b :
  - 6 * 10 ^ 18 ≤ nr ≤ - 53 * 10 ^ 17 →
  m (oprfS 1) = 1 → m extR = 1 → OTLaws (baseOT (oprfS 1)) (baseOT extR) baseMsgLens →
  NewCuckooHasher (nr + 2 ^ 64) (kkrt_seeds rnd) = Ok ch →
  id ∈ sids → b ∈ BucketIndices ch id → b ≠ 0 →
  ∃ s maps j, rtc step
    (Conf (kkrt_Send oprfS (λ i, Some (rnd i)) (λ i, Some (rndS i)) (Z.of_nat (length sids)) sids) []
          (lying_receiver extR (λ i, Some (rndR i)) nr) [])
    (Conf (Done (Panic s)) [] (Done (Ok maps)) j).
Proof.
  intros Hnr HmS HmR OTok Hch Hid Hb Hb0.
  destruct (NewCuckoo_valid [] 0 (kkrt_seeds rnd)) as (table & Ht & Hv & _ & Hth);
    [lia|apply kkrt_seeds_ok|].
  assert (bucketSize (hasher table) = 1) as Hone.
  { rewrite NewCuckooHasher_Ok in Hth by apply kkrt_seeds_ok. by injection Hth as <-. }
  destruct (index_total (hashers (hasher table)) 0) as [hashR HhR].
  { rewrite (shape_hashers _ _ (valid_shape _ _ Hv)). done. }
  pose proof (NewCuckooHasher_ok _ _ _ (kkrt_seeds_ok rnd) Hch) as Hok.
  destruct (index_total (hashers ch) 0) as [hash0 Hh]. { destruct Hok as [-> _]. done. }
  destruct (oprf_exchange 0 table Hv (kkrt_key rnd) ltac:(rewrite Hone; lia) (oprfS 1) extR OTok
    ltac:(by rewrite Hone) ltac:(by rewrite Hone) (λ i, Some (rndS i)) (λ i, Some (rndR i)) (rndS 0%nat)
    eq_refl ltac:(by eexists) (kkrt_key_ok rnd) hashR HhR) as (k & t & maps & He & Ho & _).
  pose proof (outcome_keys _ _ _ _ _ _ Ho) as Hk. rewrite Hone in Hk.
  destruct (stage3_panics (Z.of_nat (length sids)) k hash0 (kkrt_key rnd) ch sids id b Hok
    (outcome_secret _ _ _ _ _ _ Ho) Hk Hid Hb Hb0) as [s Es].
  exists s, maps, (be_put 8 (Z.of_nat (length sids))). unfold kkrt_Send, lying_receiver.
  eapply exchange_bind; [eapply (lying_stage1_exchange rnd nr table); [lia|done]|].
  eapply exchange_bind; [exact He|].
  erewrite stage1_thread_Ok; [|..|done|done].
  - rewrite Es. apply steps_left_send. apply rtc_refl.
  - assert (wrap 64 nr = nr + 2 ^ 64) as ->; [|done].
    unfold wrap. symmetry. apply (Z.mod_unique nr (2 ^ 64) (-1)); lia.
Qed.

Lemma kkrt_announced_size_crashes_witness :
  ∃ s maps j, rtc step
    (Conf (@kkrt_Send Toy.toy_blake3 Toy.one_core generic_ops toy_code toy_metro amd64_float (toy_oprf 5)
             (λ i, Some (toy_rnd i)) (λ i, Some (toy_rndS i)) 1 [[5]]) []
          (@lying_receiver Toy.toy_blake3 Toy.one_core generic_ops toy_code toy_metro amd64_float (toy_oprf 3 1)
             (λ i, Some (toy_rnd i)) (- 6 * 10 ^ 18)) [])
    (Conf (Done (Panic s)) [] (Done (Ok maps)) j).
Proof.
  pose proof (@generic_code_laws Toy.toy_aes Toy.toy_aes_laws Toy.toy_murmur3) as HL.
  eapply (@kkrt_announced_size_crashes Toy.toy_blake3 Toy.toy_blake3_laws Toy.one_core Toy.one_core_laws
    generic_ops generic_ops_laws toy_code HL toy_metro amd64_float toy_rnd toy_rndS toy_rnd (toy_oprf 5) (toy_oprf 3 1)
    (- 6 * 10 ^ 18) _ [[5]] [5] 5).
  - lia.
  - done.
  - done.
  - apply toy_base_OT.
  - by vm_compute.
  - set_solver.
  - vm_compute. by left.
  - lia.
Defined.

#[local] Instance toy_encoding : @CurveEncoding Toy.toy_curve.
Proof.
  split.
  - intros q Hq. apply (bool_decide_eq_true_1 _). revert q Hq.
    apply (Toy.all1 (λ q, bool_decide (bytes_ok (Marshal q)))). by vm_compute.
  - intros bs q E. unfold Unmarshal in E. cbn [UnmarshalCompressed Toy.toy_curve] in E.
    destruct bs as [|a [|u [|]]]; try done. destruct (head _) as [p|] eqn:Eh; [|done]. simplify_eq.
    apply head_Some_elem_of, list_elem_of_filter in Eh as [[Hon _] _]. by right.
Qed.

(** The receiver, sent three seeds of zeros, a key and then no points. *)
Definition zeros_then_nothing : source :=
  {| chunks := [replicate 96 0; replicate 16 0; replicate 70 0]; final := EOF |}.

Lemma kkrt_hostile_peer_witness :
  let '(x, _, w') := run (@kkrt_Intersect Toy.toy_blake3 Toy.one_core generic_ops toy_code toy_metro amd64_float
      (toy_oprf 3) (Some []) toy_picks (λ i, Some (toy_rnd i)) 1 [[5]]) zeros_then_nothing new_sink in
  no_panic (λ inter, NoDup inter ∧ inter ⊆ [[5]]) x ∧ bytes_ok (written w').
Proof.
  pose proof (@generic_code_laws Toy.toy_aes Toy.toy_aes_laws Toy.toy_murmur3) as HL.
  apply (proj1 (@kkrt_hostile_peer Toy.toy_blake3 Toy.toy_blake3_laws Toy.one_core Toy.one_core_laws
    generic_ops generic_ops_laws toy_code HL toy_metro amd64_float (toy_oprf 3) [] toy_picks (λ i, Some (toy_rnd i))
    (λ i, Some (toy_rnd i)) 1 [[5]] [] zeros_then_nothing new_sink
    (λ n, conj eq_refl (@naor_OT_safe Toy.toy_curve Toy.toy_curve_laws toy_encoding Toy.toy_blake3
      Toy.toy_blake3_laws Toy.one_core Toy.one_core_laws generic_ops generic_ops_laws _ _))
    ltac:(intros i j; unfold toy_picks, Nhash; lia) ltac:(lia) ltac:(cbn; lia)
    ltac:(by repeat constructor) ltac:(apply (bool_decide_unpack _); by vm_compute) ltac:(constructor))).
Defined.
