(* ===== verification/KkrtStage3.v ===== *)
(** * pkg/kkrtpsi, sender.go: the goroutines of stage 3

    [Kkrt.sender_stage3] gives the writer the batches in some order.  Here the workers,
    the buffered channel, the writer and the [errgroup] whose context they observe are
    the steps of a relation; a run that is not cancelled does what [Kkrt.writer] does
    with the batches in some order. *)
From stdpp Require Import relations.
From S2P Require Import Prelude Words Bits BitVect BitMatrix Hash Cuckoo IO Proc Bufio Crypto OT Oprf Kkrt.

(** The batches of each worker, and last of the extra worker, as ranges of the inputs. *)
Definition worker_jobs (nWorkers len : nat) : list (list (nat * nat)) :=
  let nBatches := (len / batch_size)%nat in
  let workerResp := (nBatches / nWorkers)%nat in
  let workLeft := (len - workerResp * nWorkers * batch_size)%nat in
  ((λ w, (λ batchNumber,
      let step := ((w * workerResp + batchNumber) * batch_size)%nat in
      (step, step + batch_size)%nat) <$> seq 0 workerResp) <$> seq 0 nWorkers) ++
  [if decide (workLeft = 0)%nat then [] else [((len - workLeft)%nat, len)]].

(** The writer's goroutine: in its loop, or returned. *)
Inductive writer_state :=
| Receiving (sent : nat) (bufferedWriter : bufio)
| WriterDone (e : option error).

Record group := Group {
  todo : list (list (nat * nat));          (** what each worker has not sent yet *)
  localEncodings : list (list (list Z));   (** the batches in the channel *)
  closed : bool;                           (** the channel is closed *)
  writing : writer_state;
  ctx_err : option error;                  (** [ctx.Err()] of the group's context *)
  group_err : option error;                (** the first error of a goroutine *)
  conn : sink
}.

(** The stage, or the process ended by a panic. *)
Inductive stage3 := Working (s : group) | Crashed (m : string).

Definition set_todo (w : nat) (rest : list (nat * nat)) (s : group) : group :=
  Group (<[w := rest]> (todo s)) (localEncodings s) (closed s) (writing s) (ctx_err s) (group_err s) (conn s).
Definition set_channel (l : list (list (list Z))) (s : group) : group :=
  Group (todo s) l (closed s) (writing s) (ctx_err s) (group_err s) (conn s).
Definition set_writing (c : bool) (x : writer_state) (w : sink) (s : group) : group :=
  Group (todo s) (localEncodings s) c x (ctx_err s) (group_err s) w.
Definition set_ctx (e : error) (s : group) : group :=
  Group (todo s) (localEncodings s) (closed s) (writing s) (Some e) (group_err s) (conn s).

(** [golang.org/x/sync/errgroup]: what the error that a goroutine returns makes of the
    group's error and of its context. *)
Class ErrGroup := {
  eg_err : option error → error → option error;
  eg_ctx : option error → option error
}.

(** [Wait] returns the first error, and the first error cancels the context, whose error
    does not change any more. *)
Class ErrGroupLaws `{ErrGroup} : Prop := {
  eg_err_first e : eg_err None e = Some e;
  eg_err_later e e' : eg_err (Some e) e' = Some e;
  eg_ctx_first : eg_ctx None ≠ None;
  eg_ctx_later e : eg_ctx (Some e) = Some e
}.

Definition fail `{ErrGroup} (e : error) (s : group) : group :=
  Group (todo s) (localEncodings s) (closed s) (writing s) (eg_ctx (ctx_err s))
    (eg_err (group_err s) e) (conn s).

(** The connection as the writer uses it: it reads nothing. *)
Definition nothing : source := {| chunks := []; final := EOF |}.

Section Stage3.
Context `{Cores, ByteOps, MetroHash, ErrGroup}.
Context (oprfKey : Key) (hasher : metro64) (inputs : list inputToOprfEncode) (cancel : error).

(** [make(chan [][cuckoo.Nhash]uint64, nWorkers*2)]. *)
Definition capacity : nat := GOMAXPROCS * 2.

Definition encode_batch (r : nat * nat) : res (list (list Z)) :=
  let! part := go_slice inputs r.1 r.2 in encode_inputs oprfKey hasher part.

(** The goroutines started; without inputs the writer first closes the channel. *)
Definition start3 (w : sink) : stage3 :=
  Working (Group (worker_jobs GOMAXPROCS (length inputs)) [] (bool_decide (length inputs = 0)%nat)
    (Receiving 0 ([], None)) None None w).

(** A worker encodes its next batch and then selects between the context and the
    channel; the writer takes a batch, and returns at its first error or when the
    channel is closed and empty, after its deferred [Flush]. *)
Inductive goroutine_step : stage3 → stage3 → Prop :=
| worker_sends s w r rest batch :
    todo s !! w = Some (r :: rest) → encode_batch r = Ok batch →
    closed s = false → (length (localEncodings s) < capacity)%nat →
    goroutine_step (Working s)
      (Working (set_channel (localEncodings s ++ [batch]) (set_todo w rest s)))
| worker_done s w r rest batch e :
    todo s !! w = Some (r :: rest) → encode_batch r = Ok batch → ctx_err s = Some e →
    goroutine_step (Working s) (Working (fail e (set_todo w [] s)))
| worker_panics s w r rest m :
    todo s !! w = Some (r :: rest) → encode_batch r = Panic m →
    goroutine_step (Working s) (Crashed m)
| worker_closed s w r rest batch :
    todo s !! w = Some (r :: rest) → encode_batch r = Ok batch → closed s = true →
    goroutine_step (Working s) (Crashed "send on closed channel")
| writer_receives s sent b batch rest b' w :
    writing s = Receiving sent b → localEncodings s = batch :: rest →
    run (write_batch batch b) nothing (conn s) = (Ok b', nothing, w) → b'.2 = None →
    (sent + length batch ≠ length inputs)%nat →
    goroutine_step (Working s)
      (Working (set_writing (closed s) (Receiving (sent + length batch) b') w (set_channel rest s)))
| writer_closes s sent b batch rest b' w :
    writing s = Receiving sent b → localEncodings s = batch :: rest →
    run (write_batch batch b) nothing (conn s) = (Ok b', nothing, w) → b'.2 = None →
    (sent + length batch = length inputs)%nat → closed s = false →
    goroutine_step (Working s)
      (Working (set_writing true (Receiving (sent + length batch) b') w (set_channel rest s)))
| writer_closes_twice s sent b batch rest b' w :
    writing s = Receiving sent b → localEncodings s = batch :: rest →
    run (write_batch batch b) nothing (conn s) = (Ok b', nothing, w) → b'.2 = None →
    (sent + length batch = length inputs)%nat → closed s = true →
    goroutine_step (Working s) (Crashed "close of closed channel")
| writer_fails s sent b batch rest b' w b'' w' e :
    writing s = Receiving sent b → localEncodings s = batch :: rest →
    run (write_batch batch b) nothing (conn s) = (Ok b', nothing, w) → b'.2 = Some e →
    run (bufio_Flush b') nothing w = (Ok b'', nothing, w') →
    goroutine_step (Working s)
      (Working (fail (Wrapped "stage3" e)
        (set_writing (closed s) (WriterDone (Some (Wrapped "stage3" e))) w' (set_channel rest s))))
| writer_ends s sent b b' w :
    writing s = Receiving sent b → localEncodings s = [] → closed s = true →
    run (bufio_Flush b) nothing (conn s) = (Ok b', nothing, w) →
    goroutine_step (Working s) (Working (set_writing true (WriterDone None) w s)).

(** The steps of the stage, and the cancellation of the context of [Send]. *)
Inductive stage3_step : stage3 → stage3 → Prop :=
| goroutine c c' : goroutine_step c c' → stage3_step c c'
| cancelled s : ctx_err s = None → stage3_step (Working s) (Working (set_ctx cancel s)).

(** [g.Wait] returns, with the group's error, when every goroutine has. *)
Definition returned (s : group) : Prop := concat (todo s) = [] ∧ ∃ e, writing s = WriterDone e.

(** The workers have returned, the writer waits for a batch on an open channel. *)
Definition blocked (s : group) : Prop :=
  concat (todo s) = [] ∧ localEncodings s = [] ∧ closed s = false ∧
  ∃ sent b, writing s = Receiving sent b ∧ (sent < length inputs)%nat.
End Stage3.

(** * Lemmas *)
Lemma worker_jobs_ranges nw len : concat (worker_jobs nw len) = batch_ranges nw len.
Proof.
  unfold worker_jobs, batch_ranges. rewrite concat_app. f_equal; [|cbn; by rewrite app_nil_r].
  induction (seq 0 nw) as [|w ws IH]; [done|]. cbn [fmap list_fmap concat mbind list_bind].
  by f_equal.
Qed.

(** The buffered writer always comes back. *)
Lemma run_Flush b w : ∃ b' w', run (bufio_Flush b) nothing w = (Ok b', nothing, w').
Proof.
  destruct b as [[|x buf] [e|]]; try by do 2 eexists.
  cbn [bufio_Flush]. unfold try_send. cbn [pbind run].
  destruct (Write w (x :: buf)) as [[e|] w'] eqn:E; by do 2 eexists.
Qed.

Lemma run_bufio_Write size b p w : ∃ b' w', run (bufio_Write size b p) nothing w = (Ok b', nothing, w').
Proof.
  destruct b as [buf [e|]]; [by do 2 eexists|]. cbn [bufio_Write].
  destruct (decide _); [by do 2 eexists|]. rewrite run_bind.
  match goal with |- context [bufio_Flush ?b] => destruct (run_Flush b w) as (b' & w' & ->) end.
  destruct b' as [buf' [e|]]; by do 2 eexists.
Qed.

Lemma run_write_batch batch b w : ∃ b' w', run (write_batch batch b) nothing w = (Ok b', nothing, w').
Proof.
  revert b w. induction batch as [|u batch IH]; intros b w; cbn [write_batch]; [by do 2 eexists|].
  rewrite run_bind. destruct (run_bufio_Write buffer_size b (encodings_bytes u) w) as (b1 & w1 & ->).
  destruct b1.2; [by do 2 eexists|]. apply IH.
Qed.

Lemma eg_err_Some `{ErrGroupLaws} o e : eg_err o e ≠ None.
Proof. destruct o as [e'|]; [by rewrite eg_err_later|by rewrite eg_err_first]. Qed.

Lemma eg_ctx_Some `{ErrGroupLaws} o : eg_ctx o ≠ None.
Proof. destruct o as [e|]; [by rewrite eg_ctx_later|apply eg_ctx_first]. Qed.

(** Taking the front of what one worker has left. *)
Lemma concat_take_job {A} (ls : list (list A)) w front rest :
  ls !! w = Some (front ++ rest) → concat ls ≡ₚ front ++ concat (<[w := rest]> ls).
Proof.
  intros Hw. pose proof (lookup_lt_Some _ _ _ Hw) as Hlt.
  rewrite insert_take_drop by done. rewrite <-(take_drop_middle ls w _ Hw) at 1.
  rewrite !concat_app. cbn [concat].
  by rewrite (app_assoc front), (Permutation_app_comm front (concat (take w ls))), <-!app_assoc.
Qed.

Lemma todo_head {A} (ls : list (list A)) :
  concat ls ≠ [] → ∃ w r rest, ls !! w = Some (r :: rest).
Proof.
  induction ls as [|[|r rest] ls IH]; intros Hne; [done|..].
  - destruct (IH Hne) as (w & r & rest & E). by exists (S w), r, rest.
  - by exists 0%nat, r, rest.
Qed.

(** ** What a run keeps true *)
Section Invariant.
Context `{CoresLaws, ByteOps, MetroHash, ErrGroupLaws}.
Context (oprfKey : Key) (hasher : metro64) (inputs : list inputToOprfEncode) (cancel : error).
Context (us : list (list Z)) (w0 : sink).
Hypothesis Hus : Forall2 (λ i u, encodeAndHash i oprfKey hasher = Ok u) inputs us.

Local Abbreviation goroutine_step := (goroutine_step oprfKey hasher inputs).
Local Abbreviation stage3_step := (stage3_step oprfKey hasher inputs cancel).
Local Abbreviation total := (length inputs).

(** The batches, in the order of the workers. *)
Definition batches_of (ranges : list (nat * nat)) : list (list (list Z)) :=
  (λ r, slice us r.1 r.2) <$> ranges.
#[local] Instance batches_of_proper : Proper ((≡ₚ) ==> (≡ₚ)) batches_of.
Proof. intros l l' Hl. unfold batches_of. by rewrite Hl. Qed.
Definition all_batches : list (list (list Z)) := batches_of (batch_ranges GOMAXPROCS total).

Definition in_range (r : nat * nat) : Prop := (r.1 < r.2 ∧ r.2 ≤ total)%nat.

Lemma length_us : length us = total.
Proof. symmetry. by eapply Forall2_length. Qed.

Lemma encode_batch_Ok r : in_range r → encode_batch oprfKey hasher inputs r = Ok (slice us r.1 r.2).
Proof.
  intros [Hlt Hle]. unfold encode_batch. rewrite go_slice_Ok by lia. cbn [res_bind].
  apply encode_inputs_Ok. by apply Forall2_take, Forall2_drop.
Qed.

Lemma all_ranges : Forall in_range (batch_ranges GOMAXPROCS total).
Proof.
  pose proof (proj2 (batch_ranges_partition us GOMAXPROCS GOMAXPROCS_pos)) as Hr.
  by rewrite length_us in Hr.
Qed.

Lemma all_nonempty : Forall (λ b, b ≠ []) all_batches.
Proof.
  unfold all_batches, batches_of. apply Forall_fmap. eapply Forall_impl; [apply all_ranges|].
  intros [lo hi] [Hlt Hle] E. cbn [compose fst snd] in *. apply (f_equal length) in E.
  rewrite length_slice in E by (rewrite length_us; lia). cbn [length] in E. lia.
Qed.

Lemma all_total : length (concat all_batches) = total.
Proof.
  unfold all_batches, batches_of. rewrite <-length_us at 1.
  by rewrite (proj1 (batch_ranges_partition us GOMAXPROCS GOMAXPROCS_pos)), length_us.
Qed.

(** Part of the batches adds up to all of them only if it is all of them. *)
Lemma part_total part rest :
  part ++ rest ≡ₚ all_batches →
  (length (concat part) ≤ total)%nat ∧ (length (concat part) = total ↔ rest = []).
Proof.
  intros Hp. pose proof all_total as Ht. pose proof all_nonempty as Hne.
  rewrite <-Hp in Hne. apply Forall_app in Hne as [_ Hne].
  rewrite <-Hp, concat_app, length_app in Ht. split; [lia|].
  destruct rest as [|b rest]; [cbn in Ht; split; [done|lia]|]. apply Forall_cons in Hne as [Hb _].
  cbn [concat] in Ht. rewrite length_app in Ht. destruct b; [done|]. cbn [length] in Ht.
  split; [lia|done].
Qed.

(** The writer has gone through the batches [recvd]. *)
Definition wrote (recvd : list (list (list Z))) (sent : nat) (b : bufio) (w : sink) : Prop :=
  ∀ rest, run (write_batches total 0 (recvd ++ rest) ([], None)) nothing w0 =
          run (write_batches total sent rest b) nothing w.

Definition writer_ok (s : group) (recvd : list (list (list Z))) : Prop :=
  match writing s with
  | Receiving sent b =>
      sent = length (concat recvd) ∧ closed s = bool_decide (sent = total) ∧ b.2 = None ∧
      wrote recvd sent b (conn s)
  | WriterDone None => recvd ≡ₚ all_batches ∧ run (writer total recvd) nothing w0 = (Ok (), nothing, conn s)
  | WriterDone (Some e) =>
      closed s = false ∧ ctx_err s ≠ None ∧ group_err s ≠ None ∧
      ∀ rest, run (writer total (recvd ++ rest)) nothing w0 = (Err e, nothing, conn s)
  end.

Record inv (s : group) (recvd dropped : list (list (list Z))) : Prop := {
  inv_batches : recvd ++ localEncodings s ++ batches_of (concat (todo s)) ++ dropped ≡ₚ all_batches;
  inv_ranges : Forall in_range (concat (todo s));
  inv_writer : writer_ok s recvd;
  inv_dropped : dropped ≠ [] → group_err s ≠ None ∧ ctx_err s ≠ None;
  inv_err e : group_err s = Some e →
    (e = cancel ∧ ctx_err s = Some cancel) ∨ writing s = WriterDone (Some e);
  inv_ctx e : ctx_err s = Some e → e = cancel ∨ ∃ e', writing s = WriterDone (Some e')
}.

Lemma inv_start w : w = w0 → ∃ s, start3 inputs w = Working s ∧ inv s [] [].
Proof.
  intros ->. eexists. split; [done|]. split; cbn [localEncodings todo writing closed ctx_err group_err conn app];
    try done.
  - by rewrite worker_jobs_ranges, app_nil_r.
  - rewrite worker_jobs_ranges. apply all_ranges.
  - unfold writer_ok. cbn [writing closed conn]. split_and!; try done.
    apply bool_decide_ext. by split.
Qed.

(** What a worker has left can be encoded, and the channel it is for is open. *)
Lemma inv_job s recvd dropped w r rest :
  inv s recvd dropped → todo s !! w = Some (r :: rest) →
  encode_batch oprfKey hasher inputs r = Ok (slice us r.1 r.2) ∧ closed s = false ∧
  concat (todo s) ≡ₚ r :: concat (<[w := rest]> (todo s)) ∧
  ∃ front, concat (todo s) ≡ₚ front ++ concat (<[w := []]> (todo s)).
Proof.
  intros [Hb Hr Hw _ _ _] Ht.
  assert (concat (todo s) ≡ₚ r :: concat (<[w := rest]> (todo s))) as Hp
    by by apply (concat_take_job (todo s) w [r] rest).
  assert (in_range r) as Hin. { rewrite Hp in Hr. by apply Forall_cons in Hr as [? _]. }
  split; [by apply encode_batch_Ok|].
  split; [|split; [exact Hp|exists (r :: rest); apply concat_take_job; by rewrite app_nil_r]].
  destruct (part_total recvd _ Hb) as [_ Htot]. unfold writer_ok in Hw.
  assert (localEncodings s ++ batches_of (concat (todo s)) ++ dropped ≠ []) as Hne.
  { intros [_ [E _]%app_eq_nil]%app_eq_nil. unfold batches_of in E. apply fmap_nil_inv in E.
    rewrite E in Hp. by apply Permutation_nil_l in Hp. }
  destruct (writing s) as [sent b|[e|]].
  - destruct Hw as (-> & -> & _). apply bool_decide_eq_false_2. by rewrite Htot.
  - apply Hw.
  - destruct Hw as [Ha _]. exfalso. apply Hne, Htot. rewrite Ha. apply all_total.
Qed.

(** A worker sends, or returns with the error of the context. *)
Lemma inv_worker_sends s recvd dropped w r rest batch :
  inv s recvd dropped → todo s !! w = Some (r :: rest) →
  encode_batch oprfKey hasher inputs r = Ok batch →
  inv (set_channel (localEncodings s ++ [batch]) (set_todo w rest s)) recvd dropped.
Proof.
  intros Hi Ht Hbatch. destruct (inv_job _ _ _ _ _ _ Hi Ht) as (E & _ & Hp & _).
  rewrite Hbatch in E. injection E as ->. destruct Hi as [Hb Hr Hw Hd He Hc].
  split; cbn [localEncodings todo set_channel set_todo writing closed ctx_err group_err conn]; try done.
  - rewrite <-Hb, Hp. unfold batches_of. cbn [fmap list_fmap]. by rewrite <-!app_assoc.
  - rewrite Hp in Hr. by apply Forall_cons in Hr as [_ ?].
Qed.

Lemma inv_worker_done s recvd dropped w r rest e :
  inv s recvd dropped → todo s !! w = Some (r :: rest) → ctx_err s = Some e →
  ∃ dropped', inv (fail e (set_todo w [] s)) recvd dropped'.
Proof.
  intros Hi Ht Hctx. destruct (inv_job _ _ _ _ _ _ Hi Ht) as (_ & _ & _ & front & Hp).
  destruct Hi as [Hb Hr Hw Hd He Hc]. exists (batches_of front ++ dropped).
  split; cbn [localEncodings todo fail set_todo writing closed ctx_err group_err conn].
  - rewrite <-Hb, Hp. unfold batches_of. rewrite fmap_app.
    do 2 f_equiv. rewrite app_assoc. f_equiv. apply Permutation_app_comm.
  - rewrite Hp in Hr. by apply Forall_app in Hr as [_ ?].
  - unfold writer_ok in *. cbn [writing closed ctx_err group_err conn fail set_todo].
    destruct (writing s) as [|[e'|]]; try done.
    split_and!; [apply Hw|apply eg_ctx_Some|apply eg_err_Some|apply Hw].
  - intros _. split; [apply eg_err_Some|apply eg_ctx_Some].
  - intros e'. rewrite Hctx, eg_ctx_later. destruct (group_err s) as [e1|] eqn:Eg.
    + rewrite eg_err_later. intros [= <-]. rewrite <-Hctx. by apply He.
    + rewrite eg_err_first. intros [= <-]. left. destruct (Hc e Hctx) as [->|[e' Ew]]; [done|].
      unfold writer_ok in Hw. rewrite Ew in Hw. by destruct Hw as (_ & _ & ? & _).
  - rewrite Hctx, eg_ctx_later. intros e' [= <-]. by apply Hc.
Qed.

(** The writer takes a batch. *)
Lemma wrote_receive recvd sent b w batch b' w' :
  wrote recvd sent b w → sent ≠ total → run (write_batch batch b) nothing w = (Ok b', nothing, w') →
  ∀ rest, run (write_batches total 0 ((recvd ++ [batch]) ++ rest) ([], None)) nothing w0 =
    match b'.2 with
    | Some _ => (Ok b', nothing, w')
    | None => run (write_batches total (sent + length batch) rest b') nothing w'
    end.
Proof.
  intros Hw Hne E rest. rewrite <-app_assoc, Hw. cbn [app write_batches].
  rewrite decide_False by done. rewrite run_bind, E. by destruct b'.2.
Qed.

Lemma inv_receiving s recvd dropped sent b batch rest :
  inv s recvd dropped → writing s = Receiving sent b → localEncodings s = batch :: rest →
  wrote recvd sent b (conn s) ∧ sent = length (concat recvd) ∧ sent ≠ total ∧ closed s = false ∧
  (recvd ++ [batch]) ++ rest ++ batches_of (concat (todo s)) ++ dropped ≡ₚ all_batches.
Proof.
  intros [Hb Hr Hw Hd He Hc] Ew El. unfold writer_ok in Hw. rewrite Ew in Hw.
  destruct Hw as (-> & -> & _ & Hw). rewrite El in Hb. destruct (part_total recvd _ Hb) as [_ Htot].
  assert (length (concat recvd) ≠ total) as Hne by by rewrite Htot.
  split_and!; try done; [by apply bool_decide_eq_false_2|]. by rewrite <-app_assoc.
Qed.

Lemma inv_writer_receives s recvd dropped sent b batch rest b' w c :
  inv s recvd dropped → writing s = Receiving sent b → localEncodings s = batch :: rest →
  run (write_batch batch b) nothing (conn s) = (Ok b', nothing, w) → b'.2 = None →
  c = bool_decide (sent + length batch = total)%nat →
  inv (set_writing c (Receiving (sent + length batch) b') w (set_channel rest s))
    (recvd ++ [batch]) dropped.
Proof.
  intros Hi Ew El E Hb' ->. destruct (inv_receiving _ _ _ _ _ _ _ Hi Ew El) as (Hw & -> & Hne & _ & Hp).
  destruct Hi as [Hb Hr _ Hd He Hc].
  split; cbn [localEncodings todo set_writing set_channel writing closed ctx_err group_err conn]; try done.
  - unfold writer_ok. cbn [writing closed conn set_writing set_channel]. split_and!; try done.
    + rewrite concat_app, length_app. cbn [concat]. by rewrite app_nil_r.
    + intros rest'. rewrite (wrote_receive _ _ _ _ _ _ _ Hw Hne E rest'). by rewrite Hb'.
  - intros e Eg. rewrite Ew in He. destruct (He e Eg) as [?|?]; [by left|done].
  - intros e Eg. rewrite Ew in Hc. destruct (Hc e Eg) as [?|[? ?]]; [by left|done].
Qed.

Lemma inv_writer_fails s recvd dropped sent b batch rest b' w b'' w' e :
  inv s recvd dropped → writing s = Receiving sent b → localEncodings s = batch :: rest →
  run (write_batch batch b) nothing (conn s) = (Ok b', nothing, w) → b'.2 = Some e →
  run (bufio_Flush b') nothing w = (Ok b'', nothing, w') →
  inv (fail (Wrapped "stage3" e)
    (set_writing (closed s) (WriterDone (Some (Wrapped "stage3" e))) w' (set_channel rest s)))
    (recvd ++ [batch]) dropped.
Proof.
  intros Hi Ew El E Hb' Ef. destruct (inv_receiving _ _ _ _ _ _ _ Hi Ew El) as (Hw & _ & Hne & Hcl & Hp).
  destruct Hi as [Hb Hr _ Hd He Hc].
  split; cbn [localEncodings todo fail set_writing set_channel writing closed ctx_err group_err conn]; try done.
  - unfold writer_ok. cbn [writing closed ctx_err group_err conn fail set_writing set_channel].
    split_and!; [done|apply eg_ctx_Some|apply eg_err_Some|].
    intros rest'. unfold writer. rewrite run_bind, (wrote_receive _ _ _ _ _ _ _ Hw Hne E rest'), Hb'.
    by rewrite run_bind, Ef, Hb'.
  - intros _. split; [apply eg_err_Some|apply eg_ctx_Some].
  - intros e' Eg. destruct (group_err s) as [e1|] eqn:Eg1.
    2: { rewrite eg_err_first in Eg. injection Eg as <-. by right. }
    rewrite eg_err_later in Eg. injection Eg as <-. left. rewrite Ew in He.
    destruct (He e1 eq_refl) as [[-> ->]|?]; [split; [done|apply eg_ctx_later]|done].
  - intros e' _. right. by eexists.
Qed.

Lemma inv_writer_ends s recvd dropped sent b b' w :
  inv s recvd dropped → writing s = Receiving sent b → localEncodings s = [] → closed s = true →
  run (bufio_Flush b) nothing (conn s) = (Ok b', nothing, w) →
  inv (set_writing true (WriterDone None) w s) recvd dropped.
Proof.
  intros [Hb Hr Hw Hd He Hc] Ew El Hcl Ef. unfold writer_ok in Hw. rewrite Ew, Hcl in Hw.
  destruct Hw as (-> & Htot & Hb2 & Hw). symmetry in Htot. apply bool_decide_eq_true in Htot.
  pose proof (proj1 (proj2 (part_total recvd _ Hb)) Htot) as Hnil. rewrite El in Hb, Hnil.
  split; cbn [localEncodings todo set_writing writing closed ctx_err group_err conn]; try done.
  - by rewrite El.
  - unfold writer_ok. cbn [writing conn set_writing]. split; [by rewrite <-Hb, Hnil, app_nil_r|].
    unfold writer. specialize (Hw []). rewrite app_nil_r in Hw. rewrite run_bind, Hw, Htot.
    assert (write_batches total total [] b = pure (Ok b)) as ->.
    { cbn [write_batches]. by rewrite decide_True. }
    cbn [run pure]. by rewrite run_bind, Ef, Hb2.
  - intros e Eg. rewrite Ew in He. destruct (He e Eg) as [?|?]; [by left|done].
  - intros e Eg. rewrite Ew in Hc. destruct (Hc e Eg) as [?|[? ?]]; [by left|done].
Qed.

Lemma inv_goroutine s recvd dropped c' :
  inv s recvd dropped → goroutine_step (Working s) c' →
  ∃ s' recvd' dropped', c' = Working s' ∧ inv s' recvd' dropped'.
Proof.
  intros Hi Hs. inversion Hs; subst.
  - do 3 eexists. split; [done|]. by eapply inv_worker_sends.
  - edestruct inv_worker_done as [dropped' Hi']; [done..|]. by do 3 eexists.
  - match goal with Ht : todo s !! w = _ |- _ => destruct (inv_job _ _ _ _ _ _ Hi Ht) as (E & _) end. congruence.
  - match goal with Ht : todo s !! w = _ |- _ => destruct (inv_job _ _ _ _ _ _ Hi Ht) as (_ & E & _) end. congruence.
  - do 3 eexists. split; [done|]. eapply inv_writer_receives; [done..|].
    edestruct inv_receiving as (_ & _ & _ & -> & _); [done..|]. symmetry. by apply bool_decide_eq_false_2.
  - do 3 eexists. split; [done|]. eapply inv_writer_receives; [done..|].
    symmetry. by apply bool_decide_eq_true_2.
  - edestruct inv_receiving as (_ & _ & _ & ? & _); [done..|]. congruence.
  - do 3 eexists. split; [done|]. by eapply inv_writer_fails.
  - do 3 eexists. split; [done|]. by eapply inv_writer_ends.
Qed.

Lemma inv_cancelled s recvd dropped :
  inv s recvd dropped → ctx_err s = None → inv (set_ctx cancel s) recvd dropped.
Proof.
  intros [Hb Hr Hw Hd He Hc] Ectx.
  split; cbn [localEncodings todo set_ctx writing closed ctx_err group_err conn]; try done.
  - unfold writer_ok in *. cbn [writing closed ctx_err group_err conn set_ctx].
    destruct (writing s) as [|[e|]]; [done| |done]. by destruct Hw as (_ & ? & _).
  - intros Hne. by destruct (Hd Hne).
  - intros e Eg. destruct (He e Eg) as [[-> _]|?]; [by left|by right].
  - intros e [= <-]. by left.
Qed.

Lemma inv_reachable c :
  rtc stage3_step (start3 inputs w0) c → ∃ s recvd dropped, c = Working s ∧ inv s recvd dropped.
Proof.
  intros Hr. destruct (inv_start w0 eq_refl) as (s0 & E0 & Hi0). rewrite E0 in Hr. clear E0.
  assert (∃ s recvd dropped, Working s0 = Working s ∧ inv s recvd dropped) as Hc by by do 3 eexists.
  clear Hi0. revert Hc. induction Hr as [c|c1 c2 c3 Hs _ IH]; [done|].
  intros (s & recvd & dropped & -> & Hi). apply IH. inversion Hs; subst; [by eapply inv_goroutine|].
  do 3 eexists. split; [done|]. by apply inv_cancelled.
Qed.

(** ** Every run ends *)
Definition size3 (c : stage3) : nat :=
  match c with
  | Crashed _ => 0
  | Working s =>
      1 + 3 * length (concat (todo s)) + 2 * length (localEncodings s) +
      match writing s with Receiving _ _ => 1 | WriterDone _ => 0 end +
      match ctx_err s with None => 1 | Some _ => 0 end
  end.

Lemma todo_length (ls : list (list (nat * nat))) w r rest :
  ls !! w = Some (r :: rest) →
  length (concat ls) = S (length (concat (<[w := rest]> ls))) ∧
  (length (concat (<[w := []]> ls)) < length (concat ls))%nat.
Proof.
  intros Hw. split.
  - by rewrite (Permutation_length (concat_take_job ls w [r] rest Hw)).
  - rewrite <-(app_nil_r (r :: rest)) in Hw.
    rewrite (Permutation_length (concat_take_job ls w (r :: rest) [] Hw)), length_app. cbn. lia.
Qed.

Lemma step_size c c' : stage3_step c c' → (size3 c' < size3 c)%nat.
Proof.
  intros Hs. destruct Hs as [c c' Hg|s Hc]; [|cbn; rewrite Hc; lia].
  destruct Hg; cbn [size3 todo localEncodings writing ctx_err fail set_channel set_todo set_writing];
    repeat match goal with
    | Ht : todo _ !! _ = Some (_ :: _) |- _ => apply todo_length in Ht as [? ?]
    | Hw : writing _ = _ |- _ => rewrite Hw; clear Hw
    | Hl : localEncodings _ = _ |- _ => rewrite Hl; clear Hl
    end; rewrite ?length_app; cbn [length];
    try match goal with |- context [eg_ctx ?o] =>
      destruct (eg_ctx o) eqn:Eg; [clear Eg|by apply eg_ctx_Some in Eg] end;
    try match goal with |- context [ctx_err ?s] => destruct (ctx_err s) end; lia.
Qed.

Lemma stage3_sn c : sn stage3_step c.
Proof.
  remember (size3 c) as n eqn:En. revert c En. induction n as [n IH] using lt_wf_ind.
  intros c ->. constructor. intros c' Hs. eapply IH; [by apply step_size|done].
Qed.

(** ** What stops *)
Lemma worker_moves s recvd dropped :
  inv s recvd dropped → concat (todo s) ≠ [] → nf goroutine_step (Working s) →
  ctx_err s = None ∧ (capacity ≤ length (localEncodings s))%nat ∧ closed s = false.
Proof.
  intros Hi Hne Hnf. assert (∃ w r rest, todo s !! w = Some (r :: rest)) as (w & r & rest & Ht).
  { by apply todo_head. }
  destruct (inv_job _ _ _ _ _ _ Hi Ht) as (E & Hcl & _).
  destruct (ctx_err s) as [e|] eqn:Ec.
  { destruct Hnf. eexists. by eapply worker_done. }
  destruct (decide (length (localEncodings s) < capacity)%nat) as [Hlt|]; [|split_and!; [done|lia|done]].
  destruct Hnf. eexists. by eapply worker_sends.
Qed.

Lemma writer_moves s recvd dropped sent b :
  inv s recvd dropped → writing s = Receiving sent b → nf goroutine_step (Working s) →
  localEncodings s = [] ∧ closed s = false.
Proof.
  intros Hi Ew Hnf. destruct (localEncodings s) as [|batch rest] eqn:El.
  - split; [done|]. destruct (closed s) eqn:Ecl; [|done].
    destruct (run_Flush b (conn s)) as (b' & w & Ef). destruct Hnf. eexists. by eapply writer_ends.
  - exfalso. destruct (run_write_batch batch b (conn s)) as (b' & w & E).
    destruct (inv_receiving _ _ _ _ _ _ _ Hi Ew El) as (_ & _ & _ & Hcl & _).
    apply Hnf. destruct (b'.2) as [e|] eqn:Eb.
    + destruct (run_Flush b' w) as (b'' & w' & Ef). eexists. by eapply writer_fails.
    + destruct (decide (sent + length batch = total)%nat).
      * eexists. by eapply writer_closes.
      * eexists. by eapply writer_receives.
Qed.

(** When no goroutine can go on, the stage has returned, or a cancellation made a
    worker leave and the writer waits for the batches that are missing. *)
Lemma stopped s recvd dropped :
  inv s recvd dropped → nf goroutine_step (Working s) →
  concat (todo s) = [] ∧
  match writing s with
  | Receiving sent b => localEncodings s = [] ∧ closed s = false ∧ (sent < total)%nat ∧ dropped ≠ []
  | WriterDone _ => True
  end.
Proof.
  intros Hi Hnf. assert (concat (todo s) = []) as Ht.
  { destruct (concat (todo s)) as [|r l] eqn:E; [done|exfalso].
    destruct (worker_moves s recvd dropped Hi) as (Hctx & Hfull & Hcl); [by rewrite E|done|].
    pose proof (inv_writer _ _ _ Hi) as Hw. unfold writer_ok in Hw.
    destruct (writing s) as [sent b|[e|]] eqn:Ew.
    - destruct (writer_moves _ _ _ _ _ Hi Ew Hnf) as [El _]. rewrite El in Hfull.
      pose proof GOMAXPROCS_pos. unfold capacity in Hfull. cbn in Hfull. lia.
    - by destruct Hw as (_ & ? & _).
    - destruct Hw as [Hp _]. pose proof (inv_batches _ _ _ Hi) as Hb.
      assert (length (concat recvd) = total) as Hl by by rewrite Hp, all_total.
      apply (part_total recvd _ Hb), app_eq_nil in Hl as [_ [Hl _]%app_eq_nil]. by rewrite E in Hl. }
  split; [done|]. destruct (writing s) as [sent b|] eqn:Ew; [|done].
  destruct (writer_moves _ _ _ _ _ Hi Ew Hnf) as [El Hcl].
  pose proof (inv_writer _ _ _ Hi) as Hw. unfold writer_ok in Hw. rewrite Ew in Hw.
  destruct Hw as (-> & Hc & _). rewrite Hcl in Hc. symmetry in Hc. apply bool_decide_eq_false in Hc.
  pose proof (inv_batches _ _ _ Hi) as Hb. rewrite El, Ht in Hb. cbn in Hb.
  destruct (part_total recvd dropped Hb) as [Hle Heq]. split_and!; [done|done|lia|]. by rewrite <-Heq.
Qed.

(** ** The runs of the stage *)
Definition stage3_result (s : group) : Prop :=
  match group_err s with
  | None => ∃ batches, batches ≡ₚ all_batches ∧
      run (writer total batches) nothing w0 = (Ok (), nothing, conn s)
  | Some e => (e = cancel ∧ ctx_err s = Some cancel) ∨
      ∃ batches, batches ≡ₚ all_batches ∧
        run (writer total batches) nothing w0 = (Err e, nothing, conn s)
  end.

Definition stage3_waits (s : group) : Prop :=
  blocked inputs s ∧ ctx_err s = Some cancel ∧ group_err s = Some cancel ∧
  ∃ recvd dropped, recvd ++ dropped ≡ₚ all_batches ∧ dropped ≠ [] ∧
    run (writer total recvd) nothing w0 = (Panic "all goroutines are asleep", nothing, conn s).

Lemma inv_result s recvd dropped : inv s recvd dropped → returned s → stage3_result s.
Proof.
  intros [Hb Hr Hw Hd He Hc] [Ht [x Ew]]. unfold stage3_result. unfold writer_ok in Hw. rewrite Ew in *.
  destruct (group_err s) as [e|] eqn:Eg.
  - destruct (He e eq_refl) as [?|[= ->]]; [by left|right]. destruct Hw as (_ & _ & _ & Hw).
    eexists. split; [exact Hb|apply Hw].
  - destruct x as [e|]; [by destruct Hw as (_ & _ & ? & _)|]. by exists recvd.
Qed.

Lemma inv_waits s recvd dropped sent b :
  inv s recvd dropped → writing s = Receiving sent b → localEncodings s = [] → closed s = false →
  concat (todo s) = [] → (sent < total)%nat → dropped ≠ [] → stage3_waits s.
Proof.
  intros [Hb Hr Hw Hd He Hc] Ew El Hcl Ht Hlt Hne. destruct (Hd Hne) as [Hg Hx].
  split; [split_and!; [done..|]; by exists sent, b|].
  destruct (ctx_err s) as [e|] eqn:Ectx; [|done]. destruct (Hc e eq_refl) as [->|[e' ?]]; [|congruence].
  destruct (group_err s) as [e|] eqn:Eg; [|done].
  destruct (He e eq_refl) as [[-> _]|?]; [|congruence]. split; [done|]. split; [done|].
  exists recvd, dropped. rewrite El, Ht in Hb. split; [exact Hb|]. split; [done|].
  unfold writer_ok in Hw. rewrite Ew in Hw. destruct Hw as (_ & _ & _ & Hw). specialize (Hw []).
  rewrite app_nil_r in Hw. unfold writer. rewrite run_bind, Hw. cbn [write_batches].
  by rewrite decide_False by lia.
Qed.

Lemma stage3_runs c :
  rtc stage3_step (start3 inputs w0) c →
  ∃ s, c = Working s ∧ sn stage3_step c ∧
    (nf goroutine_step c → (returned s ∧ stage3_result s) ∨ stage3_waits s).
Proof.
  intros Hr. destruct (inv_reachable c Hr) as (s & recvd & dropped & -> & Hi).
  exists s. split; [done|]. split; [apply stage3_sn|]. intros Hnf.
  destruct (stopped _ _ _ Hi Hnf) as [Ht Hw]. destruct (writing s) as [sent b|x] eqn:Ew.
  - destruct Hw as (El & Hcl & Hlt & Hne). right. by eapply inv_waits.
  - left. assert (returned s) as Hret by (split; [done|by exists x]).
    split; [done|]. by eapply inv_result.
Qed.

(** Cancelled workers leave one after the other. *)
Lemma workers_leave s recvd dropped :
  inv s recvd dropped → ctx_err s = Some cancel →
  ∃ s', rtc stage3_step (Working s) (Working s') ∧ concat (todo s') = [] ∧ ctx_err s' = Some cancel ∧
    localEncodings s' = localEncodings s ∧ closed s' = closed s ∧ writing s' = writing s ∧
    conn s' = conn s.
Proof.
  remember (length (concat (todo s))) as n eqn:En. revert s dropped En.
  induction n as [n IH] using lt_wf_ind. intros s dropped -> Hi Hctx.
  destruct (concat (todo s)) as [|r0 l0] eqn:Et; [by exists s; split_and!|].
  assert (∃ w r rest, todo s !! w = Some (r :: rest)) as (w & r & rest & Ht).
  { apply todo_head. by rewrite Et. }
  destruct (inv_worker_done _ _ _ _ _ _ _ Hi Ht Hctx) as [dropped' Hi'].
  destruct (inv_job _ _ _ _ _ _ Hi Ht) as (E & _).
  pose proof (proj2 (todo_length _ _ _ _ Ht)) as Hlt. rewrite Et in Hlt.
  destruct (IH _ Hlt (fail cancel (set_todo w [] s)) dropped' eq_refl Hi') as (s' & Hs & Hend);
    [cbn; rewrite Hctx; apply eg_ctx_later|].
  exists s'. split; [|exact Hend]. eapply rtc_l; [|exact Hs]. apply goroutine. by eapply worker_done.
Qed.

(** Cancelled before the first batch is sent, the writer waits for good and nothing
    of it is written. *)
Lemma stage3_may_wait :
  inputs ≠ [] →
  ∃ s, rtc stage3_step (start3 inputs w0) (Working s) ∧ blocked inputs s ∧
    nf stage3_step (Working s) ∧ conn s = w0.
Proof.
  intros Hne. destruct (inv_start w0 eq_refl) as (s0 & E0 & Hi0).
  unfold start3 in *. injection E0 as <-.
  pose proof (inv_cancelled _ _ _ Hi0 eq_refl) as Hi1.
  destruct (workers_leave _ _ _ Hi1 eq_refl) as (s & Hs & Ht & Hctx & El & Hcl & Ew & Hconn).
  cbn [localEncodings closed writing conn set_ctx] in El, Hcl, Ew, Hconn.
  assert (total ≠ 0)%nat as Hn0 by by destruct inputs. rewrite bool_decide_eq_false_2 in Hcl by done.
  exists s. split; [eapply rtc_l; [by apply cancelled|exact Hs]|].
  split; [split_and!; [done..|]; exists 0%nat, ([], None); split; [done|lia]|]. split; [|done].
  intros [c' Hst]. inversion Hst as [c c1 Hg|]; subst; [|congruence].
  inversion Hg; subst; try congruence;
    match goal with Hw : todo s !! _ = Some (_ :: _) |- _ => apply todo_length in Hw as [Hw _] end;
    by rewrite Ht in *.
Qed.

(** Without a cancellation from outside, only the writer's failure cancels. *)
Lemma calm_context c :
  rtc goroutine_step (start3 inputs w0) c →
  ∀ s, c = Working s → ctx_err s = None ∨ ctx_err s = eg_ctx None.
Proof.
  unfold start3. intros Hr.
  match type of Hr with rtc _ (Working ?g) _ => set (s0 := g) in * end.
  assert (∀ s, Working s0 = Working s → ctx_err s = None ∨ ctx_err s = eg_ctx None) as Hc
    by (intros s [= <-]; by left).
  assert (eg_ctx (eg_ctx None) = eg_ctx None) as Eidem.
  { destruct (eg_ctx None) as [e|] eqn:E; [apply eg_ctx_later|done]. }
  clearbody s0. revert Hc Eidem. generalize (Working s0) Hr. clear. intros c0 Hr.
  induction Hr as [c|c1 c2 c3 Hs _ IH]; [done|]. intros Hc Eidem. apply IH; [|done]. intros s ->.
  inversion Hs; subst; cbn [ctx_err fail set_channel set_todo set_writing];
    match goal with |- context [ctx_err ?s0] => destruct (Hc s0 eq_refl) as [-> | ->] end;
    rewrite ?Eidem; by (left + right).
Qed.
End Invariant.

Lemma Wrapped_ne s e : Wrapped s e ≠ e.
Proof. revert s. induction e; intros t [=]. naive_solver. Qed.

Lemma calm_runs `{CoresLaws, ByteOps, MetroHash, ErrGroupLaws} oprfKey hasher inputs us w0 c :
  Forall2 (λ i u, encodeAndHash i oprfKey hasher = Ok u) inputs us →
  rtc (goroutine_step oprfKey hasher inputs) (start3 inputs w0) c →
  nf (goroutine_step oprfKey hasher inputs) c →
  ∃ s batches, c = Working s ∧ returned s ∧ batches ≡ₚ all_batches inputs us ∧
    run (writer (length inputs) batches) nothing w0 =
      (match group_err s with None => Ok () | Some e => Err e end, nothing, conn s).
Proof.
  intros Hus Hr Hnf.
  assert (∃ cancel, eg_ctx None ≠ Some cancel) as [cancel Hne].
  { destruct (eg_ctx None) as [e|]; [|by exists EOF]. exists (Wrapped "" e). intros [= E].
    symmetry in E. by apply Wrapped_ne in E. }
  destruct (stage3_runs oprfKey hasher inputs cancel us w0 Hus c) as (s & -> & _ & Hend).
  { eapply rtc_subrel; [|exact Hr]. intros. by apply goroutine. }
  assert (ctx_err s ≠ Some cancel) as Hctx.
  { intros Ec. pose proof (calm_context oprfKey hasher inputs w0 _ Hr s eq_refl) as [?|?]; congruence. }
  destruct (Hend Hnf) as [[Hret Hres]|(_ & Hc & _)]; [|done].
  unfold stage3_result in Hres. exists s. destruct (group_err s) as [e|].
  - destruct Hres as [[_ Hc]|(batches & Hp & E)]; [done|]. by exists batches.
  - destruct Hres as (batches & Hp & E). by exists batches.
Qed.

(** * Properties *)

(** C10: stage 3 of the KKRT sender, once the message of stage 1 is there and every
    input can be encoded, over any connection.  In every interleaving of the workers,
    the writer and a cancellation, no goroutine panics and the run is finite.  If the
    context is not cancelled, the stage can only stop by returning, and it returns, with
    the same calls of the connection, what [writer] returns for all the batches in some
    order: a failing connection also frees the workers that wait on a full channel.  If
    the context may be cancelled, the stage can also stop with its workers gone and its
    writer waiting for good for the batches they dropped: it never returns, and the
    connection has been given what [writer] writes for the batches that arrived before
    it waits, with no flush of the rest; this happens for every list of inputs but the
    empty one, down to nothing written at all. *)
Theorem stage3_under_context `{CoresLaws, ByteOps, MetroHash, ErrGroupLaws} oprfKey hasher inputs cancel us w0 :
  Forall2 (λ i u, encodeAndHash i oprfKey hasher = Ok u) inputs us →
  (∀ c, rtc (stage3_step oprfKey hasher inputs cancel) (start3 inputs w0) c →
     ∃ s, c = Working s ∧ sn (stage3_step oprfKey hasher inputs cancel) c ∧
       (nf (goroutine_step oprfKey hasher inputs) c →
          (returned s ∧ stage3_result inputs cancel us w0 s) ∨ stage3_waits inputs cancel us w0 s)) ∧
  (∀ c, rtc (goroutine_step oprfKey hasher inputs) (start3 inputs w0) c →
     nf (goroutine_step oprfKey hasher inputs) c →
     ∃ s batches, c = Working s ∧ returned s ∧ batches ≡ₚ all_batches inputs us ∧
       run (writer (length inputs) batches) nothing w0 =
         (match group_err s with None => Ok () | Some e => Err e end, nothing, conn s)) ∧
  (inputs ≠ [] →
     ∃ s, rtc (stage3_step oprfKey hasher inputs cancel) (start3 inputs w0) (Working s) ∧
       blocked inputs s ∧ nf (stage3_step oprfKey hasher inputs cancel) (Working s) ∧ conn s = w0).
Proof.
  intros Hus. split_and!.
  - intros c Hr. by apply stage3_runs.
  - intros c Hr Hnf. by eapply calm_runs.
  - intros Hne. by eapply stage3_may_wait.
Qed.

(** errgroup itself. *)
Definition first_error : ErrGroup := {|
  eg_err o e := match o with Some e' => Some e' | None => Some e end;
  eg_ctx o := match o with Some e' => Some e' | None => Some (ErrMsg "context canceled") end |}.

Lemma first_error_laws : @ErrGroupLaws first_error.
Proof. by split. Qed.

(** One input on one core: the run that is cancelled before the batch is sent. *)
Lemma stage3_under_context_witness :
  let canceled := ErrMsg "context canceled" in
  ∃ s, rtc (@stage3_step Toy.one_core generic_ops toy_metro first_error toy_key {| seed := 0 |}
        [toy_input] canceled) (@start3 Toy.one_core [toy_input] new_sink) (Working s) ∧
    blocked [toy_input] s ∧ conn s = new_sink ∧
    @stage3_waits Toy.one_core [toy_input] canceled [toy_hashes] new_sink s.
Proof.
  intros canceled.
  destruct (@stage3_under_context Toy.one_core Toy.one_core_laws generic_ops toy_metro first_error
    first_error_laws toy_key {| seed := 0 |} [toy_input] canceled [toy_hashes] new_sink)
    as (Hall & _ & Hwait).
  - constructor; [by vm_compute|constructor].
  - destruct (Hwait ltac:(done)) as (s & Hr & Hb & Hnf & Hc). exists s.
    split; [exact Hr|]. split; [exact Hb|]. split; [exact Hc|].
    destruct (Hall _ Hr) as (s' & [= <-] & _ & Hend).
    destruct Hend as [[[_ [e He]] _]|Hw]; [|clear - Hb He|exact Hw].
    + intros [c' Hs]. apply Hnf. exists c'. by apply goroutine.
    + destruct Hb as (_ & _ & _ & sent & b & Hw & _). congruence.
Defined.
