(* ===== verification/HashEngine.v ===== *)
(** * [pkg/npsi]: the hashing engine, npsi_parallel.go

    [HashAllParallel] starts a batcher that cuts the identifiers in batches, the
    shared handlers that hash a batch and pump its pairs out, and the goroutine
    that closes the channel of pairs once the wait group is empty.  A step of the
    relation is one action of one goroutine, or one rendezvous on an unbuffered
    channel.  [HashAll] of npsi.go is the reference. *)
From stdpp Require Import relations.
From S2P Require Import Prelude Words Hash.

Definition batchSize : nat := 512.

Record hashPair := { pair_x : list Z; pair_h : Z }.

(** A hash operation; its function [f] is [pump] below. *)
Record hOp := { op_hh : metro64; op_l : nat; op_x : list (list Z); op_h : list Z }.

Definition makeOp (hasher : metro64) (n : nat) : hOp :=
  {| op_hh := hasher; op_l := n; op_x := replicate n []; op_h := [] |}.

(** The batcher: accumulating [batch] up to index [i], after the loop, returned. *)
Inductive batcher :=
| Filling (batch : hOp) (i : nat)
| Flushed
| Returned.

Record engine := Engine {
  identifiers : list (list Z);          (** not yet received *)
  batching : batcher;
  handlers : list (option (hOp * nat)); (** idle, or pumping out from an index *)
  wg : Z;
  closed : bool;                        (** [pairs] is closed *)
  pairs : list hashPair                 (** received from [pairs] *)
}.

Section Engine.
Context `{MetroHash}.

(** One operation in a handler: [op.h] is filled. *)
Definition handler (op : hOp) : res hOp :=
  let! h := for_res (λ i h,
    let! xi := index (op_x op) (Z.of_nat i) in
    store h (Z.of_nat i) (Hash64 (op_hh op) xi)) 0 (op_l op) (replicate (op_l op) 0) in
  Ok {| op_hh := op_hh op; op_l := op_l op; op_x := op_x op; op_h := h |}.

(** [pairs <- hashPair{x: op.x[i], h: op.h[i]}], when [i < op.l]. *)
Definition pump (op : hOp) (i : nat) : res hashPair :=
  let! xi := index (op_x op) (Z.of_nat i) in
  let! hi := index (op_h op) (Z.of_nat i) in
  Ok {| pair_x := xi; pair_h := hi |}.

(** [wg.Done()]. *)
Definition wg_Done (n : Z) (c : Z → engine) : res engine :=
  if n - 1 <? 0 then Panic "sync: negative WaitGroup counter" else Ok (c (n - 1)).

Context (hasher : metro64).

(** What is still received from [pairs] after [n] pairs: the consumer may stop. *)
Context (receives : nat → bool).

Inductive engine_step : engine → res engine → Prop :=
| step_identifier id ids op i hs n cl out x' :
    (i < batchSize)%nat → store (op_x op) (Z.of_nat i) id = Ok x' →
    engine_step (Engine (id :: ids) (Filling op i) hs n cl out)
      (Ok (Engine ids (Filling {| op_hh := op_hh op; op_l := op_l op; op_x := x'; op_h := op_h op |} (S i)) hs n cl out))
| step_batch ids op op' hs n cl out k :
    hs !! k = Some None → handler op = Ok op' →
    engine_step (Engine ids (Filling op batchSize) hs n cl out)
      (Ok (Engine ids (Filling (makeOp hasher batchSize) 0) (<[k := Some (op', 0%nat)]> hs) (n + 1) cl out))
| step_last_batch op op' i hs n cl out k :
    (0 < i < batchSize)%nat → hs !! k = Some None →
    handler {| op_hh := op_hh op; op_l := i; op_x := op_x op; op_h := op_h op |} = Ok op' →
    engine_step (Engine [] (Filling op i) hs n cl out)
      (Ok (Engine [] Flushed (<[k := Some (op', 0%nat)]> hs) (n + 1) cl out))
| step_no_last_batch op hs n cl out :
    engine_step (Engine [] (Filling op 0) hs n cl out) (Ok (Engine [] Flushed hs n cl out))
| step_batcher_returns ids hs n cl out :
    engine_step (Engine ids Flushed hs n cl out)
      (wg_Done n (λ n, Engine ids Returned hs n cl out))
| step_pair ids b hs n out k op i p :
    hs !! k = Some (Some (op, i)) → (i < op_l op)%nat → pump op i = Ok p → receives (length out) = true →
    engine_step (Engine ids b hs n false out)
      (Ok (Engine ids b (<[k := Some (op, S i)]> hs) n false (out ++ [p])))
| step_pair_on_closed ids b hs n out k op i :
    hs !! k = Some (Some (op, i)) → (i < op_l op)%nat →
    engine_step (Engine ids b hs n true out) (Panic "send on closed channel")
| step_pumped ids b hs n cl out k op :
    hs !! k = Some (Some (op, op_l op)) →
    engine_step (Engine ids b hs n cl out)
      (wg_Done n (λ n, Engine ids b (<[k := None]> hs) n cl out))
| step_close ids b hs out :
    engine_step (Engine ids b hs 0 false out) (Ok (Engine ids b hs 0 true out)).

(** [HashAllParallel] just called, with [cores] handlers. *)
Definition engine_init (cores : nat) (ids : list (list Z)) : engine :=
  Engine ids (Filling (makeOp hasher batchSize) 0) (replicate cores None) 1 false [].

Definition engine_next (c c' : engine) : Prop := engine_step c (Ok c').

(** The receiver of the pairs may get the list [out]. *)
Definition HashAllParallel (cores : nat) (ids : list (list Z)) (out : list hashPair) : Prop :=
  ∃ c, rtc engine_next (engine_init cores ids) c ∧ nf engine_next c ∧ pairs c = out.

(** npsi.go: [HashAll]. *)
Definition HashAll (ids : list (list Z)) : list hashPair :=
  (λ id, {| pair_x := id; pair_h := Hash64 hasher id |}) <$> ids.
End Engine.

(** * Lemmas *)

Ltac step_fields :=
  cbn [pairs handlers batching identifiers wg closed] in *.

(** ** Lists with one entry replaced *)
Lemma bind_insert_Permutation {A B} (f : A → list B) (xs : list A) k a a' :
  xs !! k = Some a → f a ++ (<[k := a']> xs ≫= f) ≡ₚ f a' ++ (xs ≫= f).
Proof.
  intros Hk. rewrite <-(take_drop_middle xs k a Hk) at 2.
  rewrite insert_take_drop by by eapply lookup_lt_Some.
  rewrite !bind_app, !bind_cons. solve_Permutation.
Qed.

(** ** One operation *)
Section Operation.
Context `{MetroHash}.

Lemma handler_Ok op :
  (op_l op ≤ length (op_x op))%nat →
  handler op = Ok {| op_hh := op_hh op; op_l := op_l op; op_x := op_x op;
                     op_h := Hash64 (op_hh op) <$> take (op_l op) (op_x op) |}.
Proof.
  intros Hl. unfold handler.
  set (full := Hash64 (op_hh op) <$> take (op_l op) (op_x op)).
  assert (length full = op_l op) as Hf by (subst full; rewrite length_fmap, length_take; lia).
  destruct (for_res_invariant
    (λ i h, h = take i full ++ drop i (replicate (op_l op) 0))
    (λ i h, let! xi := index (op_x op) (Z.of_nat i) in
       store h (Z.of_nat i) (Hash64 (op_hh op) xi)) 0 (op_l op) (replicate (op_l op) 0))
    as (h' & -> & Eh); [done| |].
  - intros j s Hj ->. destruct (lookup_lt_is_Some_2 (op_x op) j) as [xj Hx]; [lia|].
    assert (full !! j = Some (Hash64 (op_hh op) xj)) as Hfj.
    { subst full. by rewrite list_lookup_fmap, lookup_take_lt, Hx by lia. }
    rewrite (Ok_index_nat _ _ _ Hx). cbn [res_bind].
    eexists. split; [apply store_Ok|].
    { rewrite length_app, length_take, length_drop, length_replicate. lia. }
    rewrite Nat2Z.id. rewrite (fill_next full) by (done || by rewrite length_replicate).
    by rewrite Nat.add_1_r.
  - cbn [res_bind]. subst h'. cbn [Nat.add].
    by rewrite take_ge, drop_ge, app_nil_r by (rewrite ?length_replicate; lia).
Qed.

Definition hashed (hasher : metro64) (id : list Z) : hashPair :=
  {| pair_x := id; pair_h := Hash64 hasher id |}.

(** An operation that went through its handler. *)
Record op_done (hasher : metro64) (op : hOp) : Prop := {
  done_hh : op_hh op = hasher;
  done_l : (op_l op ≤ length (op_x op))%nat;
  done_h : op_h op = Hash64 hasher <$> take (op_l op) (op_x op)
}.

Lemma pump_Ok hasher op i : op_done hasher op → (i < op_l op)%nat →
  ∃ id, take (op_l op) (op_x op) !! i = Some id ∧ pump op i = Ok (hashed hasher id).
Proof.
  intros [_ Hl Hh] Hi. destruct (lookup_lt_is_Some_2 (op_x op) i) as [id Hid]; [lia|].
  exists id. rewrite lookup_take_lt by lia. split; [done|].
  unfold pump. rewrite (Ok_index_nat _ _ _ Hid). cbn [res_bind].
  rewrite (Ok_index_nat _ _ (Hash64 hasher id)); [done|].
  by rewrite Hh, list_lookup_fmap, lookup_take_lt, Hid by lia.
Qed.
End Operation.

(** ** The invariant *)
Section Invariant.
Context `{MetroHash} (hasher : metro64) (ids0 : list (list Z)).

(** The pairs a handler, and the batcher, still hold. *)
Definition holding (o : option (hOp * nat)) : list hashPair :=
  match o with
  | Some (op, i) => hashed hasher <$> drop i (take (op_l op) (op_x op))
  | None => []
  end.

Definition gathering (b : batcher) : list hashPair :=
  match b with Filling op i => hashed hasher <$> take i (op_x op) | _ => [] end.

Definition is_busy (o : option (hOp * nat)) : nat := if o is Some _ then 1 else 0.
Definition busy (hs : list (option (hOp * nat))) : nat := sum_list_with is_busy hs.

Record engine_inv (c : engine) : Prop := {
  inv_pairs : pairs c ++ (handlers c ≫= holding) ++ gathering (batching c) ++
    (hashed hasher <$> identifiers c) ≡ₚ hashed hasher <$> ids0;
  inv_wg : wg c = (match batching c with Returned => 0 | _ => 1 end) + Z.of_nat (busy (handlers c));
  inv_closed : closed c = true → wg c = 0;
  inv_batching : match batching c with
    | Filling op i => (i ≤ batchSize)%nat ∧ op_hh op = hasher ∧ op_l op = batchSize ∧
                      length (op_x op) = batchSize
    | _ => identifiers c = [] end;
  inv_handlers : Forall (λ o, ∀ op i, o = Some (op, i) → op_done hasher op ∧ (i ≤ op_l op)%nat) (handlers c)
}.

Lemma engine_init_inv cores : engine_inv (engine_init hasher cores ids0).
Proof.
  assert (∀ n, replicate n None ≫= holding = []) as Eh by (induction n; done).
  assert (∀ n, busy (replicate n None) = 0%nat) as Eb by (induction n; done).
  split; cbn [engine_init pairs handlers batching identifiers wg closed].
  - by rewrite Eh.
  - by rewrite Eb.
  - done.
  - cbn [makeOp op_hh op_l op_x]. rewrite length_replicate. split; [lia|done].
  - apply Forall_replicate. by intros op i.
Qed.

(** An idle handler takes an operation on the identifiers gathered so far. *)
Lemma hand_over hs k op op' :
  hs !! k = Some None → op_hh op = hasher → (op_l op ≤ length (op_x op))%nat → handler op = Ok op' →
  (<[k := Some (op', 0%nat)]> hs ≫= holding) ≡ₚ
    (hs ≫= holding) ++ (hashed hasher <$> take (op_l op) (op_x op)) ∧
  busy (<[k := Some (op', 0%nat)]> hs) = S (busy hs) ∧ op_done hasher op' ∧ op_l op' = op_l op.
Proof.
  intros Hk Eh Hl E. rewrite handler_Ok in E by done. injection E as <-. split_and!.
  - pose proof (bind_insert_Permutation holding hs k None
      (Some ({| op_hh := op_hh op; op_l := op_l op; op_x := op_x op;
                op_h := Hash64 (op_hh op) <$> take (op_l op) (op_x op) |}, 0%nat)) Hk) as P.
    cbn [holding op_l op_x app] in P. rewrite P, drop_0. apply Permutation_app_comm.
  - pose proof (sum_insert is_busy hs k None (Some ({| op_hh := op_hh op; op_l := op_l op; op_x := op_x op;
      op_h := Hash64 (op_hh op) <$> take (op_l op) (op_x op) |}, 0%nat)) Hk) as S.
    cbn [is_busy] in S. unfold busy. lia.
  - by split; cbn; rewrite ?Eh.
  - done.
Qed.

Lemma Forall_busy hs : busy hs = 0%nat → Forall (λ o, o = None) hs.
Proof.
  induction hs as [|o hs IH]; [done|]. unfold busy. cbn [sum_list_with]. intros E.
  constructor; [by destruct o|]. apply IH. unfold busy. lia.
Qed.

Lemma busy_pos hs k op i : hs !! k = Some (Some (op, i)) → (1 ≤ busy hs)%nat.
Proof.
  intros Hk. destruct (busy hs) as [|n] eqn:E; [|lia].
  apply Forall_busy in E. eapply Forall_lookup_1 in E; [|exact Hk]. done.
Qed.

(** What is left to do: every step decreases it. *)
Definition weight (c : engine) : nat :=
  4 * length (identifiers c) +
  (match batching c with Filling _ i => 3 * i + 2 | Flushed => 1 | Returned => 0 end) +
  sum_list_with (λ o, match o with Some (op, i) => 1 + (op_l op - i) | None => 0 end)%nat (handlers c) +
  (if closed c then 0 else 1).

Lemma identifier_step_inv id ids op i hs n cl out x' :
  (i < batchSize)%nat → store (op_x op) (Z.of_nat i) id = Ok x' →
  engine_inv (Engine (id :: ids) (Filling op i) hs n cl out) →
  engine_inv (Engine ids (Filling {| op_hh := op_hh op; op_l := op_l op; op_x := x'; op_h := op_h op |} (S i)) hs n cl out).
Proof.
  intros Hi Hx [Hp Hn Hc (_ & Hh & Hl & Hlx) Hhs]. step_fields.
  rewrite store_Ok, Nat2Z.id in Hx by lia. injection Hx as <-. split; step_fields; try done.
  - rewrite <-Hp. unfold gathering. cbn [op_x].
    rewrite (take_S_r _ _ id) by (rewrite list_lookup_insert_eq by lia; done).
    rewrite take_insert_ge by lia. rewrite fmap_app. cbn [fmap list_fmap]. by rewrite <-!app_assoc.
  - cbn [op_hh op_l op_x]. rewrite length_insert. split_and!; done || lia.
Qed.

(** Handing a batch over, then going on with [b]. *)
Lemma batch_step_inv ids op op' i k b hs n cl out :
  hs !! k = Some None → (0 < i ≤ batchSize)%nat →
  handler {| op_hh := op_hh op; op_l := i; op_x := op_x op; op_h := op_h op |} = Ok op' →
  engine_inv (Engine ids (Filling op i) hs n cl out) →
  b = Filling (makeOp hasher batchSize) 0 ∨ (b = Flushed ∧ ids = []) →
  engine_inv (Engine ids b (<[k := Some (op', 0%nat)]> hs) (n + 1) cl out) ∧ op_l op' = i.
Proof.
  intros Hk Hi E [Hp Hn Hc (Hib & Hh & Hl & Hlx) Hhs] Hb. step_fields.
  eapply hand_over in E as (Ep & Eb & Hd & El); [|done..|cbn; lia]. cbn [op_l op_x] in *.
  split; [|done]. split; step_fields.
  - rewrite <-Hp. rewrite Ep. destruct Hb as [->|[-> ->]]; cbn [gathering makeOp op_x];
      rewrite ?take_0; cbn [fmap list_fmap app]; by rewrite <-?app_assoc, ?app_nil_r.
  - rewrite Eb, Hn. destruct Hb as [->|[-> _]]; lia.
  - intros ->. specialize (Hc eq_refl). lia.
  - destruct Hb as [->|[-> ->]]; [|done]. cbn [makeOp op_hh op_l op_x]. rewrite length_replicate.
    split_and!; done || lia.
  - apply Forall_insert; [done|]. intros o j [= <- <-]. split; [done|lia].
Qed.

Lemma pair_step_inv ids b hs n out k op i p :
  hs !! k = Some (Some (op, i)) → (i < op_l op)%nat → pump op i = Ok p →
  engine_inv (Engine ids b hs n false out) →
  engine_inv (Engine ids b (<[k := Some (op, S i)]> hs) n false (out ++ [p])).
Proof.
  intros Hk Hi Ep [Hp Hn Hc Hb Hhs]. step_fields.
  destruct (Forall_lookup_1 _ _ _ _ Hhs Hk op i eq_refl) as [Hd Hle].
  destruct (pump_Ok hasher op i Hd Hi) as (id & Hid & E). rewrite E in Ep. injection Ep as <-.
  split; step_fields; try done.
  - rewrite <-Hp. pose proof (bind_insert_Permutation holding hs k _ (Some (op, S i)) Hk) as P.
    unfold holding at 1 3 in P. rewrite (drop_S _ _ _ Hid) in P. cbn [fmap list_fmap app] in P.
    assert ((hs ≫= holding) ≡ₚ hashed hasher id :: (<[k := Some (op, S i)]> hs ≫= holding)) as ->.
    { apply (Permutation_app_inv_l (hashed hasher <$> drop (S i) (take (op_l op) (op_x op)))).
      rewrite <-P. by rewrite Permutation_middle. }
    by rewrite <-app_assoc.
  - pose proof (sum_insert is_busy hs k _ (Some (op, S i)) Hk) as S. cbn [is_busy] in S. unfold busy in *. lia.
  - apply Forall_insert; [done|]. intros o j [= <- <-]. split; [done|lia].
Qed.

Lemma pumped_step_inv ids b hs n cl out k op :
  hs !! k = Some (Some (op, op_l op)) →
  engine_inv (Engine ids b hs n cl out) →
  0 ≤ n - 1 ∧ engine_inv (Engine ids b (<[k := None]> hs) (n - 1) cl out).
Proof.
  intros Hk [Hp Hn Hc Hb Hhs]. step_fields.
  pose proof (busy_pos hs k op _ Hk). pose proof (sum_insert is_busy hs k _ None Hk) as S.
  cbn [is_busy] in S. unfold busy in *.
  split; [destruct b; lia|]. split; step_fields; try done.
  - rewrite <-Hp. pose proof (bind_insert_Permutation holding hs k _ None Hk) as P.
    unfold holding at 1 3 in P. rewrite drop_ge in P by (rewrite length_take; lia). cbn [fmap list_fmap app] in P.
    by rewrite P.
  - unfold busy. destruct b; lia.
  - intros ->. specialize (Hc eq_refl). destruct b; lia.
  - by apply Forall_insert.
Qed.

(** No step crashes, every step keeps the invariant and decreases the weight. *)
Lemma engine_step_inv receives c o :
  engine_step hasher receives c o → engine_inv c →
  ∃ c', o = Ok c' ∧ engine_inv c' ∧ (weight c' < weight c)%nat.
Proof.
  intros Hstep Hi. destruct Hstep as
    [id ids op i hs n cl out x' Hlt Hx|ids op op' hs n cl out k Hk E|op op' i hs n cl out k Hr Hk E
    |op hs n cl out|ids hs n cl out|ids b hs n out k op i p Hk Hlt E Hrec|ids b hs n out k op i Hk Hlt
    |ids b hs n cl out k op Hk|ids b hs out].
  - eexists. split; [done|]. split; [by eapply identifier_step_inv|].
    unfold weight. step_fields. cbn [length]. lia.
  - eapply batch_step_inv in Hi as [Hi' El]; [|exact Hk|unfold batchSize; lia| |by left].
    2: { pose proof (inv_batching _ Hi) as (_ & Hh & Hl & _). rewrite <-Hl, <-E. by destruct op. }
    eexists. split; [done|]. split; [exact Hi'|].
    pose proof (sum_insert (λ o, match o with Some (op, i) => 1 + (op_l op - i) | None => 0 end)%nat
      hs k None (Some (op', 0%nat)) Hk) as S. unfold weight. step_fields. rewrite El in S. unfold batchSize in *. lia.
  - eapply batch_step_inv in Hi as [Hi' El]; [|exact Hk|lia|exact E|by right].
    eexists. split; [done|]. split; [exact Hi'|].
    pose proof (sum_insert (λ o, match o with Some (op, i) => 1 + (op_l op - i) | None => 0 end)%nat
      hs k None (Some (op', 0%nat)) Hk) as S. unfold weight. step_fields. rewrite El in S. lia.
  - eexists. split; [done|]. destruct Hi as [Hp Hn Hc Hb Hhs]. step_fields. split; [|unfold weight; step_fields; lia].
    split; step_fields; done.
  - destruct Hi as [Hp Hn Hc Hb Hhs]. step_fields. unfold wg_Done. rewrite (proj2 (Z.ltb_ge _ _)) by lia.
    eexists. split; [done|]. split; [|unfold weight; step_fields; lia].
    split; step_fields; try done; [lia|]. intros ->. specialize (Hc eq_refl). lia.
  - eexists. split; [done|]. split; [by eapply pair_step_inv|].
    pose proof (sum_insert (λ o, match o with Some (op, i) => 1 + (op_l op - i) | None => 0 end)%nat
      hs k _ (Some (op, S i)) Hk) as S. unfold weight. step_fields. lia.
  - exfalso. destruct Hi as [_ Hn Hc _ _]. step_fields. specialize (Hc eq_refl).
    pose proof (busy_pos hs k op i Hk). destruct b; lia.
  - eapply pumped_step_inv in Hi as [Hn Hi]; [|done]. unfold wg_Done. rewrite (proj2 (Z.ltb_ge _ _)) by lia.
    eexists. split; [done|]. split; [done|].
    pose proof (sum_insert (λ o, match o with Some (op, i) => 1 + (op_l op - i) | None => 0 end)%nat
      hs k _ None Hk) as S. unfold weight. step_fields. lia.
  - eexists. split; [done|]. destruct Hi as [Hp Hn Hc Hb Hhs]. step_fields.
    split; [by split|]. unfold weight. step_fields. lia.
Qed.
Lemma idle_holding hs : Forall (λ o, o = None) hs → (hs ≫= holding) = [].
Proof. by induction 1 as [|o hs -> _ IH]. Qed.

(** What a closed channel means. *)
Lemma engine_closed c :
  engine_inv c → closed c = true →
  busy (handlers c) = 0%nat ∧ batching c = Returned ∧ pairs c ≡ₚ HashAll hasher ids0.
Proof.
  intros Hi Hcl. pose proof Hi as [Hp Hn Hc Hb _]. specialize (Hc Hcl). rewrite Hc in Hn.
  assert (busy (handlers c) = 0%nat ∧ batching c = Returned) as [Eb Er] by (destruct (batching c); split; done || lia).
  split; [done|]. split; [done|]. rewrite Er in Hp, Hb. rewrite Hb in Hp.
  assert ((handlers c ≫= holding) = []) as Eh.
  { by apply idle_holding, Forall_busy. }
  by rewrite Eh, !app_nil_r in Hp.
Qed.

End Invariant.

(** ** Whole runs *)
Section Runs.
Context `{MetroHash} (hasher : metro64) (receives : nat → bool) (ids0 : list (list Z)).
Abbreviation next := (engine_next hasher receives).

Lemma engine_run_inv cores c : rtc next (engine_init hasher cores ids0) c → engine_inv hasher ids0 c.
Proof.
  intros Hr. remember (engine_init hasher cores ids0) as c0 eqn:E.
  assert (engine_inv hasher ids0 c0) as Hi by (subst; apply engine_init_inv). clear E.
  induction Hr as [c|c1 c2 c Hs _ IH]; [done|]. apply IH.
  destruct (engine_step_inv hasher ids0 receives _ _ Hs Hi) as (c' & [= <-] & Hi' & _). done.
Qed.

Lemma engine_sn c : engine_inv hasher ids0 c → sn next c.
Proof.
  remember (weight c) as w eqn:E. revert c E.
  induction w as [w IH] using lt_wf_ind. intros c -> Hi. constructor. intros c' Hs.
  destruct (engine_step_inv hasher ids0 receives _ _ Hs Hi) as (c2 & [= <-] & Hi' & Hw).
  by eapply IH.
Qed.

(** When all handlers are idle, the run goes on until the channel is closed. *)
Lemma engine_progress_idle c :
  engine_inv hasher ids0 c → (1 ≤ length (handlers c))%nat →
  Forall (λ o, o = None) (handlers c) → closed c = true ∨ red next c.
Proof.
  intros [Hp Hn Hc Hb Hhs] Hlen Hidle. destruct c as [ids b hs n cl out]. step_fields.
  destruct cl; [by left|]. right.
  assert (busy hs = 0%nat) as Eb.
  { clear - Hidle. induction Hidle as [|o hs -> _ IH]; [done|]. unfold busy in *. by cbn. }
  rewrite Eb in Hn. destruct hs as [|o hs]; [cbn in Hlen; lia|].
  assert ((o :: hs) !! 0%nat = Some None) as Hk by (apply Forall_cons in Hidle as [-> _]; done).
  destruct b as [op i| |].
  - destruct Hb as (Hi & Hh & Hl & Hlx). destruct (decide (i = batchSize)) as [->|Hne].
    { eexists. eapply step_batch; [exact Hk|]. apply handler_Ok. lia. }
    destruct ids as [|id ids].
    + destruct (decide (i = 0)%nat) as [->|]; [eexists; apply step_no_last_batch|].
      eexists. eapply step_last_batch; [lia|exact Hk|]. apply handler_Ok. cbn. lia.
    + eexists. eapply step_identifier; [lia|]. apply store_Ok. lia.
  - subst n. eexists. apply (step_batcher_returns hasher receives ids (o :: hs) 1 false out).
  - subst n. eexists. apply step_close.
Qed.

(** A busy handler moves, unless it holds a pair that nobody receives. *)
Lemma handler_moves c k op i :
  engine_inv hasher ids0 c → closed c = false → handlers c !! k = Some (Some (op, i)) →
  i = op_l op ∨ receives (length (pairs c)) = true → red next c.
Proof.
  intros [_ Hn _ _ Hhs] Hcl Hk Hmove. destruct c as [ids b hs n cl out]. step_fields. subst cl.
  destruct (Forall_lookup_1 _ _ _ _ Hhs Hk op i eq_refl) as [Hd Hle].
  destruct (decide (i = op_l op)) as [->|Hne].
  - pose proof (busy_pos hs k op _ Hk). eexists. red.
    pose proof (step_pumped hasher receives ids b hs n false out k op Hk) as Hs.
    unfold wg_Done in Hs. rewrite (proj2 (Z.ltb_ge _ _)) in Hs by (destruct b; lia). exact Hs.
  - destruct Hmove as [|Hrec]; [done|].
    destruct (pump_Ok hasher op i Hd ltac:(lia)) as (id & _ & E).
    eexists. eapply step_pair; [exact Hk|lia|exact E|apply Hrec].
Qed.

Lemma not_idle (hs : list (option (hOp * nat))) :
  ¬ Forall (λ o, o = None) hs → ∃ k op i, hs !! k = Some (Some (op, i)).
Proof.
  intros Hbusy. apply not_Forall_Exists in Hbusy; [|intros o; apply _].
  apply Exists_exists in Hbusy as (o & Ho & Hne). destruct o as [[op i]|]; [|by destruct Hne].
  apply list_elem_of_lookup in Ho as [k Hk]. by exists k, op, i.
Qed.

(** As long as the pairs are received, every run goes on until then. *)
Lemma engine_progress c :
  engine_inv hasher ids0 c → (1 ≤ length (handlers c))%nat →
  receives (length (pairs c)) = true → closed c = true ∨ red next c.
Proof.
  intros Hi Hlen Hrec. destruct (closed c) eqn:Hcl; [by left|].
  destruct (decide (Forall (λ o, o = None) (handlers c))) as [Hidle|Hbusy].
  - rewrite <-Hcl. by apply engine_progress_idle.
  - right. destruct (not_idle _ Hbusy) as (k & op & i & Hk).
    eapply handler_moves; [done..|by right].
Qed.

Lemma engine_next_handlers c c' : next c c' → length (handlers c') = length (handlers c).
Proof.
  intros Hs. unfold engine_next in Hs. remember (Ok c') as o eqn:E.
  destruct Hs; unfold wg_Done in *; repeat case_match; simplify_eq; step_fields; by rewrite ?length_insert.
Qed.

Lemma engine_run_handlers c c' : rtc next c c' → length (handlers c') = length (handlers c).
Proof. induction 1 as [|c1 c2 c3 Hs _ IH]; [done|]. by rewrite IH, (engine_next_handlers _ _ Hs). Qed.

(** From every state some order of steps gets to the end. *)
Lemma engine_completes c :
  engine_inv hasher ids0 c → (1 ≤ length (handlers c))%nat → (∀ n, receives n = true) →
  ∃ c', rtc next c c' ∧ closed c' = true.
Proof.
  intros Hi Hl Hrec. pose proof (engine_sn c Hi) as Hsn. induction Hsn as [c _ IH].
  destruct (engine_progress c Hi Hl (Hrec _)) as [Hcl|[c1 Hs]]; [by exists c|].
  destruct (IH c1 Hs) as (c' & Hr & Hcl).
  - destruct (engine_step_inv hasher ids0 receives _ _ Hs Hi) as (c2 & [= <-] & Hi' & _). done.
  - by rewrite (engine_next_handlers _ _ Hs).
  - exists c'. split; [by eapply rtc_l|done].
Qed.

Lemma engine_closed_nf c : engine_inv hasher ids0 c → closed c = true → nf next c.
Proof.
  intros Hi Hcl [c' Hs]. destruct (engine_closed _ _ c Hi Hcl) as (Eb & Er & _).
  destruct c as [ids b hs n cl out]. step_fields. subst. unfold engine_next in Hs.
  inversion Hs; subst; pose proof (busy_pos _ _ _ _ ltac:(eassumption)); lia.
Qed.
(** A run that cannot go on with a handler busy: the handler waits for a receiver. *)
Lemma engine_blocked c :
  engine_inv hasher ids0 c → nf next c → closed c = false → ¬ Forall (λ o, o = None) (handlers c) →
  ∃ k op i, handlers c !! k = Some (Some (op, i)) ∧ (i < op_l op)%nat ∧ receives (length (pairs c)) = false.
Proof.
  intros Hi Hnf Hcl Hbusy.
  destruct (not_idle _ Hbusy) as (k & op & i & Hk). exists k, op, i. split; [done|].
  destruct (Forall_lookup_1 _ _ _ _ (inv_handlers _ _ _ Hi) Hk op i eq_refl) as [_ Hle].
  destruct (decide (i = op_l op ∨ receives (length (pairs c)) = true)) as [Hmove|Hno].
  - destruct Hnf. by eapply handler_moves.
  - split; [destruct (decide (i = op_l op)); [tauto|lia]|]. apply not_true_is_false. tauto.
Qed.

Lemma engine_received m c c' :
  (∀ n, receives n = true → n < m)%nat → rtc next c c' →
  (length (pairs c) ≤ m)%nat → (length (pairs c') ≤ m)%nat.
Proof.
  intros Hm. induction 1 as [|c1 c2 c3 Hs _ IH]; [done|]. intros Hl. apply IH.
  unfold engine_next in Hs. remember (Ok c2) as o eqn:E.
  destruct Hs; unfold wg_Done in *; repeat case_match; simplify_eq; step_fields; try done.
  rewrite length_app. cbn [length]. specialize (Hm (length out)). naive_solver lia.
Qed.
End Runs.

(** The pairs a run delivers, for clients of the engine. *)
Lemma HashAllParallel_pairs `{MetroHash} hasher cores ids out :
  (1 ≤ cores)%nat → HashAllParallel hasher (λ _, true) cores ids out → out ≡ₚ HashAll hasher ids.
Proof.
  intros Hcores (c & Hr & Hnf & <-). pose proof (engine_run_inv _ _ _ _ _ Hr) as Hi.
  assert (1 ≤ length (handlers c))%nat as Hl.
  { rewrite (engine_run_handlers _ _ _ _ Hr). cbn. by rewrite length_replicate. }
  destruct (engine_progress hasher (λ _, true) ids c Hi Hl eq_refl) as [Hcl|Hred]; [|done].
  - by destruct (engine_closed _ _ c Hi Hcl) as (_ & _ & Hp).
Qed.

Lemma HashAllParallel_total `{MetroHash} hasher cores ids :
  (1 ≤ cores)%nat → ∃ out, HashAllParallel hasher (λ _, true) cores ids out.
Proof.
  intros Hcores. destruct (engine_completes hasher (λ _, true) ids (engine_init hasher cores ids))
    as (c & Hr & Hcl); [apply engine_init_inv|cbn; by rewrite length_replicate|done|].
  exists (pairs c), c. split; [done|]. split; [|done].
  eapply engine_closed_nf; [by eapply engine_run_inv|done].
Qed.

(** ** Properties *)

(** C19: [HashAllParallel] in every interleaving of the batcher, of any number of
    handlers, of the goroutine that closes the channel and of a consumer that
    ranges over it: no goroutine sends on the closed channel and the wait group
    never goes negative, every run is finite, and a run that cannot go on has
    closed the channel after delivering the pairs of [HashAll], each exactly
    once, in some order. *)
Theorem HashAllParallel_terminates `{MetroHash} hasher cores ids c :
  (1 ≤ cores)%nat →
  rtc (engine_next hasher (λ _, true)) (engine_init hasher cores ids) c →
  (∀ m, ¬ engine_step hasher (λ _, true) c (Panic m)) ∧
  sn (engine_next hasher (λ _, true)) c ∧
  (nf (engine_next hasher (λ _, true)) c ↔ closed c = true) ∧
  (closed c = true → pairs c ≡ₚ HashAll hasher ids ∧ Forall (λ o, o = None) (handlers c)).
Proof.
  intros Hcores Hr. pose proof (engine_run_inv _ _ _ _ _ Hr) as Hi.
  pose proof (engine_run_handlers _ _ _ _ Hr) as Hl. cbn in Hl. rewrite length_replicate in Hl.
  split_and!.
  - intros m Hs. by destruct (engine_step_inv _ _ _ _ _ Hs Hi) as (c' & [=] & _).
  - by eapply engine_sn.
  - split; [|by eapply engine_closed_nf]. intros Hnf.
    by destruct (engine_progress hasher (λ _, true) ids c Hi ltac:(lia) eq_refl) as [|Hred].
  - intros Hcl. destruct (engine_closed _ _ _ Hi Hcl) as (Eb & _ & Hp).
    split; [done|]. by apply Forall_busy.
Qed.

Lemma HashAllParallel_terminates_witness :
  sn (@engine_next sample_metro {| seed := 7 |} (λ _, true))
     (engine_init {| seed := 7 |} 2 [[1]; [2]; [3]]).
Proof.
  apply (@HashAllParallel_terminates sample_metro {| seed := 7 |} 2 [[1]; [2]; [3]] _ ltac:(lia)).
  apply rtc_refl.
Defined.

(** A consumer that stops receiving after [m] pairs, as [Send] does when a
    write fails, costs the process a handler: every run that ends leaves at least
    one of the shared handlers blocked for good in the middle of its batch, so the
    next call has fewer of them. *)
Theorem HashAllParallel_abandoned `{MetroHash} hasher cores ids m c :
  (1 ≤ cores)%nat → (m < length ids)%nat →
  rtc (engine_next hasher (λ n, (n <? m)%nat)) (engine_init hasher cores ids) c →
  nf (engine_next hasher (λ n, (n <? m)%nat)) c →
  closed c = false ∧
  ∃ k op i, handlers c !! k = Some (Some (op, i)) ∧ (i < op_l op)%nat ∧ length (pairs c) = m.
Proof.
  intros Hcores Hm Hr Hnf. pose proof (engine_run_inv _ _ _ _ _ Hr) as Hi.
  pose proof (engine_run_handlers _ _ _ _ Hr) as Hl. cbn in Hl. rewrite length_replicate in Hl.
  assert (length (pairs c) ≤ m)%nat as Hle by (eapply engine_received; [|exact Hr|cbn; lia]; by intros n ?%Nat.ltb_lt).
  assert (closed c = false) as Hcl.
  { destruct (closed c) eqn:E; [|done]. destruct (engine_closed _ _ c Hi E) as (_ & _ & Hp).
    apply Permutation_length in Hp. unfold HashAll in Hp. rewrite length_fmap in Hp. lia. }
  split; [done|].
  destruct (decide (Forall (λ o, o = None) (handlers c))) as [Hidle|Hbusy].
  { destruct (engine_progress_idle hasher (λ n, (n <? m)%nat) ids c Hi ltac:(lia) Hidle); [congruence|done]. }
  destruct (engine_blocked _ _ _ _ Hi Hnf Hcl Hbusy) as (k & op & i & Hk & Hlt & Hrec).
  exists k, op, i. split_and!; [done..|]. apply Nat.ltb_ge in Hrec. lia.
Qed.

Lemma HashAllParallel_abandoned_witness :
  ∃ c, rtc (@engine_next sample_metro {| seed := 7 |} (λ n, (n <? 0)%nat))
         (engine_init {| seed := 7 |} 1 [[1]]) c ∧ closed c = false.
Proof.
  eexists. assert (∀ P Q : Prop, P → (P → Q) → P ∧ Q) as Hand by auto. apply Hand.
  - unfold engine_init. cbn [replicate].
    eapply rtc_l; [eapply step_identifier; [unfold batchSize; lia|done]|].
    eapply rtc_l; [eapply (step_last_batch _ _ _ _ _ _ _ _ _ 0); [unfold batchSize; lia|done|done]|].
    eapply rtc_l; [exact (step_batcher_returns _ _ [] _ 2 false [])|]. apply rtc_refl.
  - intros Hr. apply (@HashAllParallel_abandoned sample_metro {| seed := 7 |} 1 [[1]] 0 _ ltac:(lia)
      ltac:(cbn; lia) Hr).
    intros [c' Hs]. inversion Hs; subst; cbn in *; simplify_eq; try lia.
    destruct k as [|[|k]]; [|discriminate..].
    match goal with E : _ = Some (Some (op, _)) |- _ => injection E as E1 E2 end.
    rewrite <-E1 in E2. discriminate.
Defined.
