(* ===== verification/Npsi.v ===== *)
(** * pkg/npsi: the naive protocol

    sender.go, receiver.go and npsi.go, over the hashing engine of [HashEngine].
    The receiver, and the sender after its first read, are programs of [Proc]; the
    sender's first read is a single [Read], which may return less than the salt. *)
From stdpp Require Import relations.
From S2P Require Import Prelude Words Bits Hash IO Proc Bufio HashEngine.

(** ** npsi.go *)

(** [HashRead], [HashWrite]. *)
Definition HashRead : proc Z := let* bs := recv 8 in pure (Ok (be_get bs)).
Definition HashWrite (b : bufio) (u : Z) : proc bufio := bufio_Write default_size b (be_put 8 u).

(** The error of a call, kept as a value. *)
Fixpoint catch {A} (p : proc A) : proc (A + error) :=
  match p with
  | Done (Ok a) => Done (Ok (inl a))
  | Done (Err e) => Done (Ok (inr e))
  | Done (Panic s) => Done (Panic s)
  | Recv n k => Recv n (λ r, catch (k r))
  | Send bs k => Send bs (λ r, catch (k r))
  end.

(** [ReadAll]: what its channel delivers.  The loop stops at the first error, which
    is dropped. *)
Fixpoint ReadAll (n : nat) : proc (list Z) :=
  match n with
  | O => pure (Ok [])
  | S n' =>
      let* u := catch HashRead in
      match u with
      | inl u => let* us := ReadAll n' in pure (Ok (u :: us))
      | inr _ => pure (Ok [])
      end
  end.

(** The sticky error of a buffered writer, as the result of its call. *)
Definition write_error (b : bufio) : res unit :=
  match b.2 with Some e => Err e | None => Ok () end.

Section Npsi.
Context `{ByteOps}.

(** What a party receives from [HashAllParallel], and the order of [range] over
    its map of hashes. *)
Context (all : metro64 → list (list Z) → list hashPair).
Context (range : gmap Z (list Z) → list (Z * list Z)).

(** ** sender.go *)

(** Stage 1: [k], a single [Read]. *)
Definition npsi_sender_stage1 (r : source) : res (list Z) * source :=
  match bufio_Read default_size r SaltLength with
  | (_, Some e, r) => (Err (Wrapped "stage1" e), r)
  | (k, None, r) =>
      (if (length k =? SaltLength)%nat then Ok k else Err ErrSaltLengthMismatch, r)
  end.

(** [for hash := range sender { ... }]. *)
Fixpoint write_hashes (hashes : list hashPair) (b : bufio) : proc bufio :=
  match hashes with
  | [] => pure (Ok b)
  | hash :: hashes =>
      let* b := HashWrite b (pair_h hash) in
      let* _ := wrap_err "stage2" (pure (write_error b)) in
      write_hashes hashes b
  end.

(** Stage 2; the error of the [Flush] is dropped. *)
Definition npsi_sender_stage2 (n : Z) (identifiers : list (list Z)) (k : list Z) : proc unit :=
  let* hasher := pure (NewMetroHasher k) in
  let* b := bufio_Write default_size ([], None) (be_put 8 n) in
  let* _ := pure (write_error b) in
  let* b := write_hashes (all hasher identifiers) b in
  let* _ := bufio_Flush b in
  pure (Ok ()).

(** [Send]. *)
Definition npsi_Send (n : Z) (identifiers : list (list Z)) (r : source) (w : sink)
    : res unit * source * sink :=
  match npsi_sender_stage1 r with
  | (Ok k, r) => run (npsi_sender_stage2 n identifiers k) r w
  | (Err e, r) => (Err e, r, w)
  | (Panic s, r) => (Panic s, r, w)
  end.

(** ** receiver.go *)

(** Stage 1; the error of the [Flush] is dropped. *)
Definition npsi_receiver_stage1 (draw : nat → option (nat → Z)) : proc (list Z) :=
  let* k := pure (rand_Read draw 0 SaltLength) in
  let* b := bufio_Write default_size ([], None) k in
  let* _ := pure (write_error b) in
  let* _ := bufio_Flush b in
  pure (Ok k).

(** The two indexing loops, and the loop over the local map. *)
Definition index_remote (sender : list Z) : gmap Z bool :=
  foldl (λ m h, <[h := true]> m) ∅ sender.
Definition index_local (receiver : list hashPair) : gmap Z (list Z) :=
  foldl (λ m p, <[pair_h p := pair_x p]> m) ∅ receiver.
Definition intersect_local (remoteIDs : gmap Z bool) (localIDs : list (Z * list Z)) : list (list Z) :=
  foldl (λ intersected hx,
    if default false (remoteIDs !! hx.1) then intersected ++ [hx.2] else intersected) [] localIDs.

(** Stage 2, [stage2v2]. *)
Definition npsi_receiver_stage2 (identifiers : list (list Z)) (k : list Z) : proc (list (list Z)) :=
  let* hasher := pure (NewMetroHasher k) in
  let* n := recv_int64 in
  let* sender := ReadAll (Z.to_nat n) in
  let remoteIDs := index_remote sender in
  let localIDs := index_local (all hasher identifiers) in
  pure (Ok (intersect_local remoteIDs (range localIDs))).

(** [Intersect]. *)
Definition npsi_Intersect (draw : nat → option (nat → Z)) (identifiers : list (list Z))
    : proc (list (list Z)) :=
  let* k := npsi_receiver_stage1 draw in
  npsi_receiver_stage2 identifiers k.
End Npsi.

(** * Lemmas *)

(** ** The maps *)
Lemma index_remote_lookup us h : default false (index_remote us !! h) = bool_decide (h ∈ us).
Proof.
  unfold index_remote. induction us as [|u us IH] using rev_ind.
  - cbn. by rewrite bool_decide_false by apply not_elem_of_nil.
  - rewrite foldl_snoc. destruct (decide (u = h)) as [->|Hne].
    + rewrite lookup_insert_eq, bool_decide_true by set_solver. done.
    + rewrite lookup_insert_ne, IH by done. apply bool_decide_ext. set_solver.
Qed.

(** Identifiers with different hashes all get into the local map. *)
Lemma index_local_spec `{MetroHash} hasher rids ps h x :
  ps ≡ₚ HashAll hasher rids →
  (∀ x y, x ∈ rids → y ∈ rids → Hash64 hasher x = Hash64 hasher y → x = y) →
  index_local ps !! h = Some x ↔ x ∈ rids ∧ Hash64 hasher x = h.
Proof.
  intros Hp Hinj. transitivity ({| pair_x := x; pair_h := h |} ∈ ps).
  2: { rewrite Hp. unfold HashAll. rewrite list_elem_of_fmap. split.
       - by intros (id & [= -> ->] & Hid).
       - intros [Hx <-]. by exists x. }
  assert (∀ p q, p ∈ ps → q ∈ ps → pair_h p = pair_h q → p = q) as Hps.
  { intros p q. rewrite Hp. unfold HashAll. rewrite !list_elem_of_fmap.
    intros (a & -> & Ha) (b & -> & Hb) E. cbn in E. by rewrite (Hinj a b Ha Hb E). }
  clear Hp. revert Hps. unfold index_local. induction ps as [|p ps IH] using rev_ind; intros Hps.
  - cbn. rewrite lookup_empty. by split; [|intros ?%not_elem_of_nil].
  - rewrite foldl_snoc. rewrite elem_of_app, list_elem_of_singleton.
    assert (∀ a b, a ∈ ps → b ∈ ps → pair_h a = pair_h b → a = b) as Hps' by (intros; apply Hps; set_solver).
    specialize (IH Hps'). destruct (decide (pair_h p = h)) as [<-|Hne].
    + rewrite lookup_insert_eq. split; [intros [= <-]; right; by destruct p|].
      intros Hx. f_equal. assert (p = {| pair_x := x; pair_h := pair_h p |}) as ->; [|done].
      apply Hps; [set_solver| |done]. rewrite elem_of_app, list_elem_of_singleton. tauto.
    + rewrite lookup_insert_ne, IH by done. split; [by left|]. intros [?|<-]; done.
Qed.

Lemma intersect_local_filter remoteIDs l :
  intersect_local remoteIDs l = (filter (λ hx, default false (remoteIDs !! hx.1) = true) l).*2.
Proof.
  unfold intersect_local. induction l as [|hx l IH] using rev_ind; [done|].
  rewrite foldl_snoc, IH, filter_app, fmap_app. destruct (default false (remoteIDs !! hx.1)) eqn:E.
  - by rewrite filter_cons_True.
  - rewrite filter_cons_False by congruence. cbn. by rewrite app_nil_r.
Qed.

(** What the receiver computes from the hashes [us] it has read. *)
Lemma intersect_local_spec `{MetroHash} hasher rids ps us l :
  ps ≡ₚ HashAll hasher rids →
  (∀ x y, x ∈ rids → y ∈ rids → Hash64 hasher x = Hash64 hasher y → x = y) →
  l ≡ₚ map_to_list (index_local ps) →
  let inter := intersect_local (index_remote us) l in
  NoDup inter ∧ ∀ x, x ∈ inter ↔ x ∈ rids ∧ Hash64 hasher x ∈ us.
Proof.
  intros Hp Hinj Hl inter. subst inter. rewrite intersect_local_filter.
  assert (∀ h x, (h, x) ∈ l ↔ x ∈ rids ∧ Hash64 hasher x = h) as Hm.
  { intros h x. rewrite Hl, elem_of_map_to_list. by eapply index_local_spec. }
  split.
  - apply NoDup_fmap_2_strong; [|apply NoDup_filter; rewrite Hl; apply NoDup_map_to_list].
    intros [h x] [h' x']. rewrite !list_elem_of_filter, !Hm. cbn. intros (_ & _ & <-) (_ & _ & <-) ->. done.
  - intros x. rewrite list_elem_of_fmap. split.
    + intros ([h y] & -> & Hy). rewrite list_elem_of_filter, Hm, index_remote_lookup in Hy. cbn [fst snd] in *.
      destruct Hy as (Hu%bool_decide_eq_true & Hy & <-). done.
    + intros [Hx Hu]. exists (Hash64 hasher x, x). split; [done|].
      rewrite list_elem_of_filter, Hm, index_remote_lookup. cbn [fst]. by rewrite bool_decide_eq_true.
Qed.

(** ** The streams *)
Definition hash_bytes (us : list Z) : list Z := concat (be_put 8 <$> us).

(** [ReadAll] gets the words that are there: all [n], or those before an early end. *)
Lemma run_ReadAll n us tail w : ∀ r,
  Forall (λ u, 0 ≤ u < 2 ^ 64) us → pending r = hash_bytes us ++ tail →
  n = length us ∨ (length us < n ∧ length tail < 8)%nat →
  ∃ r', run (ReadAll n) r w = (Ok us, r', w).
Proof.
  revert us. induction n as [|n IH]; intros us r Hus Hp Hn.
  - destruct us; [|cbn in Hn; lia]. by exists r.
  - cbn [ReadAll]. unfold HashRead, recv. cbn [catch pbind run]. destruct us as [|u us].
    + destruct Hn as [|[_ Hn]]; [done|].
      destruct (ReadFull_short r 8) as (bs & e & ->); [by rewrite Hp|]. by eexists.
    + apply Forall_cons in Hus as [Hu Hus]. unfold hash_bytes in Hp. cbn [fmap list_fmap concat] in Hp.
      destruct (ReadFull_spec r 8) as (r1 & -> & _ & Hr1).
      { rewrite Hp, !length_app, length_be_put. lia. }
      rewrite <-app_assoc in Hp. rewrite Hp, drop_app_length' in Hr1 by by rewrite length_be_put.
      rewrite Hp, take_app_length' by by rewrite length_be_put.
      cbn [catch pure pbind run]. rewrite run_bind. destruct (IH us r1 Hus Hr1) as [r' ->]; [cbn in Hn; lia|].
      cbn [run pure]. rewrite be_word_roundtrip by done. by eexists.
Qed.

Lemma sends_hashes hashes buf :
  ∃ out buf', sends (write_hashes hashes (buf, None)) out (buf', None) ∧
    out ++ buf' = buf ++ hash_bytes (pair_h <$> hashes).
Proof.
  revert buf. induction hashes as [|p hashes IH]; intros buf.
  - exists [], buf. split; [apply sends_pure|]. by rewrite app_nil_r.
  - destruct (sends_Write default_size buf (be_put 8 (pair_h p))) as (o1 & b1 & H1 & E1).
    destruct (IH b1) as (o2 & b2 & H2 & E2). exists (o1 ++ o2), b2. split.
    + cbn [write_hashes]. eapply sends_bind; [exact H1|].
      exact H2.
    + unfold hash_bytes. cbn [fmap list_fmap concat].
      by rewrite <-app_assoc, E2, !app_assoc, E1.
Qed.

Lemma write_hashes_buffered hashes buf :
  (length buf + 8 * length hashes ≤ default_size)%nat →
  write_hashes hashes (buf, None) = pure (Ok (buf ++ hash_bytes (pair_h <$> hashes), None)).
Proof.
  revert buf. induction hashes as [|p hashes IH]; intros buf Hl; cbn [length] in Hl.
  - by rewrite app_nil_r.
  - cbn [write_hashes]. unfold HashWrite, bufio_Write at 1.
    rewrite decide_True by (rewrite length_be_put; lia). cbn [pbind pure wrap_err write_error snd].
    rewrite IH by (rewrite length_app, length_be_put; lia).
    unfold hash_bytes. cbn [fmap list_fmap concat]. by rewrite <-app_assoc.
Qed.

Section Parties.
Context `{ByteOpsLaws, MetroHash}.
Context (all : metro64 → list (list Z) → list hashPair).
Context (range : gmap Z (list Z) → list (Z * list Z)).

(** What the sender sends when it has the salt. *)
Definition npsi_message (n : Z) (hashes : list hashPair) : list Z :=
  be_put 8 n ++ hash_bytes (pair_h <$> hashes).

Lemma sends_stage2 n ids k :
  bytes_ok k → length k = SaltLength →
  sends (npsi_sender_stage2 all n ids k)
    (npsi_message n (all {| seed := fold_salt k |} ids)) ().
Proof.
  intros Hk Hl. unfold npsi_sender_stage2. rewrite NewMetroHasher_Ok by done.
  set (hashes := all _ ids).
  destruct (sends_Write default_size [] (be_put 8 n)) as (o1 & b1 & S1 & E1).
  destruct (sends_hashes hashes b1) as (o2 & b2 & S2 & E2).
  assert (npsi_message n hashes = o1 ++ o2 ++ b2 ++ []) as ->.
  { unfold npsi_message. rewrite app_nil_r, E2, app_assoc, E1. done. }
  cbn [pbind pure]. eapply sends_bind; [exact S1|]. cbn [write_error snd pbind].
  eapply sends_bind; [exact S2|]. eapply sends_bind; [apply sends_Flush|]. apply sends_pure.
Qed.

Lemma sends_salt draw f :
  draw 0%nat = Some f →
  sends (npsi_receiver_stage1 draw) (random_bytes f SaltLength) (random_bytes f SaltLength).
Proof.
  intros Hd. unfold npsi_receiver_stage1. rewrite (rand_Read_random _ _ _ _ Hd). cbn [pbind pure].
  destruct (sends_Write default_size [] (random_bytes f SaltLength)) as (o1 & b1 & S1 & E1).
  cbn [app] in E1. match goal with |- sends ?p _ ?r =>
    enough (sends p (o1 ++ b1 ++ []) r) as E by (rewrite app_nil_r, E1 in E; exact E) end.
  eapply sends_bind; [exact S1|]. cbn [write_error snd pbind].
  eapply sends_bind; [apply sends_Flush|]. apply sends_pure.
Qed.

(** A salt that comes in one piece is read whole. *)
Lemma stage1_salt r c cs k :
  chunks r = c :: cs → (length c ≤ default_size)%nat → take SaltLength c = k → length k = SaltLength →
  ∃ r', npsi_sender_stage1 r = (Ok k, r').
Proof.
  intros Hc Hle Hk Hl. unfold npsi_sender_stage1, bufio_Read, Read. rewrite Hc.
  rewrite bool_decide_true by done. rewrite Hk, Hl. by eexists.
Qed.

(** The receiver's result, from the hashes that reached it. *)
Lemma run_Intersect draw f rids n us tail r w :
  draw 0%nat = Some f → faultless w →
  let hasher := {| seed := fold_salt (random_bytes f SaltLength) |} in
  all hasher rids ≡ₚ HashAll hasher rids → (∀ m, range m ≡ₚ map_to_list m) →
  (∀ x y, x ∈ rids → y ∈ rids → Hash64 hasher x = Hash64 hasher y → x = y) →
  - 2 ^ 63 ≤ n < 2 ^ 63 → Forall (λ u, 0 ≤ u < 2 ^ 64) us → pending r = be_put 8 n ++ hash_bytes us ++ tail →
  Z.to_nat n = length us ∨ (length us < Z.to_nat n ∧ length tail < 8)%nat →
  ∃ inter r' w',
    run (npsi_Intersect all range draw rids) r w = (Ok inter, r', w') ∧
    written w' = written w ++ random_bytes f SaltLength ∧
    NoDup inter ∧ ∀ x, x ∈ inter ↔ x ∈ rids ∧ Hash64 hasher x ∈ us.
Proof.
  intros Hd Hw hasher Hall Hrange Hinj Hn Hus Hp Hlen.
  destruct (sends_run _ _ _ r w (sends_salt draw f Hd) Hw) as (w1 & E1 & _ & Hw1).
  unfold npsi_Intersect. rewrite run_bind, E1.
  unfold npsi_receiver_stage2.
  rewrite NewMetroHasher_Ok by (apply random_bytes_ok || apply length_random_bytes).
  fold hasher. cbn [pbind pure]. unfold recv_int64, recv. cbn [pbind run].
  destruct (ReadFull_spec r 8) as (r1 & -> & _ & Hr1).
  { rewrite Hp, length_app, length_be_put. lia. }
  rewrite Hp, drop_app_length' in Hr1 by by rewrite length_be_put.
  rewrite Hp, take_app_length' by by rewrite length_be_put.
  cbn [pbind pure]. rewrite int64_be_roundtrip by done. rewrite run_bind.
  destruct (run_ReadAll (Z.to_nat n) us tail w1 r1 Hus Hr1 Hlen) as [r2 ->]. cbn [run pure].
  destruct (intersect_local_spec hasher rids (all hasher rids) us
    (range (index_local (all hasher rids))) Hall Hinj (Hrange _)) as [Hnd Hin].
  by eexists _, r2, w1.
Qed.
End Parties.

(** * Properties *)

(** C5: the naive protocol.  For any numbers of handlers and any order in which
    they deliver the hashes of both parties, any order of the receiver's map and
    any cutting of the sender's bytes: if the salt reaches the sender in one piece
    and no two identifiers collide under it, the sender succeeds and the receiver
    returns exactly its identifiers that the sender holds, each once. *)
Theorem npsi_intersection `{ByteOpsLaws, MetroHashLaws} all_s all_r cs cr range draw f sids rids rs ws :
  let salt := random_bytes f SaltLength in
  let hasher := {| seed := fold_salt salt |} in
  (1 ≤ cs)%nat → HashAllParallel hasher (λ _, true) cs sids (all_s hasher sids) →
  (1 ≤ cr)%nat → HashAllParallel hasher (λ _, true) cr rids (all_r hasher rids) →
  (∀ m, range m ≡ₚ map_to_list m) → draw 0%nat = Some f →
  (∀ x y, x ∈ rids → y ∈ sids ++ rids → Hash64 hasher x = Hash64 hasher y → x = y) →
  Z.of_nat (length sids) < 2 ^ 63 →
  chunks rs = [salt] → faultless ws →
  ∃ rs' ws' msg,
    npsi_Send all_s (Z.of_nat (length sids)) sids rs ws = (Ok (), rs', ws') ∧
    written ws' = written ws ++ msg ∧
    ∀ rr wr tail, pending rr = msg ++ tail → faultless wr →
      ∃ inter rr' wr', run (npsi_Intersect all_r range draw rids) rr wr = (Ok inter, rr', wr') ∧
        written wr' = written wr ++ salt ∧ intersection_of sids rids inter.
Proof.
  intros salt hasher Hcs Hs Hcr Hr Hrange Hd Hinj Hn Hrs Hws.
  destruct (stage1_salt rs salt [] salt Hrs) as [rs' E1].
  { subst salt. rewrite length_random_bytes. unfold SaltLength, default_size. lia. }
  { apply take_ge. subst salt. by rewrite length_random_bytes. }
  { apply length_random_bytes. }
  destruct (sends_run _ _ _ rs' ws (sends_stage2 all_s (Z.of_nat (length sids)) sids salt
    (random_bytes_ok _ _) (length_random_bytes _ _)) Hws) as (ws' & E2 & _ & Hw).
  fold hasher in Hw.
  exists rs', ws', (npsi_message (Z.of_nat (length sids)) (all_s hasher sids)).
  split; [unfold npsi_Send; by rewrite E1|]. split; [done|]. intros rr wr tail Hp Hwr.
  pose proof (HashAllParallel_pairs hasher cs sids _ Hcs Hs) as Ps.
  assert (pair_h <$> all_s hasher sids ≡ₚ Hash64 hasher <$> sids) as Pu.
  { rewrite Ps. unfold HashAll. by rewrite <-list_fmap_compose. }
  destruct (run_Intersect all_r range draw f rids (Z.of_nat (length sids))
    (pair_h <$> all_s hasher sids) tail rr wr) as (inter & rr' & wr' & E & Hw' & Hnd & Hin);
    [done|done|by eapply HashAllParallel_pairs|done| |lia| | | |].
  - intros x y Hx Hy. apply Hinj; [done|]. set_solver.
  - rewrite Pu. apply Forall_fmap, Forall_true. intros x. apply metro_Hash64_range.
  - rewrite Hp. unfold npsi_message. by rewrite <-app_assoc.
  - left. by rewrite Pu, length_fmap, Nat2Z.id.
  - exists inter, rr', wr'. split_and!; [done..|]. split; [done|]. intros x. rewrite Hin, Pu, list_elem_of_fmap.
    split; [|intros [? ?]; split; [done|by exists x]].
    intros [Hx (y & E' & Hy)]. split; [done|]. rewrite (Hinj x y); [done..|set_solver|done].
Qed.

#[local] Instance sample_metro_laws : @MetroHashLaws sample_metro.
Proof. intros p s. unfold metro_Hash64, sample_metro. apply Z.mod_pos_bound. lia. Qed.

(** A salt of zeros. *)
Definition zero_draw (n : nat) : option (nat → Z) := Some (λ _, 0).
Definition zero_hasher : metro64 := {| seed := 0 |}.

Lemma npsi_intersection_witness :
  ∃ all_s all_r rs' ws' msg,
    @npsi_Send generic_ops all_s 2 [[1]; [2]]
      {| chunks := [replicate 32 0]; final := EOF |} new_sink = (Ok (), rs', ws') ∧
    written ws' = msg ∧
    ∃ inter rr' wr', run (@npsi_Intersect generic_ops all_r map_to_list zero_draw [[2]; [3]])
      {| chunks := [msg]; final := EOF |} new_sink = (Ok inter, rr', wr') ∧
      [2] ∈ inter ∧ [3] ∉ inter.
Proof.
  destruct (@HashAllParallel_total sample_metro zero_hasher 2 [[1]; [2]]) as [os Hs]; [lia|].
  destruct (@HashAllParallel_total sample_metro zero_hasher 3 [[2]; [3]]) as [or Hr]; [lia|].
  exists (λ _ _, os), (λ _ _, or).
  destruct (@npsi_intersection generic_ops generic_ops_laws sample_metro sample_metro_laws
    (λ _ _, os) (λ _ _, or) 2 3 map_to_list zero_draw (λ _, 0) [[1]; [2]] [[2]; [3]]
    {| chunks := [replicate 32 0]; final := EOF |} new_sink) as (rs' & ws' & msg & E & Hw & Hi).
  - lia.
  - exact Hs.
  - lia.
  - exact Hr.
  - done.
  - done.
  - intros x y Hx Hy. apply elem_of_app in Hy as [Hy|Hy]; rewrite !elem_of_cons, elem_of_nil in Hx, Hy.
    all: destruct Hx as [->|[->|[]]], Hy as [->|[->|[]]]; by vm_compute.
  - cbn. lia.
  - done.
  - done.
  - exists rs', ws', msg. split; [exact E|]. split; [exact Hw|].
    destruct (Hi {| chunks := [msg]; final := EOF |} new_sink []) as (inter & rr' & wr' & Er & _ & _ & Hin).
    { unfold pending. cbn [chunks concat]. by rewrite !app_nil_r. } { done. }
    exists inter, rr', wr'. split; [exact Er|]. rewrite !Hin. split; [set_solver|].
    intros [_ Hin']. set_solver.
Defined.

(** C34: what NPSI does with its errors.  A salt that arrives cut is refused by the
    sender although all its bytes come; a connection that fails when the sender's
    buffer is flushed at the end, with up to 511 identifiers, loses every hash while
    [Send] reports success; and a connection that ends in the middle of the hashes
    makes [Intersect] report success with the intersection of those that came. *)
Theorem npsi_errors_dropped `{ByteOpsLaws, MetroHash} all range draw f n sids rids r w :
  let salt := random_bytes f SaltLength in
  let hasher := {| seed := fold_salt salt |} in
  (∀ c cs, chunks r = c :: cs → (length c < SaltLength)%nat →
    ∃ r', npsi_Send all n sids r w = (Err ErrSaltLengthMismatch, r', w)) ∧
  (∀ e, chunks r = [salt] → (length (all hasher sids) ≤ 511)%nat → faults w (calls w) = Some (e, 0%nat) →
    ∃ r' w', npsi_Send all n sids r w = (Ok (), r', w') ∧ written w' = written w) ∧
  (∀ us tail, draw 0%nat = Some f → faultless w → all hasher rids ≡ₚ HashAll hasher rids →
    (∀ m, range m ≡ₚ map_to_list m) →
    (∀ x y, x ∈ rids → y ∈ rids → Hash64 hasher x = Hash64 hasher y → x = y) →
    - 2 ^ 63 ≤ n < 2 ^ 63 → Forall (λ u, 0 ≤ u < 2 ^ 64) us →
    pending r = be_put 8 n ++ hash_bytes us ++ tail →
    (length us < Z.to_nat n ∧ length tail < 8)%nat →
    ∃ inter r' w', run (npsi_Intersect all range draw rids) r w = (Ok inter, r', w') ∧
      NoDup inter ∧ ∀ x, x ∈ inter ↔ x ∈ rids ∧ Hash64 hasher x ∈ us).
Proof.
  intros salt hasher. split_and!.
  - intros c cs Hc Hl. unfold npsi_Send, npsi_sender_stage1, bufio_Read, Read. rewrite Hc.
    unfold SaltLength, default_size in *. rewrite bool_decide_true by lia.
    rewrite take_ge by lia. rewrite (proj2 (Nat.eqb_neq _ _)) by lia. by eexists.
  - intros e Hr Hl Hf.
    destruct (stage1_salt r salt [] salt Hr) as [r' E1].
    { subst salt. rewrite length_random_bytes. unfold SaltLength, default_size. lia. }
    { apply take_ge. subst salt. by rewrite length_random_bytes. }
    { apply length_random_bytes. }
    unfold npsi_Send. rewrite E1. unfold npsi_sender_stage2.
    rewrite NewMetroHasher_Ok by (apply random_bytes_ok || apply length_random_bytes).
    fold hasher. cbn [pbind pure]. unfold bufio_Write at 1. cbn [length app].
    rewrite decide_True by (rewrite length_be_put; unfold default_size; lia).
    cbn [pbind pure write_error snd].
    rewrite write_hashes_buffered by (rewrite length_be_put; unfold default_size; lia).
    cbn [pbind pure]. destruct (be_put 8 n) as [|b bs] eqn:Eb.
    { apply (f_equal length) in Eb. by rewrite length_be_put in Eb. }
    cbn [app bufio_Flush pbind try_send run]. unfold Write. rewrite Hf. cbn [run pbind].
    eexists _, _. split; [done|]. cbn [written take]. by rewrite app_nil_r.
  - intros us tail Hd Hw Hall Hrange Hinj Hn Hus Hp Hlen.
    destruct (run_Intersect all range draw f rids n us tail r w) as (inter & r' & w' & E & _ & Hr);
      [done..|by right|]. by exists inter, r', w'.
Qed.

Lemma npsi_errors_dropped_witness :
  ∃ r' w', @npsi_Send generic_ops (@HashAll sample_metro) 1 [[1]]
    {| chunks := [replicate 32 0]; final := EOF |}
    {| written := []; calls := 0; faults := λ _, Some (ErrMsg "reset", 0%nat) |} = (Ok (), r', w') ∧
    written w' = [].
Proof.
  apply (proj1 (proj2 (@npsi_errors_dropped generic_ops generic_ops_laws sample_metro
    (@HashAll sample_metro) map_to_list zero_draw (λ _, 0) 1 [[1]] [[1]]
    {| chunks := [replicate 32 0]; final := EOF |}
    {| written := []; calls := 0; faults := λ _, Some (ErrMsg "reset", 0%nat) |})) (ErrMsg "reset")).
  - done.
  - cbn. lia.
  - done.
Defined.
