(* ===== verification/NpsiHostile.v ===== *)
(** * pkg/npsi: the naive protocol against a peer that does not follow it

    Both parties of [Npsi] under the judgement of [Wp]. *)
From S2P Require Import Prelude Words Bits Hash IO Proc Bufio HashEngine Npsi Wp.

(** * Lemmas *)
Lemma wp_catch {A} (p : proc A) (Q : A + error → Prop) :
  wp p (λ a, Q (inl a)) → (∀ e, Q (inr e)) → wp (catch p) Q.
Proof.
  intros Hp He. induction p as [[a|e|s]|n k IH|bs k IH]; cbn [wp catch] in *; auto.
  - destruct Hp as [H1 H2]. split; intros; apply IH; auto.
  - destruct Hp as (H1 & H2 & H3). split_and!; [done|by apply IH|]. intros; apply IH; auto.
Qed.

Lemma wp_ReadAll n : wp (ReadAll n) (λ _, True).
Proof.
  induction n as [|n IH]; cbn [ReadAll]; [done|]. apply wp_bind, wp_catch; [|done].
  apply wp_bind, wp_recv. intros bs _ _. apply wp_bind. by eapply wp_mono.
Qed.

Lemma wp_write_error {B} b (f : () → proc B) Q :
  wp (f ()) Q → wp (pbind (pure (write_error b)) f) Q.
Proof. intros Hf. apply wp_bind, wp_pure. unfold write_error. by destruct b.2. Qed.

Lemma wp_write_hashes hashes b :
  bytes_ok b.1 → wp (write_hashes hashes b) (λ b', bytes_ok b'.1).
Proof.
  revert b. induction hashes as [|hash hashes IH]; intros b Hb; cbn [write_hashes]; [done|].
  apply wp_bind, wp_bufio_Write; [done|auto with wp|]. intros b' Hb'.
  apply wp_bind, wp_wrap_err, wp_pure. unfold write_error. destruct b'.2; [done|]. by apply IH.
Qed.

(** Under any hashes of the remote side, the result holds identifiers of the map,
    each once. *)
Lemma intersect_local_range `{MetroHash} hasher rids ps m l :
  ps ≡ₚ HashAll hasher rids → l ≡ₚ map_to_list (index_local ps) →
  NoDup (intersect_local m l) ∧ intersect_local m l ⊆ rids.
Proof.
  intros Hp Hl. rewrite intersect_local_filter.
  assert (∀ h x, (h, x) ∈ l → x ∈ rids ∧ h = Hash64 hasher x) as Hm.
  { intros h x. rewrite Hl, elem_of_map_to_list. intros Hx.
    assert ({| pair_x := x; pair_h := h |} ∈ ps) as Hin.
    { revert Hx. unfold index_local. clear Hp Hl. induction ps as [|p ps IH] using rev_ind; [done|].
      rewrite foldl_snoc. intros [[<- <-]|[_ Hx]]%lookup_insert_Some.
      - destruct p. set_solver.
      - set_solver. }
    rewrite Hp in Hin. apply list_elem_of_fmap in Hin as (id & [= -> ->] & Hid). done. }
  split.
  - apply NoDup_fmap_2_strong; [|apply NoDup_filter; rewrite Hl; apply NoDup_map_to_list].
    intros [h x] [h' x'] [_ H1]%list_elem_of_filter [_ H2]%list_elem_of_filter E. cbn [snd] in E. subst x'.
    destruct (Hm _ _ H1) as [_ ->]. by destruct (Hm _ _ H2) as [_ ->].
  - intros x ([h y] & -> & [_ Hy]%list_elem_of_filter)%list_elem_of_fmap. by destruct (Hm _ _ Hy).
Qed.

Section Npsi.
Context `{ByteOpsLaws, MetroHash}.
Context (all : metro64 → list (list Z) → list hashPair).
Context (range : gmap Z (list Z) → list (Z * list Z)).
Context (ids : list (list Z)).
Hypothesis Hall : ∀ hasher, all hasher ids ≡ₚ HashAll hasher ids.
Hypothesis Hrange : ∀ m, range m ≡ₚ map_to_list m.

Lemma wp_sender_stage2 n k :
  length k = SaltLength → bytes_ok k → wp (npsi_sender_stage2 all n ids k) (λ _, True).
Proof.
  intros Hl Hb. unfold npsi_sender_stage2. eapply wp_Ok; [by apply NewMetroHasher_Ok|].
  apply wp_bind, wp_bufio_Write; [done|auto with wp|]. intros b Hb'. apply wp_write_error.
  apply wp_bind. eapply wp_mono; [by apply wp_write_hashes|]. intros b' Hb2.
  by apply wp_bind, wp_Flush.
Qed.

Lemma wp_npsi_Intersect draw :
  wp (npsi_Intersect all range draw ids) (λ inter, NoDup inter ∧ inter ⊆ ids).
Proof.
  unfold npsi_Intersect, npsi_receiver_stage1. apply wp_bind, wp_rand_Read. intros k Hl Hb.
  apply wp_bind, wp_bufio_Write; [done..|]. intros b Hb'. apply wp_write_error.
  apply wp_bind, wp_Flush; [done|]. intros _ _. apply wp_pure. cbn [no_panic].
  unfold npsi_receiver_stage2. eapply wp_Ok; [by apply NewMetroHasher_Ok|].
  apply wp_bind, wp_recv_int64. intros n _. apply wp_bind. eapply wp_mono; [apply wp_ReadAll|].
  intros us _. apply wp_pure. cbn [no_panic]. eapply intersect_local_range; [apply Hall|apply Hrange].
Qed.

(** The sender's first read. *)
Lemma sender_stage1_bytes r :
  bytes_ok (pending r) → let '(x, r') := npsi_sender_stage1 r in
  no_panic (λ k, length k = SaltLength ∧ bytes_ok k) x ∧ bytes_ok (pending r').
Proof.
  unfold npsi_sender_stage1, bufio_Read, Read, pending. intros Hr.
  destruct (chunks r) as [|c cs] eqn:Ec; [by rewrite Ec|]. cbn [concat] in Hr.
  apply bytes_ok_app in Hr as [Hc Hcs].
  assert (∀ c' (k := take SaltLength c'), bytes_ok c' →
    no_panic (λ k, length k = SaltLength ∧ bytes_ok k)
      (if (length k =? SaltLength)%nat then Ok k else Err ErrSaltLengthMismatch)) as Hk.
  { intros c' k Hc'. destruct (Nat.eqb_spec (length k) SaltLength); [|done].
    split; [done|by apply Forall_take]. }
  case_bool_decide; cbn [chunks concat]; rewrite ?bytes_ok_app;
    split_and!; repeat first [done|apply Hk|apply Forall_drop|apply Forall_take].
Qed.
End Npsi.

(** * Properties *)

(** C8: the naive protocol with a peer that sends any bytes, cut anywhere, over a
    connection whose calls may fail.  Neither party panics and both write nothing but
    bytes; the identifiers the receiver reports without error are its own, each once,
    even when hashes collide. *)
Theorem npsi_hostile_peer `{ByteOpsLaws, MetroHash} all range draw n ids r w :
  (∀ hasher, all hasher ids ≡ₚ HashAll hasher ids) → (∀ m, range m ≡ₚ map_to_list m) →
  bytes_ok (pending r) → bytes_ok (written w) →
  (let '(x, _, w') := npsi_Send all n ids r w in
    no_panic (λ _, True) x ∧ bytes_ok (written w')) ∧
  (let '(x, _, w') := run (npsi_Intersect all range draw ids) r w in
    no_panic (λ inter, NoDup inter ∧ inter ⊆ ids) x ∧ bytes_ok (written w')).
Proof.
  intros Hall Hrange Hr Hw. split.
  - unfold npsi_Send. pose proof (sender_stage1_bytes r Hr) as Hs1.
    destruct (npsi_sender_stage1 r) as [[k|e|s] r1]; destruct Hs1 as [Hk Hr1]; [|done..].
    destruct Hk as [Hl Hb]. pose proof (wp_run _ _ r1 w (wp_sender_stage2 all ids n k Hl Hb) Hr1 Hw) as Hp.
    destruct (run _ r1 w) as [[x r2] w2]. by destruct Hp as (? & _ & ?).
  - pose proof (wp_run _ _ r w (wp_npsi_Intersect all range ids Hall Hrange draw) Hr Hw) as Hp.
    destruct (run _ r w) as [[x r2] w2]. by destruct Hp as (? & _ & ?).
Qed.

(** A sender that announces [-1] hashes and stops in the middle of one. *)
Definition hostile_bytes : source := {| chunks := [be_put 8 (-1); [9; 9]]; final := EOF |}.

Lemma npsi_hostile_peer_witness :
  let '(x, _, w') := run (@npsi_Intersect generic_ops (@HashAll sample_metro) map_to_list zero_draw
      [[2]; [3]]) hostile_bytes new_sink in
  no_panic (λ inter, NoDup inter ∧ inter ⊆ [[2]; [3]]) x ∧ bytes_ok (written w').
Proof.
  apply (proj2 (@npsi_hostile_peer generic_ops generic_ops_laws sample_metro (@HashAll sample_metro)
    map_to_list zero_draw 0 [[2]; [3]] hostile_bytes new_sink
    (λ _, reflexivity _) (λ _, reflexivity _) ltac:(by apply (bool_decide_unpack _); vm_compute)
    ltac:(constructor))).
Defined.
