(* ===== verification/Bpsi.v ===== *)
(** * pkg/bpsi: the Bloom filter protocol

    bpsi.go, sender.go and receiver.go.  The filter itself is third-party code
    (bits-and-blooms): a class of operations with a class of laws.  The protocol is
    written against the interface [bloomfilter] of bpsi.go, which [bitsAndBloom]
    implements. *)
From stdpp Require Import relations.
From S2P Require Import Prelude Words IO Proc.

(** ** The library

    [bloom_WriteTo] and [bloom_ReadFrom] also return the number of bytes. *)
Class Bloom := {
  BloomFilter : Type;
  NewWithEstimates : Z → BloomFilter;       (** for the fixed false positive rate *)
  bloom_Add : BloomFilter → list Z → BloomFilter;
  bloom_Test : BloomFilter → list Z → bool;
  bloom_WriteTo : BloomFilter → proc Z;
  bloom_ReadFrom : proc (BloomFilter * Z)
}.

(** Its documentation: no false negatives, and [ReadFrom] reads what [WriteTo]
    wrote. *)
Class BloomLaws `{Bloom} : Prop := {
  Test_Add f x : bloom_Test (bloom_Add f x) x = true;
  Test_Add_mono f x y : bloom_Test f x = true → bloom_Test (bloom_Add f y) x = true;
  WriteTo_ReadFrom f : ∃ n f' n', exchange (bloom_WriteTo f) bloom_ReadFrom n (f', n') ∧
    ∀ x, bloom_Test f' x = bloom_Test f x
}.

(** ** bpsi.go *)

(** The second constant of the block that starts with [FalsePositive]. *)
Definition BloomfilterTypeBitsAndBloom : Z := 1.

(** The interface. *)
Class bloomfilter (T : Type) := {
  Add : T → list Z → T;
  Check : T → list Z → bool;
  WriteTo : T → proc Z
}.

Record bitsAndBloom `{Bloom} := { bf : BloomFilter }.

#[export] Instance bitsAndBloom_bloomfilter `{Bloom} : bloomfilter bitsAndBloom := {
  Add b identifier := {| bf := bloom_Add (bf b) identifier |};
  Check b identifier := bloom_Test (bf b) identifier;
  WriteTo b := bloom_WriteTo (bf b)
}.

Definition NewBloomfilter `{Bloom} (t n : Z) : res bitsAndBloom :=
  if t =? BloomfilterTypeBitsAndBloom then Ok {| bf := NewWithEstimates (wrap 64 n) |}
  else Err (ErrMsg "unsupported bloomfilter type").

Definition ReadFrom `{Bloom} : proc (bitsAndBloom * Z) :=
  let* ' (b, n) := bloom_ReadFrom in
  pure (Ok ({| bf := b |}, n)).

Definition max (a b : Z) : Z := if a >? b then a else b.

(** ** sender.go *)
Section Sender.
Context {T : Type} `{bloomfilter T}.

Definition bpsi_sender_stage1 (b : T) (identifiers : list (list Z)) : T :=
  foldl Add b identifiers.

Definition bpsi_sender_stage2 (b : T) : proc unit :=
  let* _ := WriteTo b in
  pure (Ok ()).

(** ** receiver.go *)
Fixpoint check_all (b : T) (identifiers intersection : list (list Z)) : list (list Z) :=
  match identifiers with
  | [] => intersection
  | identifier :: identifiers =>
      check_all b identifiers
        (if Check b identifier then intersection ++ [identifier] else intersection)
  end.
End Sender.

(** [Send]: the error of [NewBloomfilter] is dropped, the filter would be nil. *)
Definition bpsi_Send `{Bloom} (n : Z) (identifiers : list (list Z)) : proc unit :=
  match NewBloomfilter BloomfilterTypeBitsAndBloom n with
  | Ok b => bpsi_sender_stage2 (bpsi_sender_stage1 b identifiers)
  | _ => pure (Panic "invalid memory address or nil pointer dereference")
  end.

(** [Intersect]. *)
Definition bpsi_receiver_stage1 `{Bloom} : proc bitsAndBloom :=
  let* ' (b, _) := ReadFrom in
  pure (Ok b).

Definition bpsi_receiver_stage2 `{Bloom} (b : bitsAndBloom) (identifiers : list (list Z))
    : proc (list (list Z)) :=
  pure (Ok (check_all b identifiers [])).

Definition bpsi_Intersect `{Bloom} (identifiers : list (list Z)) : proc (list (list Z)) :=
  let* b := bpsi_receiver_stage1 in
  bpsi_receiver_stage2 b identifiers.

(** * Lemmas *)

(** What the protocol needs of an implementation of the interface. *)
Class bloomfilterLaws (T : Type) `{bloomfilter T} : Prop := {
  Check_Add (b : T) x : Check (Add b x) x = true;
  Check_Add_mono (b : T) x y : Check b x = true → Check (Add b y) x = true
}.

#[export] Instance bitsAndBloom_laws `{BloomLaws} : bloomfilterLaws bitsAndBloom.
Proof. split; intros b; [apply Test_Add|apply Test_Add_mono]. Qed.

Section Client.
Context {T : Type} `{bloomfilterLaws T}.

Lemma Check_stage1_mono (b : T) ids x : Check b x = true → Check (bpsi_sender_stage1 b ids) x = true.
Proof.
  unfold bpsi_sender_stage1. revert b. induction ids as [|id ids IH]; intros b Hx; [done|].
  by apply IH, Check_Add_mono.
Qed.

(** Everything the sender loaded is found. *)
Lemma Check_stage1 (b : T) ids x : x ∈ ids → Check (bpsi_sender_stage1 b ids) x = true.
Proof.
  intros Hx. apply list_elem_of_split in Hx as (l1 & l2 & ->).
  unfold bpsi_sender_stage1. rewrite foldl_app. cbn [foldl].
  apply Check_stage1_mono, Check_Add.
Qed.

Lemma check_all_filter (b : T) ids acc :
  check_all b ids acc = acc ++ filter (λ x, Check b x = true) ids.
Proof.
  revert acc. induction ids as [|id ids IH]; intros acc; cbn [check_all].
  - by rewrite app_nil_r.
  - rewrite IH. destruct (Check b id) eqn:E.
    + by rewrite filter_cons_True, <-app_assoc.
    + by rewrite filter_cons_False by congruence.
Qed.
End Client.

(** ** Properties *)

(** C6: the Bloom filter protocol.  Every run of the two parties is finite and ends
    with both succeeding; the receiver returns, in their order and with their
    repetitions, exactly its identifiers that the sender's filter has, and so no
    common identifier is missing: only false positives of the filter can be too
    many. *)
Theorem bpsi_no_false_negatives `{BloomLaws} n sids rids :
  let sent := bpsi_sender_stage1 {| bf := NewWithEstimates (wrap 64 n) |} sids in
  ∃ inter, inevitable (bpsi_Send n sids) (bpsi_Intersect rids) () inter ∧
    inter = filter (λ x, Check sent x = true) rids ∧
    ∀ x, x ∈ rids → x ∈ sids → x ∈ inter.
Proof.
  intros sent. exists (filter (λ x, Check sent x = true) rids). split_and!; [|done|].
  - apply exchange_inevitable. destruct (WriteTo_ReadFrom (bf sent)) as (k & f' & k' & He & Ht).
    unfold exchange, bpsi_Send, bpsi_Intersect, bpsi_receiver_stage1, ReadFrom.
    cbn [NewBloomfilter BloomfilterTypeBitsAndBloom Z.eqb Pos.eqb].
    unfold bpsi_sender_stage2. change (WriteTo _) with (bloom_WriteTo (bf sent)).
    etrans; [apply (steps_bind_right (λ b, bpsi_receiver_stage2 b rids)),
      (steps_bind_right (λ '(b, _), pure (Ok b))),
      (steps_bind_right (λ '(b, m), pure (Ok ({| bf := b |}, m)))),
      (steps_bind_left (λ _, pure (Ok ()))), He|].
    cbn [pbind pure]. unfold bpsi_receiver_stage2. rewrite check_all_filter. cbn [app].
    apply reflexive_eq. unfold finished. do 3 f_equal.
    apply list_filter_iff. intros x. unfold Check, bitsAndBloom_bloomfilter. cbn [bf]. by rewrite Ht.
  - intros x Hr Hs. rewrite list_elem_of_filter. split; [by apply Check_stage1|done].
Qed.

(** A filter of 64 bits with one hash function. *)
Definition toy_slot (x : list Z) : Z := foldr Z.add 0 x mod 64.

#[local] Instance toy_bloom : Bloom := {
  BloomFilter := Z;
  NewWithEstimates _ := 0;
  bloom_Add f x := Z.setbit f (toy_slot x);
  bloom_Test f x := Z.testbit f (toy_slot x);
  bloom_WriteTo f := let* _ := send (be_put 8 f) in pure (Ok 8);
  bloom_ReadFrom := let* bs := recv 8 in pure (Ok (be_get bs, 8))
}.

Lemma toy_slot_range x : 0 ≤ toy_slot x < 64.
Proof. apply Z.mod_pos_bound. lia. Qed.

#[local] Instance toy_bloom_laws : BloomLaws.
Proof.
  split.
  - intros f x. pose proof (toy_slot_range x). cbn. apply Z.setbit_eq. lia.
  - intros f x y Hx. pose proof (toy_slot_range y). cbn in *. rewrite Z.setbit_eqb by lia.
    rewrite Hx. apply orb_true_r.
  - intros f. exists 8, (be_get (be_put 8 f)), 8. split.
    + apply (steps_left_send (p := bloom_ReadFrom)).
      apply steps_right_recv_all; [apply length_be_put|]. apply rtc_refl.
    + intros x. pose proof (toy_slot_range x). 
      change (Z.testbit (be_get (be_put 8 f)) (toy_slot x) = Z.testbit f (toy_slot x)).
      rewrite be_get_put. apply Z.mod_pow2_bits_low. lia.
Qed.

Lemma bpsi_no_false_negatives_witness :
  ∃ inter, inevitable (bpsi_Send 2 [[1]; [2]]) (bpsi_Intersect [[3]; [2]; [66]; [2]]) () inter ∧
    inter = [[2]; [66]; [2]].
Proof.
  destruct (bpsi_no_false_negatives 2 [[1]; [2]] [[3]; [2]; [66]; [2]]) as (inter & Hi & E & _).
  exists inter. split; [exact Hi|]. rewrite E. by vm_compute.
Defined.
