(* ===== verification/Pair.v ===== *)
(** * pkg/pair: the PAIR encryption

    pair.go.  SHA-256 and SHA-512 are functions on bytes and the group of
    ristretto255 is third-party code: a class of operations with a class of laws.
    [hash.Hash] is the list of the bytes written to it. *)
From S2P Require Import Prelude Words.

(** ** The libraries *)
Class PairLib := {
  SHA256 : list Z → list Z;
  Sum512 : list Z → list Z;
  Scalar : Type;
  Element : Type;
  zero_scalar : Scalar;
  scalar_UnmarshalText : list Z → res Scalar;
  Invert : Scalar → Scalar;
  FromUniformBytes : list Z → Element;
  ScalarMult : Scalar → Element → Element;
  MarshalText : Element → list Z;
  UnmarshalText : list Z → res Element
}.

Class PairLaws `{PairLib} : Prop := {
  UnmarshalText_MarshalText e : UnmarshalText (MarshalText e) = Ok e;
  ScalarMult_comm s t e : ScalarMult s (ScalarMult t e) = ScalarMult t (ScalarMult s e);
  ScalarMult_Invert s e : s ≠ zero_scalar → ScalarMult (Invert s) (ScalarMult s e) = e
}.

(** ** pair.go *)
Definition PAIRSHA256Ristretto255 : Z := 1.
Definition sha256SaltSize : nat := 32.

Section Pair.
Context `{PairLib}.

(** The mutable part is [h], the bytes written to the hash since it was created. *)
Record PrivateKey := { h : list Z; salt : list Z; scalar : Scalar }.

Definition New (p : Z) (salt scalar : list Z) : res PrivateKey :=
  if p =? PAIRSHA256Ristretto255 then
    if negb (length salt =? sha256SaltSize)%nat then Err ErrInvalidSaltSize
    else
      let! scalar := scalar_UnmarshalText scalar in
      Ok {| h := []; salt := salt; scalar := scalar |}
  else Err ErrInvalidPAIRMode.

(** [pk.h.Write]. *)
Definition write (pk : PrivateKey) (data : list Z) : PrivateKey :=
  {| h := h pk ++ data; salt := salt pk; scalar := scalar pk |}.

(** [Sum(nil)] does not change the hash. *)
Definition hash (pk : PrivateKey) (data : list Z) : list Z * PrivateKey :=
  let pk := write pk (salt pk) in
  let pk := write pk data in
  (SHA256 (h pk), pk).

Definition Encrypt (pk : PrivateKey) (data : list Z) : res (list Z) * PrivateKey :=
  let '(data, pk) := hash pk data in
  let uniformized := Sum512 data in
  let element := FromUniformBytes uniformized in
  let element := ScalarMult (scalar pk) element in
  (Ok (MarshalText element), pk).

Definition ReEncrypt (pk : PrivateKey) (ciphertext : list Z) : res (list Z) :=
  let! cipher := UnmarshalText ciphertext in
  let cipher := ScalarMult (scalar pk) cipher in
  Ok (MarshalText cipher).

Definition Decrypt (pk : PrivateKey) (ciphertext : list Z) : res (list Z) :=
  let! cipher := UnmarshalText ciphertext in
  let inverse := Invert (scalar pk) in
  let cipher := ScalarMult inverse cipher in
  Ok (MarshalText cipher).

(** A list encrypted with one key, one identifier after the other. *)
Fixpoint encrypt_list (pk : PrivateKey) (data : list (list Z)) : list (res (list Z)) * PrivateKey :=
  match data with
  | [] => ([], pk)
  | x :: data =>
      let '(c, pk) := Encrypt pk x in
      let '(cs, pk) := encrypt_list pk data in
      (c :: cs, pk)
  end.
End Pair.

(** [rand.Shuffle(n, swap)] of [math/rand/v2]: [for i := n - 1; i > 0; i--], with
    [j] drawn below [i + 1]. *)
Fixpoint rand_Shuffle {T} (pick : nat → Z) (i : nat) (swap : nat → nat → T → T) (data : T) : T :=
  match i with
  | O => data
  | S i' => rand_Shuffle pick i' swap (swap i (Z.to_nat (pick i mod (Z.of_nat i + 1))) data)
  end.

(** [data[i], data[j] = data[j], data[i]]. *)
Definition swap_at {A} (i j : nat) (data : list A) : list A :=
  match data !! i, data !! j with
  | Some x, Some y => <[i := y]> (<[j := x]> data)
  | _, _ => data
  end.

Definition Shuffle {A} (pick : nat → Z) (data : list A) : list A :=
  rand_Shuffle pick (length data - 1) swap_at data.

(** * Lemmas *)
Section Facts.
Context `{PairLaws}.

(** The group element of a stream of hashed bytes. *)
Definition element_of (stream : list Z) : Element := FromUniformBytes (Sum512 (SHA256 stream)).

Lemma Encrypt_eq pk x :
  Encrypt pk x =
    (Ok (MarshalText (ScalarMult (scalar pk) (element_of (h pk ++ salt pk ++ x)))),
     {| h := h pk ++ salt pk ++ x; salt := salt pk; scalar := scalar pk |}).
Proof. unfold Encrypt, hash, write. cbn [h salt scalar]. by rewrite <-app_assoc. Qed.

Lemma ReEncrypt_Marshal pk e :
  ReEncrypt pk (MarshalText e) = Ok (MarshalText (ScalarMult (scalar pk) e)).
Proof. unfold ReEncrypt. by rewrite UnmarshalText_MarshalText. Qed.

Lemma Decrypt_Marshal pk e :
  scalar pk ≠ zero_scalar → Decrypt pk (MarshalText (ScalarMult (scalar pk) e)) = Ok (MarshalText e).
Proof.
  intros. unfold Decrypt. rewrite UnmarshalText_MarshalText. cbn [res_bind].
  by rewrite ScalarMult_Invert.
Qed.

Lemma New_Ok p s k pk : New p s k = Ok pk →
  p = PAIRSHA256Ristretto255 ∧ length s = sha256SaltSize ∧ h pk = [] ∧ salt pk = s ∧
  scalar_UnmarshalText k = Ok (scalar pk).
Proof.
  unfold New. destruct (Z.eqb_spec p PAIRSHA256Ristretto255); [|done].
  destruct (Nat.eqb_spec (length s) sha256SaltSize); [|done]. cbn [negb].
  destruct (scalar_UnmarshalText k); [|done..]. intros [= <-]. done.
Qed.

(** The bytes hashed before the [i]-th identifier of a list. *)
Lemma encrypt_list_eq pk xs :
  encrypt_list pk xs =
    ((λ i, Ok (MarshalText (ScalarMult (scalar pk)
        (element_of (h pk ++ concat ((salt pk ++.) <$> take (S i) xs)))))) <$> seq 0 (length xs),
     {| h := h pk ++ concat ((salt pk ++.) <$> xs); salt := salt pk; scalar := scalar pk |}).
Proof.
  revert pk. induction xs as [|x xs IH]; intros pk.
  - destruct pk. cbn. by rewrite app_nil_r.
  - cbn [encrypt_list]. rewrite Encrypt_eq, IH. cbn [h salt scalar]. f_equal.
    + cbn [length seq fmap list_fmap take concat]. rewrite app_nil_r. f_equal.
      rewrite <-fmap_S_seq, <-list_fmap_compose. apply list_fmap_ext. intros _ i _. cbn [compose].
      cbn [take fmap list_fmap concat]. by rewrite <-!app_assoc.
    + cbn [fmap list_fmap concat]. by rewrite <-!app_assoc.
Qed.
End Facts.

Lemma swap_at_Permutation {A} i j (l : list A) : swap_at i j l ≡ₚ l.
Proof.
  unfold swap_at. destruct (l !! i) eqn:Ei; [|done]. destruct (l !! j) eqn:Ej; [|done].
  by apply swap_Permutation.
Qed.

Lemma Shuffle_Permutation {A} pick (l : list A) : Shuffle pick l ≡ₚ l.
Proof.
  unfold Shuffle. generalize (length l - 1)%nat as i. intros i. revert l.
  induction i as [|i IH]; intros l; [done|]. cbn [rand_Shuffle]. by rewrite IH, swap_at_Permutation.
Qed.

(** * Properties *)

(** C21: the double encryption of PAIR.  Two keys made with one salt: the first
    identifier each encrypts gets, from both orders of encryption, the same PAIR ID,
    and decrypting it with either key gives what the other key made of the
    identifier; a text that is not a group element is refused with its error, and
    the wrong mode or salt size by [New]. *)
Theorem pair_double_encryption `{PairLaws} s ka kb pa pb x :
  New PAIRSHA256Ristretto255 s ka = Ok pa → New PAIRSHA256Ristretto255 s kb = Ok pb →
  scalar pa ≠ zero_scalar → scalar pb ≠ zero_scalar →
  ∃ ca cb d,
    (Encrypt pa x).1 = Ok ca ∧ (Encrypt pb x).1 = Ok cb ∧
    ReEncrypt pb ca = Ok d ∧ ReEncrypt pa cb = Ok d ∧
    Decrypt pa d = Ok cb ∧ Decrypt pb d = Ok ca ∧
    (∀ c e, UnmarshalText c = Err e → ReEncrypt pa c = Err e ∧ Decrypt pa c = Err e) ∧
    (∀ p s' k', p ≠ PAIRSHA256Ristretto255 → New p s' k' = Err ErrInvalidPAIRMode) ∧
    (∀ s' k', length s' ≠ 32%nat → New PAIRSHA256Ristretto255 s' k' = Err ErrInvalidSaltSize).
Proof.
  intros (_ & _ & Ha & Sa & _)%New_Ok (_ & _ & Hb & Sb & _)%New_Ok Za Zb.
  rewrite !Encrypt_eq, Ha, Hb, Sa, Sb. cbn [fst app]. set (e := element_of (s ++ x)).
  exists (MarshalText (ScalarMult (scalar pa) e)), (MarshalText (ScalarMult (scalar pb) e)),
    (MarshalText (ScalarMult (scalar pa) (ScalarMult (scalar pb) e))).
  rewrite !ReEncrypt_Marshal, Decrypt_Marshal by done.
  rewrite (ScalarMult_comm (scalar pa)), Decrypt_Marshal by done.
  split_and!; try done.
  - intros c er E. unfold ReEncrypt, Decrypt. by rewrite E.
  - intros p s' k' Hp. unfold New. by rewrite (proj2 (Z.eqb_neq _ _) Hp).
  - intros s' k' Hs. unfold New. cbn [Z.eqb PAIRSHA256Ristretto255 Pos.eqb].
    unfold sha256SaltSize. by rewrite (proj2 (Nat.eqb_neq _ _) Hs).
Qed.

(** C22: the hash of a key is never reset.  The ciphertext of an identifier depends on
    everything the key has encrypted before: the [i]-th ciphertext of a list is that
    of the concatenation of all its salted identifiers up to the [i]-th.  So, unless
    the hash collides, encrypting an identifier twice gives two ciphertexts, and two
    parties that encrypt it after different identifiers do not meet at one PAIR ID. *)
Theorem pair_hash_accumulates `{PairLaws} s ka kb pa pb xs ys x :
  New PAIRSHA256Ristretto255 s ka = Ok pa → New PAIRSHA256Ristretto255 s kb = Ok pb →
  scalar pa ≠ zero_scalar → scalar pb ≠ zero_scalar →
  let stream := λ l : list (list Z), concat ((s ++.) <$> l) in
  element_of (stream (xs ++ [x])) ≠ element_of (stream (ys ++ [x])) →
  (∀ i, (i < length xs)%nat → (encrypt_list pa xs).1 !! i =
     Some (Ok (MarshalText (ScalarMult (scalar pa) (element_of (stream (take (S i) xs))))))) ∧
  ∃ ca cb da db,
    (Encrypt (encrypt_list pa xs).2 x).1 = Ok ca ∧ (Encrypt (encrypt_list pb ys).2 x).1 = Ok cb ∧
    ReEncrypt pb ca = Ok da ∧ ReEncrypt pa cb = Ok db ∧ da ≠ db.
Proof.
  intros (_ & _ & Ha & Sa & _)%New_Ok (_ & _ & Hb & Sb & _)%New_Ok Za Zb stream Hne.
  rewrite !encrypt_list_eq, !Encrypt_eq, Ha, Hb, Sa, Sb. cbn [fst snd h salt scalar app]. split.
  - intros i Hi. rewrite list_lookup_fmap, lookup_seq_lt by done. done.
  - eexists _, _, _, _. rewrite !ReEncrypt_Marshal. split_and!; [done..|].
    assert (∀ l, concat ((s ++.) <$> l) ++ s ++ x = stream (l ++ [x])) as Es.
    { intros l. subst stream. cbn beta. rewrite fmap_app, concat_app. cbn [fmap list_fmap concat].
      by rewrite app_nil_r. }
    rewrite !Es. intros E. apply Hne.
    apply (f_equal UnmarshalText) in E. rewrite !UnmarshalText_MarshalText in E. injection E as E.
    rewrite (ScalarMult_comm (scalar pa)) in E.
    apply (f_equal (ScalarMult (Invert (scalar pb)))) in E. rewrite !ScalarMult_Invert in E by done.
    apply (f_equal (ScalarMult (Invert (scalar pa)))) in E. by rewrite !ScalarMult_Invert in E.
Qed.

(** ** A small instance *)

(** The integers with the signs as invertible scalars. *)
#[local] Instance toy_pair : PairLib := {
  SHA256 m := m;
  Sum512 m := m;
  Scalar := option bool;
  Element := Z;
  zero_scalar := None;
  scalar_UnmarshalText t := match t with [0] => Ok None | [1] => Ok (Some true) | [2] => Ok (Some false)
                            | _ => Err (ErrMsg "invalid scalar encoding") end;
  Invert s := s;
  FromUniformBytes b := le_get b;
  ScalarMult s e := match s with None => 0 | Some b => if b then e else - e end;
  MarshalText e := [e];
  UnmarshalText t := match t with [e] => Ok e | _ => Err (ErrMsg "invalid element encoding") end
}.

#[local] Instance toy_pair_laws : PairLaws.
Proof.
  split; cbn.
  - done.
  - intros [[]|] [[]|] e; lia.
  - intros [[]|] e Hs; done || lia.
Qed.

Definition toy_salt : list Z := replicate 32 7.
Definition toy_key (b : bool) : @PrivateKey toy_pair :=
  @Build_PrivateKey toy_pair [] toy_salt (Some b).

Lemma toy_New (b : bool) : New PAIRSHA256Ristretto255 toy_salt [if b then 1 else 2] = Ok (toy_key b).
Proof. by destruct b. Qed.

Lemma pair_double_encryption_witness :
  ∃ ca cb d, (Encrypt (toy_key true) [5]).1 = Ok ca ∧ (Encrypt (toy_key false) [5]).1 = Ok cb ∧
    Decrypt (toy_key true) d = Ok cb ∧ ca ≠ cb.
Proof.
  destruct (pair_double_encryption toy_salt [1] [2] (toy_key true) (toy_key false) [5]
    (toy_New true) (toy_New false) ltac:(discriminate) ltac:(discriminate))
    as (ca & cb & d & Ea & Eb & _ & _ & Ed & _).
  exists ca, cb, d. split; [exact Ea|]. split; [exact Eb|]. split; [exact Ed|].
  vm_compute in Ea, Eb. congruence.
Defined.

Lemma pair_hash_accumulates_witness :
  ∃ ca cb da db,
    (Encrypt (encrypt_list (toy_key true) [[9]]).2 [5]).1 = Ok ca ∧
    (Encrypt (encrypt_list (toy_key false) []).2 [5]).1 = Ok cb ∧
    ReEncrypt (toy_key false) ca = Ok da ∧ ReEncrypt (toy_key true) cb = Ok db ∧ da ≠ db.
Proof.
  apply (pair_hash_accumulates toy_salt [1] [2] (toy_key true) (toy_key false) [[9]] [] [5]
    (toy_New true) (toy_New false) ltac:(discriminate) ltac:(discriminate)).
  by vm_compute.
Defined.
