(* ===== verification/Select.v ===== *)
(** * [internal/util]: select.go

    [Sel] races one stage against the cancellation of the context, [Sels] runs
    several stages and collects their errors.  A step is one action of a
    goroutine, a rendezvous on a channel or the cancellation of the context. *)
From stdpp Require Import relations.
From S2P Require Import Prelude.

(** ** Sel *)

(** The goroutine of the stage: in [f()], at [d <- f()], returned. *)
Inductive stage := Working | Sending (err : option error) | Gone.

Record sel := {
  sel_stage : stage;
  sel_ctx : option error;              (** [ctx.Err()], once [ctx.Done()] is closed *)
  sel_result : option (option error)   (** what [Sel] has returned *)
}.

Section Sel.
(** The error [f] returns, and the one of the context if it is cancelled. *)
Context (f : option error) (cancel : error).

Inductive sel_step : sel → sel → Prop :=
| step_f_returns ctx r :
    sel_step {| sel_stage := Working; sel_ctx := ctx; sel_result := r |}
             {| sel_stage := Sending f; sel_ctx := ctx; sel_result := r |}
| step_cancel g r :
    sel_step {| sel_stage := g; sel_ctx := None; sel_result := r |}
             {| sel_stage := g; sel_ctx := Some cancel; sel_result := r |}
| step_select_ctx g e :
    sel_step {| sel_stage := g; sel_ctx := Some e; sel_result := None |}
             {| sel_stage := g; sel_ctx := Some e; sel_result := Some (Some e) |}
| step_select_result ctx err :
    sel_step {| sel_stage := Sending err; sel_ctx := ctx; sel_result := None |}
             {| sel_stage := Gone; sel_ctx := ctx; sel_result := Some err |}.

Definition sel_init : sel := {| sel_stage := Working; sel_ctx := None; sel_result := None |}.

(** The steps without a cancellation. *)
Definition quiet_step (c c' : sel) : Prop := sel_step c c' ∧ sel_ctx c' = sel_ctx c.

(** ** Lemmas *)
Record sel_inv (c : sel) : Prop := {
  inv_sending e : sel_stage c = Sending e → e = f;
  inv_gone : sel_stage c = Gone → sel_result c = Some f;
  inv_ctx e : sel_ctx c = Some e → e = cancel;
  inv_result r : sel_result c = Some r →
    (r = f ∧ sel_stage c = Gone) ∨ (r = Some cancel ∧ sel_ctx c = Some cancel ∧ sel_stage c ≠ Gone)
}.

Lemma sel_inv_init : sel_inv sel_init.
Proof. by split. Qed.

Lemma sel_step_inv c c' : sel_inv c → sel_step c c' → sel_inv c'.
Proof.
  intros [H1 H2 H3 H4] Hs. destruct Hs; cbn in *; split; cbn; naive_solver.
Qed.

Lemma sel_reach_inv c : rtc sel_step sel_init c → sel_inv c.
Proof.
  intros Hr. pose proof sel_inv_init as Hi. induction Hr as [|c1 c2 c3 Hs _ IH]; [done|].
  apply IH. by eapply sel_step_inv.
Qed.

Definition sel_weight (c : sel) : nat :=
  (match sel_stage c with Working => 2 | Sending _ => 1 | Gone => 0 end) +
  (match sel_ctx c with None => 1 | _ => 0 end) + (match sel_result c with None => 1 | _ => 0 end).

Lemma sel_sn c : sn sel_step c.
Proof.
  remember (sel_weight c) as n eqn:E. revert c E.
  induction n as [n IH] using lt_wf_ind. intros c ->. constructor. intros c' Hs.
  apply (IH (sel_weight c')); [|done].
  red in Hs. destruct Hs; unfold sel_weight; cbn; repeat case_match; lia.
Qed.
End Sel.

(** ** Sels *)

(** The goroutines still in their stage, the buffered channel and what was received
    from it. *)
Record sels := {
  sels_running : list (option error);
  sels_buffer : list (option error);
  sels_received : list (option error)
}.

Section Sels.
Context (capacity : nat).

Inductive sels_step : sels → sels → Prop :=
| step_stage_sends l1 err l2 buf got :
    (length buf < capacity)%nat →
    sels_step {| sels_running := l1 ++ err :: l2; sels_buffer := buf; sels_received := got |}
              {| sels_running := l1 ++ l2; sels_buffer := buf ++ [err]; sels_received := got |}
| step_receive run err buf got :
    sels_step {| sels_running := run; sels_buffer := err :: buf; sels_received := got |}
              {| sels_running := run; sels_buffer := buf; sels_received := got ++ [err] |}.
End Sels.

(** [Sels] just called on stages that return the errors [fs]. *)
Definition sels_init (fs : list (option error)) : sels :=
  {| sels_running := fs; sels_buffer := []; sels_received := [] |}.
Definition Sels (fs : list (option error)) : sels → sels → Prop := sels_step (length fs).

Lemma sels_inv fs c :
  rtc (Sels fs) (sels_init fs) c →
  sels_received c ++ sels_buffer c ++ sels_running c ≡ₚ fs.
Proof.
  intros Hr. assert (sels_received (sels_init fs) ++ sels_buffer (sels_init fs) ++ sels_running (sels_init fs) ≡ₚ fs)
    as Hi by done.
  revert Hi. induction Hr as [c|c1 c2 c3 Hs _ IH]; [done|]. intros Hi. apply IH. rewrite <-Hi.
  destruct Hs; cbn [sels_received sels_buffer sels_running]; solve_Permutation.
Qed.

(** ** Properties *)

(** C32: the selection of stages.  Every run of [Sel] is finite; it returns the error
    of its stage or, only when the context was cancelled, that of the context, and
    when nothing more can happen it has returned.  For every stage some run leaves
    the goroutine blocked for good on the unbuffered channel after a cancellation.
    The buffer of [Sels] prevents this: at any moment every stage still running can
    deliver its error without a receiver, and each error is delivered once. *)
Theorem Sel_returns (f : option error) (cancel : error) :
  (∀ c, rtc (sel_step f cancel) sel_init c →
     (∀ r, sel_result c = Some r →
        (r = f ∧ sel_stage c = Gone) ∨ (r = Some cancel ∧ sel_ctx c = Some cancel)) ∧
     sn (sel_step f cancel) c ∧
     (nf (sel_step f cancel) c →
        sel_result c = Some f ∧ sel_stage c = Gone ∨
        sel_result c = Some (Some cancel) ∧ sel_stage c = Sending f) ∧
     (sel_ctx c = None → nf (quiet_step f cancel) c → sel_result c = Some f)) ∧
  (∃ c, rtc (sel_step f cancel) sel_init c ∧ nf (sel_step f cancel) c ∧ sel_stage c = Sending f) ∧
  (∀ fs c, rtc (Sels fs) (sels_init fs) c →
     sels_received c ++ sels_buffer c ++ sels_running c ≡ₚ fs ∧
     ∀ l1 err l2, sels_running c = l1 ++ err :: l2 →
       Sels fs c {| sels_running := l1 ++ l2; sels_buffer := sels_buffer c ++ [err];
                    sels_received := sels_received c |}).
Proof.
  split_and!.
  - intros c Hr. pose proof (sel_reach_inv f cancel c Hr) as [Hs Hg Hc Hres].
    destruct c as [g ctx r]. cbn [sel_stage sel_ctx sel_result] in *. split_and!.
    + intros r' Hr'. destruct (Hres r' Hr') as [?|(? & ? & _)]; [by left|by right].
    + apply sel_sn.
    + intros Hnf. destruct g as [|e|].
      * destruct Hnf. eexists. apply step_f_returns.
      * destruct r as [r|]; [|destruct Hnf; eexists; apply step_select_result].
        destruct (Hres r eq_refl) as [[_ [=]]|(-> & _)]. right. by rewrite (Hs e eq_refl).
      * left. by rewrite Hg.
    + intros -> Hnf. destruct g as [|e|]; [| |by apply Hg].
      * destruct Hnf. eexists. split; [apply step_f_returns|done].
      * destruct r as [r|]; [|destruct Hnf; eexists; split; [apply step_select_result|done]].
        by destruct (Hres r eq_refl) as [[_ [=]]|(_ & [=] & _)].
  - exists {| sel_stage := Sending f; sel_ctx := Some cancel; sel_result := Some (Some cancel) |}.
    split_and!; [| |done].
    + eapply rtc_l; [apply step_cancel|]. eapply rtc_l; [apply step_select_ctx|].
      eapply rtc_l; [apply step_f_returns|]. apply rtc_refl.
    + intros [c' Hs]. inversion Hs.
  - intros fs c Hr. pose proof (sels_inv fs c Hr) as Hp. split; [done|].
    intros l1 err l2 E. destruct c as [run buf got]. cbn [sels_running sels_buffer sels_received] in *.
    subst run. apply step_stage_sends. apply Permutation_length in Hp.
    rewrite !length_app in Hp. cbn [length] in Hp. lia.
Qed.

(** A stage that fails, cancelled before it returned. *)
Lemma Sel_returns_witness :
  ∃ c, rtc (sel_step (Some EOF) ErrUnexpectedEOF) sel_init c ∧
    sn (sel_step (Some EOF) ErrUnexpectedEOF) c ∧
    sel_result c = Some (Some ErrUnexpectedEOF).
Proof.
  destruct (Sel_returns (Some EOF) ErrUnexpectedEOF) as (Hall & (c & Hr & Hnf & Hs) & _).
  exists c. destruct (Hall c Hr) as (_ & Hsn & Hend & _). split; [exact Hr|]. split; [exact Hsn|].
  destruct (Hend Hnf) as [[_ Hg]|[E _]]; [congruence|exact E].
Defined.
