(* ===== verification/Psi.v ===== *)
(** * pkg/psi: the choice of the protocol

    psi.go.  A party is named by the protocol whose constructor made it; the
    parties themselves are in [DhpsiProtocol], [Npsi], [Bpsi] and [Kkrt]. *)
From S2P Require Import Prelude.

(** [Protocol] is a byte; the constants count from 0. *)
Definition ProtocolUnsupported : Z := 0.
Definition ProtocolDHPSI : Z := 1.
Definition ProtocolNPSI : Z := 2.
Definition ProtocolBPSI : Z := 3.
Definition ProtocolKKRTPSI : Z := 4.

Inductive Sender := DhpsiSender | NpsiSender | BpsiSender | KkrtpsiSender.
Inductive Receiver := DhpsiReceiver | NpsiReceiver | BpsiReceiver | KkrtpsiReceiver.

Definition NewSender (protocol : Z) : res Sender :=
  if protocol =? ProtocolDHPSI then Ok DhpsiSender
  else if protocol =? ProtocolNPSI then Ok NpsiSender
  else if protocol =? ProtocolBPSI then Ok BpsiSender
  else if protocol =? ProtocolKKRTPSI then Ok KkrtpsiSender
  else Err ErrUnsupportedPSIProtocol.

Definition NewReceiver (protocol : Z) : res Receiver :=
  if protocol =? ProtocolDHPSI then Ok DhpsiReceiver
  else if protocol =? ProtocolNPSI then Ok NpsiReceiver
  else if protocol =? ProtocolBPSI then Ok BpsiReceiver
  else if protocol =? ProtocolKKRTPSI then Ok KkrtpsiReceiver
  else Err ErrUnsupportedPSIProtocol.

Definition String (p : Z) : string :=
  if p =? ProtocolDHPSI then "dhpsi"
  else if p =? ProtocolNPSI then "npsi"
  else if p =? ProtocolBPSI then "bpsi"
  else if p =? ProtocolKKRTPSI then "kkrtpsi"
  else "unsupported".

(** The parties that speak to each other. *)
Definition peer (s : Sender) : Receiver :=
  match s with
  | DhpsiSender => DhpsiReceiver
  | NpsiSender => NpsiReceiver
  | BpsiSender => BpsiReceiver
  | KkrtpsiSender => KkrtpsiReceiver
  end.

(** Both constructors accept the same protocols and make parties of one protocol,
    and a name other than "unsupported" tells the protocol. *)
Theorem constructors_agree p q :
  NewReceiver p = res_map peer (NewSender p) ∧
  (String p = "unsupported" ↔ NewSender p = Err ErrUnsupportedPSIProtocol) ∧
  (String p = String q → String p ≠ "unsupported" → p = q).
Proof.
  unfold NewReceiver, NewSender, String, ProtocolDHPSI, ProtocolNPSI, ProtocolBPSI, ProtocolKKRTPSI.
  destruct (Z.eqb_spec p 1), (Z.eqb_spec p 2), (Z.eqb_spec p 3), (Z.eqb_spec p 4); subst; try lia;
    (split; [done|]); (split; [by split|]);
    destruct (Z.eqb_spec q 1), (Z.eqb_spec q 2), (Z.eqb_spec q 3), (Z.eqb_spec q 4); subst; done.
Qed.
