(* ===== verification/Programs.v ===== *)
(** * examples/sender and examples/receiver: the two programs

    Both main.go take the lines of a file, count them, and run a party of [pkg/psi] on
    them; the receiver writes the intersection to a file.  [format.ExitOnErr] ends the
    process: an [Err] of this file is a process that exits with that error.  Flags,
    sockets and logs are not modelled. *)
From S2P Require Import Prelude Words IO Framing Dhpsi DhpsiParallel Fill DhpsiProtocol Psi.

(** The switch on the flag [-proto]. *)
Definition psiType (protocol : string) : Z :=
  if decide (protocol = "bpsi") then ProtocolBPSI
  else if decide (protocol = "npsi") then ProtocolNPSI
  else if decide (protocol = "dhpsi") then ProtocolDHPSI
  else if decide (protocol = "kkrt") then ProtocolKKRTPSI
  else ProtocolUnsupported.

(** [format.ExitOnErr]. *)
Definition ExitOnErr (err : option error) : res unit :=
  match err with Some e => Err e | None => Ok () end.

(** [main] of the sender up to [Send]: [file] is what [os.Open] gives, [dial] the error of
    [net.Dial].  The party, the count and the identifiers that [Send] is called with. *)
Definition sender_main (protocol : string) (file : res source) (dial : option error)
    : res (Sender * Z * list (list Z)) :=
  let psi_type := psiType protocol in
  let! f := file in
  let '(n, err) := Count f in
  let! _ := ExitOnErr err in
  let! _ := ExitOnErr dial in
  let! s := NewSender psi_type in
  Ok (s, n, Exhaust n f).

(** [main] of the receiver up to [handle], for one connection: the file is opened to be
    counted, and again for each connection.  The identifiers are those of [handle]. *)
Definition receiver_main (protocol : string) (file : res source) (listen accept : option error)
    (file_again : res source) : res (Receiver * Z * list (list Z)) :=
  let psi_type := psiType protocol in
  let! f := file in
  let '(n, err) := Count f in
  let! _ := ExitOnErr err in
  let! _ := ExitOnErr listen in
  let! _ := ExitOnErr accept in
  let! f := file_again in
  let! r := NewReceiver psi_type in
  Ok (r, n, Exhaust n f).

(** [for _, id := range i { f.Write(append(id, "\n"...)) }]: the error the process exits
    with, and the file. *)
Fixpoint write_lines (f : sink) (i : list (list Z)) : option error * sink :=
  match i with
  | [] => (None, f)
  | id :: i =>
      match Write f (id ++ [newline]) with
      | (Some e, f) => (Some e, f)
      | (None, f) => write_lines f i
      end
  end.

(** [handle], once [Intersect] has returned: [create] is what [os.Create] gives. *)
Definition handle (result : list (list Z) * option error) (create : res sink)
    : option error * option sink :=
  match result with
  | (_, Some e) => (Some e, None)
  | (i, None) =>
      match create with
      | Ok f => let '(err, f) := write_lines f i in (err, Some f)
      | Err e => (Some e, None)
      | Panic m => (Some (ErrMsg m), None)
      end
  end.

(** * Lemmas *)

(** A file with one identifier per line, each short enough for the scanner. *)
Record lines_of (ids : list (list Z)) (f : source) : Prop := {
  lo_ids : Forall identifier_ok ids;
  lo_short : Forall (λ id, Z.of_nat (length id) < MaxScanTokenSize) ids;
  lo_bytes : pending f = frame ids;
  lo_end : final f = EOF
}.

Lemma load_lines ids f f' :
  lines_of ids f → lines_of ids f' →
  Count f = (Z.of_nat (length ids), None) ∧ Exhaust (Z.of_nat (length ids)) f' = ids.
Proof.
  intros [Hids Hs Hb He] [_ _ Hb' _]. split; [by apply Count_lines|].
  rewrite (Exhaust_lines _ _ ids Hids Hb'), Nat2Z.id. by apply take_ge.
Qed.

Lemma write_lines_faultless f i :
  faultless f → ∃ f', write_lines f i = (None, f') ∧ faultless f' ∧ written f' = written f ++ frame i.
Proof.
  revert f. induction i as [|id i IH]; intros f Hf; cbn [write_lines].
  { exists f. unfold frame. cbn. by rewrite app_nil_r. }
  destruct (Write_faultless f (id ++ [newline]) Hf) as (s & -> & Hs & Ew).
  destruct (IH s Hs) as (f' & -> & Hf' & Ew'). exists f'. split; [done|]. split; [done|].
  rewrite Ew', Ew. unfold frame. cbn [fmap list_fmap concat]. by rewrite <-!app_assoc.
Qed.

(** A part of the lines of a file are lines again. *)
Lemma lines_of_subset ids i f f' :
  lines_of ids f → i ⊆ ids → pending f' = frame i → final f' = EOF → lines_of i f'.
Proof.
  intros [Hids Hs _ _] Hsub Hb He.
  rewrite Forall_forall in Hids, Hs.
  by split; try done; apply Forall_forall; intros x Hx%Hsub; auto.
Qed.

(** The receiver ends by writing the lines that both files have, each once, to
    [out_file], and the programs read that file back as it is. *)
Definition writes_common (sids rids : list (list Z)) (out_file : sink) (out : list (list Z)) : Prop :=
  ∃ f, handle (out, None) (Ok out_file) = (None, Some f) ∧ intersection_of sids rids out ∧
    ∀ again, pending again = written f → final again = EOF →
      Count again = (Z.of_nat (length out), None) ∧ Exhaust (Z.of_nat (length out)) again = out.

Lemma handle_writes_common sids rids fr out_file out :
  lines_of rids fr → faultless out_file → written out_file = [] → intersection_of sids rids out →
  writes_common sids rids out_file out.
Proof.
  intros Hfr Hout Hempty Hi. destruct (write_lines_faultless out_file out Hout) as (f & E & _ & Ew).
  exists f. split; [unfold handle; by rewrite E|]. split; [done|]. intros again Hp He.
  assert (lines_of out again) as Hl.
  { eapply (lines_of_subset rids out fr); [done|intros x Hx; apply Hi in Hx; tauto| |done].
    by rewrite Hp, Ew, Hempty. }
  by apply load_lines.
Qed.

(** ** Properties *)

(** C4: the two programs, run with [-proto dhpsi] against each other on two files of at
    most [2^31] identifiers, one per line, non-empty and short enough for the scanner.
    When the connections between them cut the stream of points only between points
    ([delivers]; the code reads a point with a single [Read], so that the theorem says
    nothing of a TCP connection that delivers a part of one), the keys act injectively,
    the receiver's lines derive to distinct points and no line of one file derives to the
    point of another line of the other: neither program exits with an error, and the file
    that the receiver writes lists exactly the lines that both files have, each once, so
    that the programs read it back as it is; [SendFromReader] and [IntersectFromReader]
    do the same from the readers. *)
Theorem programs_intersect_files `{R255Laws} (a b : Scalar) (ps pr : party) sids rids fs fr fr' out_file :
  Inj (=) (=) (ScalarMult a) → Inj (=) (=) (ScalarMult b) → party_ok ps → party_ok pr →
  lines_of sids fs → lines_of rids fr → lines_of rids fr' →
  Z.of_nat (length sids) ≤ 2 ^ 31 → Z.of_nat (length rids) ≤ 2 ^ 31 →
  NoDup (derived <$> rids) → (∀ x y, x ∈ rids → y ∈ sids → derived x = derived y → x = y) →
  faultless out_file → written out_file = [] →
  ∃ ns ids_s nr ids_r,
    sender_main "dhpsi" (Ok fs) None = Ok (DhpsiSender, ns, ids_s) ∧
    receiver_main "dhpsi" (Ok fr) None None (Ok fr') = Ok (DhpsiReceiver, nr, ids_r) ∧
    dhpsi_run delivers a b ps pr ns ids_s nr ids_r (writes_common sids rids out_file) ∧
    dhpsi_run_from_readers delivers a b ps pr ns fs nr fr' (writes_common sids rids out_file).
Proof.
  intros Ha Hb Hs Hr Hfs Hfr Hfr' Hls Hlr Hnd Hcf Hout Hempty.
  destruct (load_lines sids fs fs Hfs Hfs) as [Cs Es].
  destruct (load_lines rids fr fr' Hfr Hfr') as [Cr Er].
  exists (Z.of_nat (length sids)), sids, (Z.of_nat (length rids)), rids.
  split.
  { unfold sender_main. cbn [res_bind]. rewrite Cs. cbn [res_bind ExitOnErr].
    change (NewSender _) with (Ok DhpsiSender). cbn [res_bind]. by rewrite Es. }
  split.
  { unfold receiver_main. cbn [res_bind]. rewrite Cr. cbn [res_bind ExitOnErr].
    change (NewReceiver _) with (Ok DhpsiReceiver). cbn [res_bind]. by rewrite Er. }
  unfold dhpsi_run_from_readers. rewrite Es, Er.
  split; (apply (dhpsi_run_matches a b Ha Hb); [done..|]; intros out Hm);
    (eapply handle_writes_common; [done..|by apply matches_intersection]).
Qed.

(** The files of the toy exchange. *)
Definition toy_file (ids : list (list Z)) : source := {| chunks := [frame ids]; final := EOF |}.

Lemma programs_intersect_files_witness :
  lines_of toy_sids (toy_file toy_sids) ∧ lines_of toy_rids (toy_file toy_rids) ∧
  ∃ ns ids_s nr ids_r,
    sender_main "dhpsi" (Ok (toy_file toy_sids)) None = Ok (DhpsiSender, ns, ids_s) ∧
    receiver_main "dhpsi" (Ok (toy_file toy_rids)) None None (Ok (toy_file toy_rids)) =
      Ok (DhpsiReceiver, nr, ids_r) ∧ ns = 3 ∧ ids_r = [[3]; [9]; [1]; [7]].
Proof.
  assert (∀ ids, Forall identifier_ok ids → Forall (λ id, Z.of_nat (length id) < MaxScanTokenSize) ids →
    lines_of ids (toy_file ids)) as Hfile.
  { intros ids H1 H2. split; [done|done| |done]. unfold toy_file, pending. cbn. by rewrite app_nil_r. }
  assert (lines_of toy_sids (toy_file toy_sids)) as Hs
    by (apply Hfile; apply (bool_decide_unpack _); by vm_compute).
  assert (lines_of toy_rids (toy_file toy_rids)) as Hr
    by (apply Hfile; apply (bool_decide_unpack _); by vm_compute).
  split; [exact Hs|]. split; [exact Hr|].
  assert (party_ok toy_party) as Hparty.
  { split; [by eexists|]. split; [apply reverse_Permutation|cbn; lia]. }
  destruct (@programs_intersect_files toy_R255 toy_R255_laws 5 3 toy_party toy_party toy_sids toy_rids
    (toy_file toy_sids) (toy_file toy_rids) (toy_file toy_rids) new_sink
    (toy_inj 5 858993459 eq_refl) (toy_inj 3 1431655765 eq_refl) Hparty Hparty Hs Hr Hr
    ltac:(cbn; lia) ltac:(cbn; lia)) as (ns & ids_s & nr & ids_r & E1 & E2 & _).
  - apply (bool_decide_unpack _). by vm_compute.
  - assert (Forall (λ x, Forall (λ y, @derived toy_R255 x = @derived toy_R255 y → x = y) toy_sids) toy_rids)
      as Hd by (apply (bool_decide_unpack _); by vm_compute).
    intros x y Hx Hy. rewrite Forall_forall in Hd. specialize (Hd x Hx). rewrite Forall_forall in Hd.
    by apply Hd.
  - done.
  - done.
  - assert (@sender_main "dhpsi" (Ok (toy_file toy_sids)) None = Ok (DhpsiSender, 3, toy_sids)) as Es
      by (by vm_compute).
    assert (receiver_main "dhpsi" (Ok (toy_file toy_rids)) None None (Ok (toy_file toy_rids)) =
      Ok (DhpsiReceiver, 4, toy_rids)) as Er by (by vm_compute).
    exists ns, ids_s, nr, ids_r. split; [exact E1|]. split; [exact E2|]. unfold toy_rids in *.
    split; congruence.
Defined.
