(* ===== verification/Stages.v ===== *)
(** * A party under a context: the sequence of its [util.Sel] calls

    Every [Send] and [Intersect] hands its stages to [util.Sel] one after the other
    and returns the first error.  The definitions of the protocols put the stages in
    sequence ([kkrt_Intersect], ...); here each stage runs in its own goroutine, which
    the cancellation of the context abandons but does not stop.  That holds of the
    stages that do not look at the context themselves: those of the KKRT receiver, of
    the NPSI receiver and of both parties of BPSI.  Stage 3 of the KKRT sender, which
    does look, is in [KkrtStage3]; DH-PSI's receiver loop, in [DhpsiLoop]. *)
From stdpp Require Import relations.
From S2P Require Import Prelude Words Bits Hash Cuckoo IO Proc Crypto OT Oprf Kkrt Npsi Bpsi.

(** A party: a stage and what follows its result, or the end. *)
Inductive party (A : Type) : Type :=
| Return (x : res A)
| Stage {B : Type} (p : proc B) (k : B → party A).
Arguments Return {A} _.
Arguments Stage {A B} _ _.

(** The stages in sequence. *)
Fixpoint sequence {A} (q : party A) : proc A :=
  match q with
  | Return x => Done x
  | Stage p k => pbind p (λ b, sequence (k b))
  end.

(** Where the party is: waiting in [Sel] for the goroutine of a stage, which still has
    [p] to do before what follows; returned; returned with the error of the context while
    the goroutine still has [p] to do; or ended with the process by a panic. *)
Inductive control (A : Type) :=
| InStage (p : proc (party A))
| Returned (x : res A)
| Abandoned (e : error) (p : proc (party A))
| Crash (m : string).
Arguments InStage {A} _.
Arguments Returned {A} _.
Arguments Abandoned {A} _ _.
Arguments Crash {A} _.

(** The next call of [Sel], or the end of the function. *)
Definition start {A} (q : party A) : control A :=
  match q with
  | Return x => Returned x
  | Stage p k => InStage (pbind p (λ b, Done (Ok (k b))))
  end.

Record running (A : Type) := Running {
  control_of : control A;
  context : option error;   (** [ctx.Err()], once [ctx.Done()] is closed *)
  reader : source;
  writer : sink
}.
Arguments Running {A} _ _ _ _.
Arguments control_of {A} _.
Arguments context {A} _.
Arguments reader {A} _.
Arguments writer {A} _.

Definition launch {A} (q : party A) (r : source) (w : sink) : running A :=
  Running (start q) None r w.

(** One call of [Read] or [Write] of a goroutine. *)
Definition call {A} (p : proc A) (r : source) (w : sink) : option (proc A * source * sink) :=
  match p with
  | Done _ => None
  | Recv n k =>
      match ReadFull r n with
      | (bs, None, r) => Some (k (Ok bs), r, w)
      | (_, Some e, r) => Some (k (Err e), r, w)
      end
  | Send bs k =>
      match Write w bs with
      | (None, w) => Some (k (Ok ()), r, w)
      | (Some e, w) => Some (k (Err e), r, w)
      end
  end.

Section Steps.
Context {A : Type} (cancel : error).

Inductive stage_step : running A → running A → Prop :=
| stage_calls p p' ctx r w r' w' :
    call p r w = Some (p', r', w') →
    stage_step (Running (InStage p) ctx r w) (Running (InStage p') ctx r' w')
| abandoned_calls e p p' ctx r w r' w' :
    call p r w = Some (p', r', w') →
    stage_step (Running (Abandoned e p) ctx r w) (Running (Abandoned e p') ctx r' w')
| sel_receives_nil q ctx r w :
    stage_step (Running (InStage (Done (Ok q))) ctx r w) (Running (start q) ctx r w)
| sel_receives_error e ctx r w :
    stage_step (Running (InStage (Done (Err e))) ctx r w) (Running (Returned (Err e)) ctx r w)
| sel_context p e r w :
    stage_step (Running (InStage p) (Some e) r w) (Running (Abandoned e p) (Some e) r w)
| context_cancelled c r w :
    stage_step (Running c None r w) (Running c (Some cancel) r w)
| stage_panics m ctx r w :
    stage_step (Running (InStage (Done (Panic m))) ctx r w) (Running (Crash m) ctx r w)
| abandoned_panics e m ctx r w :
    stage_step (Running (Abandoned e (Done (Panic m))) ctx r w) (Running (Crash m) ctx r w).

(** The steps without a cancellation. *)
Definition calm_step (c c' : running A) : Prop := stage_step c c' ∧ context c' = context c.
End Steps.

(** * Lemmas *)

Lemma run_call {A} (p p' : proc A) r w r' w' :
  call p r w = Some (p', r', w') → run p r w = run p' r' w'.
Proof.
  destruct p as [x|n k|bs k]; cbn [call run]; [done|..].
  - by destruct (ReadFull r n) as [[bs [e|]] r1]; intros [= <- <- <-].
  - by destruct (Write w bs) as [[e|] w1]; intros [= <- <- <-].
Qed.

Lemma Write_written w bs e w' : Write w bs = (e, w') → written w `prefix_of` written w'.
Proof. unfold Write. destruct (faults w (calls w)) as [[? ?]|]; intros [= <- <-]; by eexists. Qed.

(** What has been written stays. *)
Lemma run_written {A} (p : proc A) r w : written w `prefix_of` written (run p r w).2.
Proof.
  revert r w. induction p as [x|n k IH|bs k IH]; intros r w; cbn [run]; [done|..].
  - destruct (ReadFull r n) as [[bs [e|]] r1]; apply IH.
  - destruct (Write w bs) as [[e|] w1] eqn:E; (etrans; [by eapply Write_written|apply IH]).
Qed.

Lemma run_stage {A B} (p : proc B) (k : B → party A) r w :
  run (pbind (pbind p (λ b, Done (Ok (k b)))) sequence) r w = run (pbind p (λ b, sequence (k b))) r w.
Proof. rewrite !run_bind. by destruct (run p r w) as [[[b|e|m] r1] w1]. Qed.

Lemma run_return {A} (p : proc A) r w : run (pbind p (λ a, Done (Ok a))) r w = run p r w.
Proof. rewrite run_bind. by destruct (run p r w) as [[[a|e|m] r1] w1]. Qed.

Section Runs.
Context {A : Type} (cancel : error) (x : res A) (rf : source) (wf : sink).

(** What is left to do leads to the end of the sequence. *)
Definition heads_for (p : proc (party A)) (r : source) (w : sink) : Prop :=
  run (pbind p sequence) r w = (x, rf, wf).

Definition sound (c : running A) : Prop :=
  (∀ e, context c = Some e → e = cancel) ∧
  match control_of c with
  | InStage p => heads_for p (reader c) (writer c)
  | Returned y => (y, reader c, writer c) = (x, rf, wf)
  | Abandoned e p => context c = Some e ∧ heads_for p (reader c) (writer c)
  | Crash m => x = Panic m ∧ writer c = wf
  end.

Lemma heads_for_call p r w p' r' w' :
  call p r w = Some (p', r', w') → heads_for p r w → heads_for p' r' w'.
Proof. unfold heads_for. rewrite !run_bind. by intros ->%run_call. Qed.

Lemma sound_start q ctx r w :
  (∀ e, ctx = Some e → e = cancel) → run (sequence q) r w = (x, rf, wf) →
  sound (Running (start q) ctx r w).
Proof.
  intros Hc E. split; [done|]. destruct q as [y|B p k]; cbn [start control_of reader writer].
  - exact E.
  - unfold heads_for. by rewrite run_stage.
Qed.

Lemma sound_step c c' : stage_step cancel c c' → sound c → sound c'.
Proof.
  intros Hs [Hc H]. destruct Hs; cbn [context control_of reader writer] in *.
  - split; [done|]. by eapply heads_for_call.
  - destruct H as [-> H]. split; [done|]. split; [done|]. by eapply heads_for_call.
  - by apply sound_start.
  - split; [done|]. unfold heads_for in H. cbn in *. congruence.
  - split; [done|]. by split.
  - split; cbn [context control_of reader writer]; [congruence|]. destruct c; try done. by destruct H.
  - split; [done|]. unfold heads_for in H. cbn in *. by simplify_eq.
  - destruct H as [_ H]. split; [done|]. unfold heads_for in H. cbn in *. by simplify_eq.
Qed.

Lemma sound_written c : sound c → written (writer c) `prefix_of` written wf.
Proof.
  intros [_ H]. destruct c as [[p|y|e p|m] ctx r w]; cbn [context control_of reader writer] in *.
  - pose proof (run_written (pbind p sequence) r w) as Hp. by rewrite H in Hp.
  - by simplify_eq.
  - destruct H as [_ H]. pose proof (run_written (pbind p sequence) r w) as Hp. by rewrite H in Hp.
  - by destruct H as [_ ->].
Qed.
End Runs.

(** ** Every run ends *)
Section Ends.
Context {A : Type} (cancel : error).

Definition ends (c : control A) : Prop := ∀ ctx r w, sn (stage_step cancel) (Running c ctx r w).

(** It is enough that the steps that do not cancel lead to an end. *)
Lemma ends_intro (c : control A) :
  (∀ ctx r w c', stage_step cancel (Running c ctx r w) c' → context c' = ctx →
    sn (stage_step cancel) c') → ends c.
Proof.
  intros Hc ctx r w.
  assert (∀ e, sn (stage_step cancel) (Running c (Some e) r w)) as Hsome.
  { intros e. constructor. intros c' Hs. red in Hs. apply (Hc _ _ _ _ Hs). by inversion Hs. }
  destruct ctx as [e|]; [done|]. constructor. intros c' Hs. red in Hs.
  destruct (context c') as [e|] eqn:E; [|by eapply Hc].
  inversion Hs; subst; cbn [context] in E; try done.
Qed.

Lemma ends_Returned x : ends (Returned x).
Proof. apply ends_intro. intros ctx r w c' Hs E. inversion Hs; by subst. Qed.

Lemma ends_Crash m : ends (Crash m).
Proof. apply ends_intro. intros ctx r w c' Hs E. inversion Hs; by subst. Qed.

Lemma abandoned_next e (p : proc (party A)) ctx r w (c' : running A) :
  stage_step cancel (Running (Abandoned e p) ctx r w) c' → context c' = ctx →
  (∃ p' r' w', call p r w = Some (p', r', w') ∧ c' = Running (Abandoned e p') ctx r' w') ∨
  ∃ m, c' = Running (Crash m) ctx r w.
Proof. intros Hs E. inversion Hs; subst; [left; eauto 10|done|eauto]. Qed.

Lemma in_stage_next (p : proc (party A)) ctx r w (c' : running A) :
  stage_step cancel (Running (InStage p) ctx r w) c' → context c' = ctx →
  (∃ p' r' w', call p r w = Some (p', r', w') ∧ c' = Running (InStage p') ctx r' w') ∨
  (∃ q, p = Done (Ok q) ∧ c' = Running (start q) ctx r w) ∨
  (∃ y, c' = Running (Returned y) ctx r w) ∨ (∃ e, c' = Running (Abandoned e p) ctx r w) ∨
  ∃ m, c' = Running (Crash m) ctx r w.
Proof. intros Hs E. inversion Hs; subst; [left|..|done|]; eauto 12. Qed.

Lemma ends_Abandoned e (p : proc (party A)) : ends (Abandoned e p).
Proof.
  induction p as [y|n k IH|bs k IH]; apply ends_intro; intros ctx r w c' Hs E;
    destruct (abandoned_next e _ ctx r w c' Hs E) as [(p' & r' & w' & Hcall & ->)|[m ->]];
    try (apply ends_Crash); cbn [call] in Hcall.
  - discriminate Hcall.
  - destruct (ReadFull r n) as [[bs [e'|]] r1]; injection Hcall as <- <- <-; apply IH.
  - destruct (Write w bs) as [[e'|] w1]; injection Hcall as <- <- <-; apply IH.
Qed.

(** A stage whose results lead to parties that end. *)
Lemma ends_InStage {B} (p : proc B) (k : B → party A) :
  (∀ b, ends (start (k b))) → ends (InStage (pbind p (λ b, Done (Ok (k b))))).
Proof.
  intros Hk. induction p as [[b|e|m]|n l IH|bs l IH]; cbn [pbind]; apply ends_intro;
    intros ctx r w c' Hs E;
    destruct (in_stage_next _ ctx r w c' Hs E)
      as [(p' & r' & w' & Hcall & ->)|[(q & Hq & ->)|[[y ->]|[[e' ->]|[m' ->]]]]];
    try (apply ends_Crash); try (apply ends_Abandoned); try (apply ends_Returned);
    try discriminate Hq; try (cbn [call] in Hcall; discriminate Hcall).
  - injection Hq as <-. apply Hk.
  - cbn [call] in Hcall. destruct (ReadFull r n) as [[bs [e'|]] r1]; injection Hcall as <- <- <-; apply IH.
  - cbn [call] in Hcall. destruct (Write w bs) as [[e'|] w1]; injection Hcall as <- <- <-; apply IH.
Qed.

Lemma ends_start (q : party A) : ends (start q).
Proof. induction q as [x|B p k IH]; [apply ends_Returned|by apply ends_InStage]. Qed.
End Ends.

(** ** Progress *)
Lemma call_total {A} (p : proc A) r w :
  (∃ y, p = Done y) ∨ ∃ p' r' w', call p r w = Some (p', r', w').
Proof.
  destruct p as [y|n k|bs k]; [left; by eexists|right; cbn [call]..].
  - destruct (ReadFull r n) as [[bs [e|]] r1]; eauto.
  - destruct (Write w bs) as [[e|] w1]; eauto.
Qed.

(** A party that waits for a stage is not stuck, whatever the context does. *)
Lemma in_stage_moves {A} cancel (p : proc (party A)) ctx r w :
  red (calm_step cancel) (Running (InStage p) ctx r w).
Proof.
  destruct (call_total p r w) as [[[q|e|m] ->]|(p' & r' & w' & E)]; eexists; split.
  - apply sel_receives_nil.
  - done.
  - apply sel_receives_error.
  - done.
  - apply stage_panics.
  - done.
  - by apply stage_calls.
  - done.
Qed.

(** An abandoned goroutine goes on to the end of its stage. *)
Lemma abandoned_goes_on {A} cancel e (p : proc (party A)) ctx r w y r' w' :
  run p r w = (y, r', w') →
  rtc (stage_step cancel) (Running (Abandoned e p) ctx r w) (Running (Abandoned e (Done y)) ctx r' w').
Proof.
  revert r w. induction p as [z|n k IH|bs k IH]; intros r w E; cbn [run] in E.
  - injection E as -> -> ->. apply rtc_refl.
  - destruct (ReadFull r n) as [[bs [e'|]] r1] eqn:Er; (eapply rtc_l; [|by apply IH]);
      apply abandoned_calls; cbn [call]; by rewrite Er.
  - destruct (Write w bs) as [[e'|] w1] eqn:Ew; (eapply rtc_l; [|by apply IH]);
      apply abandoned_calls; cbn [call]; by rewrite Ew.
Qed.

(** [q] does under a context what [p] does without one: in every interleaving of the
    goroutine of the current stage, [Sel] and the cancellation, the party ends; what it
    has written is a part of what [p] writes; if it returns other than the error of the
    cancelled context, it returns what [p] does, with all of it written; and if it
    returns that error, the goroutine of the stage is still there and nothing keeps it
    from reading and writing until the stage is over. *)
Definition cancellable {A} (q : party A) (p : proc A) : Prop :=
  ∀ cancel r w c, rtc (stage_step cancel) (launch q r w) c →
  let '(x, rf, wf) := run p r w in
  sn (stage_step cancel) c ∧
  written (writer c) `prefix_of` written wf ∧
  match control_of c with
  | InStage _ => red (calm_step cancel) c
  | Returned y => y = x ∧ reader c = rf ∧ writer c = wf
  | Abandoned e p' =>
      e = cancel ∧ context c = Some cancel ∧
      let '(y, r1, w1) := run p' (reader c) (writer c) in
      rtc (stage_step cancel) c (Running (Abandoned e (Done y)) (context c) r1 w1)
  | Crash m => x = Panic m
  end.

Lemma sn_reach {A} (R : A → A → Prop) a b : rtc R a b → sn R a → sn R b.
Proof. induction 1 as [|a c b Hs _ IH]; [done|]. intros [Ha]. by apply IH, Ha. Qed.

Lemma party_cancellable {A} (q : party A) (p : proc A) :
  (∀ r w, run (sequence q) r w = run p r w) → cancellable q p.
Proof.
  intros Hqp cancel r w c Hr. rewrite <-Hqp.
  destruct (run (sequence q) r w) as [[x rf] wf] eqn:E.
  assert (sound cancel x rf wf c) as Hs.
  { assert (sound cancel x rf wf (launch q r w)) as Hi by by apply sound_start.
    induction Hr as [c|c1 c2 c3 Hst _ IH]; [done|]. apply IH. by eapply sound_step. }
  split; [eapply sn_reach; [exact Hr|apply ends_start]|].
  split; [by eapply sound_written|].
  destruct Hs as [Hc Hs]. destruct c as [[p'|y|e p'|m] ctx r1 w1]; cbn [control_of context reader writer] in *.
  - apply in_stage_moves.
  - by simplify_eq.
  - destruct Hs as [-> Hs]. rewrite (Hc e eq_refl). split; [done|]. split; [done|].
    destruct (run p' r1 w1) as [[y r2] w2] eqn:E'. by apply abandoned_goes_on.
  - by destruct Hs.
Qed.

(** * The parties of the protocols *)
Section Parties.
Context `{Blake3, Cores, ByteOps, CodeOps, MetroHash, FloatConv, Bloom}.

(** pkg/kkrtpsi: the receiver. *)
Definition kkrt_Intersect_stages (oprf_of : Z → OPRF) (rb : option (list Z)) (picks : nat → nat → Z)
    (drawOPRF : nat → option (nat → Z)) (n : Z) (identifiers : list (list Z))
    : party (list (list Z)) :=
  Stage (Kkrt.receiver_stage1 rb picks n identifiers) (λ '(table, secretKey),
  Stage (oprf_Receive (oprf_of (Len table)) drawOPRF table secretKey) (λ oprfOutput,
  Stage (receiver_stage3 table oprfOutput) (λ intersection,
  Return (Ok intersection)))).

(** pkg/npsi: the receiver; the sender's first stage is a single [Read]. *)
Definition npsi_Intersect_stages all range (draw : nat → option (nat → Z)) (identifiers : list (list Z))
    : party (list (list Z)) :=
  Stage (npsi_receiver_stage1 draw) (λ k,
  Stage (npsi_receiver_stage2 all range identifiers k) (λ intersected,
  Return (Ok intersected))).

(** pkg/bpsi: the first use of a nil filter is in a stage. *)
Definition bpsi_Send_stages (n : Z) (identifiers : list (list Z)) : party unit :=
  Stage (pure match NewBloomfilter BloomfilterTypeBitsAndBloom n with
              | Ok b => Ok (bpsi_sender_stage1 b identifiers)
              | _ => Panic "invalid memory address or nil pointer dereference"
              end) (λ b,
  Stage (bpsi_sender_stage2 b) (λ u, Return (Ok u))).

Definition bpsi_Intersect_stages (identifiers : list (list Z)) : party (list (list Z)) :=
  Stage bpsi_receiver_stage1 (λ b,
  Stage (bpsi_receiver_stage2 b identifiers) (λ intersection,
  Return (Ok intersection))).

(** C11: cancelling the KKRT receiver, the NPSI receiver or a party of BPSI.  Their
    stages do not look at the context, only [Sel] does.  Under a context that may be
    cancelled at any moment such a party does what its stages do in sequence, as
    [kkrt_Intersect] and the other definitions put them: whatever the interleaving it
    ends, it writes a part of the same bytes, it returns the same result with the same
    bytes written or else the error of the cancelled context, and in that case the
    stage it was in goes on reading and writing behind its back until it is over.  It
    never waits for good while a stage has something to do.  (A goroutine that a stage
    starts is run where the stage receives its result; a panic of it that comes
    earlier ends the process with the same panic, and less written.) *)
Theorem stages_under_context oprf_of rb picks draw drawOPRF all range n identifiers :
  cancellable (kkrt_Intersect_stages oprf_of rb picks drawOPRF n identifiers)
    (kkrt_Intersect oprf_of rb picks drawOPRF n identifiers) ∧
  cancellable (npsi_Intersect_stages all range draw identifiers)
    (npsi_Intersect all range draw identifiers) ∧
  cancellable (bpsi_Send_stages n identifiers) (bpsi_Send n identifiers) ∧
  cancellable (bpsi_Intersect_stages identifiers) (bpsi_Intersect identifiers).
Proof.
  split_and!; apply party_cancellable; intros r w.
  - unfold kkrt_Intersect_stages, kkrt_Intersect. cbn [sequence]. rewrite !run_bind.
    destruct (run _ r w) as [[[[table key]|e|m] r1] w1]; [|done..].
    cbn [sequence]. rewrite !run_bind. destruct (run _ r1 w1) as [[[out|e|m] r2] w2]; [|done..]. apply run_return.
  - unfold npsi_Intersect_stages, npsi_Intersect. cbn [sequence]. rewrite !run_bind.
    destruct (run _ r w) as [[[k|e|m] r1] w1]; [|done..]. apply run_return.
  - unfold bpsi_Send_stages, bpsi_Send. cbn [sequence pbind pure].
    destruct (NewBloomfilter _ n) as [b|e|m]; [apply run_return|done..].
  - unfold bpsi_Intersect_stages, bpsi_Intersect. cbn [sequence]. rewrite !run_bind.
    destruct (run _ r w) as [[[b|e|m] r1] w1]; [|done..]. apply run_return.
Qed.
End Parties.

(** The stages of a sender that writes twice: cancelled after its first write, it has
    returned, and the second write still happens. *)
Example cancelled_still_writes :
  let q : party unit := Stage (let* _ := send [1] in send [2]) (λ u, Return (Ok u)) in
  ∃ c, rtc (stage_step ErrUnexpectedEOF) (launch q {| chunks := []; final := EOF |} new_sink) c ∧
    (∃ p, control_of c = Abandoned ErrUnexpectedEOF p) ∧ written (writer c) = [1; 2].
Proof.
  intros q. eexists (Running (Abandoned ErrUnexpectedEOF (Done (Ok (Return (Ok ()))))) (Some ErrUnexpectedEOF)
    {| chunks := []; final := EOF |} {| written := [1; 2]; calls := 2; faults := λ _, None |}).
  split; [|split; [eexists; reflexivity|reflexivity]].
  eapply rtc_l; [by apply stage_calls|]. eapply rtc_l; [apply context_cancelled|].
  eapply rtc_l; [apply sel_context|]. eapply rtc_l; [by apply abandoned_calls|]. apply rtc_refl.
Qed.
